(* ===== verification/_CoqProject ===== *)
-Q . S2P
Prelude.v
Model.v
Errors.v
Env.v
Sim.v
Common.v
Wp.v
NatsUtil.v
Interleave.v
KvConcurrency.v
LargeObjects.v
Once.v
Vars.v
Publish.v
History.v
Instances.v
Integrity.v
Lifecycle.v
Lookups.v
Base62.v
TaskSpec.v
Store.v
Catalogue.v
Launch.v
Jobs.v
Duration.v
Traverse.v
Flows.v
Gateway.v
Join.v
Messages.v
Exchange.v
Compensate.v
Plan.v
Activity.v
Process.v
Handlers.v
Archive.v
Timers.v
Api.v
Access.v
Requests.v
Calls.v
ServerLife.v
ClientTask.v
Mock.v
Client.v
ClientVars.v
Worker.v
Typed.v
Listening.v
Work.v
Retry.v
Engine.v
Delivery.v
Passing.v
Working.v
Running.v
Mail.v
ClientLife.v
Pointers.v
Linter.v
Tagger.v
Validation.v
Parser.v
Load.v
Telemetry.v
Logging.v
Tracing.v
Setup.v
Dialing.v
Boot.v
TelemetryServer.v
Streaming.v
Indexer.v
