(* ===== verification/Prelude.v ===== *)
(** * SHAR: a verification development

    SHAR is a workflow engine over NATS JetStream.  BPMN processes are stored as
    workflow definitions; launching one creates an execution with process
    instances; the engine moves each instance from element to element by messages
    it publishes and consumes itself; service tasks are run by workers, which
    complete them through the API.  All state is in key-value stores, one set of
    them per namespace.  This library models the server with its start-up and its
    shutdown, the API, the Go client with its worker and its BPMN parser, the
    telemetry server, and proves what holds of them.

    ** The parts and how they interact

    A message of the stream [WORKFLOW] is taken by one of the consumers that
    [StartProcessing] ([internal/server/workflow/engine.go]) starts.  The loop
    [Process] ([common/natsutil.go]) makes a context of its headers, runs the
    consumer's handler and answers the message (acknowledged, refused, put off,
    or left unanswered and so delivered again).  Handlers call the operations
    ([internal/server/workflow/operations.go] and its neighbours), which read and
    write the stores and publish messages.  Requests reach the operations through
    the API ([server/api]), which checks the caller.  Workers
    ([internal/common/client/client.go], [client/client.go]) consume the messages
    that ask for a task and call the API.  One state, [World] of [Env.v], holds
    the stores, the published messages, the consumers and the caches; every part
    is a function of it.

    Before that a client parses a BPMN document into a workflow, checks and tags it
    ([client/parser], [common/linter]) and stores it through the API.  A server is
    made of its options ([server/server]), sets up streams, consumers and buckets
    ([common/setup]), and listens; a client connects with a handshake of versions.
    Where goroutines share something (an entry of a store, a large object, the
    request of a streaming endpoint, a stream of replies, a shutdown) the part is a
    step relation on what they share, with the steps of each goroutine.

    ** Files

    - [Prelude.v]: record update, the effect monad [gom] (a value, an error or a
      panic; the state survives all three), the relation [preserves] with its
      tactic, Go's strings and 64-bit integers.
    - [Model.v]: the messages of [proto/shar-workflow/models.proto].
    - [Errors.v]: [server/errors/errors.go], [errors.Is] and [errors.As].
    - [Env.v]: everything outside the program as the class [Env], what is known
      of it as [EnvOk]; the world, the calls to NATS, frames and effects.
    - [Sim.v]: an executable instance of [Env], for the witnesses.
    - [Common.v]: subjects, element kinds, contexts, headers, tracking ids,
      element tables, the cache ([server/messages], [common]).
    - [Wp.v]: equivalence of worlds and a weakest precondition with its rules.
    - [NatsUtil.v], [KvConcurrency.v]: the key-value helpers of
      [common/natsutil.go]; the optimistic update under any interleaving of
      clients, locks.
    - [Vars.v]: variables and expressions ([server/vars], [internal/model],
      [common/expression]).
    - [Publish.v]: publishing states and the lists of user tasks.
    - [History.v]: the process history, and the table it refines.
    - [Instances.v], [Integrity.v], [Lifecycle.v], [Lookups.v]: executions,
      process instances, jobs, fatal errors.
    - [Base62.v], [TaskSpec.v]: task specifications and their identifiers
      ([common/base62], [common/task], [common/validation],
      [internal/server/workflow/taskspec.go]).
    - [Store.v], [Catalogue.v]: storing and listing workflow definitions.
    - [Launch.v], [Jobs.v]: launching; starting and completing jobs, workflow
      errors.
    - [Duration.v]: ISO 8601 durations ([client/parser/duration.go]).
    - [Traverse.v], [Flows.v]: leaving an element.
    - [Gateway.v], [Join.v]: gateways and the merge of branches.
    - [Messages.v], [Exchange.v]: message correlation.
    - [Compensate.v], [Plan.v]: compensation.
    - [Activity.v], [Handlers.v], [Archive.v], [Timers.v]: the processors and the
      handlers of the engine, the archiving of histories, timers.
    - [Process.v]: the message loop.
    - [Api.v], [Access.v]: the endpoints, the listener and authorization.
    - [Calls.v], [Client.v]: the calls of the Go client.
    - [ClientTask.v], [Mock.v], [Worker.v], [Work.v], [Retry.v]: workers, mock
      services, retries.
    - [Engine.v]: the consumers and the API as one transition system.
    - [Delivery.v], [Passing.v], [Working.v], [Running.v]: who takes which message,
      schedules of the deliveries, elements and service tasks on the way of a
      process, and the process from its launch to its end.
    - [Mail.v]: a message from the client that sends it to the jobs that wait.
    - [Interleave.v]: programs whose calls interleave with those of others.
    - [LargeObjects.v], [Once.v]: large objects under their lock, and publishing
      once, of [common/natsutil.go]; the telemetry timer.
    - [Requests.v]: the request object that the calls of a streaming endpoint share
      ([server/api/listener.go]).  [Streaming.v]: a streamed reply.
    - [Pointers.v], [Parser.v], [Tagger.v], [Validation.v], [Linter.v]: the BPMN
      parser ([client/parser]) with the pairing of gateways, the checks of
      workflows, and the linter ([common/linter]).  [Load.v]: from a document to the
      store of the server.
    - [ClientVars.v], [Typed.v]: the client's variables ([model/client_vars.go],
      [common/valueparsing]) and its typed functions
      ([client/strongly_typed.go], [client/taskutil]).
    - [Listening.v], [ClientLife.v]: the goroutines of a client that listens, its
      heart and its shutdown.
    - [Setup.v], [Dialing.v], [Boot.v], [ServerLife.v]: set-up ([common/setup],
      [server/services/natz]), connecting a client, making a server, the life of a
      server ([server/server], [server/health]).
    - [Telemetry.v], [TelemetryServer.v], [Logging.v], [Tracing.v]: the telemetry
      server ([telemetry/server]), the log handlers ([common/shar_handler.go],
      [common/multi_handler.go], [common/logx]), trace headers
      ([common/telemetry]).
    - [Indexer.v]: the index of a bucket ([common/indexer]).

    A definition has the name of the Go function it models; a part of a function
    that is a definition of its own has a name in lower case with underscores.
    A pointer that a function changes is returned.  A nil pointer is [None], and
    following it is a [Panic].  A function that returns a value and an error is a
    computation of the monad; one that returns both at once returns a pair.  The
    channels of a streaming function are the lists of what it sends.  A loop over
    a map sees the pairs in an order that is a parameter and may change from loop
    to loop.

    ** Theorems

    - Isolation and access ([Engine.v], [Access.v]): namespaces do not touch each
      other whatever is delivered, requested or fails; a caller who is denied
      changes nothing.
    - The run of a process ([Running.v]): launched, it ends in whatever order the
      messages are delivered, having entered and left the elements of its route
      once each, with its service tasks done by a client ([Passing.v] has the steps
      over elements, [Working.v] those of a task).
    - Concurrency of the stores ([KvConcurrency.v]): of clients that run the loop of
      [updateKV], one call at a time in any order, no update is lost and every run
      ends; locks exclude.
    - The engine: which flows are taken, at exclusive gateways also ([Flows.v]), that
      a join passes once with the merged variables or panics on lists ([Join.v]), that a message reaches every receiver
      ([Exchange.v]), what is compensated and in which order ([Plan.v]), timers
      ([Timers.v]), archiving ([Archive.v]).
    - The registries: the history refines a table ([History.v]); instances,
      executions and workflow versions stay consistent under any failures
      ([Integrity.v], [Catalogue.v]); what creating, destroying and cancelling do
      ([Lifecycle.v]); task specifications ([TaskSpec.v]); user tasks
      ([Publish.v]).
    - Workers ([Work.v], [Retry.v], [Mock.v]): a service task whose function
      returns what the element's outputs read is completed by one message; retries are bounded in number and in
      time; what mocks return.
    - Messages ([Mail.v]): what a client sends arrives at every job that waits,
      once.
    - Workflows: what the parser returns is valid, as far as it checks ([Parser.v]),
      which gateways are paired ([Tagger.v]), what the checks guarantee ([Validation.v], [Linter.v]),
      and that loading stores only valid workflows ([Load.v]).
    - Goroutines: accesses to large objects exclude each other while the lock of the
      object does not expire under its holder ([LargeObjects.v]); the timer is published once ([Once.v]); a streamed reply
      arrives and ends ([Streaming.v]); when the calls of an endpoint keep to
      their own requests and when not ([Requests.v]); a shutdown comes to its end,
      and may return before the last task has ended ([Listening.v]); the index
      follows its bucket while no two keys share an index key ([Indexer.v]).
    - Servers and clients: a server that is made has its streams and stores
      ([Boot.v], [Setup.v]), is ready when it listens and drains its subscriptions
      once per process ([ServerLife.v]); a client that connects is served
      ([Dialing.v]), and counted while its heart beats, with the expiry of the
      entries of the bucket of clients ([ClientLife.v]); the
      telemetry server is set up when it starts ([TelemetryServer.v]).
    - Observability: an interval becomes one span ([Telemetry.v]); derived loggers
      keep their attributes ([Logging.v]); identifiers survive the trace headers
      ([Tracing.v]).
    - Data: transforms of variables ([Vars.v]), durations ([Duration.v]), base 62
      ([Base62.v]), error responses ([Work.v]), the text form of variables
      ([ClientVars.v]).
    - Behaviour that is not what the code means to do is stated where it was
      found and listed among the findings.

    ** Assumptions

    [EnvOk] holds what the documentation of the libraries says: identifiers are
    fresh, key-value stores keep the last write, encodings round-trip.  [NoFaults]
    (no call to NATS fails) and [ColdCache] (the cache misses) are hypotheses of
    theorems that say what an operation achieves; theorems about safety do
    without.  [ApiEnv] and [ClientEnv] are the checks of callers, versions and
    other libraries of the API and the client, without hypotheses.  Further classes
    stand for the libraries of single parts: [XmlQuery] (the XML queries of the
    parser), [TelemetryEnv] and [Otel] (OpenTelemetry), [VersionLib] (version
    numbers), [ObjectStore] (JetStream's object store), [GoSlices] (the capacity a
    slice grows to), [Subjects] (the wildcards of the broker), [ClientMsgpack] and
    [YamlEnv] (the client's encodings), [Network] (sockets and subscriptions of a
    server).  What is known of them is in classes whose names end in [Ok]; all have
    instances for the witnesses.  The
    retry loop of [updateKV] has the fuel [contention] = 100 in [NatsUtil.v]: without
    interference one round is enough.  The functions that clients run against each
    other ([updateKV_loop], [Lock], [UnLock], those of [LargeObjects.v]) are
    definitions over any instance of [GoCalls]: the monad of worlds runs them alone,
    and the programs of [Interleave.v] stop at every call.  [KvConcurrency.v] shows
    that under interference as many rounds as there are clients are enough.  The recursion over the graph of a
    process ([Linter.v], [Tagger.v], [Validation.v]) has as its fuel the frames the
    stack has room for, and running out of them is the overflow of the stack; the
    theorems say how many frames are enough for a process, or that none are.  How often
    the lock of a large object may be tried is the argument [attempts] of
    [LargeObjects.v].  All other
    recursion is structural, and the step relations need no fuel: that their runs
    end is proved with measures.

    Of a computation, [runs] is a postcondition on the outcome from a state, [ends]
    one on what it leaves and returns when it succeeds from any state, and
    [yields] one on what it returns alone.

    ** Not modelled

    Cancellation of contexts and deadlines, except of streamed replies and of
    accesses to large objects; the expiry of entries of key-value buckets, except of
    locks ([LargeObjects.v]) and of clients ([ClientLife.v]);
    JetStream's message identifiers and deduplication, and deliveries that are
    repeated although they were answered; time zones (all times are
    UTC); the export of logs, traces and metrics by the OpenTelemetry libraries and
    the set-up of their providers; the log of running jobs of the client; writes
    through pointers into cached definitions; the glue of command lines,
    configuration files, printing and embedded test servers ([cli], [zen-shar],
    [server/commands], [server/config], [telemetry/commands], the tools); generated
    code (the protocol buffers, the mocks), the fork of a reflection library in
    [common/structs], which nothing calls, the harness of the integration tests
    and the example programs. *)

From stdpp Require Export base gmap strings list sets fin_maps pretty.
From Stdlib Require Export ZArith Lia Ascii.

(** ** Record update

    [r <| f := v |>] replaces the field [f] of [r].  A record type opts in with
    an instance of [Settable], its eta-expanded constructor; the setter of a
    field is found by abstracting that field out of it. *)
Class Settable (R : Type) := settable : R → R.

Class Setter {R E : Type} (getter : R → E) := setter : (E → E) → R → R.

Ltac build_setter :=
  match goal with
  | |- @Setter ?R ?E ?getter =>
      let eta := eval unfold settable in (@settable R _) in
      let eta := eval hnf in eta in
      let body := constr:(fun (f : E → E) (r : R) =>
        ltac:(
          let b := eval cbv beta in (eta r) in
          let p := eval pattern (getter r) in b in
          match p with
          | ?k _ => let t := eval cbv beta in (k (f (getter r))) in exact t
          end)) in
      exact body
  end.

#[export] Hint Extern 1 (Setter _) => build_setter : typeclass_instances.

Declare Scope record_scope.
Delimit Scope record_scope with record.
#[warnings="-postfix-notation-not-level-1"]
Notation "r <| f := v |>" := (setter (getter:=f) (λ _, v) r)
  (at level 12, left associativity, f at level 9, v at level 99) : record_scope.
#[warnings="-postfix-notation-not-level-1"]
Notation "r <| f ::= g |>" := (setter (getter:=f) g r)
  (at level 12, left associativity, f at level 9, g at level 99) : record_scope.
Global Open Scope record_scope.
Arguments setter {R E} getter {_} _ _ /.

(** ** Results and the effect monad

    A Go call ends with a value, with a non-nil error, or with a panic.  State
    written before an error or a panic stays written, so the monad threads the
    state through all three endings. *)
Inductive res (E A : Type) : Type :=
  | Ok (a : A)
  | Err (e : E)
  | Panic (why : string).
Arguments Ok {E A} a.
Arguments Err {E A} e.
Arguments Panic {E A} why.

Definition is_ok {E A} (r : res E A) : bool :=
  match r with Ok _ => true | _ => false end.

Definition gom (E S A : Type) : Type := S → S * res E A.

Section monad.
Context {E S : Type}.

#[export] Instance gom_ret : MRet (gom E S) := λ A a s, (s, Ok a).

#[export] Instance gom_bind : MBind (gom E S) := λ A B f m s,
  match m s with
  | (s', Ok a) => f a s'
  | (s', Err e) => (s', Err e)
  | (s', Panic why) => (s', Panic why)
  end.

#[export] Instance gom_fmap : FMap (gom E S) := λ A B f m s,
  match m s with
  | (s', Ok a) => (s', Ok (f a))
  | (s', Err e) => (s', Err e)
  | (s', Panic why) => (s', Panic why)
  end.

Definition throw {A} (e : E) : gom E S A := λ s, (s, Err e).
Definition panic {A} (why : string) : gom E S A := λ s, (s, Panic why).
Definition gets {A} (f : S → A) : gom E S A := λ s, (s, Ok (f s)).
Definition modify (f : S → S) : gom E S unit := λ s, (f s, Ok tt).

(** [attempt m] is the Go idiom [v, err := m()]: the caller sees the value or
    the error, and goes on; a panic still unwinds. *)
Definition attempt {A} (m : gom E S A) : gom E S (A + E) := λ s,
  match m s with
  | (s', Ok a) => (s', Ok (inl a))
  | (s', Err e) => (s', Ok (inr e))
  | (s', Panic why) => (s', Panic why)
  end.

(** [m `wrapping` w]: an error of [m] is returned wrapped by [w]. *)
Definition wrapping {A} (w : E → E) (m : gom E S A) : gom E S A := λ s,
  match m s with
  | (s', Err e) => (s', Err (w e))
  | r => r
  end.

(** [deref why o]: dereference of a Go pointer, map entry or slice element. *)
Definition deref {A} (why : string) (o : option A) : gom E S A :=
  match o with Some a => mret a | None => panic why end.

(** [for _, x := range l { f(x) }], left at the first error. *)
Fixpoint for_each {A} (l : list A) (f : A → gom E S unit) : gom E S unit :=
  match l with
  | [] => mret tt
  | x :: l' => f x ≫= λ _, for_each l' f
  end.

(** The same loop with a local variable carried from one turn to the next. *)
Fixpoint for_fold {A B} (l : list A) (f : B → A → gom E S B) (acc : B) : gom E S B :=
  match l with
  | [] => mret acc
  | x :: l' => f acc x ≫= λ acc', for_fold l' f acc'
  end.
End monad.

(** ** Relations kept by a computation, whatever its ending *)
Definition preserves {E S A} (R : S → S → Prop) (m : gom E S A) : Prop :=
  ∀ s, R s (m s).1.

Create HintDb preserves discriminated.
#[export] Hint Constants Opaque : preserves.

Section preserves.
Context {E S : Type} (R : S → S → Prop) `{!PreOrder R}.

Lemma preserves_ret {A} (a : A) : preserves R (mret a : gom E S A).
Proof. intros s. reflexivity. Qed.

Lemma preserves_throw {A} (e : E) : preserves R (throw e : gom E S A).
Proof. intros s. reflexivity. Qed.

Lemma preserves_panic {A} why : preserves R (panic why : gom E S A).
Proof. intros s. reflexivity. Qed.

Lemma preserves_gets {A} (f : S → A) : preserves R (gets f : gom E S A).
Proof. intros s. reflexivity. Qed.

Lemma preserves_bind {A B} (m : gom E S A) (f : A → gom E S B) :
  preserves R m → (∀ a, preserves R (f a)) → preserves R (m ≫= f).
Proof.
  intros Hm Hf s. specialize (Hm s). unfold mbind, gom_bind.
  destruct (m s) as [s' [a|e|w]]; simpl in *; [|done..].
  etrans; [exact Hm | apply Hf].
Qed.

Lemma preserves_fmap {A B} (g : A → B) (m : gom E S A) :
  preserves R m → preserves R (g <$> m).
Proof.
  intros Hm s. specialize (Hm s). unfold fmap, gom_fmap.
  by destruct (m s) as [s' [a|e|w]].
Qed.

Lemma preserves_attempt {A} (m : gom E S A) :
  preserves R m → preserves R (attempt m).
Proof.
  intros Hm s. specialize (Hm s). unfold attempt.
  by destruct (m s) as [s' [a|e|w]].
Qed.

Lemma preserves_wrapping {A} w (m : gom E S A) :
  preserves R m → preserves R (wrapping w m).
Proof.
  intros Hm s. specialize (Hm s). unfold wrapping.
  by destruct (m s) as [s' [a|e|w']].
Qed.

Lemma preserves_deref {A} why (o : option A) :
  preserves R (deref why o : gom E S A).
Proof. destruct o; [apply preserves_ret | apply preserves_panic]. Qed.

Lemma preserves_for_each {A} (l : list A) (f : A → gom E S unit) :
  (∀ x, preserves R (f x)) → preserves R (for_each l f).
Proof.
  intros Hf. induction l as [|x l IH]; simpl; [apply preserves_ret|].
  by apply preserves_bind.
Qed.

Lemma preserves_for_fold {A B} (l : list A) (f : B → A → gom E S B) acc :
  (∀ b x, preserves R (f b x)) → preserves R (for_fold l f acc).
Proof.
  intros Hf. revert acc. induction l as [|x l IH]; intros acc; simpl; [apply preserves_ret|].
  apply preserves_bind; auto.
Qed.
End preserves.

Lemma preserves_mono {E S A} (R R' : S → S → Prop) (m : gom E S A) :
  (∀ s s', R s s' → R' s s') → preserves R m → preserves R' m.
Proof. intros HR Hm s. apply HR, Hm. Qed.

#[export] Hint Resolve preserves_ret preserves_throw preserves_panic preserves_gets
  preserves_deref : preserves.

(** One step of the syntax-directed proof that a computation keeps [R]; the
    leaves are closed by the [preserves] database. *)
Ltac preserves_step :=
  lazymatch goal with
  | |- preserves _ (let _ := _ in _) => cbv zeta
  | |- preserves _ (mbind _ _) => apply preserves_bind; [try apply _| |intros ?]
  | |- preserves _ (fmap _ _) => apply preserves_fmap
  | |- preserves _ (attempt _) => apply preserves_attempt
  | |- preserves _ (wrapping _ _) => apply preserves_wrapping
  | |- preserves _ (for_each _ _) => apply preserves_for_each; [try apply _|intros ?]
  | |- preserves _ (for_fold _ _ _) => apply preserves_for_fold; [try apply _|intros ? ?]
  | |- preserves _ (if ?b then _ else _) => destruct b
  | |- preserves _ (match ?x with _ => _ end) => destruct x
  | |- preserves _ (let '(_, _) := ?x in _) => destruct x
  end.

Ltac preserves_tac :=
  repeat first [ preserves_step | solve [eauto 5 with preserves typeclass_instances] ].

(** ** Running a computation that goes through *)
Lemma bind_ok {E S A B} (m : gom E S A) (f : A → gom E S B) s s' a :
  m s = (s', Ok a) → (m ≫= f) s = f a s'.
Proof. intros H. unfold mbind, gom_bind. by rewrite H. Qed.

Lemma bind_returned {E S A B} (m : gom E S A) (f : A → gom E S B) s b :
  ((m ≫= f) s).2 = Ok b → ∃ s' a, m s = (s', Ok a) ∧ (f a s').2 = Ok b.
Proof. unfold mbind, gom_bind. destruct (m s) as [s' [a|e|p]]; [|done..]. intros Hf. by exists s', a. Qed.

Lemma wrapping_returned {E S A} w (m : gom E S A) s s' a :
  wrapping w m s = (s', Ok a) → m s = (s', Ok a).
Proof. unfold wrapping. destruct (m s) as [? []]; simpl; by intros [= <- <-]. Qed.

Lemma bind_err {E S A B} (m : gom E S A) (f : A → gom E S B) s s' e :
  m s = (s', Err e) → (m ≫= f) s = (s', Err e).
Proof. intros H. unfold mbind, gom_bind. by rewrite H. Qed.

Lemma attempt_ok {E S A} (m : gom E S A) s s' a :
  m s = (s', Ok a) → attempt m s = (s', Ok (inl a)).
Proof. intros H. unfold attempt. by rewrite H. Qed.

Lemma attempt_err {E S A} (m : gom E S A) s s' e :
  m s = (s', Err e) → attempt m s = (s', Ok (inr e)).
Proof. intros H. unfold attempt. by rewrite H. Qed.

Lemma wrapping_ok {E S A} w (m : gom E S A) s s' a :
  m s = (s', Ok a) → wrapping w m s = (s', Ok a).
Proof. intros H. unfold wrapping. by rewrite H. Qed.

Lemma wrapping_err {E S A} w (m : gom E S A) s s' e :
  m s = (s', Err e) → wrapping w m s = (s', Err (w e)).
Proof. intros H. unfold wrapping. by rewrite H. Qed.

(** ** What holds at the end of a run

    [runs m s Φ]: running [m] from [s] ends in a state and a result that
    satisfy [Φ]; the rules follow the constructs of the monad. *)
Definition runs {E S A} (m : gom E S A) (s : S) (Φ : S → res E A → Prop) : Prop :=
  Φ (m s).1 (m s).2.
Arguments runs : simpl never.

(** [m] with a deferred call of [cleanup], which runs at every ending of [m] and
    whose error is only logged. *)
Definition deferring {E S A} (cleanup : gom E S unit) (m : gom E S A) : gom E S A := λ s,
  let r := m s in
  match cleanup r.1 with
  | (s', Panic p) => (s', Panic p)
  | (s', _) => (s', r.2)
  end.

Section runs.
Context {E S : Type}.

Lemma runs_deferring {A} (cleanup : gom E S unit) (m : gom E S A) s (Φ : S → res E A → Prop) :
  runs m s (λ s' r, runs cleanup s' (λ s'' r', match r' with
                                              | Panic p => Φ s'' (Panic p)
                                              | _ => Φ s'' r
                                              end)) →
  runs (deferring cleanup m) s Φ.
Proof. unfold runs, deferring. destruct (m s) as [s' r]; simpl. by destruct (cleanup s') as [? []]. Qed.

Lemma runs_mono {A} (m : gom E S A) s (Φ Ψ : S → res E A → Prop) :
  (∀ s' r, Φ s' r → Ψ s' r) → runs m s Φ → runs m s Ψ.
Proof. intros HΦ Hm. by apply HΦ. Qed.

Lemma runs_and {A} (m : gom E S A) s (Φ Ψ : S → res E A → Prop) :
  runs m s Φ → runs m s Ψ → runs m s (λ s' r, Φ s' r ∧ Ψ s' r).
Proof. by split. Qed.

Lemma runs_ret {A} (a : A) s (Φ : S → res E A → Prop) : Φ s (Ok a) → runs (mret a) s Φ.
Proof. done. Qed.

Lemma runs_throw {A} e s (Φ : S → res E A → Prop) : Φ s (Err e) → runs (throw e) s Φ.
Proof. done. Qed.

Lemma runs_modify f s (Φ : S → res E unit → Prop) : Φ (f s) (Ok tt) → runs (modify f) s Φ.
Proof. done. Qed.

Lemma runs_bind {A B} (m : gom E S A) (f : A → gom E S B) s Φ :
  runs m s (λ s' r, match r with
                    | Ok a => runs (f a) s' Φ
                    | Err e => Φ s' (Err e)
                    | Panic p => Φ s' (Panic p)
                    end) →
  runs (m ≫= f) s Φ.
Proof. unfold runs, mbind, gom_bind. by destruct (m s) as [s' []]. Qed.

Lemma runs_attempt {A} (m : gom E S A) s Φ :
  runs m s (λ s' r, match r with
                    | Ok a => Φ s' (Ok (inl a))
                    | Err e => Φ s' (Ok (inr e))
                    | Panic p => Φ s' (Panic p)
                    end) →
  runs (attempt m) s Φ.
Proof. unfold runs, attempt. by destruct (m s) as [s' []]. Qed.

Lemma runs_wrapping {A} g (m : gom E S A) s Φ :
  runs m s (λ s' r, match r with Err e => Φ s' (Err (g e)) | _ => Φ s' r end) →
  runs (wrapping g m) s Φ.
Proof. unfold runs, wrapping. by destruct (m s) as [s' []]. Qed.

(** A loop with an invariant indexed by what is done and what is left. *)
Lemma runs_for_each {A} (I : list A → S → Prop) (l : list A) (f : A → gom E S unit) s
    (Φ : S → res E unit → Prop) :
  I [] s →
  (∀ done x rest s', l = done ++ x :: rest → I done s' →
    runs (f x) s' (λ s'' r, match r with Ok _ => I (done ++ [x]) s'' | _ => Φ s'' r end)) →
  (∀ s', I l s' → Φ s' (Ok tt)) →
  runs (for_each l f) s Φ.
Proof.
  intros HI Hf HΦ.
  enough (∀ rest done s', l = done ++ rest → I done s' → runs (for_each rest f) s' Φ) as Hgen by by eapply (Hgen l []).
  induction rest as [|x rest IH]; intros done s' Hl HI'; simpl.
  - apply runs_ret, HΦ. by rewrite Hl, app_nil_r.
  - apply runs_bind. eapply runs_mono; [|by eapply Hf].
    intros s'' [[]|e|p] Hs; [|done..]. eapply (IH (done ++ [x])); [by rewrite <-app_assoc|done].
Qed.
End runs.

(** What a run that ends with a value establishes, whatever fails. *)
Definition ends {E S A} (m : gom E S A) (Q : S → A → Prop) : Prop :=
  ∀ s, runs m s (λ s' r, match r with Ok a => Q s' a | _ => True end).

Section ends.
Context {E S : Type} (R : S → S → Prop).

Lemma ends_mono {A} (m : gom E S A) (P Q : S → A → Prop) :
  (∀ s a, P s a → Q s a) → ends m P → ends m Q.
Proof. intros HPQ Hm s. eapply runs_mono; [|apply Hm]. intros s' [] H; auto. Qed.

Lemma ends_wrapping {A} g (m : gom E S A) Q : ends m Q → ends (wrapping g m) Q.
Proof. intros Hm s. apply runs_wrapping. eapply runs_mono; [|apply Hm]. by intros s' []. Qed.

Lemma ends_bind {A B} (m : gom E S A) (k : A → gom E S B) P Q :
  ends m P → (∀ s a, P s a → runs (k a) s (λ s' r, match r with Ok b => Q s' b | _ => True end)) →
  ends (m ≫= k) Q.
Proof.
  intros Hm Hk s. apply runs_bind. eapply runs_mono; [|apply Hm]. intros s' [a|e|p] HP; [|done..].
  by apply Hk.
Qed.

(** What a step has established stays while steps only go up in [R]. *)
Lemma ends_keep {A} (m : gom E S A) (P : S → Prop) s :
  preserves R m → (∀ s s', R s s' → P s → P s') → P s →
  runs m s (λ s' r, match r with Ok _ => P s' | _ => True end).
Proof. intros Hm HP Hs. unfold runs. specialize (Hm s). destruct (m s) as [s' []]; simpl in *; eauto. Qed.

Lemma ends_for_each {A} (Q : A → S → Prop) (l : list A) (f : A → gom E S unit) :
  (∀ x, preserves R (f x)) → (∀ x s s', R s s' → Q x s → Q x s') →
  (∀ x, ends (f x) (λ s _, Q x s)) → ends (for_each l f) (λ s _, Forall (λ x, Q x s) l).
Proof.
  intros Hf HQ Hx s. apply (runs_for_each (λ done s, Forall (λ x, Q x s) done)); [done| |done].
  intros done x rest s' -> Hd. specialize (Hx x s'). specialize (Hf x s'). unfold runs in *.
  destruct (f x s') as [s'' [a|e|p]]; simpl in *; [|done..].
  apply Forall_app. split; [|by constructor]. eapply Forall_impl; [exact Hd|]. eauto.
Qed.
End ends.

Ltac runs_step :=
  lazymatch goal with
  | |- runs (mbind _ _) _ _ => apply runs_bind
  | |- runs (attempt _) _ _ => apply runs_attempt
  | |- runs (wrapping _ _) _ _ => apply runs_wrapping
  | |- runs (mret _) _ _ => apply runs_ret
  | |- runs (throw _) _ _ => apply runs_throw
  | |- runs (modify _) _ _ => apply runs_modify
  end; cbv beta iota.

(** A loop of checks that only read. *)
Lemma for_each_pure {E S A} (l : list A) (f : A → gom E S unit) (r : A → res E unit) s :
  (∀ x s, f x s = (s, r x)) →
  (for_each l f s).1 = s ∧ ((for_each l f s).2 = Ok tt ↔ Forall (λ x, r x = Ok tt) l).
Proof.
  intros Hf. induction l as [|x l [IHs IHr]]; simpl; [by rewrite Forall_nil|].
  unfold mbind, gom_bind. rewrite Hf, Forall_cons.
  destruct (r x) as [[]|e|p]; simpl; [by rewrite IHr; split; [|naive_solver]|naive_solver..].
Qed.

(** ** Sums over a list, one for each of several clients *)
Lemma sum_insert {B} (f : B → nat) l i x y :
  l !! i = Some x → sum_list_with f (<[i := y]> l) + f x = sum_list_with f l + f y.
Proof.
  revert i. induction l as [|z l IH]; intros [|i]; simpl; [done|done| |].
  - intros [= ->]. lia.
  - intros Hl. specialize (IH i Hl). lia.
Qed.

Lemma sum_lookup_le {B} (f : B → nat) l i x : l !! i = Some x → f x ≤ sum_list_with f l.
Proof. revert i. induction l as [|z l IH]; intros [|i]; simpl; [done..|intros [= ->]; lia|]. intros Hi%IH. lia. Qed.

Lemma sum_two_lookups {B} (f : B → nat) l i j x y :
  l !! i = Some x → l !! j = Some y → i ≠ j → f x + f y ≤ sum_list_with f l.
Proof.
  revert i j. induction l as [|z l IH]; intros [|i] [|j]; simpl; try done.
  - intros [= ->] Hj%(sum_lookup_le f) _. lia.
  - intros Hi%(sum_lookup_le f) [= ->] _. lia.
  - intros Hi Hj Hij. specialize (IH i j Hi Hj ltac:(lia)). lia.
Qed.

(** ** Go's [strings] package, as far as the sources use it *)
Local Open Scope string_scope.

Definition HasPrefix (s p : string) : bool := String.prefix p s.

Fixpoint Contains (s sub : string) : bool :=
  String.prefix sub s ||
  match s with
  | EmptyString => false
  | String _ s' => Contains s' sub
  end.

Fixpoint HasSuffix (s suf : string) : bool :=
  bool_decide (s = suf) ||
  match s with
  | EmptyString => false
  | String _ s' => HasSuffix s' suf
  end.

(** [strings.Join]. *)
Fixpoint Join (sep : string) (l : list string) : string :=
  match l with
  | [] => ""
  | [x] => x
  | x :: l' => x +:+ sep +:+ Join sep l'
  end.

(** [strings.Split] for a one-character separator. *)
Fixpoint Split (sep : ascii) (s : string) : list string :=
  match s with
  | EmptyString => [""]
  | String c s' =>
      if bool_decide (c = sep) then "" :: Split sep s'
      else match Split sep s' with
           | [] => [String c ""]
           | w :: ws => String c w :: ws
           end
  end.

Fixpoint string_forall (P : ascii → bool) (s : string) : bool :=
  match s with
  | EmptyString => true
  | String c s' => P c && string_forall P s'
  end.

Definition lacks (c : ascii) (s : string) : bool :=
  string_forall (λ d, negb (bool_decide (d = c))) s.

Lemma length_append_string (a b : string) :
  String.length (a +:+ b) = String.length a + String.length b.
Proof.
  induction a as [|c a IH]; [done|].
  change (S (String.length (a +:+ b)) = S (String.length a + String.length b)). by rewrite IH.
Qed.

Lemma app_assoc_str (a b c : string) : (a +:+ b) +:+ c = a +:+ b +:+ c.
Proof.
  induction a as [|d a IH]; [done|].
  change (String d ((a +:+ b) +:+ c) = String d (a +:+ b +:+ c)). by rewrite IH.
Qed.

(** Two ways to split a string at a piece of one length are one. *)
Lemma append_inj_length (a b s t : string) :
  String.length s = String.length t → a +:+ s = b +:+ t → a = b ∧ s = t.
Proof.
  intros Hl. revert b. induction a as [|c a IH]; intros [|d b] Hab.
  - done.
  - change (s = String d (b +:+ t)) in Hab. subst s. simpl in Hl.
    rewrite length_append_string in Hl. lia.
  - change (String c (a +:+ s) = t) in Hab. subst t. simpl in Hl.
    rewrite length_append_string in Hl. lia.
  - change (String c (a +:+ s) = String d (b +:+ t)) in Hab. injection Hab as -> Hab.
    by apply IH in Hab as [-> ->].
Qed.

Lemma HasSuffix_app x s : HasSuffix (x +:+ s) s = true.
Proof.
  induction x as [|c x IH].
  - change ("" +:+ s) with s. destruct s; [done|]. cbn [HasSuffix]. by rewrite bool_decide_true.
  - change (String c x +:+ s) with (String c (x +:+ s)). cbn [HasSuffix]. rewrite IH. apply orb_true_r.
Qed.

(** A string that ends in two ways ends the longer way in the shorter one. *)
Lemma app_HasSuffix x s y t :
  x +:+ s = y +:+ t → (String.length s ≤ String.length t)%nat → HasSuffix t s = true.
Proof.
  revert x. induction y as [|c y IH]; intros x Hxy Hl.
  - change ("" +:+ t) with t in Hxy. rewrite <-Hxy. apply HasSuffix_app.
  - destruct x as [|d x].
    + change ("" +:+ s) with s in Hxy. subst s. rewrite length_append_string in Hl. simpl in Hl. lia.
    + change (String d (x +:+ s) = String c (y +:+ t)) in Hxy. injection Hxy as -> Hxy. by eapply IH.
Qed.

Lemma Split_lacks sep s : lacks sep s = true → Split sep s = [s].
Proof.
  induction s as [|c s IH]; [done|]. unfold lacks; simpl.
  intros [Hc Hs]%andb_true_iff. rewrite IH by done.
  case_bool_decide; [done|done].
Qed.

Lemma Split_app sep a b :
  lacks sep a = true → Split sep (a +:+ String sep b) = a :: Split sep b.
Proof.
  induction a as [|c a IH]; simpl.
  - intros _. by rewrite bool_decide_true.
  - unfold lacks; simpl. intros [Hc Ha]%andb_true_iff.
    rewrite IH by done. case_bool_decide; done.
Qed.

(** Two keys built with a separator that their first parts lack have equal
    parts. *)
Lemma lacks_app_inj sep a b a' b' :
  lacks sep a = true → lacks sep a' = true →
  a +:+ String sep b = a' +:+ String sep b' → a = a' ∧ b = b'.
Proof.
  unfold lacks. revert a'. induction a as [|c a IH]; intros [|c' a']; simpl.
  - intros _ _ H. by injection H.
  - intros _ [Hc _]%andb_true_iff H. injection H as -> _.
    by rewrite bool_decide_true in Hc.
  - intros [Hc _]%andb_true_iff _ H. injection H as -> _.
    by rewrite bool_decide_true in Hc.
  - intros [_ Ha]%andb_true_iff [_ Ha']%andb_true_iff H. injection H as -> H.
    by destruct (IH a' Ha Ha' H) as [-> ->].
Qed.

Local Close Scope string_scope.

(** ** Machine integers: Go's [int] and [int64] wrap around at 64 bits *)
Definition wrap64 (z : Z) : Z := ((z + 2 ^ 63) mod 2 ^ 64 - 2 ^ 63)%Z.

Definition in_int64 (z : Z) : Prop := (- 2 ^ 63 ≤ z < 2 ^ 63)%Z.

(** [int32(n)] *)
Definition wrap32 (z : Z) : Z := ((z + 2 ^ 31) mod 2 ^ 32 - 2 ^ 31)%Z.

Lemma wrap64_id z : in_int64 z → wrap64 z = z.
Proof. unfold in_int64, wrap64. intros H. rewrite Z.mod_small; lia. Qed.

Lemma wrap64_small z : (- 2 ^ 63 ≤ z < 2 ^ 63)%Z → wrap64 z = z.
Proof. apply wrap64_id. Qed.

Lemma wrap64_range z : in_int64 (wrap64 z).
Proof.
  unfold in_int64, wrap64.
  pose proof (Z.mod_pos_bound (z + 2 ^ 63) (2 ^ 64) ltac:(lia)). lia.
Qed.

(** ** Lists *)

(** [slices.IndexFunc] and friends work on the first element that passes. *)
Lemma last_snoc_app {A} (l : list A) x : last (l ++ [x]) = Some x.
Proof. apply last_snoc. Qed.

Lemma removelast_snoc {A} (l : list A) x : removelast (l ++ [x]) = l.
Proof.
  rewrite removelast_app by done. simpl. by rewrite app_nil_r.
Qed.

(** ** Steps *)

(** What every step keeps holds wherever the steps lead. *)
Lemma rtc_invariant {A} (R : relation A) (I : A → Prop) x y :
  (∀ a b, R a b → I a → I b) → I x → rtc R x y → I y.
Proof. intros Hstep Hx Hr. induction Hr; eauto. Qed.

(** A run, from its ending alone. *)
Lemma run_eq {A B} (p : A * B) (b : B) : p.2 = b → p = (p.1, b).
Proof. destruct p. by intros <-. Qed.
