(* ===== verification/Model.v ===== *)
(** * The data model

    The protobuf messages of [proto/shar-workflow/models.proto], as the Go
    sources use them.  A protobuf map is a [gmap]: proto3 does not distinguish
    an absent map from an empty one, so a nil Go map that came off the wire is
    the empty map here.  A pointer to a message is an [option]. *)
From S2P Require Import Prelude.

(** Byte slices: a Go string and a [[]byte] hold the same 8-bit units. *)
Abbreviation bytes := string.

(** [model.CancellationState]. *)
Inductive CancellationState :=
  | executing | completed | terminated | errored | obsolete | compensating.

(** [model.GatewayType], [model.GatewayDirection]. *)
Inductive GatewayType := exclusive | inclusive | parallel.
Inductive GatewayDirection := divergent | convergent.

(** [model.ProcessHistoryType], with the numbers the wire format gives. *)
Inductive ProcessHistoryType :=
  | processExecute | activityExecute | activityComplete | processSpawnSync
  | processComplete | processAbort | activityAbort | jobAbort | jobExecute
  | jobComplete | compensationCheckpoint.

Definition ProcessHistoryType_num (t : ProcessHistoryType) : N :=
  match t with
  | processExecute => 0 | activityExecute => 1 | activityComplete => 2
  | processSpawnSync => 3 | processComplete => 4 | processAbort => 5
  | activityAbort => 6 | jobAbort => 7 | jobExecute => 8 | jobComplete => 9
  | compensationCheckpoint => 10
  end.

Inductive WorkflowTimerType := duration | fixed.
Inductive RetryStrategy := Linear | Incremental.
Inductive RetryErrorAction :=
  | PauseWorkflow | ThrowWorkflowError | SetVariableValue | FailWorkflow.
Inductive HandlingStrategy := Pause | TearDown.

#[export] Instance CancellationState_eq_dec : EqDecision CancellationState.
Proof. solve_decision. Defined.
#[export] Instance GatewayType_eq_dec : EqDecision GatewayType.
Proof. solve_decision. Defined.
#[export] Instance GatewayDirection_eq_dec : EqDecision GatewayDirection.
Proof. solve_decision. Defined.
#[export] Instance ProcessHistoryType_eq_dec : EqDecision ProcessHistoryType.
Proof. solve_decision. Defined.
#[export] Instance WorkflowTimerType_eq_dec : EqDecision WorkflowTimerType.
Proof. solve_decision. Defined.
#[export] Instance RetryStrategy_eq_dec : EqDecision RetryStrategy.
Proof. solve_decision. Defined.
#[export] Instance RetryErrorAction_eq_dec : EqDecision RetryErrorAction.
Proof. solve_decision. Defined.
#[export] Instance HandlingStrategy_eq_dec : EqDecision HandlingStrategy.
Proof. solve_decision. Defined.

#[export] Instance ProcessHistoryType_num_inj : Inj (=) (=) ProcessHistoryType_num.
Proof. by intros [] []. Qed.

(** ** Workflow definitions *)

Record Target := mkTarget {
  tg_Id : string;
  tg_Conditions : list string;
  tg_Target : string }.

Record Targets := mkTargets {
  tgs_Target : list Target;
  tgs_DefaultTarget : Z }.

Record WfError := mkWfError {
  err_Id : string;
  err_Name : string;
  err_Code : string }.

Record CatchError := mkCatchError {
  ce_Id : string;
  ce_ErrorId : string;
  ce_Target : string;
  ce_OutputTransform : gmap string string }.

Record Timer := mkTimer {
  tm_Id : string;
  tm_Duration : string;
  tm_Target : string;
  tm_OutputTransform : gmap string string }.

Record GatewaySpec := mkGatewaySpec {
  gs_Type : GatewayType;
  gs_Direction : GatewayDirection;
  gs_ReciprocalId : string;
  gs_FixedExpectations : list string }.

Record WorkflowTimerDefinition := mkWorkflowTimerDefinition {
  wtd_Type : WorkflowTimerType;
  wtd_Value : Z;
  wtd_Repeat : Z;
  wtd_DropEvents : bool }.

Record DefaultRetryExceededBehaviour := mkRetryExceeded {
  rx_Action : RetryErrorAction;
  rx_Variable : string;
  rx_VariableType : string;
  rx_VariableValue : string;
  rx_ErrorCode : string }.

Record DefaultTaskRetry := mkDefaultTaskRetry {
  rt_Number : Z;
  rt_Strategy : RetryStrategy;
  rt_InitMilli : Z;
  rt_IntervalMilli : Z;
  rt_MaxMilli : Z;
  rt_DefaultExceeded : option DefaultRetryExceededBehaviour }.

Record Iteration := mkIteration {
  it_Collection : string;
  it_Iterator : string;
  it_CollateAs : string;
  it_CollateFrom : string }.

(** [model.Element] and [model.Process] are mutually recursive: a sub-process
    element carries a process of its own. *)
Inductive Element := mkElement {
  el_Id : string;
  el_Name : string;
  el_Type : string;
  el_Documentation : string;
  el_Execute : string;
  el_Outbound : option Targets;
  el_CompensateWith : option string;
  el_Process : option Process;
  el_Msg : string;
  el_Candidates : string;
  el_CandidateGroups : string;
  el_Errors : list CatchError;
  el_Error : option WfError;
  el_InputTransform : gmap string string;
  el_OutputTransform : gmap string string;
  el_Timer : option WorkflowTimerDefinition;
  el_BoundaryTimer : list Timer;
  el_Gateway : option GatewaySpec;
  el_Iteration : option Iteration;
  el_Version : option string;
  el_RetryBehaviour : option DefaultTaskRetry;
  el_IsForCompensation : bool }
with Process := mkProcess {
  pr_Elements : list Element;
  pr_Id : string;
  pr_TimedStart : option bool (* the Metadata message, when present *) }.

Record MessageReceiver := mkMessageReceiver {
  mr_Id : string;
  mr_ProcessIdToStart : string }.

Record MessageReceivers := mkMessageReceivers {
  mrs_MessageReceiver : list MessageReceiver;
  mrs_AssociatedWorkflowName : string }.

Record Participant := mkParticipant {
  pt_Id : string;
  pt_ProcessId : string }.

Record Workflow := mkWorkflow {
  wf_Name : string;
  wf_Process : gmap string Process;
  wf_Messages : list Element;
  wf_Errors : list WfError;
  wf_GzipSource : bytes;
  wf_Participants : option (list Participant) (* Collaboration, when present *);
  wf_MessageReceivers : gmap string MessageReceivers;
  wf_AutoLaunchHeaders : bytes }.

Record WorkflowVersion := mkWorkflowVersion {
  wv_Id : string;
  wv_Sha256 : bytes;
  wv_Number : Z }.

Record WorkflowVersions := mkWorkflowVersions {
  wvs_Version : list WorkflowVersion;
  wvs_IsExecutionDisabled : bool }.

(** ** Running state *)

Record WorkflowTimer := mkWorkflowTimer {
  wt_LastFired : Z;
  wt_Count : Z }.

Record Compensation := mkCompensation {
  cp_Step : Z;
  cp_TotalSteps : Z;
  cp_ForTrackingId : string }.

Record WorkflowState := mkWorkflowState {
  ws_WorkflowId : string;
  ws_ExecutionId : string;
  ws_ElementId : string;
  ws_ElementType : string;
  ws_Id : list string;
  ws_ExecuteVersion : string;
  ws_Execute : option string;
  ws_State : CancellationState;
  ws_Condition : option string;
  ws_UnixTimeNano : Z;
  ws_Vars : bytes;
  ws_Owners : list string;
  ws_Groups : list string;
  ws_Error : option WfError;
  ws_Timer : option WorkflowTimer;
  ws_WorkflowName : string;
  ws_ProcessId : string;
  ws_ProcessInstanceId : string;
  ws_SatisfiesGatewayExpectation : gmap string (list string);
  ws_GatewayExpectations : gmap string (list string);
  ws_TraceParent : string;
  ws_Compensation : option Compensation;
  ws_ElementName : string;
  ws_PreviousActivity : string;
  ws_PreviousElement : string }.

Record ProcessHistoryEntry := mkProcessHistoryEntry {
  ph_ItemType : ProcessHistoryType;
  ph_WorkflowId : option string;
  ph_ExecutionId : option string;
  ph_ElementId : option string;
  ph_ElementName : option string;
  ph_ProcessInstanceId : option string;
  ph_CancellationState : option CancellationState;
  ph_Vars : bytes;
  ph_Timer : option WorkflowTimer;
  ph_Error : option WfError;
  ph_UnixTimeNano : Z;
  ph_Execute : option string;
  ph_Id : list string;
  ph_Compensating : bool;
  ph_ProcessId : string;
  ph_SatisfiesGatewayExpectation : gmap string (list string);
  ph_GatewayExpectations : gmap string (list string);
  ph_WorkflowName : string;
  ph_PreviousActivity : string;
  ph_PreviousElement : string }.

Record Gateway := mkGateway {
  gw_MetExpectations : gmap string string;
  gw_Vars : list bytes;
  gw_Visits : Z }.

Record Execution := mkExecution {
  ex_ExecutionId : string;
  ex_WorkflowId : string;
  ex_WorkflowName : string;
  ex_ProcessInstanceId : list string }.

Record ProcessInstance := mkProcessInstance {
  pi_ProcessInstanceId : string;
  pi_ExecutionId : string;
  pi_ParentProcessId : option string;
  pi_ParentElementId : option string;
  pi_WorkflowId : string;
  pi_WorkflowName : string;
  pi_ProcessId : string;
  pi_GatewayComplete : gmap string bool;
  pi_Headers : bytes }.

Record MessageInstance := mkMessageInstance {
  mi_Name : string;
  mi_CorrelationKey : string;
  mi_Vars : bytes }.

Record Sender := mkSender {
  sd_Vars : bytes;
  sd_CorrelationKey : string }.

Record Receiver := mkReceiver {
  rc_Id : string;
  rc_CorrelationKey : string }.

Record Exchange := mkExchange {
  xc_Sender : option Sender;
  xc_Receivers : gmap string Receiver }.

Record UserTasks := mkUserTasks { ut_Id : list string }.

(** ** Task specifications *)

Record TaskParameter := mkTaskParameter {
  pm_Name : string;
  pm_Type : string;
  pm_Collection : bool;
  pm_Mandatory : bool;
  pm_ValidateExpr : string;
  pm_Example : string }.

Record TaskParameters := mkTaskParameters {
  tp_Input : list TaskParameter;
  tp_Output : list TaskParameter }.

Record TaskMockBehaviours := mkTaskMockBehaviours {
  mb_ErrorCodeExpr : string;
  mb_FatalErrorExpr : string }.

Record TaskBehaviour := mkTaskBehaviour {
  tb_DefaultRetry : option DefaultTaskRetry;
  tb_EstimatedMaxDuration : Z;
  tb_Unsafe : bool;
  tb_Mock : bool;
  tb_Deprecated : bool;
  tb_MockBehaviour : option TaskMockBehaviours }.

Record TaskMetadata := mkTaskMetadata {
  md_Uid : string;
  md_Type : string;
  md_Version : string }.

Record TaskSpec := mkTaskSpec {
  ts_Version : string;
  ts_Kind : string;
  ts_Metadata : option TaskMetadata;
  ts_Behaviour : option TaskBehaviour;
  ts_Parameters : option TaskParameters }.

Record TaskSpecVersions := mkTaskSpecVersions { tsv_Id : list string }.

Record FatalError := mkFatalError {
  fe_HandlingStrategy : HandlingStrategy;
  fe_WorkflowState : WorkflowState }.

Record HeartbeatRequest := mkHeartbeatRequest {
  hb_Host : string;
  hb_Id : string;
  hb_Time : Z }.

Record DisableWorkflowLaunch := mkDisableWorkflowLaunch {
  dw_Timestamp : Z;
  dw_WorkflowName : string }.

(** ** Field updates *)
#[export] Instance Target_settable : Settable Target := λ r,
  mkTarget (tg_Id r) (tg_Conditions r) (tg_Target r).
#[export] Instance Targets_settable : Settable Targets := λ r,
  mkTargets (tgs_Target r) (tgs_DefaultTarget r).
#[export] Instance WfError_settable : Settable WfError := λ r,
  mkWfError (err_Id r) (err_Name r) (err_Code r).
#[export] Instance CatchError_settable : Settable CatchError := λ r,
  mkCatchError (ce_Id r) (ce_ErrorId r) (ce_Target r) (ce_OutputTransform r).
#[export] Instance Timer_settable : Settable Timer := λ r,
  mkTimer (tm_Id r) (tm_Duration r) (tm_Target r) (tm_OutputTransform r).
#[export] Instance GatewaySpec_settable : Settable GatewaySpec := λ r,
  mkGatewaySpec (gs_Type r) (gs_Direction r) (gs_ReciprocalId r) (gs_FixedExpectations r).
#[export] Instance WorkflowTimerDefinition_settable : Settable WorkflowTimerDefinition := λ r,
  mkWorkflowTimerDefinition (wtd_Type r) (wtd_Value r) (wtd_Repeat r) (wtd_DropEvents r).
#[export] Instance DefaultRetryExceededBehaviour_settable : Settable DefaultRetryExceededBehaviour := λ r,
  mkRetryExceeded (rx_Action r) (rx_Variable r) (rx_VariableType r) (rx_VariableValue r)
    (rx_ErrorCode r).
#[export] Instance DefaultTaskRetry_settable : Settable DefaultTaskRetry := λ r,
  mkDefaultTaskRetry (rt_Number r) (rt_Strategy r) (rt_InitMilli r) (rt_IntervalMilli r)
    (rt_MaxMilli r) (rt_DefaultExceeded r).
#[export] Instance Iteration_settable : Settable Iteration := λ r,
  mkIteration (it_Collection r) (it_Iterator r) (it_CollateAs r) (it_CollateFrom r).
#[export] Instance Element_settable : Settable Element := λ r,
  mkElement (el_Id r) (el_Name r) (el_Type r) (el_Documentation r) (el_Execute r) (el_Outbound
    r) (el_CompensateWith r) (el_Process r) (el_Msg r) (el_Candidates r) (el_CandidateGroups r)
    (el_Errors r) (el_Error r) (el_InputTransform r) (el_OutputTransform r) (el_Timer r)
    (el_BoundaryTimer r) (el_Gateway r) (el_Iteration r) (el_Version r) (el_RetryBehaviour r)
    (el_IsForCompensation r).
#[export] Instance Process_settable : Settable Process := λ r,
  mkProcess (pr_Elements r) (pr_Id r) (pr_TimedStart r).
#[export] Instance MessageReceiver_settable : Settable MessageReceiver := λ r,
  mkMessageReceiver (mr_Id r) (mr_ProcessIdToStart r).
#[export] Instance MessageReceivers_settable : Settable MessageReceivers := λ r,
  mkMessageReceivers (mrs_MessageReceiver r) (mrs_AssociatedWorkflowName r).
#[export] Instance Participant_settable : Settable Participant := λ r,
  mkParticipant (pt_Id r) (pt_ProcessId r).
#[export] Instance Workflow_settable : Settable Workflow := λ r,
  mkWorkflow (wf_Name r) (wf_Process r) (wf_Messages r) (wf_Errors r) (wf_GzipSource r)
    (wf_Participants r) (wf_MessageReceivers r) (wf_AutoLaunchHeaders r).
#[export] Instance WorkflowVersion_settable : Settable WorkflowVersion := λ r,
  mkWorkflowVersion (wv_Id r) (wv_Sha256 r) (wv_Number r).
#[export] Instance WorkflowVersions_settable : Settable WorkflowVersions := λ r,
  mkWorkflowVersions (wvs_Version r) (wvs_IsExecutionDisabled r).
#[export] Instance WorkflowTimer_settable : Settable WorkflowTimer := λ r,
  mkWorkflowTimer (wt_LastFired r) (wt_Count r).
#[export] Instance Compensation_settable : Settable Compensation := λ r,
  mkCompensation (cp_Step r) (cp_TotalSteps r) (cp_ForTrackingId r).
#[export] Instance WorkflowState_settable : Settable WorkflowState := λ r,
  mkWorkflowState (ws_WorkflowId r) (ws_ExecutionId r) (ws_ElementId r) (ws_ElementType r)
    (ws_Id r) (ws_ExecuteVersion r) (ws_Execute r) (ws_State r) (ws_Condition r)
    (ws_UnixTimeNano r) (ws_Vars r) (ws_Owners r) (ws_Groups r) (ws_Error r) (ws_Timer r)
    (ws_WorkflowName r) (ws_ProcessId r) (ws_ProcessInstanceId r)
    (ws_SatisfiesGatewayExpectation r) (ws_GatewayExpectations r) (ws_TraceParent r)
    (ws_Compensation r) (ws_ElementName r) (ws_PreviousActivity r) (ws_PreviousElement r).
#[export] Instance ProcessHistoryEntry_settable : Settable ProcessHistoryEntry := λ r,
  mkProcessHistoryEntry (ph_ItemType r) (ph_WorkflowId r) (ph_ExecutionId r) (ph_ElementId r)
    (ph_ElementName r) (ph_ProcessInstanceId r) (ph_CancellationState r) (ph_Vars r) (ph_Timer
    r) (ph_Error r) (ph_UnixTimeNano r) (ph_Execute r) (ph_Id r) (ph_Compensating r)
    (ph_ProcessId r) (ph_SatisfiesGatewayExpectation r) (ph_GatewayExpectations r)
    (ph_WorkflowName r) (ph_PreviousActivity r) (ph_PreviousElement r).
#[export] Instance Gateway_settable : Settable Gateway := λ r,
  mkGateway (gw_MetExpectations r) (gw_Vars r) (gw_Visits r).
#[export] Instance Execution_settable : Settable Execution := λ r,
  mkExecution (ex_ExecutionId r) (ex_WorkflowId r) (ex_WorkflowName r) (ex_ProcessInstanceId r).
#[export] Instance ProcessInstance_settable : Settable ProcessInstance := λ r,
  mkProcessInstance (pi_ProcessInstanceId r) (pi_ExecutionId r) (pi_ParentProcessId r)
    (pi_ParentElementId r) (pi_WorkflowId r) (pi_WorkflowName r) (pi_ProcessId r)
    (pi_GatewayComplete r) (pi_Headers r).
#[export] Instance MessageInstance_settable : Settable MessageInstance := λ r,
  mkMessageInstance (mi_Name r) (mi_CorrelationKey r) (mi_Vars r).
#[export] Instance Sender_settable : Settable Sender := λ r,
  mkSender (sd_Vars r) (sd_CorrelationKey r).
#[export] Instance Receiver_settable : Settable Receiver := λ r,
  mkReceiver (rc_Id r) (rc_CorrelationKey r).
#[export] Instance Exchange_settable : Settable Exchange := λ r,
  mkExchange (xc_Sender r) (xc_Receivers r).
#[export] Instance UserTasks_settable : Settable UserTasks := λ r,
  mkUserTasks (ut_Id r).
#[export] Instance TaskParameter_settable : Settable TaskParameter := λ r,
  mkTaskParameter (pm_Name r) (pm_Type r) (pm_Collection r) (pm_Mandatory r) (pm_ValidateExpr r)
    (pm_Example r).
#[export] Instance TaskParameters_settable : Settable TaskParameters := λ r,
  mkTaskParameters (tp_Input r) (tp_Output r).
#[export] Instance TaskMockBehaviours_settable : Settable TaskMockBehaviours := λ r,
  mkTaskMockBehaviours (mb_ErrorCodeExpr r) (mb_FatalErrorExpr r).
#[export] Instance TaskBehaviour_settable : Settable TaskBehaviour := λ r,
  mkTaskBehaviour (tb_DefaultRetry r) (tb_EstimatedMaxDuration r) (tb_Unsafe r) (tb_Mock r)
    (tb_Deprecated r) (tb_MockBehaviour r).
#[export] Instance TaskMetadata_settable : Settable TaskMetadata := λ r,
  mkTaskMetadata (md_Uid r) (md_Type r) (md_Version r).
#[export] Instance TaskSpec_settable : Settable TaskSpec := λ r,
  mkTaskSpec (ts_Version r) (ts_Kind r) (ts_Metadata r) (ts_Behaviour r) (ts_Parameters r).
#[export] Instance TaskSpecVersions_settable : Settable TaskSpecVersions := λ r,
  mkTaskSpecVersions (tsv_Id r).
#[export] Instance FatalError_settable : Settable FatalError := λ r,
  mkFatalError (fe_HandlingStrategy r) (fe_WorkflowState r).
#[export] Instance HeartbeatRequest_settable : Settable HeartbeatRequest := λ r,
  mkHeartbeatRequest (hb_Host r) (hb_Id r) (hb_Time r).
#[export] Instance DisableWorkflowLaunch_settable : Settable DisableWorkflowLaunch := λ r,
  mkDisableWorkflowLaunch (dw_Timestamp r) (dw_WorkflowName r).
