(* ===== verification/Errors.v ===== *)
(** * Errors

    The error values of [server/errors/errors.go], with Go's wrapping: a chain
    of [fmt.Errorf("...: %w", err)] around a sentinel or a fatal error, and the
    tests [errors.Is] and [errors.As] that look down the chain.  None of
    [ErrWorkflowFatal], [workflow.Error] and [api.Error] has an [Unwrap]
    method, so the chain stops at them.  A pointer to one of these structs and
    the struct itself are different dynamic types, and [errors.As] finds the
    one it is asked for only. *)
From S2P Require Import Prelude Model.

(** The package-level error values: SHAR's own, the ones of the NATS client
    the sources test for, and the linter's. *)
Inductive sentinel :=
  (* server/errors *)
  | ErrClosing | ErrExecutionNotFound | ErrProcessInstanceNotFound
  | ErrWorkflowNotFound | ErrWorkflowVersionNotFound | ErrElementNotFound
  | ErrStateNotFound | ErrJobNotFound | ErrMissingCorrelation
  | ErrWorkflowErrorNotFound | ErrUndefinedVariable | ErrMissingErrorCode
  | ErrFailedToParseISO8601 | ErrBadTimerEventDefinition | ErrBadTimeCycle
  | ErrCorrelationFail | ErrMissingID | ErrMissingServiceTaskDefinition
  | ErrExpectedVar | ErrCancelFailed | ErrInvalidState | ErrApiAuthZFail
  | ErrApiAuthNFail | ErrLint | ErrGatewayInstanceNotFound | ErrProcessNotFound
  | ErrUnhandledWorkflowError | ErrServiceTaskAlreadyRegistered
  | ErrMessageSenderAlreadyRegistered | ErrBadlyQuotedIdentifier | ErrExtractingVar
  (* model *)
  | ErrVarNotFound
  (* common/linter *)
  | ErrMissingEndEvent | ErrMissingOpeningGateway
  (* github.com/nats-io/nats.go/jetstream *)
  | ErrKeyNotFound | ErrNoKeysFound | ErrConsumerNotFound | ErrStreamNotFound
  | ErrObjectNotFound | ErrMsgNotFound | ErrKeyExists | ErrBucketNotFound
  | ErrNoObjectsFound
  (* context *)
  | DeadlineExceeded | Canceled.

#[export] Instance sentinel_eq_dec : EqDecision sentinel.
Proof. solve_decision. Defined.

(** Go error values. *)
Inductive error :=
  | Sentinel (s : sentinel)
  | New (msg : string)
  | Wrap (msg : string) (e : error)
  | ErrWorkflowFatal (e : error) (st : option WorkflowState)
  | ErrWorkflowFatal_value (e : error)      (* the struct, not a pointer to it *)
  | WorkflowError (code : string)           (* a *workflow.Error *)
  | WorkflowError_value (code : string)     (* a workflow.Error *)
  | ApiError (code : Z) (message : string)  (* a *api.Error *)
  | WrongLastSequence (* a jetstream.APIError with code 10071 *)
  | AbandonOpError (e : error) (* telemetry/server/errors.go *).

(** [errors.Is(err, target)] for a sentinel target. *)
Fixpoint Is (e : error) (target : sentinel) : bool :=
  match e with
  | Sentinel s => bool_decide (s = target)
  | Wrap _ e' => Is e' target
  | _ => false
  end.

(** [errors.As(err, &wff)] for [wff *ErrWorkflowFatal]: the first fatal error
    of the chain. *)
Fixpoint AsWorkflowFatal (e : error) : option (error * option WorkflowState) :=
  match e with
  | ErrWorkflowFatal e' st => Some (e', st)
  | Wrap _ e' => AsWorkflowFatal e'
  | _ => None
  end.

(** [errors.As(err, wfe)] for [wfe *workflow.Error]: looks for the struct. *)
Fixpoint AsWorkflowError_value (e : error) : option string :=
  match e with
  | WorkflowError_value code => Some code
  | Wrap _ e' => AsWorkflowError_value e'
  | _ => None
  end.

(** [errors.As(err, &wfe)] for [wfe *workflow.Error]: looks for the pointer. *)
Fixpoint AsWorkflowError (e : error) : option string :=
  match e with
  | WorkflowError code => Some code
  | Wrap _ e' => AsWorkflowError e'
  | _ => None
  end.

(** [errors.As(err, &ae)] for [ae *api.Error]. *)
Fixpoint AsApiError (e : error) : option (Z * string) :=
  match e with
  | ApiError code message => Some (code, message)
  | Wrap _ e' => AsApiError e'
  | _ => None
  end.

(** [errors.As(err, &escape)] for [escape *AbandonOpError]. *)
Fixpoint AsAbandonOpError (e : error) : option error :=
  match e with
  | AbandonOpError e' => Some e'
  | Wrap _ e' => AsAbandonOpError e'
  | _ => None
  end.

Definition IsWorkflowFatal (e : error) : bool :=
  bool_decide (is_Some (AsWorkflowFatal e)).

Definition integrityErrors : list sentinel :=
  [ErrKeyNotFound; ErrNoKeysFound; ErrConsumerNotFound; ErrStreamNotFound;
   ErrObjectNotFound; ErrMsgNotFound; ErrElementNotFound; ErrJobNotFound;
   ErrExecutionNotFound; ErrProcessNotFound; ErrProcessInstanceNotFound;
   ErrStateNotFound; ErrWorkflowNotFound; ErrGatewayInstanceNotFound;
   ErrWorkflowVersionNotFound; ErrWorkflowErrorNotFound].

Definition IsNotFound (e : error) : bool :=
  existsb (Is e) integrityErrors.

Definition CheckIfFatal (e : error) : error :=
  match AsWorkflowFatal e with
  | Some _ => e
  | None => if IsNotFound e then ErrWorkflowFatal e None else e
  end.

(** [errors.Errorf(format, ..., err)]: the wrap, then [CheckIfFatal]. *)
Definition Errorf (msg : string) (e : error) : error := CheckIfFatal (Wrap msg e).

Definition ErrFatalBadDuration : error :=
  ErrWorkflowFatal (New "timer embargo value could not be evaluated to an int or a duration") None.

(** Wrapping is transparent to every test. *)
Lemma Is_Wrap msg e t : Is (Wrap msg e) t = Is e t.
Proof. done. Qed.

Lemma IsNotFound_Wrap msg e : IsNotFound (Wrap msg e) = IsNotFound e.
Proof. done. Qed.

Lemma IsNotFound_Sentinel s : IsNotFound (Sentinel s) = bool_decide (s ∈ integrityErrors).
Proof. by destruct s. Qed.

(** The chain of an error ends in exactly one leaf. *)
Fixpoint leaf (e : error) : error :=
  match e with Wrap _ e' => leaf e' | _ => e end.

Lemma Is_leaf e t : Is e t = true ↔ leaf e = Sentinel t.
Proof.
  induction e as [s| |msg e IH| | | | | | |]; simpl; try done.
  rewrite bool_decide_eq_true. split; [by intros ->|congruence].
Qed.

Lemma IsWorkflowFatal_leaf e :
  IsWorkflowFatal e = true ↔ ∃ e' st, leaf e = ErrWorkflowFatal e' st.
Proof.
  unfold IsWorkflowFatal. rewrite bool_decide_eq_true.
  induction e; simpl; try done; (split; [intros [? ?]|intros (? & ? & ?)]); try done; eauto.
Qed.

(** A fatal error hides the sentinel it carries: no not-found test sees it. *)
Lemma fatal_not_found e : IsWorkflowFatal e = true → IsNotFound e = false.
Proof.
  intros (e' & st & Hf)%IsWorkflowFatal_leaf. unfold IsNotFound.
  apply not_true_is_false. intros (s & _ & Hs)%existsb_exists.
  apply Is_leaf in Hs. congruence.
Qed.

(** Everything [CheckIfFatal] lets through as not fatal is neither fatal nor a
    not-found error, and it never changes an error that already was fatal. *)
Lemma CheckIfFatal_spec e :
  IsWorkflowFatal (CheckIfFatal e) = IsWorkflowFatal e || IsNotFound e.
Proof.
  unfold CheckIfFatal, IsWorkflowFatal.
  destruct (AsWorkflowFatal e) eqn:He; [by rewrite He|].
  destruct (IsNotFound e); [done|]. by rewrite He.
Qed.
