(* ===== verification/Env.v ===== *)
(** * The outside of the program

    What SHAR calls and does not contain is a parameter here: the JetStream
    key-value stores and publisher, the KSUID generator, the clock, Go's map
    iteration order, the workflow cache, msgpack and the expression language.
    [Env] lists those operations, [EnvOk] what their documentation promises,
    and [Sim] instantiates both with executable definitions.

    Every call consumes a tick of the world's call counter, and everything
    outside answers as a function of the tick: the same call may succeed now
    and fail later, map ranges may differ from one loop to the next.
    [nats_fault] is the fault schedule: at a faulty tick the call returns an
    error, with its effect applied (a lost acknowledgement) or not. *)
From S2P Require Import Prelude Model Errors.
From stdpp Require Import countable.

(** ** Values of workflow variables: Go's [any] *)

(** Go's types of integers. *)
Inductive int_kind := Int | Int8 | Int16 | Int32 | Int64 | Uint | Uint8 | Uint16 | Uint32 | Uint64.

#[export] Instance int_kind_eq_dec : EqDecision int_kind.
Proof. solve_decision. Defined.

#[export] Instance int_kind_countable : Countable int_kind.
Proof.
  refine (inj_countable' (λ k, match k with
    | Int => 0 | Int8 => 1 | Int16 => 2 | Int32 => 3 | Int64 => 4
    | Uint => 5 | Uint8 => 6 | Uint16 => 7 | Uint32 => 8 | Uint64 => 9 end)
    (λ n, match n with
    | 0 => Int | 1 => Int8 | 2 => Int16 | 3 => Int32 | 4 => Int64
    | 5 => Uint | 6 => Uint8 | 7 => Uint16 | 8 => Uint32 | _ => Uint64 end) _).
  by intros [].
Defined.

Inductive GoVal :=
  | VNil
  | VString (s : string)
  | VInt (z : Z)                (* an int: what the expression language computes *)
  | VNum (k : int_kind) (z : Z) (* an integer of another type: what msgpack decodes *)
  | VFloat (bits : Z)           (* a float64, by its bits *)
  | VBool (b : bool)
  | VStrings (l : list string)  (* a []string *)
  | VComposite (enc : bytes)    (* any other slice or map, by its encoding *).

#[export] Instance GoVal_eq_dec : EqDecision GoVal.
Proof. solve_decision. Defined.

#[export] Instance GoVal_countable : Countable GoVal.
Proof.
  refine (inj_countable'
    (λ v, match v with
          | VNil => inl (inl (inl ()))
          | VString s => inl (inl (inr s))
          | VInt z => inl (inr (inl (inl z)))
          | VNum k z => inl (inr (inl (inr (k, z))))
          | VFloat z => inl (inr (inr z))
          | VBool b => inr (inl (inl b))
          | VStrings l => inr (inl (inr l))
          | VComposite e => inr (inr e)
          end)
    (λ x, match x with
          | inl (inl (inl ())) => VNil
          | inl (inl (inr s)) => VString s
          | inl (inr (inl (inl z))) => VInt z
          | inl (inr (inl (inr (k, z)))) => VNum k z
          | inl (inr (inr z)) => VFloat z
          | inr (inl (inl b)) => VBool b
          | inr (inl (inr l)) => VStrings l
          | inr (inr e) => VComposite e
          end) _).
  by intros [].
Defined.

(** [==] on two [float64]s: no NaN is equal to anything, the two zeros are equal. *)
Definition float_eq (a b : Z) : bool :=
  let size (x : Z) := Z.land x (2 ^ 63 - 1) in
  let nan (x : Z) := (2047 * 2 ^ 52 <? size x)%Z in
  negb (nan a || nan b) && ((a =? b)%Z || ((size a =? 0)%Z && (size b =? 0)%Z)).

(** [==] on two [any] values: values of different dynamic types, two types of
    integers also, are different; slices and maps of one dynamic type are not
    comparable, and comparing them panics ([None]). *)
Definition go_eq (v w : GoVal) : option bool :=
  match v, w with
  | VFloat a, VFloat b => Some (float_eq a b)
  | VStrings _, VStrings _ => None
  | VComposite _, VComposite _ => None
  | _, _ => Some (bool_decide (v = w))
  end.

(** ** Payloads

    Message bodies and stored values are bytes that one protobuf message
    encodes; the model keeps the message.  [DBytes] is a body the sources write
    without protobuf, and the empty body decodes as every message's zero. *)
Inductive Data :=
  | DBytes (b : bytes)
  | DState (m : WorkflowState)
  | DExecution (m : Execution)
  | DProcessInstance (m : ProcessInstance)
  | DGateway (m : Gateway)
  | DHistory (m : ProcessHistoryEntry)
  | DWorkflow (m : Workflow)
  | DVersions (m : WorkflowVersions)
  | DTaskSpec (m : TaskSpec)
  | DTaskSpecVersions (m : TaskSpecVersions)
  | DExchange (m : Exchange)
  | DReceivers (m : MessageReceivers)
  | DUserTasks (m : UserTasks)
  | DFatalError (m : FatalError)
  | DHeartbeat (m : HeartbeatRequest)
  | DMessage (m : MessageInstance)
  | DDisable (m : DisableWorkflowLaunch).

(** [proto.Marshal] and [proto.Unmarshal] at one message type. *)
Class Proto (A : Type) := {
  Marshal : A → Data;
  Decode : Data → option A;
  zero : A;
  Decode_Marshal a : Decode (Marshal a) = Some a;
  Marshal_message a b : Marshal a ≠ DBytes b }.

Definition Unmarshal `{Proto A} (d : Data) : option A :=
  match d with DBytes "" => Some zero | _ => Decode d end.

Definition zero_state : WorkflowState :=
  mkWorkflowState "" "" "" "" [] "" None executing None 0 "" [] [] None None "" "" "" ∅ ∅ ""
    None "" "" "".

#[export] Program Instance WorkflowState_proto : Proto WorkflowState := {|
  Marshal := DState; Decode d := match d with DState m => Some m | _ => None end;
  zero := zero_state |}.
Solve All Obligations with done.
#[export] Program Instance Execution_proto : Proto Execution := {|
  Marshal := DExecution; Decode d := match d with DExecution m => Some m | _ => None end;
  zero := mkExecution "" "" "" [] |}.
Solve All Obligations with done.
#[export] Program Instance ProcessInstance_proto : Proto ProcessInstance := {|
  Marshal := DProcessInstance;
  Decode d := match d with DProcessInstance m => Some m | _ => None end;
  zero := mkProcessInstance "" "" None None "" "" "" ∅ "" |}.
Solve All Obligations with done.
#[export] Program Instance Gateway_proto : Proto Gateway := {|
  Marshal := DGateway; Decode d := match d with DGateway m => Some m | _ => None end;
  zero := mkGateway ∅ [] 0 |}.
Solve All Obligations with done.
#[export] Program Instance ProcessHistoryEntry_proto : Proto ProcessHistoryEntry := {|
  Marshal := DHistory; Decode d := match d with DHistory m => Some m | _ => None end;
  zero := mkProcessHistoryEntry processExecute None None None None None None "" None None 0 None
            [] false "" ∅ ∅ "" "" "" |}.
Solve All Obligations with done.
#[export] Program Instance Workflow_proto : Proto Workflow := {|
  Marshal := DWorkflow; Decode d := match d with DWorkflow m => Some m | _ => None end;
  zero := mkWorkflow "" ∅ [] [] "" None ∅ "" |}.
Solve All Obligations with done.
#[export] Program Instance WorkflowVersions_proto : Proto WorkflowVersions := {|
  Marshal := DVersions; Decode d := match d with DVersions m => Some m | _ => None end;
  zero := mkWorkflowVersions [] false |}.
Solve All Obligations with done.
#[export] Program Instance TaskSpec_proto : Proto TaskSpec := {|
  Marshal := DTaskSpec; Decode d := match d with DTaskSpec m => Some m | _ => None end;
  zero := mkTaskSpec "" "" None None None |}.
Solve All Obligations with done.
#[export] Program Instance TaskSpecVersions_proto : Proto TaskSpecVersions := {|
  Marshal := DTaskSpecVersions;
  Decode d := match d with DTaskSpecVersions m => Some m | _ => None end;
  zero := mkTaskSpecVersions [] |}.
Solve All Obligations with done.
#[export] Program Instance Exchange_proto : Proto Exchange := {|
  Marshal := DExchange; Decode d := match d with DExchange m => Some m | _ => None end;
  zero := mkExchange None ∅ |}.
Solve All Obligations with done.
#[export] Program Instance MessageReceivers_proto : Proto MessageReceivers := {|
  Marshal := DReceivers; Decode d := match d with DReceivers m => Some m | _ => None end;
  zero := mkMessageReceivers [] "" |}.
Solve All Obligations with done.
#[export] Program Instance UserTasks_proto : Proto UserTasks := {|
  Marshal := DUserTasks; Decode d := match d with DUserTasks m => Some m | _ => None end;
  zero := mkUserTasks [] |}.
Solve All Obligations with done.
#[export] Program Instance FatalError_proto : Proto FatalError := {|
  Marshal := DFatalError; Decode d := match d with DFatalError m => Some m | _ => None end;
  zero := mkFatalError Pause zero_state |}.
Solve All Obligations with done.
#[export] Program Instance HeartbeatRequest_proto : Proto HeartbeatRequest := {|
  Marshal := DHeartbeat; Decode d := match d with DHeartbeat m => Some m | _ => None end;
  zero := mkHeartbeatRequest "" "" 0 |}.
Solve All Obligations with done.
#[export] Program Instance MessageInstance_proto : Proto MessageInstance := {|
  Marshal := DMessage; Decode d := match d with DMessage m => Some m | _ => None end;
  zero := mkMessageInstance "" "" "" |}.
Solve All Obligations with done.
#[export] Program Instance DisableWorkflowLaunch_proto : Proto DisableWorkflowLaunch := {|
  Marshal := DDisable; Decode d := match d with DDisable m => Some m | _ => None end;
  zero := mkDisableWorkflowLaunch 0 "" |}.
Solve All Obligations with done.

Lemma Unmarshal_Marshal `{Proto A} (a : A) : Unmarshal (Marshal a) = Some a.
Proof.
  unfold Unmarshal. pose proof (Decode_Marshal a) as Hd. pose proof (Marshal_message a) as Hb.
  destruct (Marshal a) as [[|]| | | | | | | | | | | | | | | |] eqn:E; try done.
  by destruct (Hb "").
Qed.

(** The stores of a namespace: [natz.NamespaceKvs]. *)
Inductive Bucket :=
  | WfExecution | WfProcessInstance | WfUserTasks | WfTaskSpec | WfTaskSpecVer
  | Wf | WfVersion | WfTracking | Job | OwnerName | OwnerID | WfClientTask
  | WfGateway | WfHistory | WfLock | WfMsgTypes | WfProcess | WfMessages
  | WfClients | WfFatalError.

#[export] Instance Bucket_eq_dec : EqDecision Bucket.
Proof. solve_decision. Defined.

(** ** JetStream key-value stores

    [kv_get] gives the latest value with its revision, the sequence number of
    the write that stored it; a deleted key has no value but stays a subject of
    the underlying stream. *)
Class KeyValue (KV : Type) := {
  kv_new : KV;
  kv_seq : KV → Z;
  kv_get : KV → string → option (Data * Z);
  kv_put : KV → string → Data → KV;
  kv_delete : KV → string → KV;
  kv_keys : KV → list string;
  kv_subjects : KV → string → list string }.

(** [Create] and [Update] are conditional puts. *)
Definition kv_create `{KeyValue KV} (kv : KV) (k : string) (d : Data) : option KV :=
  match kv_get kv k with Some _ => None | None => Some (kv_put kv k d) end.

Definition kv_update `{KeyValue KV} (kv : KV) (k : string) (d : Data) (rev : Z) : option KV :=
  match kv_get kv k with
  | Some (_, r) => if decide (r = rev) then Some (kv_put kv k d) else None
  | None => None
  end.

Class KeyValueOk (KV : Type) `{KeyValue KV} := {
  kv_get_new k : kv_get kv_new k = None;
  kv_get_put_eq kv k d : kv_get (kv_put kv k d) k = Some (d, (kv_seq kv + 1)%Z);
  kv_get_put_ne kv k k' d : k ≠ k' → kv_get (kv_put kv k d) k' = kv_get kv k';
  kv_get_delete_eq kv k : kv_get (kv_delete kv k) k = None;
  kv_get_delete_ne kv k k' : k ≠ k' → kv_get (kv_delete kv k) k' = kv_get kv k';
  kv_seq_put kv k d : kv_seq (kv_put kv k d) = (kv_seq kv + 1)%Z;
  kv_seq_delete kv k : (kv_seq kv < kv_seq (kv_delete kv k))%Z;
  kv_keys_spec kv k : k ∈ kv_keys kv ↔ is_Some (kv_get kv k);
  kv_keys_nodup kv : NoDup (kv_keys kv);
  kv_subjects_prefix kv p k : k ∈ kv_subjects kv p → HasPrefix k (p +:+ ".") = true;
  kv_subjects_live kv p k :
    is_Some (kv_get kv k) → HasPrefix k (p +:+ ".") = true → k ≠ p +:+ "." →
    k ∈ kv_subjects kv p;
  kv_subjects_nodup kv p : NoDup (kv_subjects kv p) }.

(** ** The environment *)
Class Env := {
  env_KV : Type;
  #[global] env_KeyValue :: KeyValue env_KV;
  ksuid_new : nat → string;
  time_now : nat → Z;
  nats_fault : nat → option (error * bool);
  map_order : ∀ V, nat → gmap string V → list (string * V);
  cache_hit : nat → bool;
  cache_set : nat → bool;
  msgpack_marshal : gmap string GoVal → bytes + error;
  msgpack_unmarshal : bytes → gmap string GoVal + error;
  msgpack_strings : list string → bytes;
  msgpack_int : Z → int_kind;
  fmt_other : GoVal → string;
  expr_compile : string → option error;
  expr_run : string → gmap string GoVal → res error GoVal;
  expr_identifiers : string → list string + error;
  json_workflow : Workflow → bytes + error;
  sha256 : bytes → bytes }.

(** [fmt.Sprintf("%+v", v)]; how floats and slices of [any] print is left open. *)
Definition Sprint_v `{Env} (v : GoVal) : string :=
  match v with
  | VNil => "<nil>"
  | VString s => s
  | VInt z | VNum _ z => pretty z
  | VBool b => if b then "true" else "false"
  | VStrings l => "[" +:+ Prelude.Join " " l +:+ "]"
  | VFloat _ | VComposite _ => fmt_other v
  end.

(** What a value is after a trip through msgpack: an [int] comes back at the type
    it was written as, [msgpack_int], a [[]string] as a slice of [any]. *)
Definition wire `{Env} (v : GoVal) : GoVal :=
  match v with
  | VInt z => VNum (msgpack_int z) z
  | VStrings l => VComposite (msgpack_strings l)
  | v => v
  end.

Class EnvOk `{Env} := {
  #[global] env_KeyValueOk :: KeyValueOk env_KV;
  #[global] ksuid_inj :: Inj (=) (=) ksuid_new;
  ksuid_alnum n : lacks "," (ksuid_new n) = true ∧ lacks "." (ksuid_new n) = true;
  ksuid_nonempty n : ksuid_new n ≠ "";
  map_order_perm V n (m : gmap string V) : map_order V n m ≡ₚ map_to_list m;
  msgpack_roundtrip m b : 
    msgpack_marshal m = inl b → b ≠ "" ∧ msgpack_unmarshal b = inl (wire <$> m);
  (* a server that refuses a write for its sequence has not written *)
  refused_not_applied n : nats_fault n ≠ Some (WrongLastSequence, true);
  (* "not found" is an answer, not a failure *)
  fault_not_missing n e a : nats_fault n = Some (e, a) → IsNotFound e = false }.

(** A schedule without faults, for the theorems on what a call achieves. *)
Definition NoFaults `{Env} : Prop := ∀ n, nats_fault n = None.

(** ** The world *)
Record Msg := mkMsg {
  msg_Subject : string;
  msg_Header : gmap string string;
  msg_Data : Data }.

Record World `{Env} := mkWorld {
  w_tick : nat;
  w_namespaces : gset string;
  w_kv : string → Bucket → env_KV;
  w_out : list Msg;
  w_consumers : gset string;
  w_acked : gmap string nat;
  w_cache : gmap string Workflow }.

#[export] Instance World_settable `{Env} : Settable World := λ r,
  mkWorld _ (w_tick r) (w_namespaces r) (w_kv r) (w_out r) (w_consumers r) (w_acked r)
    (w_cache r).

(** A fresh server: nothing stored, nothing published. *)
Definition world_init `{Env} : World := mkWorld _ 0 ∅ (λ _ _, kv_new) [] ∅ ∅ ∅.

Abbreviation M := (gom error World).

Definition w_set `{Env} (ns : string) (b : Bucket) (kv : env_KV) (w : World) : World :=
  w <| w_kv := λ ns' b', if decide (ns' = ns ∧ b' = b) then kv else w_kv w ns' b' |>.

Definition w_get `{Env} (w : World) (ns : string) (b : Bucket) (k : string) : option Data :=
  fst <$> kv_get (w_kv w ns b) k.

Definition w_put `{Env} (ns : string) (b : Bucket) (k : string) (d : Data) (w : World) : World :=
  w_set ns b (kv_put (w_kv w ns b) k d) w.

Definition w_del `{Env} (ns : string) (b : Bucket) (k : string) (w : World) : World :=
  w_set ns b (kv_delete (w_kv w ns b) k) w.

Definition w_pub `{Env} (m : Msg) (w : World) : World := w <| w_out ::= λ l, l ++ [m] |>.

Definition w_next `{Env} (w : World) : World := w <| w_tick ::= S |>.

Section primitives.
Context `{Env}.

(** A call to NATS with the effect [eff]. *)
Definition nats {A} (eff : World → World * res error A) : M A := λ w,
  match nats_fault (w_tick w) with
  | None => eff (w_next w)
  | Some (e, true) => ((eff (w_next w)).1, Err e)
  | Some (e, false) => (w_next w, Err e)
  end.

(** [kv.Get] *)
Definition kvGet (ns : string) (b : Bucket) (k : string) : M (Data * Z) :=
  nats (λ w, (w, match kv_get (w_kv w ns b) k with
                 | Some e => Ok e
                 | None => Err (Sentinel ErrKeyNotFound)
                 end)).

(** [kv.Put] *)
Definition kvPut (ns : string) (b : Bucket) (k : string) (d : Data) : M unit :=
  nats (λ w, (w_put ns b k d w, Ok tt)).

(** [kv.Create] *)
Definition kvCreate (ns : string) (b : Bucket) (k : string) (d : Data) : M unit :=
  nats (λ w, match kv_create (w_kv w ns b) k d with
             | Some kv => (w_set ns b kv w, Ok tt)
             | None => (w, Err (Sentinel ErrKeyExists))
             end).

(** [kv.Update], at an expected revision *)
Definition kvUpdate (ns : string) (b : Bucket) (k : string) (d : Data) (rev : Z) : M unit :=
  nats (λ w, match kv_update (w_kv w ns b) k d rev with
             | Some kv => (w_set ns b kv w, Ok tt)
             | None => (w, Err WrongLastSequence)
             end).

(** [kv.Delete]: a delete marker, also where there is nothing to delete *)
Definition kvDelete (ns : string) (b : Bucket) (k : string) : M unit :=
  nats (λ w, (w_del ns b k w, Ok tt)).

(** [kv.Keys] *)
Definition kvKeys (ns : string) (b : Bucket) : M (list string) :=
  nats (λ w, (w, match kv_keys (w_kv w ns b) with
                 | [] => Err (Sentinel ErrNoKeysFound)
                 | ks => Ok ks
                 end)).

(** The subjects of the bucket's stream under a prefix ([Stream.Info]). *)
Definition kvSubjects (ns : string) (b : Bucket) (prefix : string) : M (list string) :=
  nats (λ w, (w, Ok (kv_subjects (w_kv w ns b) prefix))).

(** [js.PublishMsg] *)
Definition natsPublish (m : Msg) : M unit := nats (λ w, (w_pub m w, Ok tt)).

(** [js.CreateOrUpdateConsumer], by durable name *)
Definition natsConsumer (name : string) : M unit :=
  nats (λ w, (w <| w_consumers ::= λ s, {[name]} ∪ s |>, Ok tt)).

(** [js.Consumer] *)
Definition natsFindConsumer (name : string) : M unit :=
  nats (λ w, (w, if bool_decide (name ∈ w_consumers w) then Ok tt
                 else Err (Sentinel ErrConsumerNotFound))).

(** [consumer.Fetch(1)] on a consumer of one subject: the first message on it
    that the consumer has not acknowledged, if any is there. *)
Definition natsFetch (name subject : string) : M (option Msg) :=
  nats (λ w, (w, Ok (filter (λ m, msg_Subject m = subject) (w_out w) !!
                       default 0 (w_acked w !! name)))).

(** [msg.Ack] of the message fetched *)
Definition natsAck (name : string) : M unit :=
  nats (λ w, (w <| w_acked ::= λ m, <[name := S (default 0 (m !! name))]> m |>, Ok tt)).

(** [ksuid.New().String()] *)
Definition newId : M string := λ w, (w_next w, Ok (ksuid_new (w_tick w))).

(** [time.Now().UnixNano()] *)
Definition timeNow : M Z := λ w, (w_next w, Ok (time_now (w_tick w))).

(** [for k, v := range m]: the pairs in the order this loop sees them *)
Definition range {V} (m : gmap string V) : M (list (string * V)) := λ w,
  (w_next w, Ok (map_order V (w_tick w) m)).
End primitives.

(** ** Reading a world after a write *)
Create Rewrite HintDb world.

Section world_lemmas.
Context `{EnvOk}.

Lemma w_kv_put_ne ns b k d w ns' b' :
  (ns', b') ≠ (ns, b) → w_kv (w_put ns b k d w) ns' b' = w_kv w ns' b'.
Proof. intros Hne. simpl. case_decide as Hd; [|done]. by destruct Hd as [-> ->]. Qed.

Lemma w_kv_del_ne ns b k w ns' b' :
  (ns', b') ≠ (ns, b) → w_kv (w_del ns b k w) ns' b' = w_kv w ns' b'.
Proof. intros Hne. simpl. case_decide as Hd; [|done]. by destruct Hd as [-> ->]. Qed.

Lemma w_get_put_eq ns b k d w : w_get (w_put ns b k d w) ns b k = Some d.
Proof.
  unfold w_get. simpl. rewrite decide_True by done. by rewrite kv_get_put_eq.
Qed.

Lemma w_get_put_ne ns b k d w ns' b' k' :
  (ns', b', k') ≠ (ns, b, k) → w_get (w_put ns b k d w) ns' b' k' = w_get w ns' b' k'.
Proof.
  intros Hne. unfold w_get. simpl. case_decide as Hd; [|done].
  destruct Hd as [-> ->]. rewrite kv_get_put_ne; naive_solver.
Qed.

Lemma w_get_put ns b k d w ns' b' k' :
  w_get (w_put ns b k d w) ns' b' k' =
  if decide ((ns', b', k') = (ns, b, k)) then Some d else w_get w ns' b' k'.
Proof.
  case_decide as Hd; [simplify_eq; apply w_get_put_eq | by apply w_get_put_ne].
Qed.

Lemma w_get_del_eq ns b k w : w_get (w_del ns b k w) ns b k = None.
Proof.
  unfold w_get. simpl. rewrite decide_True by done. by rewrite kv_get_delete_eq.
Qed.

Lemma w_get_del_ne ns b k w ns' b' k' :
  (ns', b', k') ≠ (ns, b, k) → w_get (w_del ns b k w) ns' b' k' = w_get w ns' b' k'.
Proof.
  intros Hne. unfold w_get. simpl. case_decide as Hd; [|done].
  destruct Hd as [-> ->]. rewrite kv_get_delete_ne; naive_solver.
Qed.

Lemma w_get_del ns b k w ns' b' k' :
  w_get (w_del ns b k w) ns' b' k' =
  if decide ((ns', b', k') = (ns, b, k)) then None else w_get w ns' b' k'.
Proof.
  case_decide as Hd; [simplify_eq; apply w_get_del_eq | by apply w_get_del_ne].
Qed.

Lemma w_get_next w ns b k : w_get (w_next w) ns b k = w_get w ns b k.
Proof. done. Qed.

Lemma w_get_pub m w ns b k : w_get (w_pub m w) ns b k = w_get w ns b k.
Proof. done. Qed.

Lemma w_get_init ns b k : w_get world_init ns b k = None.
Proof. unfold w_get. simpl. by rewrite kv_get_new. Qed.

Lemma kv_get_w_get w ns b k d r :
  kv_get (w_kv w ns b) k = Some (d, r) → w_get w ns b k = Some d.
Proof. unfold w_get. by intros ->. Qed.

Lemma w_get_kv_get w ns b k d :
  w_get w ns b k = Some d → ∃ r, kv_get (w_kv w ns b) k = Some (d, r).
Proof.
  unfold w_get. intros ([d' r] & Hg & ->)%fmap_Some. by exists r.
Qed.

Lemma w_get_none w ns b k : w_get w ns b k = None → kv_get (w_kv w ns b) k = None.
Proof. unfold w_get. by intros ->%fmap_None. Qed.
End world_lemmas.

#[export] Hint Rewrite @w_get_put_eq @w_get_del_eq @w_get_next @w_get_pub : world.
#[export] Hint Rewrite @w_get_put_ne @w_get_del_ne using naive_solver : world.

(** ** Frames

    A set of cells, and the two relations every operation is judged by: only
    those cells change, and only messages of one kind are published. *)
Definition Cells : Type := string → Bucket → string → Prop.

Definition frame `{Env} (T : Cells) (w w' : World) : Prop :=
  ∀ ns b k, ¬ T ns b k → kv_get (w_kv w' ns b) k = kv_get (w_kv w ns b) k.

(** The call counter never goes back. *)
Definition emits `{Env} (P : Msg → Prop) (w w' : World) : Prop :=
  w_tick w ≤ w_tick w' ∧ ∃ l, w_out w' = w_out w ++ l ∧ Forall P l.

(** All cells of a namespace; the cells of some of its buckets. *)
Definition of_ns (ns : string) : Cells := λ ns' _ _, ns' = ns.
Definition of_buckets (ns : string) (bs : list Bucket) : Cells := λ ns' b _, ns' = ns ∧ b ∈ bs.
Definition no_cells : Cells := λ _ _ _, False.

#[export] Instance frame_preorder `{Env} T : PreOrder (frame T).
Proof.
  split.
  - intros w ns b k _. done.
  - intros w1 w2 w3 H12 H23 ns b k Hn. by rewrite H23, H12.
Qed.

#[export] Instance emits_preorder `{Env} P : PreOrder (emits P).
Proof.
  split.
  - intros w. split; [done|]. exists []. by rewrite app_nil_r.
  - intros w1 w2 w3 (Ht & l & Hl & Pl) (Ht' & l' & Hl' & Pl'). split; [lia|]. exists (l ++ l').
    rewrite Hl', Hl, <-app_assoc. split; [done|]. by apply Forall_app.
Qed.

Lemma frame_mono `{Env} (T T' : Cells) w w' :
  (∀ ns b k, T ns b k → T' ns b k) → frame T w w' → frame T' w w'.
Proof. intros HT Hf ns b k Hn. apply Hf. naive_solver. Qed.

Lemma emits_mono `{Env} (P P' : Msg → Prop) w w' :
  (∀ m, P m → P' m) → emits P w w' → emits P' w w'.
Proof.
  intros HP (Ht & l & Hl & Pl). split; [done|]. exists l. split; [done|]. by eapply Forall_impl.
Qed.

Lemma frame_get `{Env} T w w' ns b k :
  frame T w w' → ¬ T ns b k → w_get w' ns b k = w_get w ns b k.
Proof. intros Hf Hn. unfold w_get. by rewrite Hf. Qed.

Lemma frame_set `{Env} (T : Cells) w ns b kv :
  (∀ k, ¬ T ns b k → kv_get kv k = kv_get (w_kv w ns b) k) → frame T w (w_set ns b kv w).
Proof.
  intros Hkv ns' b' k Hn. simpl. case_decide as Hd; [|done].
  destruct Hd as [-> ->]. by apply Hkv.
Qed.

Section frame_primitives.
Context `{EnvOk}.

Lemma preserves_nats {A} (R : World → World → Prop) `{!PreOrder R}
    (eff : World → World * res error A) :
  (∀ w, R w (w_next w)) → (∀ w, R w (eff w).1) → preserves R (nats eff).
Proof.
  intros Hn He w. unfold nats.
  destruct (nats_fault (w_tick w)) as [[e []]|]; simpl; [|done|];
    (etrans; [apply Hn | apply He]).
Qed.

Context (T : Cells).

Lemma frame_next w : frame T w (w_next w).
Proof. by intros ns b k _. Qed.

Lemma frame_put w ns b k d : T ns b k → frame T w (w_put ns b k d w).
Proof.
  intros HT. apply frame_set. intros k' Hn. apply kv_get_put_ne. by intros ->.
Qed.

Lemma frame_kvGet ns b k : preserves (frame T) (kvGet ns b k).
Proof. by apply preserves_nats; [apply _|..]. Qed.

Lemma frame_kvPut ns b k d : T ns b k → preserves (frame T) (kvPut ns b k d).
Proof. intros HT. apply preserves_nats; [apply _|done|]. intros w. by apply frame_put. Qed.

Lemma frame_kvCreate ns b k d : T ns b k → preserves (frame T) (kvCreate ns b k d).
Proof.
  intros HT. apply preserves_nats; [apply _|done|]. intros w. unfold kv_create.
  destruct (kv_get _ _); [done|]. by apply frame_put.
Qed.

Lemma frame_kvUpdate ns b k d r : T ns b k → preserves (frame T) (kvUpdate ns b k d r).
Proof.
  intros HT. apply preserves_nats; [apply _|done|]. intros w. unfold kv_update.
  destruct (kv_get _ _) as [[??]|]; [|done]. case_decide; [|done]. by apply frame_put.
Qed.

Lemma frame_kvDelete ns b k : T ns b k → preserves (frame T) (kvDelete ns b k).
Proof.
  intros HT. apply preserves_nats; [apply _|done|]. intros w. apply frame_set.
  intros k' Hn. apply kv_get_delete_ne. by intros ->.
Qed.

Lemma frame_kvKeys ns b : preserves (frame T) (kvKeys ns b).
Proof. by apply preserves_nats; [apply _|..]. Qed.

Lemma frame_kvSubjects ns b p : preserves (frame T) (kvSubjects ns b p).
Proof. by apply preserves_nats; [apply _|..]. Qed.

Lemma frame_natsPublish m : preserves (frame T) (natsPublish m).
Proof. by apply preserves_nats; [apply _|..]. Qed.

Lemma frame_natsConsumer n : preserves (frame T) (natsConsumer n).
Proof. by apply preserves_nats; [apply _|..]. Qed.

Lemma frame_newId : preserves (frame T) newId.
Proof. by intros w ns b k _. Qed.

Lemma frame_timeNow : preserves (frame T) timeNow.
Proof. by intros w ns b k _. Qed.

Lemma frame_range {V} (m : gmap string V) : preserves (frame T) (range m).
Proof. by intros w ns b k _. Qed.
End frame_primitives.

Section emits_primitives.
Context `{Env} (P : Msg → Prop).

Lemma emits_same w w' : w_tick w ≤ w_tick w' → w_out w' = w_out w → emits P w w'.
Proof. intros Ht Ho. split; [done|]. exists []. by rewrite app_nil_r. Qed.

Lemma emits_quiet {A} (eff : World → World * res error A) :
  (∀ w, w_tick (eff w).1 = w_tick w ∧ w_out (eff w).1 = w_out w) → preserves (emits P) (nats eff).
Proof.
  intros He w. destruct (He (w_next w)) as [Ht Ho].
  apply emits_same; unfold nats; destruct (nats_fault (w_tick w)) as [[e []]|]; simpl;
    rewrite ?Ht, ?Ho; simpl; auto.
Qed.

Lemma emits_kvGet ns b k : preserves (emits P) (kvGet ns b k).
Proof. by apply emits_quiet. Qed.
Lemma emits_kvPut ns b k d : preserves (emits P) (kvPut ns b k d).
Proof. by apply emits_quiet. Qed.
Lemma emits_kvCreate ns b k d : preserves (emits P) (kvCreate ns b k d).
Proof. apply emits_quiet. intros w. by destruct (kv_create _ _ _). Qed.
Lemma emits_kvUpdate ns b k d r : preserves (emits P) (kvUpdate ns b k d r).
Proof. apply emits_quiet. intros w. by destruct (kv_update _ _ _ _). Qed.
Lemma emits_kvDelete ns b k : preserves (emits P) (kvDelete ns b k).
Proof. by apply emits_quiet. Qed.
Lemma emits_kvKeys ns b : preserves (emits P) (kvKeys ns b).
Proof. by apply emits_quiet. Qed.
Lemma emits_kvSubjects ns b p : preserves (emits P) (kvSubjects ns b p).
Proof. by apply emits_quiet. Qed.
Lemma emits_natsConsumer n : preserves (emits P) (natsConsumer n).
Proof. by apply emits_quiet. Qed.
Lemma emits_newId : preserves (emits P) newId.
Proof. intros w. apply emits_same; simpl; auto. Qed.
Lemma emits_timeNow : preserves (emits P) timeNow.
Proof. intros w. apply emits_same; simpl; auto. Qed.
Lemma emits_range {V} (m : gmap string V) : preserves (emits P) (range m).
Proof. intros w. apply emits_same; simpl; auto. Qed.

Lemma emits_natsPublish m : P m → preserves (emits P) (natsPublish m).
Proof.
  intros Pm. apply preserves_nats; [apply _|..].
  - intros w. apply emits_same; simpl; auto.
  - intros w. split; [done|]. exists [m]. by rewrite Forall_singleton.
Qed.
End emits_primitives.

(** Both at once: what an operation may do to the outside. *)
Definition effect `{Env} (T : Cells) (P : Msg → Prop) (w w' : World) : Prop :=
  frame T w w' ∧ emits P w w'.

#[export] Instance effect_preorder `{Env} T P : PreOrder (effect T P).
Proof.
  split.
  - intros w. by split.
  - intros w1 w2 w3 [F12 E12] [F23 E23]. split; by etrans.
Qed.

Lemma effect_mono `{Env} (T T' : Cells) (P P' : Msg → Prop) w w' :
  (∀ ns b k, T ns b k → T' ns b k) → (∀ m, P m → P' m) → effect T P w w' → effect T' P' w w'.
Proof. intros HT HP [HF HE]. split; [by eapply frame_mono | by eapply emits_mono]. Qed.

Section effect_primitives.
Context `{EnvOk} (T : Cells) (P : Msg → Prop).

Lemma effect_intro {A} (m : M A) :
  preserves (frame T) m → preserves (emits P) m → preserves (effect T P) m.
Proof. intros HF HE w. by split. Qed.

Lemma eff_kvGet ns b k : preserves (effect T P) (kvGet ns b k).
Proof. apply effect_intro; [apply frame_kvGet | apply emits_kvGet]. Qed.
Lemma eff_kvPut ns b k d : T ns b k → preserves (effect T P) (kvPut ns b k d).
Proof. intros. apply effect_intro; [by apply frame_kvPut | apply emits_kvPut]. Qed.
Lemma eff_kvCreate ns b k d : T ns b k → preserves (effect T P) (kvCreate ns b k d).
Proof. intros. apply effect_intro; [by apply frame_kvCreate | apply emits_kvCreate]. Qed.
Lemma eff_kvUpdate ns b k d r : T ns b k → preserves (effect T P) (kvUpdate ns b k d r).
Proof. intros. apply effect_intro; [by apply frame_kvUpdate | apply emits_kvUpdate]. Qed.
Lemma eff_kvDelete ns b k : T ns b k → preserves (effect T P) (kvDelete ns b k).
Proof. intros. apply effect_intro; [by apply frame_kvDelete | apply emits_kvDelete]. Qed.
Lemma eff_kvKeys ns b : preserves (effect T P) (kvKeys ns b).
Proof. apply effect_intro; [apply frame_kvKeys | apply emits_kvKeys]. Qed.
Lemma eff_kvSubjects ns b p : preserves (effect T P) (kvSubjects ns b p).
Proof. apply effect_intro; [apply frame_kvSubjects | apply emits_kvSubjects]. Qed.
Lemma eff_natsPublish m : P m → preserves (effect T P) (natsPublish m).
Proof. intros. apply effect_intro; [apply frame_natsPublish | by apply emits_natsPublish]. Qed.
Lemma eff_natsConsumer n : preserves (effect T P) (natsConsumer n).
Proof. apply effect_intro; [apply frame_natsConsumer | apply emits_natsConsumer]. Qed.
Lemma eff_natsFindConsumer n : preserves (effect T P) (natsFindConsumer n).
Proof. apply effect_intro; [by apply preserves_nats; [apply _|..]|by apply emits_quiet]. Qed.
Lemma eff_natsFetch n s : preserves (effect T P) (natsFetch n s).
Proof. apply effect_intro; [by apply preserves_nats; [apply _|..]|by apply emits_quiet]. Qed.
Lemma eff_natsAck n : preserves (effect T P) (natsAck n).
Proof. apply effect_intro; [by apply preserves_nats; [apply _|..]|by apply emits_quiet]. Qed.
Lemma eff_newId : preserves (effect T P) newId.
Proof. apply effect_intro; [apply frame_newId | apply emits_newId]. Qed.
Lemma eff_timeNow : preserves (effect T P) timeNow.
Proof. apply effect_intro; [apply frame_timeNow | apply emits_timeNow]. Qed.
Lemma eff_range {V} (m : gmap string V) : preserves (effect T P) (range m).
Proof. apply effect_intro; [apply frame_range | apply emits_range]. Qed.
End effect_primitives.

#[export] Hint Resolve eff_kvGet eff_kvPut eff_kvCreate eff_kvUpdate eff_kvDelete eff_kvKeys
  eff_kvSubjects eff_natsPublish eff_natsConsumer eff_natsFindConsumer eff_natsFetch eff_natsAck
  eff_newId eff_timeNow @eff_range : preserves.
