(* ===== verification/Sim.v ===== *)
(** * An executable environment

    [Sim] instantiates the parameters of [Env] with definitions that compute,
    so that every theorem that assumes an environment has an instance where its
    hypotheses hold and its operations can be run: key-value stores as finite
    maps that keep delete markers, identifiers that count up, and an invertible
    encoding of variables.  The fault schedule and the expression evaluator
    are arguments. *)
From S2P Require Import Prelude Model Errors Env.
From stdpp Require Import countable pretty.

(** ** Key-value stores *)
Record SimKV := mkSimKV {
  sk_seq : Z;
  sk_map : gmap string (option Data * Z) }.

Definition sim_get (kv : SimKV) (k : string) : option (Data * Z) :=
  match sk_map kv !! k with
  | Some (Some d, r) => Some (d, r)
  | _ => None
  end.

Definition sim_live (e : string * (option Data * Z)) : bool :=
  match e with (_, (Some _, _)) => true | _ => false end.

#[export] Instance Sim_KeyValue : KeyValue SimKV := {|
  kv_new := mkSimKV 0 ∅;
  kv_seq := sk_seq;
  kv_get := sim_get;
  kv_put kv k d := mkSimKV (sk_seq kv + 1) (<[k := (Some d, (sk_seq kv + 1)%Z)]> (sk_map kv));
  kv_delete kv k := mkSimKV (sk_seq kv + 1) (<[k := (None, (sk_seq kv + 1)%Z)]> (sk_map kv));
  kv_keys kv := (filter (λ e, sim_live e = true) (map_to_list (sk_map kv))).*1;
  kv_subjects kv p :=
    filter (λ k, HasPrefix k (p +:+ ".") = true) (map_to_list (sk_map kv)).*1 |}.

Lemma NoDup_fst_filter {A B} (P : A * B → Prop) `{!∀ x, Decision (P x)} (l : list (A * B)) :
  NoDup l.*1 → NoDup (filter P l).*1.
Proof.
  induction l as [|[a b] l IH]; [done|]. rewrite filter_cons. simpl.
  intros [Hn Hl]%NoDup_cons. case_decide; [|by apply IH].
  simpl. apply NoDup_cons. split; [|by apply IH].
  intros ([a' b'] & -> & Hin)%list_elem_of_fmap. apply Hn.
  apply list_elem_of_filter in Hin as [_ Hin]. by apply (list_elem_of_fmap_2 fst _ (a', b')).
Qed.

#[export] Instance Sim_KeyValueOk : KeyValueOk SimKV.
Proof.
  split; simpl.
  - done.
  - intros kv k d. unfold sim_get. simpl. by rewrite lookup_insert_eq.
  - intros kv k k' d Hne. unfold sim_get. simpl. by rewrite lookup_insert_ne.
  - intros kv k. unfold sim_get. simpl. by rewrite lookup_insert_eq.
  - intros kv k k' Hne. unfold sim_get. simpl. by rewrite lookup_insert_ne.
  - done.
  - intros kv k. lia.
  - intros kv k. rewrite list_elem_of_fmap. unfold sim_get. split.
    + intros ([k' [[d|] r]] & -> & [Hl Hin]%list_elem_of_filter); [|done].
      apply elem_of_map_to_list in Hin. simpl. by rewrite Hin.
    + intros [[d r] Hg]. destruct (sk_map kv !! k) as [[[d'|] r']|] eqn:Hk; try done.
      exists (k, (Some d', r')). split; [done|].
      apply list_elem_of_filter. split; [done|]. by apply elem_of_map_to_list.
  - intros kv. apply NoDup_fst_filter, NoDup_fst_map_to_list.
  - intros kv p k [Hp _]%list_elem_of_filter. done.
  - intros kv p k [[d r] Hg] Hp _. apply list_elem_of_filter. split; [done|].
    unfold sim_get in Hg. destruct (sk_map kv !! k) as [v|] eqn:Hk; [|done].
    apply elem_of_map_to_list in Hk. by apply (list_elem_of_fmap_2 fst _ (k, v)).
  - intros kv p. apply NoDup_filter, NoDup_fst_map_to_list.
Qed.

(** ** Encodings *)
Fixpoint positive_bits (p : positive) : string :=
  match p with
  | xH => ""
  | xO p' => String "0" (positive_bits p')
  | xI p' => String "1" (positive_bits p')
  end.

Fixpoint bits_positive (s : string) : positive :=
  match s with
  | EmptyString => xH
  | String c s' =>
      if bool_decide (c = "1"%char) then xI (bits_positive s') else xO (bits_positive s')
  end.

Lemma bits_positive_bits p : bits_positive (positive_bits p) = p.
Proof. by induction p as [p IH|p IH|]; simpl; rewrite ?IH. Qed.

Definition sim_strings (l : list string) : bytes := positive_bits (encode l).

(** The smallest type, as msgpack writes an [int]. *)
Definition sim_int (z : Z) : int_kind :=
  if decide (0 ≤ z)%Z then
    if decide (z < 2 ^ 7)%Z then Int8 else if decide (z < 2 ^ 8)%Z then Uint8
    else if decide (z < 2 ^ 16)%Z then Uint16 else if decide (z < 2 ^ 32)%Z then Uint32 else Uint64
  else if decide (- 2 ^ 7 ≤ z)%Z then Int8 else if decide (- 2 ^ 15 ≤ z)%Z then Int16
  else if decide (- 2 ^ 31 ≤ z)%Z then Int32 else Int64.

Definition sim_wire (v : GoVal) : GoVal :=
  match v with
  | VInt z => VNum (sim_int z) z
  | VStrings l => VComposite (sim_strings l)
  | v => v
  end.

Definition sim_marshal (m : gmap string GoVal) : bytes + error :=
  inl (String "m" (positive_bits (encode (sim_wire <$> m)))).

Definition sim_unmarshal (b : bytes) : gmap string GoVal + error :=
  match b with
  | String _ b' =>
      match decode (bits_positive b') with
      | Some m => inl m
      | None => inr (New "msgpack")
      end
  | EmptyString => inr (New "EOF")
  end.

(** ** Identifiers: the decimal call counter *)
Definition sim_ksuid (n : nat) : string := pretty (N.of_nat n).

Lemma pretty_N_go_lacks c x s :
  (∀ d, pretty_N_char d ≠ c) → lacks c s = true → lacks c (pretty_N_go x s) = true.
Proof.
  intros Hc. revert s. induction (N.lt_wf_0 x) as [x _ IH]; intros s Hs.
  destruct (decide (0 < x)%N).
  - rewrite pretty_N_go_step by done. apply IH.
    + by apply N.div_lt.
    + unfold lacks in *. simpl. rewrite bool_decide_false by done. done.
  - replace x with 0%N by lia. by rewrite pretty_N_go_0.
Qed.

Lemma sim_ksuid_lacks c n :
  (∀ d, pretty_N_char d ≠ c) → lacks c (sim_ksuid n) = true.
Proof.
  intros Hc. unfold sim_ksuid, pretty, pretty_N. case_decide.
  - unfold lacks. simpl. rewrite bool_decide_false; [done|]. apply (Hc 0%N).
  - by apply pretty_N_go_lacks.
Qed.

Lemma pretty_N_char_ne c d :
  c ∉ ["0"; "1"; "2"; "3"; "4"; "5"; "6"; "7"; "8"; "9"]%char → pretty_N_char d ≠ c.
Proof.
  intros Hc Hd. apply Hc. rewrite <-Hd. clear.
  destruct d as [|[[[[]|[]|]|[[]|[]|]|]|[[[]|[]|]|[[]|[]|]|]|]]; set_solver.
Qed.

Definition sim_expr (e : string) (vars : gmap string GoVal) : res error GoVal :=
  match e with
  | "true" => Ok (VBool true)
  | "false" => Ok (VBool false)
  | _ => Ok (default VNil (vars !! e))
  end.

(** ** The environment *)
Definition Sim (fault : nat → option (error * bool)) (clock : nat → Z)
    (run : string → gmap string GoVal → res error GoVal) : Env := {|
  env_KV := SimKV;
  ksuid_new := sim_ksuid;
  time_now := clock;
  nats_fault n :=
    match fault n with
    | Some (WrongLastSequence, _) => Some (WrongLastSequence, false)
    | Some (e, a) => if IsNotFound e then None else Some (e, a)
    | None => None
    end;
  map_order V n m := map_to_list m;
  cache_hit n := false;
  cache_set n := true;
  msgpack_marshal := sim_marshal;
  msgpack_unmarshal := sim_unmarshal;
  msgpack_strings := sim_strings;
  msgpack_int := sim_int;
  fmt_other v := "";
  expr_compile e := None;
  expr_run := run;
  expr_identifiers e := inl [e];
  json_workflow wf := inl (wf_Name wf);
  sha256 b := b |}.

#[export] Instance Sim_ok fault clock run : @EnvOk (Sim fault clock run).
Proof.
  split; simpl.
  - apply _.
  - intros n m Hnm. unfold sim_ksuid in Hnm. apply (inj _) in Hnm. lia.
  - intros n. split; apply sim_ksuid_lacks; intros d; apply pretty_N_char_ne;
    by apply (bool_decide_unpack _).
  - intros n Hn. unfold sim_ksuid in Hn.
    change "" with (pretty_N_go 0%N "") in Hn. unfold pretty, pretty_N in Hn.
    case_decide as H0; [done|].
    assert (∀ x s, s ≠ "" → pretty_N_go x s ≠ "") as Hgo.
    { clear. intros x. induction (N.lt_wf_0 x) as [x _ IH]; intros s Hs.
      destruct (decide (0 < x)%N).
      - rewrite pretty_N_go_step by done. apply IH; [by apply N.div_lt|done].
      - replace x with 0%N by lia. by rewrite pretty_N_go_0. }
    rewrite pretty_N_go_step in Hn by lia. revert Hn. by apply Hgo.
  - done.
  - intros m b [= <-]. split; [done|]. simpl. by rewrite bits_positive_bits, decode_encode.
  - intros n. destruct (fault n) as [[[] ?]|]; simpl; try case_match; done.
  - intros n e a. destruct (fault n) as [[e' a']|]; [|done].
    destruct e'; simpl; try case_match; intros; simplify_eq; done.
Qed.

(** The quiet environment: no faults, a clock that counts calls. *)
Definition sim : Env := Sim (λ _, None) Z.of_nat sim_expr.

Lemma sim_NoFaults : @NoFaults sim.
Proof. done. Qed.
