(* ===== verification/Common.v ===== *)
(** * Shared pieces: contexts, subjects, identifiers, element tables

    [common/id.go], [common/state.go], [common/elementutil.go],
    [common/subj/subj.go], [common/header/header.go], [common/cache/cache.go],
    [common/element] and the subjects of [server/messages/messages.go], with the
    namespace lookup [KvsFor] of [server/services/natz/natz.go]. *)
From S2P Require Import Prelude Model Errors Env.

(** The subjects of [server/messages/messages.go]; [%s] is the namespace. *)
Module messages.
Definition StateJobExecute : string := ".State.Job.Execute.".
Definition StateJobComplete : string := ".State.Job.Complete.".
Definition WorkflowActivityAbort : string := "WORKFLOW.%s.State.Activity.Abort".
Definition WorkflowActivityComplete : string := "WORKFLOW.%s.State.Activity.Complete".
Definition WorkflowActivityExecute : string := "WORKFLOW.%s.State.Activity.Execute".
Definition WorkflowExecutionAbort : string := "WORKFLOW.%s.State.Execution.Abort".
Definition WorkflowExecutionComplete : string := "WORKFLOW.%s.State.Execution.Complete".
Definition WorkflowExecutionExecute : string := "WORKFLOW.%s.State.Execution.Execute".
Definition ExecutionTerminated : string := "WORKFLOW.%s.State.Execution.Terminated".
Definition WorkflowJobAwaitMessageExecute : string := "WORKFLOW.%s.State.Job.Execute.AwaitMessage".
Definition WorkflowJobAwaitMessageComplete : string := "WORKFLOW.%s.State.Job.Complete.AwaitMessage".
Definition WorkflowJobLaunchComplete : string := "WORKFLOW.%s.State.Job.Complete.Launch".
Definition WorkflowJobLaunchExecute : string := "WORKFLOW.%s.State.Job.Execute.Launch".
Definition WorkflowJobManualTaskComplete : string := "WORKFLOW.%s.State.Job.Complete.ManualTask".
Definition WorkflowJobManualTaskExecute : string := "WORKFLOW.%s.State.Job.Execute.ManualTask".
Definition WorkflowJobSendMessageComplete : string := "WORKFLOW.%s.State.Job.Complete.SendMessage".
Definition WorkflowJobSendMessageExecute : string := "WORKFLOW.%s.State.Job.Execute.SendMessage".
Definition WorkflowJobServiceTaskAbort : string := "WORKFLOW.%s.State.Job.Abort.ServiceTask".
Definition WorkflowJobServiceTaskComplete : string := "WORKFLOW.%s.State.Job.Complete.ServiceTask".
Definition WorkflowJobServiceTaskExecute : string := "WORKFLOW.%s.State.Job.Execute.ServiceTask".
Definition WorkflowJobTimerTaskComplete : string := "WORKFLOW.%s.State.Job.Complete.Timer".
Definition WorkflowJobTimerTaskExecute : string := "WORKFLOW.%s.State.Job.Execute.Timer".
Definition WorkflowJobUserTaskAbort : string := "WORKFLOW.%s.State.Job.Abort.UserTask".
Definition WorkflowJobUserTaskComplete : string := "WORKFLOW.%s.State.Job.Complete.UserTask".
Definition WorkflowJobUserTaskExecute : string := "WORKFLOW.%s.State.Job.Execute.UserTask".
Definition WorkflowJobGatewayTaskComplete : string := "WORKFLOW.%s.State.Job.Complete.Gateway".
Definition WorkflowJobGatewayTaskExecute : string := "WORKFLOW.%s.State.Job.Execute.Gateway".
Definition WorkflowJobGatewayTaskActivate : string := "WORKFLOW.%s.State.Job.Activate.Gateway".
Definition WorkflowJobGatewayTaskReEnter : string := "WORKFLOW.%s.State.Job.ReEnter.Gateway".
Definition WorkflowJobGatewayTaskAbort : string := "WORKFLOW.%s.State.Job.Abort.Gateway".
Definition WorkflowJobGatewayTaskAwait : string := "WORKFLOW.%s.State.Job.Await.Gateway".
Definition WorkflowJobRetry : string := "WORKFLOW.%s.State.Job.Retry".
Definition WorkflowMessage : string := "WORKFLOW.%s.Message".
Definition WorkflowProcessComplete : string := "WORKFLOW.%s.State.Process.Complete".
Definition WorkflowProcessExecute : string := "WORKFLOW.%s.State.Process.Execute".
Definition WorkflowProcessTerminated : string := "WORKFLOW.%s.State.Process.Terminated".
Definition WorkflowProcessCompensate : string := "WORKFLOW.%s.State.Process.Compensate".
Definition WorkflowTimedExecute : string := "WORKFLOW.%s.Timers.WorkflowExecute".
Definition WorkflowElementTimedExecute : string := "WORKFLOW.%s.Timers.ElementExecute".
Definition WorkflowTraversalComplete : string := "WORKFLOW.%s.State.Traversal.Complete".
Definition WorkflowTraversalExecute : string := "WORKFLOW.%s.State.Traversal.Execute".
Definition WorkflowSystemTaskCreate : string := "WORKFLOW.System.Task.Create".
Definition WorkflowSystemTaskUpdate : string := "WORKFLOW.System.Task.Update".
Definition WorkflowSystemWorkflowDisableLaunchAttempted : string := "WORKFLOW.System.Workflow.DisableLaunchAttempted".
Definition WorkflowSystemHistoryArchive : string := "WORKFLOW.System.History.Archive".
Definition WorkflowSystemProcessFatalError : string := "WORKFLOW.%s.System.Process.FatalError".
Definition WorkflowTelemetryLog : string := "WORKFLOW_TELEMETRY.Log".
Definition StateJobExecuteServiceTask : string := ".State.Job.Execute.ServiceTask".
Definition StateJobExecuteUserTask : string := ".State.Job.Execute.UserTask".
Definition StateJobExecuteManualTask : string := ".State.Job.Execute.ManualTask".
Definition StateJobExecuteSendMessage : string := ".State.Job.Execute.SendMessage".
Definition StateJobCompleteServiceTask : string := ".State.Job.Complete.ServiceTask".
Definition StateJobCompleteUserTask : string := ".State.Job.Complete.UserTask".
Definition StateJobCompleteManualTask : string := ".State.Job.Complete.ManualTask".
Definition StateJobCompleteSendMessage : string := ".State.Job.Complete.SendMessage".
Definition StateJobAbortServiceTask : string := ".State.Job.Abort.ServiceTask".
Definition StateJobAbortGateway : string := ".State.Job.Abort.Gateway".
Definition StateActivityExecute : string := ".State.Activity.Execute".
Definition StateActivityComplete : string := ".State.Activity.Complete".
Definition StateActivityAbort : string := ".State.Activity.Abort".
Definition StateExecutionExecute : string := ".State.Execution.Execute".
Definition StateExecutionComplete : string := ".State.Execution.Complete".
Definition StateExecutionAbort : string := ".State.Execution.Abort".
Definition StateProcessExecute : string := ".State.Process.Execute".
Definition StateProcessComplete : string := ".State.Process.Complete".
Definition StateProcessTerminated : string := ".State.Process.Terminated".
Definition StateTraversalExecute : string := ".State.Traversal.Execute".
Definition StateTraversalComplete : string := ".State.Traversal.Complete".
End messages.

(** The element types of [common/element]. *)
Module element.
Definition CallActivity : string := "callActivity".
Definition EndEvent : string := "endEvent".
Definition CompensateEndEvent : string := "compensateEndEvent".
Definition Gateway : string := "Gateway".
Definition LinkIntermediateCatchEvent : string := "intermediateLinkCatchEvent".
Definition LinkIntermediateThrowEvent : string := "intermediateLinkThrowEvent".
Definition ManualTask : string := "manualTask".
Definition MessageIntermediateCatchEvent : string := "messageIntermediateCatchEvent".
Definition MessageIntermediateThrowEvent : string := "intermediateMessageThrowEvent".
Definition ServiceTask : string := "serviceTask".
Definition StartEvent : string := "startEvent".
Definition TimedStartEvent : string := "timedStartEvent".
Definition TimerIntermediateCatchEvent : string := "timerIntermediateCatchEvent".
Definition UserTask : string := "userTask".
End element.

(** ** The context

    What the sources keep in a [context.Context], tracing apart: the namespace,
    the correlation id and SHAR's header values. *)
Record Ctx := mkCtx {
  ctx_SharNamespace : option string;
  ctx_Correlation : option string;
  ctx_Values : gmap string string }.

#[export] Instance Ctx_settable : Settable Ctx := λ r,
  mkCtx (ctx_SharNamespace r) (ctx_Correlation r) (ctx_Values r).

Definition GetNS (ctx : Ctx) : string := default "default" (ctx_SharNamespace ctx).

Definition SetNS (ctx : Ctx) (ns : string) : Ctx := ctx <| ctx_SharNamespace := Some ns |>.

(** [fmt.Sprintf(subj, ns)] for a format with one verb. *)
Fixpoint Sprintf1 (fmt arg : string) : string :=
  match fmt with
  | String "%" (String "s" rest) => arg +:+ rest
  | String c rest => String c (Sprintf1 rest arg)
  | EmptyString => ""
  end.

Definition NS (subj ns : string) : string :=
  if Contains subj "%s" then Sprintf1 subj ns else subj.

(** ** Message headers *)
Module header.
Definition natsSharHeader : string := "Shar-Header".
Definition SharNamespace : string := "Shar-Namespace".
Definition CorrelationHeader : string := "cid".

Definition prefixSharHeader (key : string) : string := natsSharHeader +:+ "_" +:+ key.

(** [strings.CutPrefix]. *)
Fixpoint CutPrefix (s p : string) {struct p} : option string :=
  match p, s with
  | EmptyString, _ => Some s
  | String c p', String d s' => if bool_decide (c = d) then CutPrefix s' p' else None
  | String _ _, EmptyString => None
  end.

Definition suffixOfSharHeader (key : string) : string :=
  default key (CutPrefix key (natsSharHeader +:+ "_")).

Definition toMsg (values : gmap string string) (h : gmap string string) : gmap string string :=
  kmap prefixSharHeader values ∪ h.

(** Two headers whose suffixes agree would collide; distinct header keys keep
    distinct suffixes unless one is the bare prefix. *)
Definition fromMsg (h : gmap string string) : gmap string string :=
  list_to_map (map (λ e, (suffixOfSharHeader e.1, e.2))
    (filter (λ e, HasPrefix e.1 natsSharHeader = true) (map_to_list h))).

Definition FromCtxToMsgHeader (ctx : Ctx) (h : gmap string string) : gmap string string + error :=
  match ctx_Correlation ctx with
  | None => inr (Sentinel ErrMissingCorrelation)
  | Some cid => inl (<[CorrelationHeader := cid]> (toMsg (ctx_Values ctx) h))
  end.

Definition FromMsgHeaderToCtx (ctx : Ctx) (h : gmap string string) : Ctx :=
  ctx <| ctx_Correlation := Some (default "" (h !! CorrelationHeader)) |>
      <| ctx_Values := fromMsg h |>.

(** [header.Set] and [header.Get] on the context. *)
Definition Set_ (ctx : Ctx) (key value : string) : Ctx :=
  ctx <| ctx_Values ::= <[key := value]> |>.

Definition Get (ctx : Ctx) (key : string) : string := default "" (ctx_Values ctx !! key).
End header.

(** ** Tracking identifiers: a call stack with its top at the end *)
Module TrackingID.
Definition ID (t : list string) : string := default "" (last t).

(** [t[len(t)-1-gen]], or nothing when the stack is not that deep. *)
Definition Ancestor (t : list string) (gen : nat) : string :=
  if bool_decide (0 < length t ∧ gen ≤ length t - 1)
  then default "" (t !! (length t - 1 - gen)) else "".

Definition ParentID (t : list string) : string := Ancestor t 1.

Definition Pop (t : list string) : list string :=
  if bool_decide (0 < length t) then take (length t - 1) t else t.

Definition Push (t : list string) (id : string) : list string := t ++ [id].

Definition NewID `{Env} (t : list string) : M (list string) :=
  id ← newId; mret (Push t id).
End TrackingID.

(** ** Workflow state *)
Definition CopyWorkflowState (state : WorkflowState) : WorkflowState := state.

Definition DropStateParams (state : WorkflowState) : WorkflowState :=
  state <| ws_Execute := Some "" |> <| ws_ExecuteVersion := "" |>
        <| ws_Condition := Some "" |> <| ws_Owners := [] |> <| ws_Groups := [] |>.

(** ** Element tables *)
Fixpoint index_element (i : Element) (el : gmap string Element) {struct i} : gmap string Element :=
  match i with
  | mkElement id _ _ _ _ _ _ pr _ _ _ _ _ _ _ _ _ _ _ _ _ _ =>
      let el := <[id := i]> el in
      match pr with
      | None => el
      | Some (mkProcess els _ _) =>
          (fix go (l : list Element) (el : gmap string Element) : gmap string Element :=
             match l with [] => el | j :: l' => go l' (index_element j el) end) els el
      end
  end.

Fixpoint IndexProcessElements (elements : list Element) (el : gmap string Element) :
    gmap string Element :=
  match elements with
  | [] => el
  | i :: rest => IndexProcessElements rest (index_element i el)
  end.

Definition ElementTable `{Env} (wf : Workflow) : M (gmap string Element) :=
  ps ← range (wf_Process wf);
  mret (foldl (λ el p, IndexProcessElements (pr_Elements p.2) el) ∅ ps).

Definition SeekElement `{Env} (wf : Workflow) (id : string) : M (option Element) :=
  ps ← range (wf_Process wf);
  mret (list_find (λ i, el_Id i = id) (mjoin (map (λ p, pr_Elements p.2) ps)) ≫= λ x, Some x.2).

(** ** Namespaces and the workflow cache *)

(** [KvsFor]: the stores of a namespace are opened on its first use. *)
Definition KvsFor `{Env} (ns : string) : M unit := λ w,
  if bool_decide (ns ∈ w_namespaces w) then (w, Ok tt)
  else wrapping (Wrap "failed to initialise KVs for namespace")
         (nats (λ w, (w <| w_namespaces ::= λ s, {[ns]} ∪ s |>, Ok tt))) w.

(** The common prologue of the operations:
    [ns := subj.GetNS(ctx); nsKVs, err := s.natsService.KvsFor(ctx, ns)]. *)
Definition nsKVs `{Env} (ctx : Ctx) : M unit :=
  wrapping (Wrap "get KVs for ns") (KvsFor (GetNS ctx)).

(** [Cacheable]: the cache may miss an entry it holds and may drop one it is
    given. *)
Definition cacheGet `{Env} (key : string) : M (option Workflow) := λ w,
  (w_next w, Ok (if cache_hit (w_tick w) then w_cache w !! key else None)).

Definition cacheSet `{Env} (key : string) (v : Workflow) : M unit := λ w,
  (if cache_set (w_tick w) then w_next w <| w_cache ::= <[key := v]> |> else w_next w, Ok tt).

Definition Cacheable `{Env} (key : string) (fn : M Workflow) : M Workflow :=
  tmpVal ← cacheGet key;
  match tmpVal with
  | Some v => mret v
  | None =>
      v ← wrapping (Wrap "error retrieving cacheable value") fn;
      _ ← cacheSet key v;
      mret v
  end.

(** ** Lemmas: tracking identifiers are a stack *)
Module TrackingIDFacts.
Import TrackingID.

Lemma ID_Push t id : ID (Push t id) = id.
Proof. unfold ID, Push. by rewrite last_snoc. Qed.

Lemma Pop_Push t id : Pop (Push t id) = t.
Proof.
  unfold Pop, Push. rewrite bool_decide_true by (rewrite length_app; simpl; lia).
  rewrite length_app. simpl. replace (length t + 1 - 1) with (length t) by lia.
  by rewrite take_app_length.
Qed.

Lemma ParentID_Push t id : ParentID (Push t id) = ID t.
Proof.
  unfold ParentID, Ancestor, Push, ID. rewrite length_app. simpl.
  replace (length t + 1 - 1 - 1) with (Nat.pred (length t)) by lia.
  destruct t as [|x t] using rev_ind; [done|].
  rewrite bool_decide_true by (rewrite length_app; simpl; lia).
  rewrite last_snoc, length_app. simpl. replace (Nat.pred (length t + 1)) with (length t) by lia.
  rewrite <-app_assoc. simpl. by rewrite list_lookup_middle.
Qed.

(** [Ancestor] is what popping that many times leaves on top. *)
Lemma Ancestor_Pop t gen : Ancestor t gen = ID (Nat.iter gen Pop t).
Proof.
  assert (∀ t, gen < length t → Nat.iter gen Pop t = take (length t - gen) t) as Hit.
  { clear t. induction gen as [|gen IH]; intros t Ht; simpl.
    - by rewrite Nat.sub_0_r, firstn_all.
    - rewrite IH by lia. unfold Pop. rewrite length_take.
      rewrite bool_decide_true by lia. rewrite take_take. f_equal. lia. }
  unfold Ancestor. case_bool_decide as Hd.
  - rewrite Hit by lia. unfold ID. f_equal.
    rewrite last_lookup, length_take, lookup_take.
    case_decide; [f_equal; lia|lia].
  - symmetry. destruct (decide (gen < length t)); [lia|].
    assert (∀ n t, length t ≤ n → Nat.iter n Pop t = []) as He.
    { clear. induction n as [|n IH]; intros t Ht; simpl.
      - by destruct t; simpl in *; [|lia].
      - destruct (decide (length t ≤ n)) as [Hn|Hn]; [by rewrite IH|].
        rewrite <-Nat.iter_swap; apply IH. unfold Pop. case_bool_decide; [|lia].
        rewrite length_take. lia. }
    by rewrite He by lia.
Qed.
End TrackingIDFacts.

(** ** Lemmas: header values survive the wire *)
Module HeaderFacts.
Import header.

Lemma CutPrefix_app p s : CutPrefix (p +:+ s) p = Some s.
Proof.
  induction p as [|c p IH]; [done|]. change (String c p +:+ s) with (String c (p +:+ s)).
  simpl. by rewrite bool_decide_true.
Qed.

Lemma HasPrefix_app p s : HasPrefix (p +:+ s) p = true.
Proof.
  unfold HasPrefix. induction p as [|c p IH]; [by destruct s|].
  change (String c p +:+ s) with (String c (p +:+ s)). simpl.
  destruct (ascii_dec c c); [done|congruence].
Qed.

Lemma suffix_prefix k : suffixOfSharHeader (prefixSharHeader k) = k.
Proof.
  unfold suffixOfSharHeader, prefixSharHeader.
  assert (natsSharHeader +:+ "_" +:+ k = (natsSharHeader +:+ "_") +:+ k) as -> by done.
  by rewrite CutPrefix_app.
Qed.

#[export] Instance prefixSharHeader_inj : Inj (=) (=) prefixSharHeader.
Proof. intros k k' Hk. by rewrite <-(suffix_prefix k), Hk, suffix_prefix. Qed.

(** The headers that are not SHAR values. *)
Definition plain (h : gmap string string) : Prop :=
  ∀ k v, h !! k = Some v → HasPrefix k natsSharHeader = false.

Lemma toMsg_lookup values h key v :
  plain h → HasPrefix key natsSharHeader = true →
  toMsg values h !! key = Some v ↔ ∃ k, key = prefixSharHeader k ∧ values !! k = Some v.
Proof.
  intros Hp Hk. unfold toMsg. rewrite lookup_union_Some_raw, lookup_kmap_Some by apply _.
  split; [|naive_solver]. intros [?|[_ Hh]]; [done|]. apply Hp in Hh. congruence.
Qed.

Lemma fromMsg_toMsg values h : plain h → fromMsg (toMsg values h) = values.
Proof.
  intros Hp. unfold fromMsg. set (l := filter _ _).
  assert (∀ e, e ∈ l ↔ ∃ k, e = (prefixSharHeader k, e.2) ∧ values !! k = Some e.2) as Hl.
  { intros [key v]. unfold l. rewrite list_elem_of_filter, elem_of_map_to_list. simpl. split.
    - intros [Hpre Hin]. apply toMsg_lookup in Hin as (k & -> & Hk); naive_solver.
    - intros (k & [= ->] & Hk). assert (HasPrefix (prefixSharHeader k) natsSharHeader = true)
        as Hpre by apply HasPrefix_app.
      split; [done|]. apply toMsg_lookup; naive_solver. }
  assert (NoDup l.*1) as Hnd.
  { unfold l. clear. generalize (NoDup_fst_map_to_list (toMsg values h)).
    induction (map_to_list (toMsg values h)) as [|[a b] m IH]; [done|].
    rewrite filter_cons. simpl. intros [Hn Hm]%NoDup_cons. case_decide; [|by apply IH].
    simpl. apply NoDup_cons. split; [|by apply IH].
    intros ([a' b'] & -> & [_ Hin]%list_elem_of_filter)%list_elem_of_fmap.
    apply Hn. by apply (list_elem_of_fmap_2 fst _ (a', b')). }
  assert (NoDup (map (λ e, (suffixOfSharHeader e.1, e.2)) l).*1) as Hnd'.
  { rewrite <-list_fmap_compose. simpl.
    apply NoDup_fmap_2_strong.
    - intros [k1 v1] [k2 v2] (a & [= ->] & Ha)%Hl (b & [= ->] & Hb)%Hl Heq. simpl in *.
      rewrite !suffix_prefix in Heq. subst. congruence.
    - by eapply NoDup_fmap_1. }
  apply map_eq. intros k. apply option_eq. intros v.
  rewrite <-elem_of_list_to_map by done. rewrite list_elem_of_fmap. split.
  - intros ([key v'] & [= -> ->] & (k' & [= ->] & Hk)%Hl). simpl. by rewrite suffix_prefix.
  - intros Hk. exists (prefixSharHeader k, v). simpl. rewrite suffix_prefix. split; [done|].
    apply Hl. naive_solver.
Qed.
End HeaderFacts.

(** ** Lemmas: element tables *)
Module ElementFacts.

(** An element and everything in its sub-process, in the order the index
    visits them. *)
Fixpoint subelements (i : Element) : list Element :=
  match i with
  | mkElement _ _ _ _ _ _ _ pr _ _ _ _ _ _ _ _ _ _ _ _ _ _ =>
      i :: match pr with
           | None => []
           | Some (mkProcess els _ _) => flat_map subelements els
           end
  end.

Lemma Element_ind' (P : Element → Prop) :
  (∀ i, (∀ p, el_Process i = Some p → Forall P (pr_Elements p)) → P i) → ∀ i, P i.
Proof.
  intros HP. fix IH 1. intros i. apply HP.
  destruct i as [? ? ? ? ? ? ? [[els ? ?]|]]; simpl; intros p [= <-]. simpl.
  induction els as [|j els IHels]; constructor; [apply IH | apply IHels].
Qed.

Definition by_id (els : list Element) (el : gmap string Element) : gmap string Element :=
  foldl (λ el i, <[el_Id i := i]> el) el els.

Lemma index_element_spec i el : index_element i el = by_id (subelements i) el.
Proof.
  revert el. induction i as [i IH] using Element_ind'. intros el.
  destruct i as [? ? ? ? ? ? ? [[els pid ts]|]]; simpl in *; [|done].
  specialize (IH _ eq_refl). simpl in IH. unfold by_id. simpl.
  set (t := <[_ := _]> el). clearbody t. revert t.
  induction IH as [|j els Hj Hels IHels]; intros t; simpl; [done|].
  rewrite Hj, IHels. unfold by_id. by rewrite foldl_app.
Qed.

Lemma IndexProcessElements_spec els el :
  IndexProcessElements els el = by_id (flat_map subelements els) el.
Proof.
  revert el. induction els as [|i els IH]; intros el; simpl; [done|].
  rewrite IH, index_element_spec. unfold by_id. by rewrite foldl_app.
Qed.

Lemma by_id_lookup els el id i :
  NoDup (el_Id <$> els) →
  by_id els el !! id = Some i ↔
    (i ∈ els ∧ el_Id i = id) ∨ (id ∉ el_Id <$> els ∧ el !! id = Some i).
Proof.
  unfold by_id. revert el. induction els as [|j els IH]; intros el; simpl.
  - intros _. set_solver.
  - intros [Hn Hd]%NoDup_cons. rewrite IH by done.
    rewrite !elem_of_cons. destruct (decide (el_Id j = id)) as [<-|Hne].
    + rewrite lookup_insert_eq. split.
      * intros [[Hi Hid]|[_ [= ->]]]; [|naive_solver].
        destruct Hn. rewrite <-Hid. by apply list_elem_of_fmap_2.
      * intros [[[->|Hi] Hid]|[Hj _]]; [naive_solver| |naive_solver].
        destruct Hn. rewrite <-Hid. by apply list_elem_of_fmap_2.
    + rewrite lookup_insert_ne by done. naive_solver.
Qed.

Lemma by_id_id els el id i :
  (∀ k e, el !! k = Some e → el_Id e = k) → by_id els el !! id = Some i → el_Id i = id.
Proof.
  unfold by_id. revert el. induction els as [|j els IH]; intros el He; simpl; [by apply He|].
  apply IH. intros k e. rewrite lookup_insert_Some. naive_solver.
Qed.

(** All elements of a workflow, sub-processes included. *)
Definition elements (wf : Workflow) : list Element :=
  flat_map (λ p, flat_map subelements (pr_Elements p.2)) (map_to_list (wf_Process wf)).

Lemma foldl_by_id (ps : list (string * Process)) el :
  foldl (λ el p, IndexProcessElements (pr_Elements p.2) el) el ps =
  by_id (flat_map (λ p, flat_map subelements (pr_Elements p.2)) ps) el.
Proof.
  revert el. induction ps as [|p ps IH]; intros el; simpl; [done|].
  rewrite IH, IndexProcessElements_spec. unfold by_id. by rewrite foldl_app.
Qed.

(** Whatever the order of the processes, the table of a workflow with distinct
    element ids maps every id to its element. *)
Lemma ElementTable_spec `{EnvOk} wf w :
  NoDup (el_Id <$> elements wf) →
  ∃ t, ElementTable wf w = (w_next w, Ok t) ∧
       ∀ id i, t !! id = Some i ↔ i ∈ elements wf ∧ el_Id i = id.
Proof.
  intros Hnd. unfold ElementTable. eexists. split; [done|]. intros id i.
  rewrite foldl_by_id. set (ps := map_order _ _ _).
  assert (flat_map (λ p : string * Process, flat_map subelements (pr_Elements p.2)) ps
    ≡ₚ elements wf) as Hp.
  { apply Permutation_flat_map, map_order_perm. }
  rewrite by_id_lookup by (by rewrite Hp). rewrite Hp, lookup_empty. naive_solver.
Qed.

Lemma ElementTable_id `{Env} wf w w' t id i :
  ElementTable wf w = (w', Ok t) → t !! id = Some i → el_Id i = id.
Proof.
  unfold ElementTable. intros [= <- <-]. rewrite foldl_by_id. by apply by_id_id.
Qed.
Lemma by_id_elem els el id i :
  by_id els el !! id = Some i → i ∈ els ∨ el !! id = Some i.
Proof.
  unfold by_id. revert el. induction els as [|j els IH]; intros el; simpl; [by right|].
  intros [Hi|Hi]%IH; [left; by right|].
  apply lookup_insert_Some in Hi as [[_ <-]|[_ Hi]]; [left; left|by right].
Qed.

Lemma by_id_is_Some els el id :
  id ∈ el_Id <$> els ∨ is_Some (el !! id) → is_Some (by_id els el !! id).
Proof.
  unfold by_id. revert el. induction els as [|j els IH]; intros el; simpl.
  - intros [[]%elem_of_nil|?]; done.
  - intros Hi. apply IH. destruct Hi as [[->|?]%elem_of_cons|[x Hx]]; [|by left|].
    + right. rewrite lookup_insert_eq. by eexists.
    + right. destruct (decide (el_Id j = id)) as [->|];
        [rewrite lookup_insert_eq|rewrite lookup_insert_ne by done]; by eexists.
Qed.

Lemma by_id_size els el : size (by_id els el) ≤ size el + length els.
Proof.
  unfold by_id. revert el. induction els as [|j els IH]; intros el; simpl; [lia|].
  etrans; [apply IH|]. rewrite map_size_insert. case_match; simpl; lia.
Qed.

Lemma subelements_self e els : e ∈ els → e ∈ flat_map subelements els.
Proof.
  intros He. apply list_elem_of_In, in_flat_map. exists e. split; [by apply list_elem_of_In|].
  destruct e. by left.
Qed.
End ElementFacts.

(** ** Lemmas: effects of the shared operations *)

(** A message that carries the namespace in its header. *)
Definition msg_ns (ns : string) (m : Msg) : Prop := msg_Header m !! header.SharNamespace = Some ns.

(** What an operation run under [ctx] may do: write the stores of the context's
    namespace, and publish messages that carry it. *)
Abbreviation iso ctx := (effect (of_ns (GetNS ctx)) (msg_ns (GetNS ctx))).

(** The operations that leave executions and process instances alone are judged
    by any set of cells that has the namespace's other buckets. *)
Class Lesser (ctx : Ctx) (T : Cells) : Prop :=
  lesser b k : b ≠ WfExecution → b ≠ WfProcessInstance → T (GetNS ctx) b k.

Definition records_apart (ctx : Ctx) : Cells := λ ns b _,
  ns = GetNS ctx ∧ b ≠ WfExecution ∧ b ≠ WfProcessInstance.

#[export] Instance of_ns_lesser ctx : Lesser ctx (of_ns (GetNS ctx)).
Proof. by intros b k _ _. Qed.
#[export] Instance records_apart_lesser ctx : Lesser ctx (records_apart ctx).
Proof. by intros b k He Hp. Qed.

#[export] Hint Extern 5 => (apply lesser; discriminate) : preserves.

Section common_effects.
Context `{EnvOk} (T : Cells) (P : Msg → Prop).

Lemma eff_KvsFor ns : preserves (effect T P) (KvsFor ns).
Proof.
  intros w. unfold KvsFor. case_bool_decide; [done|].
  apply preserves_wrapping, effect_intro; [|by apply emits_quiet].
  apply preserves_nats; [apply _|done|done].
Qed.

Lemma eff_cacheGet k : preserves (effect T P) (cacheGet k).
Proof.
  apply effect_intro; intros w; [by intros ns b k' _ | apply emits_same; simpl; auto].
Qed.

Lemma eff_cacheSet k v : preserves (effect T P) (cacheSet k v).
Proof.
  apply effect_intro; intros w; unfold cacheSet.
  - intros ns b k' _. by destruct (cache_set _).
  - apply emits_same; destruct (cache_set _); simpl; auto.
Qed.

#[local] Hint Resolve eff_KvsFor eff_cacheGet eff_cacheSet : preserves.

Lemma eff_nsKVs ctx : preserves (effect T P) (nsKVs ctx).
Proof. unfold nsKVs. preserves_tac. Qed.
Lemma eff_ElementTable wf : preserves (effect T P) (ElementTable wf).
Proof. unfold ElementTable. preserves_tac. Qed.
Lemma eff_NewID t : preserves (effect T P) (TrackingID.NewID t).
Proof. unfold TrackingID.NewID. preserves_tac. Qed.
Lemma eff_Cacheable k fn :
  preserves (effect T P) fn → preserves (effect T P) (Cacheable k fn).
Proof. intros Hf. unfold Cacheable. preserves_tac. Qed.
End common_effects.

#[export] Hint Extern 1 (of_ns _ _ _ _) => reflexivity : preserves.
#[export] Hint Resolve eff_KvsFor eff_nsKVs eff_ElementTable eff_NewID eff_Cacheable : preserves.
