(* ===== verification/Wp.v ===== *)
(** * Reasoning about runs without faults

    The equivalence of worlds that hold the same values and published the same
    messages (call counters, revisions and caches may differ), and a weakest
    precondition for the effect monad, with one rule per primitive for a
    schedule without faults. *)
From S2P Require Import Prelude Model Errors Env Common.

(** ** Equivalence of worlds *)
#[export] Instance World_equiv `{Env} : Equiv World := λ w w',
  (∀ ns b k, w_get w ns b k = w_get w' ns b k) ∧ w_out w = w_out w'.

#[export] Instance World_equivalence `{Env} : Equivalence (≡@{World}).
Proof.
  split.
  - intros w. by split.
  - intros w w' [Hg Ho]. by split.
  - intros w1 w2 w3 [Hg Ho] [Hg' Ho']. split; [|by rewrite Ho, Ho'].
    intros ns b k. by rewrite Hg, Hg'.
Qed.

#[export] Instance w_get_proper `{Env} : Proper ((≡) ==> (=) ==> (=) ==> (=) ==> (=)) w_get.
Proof. intros w w' [Hg _] ns ? <- b ? <- k ? <-. apply Hg. Qed.

#[export] Instance w_out_proper `{Env} : Proper ((≡) ==> (=)) w_out.
Proof. by intros w w' [_ Ho]. Qed.

#[export] Instance w_put_proper `{EnvOk} ns b k d : Proper ((≡) ==> (≡)) (w_put ns b k d).
Proof.
  intros w w' Hw. split; [|by destruct Hw]. intros ns' b' k'. rewrite !w_get_put.
  case_decide; [done|by rewrite Hw].
Qed.

#[export] Instance w_del_proper `{EnvOk} ns b k : Proper ((≡) ==> (≡)) (w_del ns b k).
Proof.
  intros w w' Hw. split; [|by destruct Hw]. intros ns' b' k'. rewrite !w_get_del.
  case_decide; [done|by rewrite Hw].
Qed.

#[export] Instance w_pub_proper `{Env} m : Proper ((≡) ==> (≡)) (w_pub m).
Proof.
  intros w w' Hw. split.
  - intros ns b k. change (w_get w ns b k = w_get w' ns b k). by rewrite Hw.
  - simpl. destruct Hw as [_ Ho]. by rewrite Ho.
Qed.

Lemma w_next_equiv `{Env} w : w_next w ≡ w.
Proof. by split. Qed.

#[export] Instance w_next_proper `{Env} : Proper ((≡) ==> (≡)) w_next.
Proof. intros w w' Hw. by rewrite !w_next_equiv. Qed.

Lemma w_put_put `{EnvOk} ns b k d d' w : w_put ns b k d (w_put ns b k d' w) ≡ w_put ns b k d w.
Proof.
  split; [|done]. intros ns' b' k'. rewrite !w_get_put. by case_decide.
Qed.

Lemma w_put_same `{EnvOk} ns b k d w : w_get w ns b k = Some d → w_put ns b k d w ≡ w.
Proof.
  intros Hg. split; [|done]. intros ns' b' k'. rewrite w_get_put.
  case_decide; [|done]. by simplify_eq.
Qed.

Lemma w_put_pub `{EnvOk} ns b k d m w :
  w_put ns b k d (w_pub m w) ≡ w_pub m (w_put ns b k d w).
Proof.
  split; [|done]. intros ns' b' k'. rewrite w_get_pub, !w_get_put, w_get_pub. done.
Qed.

Lemma w_del_put `{EnvOk} ns b k d w : w_del ns b k (w_put ns b k d w) ≡ w_del ns b k w.
Proof.
  split; [|done]. intros ns' b' k'. rewrite !w_get_del, w_get_put. by case_decide.
Qed.

(** ** Weakest preconditions *)
Definition wp `{Env} {A} (m : M A) (w : World) (Φ : World → res error A → Prop) : Prop :=
  Φ (m w).1 (m w).2.

(** The run ends with a value. *)
Definition returns `{Env} {A} (Q : World → A → Prop) : World → res error A → Prop :=
  λ w r, match r with Ok a => Q w a | _ => False end.

Create HintDb wp.

Section wp_rules.
Context `{EnvOk}.

Lemma wp_mono {A} (m : M A) w (Φ Ψ : World → res error A → Prop) :
  (∀ w' r, Φ w' r → Ψ w' r) → wp m w Φ → wp m w Ψ.
Proof. intros HΦ Hm. by apply HΦ. Qed.

Lemma wp_ret {A} (a : A) w Φ : Φ w (Ok a) → wp (mret a) w Φ.
Proof. done. Qed.
Lemma wp_throw {A} e w (Φ : World → res error A → Prop) : Φ w (Err e) → wp (throw e) w Φ.
Proof. done. Qed.
Lemma wp_panic {A} p w (Φ : World → res error A → Prop) : Φ w (Panic p) → wp (panic p) w Φ.
Proof. done. Qed.
Lemma wp_gets {A} (f : World → A) w Φ : Φ w (Ok (f w)) → wp (gets f) w Φ.
Proof. done. Qed.

Lemma wp_bind {A B} (m : M A) (f : A → M B) w Φ :
  wp m w (λ w' r, match r with
                  | Ok a => wp (f a) w' Φ
                  | Err e => Φ w' (Err e)
                  | Panic p => Φ w' (Panic p)
                  end) →
  wp (m ≫= f) w Φ.
Proof. unfold wp, mbind, gom_bind. by destruct (m w) as [w' []]. Qed.

Lemma wp_fmap {A B} (m : M A) (f : A → B) w Φ :
  wp m w (λ w' r, match r with
                  | Ok a => Φ w' (Ok (f a))
                  | Err e => Φ w' (Err e)
                  | Panic p => Φ w' (Panic p)
                  end) →
  wp (f <$> m) w Φ.
Proof. unfold wp, fmap, gom_fmap. by destruct (m w) as [w' []]. Qed.

Lemma wp_attempt {A} (m : M A) w Φ :
  wp m w (λ w' r, match r with
                  | Ok a => Φ w' (Ok (inl a))
                  | Err e => Φ w' (Ok (inr e))
                  | Panic p => Φ w' (Panic p)
                  end) →
  wp (attempt m) w Φ.
Proof. unfold wp, attempt. by destruct (m w) as [w' []]. Qed.

Lemma wp_wrapping {A} g (m : M A) w Φ :
  wp m w (λ w' r, match r with Err e => Φ w' (Err (g e)) | _ => Φ w' r end) →
  wp (wrapping g m) w Φ.
Proof. unfold wp, wrapping. by destruct (m w) as [w' []]. Qed.

Lemma wp_deref {A} why (o : option A) w Φ :
  match o with Some a => Φ w (Ok a) | None => Φ w (Panic why) end → wp (deref why o) w Φ.
Proof. by destruct o. Qed.

(** A loop that keeps an invariant indexed by what is left to do. *)
Lemma wp_for_each {A} (I : list A → World → Prop) (l : list A) (f : A → M unit) w Φ :
  I l w →
  (∀ x l' w', I (x :: l') w' → wp (f x) w' (returns (λ w'' _, I l' w''))) →
  (∀ w', I [] w' → Φ w' (Ok tt)) →
  wp (for_each l f) w Φ.
Proof.
  intros HI Hf HΦ. revert w HI. induction l as [|x l IH]; intros w HI; simpl.
  - apply wp_ret. by apply HΦ.
  - apply wp_bind. eapply wp_mono; [|by apply Hf].
    intros w' [[]| |]; simpl; [apply IH|done|done].
Qed.

Context (NF : NoFaults).

Lemma wp_nats {A} (eff : World → World * res error A) w Φ :
  Φ (eff (w_next w)).1 (eff (w_next w)).2 → wp (nats eff) w Φ.
Proof. unfold wp, nats. by rewrite NF. Qed.

Lemma wp_kvGet ns b k w Φ :
  match kv_get (w_kv w ns b) k with
  | Some e => Φ (w_next w) (Ok e)
  | None => Φ (w_next w) (Err (Sentinel ErrKeyNotFound))
  end → wp (kvGet ns b k) w Φ.
Proof. intros HΦ. apply wp_nats. simpl. by destruct (kv_get _ _). Qed.

Lemma wp_kvPut ns b k d w Φ :
  Φ (w_put ns b k d (w_next w)) (Ok tt) → wp (kvPut ns b k d) w Φ.
Proof. intros HΦ. by apply wp_nats. Qed.

Lemma wp_kvDelete ns b k w Φ :
  Φ (w_del ns b k (w_next w)) (Ok tt) → wp (kvDelete ns b k) w Φ.
Proof. intros HΦ. by apply wp_nats. Qed.

Lemma wp_natsPublish m w Φ : Φ (w_pub m (w_next w)) (Ok tt) → wp (natsPublish m) w Φ.
Proof. intros HΦ. by apply wp_nats. Qed.

Lemma wp_newId w Φ : Φ (w_next w) (Ok (ksuid_new (w_tick w))) → wp newId w Φ.
Proof. done. Qed.

Lemma wp_timeNow w Φ : Φ (w_next w) (Ok (time_now (w_tick w))) → wp timeNow w Φ.
Proof. done. Qed.

(** A loop over a map sees its pairs in some order. *)
Lemma wp_range {V} (m : gmap string V) w Φ :
  (∀ l, l ≡ₚ map_to_list m → Φ (w_next w) (Ok l)) → wp (range m) w Φ.
Proof. intros HΦ. apply HΦ, map_order_perm. Qed.

Lemma wp_KvsFor ns w Φ :
  (∀ w', w' ≡ w → (∀ ns b, w_kv w' ns b = w_kv w ns b) → Φ w' (Ok tt)) →
  wp (KvsFor ns) w Φ.
Proof.
  intros HΦ. unfold wp, KvsFor. case_bool_decide; simpl; [by apply HΦ|].
  unfold wrapping, nats. rewrite NF. simpl. by apply HΦ.
Qed.

Lemma wp_nsKVs ctx w Φ :
  (∀ w', w' ≡ w → (∀ ns b, w_kv w' ns b = w_kv w ns b) → Φ w' (Ok tt)) →
  wp (nsKVs ctx) w Φ.
Proof. intros HΦ. apply wp_wrapping, wp_KvsFor. intros w' Hw Hkv. by apply HΦ. Qed.
End wp_rules.

(** Walk a program down to its next call. *)
Ltac wp_step :=
  lazymatch goal with
  | |- wp (mbind _ _) _ _ => apply wp_bind
  | |- wp (fmap _ _) _ _ => apply wp_fmap
  | |- wp (mret _) _ _ => apply wp_ret
  | |- wp (throw _) _ _ => apply wp_throw
  | |- wp (panic _) _ _ => apply wp_panic
  | |- wp (attempt _) _ _ => apply wp_attempt
  | |- wp (wrapping _ _) _ _ => apply wp_wrapping
  | |- wp (deref _ _) _ _ => apply wp_deref
  | |- wp (kvPut _ _ _ _) _ _ => apply wp_kvPut; [done|]
  | |- wp (kvDelete _ _ _) _ _ => apply wp_kvDelete; [done|]
  | |- wp (natsPublish _) _ _ => apply wp_natsPublish; [done|]
  | |- wp newId _ _ => apply wp_newId
  | |- wp timeNow _ _ => apply wp_timeNow
  end; cbv beta iota.

Ltac wp_steps := repeat wp_step.

(** ** What can come out *)
Section outcomes.
Context `{Env}.

(** Every value a computation returns satisfies [φ], whatever fails. *)
Definition yields {A} (m : M A) (φ : A → Prop) : Prop := ∀ w a, (m w).2 = Ok a → φ a.

Lemma wp_yields {A} (m : M A) φ w (Φ : World → res error A → Prop) :
  yields m φ → wp m w Φ → wp m w (λ w' r, Φ w' r ∧ ∀ a, r = Ok a → φ a).
Proof. intros Hm Hw. split; [exact Hw|]. apply Hm. Qed.

Lemma yields_ret {A} (a : A) (φ : A → Prop) : φ a → yields (mret a) φ.
Proof. intros Ha w b [= <-]. done. Qed.

Lemma yields_throw {A} e (φ : A → Prop) : yields (throw e) φ.
Proof. by intros w a. Qed.

Lemma yields_bind {A B} (m : M A) (k : A → M B) φ : (∀ a, yields (k a) φ) → yields (m ≫= k) φ.
Proof.
  intros Hk w b. unfold mbind, gom_bind. destruct (m w) as [w' [a|e|p]]; simpl; [apply Hk|done..].
Qed.

(** The values that a computation passes on. *)
Lemma yields_seq {A B} (ψ : A → Prop) (m : M A) (k : A → M B) φ :
  yields m ψ → (∀ a, ψ a → yields (k a) φ) → yields (m ≫= k) φ.
Proof.
  intros Hm Hk w b. unfold mbind, gom_bind. destruct (m w) as [w' [a|e|p]] eqn:Hw; simpl; [|done..].
  apply Hk, (Hm w). by rewrite Hw.
Qed.

Lemma yields_mono {A} (m : M A) (ψ φ : A → Prop) : yields m ψ → (∀ a, ψ a → φ a) → yields m φ.
Proof. intros Hm Hφ w a Ha. by eapply Hφ, Hm. Qed.

Lemma yields_panic {A} why (φ : A → Prop) : yields (panic why) φ.
Proof. by intros w a. Qed.

Lemma yields_deref {A} why (o : option A) (φ : A → Prop) :
  (∀ a, o = Some a → φ a) → yields (deref why o) φ.
Proof. intros Ho. destruct o; [by apply yields_ret, Ho|apply yields_panic]. Qed.

Lemma yields_wrapping {A} f (m : M A) φ : yields m φ → yields (wrapping f m) φ.
Proof. intros Hm w a. specialize (Hm w a). unfold wrapping. by destruct (m w) as [w' []]. Qed.

(** A loop whose turns keep an invariant, indexed by what is left of the list. *)
Lemma yields_for_fold {A B} (I : list A → B → Prop) (l : list A) (f : B → A → M B) acc :
  I l acc → (∀ x l' acc, I (x :: l') acc → yields (f acc x) (I l')) →
  yields (for_fold l f acc) (I []).
Proof.
  intros HI Hf. revert acc HI. induction l as [|x l IH]; intros acc HI; simpl; [by apply yields_ret|].
  eapply yields_seq; [by apply Hf|]. intros acc' HI'. by apply IH.
Qed.

Lemma yields_for_each {A} (Q : A → Prop) (l : list A) (f : A → M unit) :
  (∀ x, yields (f x) (λ _, Q x)) → yields (for_each l f) (λ _, Forall Q l).
Proof.
  intros Hf. induction l as [|x l IH]; simpl; [by apply yields_ret|].
  eapply yields_seq; [apply Hf|]. intros u Hx. eapply yields_mono; [exact IH|]. intros u' Hl. by constructor.
Qed.

(** A computation that never panics. *)
Definition calm {A} (m : M A) : Prop := ∀ w p, (m w).2 ≠ Panic p.

Lemma calm_ret {A} (a : A) : calm (mret a).
Proof. done. Qed.
Lemma calm_throw {A} e : calm (throw e : M A).
Proof. done. Qed.
Lemma calm_wrapping {A} f (m : M A) : calm m → calm (wrapping f m).
Proof. intros Hm w p. specialize (Hm w p). unfold wrapping. by destruct (m w) as [w' []]. Qed.
Lemma calm_attempt {A} (m : M A) : calm m → calm (attempt m).
Proof.
  intros Hm w p. specialize (Hm w p). unfold attempt. destruct (m w) as [w' []]; simpl in *; congruence.
Qed.
Lemma calm_bind {A B} (m : M A) (k : A → M B) : calm m → (∀ a, calm (k a)) → calm (m ≫= k).
Proof.
  intros Hm Hk w p. specialize (Hm w p). unfold mbind, gom_bind.
  destruct (m w) as [w' [a|e|p']]; simpl in *; [apply Hk|done|congruence].
Qed.

Lemma calm_seq {A B} (ψ : A → Prop) (m : M A) (k : A → M B) :
  calm m → yields m ψ → (∀ a, ψ a → calm (k a)) → calm (m ≫= k).
Proof.
  intros Hm Hy Hk w p. specialize (Hm w p). specialize (Hy w). unfold mbind, gom_bind.
  destruct (m w) as [w' [a|e|p']]; simpl in *; [by apply Hk, Hy|done|congruence].
Qed.

Lemma calm_for_fold {A B} (l : list A) (f : B → A → M B) acc :
  (∀ acc x, calm (f acc x)) → calm (for_fold l f acc).
Proof.
  intros Hf. revert acc. induction l as [|x l IH]; intros acc; simpl; [apply calm_ret|].
  by apply calm_bind.
Qed.
End outcomes.

Create HintDb calm.
#[export] Hint Resolve calm_ret calm_throw calm_wrapping calm_attempt calm_bind : calm.
