(* ===== verification/NatsUtil.v ===== *)
(** * Key-value helpers

    [common/natsutil.go]: saving, loading and updating protobuf messages in a
    JetStream key-value store, and locks.

    Go's [UpdateObj] fills the message its caller passed in, also when it
    returns an error, and one caller reads it then: here it returns that
    message with the error, and [check] turns the error into a failure. *)
From S2P Require Import Prelude Model Errors Env Common Wp.
From stdpp Require Import sorting.

(** A Go [(T, error)] result where the value is meaningful in both cases. *)
Definition check `{Env} {A} (m : M (A * option error)) : M A :=
  r ← m;
  match r.2 with None => mret r.1 | Some e => throw e end.

(** ** Programs that are also run call by call

    [updateKV], [Lock] and [UnLock] are written for any monad that has Go's errors
    and the calls of a key-value store: the monad [M], in which a program runs alone,
    and the one of [Interleave.v], in which other clients come between two calls. *)
Class GoCalls (m : Type → Type) := {
  go_ret : MRet m;
  go_bind : MBind m;
  go_throw {A} : error → m A;
  go_panic {A} : string → m A;
  go_attempt {A} : m A → m (A + error)%type;
  go_wrapping {A} : (error → error) → m A → m A;
  go_deferring {A} : m unit → m A → m A;
  call_get : string → Bucket → string → m (Data * Z)%type;
  call_create : string → Bucket → string → Data → m unit;
  call_update : string → Bucket → string → Data → Z → m unit;
  call_delete : string → Bucket → string → m unit }.

(** The retries of one [updateKV] call that the model follows.  A schedule that
    refuses more of them is a run the model does not finish. *)
Definition contention : nat := 100.

Definition lockVal : Data := DBytes "".

Section calls.
Context `{GoCalls m}.
#[local] Existing Instance go_ret.
#[local] Existing Instance go_bind.

Fixpoint updateKV_loop {A} (fuel : nat) (ns : string) (wf : Bucket) (k : string) (msg : A)
    (updateFn : Data → A → m (A * (Data + error))%type) : m (A * option error)%type :=
  match fuel with
  | 0 => go_panic "updateKV: contention"
  | S fuel =>
      entry ← go_attempt (call_get ns wf k);
      match entry with
      | inr err => mret (msg, Some (Wrap "get value to update" err))
      | inl (value, rev) =>
          uv ← updateFn value msg;
          match uv with
          | (msg, inr err) => mret (msg, Some (Wrap "update function" err))
          | (msg, inl uv) =>
              r ← go_attempt (call_update ns wf k uv rev);
              match r with
              | inl _ => mret (msg, None)
              | inr WrongLastSequence => updateKV_loop fuel ns wf k msg updateFn
              | inr err => mret (msg, Some (Wrap "update kv" err))
              end
          end
      end
  end.

Definition Lock (ns : string) (kv : Bucket) (lockID : string) : m bool :=
  r ← go_attempt (call_create ns kv lockID lockVal);
  match r with
  | inl _ => mret true
  | inr err => if Is err ErrKeyExists then mret false else go_throw (Wrap "querying lock" err)
  end.

Definition UnLock (ns : string) (kv : Bucket) (lockID : string) : m unit :=
  v ← go_attempt (call_get ns kv lockID);
  match v with
  | inr err =>
      if Is err ErrKeyNotFound then go_throw (Wrap "unlocking found no lock" err)
      else go_throw (Wrap "unlocking get lock" err)
  | inl _ => go_wrapping (Wrap "unlocking") (call_delete ns kv lockID)
  end.
End calls.

Section natsutil.
Context `{Env}.

(** A program that runs alone. *)
#[export] Instance M_calls : GoCalls M := {|
  go_ret := gom_ret; go_bind := gom_bind;
  go_throw := @throw _ _; go_panic := @panic _ _;
  go_attempt := @attempt _ _; go_wrapping := @wrapping _ _; go_deferring := @deferring _ _;
  call_get := kvGet; call_create := kvCreate; call_update := kvUpdate; call_delete := kvDelete |}.

Lemma updateKV_loop_alone {A} fuel ns wf k (msg : A) updateFn :
  updateKV_loop (S fuel) ns wf k msg updateFn =
    (entry ← attempt (kvGet ns wf k);
     match entry with
     | inr err => mret (msg, Some (Wrap "get value to update" err))
     | inl (value, rev) =>
         uv ← updateFn value msg;
         match uv with
         | (msg, inr err) => mret (msg, Some (Wrap "update function" err))
         | (msg, inl uv) =>
             r ← attempt (kvUpdate ns wf k uv rev);
             match r with
             | inl _ => mret (msg, None)
             | inr WrongLastSequence => updateKV_loop fuel ns wf k msg updateFn
             | inr err => mret (msg, Some (Wrap "update kv" err))
             end
         end
     end) :> M (A * option error).
Proof. done. Qed.

Lemma Lock_alone ns kv lockID :
  Lock ns kv lockID =
    (r ← attempt (kvCreate ns kv lockID lockVal);
     match r with
     | inl _ => mret true
     | inr err => if Is err ErrKeyExists then mret false else throw (Wrap "querying lock" err)
     end) :> M bool.
Proof. done. Qed.

Lemma UnLock_alone ns kv lockID :
  UnLock ns kv lockID =
    (v ← attempt (kvGet ns kv lockID);
     match v with
     | inr err =>
         if Is err ErrKeyNotFound then throw (Wrap "unlocking found no lock" err)
         else throw (Wrap "unlocking get lock" err)
     | inl _ => wrapping (Wrap "unlocking") (kvDelete ns kv lockID)
     end) :> M unit.
Proof. done. Qed.

Definition updateKV {A} (ns : string) (wf : Bucket) (k : string) (msg : A)
    (updateFn : Data → A → M (A * (Data + error))) : M (A * option error) :=
  updateKV_loop contention ns wf k msg updateFn.

Definition Save (ns : string) (wf : Bucket) (k : string) (v : Data) : M unit :=
  wrapping (Wrap "save kv") (kvPut ns wf k v).

Definition Load (ns : string) (wf : Bucket) (k : string) : M Data :=
  b ← wrapping (Wrap "load value from KV") (kvGet ns wf k); mret b.1.

Definition SaveObj `{Proto A} (ns : string) (wf : Bucket) (k : string) (v : A) : M unit :=
  Save ns wf k (Marshal v).

Definition LoadObj (A : Type) `{Proto A} (ns : string) (wf : Bucket) (k : string) : M A :=
  kv ← wrapping (Wrap "load object from KV") (Load ns wf k);
  match Unmarshal kv with
  | Some v => mret v
  | None => throw (Wrap "unmarshal in LoadObj" (New "proto: cannot parse invalid wire-format data"))
  end.

(** The closure [UpdateObj] hands to [updateKV]. *)
Definition update_closure `{Proto A} (updateFn : A → M A) (bv : Data) (msg : A) :
    M (A * (Data + error)) :=
  match Unmarshal bv with
  | None => mret (zero, inr (Wrap "unmarshal proto for KV update"
                               (New "proto: cannot parse invalid wire-format data")))
  | Some v =>
      uv ← attempt (updateFn v);
      match uv with
      | inr err => mret (v, inr (Wrap "update function" err))
      | inl uv => mret (uv, inl (Marshal uv))
      end
  end.

Definition UpdateObj `{Proto A} (ns : string) (wf : Bucket) (k : string) (msg : A)
    (updateFn : A → M A) : M (A * option error) :=
  oldk ← attempt (kvGet ns wf k);
  saved ← match oldk with
          | inr err =>
              if Is err ErrKeyNotFound then
                r ← attempt (wrapping (Wrap "save during update object") (SaveObj ns wf k msg));
                mret (match r with inl _ => None | inr e => Some e end)
              else mret None
          | inl _ => mret None
          end;
  match saved with
  | Some err => mret (msg, Some err)
  | None => updateKV ns wf k msg (update_closure updateFn)
  end.

(** [LoadObj] into the caller's message, for callers that read it after an error:
    it keeps its value when nothing was loaded and is reset by a failed decode. *)
Definition LoadObjInto `{Proto A} (ns : string) (wf : Bucket) (k : string) (v : A) :
    M (A * option error) :=
  r ← attempt (wrapping (Wrap "load object from KV") (Load ns wf k));
  mret match r with
       | inr err => (v, Some err)
       | inl kv =>
           match Unmarshal kv with
           | Some v => (v, None)
           | None => (zero, Some (Wrap "unmarshal in LoadObj"
                                    (New "proto: cannot parse invalid wire-format data")))
           end
       end.

(** [UpdateObj] at an update function that also assigns variables of the
    function it is written in: their values go from one attempt to the next and
    come back to the caller. *)
Definition update_closure_with {S} `{Proto A} (updateFn : S → A → M (S * A)) (bv : Data)
    (msg : S * A) : M (S * A * (Data + error)) :=
  match Unmarshal bv with
  | None => mret (msg.1, zero, inr (Wrap "unmarshal proto for KV update"
                                      (New "proto: cannot parse invalid wire-format data")))
  | Some v =>
      uv ← attempt (updateFn msg.1 v);
      match uv with
      | inr err => mret (msg.1, v, inr (Wrap "update function" err))
      | inl uv => mret (uv, inl (Marshal uv.2))
      end
  end.

Definition UpdateObj_with {S} `{Proto A} (ns : string) (wf : Bucket) (k : string) (msg : A)
    (captured : S) (updateFn : S → A → M (S * A)) : M (S * A * option error) :=
  oldk ← attempt (kvGet ns wf k);
  saved ← match oldk with
          | inr err =>
              if Is err ErrKeyNotFound then
                r ← attempt (wrapping (Wrap "save during update object") (SaveObj ns wf k msg));
                mret (match r with inl _ => None | inr e => Some e end)
              else mret None
          | inl _ => mret None
          end;
  match saved with
  | Some err => mret (captured, msg, Some err)
  | None => updateKV ns wf k (captured, msg) (update_closure_with updateFn)
  end.

Definition UpdateObjIsNew `{Proto A} (ns : string) (wf : Bucket) (k : string) (msg : A)
    (updateFn : A → M A) : M bool :=
  oldk ← attempt (kvGet ns wf k);
  isNew ← match oldk with
          | inr err =>
              if Is err ErrKeyNotFound then
                _ ← wrapping (Wrap "save during update object") (SaveObj ns wf k msg);
                mret true
              else mret false
          | inl _ => mret false
          end;
  _ ← wrapping (Wrap "update obj is new failed")
        (check (updateKV ns wf k msg (update_closure updateFn)));
  mret isNew.

Definition Delete (ns : string) (kv : Bucket) (key : string) : M unit :=
  wrapping (Wrap "delete key") (kvDelete ns kv key).

(** ** Locks *)
Definition ExtendLock (ns : string) (kv : Bucket) (lockID : string) : M unit :=
  v ← attempt (kvGet ns kv lockID);
  match v with
  | inr err =>
      if Is err ErrKeyNotFound then throw (Wrap "hold lock found no lock" err)
      else throw (Wrap "querying lock" err)
  | inl (_, rev) =>
      r ← attempt (kvUpdate ns kv lockID lockVal rev);
      match r with
      | inl _ => mret tt
      | inr WrongLastSequence => mret tt
      | inr err => throw (Wrap "extend lock" err)
      end
  end.

(** ** Keys by prefix *)
Record KeyPrefixResultOpts := mkKeyPrefixResultOpts {
  kpr_Sort : bool;
  kpr_ExcludeDeleted : bool }.

(** [slices.DeleteFunc]: every key is queried, the last failure is kept. *)
Fixpoint exclude_deleted (ns : string) (kv : Bucket) (ks : list string) (fnErr : option error) :
    M (list string * option error) :=
  match ks with
  | [] => mret ([], fnErr)
  | k :: ks =>
      r ← attempt (kvGet ns kv k);
      match r with
      | inl _ => rest ← exclude_deleted ns kv ks fnErr; mret (k :: rest.1, rest.2)
      | inr err =>
          exclude_deleted ns kv ks (if Is err ErrKeyNotFound then fnErr else Some err)
      end
  end.

Definition KeyPrefixSearch (ns : string) (kv : Bucket) (prefix : string)
    (opts : KeyPrefixResultOpts) : M (list string) :=
  ret ← wrapping (Wrap "get stream info") (kvSubjects ns kv prefix);
  let ret := if kpr_Sort opts then merge_sort String.le ret else ret in
  if kpr_ExcludeDeleted opts then
    r ← exclude_deleted ns kv ret None;
    match r.2 with
    | Some err => throw (Wrap "get key value" err)
    | None => mret r.1
    end
  else mret ret.

Definition KeyPrefixSearchMap (ns : string) (kv : Bucket) (prefix : string)
    (opts : KeyPrefixResultOpts) : M (gset string) :=
  ret ← wrapping (Wrap "get stream info") (kvSubjects ns kv prefix);
  if kpr_Sort opts then throw (New "sort specified on map result")
  else if kpr_ExcludeDeleted opts then
    r ← exclude_deleted ns kv ret None;
    match r.2 with
    | Some err => throw (Wrap "get key value" err)
    | None => mret (list_to_set r.1)
    end
  else mret (list_to_set ret).
End natsutil.

(** ** Effects *)
Section natsutil_effects.
Context `{EnvOk} (T : Cells) (P : Msg → Prop).

Lemma eff_check {A} (m : M (A * option error)) :
  preserves (effect T P) m → preserves (effect T P) (check m).
Proof. intros. unfold check. preserves_tac. Qed.

Lemma eff_updateKV {A} ns wf k (msg : A) updateFn :
  T ns wf k → (∀ d m, preserves (effect T P) (updateFn d m)) →
  preserves (effect T P) (updateKV ns wf k msg updateFn).
Proof.
  intros HT Hf. unfold updateKV. generalize contention as fuel. intros fuel.
  revert msg. induction fuel as [|fuel IH]; intros msg; [cbn; preserves_tac|].
  rewrite updateKV_loop_alone. preserves_tac.
Qed.

Lemma eff_Save ns wf k d : T ns wf k → preserves (effect T P) (Save ns wf k d).
Proof. intros. unfold Save. preserves_tac. Qed.
Lemma eff_Load ns wf k : preserves (effect T P) (Load ns wf k).
Proof. unfold Load. preserves_tac. Qed.
Lemma eff_Delete ns wf k : T ns wf k → preserves (effect T P) (Delete ns wf k).
Proof. intros. unfold Delete. preserves_tac. Qed.
#[local] Hint Resolve eff_check eff_Save eff_Load eff_updateKV : preserves.

Lemma eff_SaveObj `{Proto A} ns wf k (v : A) :
  T ns wf k → preserves (effect T P) (SaveObj ns wf k v).
Proof. intros. unfold SaveObj. preserves_tac. Qed.
Lemma eff_LoadObj A `{Proto A} ns wf k : preserves (effect T P) (LoadObj A ns wf k).
Proof. unfold LoadObj. preserves_tac. Qed.
#[local] Hint Resolve eff_SaveObj eff_LoadObj : preserves.

Lemma eff_update_closure `{Proto A} (f : A → M A) d m :
  (∀ a, preserves (effect T P) (f a)) → preserves (effect T P) (update_closure f d m).
Proof. intros. unfold update_closure. preserves_tac. Qed.
#[local] Hint Resolve eff_update_closure : preserves.

Lemma eff_UpdateObj `{Proto A} ns wf k (msg : A) f :
  T ns wf k → (∀ a, preserves (effect T P) (f a)) →
  preserves (effect T P) (UpdateObj ns wf k msg f).
Proof. intros. unfold UpdateObj. preserves_tac. Qed.

Lemma eff_update_closure_with {S} `{Proto A} (f : S → A → M (S * A)) d m :
  (∀ s a, preserves (effect T P) (f s a)) → preserves (effect T P) (update_closure_with f d m).
Proof. intros. unfold update_closure_with. preserves_tac. Qed.
#[local] Hint Resolve eff_update_closure_with : preserves.

Lemma eff_LoadObjInto `{Proto A} ns wf k (v : A) : preserves (effect T P) (LoadObjInto ns wf k v).
Proof. unfold LoadObjInto. preserves_tac. Qed.

Lemma eff_UpdateObj_with {S} `{Proto A} ns wf k (msg : A) (s : S) f :
  T ns wf k → (∀ s a, preserves (effect T P) (f s a)) →
  preserves (effect T P) (UpdateObj_with ns wf k msg s f).
Proof. intros. unfold UpdateObj_with. preserves_tac. Qed.

Lemma eff_UpdateObjIsNew `{Proto A} ns wf k (msg : A) f :
  T ns wf k → (∀ a, preserves (effect T P) (f a)) →
  preserves (effect T P) (UpdateObjIsNew ns wf k msg f).
Proof. intros. unfold UpdateObjIsNew. preserves_tac. Qed.

Lemma eff_Lock ns kv l : T ns kv l → preserves (effect T P) (Lock ns kv l).
Proof. intros. rewrite Lock_alone. preserves_tac. Qed.
Lemma eff_ExtendLock ns kv l : T ns kv l → preserves (effect T P) (ExtendLock ns kv l).
Proof. intros. unfold ExtendLock. preserves_tac. Qed.
Lemma eff_UnLock ns kv l : T ns kv l → preserves (effect T P) (UnLock ns kv l).
Proof. intros. rewrite UnLock_alone. preserves_tac. Qed.

Lemma eff_exclude_deleted ns kv ks e : preserves (effect T P) (exclude_deleted ns kv ks e).
Proof. revert e. induction ks as [|k ks IH]; intros e; simpl; preserves_tac. Qed.
#[local] Hint Resolve eff_exclude_deleted : preserves.

Lemma eff_KeyPrefixSearch ns kv p o : preserves (effect T P) (KeyPrefixSearch ns kv p o).
Proof. unfold KeyPrefixSearch. preserves_tac. Qed.
Lemma eff_KeyPrefixSearchMap ns kv p o : preserves (effect T P) (KeyPrefixSearchMap ns kv p o).
Proof. unfold KeyPrefixSearchMap. preserves_tac. Qed.
End natsutil_effects.

#[export] Hint Resolve eff_check eff_Save eff_Load eff_Delete eff_SaveObj eff_LoadObj eff_LoadObjInto
  eff_UpdateObj eff_UpdateObj_with
  eff_UpdateObjIsNew eff_Lock eff_ExtendLock eff_UnLock eff_KeyPrefixSearch
  eff_KeyPrefixSearchMap : preserves.

(** ** Runs without faults *)
Section natsutil_wp.
Context `{EnvOk} (NF : NoFaults).

Lemma wp_Save ns b k d w Φ :
  (∀ w', w' ≡ w_put ns b k d w → Φ w' (Ok tt)) → wp (Save ns b k d) w Φ.
Proof.
  intros HΦ. unfold Save. wp_steps. apply HΦ. by rewrite w_next_equiv.
Qed.

Lemma wp_SaveObj `{Proto A} ns b k (v : A) w Φ :
  (∀ w', w' ≡ w_put ns b k (Marshal v) w → Φ w' (Ok tt)) → wp (SaveObj ns b k v) w Φ.
Proof. apply wp_Save. Qed.

Lemma wp_Delete ns b k w Φ :
  (∀ w', w' ≡ w_del ns b k w → Φ w' (Ok tt)) → wp (Delete ns b k) w Φ.
Proof.
  intros HΦ. unfold Delete. wp_steps. apply HΦ. by rewrite w_next_equiv.
Qed.

Lemma wp_Load ns b k w Φ :
  match w_get w ns b k with
  | Some d => ∀ w', w' ≡ w → Φ w' (Ok d)
  | None => ∀ w' e, w' ≡ w → leaf e = Sentinel ErrKeyNotFound → Φ w' (Err e)
  end → wp (Load ns b k) w Φ.
Proof.
  intros HΦ. unfold Load. wp_steps. apply wp_kvGet; [done|].
  destruct (w_get w ns b k) as [d|] eqn:Hg.
  - apply w_get_kv_get in Hg as [r ->]. wp_steps. apply HΦ, w_next_equiv.
  - apply w_get_none in Hg as ->. apply HΦ; [apply w_next_equiv|done].
Qed.

(** Loading what holds a message gives the message; a missing key is an error
    whose chain ends in [ErrKeyNotFound]. *)
Lemma wp_LoadObj `{Proto A} ns b k w Φ :
  match w_get w ns b k with
  | Some d =>
      match Unmarshal d with
      | Some v => ∀ w', w' ≡ w → Φ w' (Ok v)
      | None => ∀ w' e, w' ≡ w → Φ w' (Err e)
      end
  | None => ∀ w' e, w' ≡ w → leaf e = Sentinel ErrKeyNotFound → Φ w' (Err e)
  end → wp (LoadObj A ns b k) w Φ.
Proof.
  intros HΦ. unfold LoadObj. wp_steps. apply wp_Load.
  destruct (w_get w ns b k) as [d|].
  - intros w' Hw. destruct (Unmarshal d) as [v|]; wp_steps; by apply HΦ.
  - intros w' e Hw He. by apply HΦ.
Qed.

Lemma wp_LoadObj_some `{Proto A} ns b k d (v : A) w Φ :
  w_get w ns b k = Some d → Unmarshal d = Some v →
  (∀ w', w' ≡ w → Φ w' (Ok v)) → wp (LoadObj A ns b k) w Φ.
Proof. intros Hg Hd HΦ. apply wp_LoadObj. by rewrite Hg, Hd. Qed.

Lemma wp_LoadObj_none `{Proto A} ns b k w Φ :
  w_get w ns b k = None →
  (∀ w' e, w' ≡ w → leaf e = Sentinel ErrKeyNotFound → Φ w' (Err e)) →
  wp (LoadObj A ns b k) w Φ.
Proof. intros Hg HΦ. apply wp_LoadObj. by rewrite Hg. Qed.

Lemma wp_kvUpdate_same ns b k d d0 r w Φ :
  kv_get (w_kv w ns b) k = Some (d0, r) →
  (∀ w', w' ≡ w_put ns b k d w → Φ w' (Ok tt)) → wp (kvUpdate ns b k d r) w Φ.
Proof.
  intros Hg HΦ. unfold kvUpdate. apply wp_nats; [done|]. simpl. unfold kv_update.
  rewrite Hg, decide_True by done. simpl. apply HΦ.
  change (w_put ns b k d (w_next w) ≡ w_put ns b k d w). by rewrite w_next_equiv.
Qed.

(** A lock that is free is granted, one that is held is given back. *)
Lemma wp_Lock_free ns b k w Φ :
  w_get w ns b k = None → (∀ w', w' ≡ w_put ns b k lockVal w → Φ w' (Ok true)) →
  wp (Lock ns b k) w Φ.
Proof.
  intros Hg%w_get_none HΦ. rewrite Lock_alone. wp_steps. unfold kvCreate. apply wp_nats; [done|].
  unfold kv_create. change (w_kv (w_next w) ns b) with (w_kv w ns b). rewrite Hg. wp_steps.
  apply HΦ. change (w_put ns b k lockVal (w_next w) ≡ w_put ns b k lockVal w). by rewrite w_next_equiv.
Qed.

Lemma wp_UnLock_held ns b k d w Φ :
  w_get w ns b k = Some d → (∀ w', w' ≡ w_del ns b k w → Φ w' (Ok tt)) →
  wp (UnLock ns b k) w Φ.
Proof.
  intros [r Hg]%w_get_kv_get HΦ. rewrite UnLock_alone. wp_steps. apply wp_kvGet; [done|]. rewrite Hg.
  wp_steps. apply HΦ. by rewrite !w_next_equiv.
Qed.

(** One uncontended turn of [updateKV]: the value found is replaced by its
    update, provided the update function leaves this store alone. *)
Lemma wp_updateKV `{Proto A} ns b k (msg v : A) d (f : A → M A) w Φ :
  w_get w ns b k = Some d → Unmarshal d = Some v →
  (∀ w1, w1 ≡ w → (∀ ns' b', w_kv w1 ns' b' = w_kv w ns' b') →
     wp (f v) w1 (λ w2 r,
       match r with
       | Ok v' => w_kv w2 ns b = w_kv w1 ns b ∧
                  ∀ w', w' ≡ w_put ns b k (Marshal v') w2 → Φ w' (Ok (v', None))
       | Err e => Φ w2 (Ok (v, Some (Wrap "update function" (Wrap "update function" e))))
       | Panic p => Φ w2 (Panic p)
       end)) →
  wp (updateKV ns b k msg (update_closure f)) w Φ.
Proof.
  intros [r Hg]%w_get_kv_get Hd Hf. unfold updateKV, contention. rewrite updateKV_loop_alone.
  wp_steps. apply wp_kvGet; [done|]. rewrite Hg. wp_steps.
  unfold update_closure. rewrite Hd. wp_steps.
  eapply wp_mono; [|by apply (Hf (w_next w))].
  intros w2 [v'|e|p]; cbv beta iota; [|done|done].
  intros [Hkv HΦ]. wp_steps. eapply wp_kvUpdate_same; [by rewrite Hkv|].
  intros w' Hw'. wp_steps. by apply HΦ.
Qed.

(** [UpdateObj]: the stored value, or the caller's message where there is none,
    goes through the update function in a world that differs from the caller's
    in that cell only, and is replaced by the result. *)
Lemma wp_UpdateObj_run `{Proto A} ns b k (msg v : A) (f : A → M A) w Φ :
  match w_get w ns b k with Some d => Unmarshal d | None => Some msg end = Some v →
  (∀ w1, (∀ d, w_put ns b k d w1 ≡ w_put ns b k d w) →
     wp (f v) w1 (λ w2 r,
       match r with
       | Ok v' => w_kv w2 ns b = w_kv w1 ns b ∧
                  ∀ w', w' ≡ w_put ns b k (Marshal v') w2 → Φ w' (Ok (v', None))
       | Err e => Φ w2 (Ok (v, Some (Wrap "update function" (Wrap "update function" e))))
       | Panic p => Φ w2 (Panic p)
       end)) →
  wp (UpdateObj ns b k msg f) w Φ.
Proof.
  intros Hv Hf. unfold UpdateObj. wp_steps. apply wp_kvGet; [done|].
  destruct (w_get w ns b k) as [d|] eqn:Hg.
  - destruct (w_get_kv_get _ _ _ _ _ Hg) as [r ->]. wp_steps.
    apply (wp_updateKV _ _ _ _ v d); [done|done|].
    intros w1 Hw1 Hkv. apply Hf. intros d'. by rewrite Hw1, w_next_equiv.
  - apply w_get_none in Hg as ->. simpl. wp_steps. apply wp_SaveObj.
    intros w0 Hw0. wp_steps. injection Hv as ->.
    eapply (wp_updateKV _ _ _ _ v (Marshal v)).
    { by rewrite Hw0, w_get_put_eq. } { apply Unmarshal_Marshal. }
    intros w1 Hw1 Hkv. apply Hf. intros d'. by rewrite Hw1, Hw0, w_put_put, w_next_equiv.
Qed.

(** The same at a pure update function. *)
Lemma wp_UpdateObj `{Proto A} ns b k (msg v : A) (f : A → A) w Φ :
  match w_get w ns b k with Some d => Unmarshal d | None => Some msg end = Some v →
  (∀ w', w' ≡ w_put ns b k (Marshal (f v)) w → Φ w' (Ok (f v, None))) →
  wp (UpdateObj ns b k msg (λ v, mret (f v))) w Φ.
Proof.
  intros Hv HΦ. eapply wp_UpdateObj_run; [done|]. intros w1 Hw1. apply wp_ret.
  split; [done|]. intros w' Hw'. apply HΦ. by rewrite Hw', Hw1.
Qed.

Lemma wp_check_UpdateObj `{Proto A} ns b k (msg v : A) (f : A → A) w Φ :
  match w_get w ns b k with Some d => Unmarshal d | None => Some msg end = Some v →
  (∀ w', w' ≡ w_put ns b k (Marshal (f v)) w → Φ w' (Ok (f v))) →
  wp (check (UpdateObj ns b k msg (λ v, mret (f v)))) w Φ.
Proof.
  intros Hv HΦ. unfold check. wp_steps. eapply wp_UpdateObj; [done|].
  intros w' Hw'. simpl. wp_steps. by apply HΦ.
Qed.

Lemma wp_UpdateObjIsNew `{Proto A} ns b k (msg v : A) (f : A → A) w Φ :
  match w_get w ns b k with Some d => Unmarshal d | None => Some msg end = Some v →
  (∀ w', w' ≡ w_put ns b k (Marshal (f v)) w →
     Φ w' (Ok (bool_decide (w_get w ns b k = None)))) →
  wp (UpdateObjIsNew ns b k msg (λ v, mret (f v))) w Φ.
Proof.
  intros Hv HΦ. unfold UpdateObjIsNew, check. wp_steps. apply wp_kvGet; [done|].
  destruct (w_get w ns b k) as [d|] eqn:Hg.
  - destruct (w_get_kv_get _ _ _ _ _ Hg) as [r ->]. wp_steps.
    apply (wp_updateKV _ _ _ _ v d); [done|done|].
    intros w1 Hw1 Hkv. apply wp_ret. split; [done|]. intros w' Hw'. simpl. wp_steps.
    apply HΦ. by rewrite Hw', Hw1, w_next_equiv.
  - apply w_get_none in Hg as ->. simpl. wp_steps. apply wp_SaveObj.
    intros w0 Hw0. wp_steps. injection Hv as ->.
    eapply (wp_updateKV _ _ _ _ v (Marshal v)).
    { by rewrite Hw0, w_get_put_eq. } { apply Unmarshal_Marshal. }
    intros w1 Hw1 Hkv. apply wp_ret. split; [done|]. intros w' Hw'. simpl. wp_steps.
    apply HΦ. by rewrite Hw', Hw1, Hw0, w_put_put, w_next_equiv.
Qed.
End natsutil_wp.
