(* ===== verification/Interleave.v ===== *)
(** * Programs that others come between

    A program of the key-value helpers ([NatsUtil.v]) is cut at its calls: [prog]
    is the program as a tree of the calls it makes, each with what it goes on to do
    with the answer.  [perform] runs it alone; in a [pool] of programs any of them
    makes its next call, and the calls of others come between. *)
From S2P Require Import Prelude Model Errors Env Sim Common Wp NatsUtil.

(** ** Programs *)
Section prog.
Context {E : Type → Type}.

Inductive prog (A : Type) : Type :=
  | Ends (r : res error A)
  | Asks {X} (e : E X) (next : res error X → prog A).
Arguments Ends {A} r.
Arguments Asks {A X} e next.

(** What a program does with the outcome of another. *)
Fixpoint catch {A B} (h : res error A → prog B) (p : prog A) : prog B :=
  match p with
  | Ends r => h r
  | Asks e next => Asks e (λ r, catch h (next r))
  end.

Definition ask {X} (e : E X) : prog X := Asks e Ends.

Definition prog_ret : MRet prog := λ A a, Ends (Ok a).

Definition prog_bind : MBind prog := λ A B f p,
  catch (λ r, match r with Ok a => f a | Err e => Ends (Err e) | Panic why => Ends (Panic why) end) p.

Definition prog_attempt {A} (p : prog A) : prog (A + error) :=
  catch (λ r, Ends (match r with Ok a => Ok (inl a) | Err e => Ok (inr e) | Panic why => Panic why end)) p.

Definition prog_wrapping {A} (w : error → error) (p : prog A) : prog A :=
  catch (λ r, Ends (match r with Err e => Err (w e) | r => r end)) p.

Definition prog_deferring {A} (cleanup : prog unit) (p : prog A) : prog A :=
  catch (λ r, catch (λ c, Ends (match c with Panic why => Panic why | _ => r end)) cleanup) p.

(** One of some programs has a call to make, or all of them have ended. *)
Lemma some_asks {A} (ps : list (prog A)) :
  (∃ i X (e : E X) next, ps !! i = Some (Asks e next)) ∨ Forall (λ p, ∃ r, p = Ends r) ps.
Proof.
  induction ps as [|[r|X e next] ps [(i & Y & e' & next' & Hi)|IH]]; [by right|left|right|left|left].
  - by exists (S i), Y, e', next'.
  - constructor; [by exists r|done].
  - by exists 0, X, e, next.
  - by exists 0, X, e, next.
Qed.

(** ** Alone *)
Section perform.
Context {S : Type} (handle : ∀ X, E X → gom error S X).

Fixpoint perform {A} (p : prog A) : gom error S A := λ s,
  match p with
  | Ends r => (s, r)
  | Asks e next => let '(s', r) := handle _ e s in perform (next r) s'
  end.

Lemma perform_catch {A B} (h : res error A → prog B) (p : prog A) s :
  perform (catch h p) s = let '(s', r) := perform p s in perform (h r) s'.
Proof.
  revert s. induction p as [r|X e next IH]; intros s; [done|]. cbn [catch perform].
  destruct (handle X e s) as [s' r]. apply IH.
Qed.

Lemma perform_ask {X} (e : E X) s : perform (ask e) s = handle X e s.
Proof. cbn. by destruct (handle X e s). Qed.

(** What a program goes on to do when its next call is answered. *)
Definition answered {A} (answer : ∀ X, E X → res error X) (p : prog A) : prog A :=
  match p with Ends r => Ends r | Asks e next => next (answer _ e) end.

(** A program does the same as another computation, in every state. *)
Definition does {A} (p : prog A) (m : gom error S A) : Prop := ∀ s, perform p s = m s.

Lemma does_ask {X} (e : E X) : does (ask e) (handle X e).
Proof. intros s. apply perform_ask. Qed.

Lemma does_bind {A B} (p : prog A) m (f : A → prog B) g :
  does p m → (∀ a, does (f a) (g a)) → does (prog_bind _ _ f p) (m ≫= g).
Proof.
  intros Hp Hf s. unfold prog_bind. rewrite perform_catch, Hp. unfold mbind, gom_bind.
  destruct (m s) as [s' [a|e|why]]; [apply Hf|done..].
Qed.

Lemma does_attempt {A} (p : prog A) m : does p m → does (prog_attempt p) (attempt m).
Proof.
  intros Hp s. unfold prog_attempt. rewrite perform_catch, Hp. unfold attempt. by destruct (m s) as [s' []].
Qed.

Lemma does_wrapping {A} w (p : prog A) m : does p m → does (prog_wrapping w p) (wrapping w m).
Proof.
  intros Hp s. unfold prog_wrapping. rewrite perform_catch, Hp. unfold wrapping. by destruct (m s) as [s' []].
Qed.

Lemma does_deferring {A} cleanup c (p : prog A) m :
  does cleanup c → does p m → does (prog_deferring cleanup p) (deferring c m).
Proof.
  intros Hc Hp s. unfold prog_deferring. rewrite perform_catch, Hp. unfold deferring.
  destruct (m s) as [s' r]. simpl. rewrite perform_catch, Hc. by destruct (c s') as [? []].
Qed.
End perform.

(** ** Among others *)
Section pool.
Context {S : Type} (answer : ∀ X, E X → S → S * res error X) (A : Type).

(** A call that fails has its effect, or it has not. *)
Definition faulted (fault : option (error * bool)) {X} (e : E X) (s : S) : S * res error X :=
  match fault with
  | None => answer X e s
  | Some (err, true) => ((answer X e s).1, Err err)
  | Some (err, false) => (s, Err err)
  end.

(** The next call of a program, if it has not ended. *)
Definition makes (fault : option (error * bool)) (s : S) (p : prog A) : option (S * prog A) :=
  match p with
  | Ends _ => None
  | Asks e next => let r := faulted fault e s in Some (r.1, next r.2)
  end.

Record pool := mkPool { po_state : S; po_progs : list (prog A) }.

Inductive call_made (fault : option (error * bool)) : pool → pool → Prop :=
  | call_made_ i p s ps s' p' :
      ps !! i = Some p → makes fault s p = Some (s', p') →
      call_made fault (mkPool s ps) (mkPool s' (<[i := p']> ps)).

(** The program [i] makes its next call, if it has one to make. *)
Definition turn (po : pool) (i : nat) : pool :=
  match po_progs po !! i with
  | Some p => match makes None (po_state po) p with
              | Some (s', p') => mkPool s' (<[i := p']> (po_progs po))
              | None => po
              end
  | None => po
  end.

Lemma turns_made po l : rtc (call_made None) po (foldl turn po l).
Proof.
  revert po. induction l as [|i l IH]; intros po; [apply rtc_refl|]. simpl. etrans; [|apply IH].
  destruct po as [s ps]. unfold turn. simpl. destruct (ps !! i) as [p|] eqn:Hi; [|done].
  destruct (makes None s p) as [[s' p']|] eqn:Hm; [|done]. by apply rtc_once, (call_made_ None i p).
Qed.
End pool.
End prog.
Arguments Ends {E A} r.
Arguments Asks {E A X} e next.
Arguments prog E A : clear implicits.
Arguments mkPool {E S A} _ _.
Arguments po_state {E S A} _.
Arguments po_progs {E S A} _.
Arguments pool E S A : clear implicits.

(** ** The calls of a key-value store *)
Inductive kv_call : Type → Type :=
  | KvGet (ns : string) (b : Bucket) (k : string) : kv_call (Data * Z)
  | KvCreate (ns : string) (b : Bucket) (k : string) (d : Data) : kv_call unit
  | KvUpdate (ns : string) (b : Bucket) (k : string) (d : Data) (rev : Z) : kv_call unit
  | KvDelete (ns : string) (b : Bucket) (k : string) : kv_call unit.

(** Programs whose calls are of these, and maybe of others. *)
Definition prog_calls {E : Type → Type} (in_store : ∀ X, kv_call X → E X) : GoCalls (prog E) := {|
  go_ret := prog_ret; go_bind := prog_bind;
  go_throw A e := Ends (Err e); go_panic A why := Ends (Panic why);
  go_attempt := @prog_attempt E; go_wrapping := @prog_wrapping E; go_deferring := @prog_deferring E;
  call_get ns b k := ask (in_store _ (KvGet ns b k));
  call_create ns b k d := ask (in_store _ (KvCreate ns b k d));
  call_update ns b k d rev := ask (in_store _ (KvUpdate ns b k d rev));
  call_delete ns b k := ask (in_store _ (KvDelete ns b k)) |}.

(** The stores of all namespaces. *)
Section stores.
Context `{KeyValue KV}.

Definition stores : Type := string → Bucket → KV.

Definition set_store (ns : string) (b : Bucket) (kv : KV) (s : stores) : stores := λ ns' b',
  if decide (ns' = ns ∧ b' = b) then kv else s ns' b'.

Definition in_stores {X} (e : kv_call X) : stores → stores * res error X :=
  match e with
  | KvGet ns b k => λ s,
      (s, match kv_get (s ns b) k with Some r => Ok r | None => Err (Sentinel ErrKeyNotFound) end)
  | KvCreate ns b k d => λ s,
      match kv_create (s ns b) k d with
      | Some kv => (set_store ns b kv s, Ok tt)
      | None => (s, Err (Sentinel ErrKeyExists))
      end
  | KvUpdate ns b k d rev => λ s,
      match kv_update (s ns b) k d rev with
      | Some kv => (set_store ns b kv s, Ok tt)
      | None => (s, Err WrongLastSequence)
      end
  | KvDelete ns b k => λ s, (set_store ns b (kv_delete (s ns b) k) s, Ok tt)
  end.
End stores.

(** A read that finds this, and writes that go through. *)
Definition reads (d : Data) (rev : Z) {X} (e : kv_call X) : res error X :=
  match e with KvGet _ _ _ => Ok (d, rev) | KvCreate _ _ _ _ | KvUpdate _ _ _ _ _ | KvDelete _ _ _ => Ok tt end.

(** The same calls in the world of a program that runs alone. *)
Definition in_world_call `{Env} {X} (e : kv_call X) : M X :=
  match e with
  | KvGet ns b k => kvGet ns b k
  | KvCreate ns b k d => kvCreate ns b k d
  | KvUpdate ns b k d rev => kvUpdate ns b k d rev
  | KvDelete ns b k => kvDelete ns b k
  end.
