(* ===== verification/KvConcurrency.v ===== *)
(** * Concurrent updates of one key

    Engine workers update the same key-value entry through [updateKV]
    ([common/natsutil.go]): read the entry, compute, and write back at the
    revision read, starting over when another writer came first.  Here any number
    of them run [updateKV_loop] itself, cut at its calls ([Interleave.v]), in any
    interleaving, beside writers of other keys.

    [reachable_no_lost_update]: the entry always holds the updates of exactly
    the clients that finished, each applied once, in some order.
    [clients_terminate]: a loop for each client is enough; none of them panics,
    fails or goes on for ever. *)
From S2P Require Import Prelude Model Errors Env Sim Common Wp NatsUtil Interleave.

(** ** The program *)
#[local] Instance kv_calls : GoCalls (prog kv_call) := prog_calls (λ X e, e).

Abbreviation client_prog := (prog kv_call (unit * option error)).

(** Run alone, the program is [updateKV_loop] as the engine runs it. *)
Lemma updateKV_loop_performed `{Env} {A} fuel ns b k (msg : A)
    (f : Data → A → prog kv_call (A * (Data + error))) (g : Data → A → M (A * (Data + error))) :
  (∀ d a, does (@in_world_call _) (f d a) (g d a)) →
  does (@in_world_call _) (updateKV_loop fuel ns b k msg f) (updateKV_loop fuel ns b k msg g).
Proof.
  intros Hf. revert msg. induction fuel as [|fuel IH]; intros msg; [done|].
  rewrite updateKV_loop_alone. apply does_bind; [apply does_attempt, (does_ask (@in_world_call _) (KvGet ns b k))|].
  intros [[d rev]|e]; [|done]. apply does_bind; [apply Hf|]. intros [a [uv|e]]; [|done].
  apply does_bind; [apply does_attempt, (does_ask (@in_world_call _) (KvUpdate ns b k uv rev))|]. intros [[]|[]]; done.
Qed.

(** ** Many clients *)
Section clients.
Context `{KeyValueOk KV} (ns : string) (b : Bucket) (k : string) (upd : nat → Data → Data) (fuel : nat).

(** Client [i] runs [updateKV] with its own update. *)
Definition client (i n : nat) : client_prog := updateKV_loop n ns b k () (λ d _, Ends (Ok ((), inl (upd i d)))).

Definition returned : client_prog := Ends (Ok ((), None)).

Abbreviation shared := (pool kv_call (stores (KV:=KV)) (unit * option error)).
Abbreviation client_moves := (call_made (@in_stores KV _) (unit * option error) None).

(** A client makes its next call, or somebody writes another entry. *)
Inductive step : shared → shared → Prop :=
  | step_client s s' : client_moves s s' → step s s'
  | step_put_other ns' b' k' d s ps :
      (ns', b', k') ≠ (ns, b, k) →
      step (mkPool s ps) (mkPool (set_store ns' b' (kv_put (s ns' b') k' d) s) ps)
  | step_delete_other ns' b' k' s ps :
      (ns', b', k') ≠ (ns, b, k) →
      step (mkPool s ps) (mkPool (set_store ns' b' (kv_delete (s ns' b') k') s) ps).

Definition initial (s : stores) (d0 : Data) (n : nat) : shared :=
  mkPool (set_store ns b (kv_put (s ns b) k d0) s) ((λ i, client i fuel) <$> seq 0 n).

(** The updates of the clients in [log], the earliest first. *)
Definition apply_log (d0 : Data) (log : list nat) : Data := foldl (λ d i, upd i d) d0 log.

(** Where a client is, with the loops it has left. *)
Inductive pc :=
  | Start (n : nat)                      (* about to read *)
  | Got (n : nat) (d : Data) (rev : Z)   (* about to write at [rev], [n] loops left after it *)
  | Done                                 (* returned nil *).

Definition at_pc (i : nat) (p : pc) : client_prog :=
  match p with
  | Start n => client i n
  | Got n d rev => answered (@reads d rev) (client i (S n))
  | Done => returned
  end.

Lemma done_or_not p : p = Done ∨ p ≠ Done.
Proof. destruct p; auto. Qed.

Definition pending (p : pc) : nat := match p with Done => 0 | _ => 1 end.

Lemma makes_read i n s d rev :
  kv_get (s ns b) k = Some (d, rev) → makes (@in_stores KV _) _ None s (client i (S n)) = Some (s, at_pc i (Got n d rev)).
Proof. intros Hg. cbn. by rewrite Hg. Qed.

Lemma makes_write i n s d d0 rev rev0 :
  kv_get (s ns b) k = Some (d0, rev0) →
  makes (@in_stores KV _) _ None s (at_pc i (Got n d rev)) =
    if decide (rev0 = rev) then Some (set_store ns b (kv_put (s ns b) k (upd i d)) s, at_pc i Done)
    else Some (s, at_pc i (Start n)).
Proof. intros Hg. cbn. unfold kv_update. rewrite Hg. by case_decide. Qed.

(** The loops a client has left, not counting the one that a write at an old
    revision ends. *)
Definition room (rev : Z) (p : pc) : nat :=
  match p with
  | Start n => n
  | Got n _ r => if decide (r = rev) then S n else n
  | Done => fuel
  end.

(** What the entry holds, what the clients that read it know, and that the clients
    have a loop left for each one that has not finished. *)
Record inv (d0 : Data) (log : list nat) (rev : Z) (pcs : list pc) (s : stores) : Prop := {
  inv_value : kv_get (s ns b) k = Some (apply_log d0 log, rev);
  inv_seq : (rev ≤ kv_seq (s ns b))%Z;
  inv_nodup : NoDup log;
  inv_done i : i ∈ log ↔ pcs !! i = Some Done;
  inv_got i n d r : pcs !! i = Some (Got n d r) → (r ≤ rev)%Z ∧ (r = rev → d = apply_log d0 log);
  inv_room i p : pcs !! i = Some p → p ≠ Done → sum_list_with pending pcs ≤ room rev p }.

Definition holds_inv (d0 : Data) (s : shared) : Prop := ∃ log rev pcs,
  po_progs s = imap at_pc pcs ∧ inv d0 log rev pcs (po_state s).

Lemma set_store_same (s : stores (KV:=KV)) ns' b' kv : set_store ns' b' kv s ns' b' = kv.
Proof. unfold set_store. by rewrite decide_True. Qed.

Lemma set_store_other (s : stores (KV:=KV)) ns' b' kv ns2 b2 : (ns2, b2) ≠ (ns', b') → set_store ns' b' kv s ns2 b2 = s ns2 b2.
Proof. intros Hne. unfold set_store. by rewrite decide_False by naive_solver. Qed.

Lemma initial_clients m n : ((λ i, client i fuel) <$> seq m n) = imap (λ i, at_pc (m + i)) (replicate n (Start fuel)) :> list client_prog.
Proof.
  revert m. induction n as [|n IH]; intros m; [done|]. cbn [seq fmap list_fmap replicate imap].
  rewrite IH. f_equal; [by rewrite Nat.add_0_r|]. apply imap_ext. intros i x _. simpl. by rewrite Nat.add_succ_r.
Qed.

Lemma inv_initial s d0 n : n ≤ fuel → holds_inv d0 (initial s d0 n).
Proof.
  intros Hn. exists [], (kv_seq (s ns b) + 1)%Z, (replicate n (Start fuel)). split; [apply (initial_clients 0)|].
  split; simpl; rewrite ?set_store_same.
  - apply kv_get_put_eq.
  - rewrite kv_seq_put. lia.
  - constructor.
  - intros i. split; [intros []%not_elem_of_nil|]. intros [[=] _]%lookup_replicate.
  - intros i m d r [[=] _]%lookup_replicate.
  - intros i p [-> _]%lookup_replicate _. simpl. assert (∀ m, sum_list_with pending (replicate m (Start fuel)) = m) as ->; [|done].
    intros m. induction m; simpl; congruence.
Qed.

Lemma inv_frame d0 log rev pcs s s' :
  kv_get (s' ns b) k = kv_get (s ns b) k → (kv_seq (s ns b) ≤ kv_seq (s' ns b))%Z →
  inv d0 log rev pcs s → inv d0 log rev pcs s'.
Proof. intros Hg Hs [Hv Hq Hn Hd Hgot Hr]. split; eauto; [by rewrite Hg|lia]. Qed.

(** A client that has not finished moves on without writing. *)
Lemma inv_set_pc d0 log rev s pcs i p p' :
  pcs !! i = Some p → p ≠ Done → p' ≠ Done → room rev p ≤ room rev p' →
  (∀ n d r, p' = Got n d r → (r ≤ rev)%Z ∧ (r = rev → d = apply_log d0 log)) →
  inv d0 log rev pcs s → inv d0 log rev (<[i := p']> pcs) s.
Proof.
  intros Hi HpD HD Hroom HG [Hv Hq Hn Hd Hgot Hr].
  pose proof (sum_insert pending pcs i p p' Hi) as Hsum.
  assert (pending p = 1 ∧ pending p' = 1) as [Hp1 Hp2] by (by destruct p, p').
  split; eauto; intros j; rewrite ?Hd;
    rewrite list_lookup_insert by (by eapply lookup_lt_Some); case_decide as Hj;
    [naive_solver..| |].
  - intros q [= <-] _. specialize (Hr i p Hi HpD). lia.
  - intros q Hq' HqD. specialize (Hr j q Hq' HqD). lia.
Qed.

(** A client that read the current revision writes its update. *)
Lemma inv_commit d0 log rev s pcs i n :
  pcs !! i = Some (Got n (apply_log d0 log) rev) → inv d0 log rev pcs s →
  inv d0 (log ++ [i]) (kv_seq (s ns b) + 1) (<[i := Done]> pcs)
    (set_store ns b (kv_put (s ns b) k (upd i (apply_log d0 log))) s).
Proof.
  intros Hi [Hv Hq Hn Hd Hgot Hr].
  assert (i ∉ log) as Hni by (rewrite Hd; congruence).
  pose proof (lookup_lt_Some _ _ _ Hi) as Hlt.
  pose proof (sum_insert pending pcs i _ Done Hi) as Hsum. simpl in Hsum.
  split; rewrite ?set_store_same.
  - unfold apply_log at 2. rewrite foldl_snoc. apply kv_get_put_eq.
  - rewrite kv_seq_put. lia.
  - apply NoDup_app. split; [done|]. split; [set_solver|apply NoDup_singleton].
  - intros j. rewrite elem_of_app, Hd, list_elem_of_singleton.
    rewrite list_lookup_insert by done. case_decide; subst; naive_solver.
  - intros j m d r. rewrite list_lookup_insert by done. case_decide; [naive_solver|].
    intros [Hr' _]%Hgot. lia.
  - intros j p. rewrite list_lookup_insert by done. case_decide as Hj; [naive_solver|]. intros Hp HD.
    specialize (Hr j p Hp HD). destruct p as [m|m d r|]; [simpl in *; lia| |done].
    pose proof (Hgot _ _ _ _ Hp) as [Hle _]. simpl in *. rewrite (decide_False (P := r = _)) by lia.
    case_decide; lia.
Qed.

Lemma at_pc_insert pcs i p' : i < length pcs → <[i := at_pc i p']> (imap at_pc pcs) = imap at_pc (<[i := p']> pcs).
Proof.
  intros Hi. apply list_eq. intros j. rewrite list_lookup_imap, !list_lookup_insert, length_imap.
  case_decide as Hj; [by destruct Hj as [-> _]|]. by rewrite list_lookup_imap.
Qed.

(** What the next call of a client makes of where it is. *)
Inductive moved (d0 : Data) (log : list nat) (rev : Z) (s : stores) (i : nat) : pc → pc → stores → Prop :=
  | moved_read n : moved d0 log rev s i (Start (S n)) (Got n (apply_log d0 log) rev) s
  | moved_write n : moved d0 log rev s i (Got n (apply_log d0 log) rev) Done
      (set_store ns b (kv_put (s ns b) k (upd i (apply_log d0 log))) s)
  | moved_retry n d r : r ≠ rev → moved d0 log rev s i (Got n d r) (Start n) s.

Lemma call_moved d0 log rev pcs s s' i p pr :
  inv d0 log rev pcs s → pcs !! i = Some p → makes (@in_stores KV _) _ None s (at_pc i p) = Some (s', pr) →
  ∃ p', pr = at_pc i p' ∧ moved d0 log rev s i p p' s'.
Proof.
  intros Hinv Hi Hm. pose proof (inv_value _ _ _ _ _ Hinv) as Hv. destruct p as [n|n d r|]; [| |done].
  - pose proof (inv_room _ _ _ _ _ Hinv i _ Hi) as Hr. pose proof (sum_lookup_le pending pcs i _ Hi) as Hp.
    simpl in *. destruct n as [|n]; [specialize (Hr ltac:(done)); lia|].
    erewrite makes_read in Hm by done. injection Hm as <- <-. exists (Got n (apply_log d0 log) rev). by split; [|constructor].
  - erewrite makes_write in Hm by done. pose proof (inv_got _ _ _ _ _ Hinv i _ _ _ Hi) as [_ Hcur].
    case_decide as Hrev; injection Hm as <- <-.
    + exists Done. split; [done|]. subst r. rewrite (Hcur eq_refl). constructor.
    + exists (Start n). split; [done|]. by constructor.
Qed.

Lemma inv_moved d0 log rev pcs s s' i p p' :
  inv d0 log rev pcs s → pcs !! i = Some p → moved d0 log rev s i p p' s' →
  ∃ log' rev', inv d0 log' rev' (<[i := p']> pcs) s'.
Proof.
  intros Hinv Hi Hm. destruct Hm as [n|n|n d r Hr].
  - exists log, rev. eapply inv_set_pc; [done..| |by intros ??? [= <- <- <-]|done]. simpl. by rewrite decide_True.
  - do 2 eexists. by eapply inv_commit.
  - exists log, rev. eapply inv_set_pc; [done..| |done|done]. simpl. by rewrite decide_False.
Qed.

(** A client's call, on the places the clients are at. *)
Lemma client_moves_moved d0 log rev pcs s s' :
  po_progs s = imap at_pc pcs → inv d0 log rev pcs (po_state s) → client_moves s s' →
  ∃ i p p', pcs !! i = Some p ∧ moved d0 log rev (po_state s) i p p' (po_state s') ∧
    po_progs s' = imap at_pc (<[i := p']> pcs).
Proof.
  intros Hpr Hinv Hm. destruct Hm as [i pr st ps st' pr' Hi Hmk]. simpl in *. subst ps.
  rewrite list_lookup_imap in Hi. destruct (pcs !! i) as [p|] eqn:Hp; [|done]. injection Hi as <-.
  destruct (call_moved _ _ _ _ _ _ _ _ _ Hinv Hp Hmk) as (p' & -> & Hmv).
  exists i, p, p'. split_and!; [done..|]. apply at_pc_insert. by eapply lookup_lt_Some.
Qed.

Lemma client_moves_inv d0 s s' : holds_inv d0 s → client_moves s s' → holds_inv d0 s'.
Proof.
  intros (log & rev & pcs & Hpr & Hinv) Hm.
  destruct (client_moves_moved _ _ _ _ _ _ Hpr Hinv Hm) as (i & p & p' & Hp & Hmv & Hpr').
  destruct (inv_moved _ _ _ _ _ _ _ _ _ Hinv Hp Hmv) as (log' & rev' & Hinv'). by exists log', rev', (<[i := p']> pcs).
Qed.

Lemma step_inv d0 s s' : holds_inv d0 s → step s s' → holds_inv d0 s'.
Proof.
  intros Hinv Hs. destruct Hs as [s1 s2 Hm|ns' b' k' d s1 ps Hk|ns' b' k' s1 ps Hk]; [by eapply client_moves_inv| |];
    destruct Hinv as (log & rev & pcs & Hpr & Hinv); exists log, rev, pcs; (split; [done|]);
    simpl in *; (eapply inv_frame; [..|exact Hinv]);
    (destruct (decide ((ns, b) = (ns', b'))) as [[= <- <-]|Hne]; [rewrite set_store_same|by rewrite set_store_other by done]).
  - apply kv_get_put_ne. congruence.
  - rewrite kv_seq_put. lia.
  - apply kv_get_delete_ne. congruence.
  - pose proof (kv_seq_delete (s1 ns b) k'). lia.
Qed.

Lemma inv_reachable d0 s0 n s : n ≤ fuel → rtc step (initial s0 d0 n) s → holds_inv d0 s.
Proof.
  intros Hn. apply (rtc_invariant _ (holds_inv d0)); [by intros; eapply step_inv|by apply inv_initial].
Qed.

(** ** Termination: a retry is paid for by another client's success *)
Definition weight (rev : Z) (p : pc) : nat :=
  match p with
  | Done => 0
  | Start _ => 2
  | Got _ _ r => if decide (r = rev) then 1 else 3
  end.

Definition current_rev (s : stores (KV:=KV)) : Z :=
  match kv_get (s ns b) k with Some (_, r) => r | None => 0 end.

Lemma moved_measure d0 log rev pcs s s' i p p' :
  inv d0 log rev pcs s → pcs !! i = Some p → moved d0 log rev s i p p' s' →
  sum_list_with pending (<[i := p']> pcs) < sum_list_with pending pcs ∨
  sum_list_with pending (<[i := p']> pcs) = sum_list_with pending pcs ∧
  sum_list_with (weight (current_rev s')) (<[i := p']> pcs) < sum_list_with (weight (current_rev s)) pcs.
Proof.
  intros Hinv Hi Hm. pose proof (inv_value _ _ _ _ _ Hinv) as Hv.
  assert (current_rev s = rev) as Hc by (unfold current_rev; by rewrite Hv).
  pose proof (sum_insert pending pcs i p p' Hi) as Hp.
  pose proof (sum_insert (weight rev) pcs i p p' Hi) as Hw.
  destruct Hm as [n|n|n d r Hr]; rewrite ?Hc in *; simpl in *.
  - right. rewrite decide_True in Hw by done. lia.
  - left. lia.
  - right. rewrite decide_False in Hw by done. lia.
Qed.

Lemma inv_acc d0 n m log rev pcs s :
  sum_list_with pending pcs ≤ n → sum_list_with (weight (current_rev (po_state s))) pcs ≤ m →
  po_progs s = imap at_pc pcs → inv d0 log rev pcs (po_state s) → Acc (flip client_moves) s.
Proof.
  revert m log rev pcs s. induction n as [n IHn] using lt_wf_ind.
  induction m as [m IHm] using lt_wf_ind. intros log rev pcs s Hn Hm Hpr Hinv.
  constructor. intros s' Hs. unfold flip in Hs.
  destruct (client_moves_moved _ _ _ _ _ _ Hpr Hinv Hs) as (i & p & p' & Hp & Hmv & Hpr').
  destruct (inv_moved _ _ _ _ _ _ _ _ _ Hinv Hp Hmv) as (log' & rev' & Hinv').
  destruct (moved_measure _ _ _ _ _ _ _ _ _ Hinv Hp Hmv) as [Hlt|[Heq Hlt]].
  - eapply (IHn (sum_list_with pending (<[i := p']> pcs))) with (pcs := <[i := p']> pcs); [lia|reflexivity|reflexivity|done|exact Hinv'].
  - eapply (IHm (sum_list_with (weight (current_rev (po_state s'))) (<[i := p']> pcs))) with (pcs := <[i := p']> pcs); [lia|lia|reflexivity|done|exact Hinv'].
Qed.

(** A client that has not returned has a call to make. *)
Lemma at_pc_makes d0 log rev pcs s i p :
  inv d0 log rev pcs s → pcs !! i = Some p → p ≠ Done → is_Some (makes (@in_stores KV _) _ None s (at_pc i p)).
Proof.
  intros Hinv Hi HD. pose proof (inv_room _ _ _ _ _ Hinv i p Hi HD) as Hr.
  pose proof (sum_lookup_le pending pcs i p Hi) as Hp. destruct p as [[|n]|n d r|]; simpl in *; [lia|by eexists..|done].
Qed.

Lemma at_pc_returned d0 log rev pcs s i p :
  inv d0 log rev pcs s → pcs !! i = Some p → at_pc i p = returned ↔ p = Done.
Proof.
  intros Hinv Hi. split; [|by intros ->]. intros Hp. destruct (done_or_not p) as [|HD]; [done|].
  destruct (at_pc_makes _ _ _ _ _ _ _ Hinv Hi HD) as [x Hx]. by rewrite Hp in Hx.
Qed.

Lemma clients_status d0 s :
  holds_inv d0 s → ∃ log rev,
    NoDup log ∧ (∀ i, i ∈ log ↔ po_progs s !! i = Some returned) ∧
    (∀ i p, po_progs s !! i = Some p → p = returned ∨ is_Some (makes (@in_stores KV _) _ None (po_state s) p)) ∧
    kv_get (po_state s ns b) k = Some (apply_log d0 log, rev).
Proof.
  intros (log & rev & pcs & Hpr & Hinv). exists log, rev. pose proof Hinv as [Hv _ Hn Hd _ _]. split_and!; [done| | |done].
  - intros i. rewrite Hd, Hpr, list_lookup_imap. destruct (pcs !! i) as [p|] eqn:Hp; [|done]. simpl.
    rewrite !(inj_iff Some). by rewrite (at_pc_returned _ _ _ _ _ _ _ Hinv Hp).
  - intros i pr. rewrite Hpr, list_lookup_imap. destruct (pcs !! i) as [p|] eqn:Hp; [|done]. intros [= <-].
    destruct (done_or_not p) as [->|HD]; [by left|right]. by eapply at_pc_makes.
Qed.
End clients.

(** ** The theorems *)

(** (C3) No update is lost and none is applied twice: whatever the interleaving
    of the calls of any number of clients that run [updateKV] on one key, with as
    many loops at least as there are clients, beside writers of other keys, the
    entry holds the initial value with the updates of exactly the clients that
    have returned nil, each once, in some order; and every other client has a next
    call to make: none has failed or panicked. *)
Theorem reachable_no_lost_update `{KeyValueOk KV} ns b k upd fuel (kvs : stores (KV:=KV)) d0 n s :
  n ≤ fuel → rtc (step ns b k) (initial ns b k upd fuel kvs d0 n) s →
  ∃ log rev, NoDup log ∧ (∀ i, i ∈ log ↔ po_progs s !! i = Some returned) ∧
    (∀ i p, po_progs s !! i = Some p → p = returned ∨ is_Some (makes (@in_stores KV _) _ None (po_state s) p)) ∧
    kv_get (po_state s ns b) k = Some (apply_log upd d0 log, rev).
Proof. intros Hn Hr. by eapply clients_status, inv_reachable. Qed.

(** (C32) The clients cannot retry for ever: with one loop of [updateKV] for each
    client, from any reachable state every sequence of client calls is finite, and
    when no call is left every client has returned nil. *)
Theorem clients_terminate `{KeyValueOk KV} ns b k upd fuel (kvs : stores (KV:=KV)) d0 n s :
  n ≤ fuel → rtc (step ns b k) (initial ns b k upd fuel kvs d0 n) s →
  Acc (flip (call_made (@in_stores KV _) (unit * option error) None)) s ∧
  ∀ s', rtc (call_made (@in_stores KV _) (unit * option error) None) s s' →
    (∃ s'', call_made (@in_stores KV _) (unit * option error) None s' s'') ∨ Forall (eq returned) (po_progs s').
Proof.
  intros Hn Hr. pose proof (inv_reachable _ _ _ _ _ _ _ _ _ Hn Hr) as Hinv. split.
  - destruct Hinv as (log & rev & pcs & Hpr & Hinv). by eapply inv_acc.
  - intros s' Hs'. assert (holds_inv ns b k upd fuel d0 s') as Hinv'.
    { clear Hr. induction Hs' as [|s1 s2 s3 Hm _ IH]; [done|]. by eapply IH, client_moves_inv. }
    destruct (clients_status _ _ _ _ _ _ _ Hinv') as (log & rev & _ & _ & Hmakes & _). destruct s' as [st ps]. simpl in *.
    destruct (some_asks ps) as [(i & X & e & next & Hi)|Hends]; [left|right].
    + eexists. by eapply (call_made_ _ _ _ i).
    + rewrite Forall_lookup in Hends |- *. intros i p Hi. destruct (Hends i p Hi) as [r ->].
      by destruct (Hmakes i _ Hi) as [->|[x Hx]].
Qed.

(** Two clients that each append their letter: both read, the first writes, the
    second is refused, reads again and writes. *)
Definition ex_upd (i : nat) (d : Data) : Data :=
  match d with
  | DBytes s => DBytes (s +:+ (if bool_decide (i = 0) then "a" else "b"))
  | _ => d
  end.

Definition ex_stores : stores (KV:=SimKV) := λ _ _, kv_new.

Definition ex_run : pool kv_call (stores (KV:=SimKV)) (unit * option error) :=
  foldl (turn (@in_stores SimKV _) _) (initial "default" WfMessages "k" ex_upd 2 ex_stores (DBytes "") 2) [0; 1; 0; 1; 1; 1].

Lemma ex_run_reachable :
  rtc (step "default" WfMessages "k") (initial "default" WfMessages "k" ex_upd 2 ex_stores (DBytes "") 2) ex_run.
Proof.
  eapply (rtc_subrel (call_made (@in_stores SimKV _) _ None)); [|apply turns_made]. intros s s'. apply step_client.
Qed.

Lemma reachable_no_lost_update_witness :
  sim_get (po_state ex_run "default" WfMessages) "k" = Some (DBytes "ab", 3%Z) ∧
  ∃ log rev, NoDup log ∧ (∀ i, i ∈ log ↔ po_progs ex_run !! i = Some returned) ∧
    (∀ i p, po_progs ex_run !! i = Some p →
       p = returned ∨ is_Some (makes (@in_stores SimKV _) _ None (po_state ex_run) p)) ∧
    kv_get (po_state ex_run "default" WfMessages) "k" = Some (apply_log ex_upd (DBytes "") log, rev).
Proof.
  split; [vm_compute; reflexivity|].
  apply (reachable_no_lost_update "default" WfMessages "k" ex_upd 2 ex_stores (DBytes "") 2 ex_run); [reflexivity|].
  apply ex_run_reachable.
Defined.

Lemma clients_terminate_witness : Acc (flip (call_made (@in_stores SimKV _) (unit * option error) None)) ex_run.
Proof.
  apply (clients_terminate "default" WfMessages "k" ex_upd 2 ex_stores (DBytes "") 2 ex_run); [reflexivity|].
  apply ex_run_reachable.
Defined.

(** ** Locks *)

(** Mutual exclusion: once [Lock] has granted a lock, no other call
    is granted it as long as nothing is written to the lock's entry, under any
    schedule of faults and lost acknowledgements. *)
Theorem Lock_exclusive `{EnvOk} ns kv l w w1 w2 w3 r :
  (Lock ns kv l : M bool) w = (w1, Ok true) →
  frame (λ ns' b k, (ns', b, k) ≠ (ns, kv, l)) w1 w2 →
  (Lock ns kv l : M bool) w2 = (w3, r) → r ≠ Ok true.
Proof.
  assert (∀ w w' r, (Lock ns kv l : M bool) w = (w', r) →
    (r = Ok true → is_Some (kv_get (w_kv w' ns kv) l)) ∧
    (is_Some (kv_get (w_kv w ns kv) l) → r ≠ Ok true)) as HL.
  { clear w w1 w2 w3 r. intros w w' r. rewrite Lock_alone. unfold kvCreate, nats, mbind, gom_bind, attempt.
    destruct (nats_fault (w_tick w)) as [[e [] ]|].
    1,2: destruct (Is e ErrKeyExists); intros [= _ <-]; naive_solver.
    unfold kv_create. change (w_kv (w_next w) ns kv) with (w_kv w ns kv).
    destruct (kv_get (w_kv w ns kv) l) as [x|] eqn:Hg; simpl; intros [= <- <-]; split; try done.
    intros _. simpl. rewrite decide_True by done. rewrite kv_get_put_eq. eauto. }
  intros H1 Hf H2. apply HL in H1 as [H1 _]. apply HL in H2 as [_ H2]. apply H2.
  rewrite (Hf ns kv l) by naive_solver. by apply H1.
Qed.

Definition ex_lock : @gom error (@World sim) bool := @Lock _ (@M_calls sim) "default" WfLock "timer".

Lemma Lock_exclusive_witness :
  (ex_lock (@world_init sim)).2 = Ok true ∧
  (ex_lock (ex_lock (@world_init sim)).1).2 ≠ Ok true.
Proof.
  split; [vm_compute; reflexivity|].
  apply (@Lock_exclusive sim (Sim_ok _ _ _) "default" WfLock "timer" world_init
    (ex_lock world_init).1 (ex_lock world_init).1 (ex_lock (ex_lock world_init).1).1).
  - apply run_eq. vm_compute. reflexivity.
  - reflexivity.
  - apply surjective_pairing.
Defined.
