(* ===== verification/LargeObjects.v ===== *)
(** * Large objects

    [common/natsutil.go]: binaries that are too large for a key-value entry are in
    a JetStream object store, and each access to one takes a lock in a key-value
    store first.  [largeObjLock] tries again until it has the lock or its context
    is done; how often it may try is the argument [attempts] of the definitions,
    and [largeObjLock_returns] says which number is enough.  The object store and
    the deadline of the context are parameters.

    The programs are written for any monad with these calls: they run alone in
    [LM], and in the second part clients run them in any interleaving
    ([Interleave.v]).  [accesses_exclude]: no two of them are at an object at once,
    unless one stays longer than its lock lives ([expired_lock_admits_two]).
    [concurrent_update_lost]: but the lock is given back between reading and
    writing, and an update can be lost. *)
From S2P Require Import Prelude Model Errors Env Sim Common Wp NatsUtil Interleave.

(** The documented behaviour of an object store. *)
Class ObjectStore (OS : Type) := {
  os_get : OS → string → option Data;
  os_put : OS → string → Data → OS;
  os_delete : OS → string → OS }.

Class ObjectStoreOk (OS : Type) `{ObjectStore OS} := {
  os_get_put os k d k' :
    os_get (os_put os k d) k' = if decide (k' = k) then Some d else os_get os k';
  os_get_delete os k k' :
    os_get (os_delete os k) k' = if decide (k' = k) then None else os_get os k' }.

(** ** The programs *)
(** The calls of [GoCalls], those of an object store and [ctx.Err()]. *)
Class LargeCalls (m : Type → Type) := {
  large_calls : GoCalls m;
  obj_get : string → m Data;
  obj_put : string → Data → m unit;
  obj_delete : string → m unit;
  ctx_err : m (option sentinel) }.

Section programs.
Context `{LargeCalls m}.
#[local] Existing Instance large_calls.
#[local] Existing Instance go_ret.
#[local] Existing Instance go_bind.

(** The bucket of the locks, and how often a lock is tried. *)
Context (ns : string) (mutex : Bucket) (attempts : nat).

Fixpoint lock_loop (fuel : nat) (key : string) : m unit :=
  match fuel with
  | 0 => go_panic "largeObjLock: attempts"
  | S fuel =>
      cErr ← ctx_err;
      match cErr with
      | Some DeadlineExceeded => go_throw (Wrap "load large timeout" (Sentinel DeadlineExceeded))
      | Some Canceled => go_throw (Wrap "load large cancelled" (Sentinel Canceled))
      | Some err => go_throw (Wrap "load large" (Sentinel err))
      | None =>
          lock ← go_wrapping (Wrap "load large locking") (Lock ns mutex key);
          if lock : bool then mret tt else lock_loop fuel key
      end
  end.

Definition largeObjLock : string → m unit := lock_loop attempts.

Definition LoadLarge (key : string) : m Data :=
  _ ← go_wrapping (Wrap "load large locking") (largeObjLock key);
  go_deferring (UnLock ns mutex key) (go_wrapping (Wrap "load large get") (obj_get key)).

Definition SaveLarge (key : string) (data : Data) : m unit :=
  _ ← go_wrapping (Wrap "save large locking") (largeObjLock key);
  go_deferring (UnLock ns mutex key) (go_wrapping (Wrap "save large put") (obj_put key data)).

Definition SaveLargeObj `{Proto A} (k : string) (v : A) : m unit := SaveLarge k (Marshal v).

(** Loads into the message its caller passes: [v] is what it holds before. *)
Definition LoadLargeObj `{Proto A} (k : string) (v : A) : m (A * option error)%type :=
  doc ← go_attempt (LoadLarge k);
  mret match doc with
       | inr err => (v, Some (Wrap ("load object " +:+ k) err))
       | inl doc =>
           match Unmarshal doc with
           | Some v => (v, None)
           | None => (zero, Some (Wrap "load large object unmarshal"
                                    (New "proto: cannot parse invalid wire-format data")))
           end
       end.

(** The update function is given a pointer: it returns what the message is when
    it has finished with it, and its result.  A result that is the pointer it was
    given is the same value twice. *)
Definition UpdateLargeObj `{Proto A} (k : string) (msg : A) (updateFn : A → A * (A + error)) :
    m (A * option error)%type :=
  r ← LoadLargeObj k msg;
  match r with
  | (msg, Some err) => mret (msg, Some (Wrap "update large object load" err))
  | (msg, None) =>
      match updateFn msg with
      | (msg, inr err) => mret (msg, Some (Wrap "update large object updateFn" err))
      | (msg, inl nw) =>
          r ← go_attempt (SaveLargeObj k msg);
          mret match r with
               | inr err => (msg, Some (Wrap "update large object save" err))
               | inl _ => (nw, None)
               end
      end
  end.

Definition DeleteLarge (k : string) : m unit :=
  _ ← go_wrapping (Wrap "delete large locking") (largeObjLock k);
  go_deferring (UnLock ns mutex k)
    (r ← go_attempt (obj_delete k);
     match r with
     | inl _ => mret tt
     | inr err =>
         if Is err ErrNoObjectsFound && negb (Is err ErrKeyNotFound)
         then go_throw (Wrap "delete large removing" err)
         else mret tt
     end).
End programs.

(** ** Alone *)
(** The state: the world, and the object store. *)
Record Large `{Env} (OS : Type) := mkLarge {
  l_world : World;
  l_objects : OS }.
Arguments mkLarge {_ OS} _ _.
Arguments l_world {_ OS} _.
Arguments l_objects {_ OS} _.

Abbreviation LM OS := (gom error (Large OS)).

Section large.
Context `{Env} `{ObjectStore OS}.

(** [ctx.Err()], by the call counter. *)
Context (ctx_Err : nat → option sentinel).

Definition in_world {A} (m : M A) : LM OS A := λ s,
  let r := m (l_world s) in (mkLarge r.1 (l_objects s), r.2).

(** A call to the object store. *)
Definition os_call {A} (eff : OS → OS * res error A) : LM OS A := λ s,
  let w := w_next (l_world s) in
  match nats_fault (w_tick (l_world s)) with
  | None => let r := eff (l_objects s) in (mkLarge w r.1, r.2)
  | Some (err, true) => (mkLarge w (eff (l_objects s)).1, Err err)
  | Some (err, false) => (mkLarge w (l_objects s), Err err)
  end.

Definition GetBytes (key : string) : LM OS Data :=
  os_call (λ os, (os, match os_get os key with
                      | Some d => Ok d | None => Err (Sentinel ErrObjectNotFound) end)).
Definition PutBytes (key : string) (data : Data) : LM OS unit :=
  os_call (λ os, (os_put os key data, Ok tt)).
Definition DeleteObject (key : string) : LM OS unit :=
  os_call (λ os, match os_get os key with
                 | Some _ => (os_delete os key, Ok tt)
                 | None => (os, Err (Sentinel ErrObjectNotFound)) end).

Definition ctxErr : LM OS (option sentinel) := gets (λ s, ctx_Err (w_tick (l_world s))).

(** A client that runs alone. *)
Definition LM_calls : GoCalls (LM OS) := {|
  go_ret := gom_ret; go_bind := gom_bind;
  go_throw := @throw _ _; go_panic := @panic _ _;
  go_attempt := @attempt _ _; go_wrapping := @wrapping _ _; go_deferring := @deferring _ _;
  call_get ns b k := in_world (kvGet ns b k); call_create ns b k d := in_world (kvCreate ns b k d);
  call_update ns b k d rev := in_world (kvUpdate ns b k d rev); call_delete ns b k := in_world (kvDelete ns b k) |}.

Definition LM_large : LargeCalls (LM OS) := {|
  large_calls := LM_calls; obj_get := GetBytes; obj_put := PutBytes; obj_delete := DeleteObject; ctx_err := ctxErr |}.
End large.

Ltac alone := cbn [go_ret go_bind go_throw go_panic go_attempt go_wrapping go_deferring call_get call_create
  call_update call_delete large_calls obj_get obj_put obj_delete ctx_err LM_large LM_calls].

(** ** One client alone *)
Section large_facts.
Context `{EnvOk} `{ObjectStoreOk OS} (ctx_Err : nat → option sentinel) (ns : string)
  (mutex : Bucket) (attempts : nat).

#[local] Existing Instance LM_calls.
Abbreviation lock_loop := (@lock_loop (LM OS) (LM_large ctx_Err)).
Abbreviation largeObjLock := (@largeObjLock (LM OS) (LM_large ctx_Err)).
Abbreviation LoadLarge := (@LoadLarge (LM OS) (LM_large ctx_Err)).
Abbreviation SaveLarge := (@SaveLarge (LM OS) (LM_large ctx_Err)).
Abbreviation UpdateLargeObj := (@UpdateLargeObj (LM OS) (LM_large ctx_Err)).

Lemma runs_in_world {A} (m : M A) (s : Large OS) Φ :
  wp m (l_world s) (λ w r, Φ (mkLarge w (l_objects s)) r) → runs (in_world m) s Φ.
Proof. done. Qed.

Lemma Lock_in_world k (s : Large OS) : Lock (m:=LM OS) ns mutex k s = in_world (Lock ns mutex k) s.
Proof.
  unfold in_world. rewrite Lock_alone. unfold Lock. alone. unfold mbind, gom_bind, attempt, in_world.
  destruct (kvCreate _ _ _ _ _) as [w [[]|e|why]]; simpl; [done|by destruct (Is e ErrKeyExists)|done].
Qed.

Lemma UnLock_in_world k (s : Large OS) : UnLock (m:=LM OS) ns mutex k s = in_world (UnLock ns mutex k) s.
Proof.
  unfold in_world. rewrite UnLock_alone. unfold UnLock. alone. unfold mbind, gom_bind, attempt, wrapping, in_world.
  destruct (kvGet _ _ _ _) as [w [[]|e|why]]; simpl; [|by destruct (Is e ErrKeyNotFound)|done].
  by destruct (kvDelete _ _ _ _) as [w' [[]| |]].
Qed.

Lemma runs_Lock k (s : Large OS) Φ :
  wp (Lock ns mutex k) (l_world s) (λ w r, Φ (mkLarge w (l_objects s)) r) → runs (Lock (m:=LM OS) ns mutex k) s Φ.
Proof. intros Hm. unfold runs. by rewrite Lock_in_world. Qed.

Lemma runs_UnLock k (s : Large OS) Φ :
  wp (UnLock ns mutex k) (l_world s) (λ w r, Φ (mkLarge w (l_objects s)) r) → runs (UnLock (m:=LM OS) ns mutex k) s Φ.
Proof. intros Hm. unfold runs. by rewrite UnLock_in_world. Qed.

(** A lock is asked for at most once for each tick that is left until the
    context is done. *)
Lemma lock_loop_returns T fuel key (s : Large OS) :
  (∀ n, T ≤ n → ctx_Err n ≠ None) → T < fuel + w_tick (l_world s) →
  runs (lock_loop ns mutex fuel key) s (λ s' r, match r with
    | Ok _ => is_Some (w_get (l_world s') ns mutex key)
    | Err _ => True
    | Panic _ => fuel = 0
    end).
Proof.
  intros HT. revert s. induction fuel as [|fuel IH]; intros s Hf; [done|].
  cbn [LargeObjects.lock_loop]. alone. apply runs_bind. unfold ctxErr, runs at 1, gets. simpl.
  destruct (ctx_Err _) as [c|] eqn:Hc; [by destruct c|].
  assert (w_tick (l_world s) < T) as Hlt.
  { destruct (decide (T ≤ w_tick (l_world s))) as [Hle|]; [by apply HT in Hle|lia]. }
  repeat runs_step. apply runs_Lock. rewrite Lock_alone. unfold wp, kvCreate, nats, mbind, gom_bind, attempt.
  destruct (nats_fault _) as [[e app]|].
  - assert (∀ w, w_tick w = S (w_tick (l_world s)) → runs (lock_loop ns mutex fuel key)
      (mkLarge w (l_objects s)) (λ s' r, match r with
        | Ok _ => is_Some (w_get (l_world s') ns mutex key) | Err _ => True | Panic _ => S fuel = 0
        end)) as Hgo.
    { intros w Hw. eapply runs_mono; [|apply IH; simpl; lia]. intros s' []; [done..|lia]. }
    destruct app; simpl; destruct (Is e ErrKeyExists); try done; apply Hgo; [|done].
    unfold kv_create. by destruct (kv_get _ _).
  - unfold kv_create. destruct (kv_get _ _) eqn:Hg; simpl.
    + eapply runs_mono; [|apply IH; simpl; lia]. intros s' []; [done..|lia].
    + change (is_Some (w_get (w_put ns mutex key lockVal (w_next (l_world s))) ns mutex key)).
      rewrite w_get_put_eq. eauto.
Qed.

(** However often the lock is held by another, [largeObjLock] returns once its
    context is done; without an error only if it has the lock. *)
Lemma largeObjLock_returns T key (s : Large OS) :
  (∀ n, T ≤ n → ctx_Err n ≠ None) → T < attempts + w_tick (l_world s) → attempts ≠ 0 →
  let '(s', r) := largeObjLock ns mutex attempts key s in
  (∃ e, r = Err e) ∨ r = Ok tt ∧ is_Some (w_get (l_world s') ns mutex key).
Proof.
  intros HT Ha Hn. pose proof (lock_loop_returns T attempts key s HT Ha) as Hr.
  unfold runs in Hr. unfold LargeObjects.largeObjLock. destruct (lock_loop _ _ _ _ s) as [s' [[]|e|p]]; simpl in Hr; eauto.
  done.
Qed.

Context (NF : NoFaults) (Hctx : ∀ n, ctx_Err n = None) (Ha : attempts ≠ 0).

Lemma runs_os_call {A} (eff : OS → OS * res error A) s Φ :
  Φ (mkLarge (w_next (l_world s)) (eff (l_objects s)).1) (eff (l_objects s)).2 →
  runs (os_call eff) s Φ.
Proof. unfold runs, os_call. by rewrite NF. Qed.

(** An access under a lock that is free. *)
Lemma runs_locked {A} w1 (m : LM OS A) key (s : Large OS) (Φ : Large OS → res error A → Prop) :
  w_get (l_world s) ns mutex key = None →
  (∀ w, runs m (mkLarge w (l_objects s)) (λ s' r, l_world s' ≡ w ∧
     ∀ w', w' ≡ l_world s → Φ (mkLarge w' (l_objects s')) r)) →
  runs (_ ← wrapping w1 (largeObjLock ns mutex attempts key);
        deferring (UnLock (m:=LM OS) ns mutex key) m) s Φ.
Proof.
  intros Hfree Hm. repeat runs_step. unfold LargeObjects.largeObjLock. destruct attempts as [|n]; [done|].
  cbn [LargeObjects.lock_loop]. alone. repeat runs_step. unfold ctxErr, runs at 1, gets. simpl. rewrite Hctx.
  repeat runs_step. apply runs_Lock, wp_Lock_free; [done..|]. intros w Hw. repeat runs_step.
  apply runs_deferring. eapply runs_mono; [|by apply Hm]. intros s' r [Hs HΦ].
  assert (w_get (l_world s') ns mutex key = Some lockVal) as Hg
    by (destruct Hs as [-> _]; destruct Hw as [-> _]; apply w_get_put_eq).
  apply runs_UnLock. eapply wp_UnLock_held; [done|exact Hg|]. intros w' Hw'. apply HΦ.
  destruct Hw' as [Hg' Ho']. split; [|by rewrite Ho'; simpl; destruct Hs as [_ ->], Hw as [_ ->]].
  intros n' b k. rewrite Hg', w_get_del. destruct Hs as [Hs _], Hw as [Hw _].
  case_decide as Hk; [by injection Hk as -> -> ->|by rewrite Hs, Hw, w_get_put_ne].
Qed.

Lemma runs_LoadLarge key s (Φ : Large OS → res error Data → Prop) :
  w_get (l_world s) ns mutex key = None →
  (∀ w, w ≡ l_world s → Φ (mkLarge w (l_objects s))
     (match os_get (l_objects s) key with
      | Some d => Ok d | None => Err (Wrap "load large get" (Sentinel ErrObjectNotFound)) end)) →
  runs (LoadLarge ns mutex attempts key) s Φ.
Proof.
  intros Hf HΦ. unfold LargeObjects.LoadLarge, LargeObjects.SaveLarge. alone. apply runs_locked; [done|]. intros w. repeat runs_step. apply runs_os_call. simpl.
  by destruct (os_get _ _); (split; [apply w_next_equiv|]).
Qed.

Lemma runs_SaveLarge key d s (Φ : Large OS → res error unit → Prop) :
  w_get (l_world s) ns mutex key = None →
  (∀ w, w ≡ l_world s → Φ (mkLarge w (os_put (l_objects s) key d)) (Ok tt)) →
  runs (SaveLarge ns mutex attempts key d) s Φ.
Proof.
  intros Hf HΦ. unfold LargeObjects.LoadLarge, LargeObjects.SaveLarge. alone. apply runs_locked; [done|]. intros w. repeat runs_step. apply runs_os_call.
  by split; [apply w_next_equiv|].
Qed.

Lemma runs_UpdateLargeObj `{Proto A} k (msg v v' : A) nw updateFn s :
  w_get (l_world s) ns mutex k = None → os_get (l_objects s) k = Some (Marshal v) →
  updateFn v = (v', inl nw) →
  runs (UpdateLargeObj ns mutex attempts k msg updateFn) s (λ s' r,
    r = Ok (nw, None) ∧ l_world s' ≡ l_world s ∧ ∀ k', os_get (l_objects s') k' =
      if decide (k' = k) then Some (Marshal v') else os_get (l_objects s) k').
Proof.
  intros Hfree Hv Hu. unfold LargeObjects.UpdateLargeObj, LoadLargeObj. alone. repeat runs_step.
  apply runs_LoadLarge; [done|]. intros w Hw. rewrite Hv. repeat runs_step.
  rewrite Unmarshal_Marshal, Hu. repeat runs_step. unfold SaveLargeObj.
  apply runs_SaveLarge; [by destruct Hw as [Hg _]; simpl; rewrite Hg|]. intros w' Hw'. repeat runs_step.
  split_and!; [done|by etrans; [exact Hw'|exact Hw]|]. intros k'. simpl. apply os_get_put.
Qed.

(** Updating a large object stores what the update function makes of the
    message it is given, and returns the function's result: a result that is a new
    message is returned and not stored.  The lock is free again, no other
    object, key or message is touched. *)
Theorem UpdateLargeObj_stores_argument `{Proto A} k (msg v v' : A) nw updateFn s :
  w_get (l_world s) ns mutex k = None → os_get (l_objects s) k = Some (Marshal v) →
  updateFn v = (v', inl nw) →
  let '(s', r) := UpdateLargeObj ns mutex attempts k msg updateFn s in
  r = Ok (nw, None) ∧ l_world s' ≡ l_world s ∧
  ∀ k', os_get (l_objects s') k' = if decide (k' = k) then Some (Marshal v') else os_get (l_objects s) k'.
Proof.
  intros Hfree Hv Hu. pose proof (runs_UpdateLargeObj k msg v v' nw updateFn s Hfree Hv Hu) as Hr.
  unfold runs in Hr. by destruct (UpdateLargeObj _ _ _ _ _ _).
Qed.
End large_facts.

Lemma UnLock_returns `{Env} ns mutex k w p : ((UnLock ns mutex k : M unit) w).2 ≠ Panic p.
Proof.
  rewrite UnLock_alone. unfold kvGet, kvDelete, nats, mbind, gom_bind, attempt, wrapping, throw.
  destruct (nats_fault _) as [[e [] ]|].
  1,2: by simpl; destruct (Is e ErrKeyNotFound).
  destruct (kv_get _ _) as [[]|]; simpl; [|done]. by destruct (nats_fault _) as [[? [] ]|].
Qed.

(** Whatever keeps an object from being deleted, except that there are no
    objects at all, [DeleteLarge] does not say so. *)
Lemma DeleteLarge_is_silent `{EnvOk} `{ObjectStoreOk OS} ctx_Err ns mutex attempts k (s s1 : Large OS) e :
  @largeObjLock _ (LM_large ctx_Err) ns mutex attempts k s = (s1, Ok tt) →
  nats_fault (w_tick (l_world s1)) = Some (e, false) → Is e ErrNoObjectsFound = false →
  ∃ s', @DeleteLarge _ (LM_large ctx_Err) ns mutex attempts k s = (s', Ok tt) ∧ l_objects s' = l_objects s1.
Proof.
  intros Hl Hf He.
  enough (runs (@DeleteLarge _ (LM_large ctx_Err) ns mutex attempts k) s
    (λ s' r, r = Ok tt ∧ l_objects s' = l_objects s1)) as Hr.
  { destruct Hr as [Hr Ho]. eexists. split; [|exact Ho]. rewrite <-Hr. apply surjective_pairing. }
  unfold DeleteLarge. alone. repeat runs_step. unfold runs at 1. rewrite Hl. apply runs_deferring. repeat runs_step.
  cbn [fst]. unfold runs at 1. unfold DeleteObject, os_call. rewrite Hf. simpl. rewrite He. repeat runs_step.
  apply runs_UnLock. unfold wp. cbn [l_world l_objects].
  pose proof (UnLock_returns ns mutex k (w_next (l_world s1))) as Hu.
  destruct ((UnLock ns mutex k : M unit) _) as [w' [[]|e'|p]]; simpl in *; [done..|]. by destruct (Hu p).
Qed.

(** ** Clients at once

    The same programs, cut at their calls, for clients that access one object in any
    interleaving. *)
Inductive large_call : Type → Type :=
  | InStore {X} (e : kv_call X) : large_call X
  | ObjGet (key : string) : large_call Data
  | ObjPut (key : string) (data : Data) : large_call unit
  | ObjDelete (key : string) : large_call unit
  | CtxErr : large_call (option sentinel).

#[local] Instance prog_large : LargeCalls (prog large_call) := {|
  large_calls := prog_calls (@InStore);
  obj_get key := ask (ObjGet key); obj_put key data := ask (ObjPut key data);
  obj_delete key := ask (ObjDelete key); ctx_err := ask CtxErr |}.

#[local] Existing Instance large_calls.

(** What a client does with the object, and with the outcome nothing. *)
Inductive access :=
  | Load
  | Save (data : Data)
  | Update (A : Type) (proto : Proto A) (msg : A) (updateFn : A → A * (A + error))
  | Remove.

Definition discard {A} (p : prog large_call A) : prog large_call unit := catch (λ _, Ends (Ok tt)) p.

Section clients.
Context `{KeyValueOk KV} `{ObjectStoreOk OS} (ns : string) (mutex : Bucket) (attempts : nat) (key : string).

Definition access_prog (a : access) : prog large_call unit :=
  match a with
  | Load => discard (LoadLarge ns mutex attempts key)
  | Save data => discard (SaveLarge ns mutex attempts key data)
  | Update A proto msg updateFn => discard (UpdateLargeObj ns mutex attempts key msg updateFn)
  | Remove => discard (DeleteLarge ns mutex attempts key)
  end.

Record large_state := mkLargeState { ls_stores : stores (KV:=KV); ls_objects : OS }.

(** The answers, when [ctx.Err()] is [cErr]. *)
Definition in_large (cErr : option sentinel) {X} (e : large_call X) : large_state → large_state * res error X :=
  match e with
  | InStore e => λ s, let r := in_stores e (ls_stores s) in (mkLargeState r.1 (ls_objects s), r.2)
  | ObjGet key => λ s,
      (s, match os_get (ls_objects s) key with Some d => Ok d | None => Err (Sentinel ErrObjectNotFound) end)
  | ObjPut key data => λ s, (mkLargeState (ls_stores s) (os_put (ls_objects s) key data), Ok tt)
  | ObjDelete key => λ s,
      match os_get (ls_objects s) key with
      | Some _ => (mkLargeState (ls_stores s) (os_delete (ls_objects s) key), Ok tt)
      | None => (s, Err (Sentinel ErrObjectNotFound))
      end
  | CtxErr => λ s, (s, Ok cErr)
  end.

(** The client is about to read, write or delete the object. *)
Definition at_object {A} (p : prog large_call A) : bool :=
  match p with
  | Asks e _ => match e with ObjGet _ | ObjPut _ _ | ObjDelete _ => true | _ => false end
  | Ends _ => false
  end.

(** The client has the lock: it is about to use the object or to unlock. *)
Definition holding {A} (p : prog large_call A) : bool :=
  match p with
  | Asks e _ => match e with
                | ObjGet _ | ObjPut _ _ | ObjDelete _ | InStore (KvGet _ _ _) | InStore (KvDelete _ _ _) => true
                | _ => false
                end
  | Ends _ => false
  end.

Definition lock_entry (s : large_state) : option (Data * Z) := kv_get (ls_stores s ns mutex) key.

(** The entry of the lock after its time to live. *)
Definition expired (s : large_state) : large_state :=
  mkLargeState (set_store ns mutex (kv_delete (ls_stores s ns mutex) key) (ls_stores s)) (ls_objects s).

Abbreviation accesses := (pool large_call large_state unit).

(** A client makes its next call, which may fail with or without its effect, and
    its context may be done; others leave the lock of this object alone; and the
    lock expires, but not while a client has it. *)
Inductive large_step : accesses → accesses → Prop :=
  | large_calls_ cErr fault s s' : call_made (@in_large cErr) unit fault s s' → large_step s s'
  | large_others s s' ps : lock_entry s' = lock_entry s → large_step (mkPool s ps) (mkPool s' ps)
  | large_expires s ps :
      Forall (λ p, holding p = false) ps → large_step (mkPool s ps) (mkPool (expired s) ps).

(** ** Locking discipline *)
(** What a call asks of a client that has the lock ([h]) or not, and of how it goes
    on: [next h' r], with the lock or not, when it is answered [r]. *)
Definition disciplined (h : bool) {X} (e : large_call X) : (bool → res error X → Prop) → Prop :=
  match e with
  | InStore e => match e with
                 | KvGet ns' b k => λ next, (ns', b, k) = (ns, mutex, key) ∧ h = true ∧
                     (∀ x, next true (Ok x)) ∧ ∀ e, next false (Err e)
                 | KvCreate ns' b k d => λ next, (ns', b, k) = (ns, mutex, key) ∧ h = false ∧
                     next true (Ok tt) ∧ ∀ e, next false (Err e)
                 | KvUpdate _ _ _ _ _ => λ next, False
                 | KvDelete ns' b k => λ next, (ns', b, k) = (ns, mutex, key) ∧ h = true ∧
                     next false (Ok tt) ∧ ∀ e, next false (Err e)
                 end
  | ObjGet _ => λ next, h = true ∧ (∀ x, next true (Ok x)) ∧ ∀ e, next true (Err e)
  | ObjPut _ _ | ObjDelete _ => λ next, h = true ∧ next true (Ok tt) ∧ ∀ e, next true (Err e)
  | CtxErr => λ next, h = false ∧ (∀ x, next false (Ok x)) ∧ ∀ e, next false (Err e)
  end.

(** A program that starts with the lock or without, and ends so. *)
Fixpoint keeps_lock {A} (h : bool) (p : prog large_call A) (post : bool → res error A → Prop) : Prop :=
  match p with
  | Ends r => post h r
  | Asks e next => disciplined h e (λ h' r, keeps_lock h' (next r) post)
  end.

Lemma disciplined_mono h {X} (e : large_call X) (P Q : bool → res error X → Prop) :
  (∀ h r, P h r → Q h r) → disciplined h e P → disciplined h e Q.
Proof. intros HPQ. destruct e as [X e|k|k d|k|]; [destruct e|..]; simpl; naive_solver. Qed.

Lemma keeps_lock_mono {A} h (p : prog large_call A) (P Q : bool → res error A → Prop) :
  (∀ h r, P h r → Q h r) → keeps_lock h p P → keeps_lock h p Q.
Proof.
  intros HPQ. revert h. induction p as [r|X e next IH]; intros h; [apply HPQ|]. simpl.
  apply disciplined_mono. intros h' r. apply IH.
Qed.

Lemma keeps_lock_catch {A B} h (p : prog large_call A) (k : res error A → prog large_call B) post :
  keeps_lock h p (λ h' r, keeps_lock h' (k r) post) → keeps_lock h (catch k p) post.
Proof.
  revert h. induction p as [r|X e next IH]; intros h; [done|]. simpl. apply disciplined_mono. intros h' r. apply IH.
Qed.

Lemma keeps_lock_UnLock (post : bool → res error unit → Prop) :
  (∀ r, post false r) → keeps_lock true (UnLock ns mutex key) post.
Proof.
  intros HP. simpl. split_and!; [done|done| |].
  - intros x. simpl. split_and!; [done|done|by apply HP|]. intros e. by apply HP.
  - intros e. simpl. destruct (Is e ErrKeyNotFound); by apply HP.
Qed.

Lemma keeps_lock_loop n (post : bool → res error unit → Prop) :
  post true (Ok tt) → (∀ r, r ≠ Ok tt → post false r) → keeps_lock false (lock_loop ns mutex n key) post.
Proof.
  intros Hok Herr. induction n as [|n IH]; [by apply Herr|]. simpl. split_and!; [done| |intros e; by apply Herr].
  intros [c|]; [destruct c; by apply Herr|]. simpl. split_and!; [done|done|done|]. intros e. simpl.
  destruct (Is e ErrKeyExists); simpl; [exact IH|by apply Herr].
Qed.

Definition unlocked {A} (h : bool) (r : res error A) : Prop := h = false.

(** Under the lock, anything that keeps it. *)
Lemma keeps_lock_locked {A} w (p : prog large_call A) :
  keeps_lock true p (λ h _, h = true) →
  keeps_lock false (@mbind _ go_bind _ _ (λ _, go_deferring (UnLock ns mutex key) p)
    (go_wrapping w (largeObjLock ns mutex attempts key))) unlocked.
Proof.
  intros Hp. apply keeps_lock_catch, keeps_lock_catch, keeps_lock_loop.
  - simpl. apply keeps_lock_catch. eapply keeps_lock_mono; [|exact Hp]. intros h r ->.
    apply keeps_lock_catch, keeps_lock_UnLock. done.
  - by intros [[]|e|why] Hr.
Qed.

Lemma keeps_lock_ask {X} w (e : large_call X) :
  disciplined true e (λ h _, h = true) → keeps_lock true (go_wrapping w (ask e)) (λ h _, h = true).
Proof. intros He. apply keeps_lock_catch. exact He. Qed.

Lemma keeps_lock_LoadLarge : keeps_lock false (LoadLarge ns mutex attempts key) unlocked.
Proof. apply keeps_lock_locked, keeps_lock_ask. by simpl. Qed.

Lemma keeps_lock_SaveLarge data : keeps_lock false (SaveLarge ns mutex attempts key data) unlocked.
Proof. apply keeps_lock_locked, keeps_lock_ask. by simpl. Qed.

Lemma keeps_lock_DeleteLarge : keeps_lock false (DeleteLarge ns mutex attempts key) unlocked.
Proof.
  apply keeps_lock_locked. apply keeps_lock_catch, keeps_lock_catch. simpl. split_and!; [done|done|].
  intros e. simpl. by destruct (_ && _).
Qed.

Lemma keeps_lock_UpdateLargeObj `{Proto A} (msg : A) updateFn :
  keeps_lock false (UpdateLargeObj ns mutex attempts key msg updateFn) unlocked.
Proof.
  apply keeps_lock_catch, keeps_lock_catch, keeps_lock_catch.
  eapply keeps_lock_mono; [|apply keeps_lock_LoadLarge]. intros h r ->.
  destruct r as [d|e|why]; simpl; [|done..]. destruct (Unmarshal d) as [v|]; simpl; [|done].
  destruct (updateFn v) as [v' [nw|e]]; simpl; [|done]. apply keeps_lock_catch, keeps_lock_catch.
  eapply keeps_lock_mono; [|apply keeps_lock_SaveLarge]. by intros h [] ->.
Qed.

Lemma keeps_lock_access a : keeps_lock false (access_prog a) unlocked.
Proof.
  destruct a; apply keeps_lock_catch; (eapply keeps_lock_mono; [intros h r Hh; exact Hh|]).
  - apply keeps_lock_LoadLarge.
  - apply keeps_lock_SaveLarge.
  - apply keeps_lock_UpdateLargeObj.
  - apply keeps_lock_DeleteLarge.
Qed.

(** ** Exclusion *)
Definition inside (p : prog large_call unit) : nat := if holding p then 1 else 0.

(** Every client that has the lock is one its entry stands for. *)
Record lock_inv (s : accesses) : Prop := {
  li_clients : Forall (λ p, keeps_lock (holding p) p unlocked) (po_progs s);
  li_entry : sum_list_with inside (po_progs s) ≤ match lock_entry (po_state s) with Some _ => 1 | None => 0 end }.

Lemma keeps_lock_holding {A} h (p : prog large_call A) : keeps_lock h p unlocked → h = holding p.
Proof. destruct p as [r|X e next]; [done|]. simpl. destruct e as [X e|k|k d|k|]; [destruct e|..]; naive_solver. Qed.

Lemma keeps_lock_next {A} h (p : prog large_call A) :
  keeps_lock h p unlocked → keeps_lock (holding p) p unlocked ∧ holding p = h.
Proof. intros Hk. pose proof (keeps_lock_holding _ _ Hk) as ->. done. Qed.

Lemma set_mutex kv (s : large_state) : set_store ns mutex kv (ls_stores s) ns mutex = kv.
Proof. unfold set_store. by rewrite decide_True. Qed.

(** What a call makes of the entry of the lock. *)
Definition call_of (p p' : prog large_call unit) (s s' : large_state) : Prop :=
  lock_entry s' = lock_entry s ∧ (holding p' = true → holding p = true) ∨
  lock_entry s = None ∧ is_Some (lock_entry s') ∧ holding p = false ∨
  holding p = true ∧ holding p' = false.

Lemma in_large_answers cErr fault {X} (e : large_call X) s why :
  (faulted (@in_large cErr) fault e s).2 ≠ Panic why.
Proof.
  destruct fault as [[err []]|]; [done..|]. destruct e as [X e|k|k d|k|]; simpl; [|try (by destruct (os_get _ _))..]; [|done..].
  destruct e; simpl; [by destruct (kv_get _ _)|by destruct (kv_create _ _ _)|by destruct (kv_update _ _ _ _)|done].
Qed.

(** The call leaves the entry alone, and the client does not get the lock. *)
Lemma call_same cErr fault {X} (e : large_call X) h h' next s :
  holding (Asks e next) = h → (h' = true → h = true) →
  lock_entry (faulted (@in_large cErr) fault e s).1 = lock_entry s →
  (∀ x, keeps_lock h' (next (Ok x)) unlocked) → (∀ e, keeps_lock h' (next (Err e)) unlocked ∨ keeps_lock false (next (Err e)) unlocked) →
  let r := faulted (@in_large cErr) fault e s in
  keeps_lock (holding (next r.2)) (next r.2) unlocked ∧ call_of (Asks e next) (next r.2) s r.1.
Proof.
  intros Hh Hh' Hs Hok Herr r. unfold call_of. rewrite Hh. subst r. pose proof (in_large_answers cErr fault e s) as Hp.
  destruct (faulted (@in_large cErr) fault e s) as [s' [x|err|why]]; simpl in *; [| |by destruct (Hp why)].
  - destruct (keeps_lock_next _ _ (Hok x)) as [? ->]. auto.
  - destruct (Herr err) as [Hk|Hk]; destruct (keeps_lock_next _ _ Hk) as [? ->]; split; auto. by left.
Qed.

Lemma call_keeps cErr fault s p s' p' :
  keeps_lock (holding p) p unlocked → makes (@in_large cErr) unit fault s p = Some (s', p') →
  keeps_lock (holding p') p' unlocked ∧ call_of p p' s s'.
Proof.
  intros Hk Hm. destruct p as [r|X e next]; [done|]. simpl in Hm. injection Hm as <- <-.
  destruct e as [X e|k|k d|k|]; [destruct e as [ns' b k|ns' b k d|ns' b k d rev|ns' b k]|..]; simpl in Hk;
    [|idtac|done|idtac|..].
  - destruct Hk as (_ & _ & Hok & Herr). apply (call_same _ _ _ true true); [done|done| |done|by right; apply Herr].
    by destruct fault as [[err []]|].
  - destruct Hk as ([= -> -> ->] & _ & Hok & Herr). unfold call_of.
    destruct (kv_create (ls_stores s ns mutex) key d) as [kv|] eqn:Hc.
    + assert (lock_entry s = None ∧ kv = kv_put (ls_stores s ns mutex) key d) as [Hn ->].
      { unfold kv_create in Hc. unfold lock_entry. destruct (kv_get _ _); [done|]. by injection Hc as <-. }
      assert (is_Some (lock_entry (mkLargeState (set_store ns mutex (kv_put (ls_stores s ns mutex) key d) (ls_stores s))
        (ls_objects s)))) as Hsome by (unfold lock_entry; simpl; rewrite set_mutex, kv_get_put_eq; eauto).
      destruct fault as [[err []]|]; simpl; rewrite ?Hc; simpl.
      * destruct (keeps_lock_next _ _ (Herr err)). split; auto.
      * destruct (keeps_lock_next _ _ (Herr err)) as [? Hf]. split; [done|]. left. by rewrite Hf.
      * destruct (keeps_lock_next _ _ Hok). split; auto.
    + destruct fault as [[err []]|]; simpl; rewrite ?Hc; simpl;
        match goal with |- context [next (Err ?e)] => destruct (keeps_lock_next _ _ (Herr e)) as [? Hf] end;
        (split; [done|]); left; by rewrite Hf.
  - destruct Hk as (_ & _ & Hok & Herr). unfold call_of.
    destruct fault as [[err []]|]; simpl;
      [destruct (keeps_lock_next _ _ (Herr err))|destruct (keeps_lock_next _ _ (Herr err))|destruct (keeps_lock_next _ _ Hok)]; auto.
  - destruct Hk as (_ & Hok & Herr). apply (call_same _ _ _ true true); [done|done| |done|by left; apply Herr].
    by destruct fault as [[err []]|].
  - destruct Hk as (_ & Hok & Herr). apply (call_same _ _ _ true true); [done|done| |by intros []|by left; apply Herr].
    by destruct fault as [[err []]|].
  - destruct Hk as (_ & Hok & Herr). apply (call_same _ _ _ true true); [done|done| |by intros []|by left; apply Herr].
    destruct fault as [[err []]|]; simpl; by destruct (os_get (ls_objects s) k).
  - destruct Hk as (_ & Hok & Herr). apply (call_same _ _ _ false false); [done|done| |done|by left; apply Herr].
    by destruct fault as [[err []]|].
Qed.

Lemma lock_inv_step s s' : lock_inv s → large_step s s' → lock_inv s'.
Proof.
  intros Hinv Hs. destruct Hs as [cErr fault s s' Hc|s s' ps He|s ps Hn].
  - destruct Hc as [i p s ps s' p' Hi Hm]. destruct Hinv as [Hk Hl]. simpl in *.
    pose proof (proj1 (Forall_lookup _ _) Hk i p Hi) as Hp.
    destruct (call_keeps _ _ _ _ _ _ Hp Hm) as [Hp' Hof].
    pose proof (sum_insert inside ps i p p' Hi) as Hsum. pose proof (sum_lookup_le inside ps i p Hi) as Hle.
    split; simpl; [by apply Forall_insert|].
    assert (∀ q, inside q = if holding q then 1 else 0) as Hin by done. rewrite !Hin in Hsum. rewrite Hin in Hle.
    destruct Hof as [[-> Hh]|[(Hn & [x Hx] & Hh)|[Hh Hh']]].
    + assert ((if holding p' then 1 else 0) ≤ (if holding p then 1 else 0)) by (destruct (holding p'); [by rewrite Hh|lia]).
      destruct (lock_entry s); lia.
    + rewrite Hn in Hl. rewrite Hx, Hh in *. destruct (holding p'); lia.
    + rewrite Hh in Hsum, Hle. rewrite Hh' in Hsum. destruct (lock_entry s), (lock_entry s'); lia.
  - destruct Hinv as [Hk Hl]. split; simpl in *; [done|by rewrite He].
  - destruct Hinv as [Hk Hl]. split; simpl in *; [done|]. replace (sum_list_with inside ps) with 0; [lia|].
    clear -Hn. induction Hn as [|p ps Hp _ IH]; [done|]. simpl. unfold inside at 1. by rewrite Hp, <-IH.
Qed.

Definition accesses_start (s : large_state) (l : list access) : accesses := mkPool s (access_prog <$> l).

Lemma lock_inv_start s l : lock_inv (accesses_start s l).
Proof.
  assert (∀ a, keeps_lock (holding (access_prog a)) (access_prog a) unlocked ∧ holding (access_prog a) = false) as Ha.
  { intros a. apply keeps_lock_next, keeps_lock_access. }
  split; simpl.
  - apply Forall_fmap, Forall_true. intros a. apply Ha.
  - replace (sum_list_with inside (access_prog <$> l)) with 0; [lia|]. induction l as [|a l IH]; [done|].
    simpl. unfold inside at 1. rewrite (proj2 (Ha a)). exact IH.
Qed.

Lemma at_object_holding (p : prog large_call unit) : at_object p = true → holding p = true.
Proof. destruct p as [r|X e next]; [done|]. by destruct e. Qed.
End clients.

(** (C26) Accesses to a large object exclude each other: clients load, save, update
    and delete one object, any of their calls may fail with or without its effect,
    others leave the object's lock alone, and the lock's entry expires at any time
    but while its holder is at work.  Then no two of them are about to read, write
    or delete the object at once, and one that is holds the lock. *)
Theorem accesses_exclude `{KeyValueOk KV} `{ObjectStoreOk OS} ns mutex attempts key l s0 (s : pool large_call (large_state (KV:=KV) (OS:=OS)) unit) :
  rtc (large_step ns mutex key) (accesses_start ns mutex attempts key s0 l) s →
  (∀ i j p q, po_progs s !! i = Some p → po_progs s !! j = Some q →
     at_object p = true → at_object q = true → i = j) ∧
  ∀ i p, po_progs s !! i = Some p → at_object p = true → is_Some (lock_entry ns mutex key (po_state s)).
Proof.
  intros Hr. assert (lock_inv ns mutex key s) as [_ Hl].
  { eapply (rtc_invariant _ (lock_inv ns mutex key)), Hr; [intros s1 s2 Hs Hi; by eapply lock_inv_step|apply lock_inv_start]. }
  split.
  - intros i j p q Hi Hj Hp%at_object_holding Hq%at_object_holding. destruct (decide (i = j)) as [|Hij]; [done|].
    pose proof (sum_two_lookups inside _ _ _ _ _ Hi Hj Hij) as Hs. assert (∀ q, inside q = if holding q then 1 else 0) as Hin by done.
    rewrite !Hin, Hp, Hq in Hs. destruct (lock_entry _ _ _ _); lia.
  - intros i p Hi Hp%at_object_holding. pose proof (sum_lookup_le inside _ _ _ Hi) as Hle. change (inside p) with (if holding p then 1 else 0) in Hle.
    rewrite Hp in Hle. destruct (lock_entry _ _ _ _); [by eexists|lia].
Qed.

(** ** Witnesses *)
#[export] Instance sim_objects : ObjectStore (gmap string Data) := {|
  os_get os k := os !! k; os_put os k d := <[k := d]> os; os_delete os k := delete k os |}.

#[export] Instance sim_objects_ok : ObjectStoreOk (gmap string Data).
Proof.
  split; intros os k.
  - intros d k'. simpl. case_decide; subst; [apply lookup_insert_eq|by apply lookup_insert_ne].
  - intros k'. simpl. case_decide; subst; [apply lookup_delete_eq|by apply lookup_delete_ne].
Qed.

Definition ex_gateway : Gateway := mkGateway ∅ [] 1.
Definition ex_large : @Large sim (gmap string Data) :=
  @mkLarge sim _ (@world_init sim) {["doc" := Marshal ex_gateway]}.
Definition ex_update (g : Gateway) : Gateway * (Gateway + error) := (g, inl (mkGateway ∅ [] 2)).

Lemma UpdateLargeObj_stores_argument_witness :
  let '(s', r) := @UpdateLargeObj _ (@LM_large sim _ _ (λ _, None)) "default" WfLock 3 _ _ "doc" ex_gateway ex_update ex_large in
  r = Ok (mkGateway ∅ [] 2, None) ∧ l_objects s' !! "doc" = Some (Marshal ex_gateway).
Proof.
  pose proof (@UpdateLargeObj_stores_argument sim (Sim_ok _ _ _) _ _ _ (λ _, None) "default" WfLock 3
    sim_NoFaults (λ _, eq_refl) ltac:(done) _ _ "doc" ex_gateway ex_gateway ex_gateway
    (mkGateway ∅ [] 2) ex_update ex_large eq_refl eq_refl eq_refl) as Hu.
  destruct (@UpdateLargeObj _ (@LM_large sim _ _ (λ _, None)) _ _ _ _ _ _ _ _ _) as [s' r]. destruct Hu as (Hr & _ & Ho).
  split; [exact Hr|]. exact (Ho "doc").
Defined.

(** Two clients at once: each adds one to what a gateway instance has counted. *)
Definition ex_count (g : Gateway) : Gateway * (Gateway + error) :=
  let g' := mkGateway (gw_MetExpectations g) (gw_Vars g) (gw_Visits g + 1) in (g', inl g').
Definition ex_counter : access := Update Gateway _ ex_gateway ex_count.
Definition ex_objects : large_state (KV:=SimKV) (OS:=gmap string Data) :=
  mkLargeState (λ _ _, kv_new) {["doc" := Marshal ex_gateway]}.
Definition ex_two : pool large_call (large_state (KV:=SimKV) (OS:=gmap string Data)) unit :=
  accesses_start "default" WfLock 3 "doc" ex_objects [ex_counter; ex_counter].
Definition ex_turns (l : list nat) (po : pool large_call (large_state (KV:=SimKV) (OS:=gmap string Data)) unit) :=
  foldl (turn (@in_large SimKV _ (gmap string Data) _ None) unit) po l.

Lemma ex_turns_steps l po : rtc (large_step "default" WfLock "doc") po (ex_turns l po).
Proof.
  eapply (rtc_subrel (call_made (@in_large SimKV _ (gmap string Data) _ None) unit None)); [|apply turns_made].
  intros s s' Hs. by eapply large_calls_.
Qed.

(** The lock is given back between reading and writing, and an update can be lost:
    the second client reads before the first one writes, both succeed, and one of
    two is counted. *)
Lemma concurrent_update_lost :
  let s := ex_turns [0; 0; 0; 0; 0; 1; 1; 1; 1; 1; 0; 0; 0; 0; 0; 1; 1; 1; 1; 1] ex_two in
  po_progs s = [Ends (Ok tt); Ends (Ok tt)] ∧
  ls_objects (po_state s) !! "doc" = Some (Marshal (mkGateway ∅ [] (gw_Visits ex_gateway + 1))).
Proof. split; vm_compute; reflexivity. Qed.

(** A client that is at the object when its lock expires is not alone there. *)
Lemma expired_lock_admits_two :
  let s := ex_turns [0; 0] ex_two in
  let s' := ex_turns [1; 1] (mkPool (expired "default" WfLock "doc" (po_state s)) (po_progs s)) in
  at_object <$> po_progs s' = [true; true].
Proof. vm_compute. reflexivity. Qed.

Lemma accesses_exclude_witness :
  let s := ex_turns [0; 0; 1; 1] ex_two in
  at_object <$> po_progs s = [true; false] ∧ is_Some (lock_entry "default" WfLock "doc" (po_state s)).
Proof.
  split; [vm_compute; reflexivity|].
  destruct (accesses_exclude "default" WfLock 3 "doc" [ex_counter; ex_counter] ex_objects (ex_turns [0; 0; 1; 1] ex_two)
    (ex_turns_steps _ _)) as [_ He].
  by apply (He 0 (match po_progs (ex_turns [0; 0] ex_two) with p :: _ => p | [] => Ends (Ok tt) end)); vm_compute.
Defined.
