(* ===== verification/Once.v ===== *)
(** * The telemetry timer

    [PublishOnce] of [common/natsutil.go] and [internal/server/workflow/clienttel.go]:
    when an engine starts it makes sure that one message drives the telemetry of
    clients; each engine takes that message, counts the clients, reports the
    number and puts the message back.

    [publish_once_is_not_once]: the lock does not cover the look at the consumer,
    so several engines that start together leave at least one message, and
    possibly as many as there are engines.  [clients_are_reported]: what a turn of
    the timer reports; when the last client is gone it reports nothing, so that
    the last number reported stays. *)
From S2P Require Import Prelude Model Errors Env Sim Common Wp NatsUtil.

(** The counters of [consumer.Info] that [PublishOnce] adds up. *)
Record ConsumerInfo := mkConsumerInfo {
  NumPending : Z;
  NumAckPending : Z;
  NumWaiting : Z }.

Definition WorkflowTelemetryTimer : string := "WORKFLOW.Message.Telemetry".
Definition WorkflowTelemetryClientCount : string := "WORKFLOW_TELEMETRY.Client.Count".

Section once.
Context `{Env}.

(** What NATS says of a consumer; the encoding of [TelemetryClients]. *)
Context (consumer_Info : World → string → ConsumerInfo) (marshal_Count : Z → bytes + error).

Definition natsInfo (consumerName : string) : M ConsumerInfo :=
  nats (λ w, (w, Ok (consumer_Info w consumerName))).

(** The sum is one of [uint64]s. *)
Definition idle (i : ConsumerInfo) : bool :=
  bool_decide (((NumPending i + NumAckPending i + NumWaiting i) mod 2 ^ 64)%Z = 0%Z).

Definition PublishOnce (ns : string) (lockingKV : Bucket) (consumerName : string) (msg : Msg) : M unit :=
  _ ← wrapping (Wrap "get consumer") (natsFindConsumer consumerName);
  cInfo ← wrapping (Wrap "obtaining publish once consumer information") (natsInfo consumerName);
  if idle cInfo then
    lock ← wrapping (Wrap "obtaining lock for publish once consumer") (Lock ns lockingKV consumerName);
    if lock : bool then
      deferring (UnLock ns lockingKV consumerName)
        (wrapping (Wrap "starting publish once message") (natsPublish msg))
    else mret tt
  else mret tt.

(** A turn of the loop of [processTelemetryTimer]: was a message there?  It is
    put back in every case. *)
Definition client_count (ns : string) : M unit :=
  clientKeys ← attempt (kvKeys ns WfClients);
  match clientKeys with
  | inr _ => mret tt
  | inl clientKeys =>
      match marshal_Count (wrap32 (Z.of_nat (length clientKeys))) with
      | inr _ => mret tt
      | inl b => _ ← attempt (natsPublish (mkMsg WorkflowTelemetryClientCount ∅ (DBytes b))); mret tt
      end
  end.

Definition telemetry_turn (ns : string) : M bool :=
  msgs ← attempt (natsFetch "server_telemetry_trigger" WorkflowTelemetryTimer);
  match msgs with
  | inl (Some _) => _ ← client_count ns; mret true
  | _ => mret false
  end.

(** [startTelemetry] up to the loop; the consumer of the loop is created if it is
    not there. *)
Definition startTelemetry (ns : string) : M unit :=
  let msg := mkMsg WorkflowTelemetryTimer {[header.SharNamespace := ns]} (DBytes "") in
  _ ← wrapping (Wrap "get KVs for ns") (KvsFor ns);
  _ ← wrapping (Wrap "ensure telemetry timer message") (PublishOnce ns WfLock "TelemetryTimerConsumer" msg);
  wrapping (Wrap "run telemetry timer")
    (_ ← wrapping (Wrap "get KVs for ns") (KvsFor ns);
     nats (λ w, (w <| w_consumers ::= λ s, {["server_telemetry_trigger"]} ∪ s |>, Ok tt))).
End once.

(** ** What a turn reports *)
Section turns.
Context `{EnvOk} (marshal_Count : Z → bytes + error).

(** A turn of the timer reports how many clients there are, if there are any, and
    changes nothing else. *)
Theorem clients_are_reported (NF : NoFaults) ns w m b :
  filter (λ m, msg_Subject m = WorkflowTelemetryTimer) (w_out w) !!
    default 0 (w_acked w !! "server_telemetry_trigger") = Some m →
  let ks := kv_keys (w_kv w ns WfClients) in
  marshal_Count (wrap32 (Z.of_nat (length ks))) = inl b →
  let '(w', r) := telemetry_turn marshal_Count ns w in
  r = Ok true ∧
  w' ≡ match ks with
       | [] => w
       | _ => w_pub (mkMsg WorkflowTelemetryClientCount ∅ (DBytes b)) w
       end.
Proof.
  intros Hm ks Hb.
  enough (wp (telemetry_turn marshal_Count ns) w (λ w' r, r = Ok true ∧ w' ≡ match ks with
       | [] => w | _ => w_pub (mkMsg WorkflowTelemetryClientCount ∅ (DBytes b)) w end)) as Hw.
  { unfold wp in Hw. by destruct (telemetry_turn _ _ w). }
  unfold telemetry_turn, client_count. wp_steps. unfold natsFetch. apply wp_nats; [done|]. cbn [fst snd].
  change (w_out (w_next w)) with (w_out w). change (w_acked (w_next w)) with (w_acked w). rewrite Hm.
  wp_steps. unfold kvKeys. apply wp_nats; [done|]. cbn [fst snd].
  change (w_kv (w_next (w_next w)) ns WfClients) with (w_kv w ns WfClients). fold ks.
  destruct ks as [|k ks']; wp_steps; [by rewrite !w_next_equiv|].
  rewrite Hb. wp_steps. by rewrite !w_next_equiv.
Qed.
End turns.

(** ** Engines that start together *)
Inductive opc :=
  | Looking            (* before [consumer.Info] *)
  | Saw (idle : bool)  (* with its answer *)
  | Locked             (* [Lock] granted, the message not published *)
  | Published          (* the message published, the lock not given back *)
  | Through.

Record starting := mkStarting { sg_messages : nat; sg_lock : bool; sg_engines : list opc }.

#[export] Instance starting_settable : Settable starting := λ r,
  mkStarting (sg_messages r) (sg_lock r) (sg_engines r).

Definition engine_at (i : nat) (p : opc) (s : starting) : starting := s <| sg_engines ::= <[i := p]> |>.

(** The calls of [PublishOnce], none of which fails.  The messages are those the
    consumer has not handed out for good. *)
Inductive once_step : starting → starting → Prop :=
  | looks s i :
      sg_engines s !! i = Some Looking →
      once_step s (engine_at i (Saw (bool_decide (sg_messages s = 0))) s)
  | leaves s i : sg_engines s !! i = Some (Saw false) → once_step s (engine_at i Through s)
  | locks s i :
      sg_engines s !! i = Some (Saw true) → sg_lock s = false →
      once_step s (engine_at i Locked s <| sg_lock := true |>)
  | refused s i :
      sg_engines s !! i = Some (Saw true) → sg_lock s = true → once_step s (engine_at i Through s)
  | publishes s i :
      sg_engines s !! i = Some Locked →
      once_step s (engine_at i Published s <| sg_messages ::= S |>)
  | unlocks s i :
      sg_engines s !! i = Some Published →
      once_step s (engine_at i Through s <| sg_lock := false |>).

Definition engines_start (messages n : nat) : starting := mkStarting messages false (replicate n Looking).

Definition all_through (s : starting) : Prop := Forall (eq Through) (sg_engines s).

(** As long as there is no message, who is through was refused the lock by one
    that still has it. *)
Record once_inv (s : starting) : Prop := {
  oi_lock : sg_lock s = true → ∃ i p, sg_engines s !! i = Some p ∧ (p = Locked ∨ p = Published);
  oi_none i p : sg_messages s = 0 → sg_engines s !! i = Some p →
    p ≠ Saw false ∧ p ≠ Published ∧ (p = Through → sg_lock s = true) }.

Lemma once_inv_step s s' : once_inv s → once_step s s' → once_inv s'.
Proof.
  intros [Hl Hn] Hst.
  assert (∀ j q, sg_engines s !! j = Some q → q ≠ Locked → q ≠ Published → ∀ q', sg_lock s = true →
    ∃ i p, <[j := q']> (sg_engines s) !! i = Some p ∧ (p = Locked ∨ p = Published)) as Hkeep.
  { intros j q Hj Hq1 Hq2 q' Hlk. destruct (Hl Hlk) as (i & p & Hi & Hp). exists i, p. split; [|done].
    rewrite list_lookup_insert_ne; [done|]. intros ->. rewrite Hj in Hi. injection Hi as ->. by destruct Hp. }
  destruct Hst as [s j Hj|s j Hj|s j Hj Hlk|s j Hj Hlk|s j Hj|s j Hj]; split; simpl in *.
  all: try (intros i p Hz [(<- & <- & _)|[_ Hi]]%list_lookup_insert_Some; [|by eapply Hn]).
  all: try (intros Hlk'; by eapply Hkeep).
  - rewrite bool_decide_true by done. done.
  - by destruct (Hn j _ Hz Hj) as [? _].
  - intros _. exists j, Locked. split; [|by left]. apply list_lookup_insert_eq. by eapply lookup_lt_Some.
  - intros i p Hz [(<- & <- & _)|[_ Hi]]%list_lookup_insert_Some; [done|].
    destruct (Hn i p Hz Hi) as (? & ? & ?). by split_and!.
  - done.
  - intros _. exists j, Published. split; [|by right]. apply list_lookup_insert_eq. by eapply lookup_lt_Some.
  - done.
  - intros i p Hz _. by destruct (Hn j _ Hz Hj) as (_ & ? & _).
Qed.

Lemma once_inv_reachable messages n s :
  rtc once_step (engines_start messages n) s → once_inv s.
Proof.
  apply rtc_invariant; [intros s1 s2 Hs Hi; by eapply once_inv_step|].
  split; simpl; [done|]. by intros i p _ [-> _]%lookup_replicate.
Qed.

(** Where a message is, no other is published. *)
Lemma messages_stay messages n s :
  messages ≠ 0 → rtc once_step (engines_start messages n) s → sg_messages s = messages.
Proof.
  intros Hm Hr.
  assert (∀ s s', rtc once_step s s' → sg_messages s = messages →
    (∀ i p, sg_engines s !! i = Some p → p = Looking ∨ p = Saw false ∨ p = Through) →
    sg_messages s' = messages) as Hgo.
  { clear s Hr. intros s s' Hr. induction Hr as [|s1 s2 s3 Hs _ IH]; [done|]. intros H1 Hp. apply IH; clear IH.
    - destruct Hs; simpl; try done. by destruct (Hp _ _ H) as [|[|]].
    - intros i p. destruct Hs; simpl; intros [(<- & <- & _)|[_ Hi]]%list_lookup_insert_Some; eauto;
        try (by destruct (Hp _ _ H) as [|[|]]). rewrite bool_decide_false by lia. by right; left. }
  eapply Hgo; [exact Hr|done|]. simpl. intros i p [-> _]%lookup_replicate. by left.
Qed.

(** Engines that start together: when all are through there is a message; if there
    was one before, no other is published; but two engines that both find none
    can each publish one, one after the other under the lock. *)
Theorem publish_once_is_not_once messages n s :
  rtc once_step (engines_start messages (S n)) s →
  (all_through s → sg_messages s ≠ 0) ∧
  (messages ≠ 0 → sg_messages s = messages) ∧
  (∃ s2, rtc once_step (engines_start 0 2) s2 ∧ all_through s2 ∧ sg_messages s2 = 2).
Proof.
  intros Hr. split_and!.
  - intros Ht Hz. pose proof (once_inv_reachable _ _ _ Hr) as [Hl Hn].
    assert (∃ p, sg_engines s !! 0 = Some p) as [p Hp].
    { assert (length (sg_engines s) = S n) as Hlen.
      { clear -Hr. remember (engines_start messages (S n)) as s0 eqn:Hs0.
        assert (length (sg_engines s0) = S n) as H0 by (subst; simpl; by rewrite length_replicate).
        clear Hs0. induction Hr as [|s1 s2 s3 Hs _ IH]; [done|]. apply IH.
        destruct Hs; simpl; by rewrite length_insert. }
      apply lookup_lt_is_Some. lia. }
    pose proof (proj1 (Forall_lookup _ _) Ht) as Hall. pose proof (Hall _ _ Hp) as <-.
    destruct (Hn 0 _ Hz Hp) as (_ & _ & Hlk). destruct (Hl (Hlk eq_refl)) as (i & p & Hi & Hpp).
    apply Hall in Hi as <-. by destruct Hpp.
  - intros Hm. by eapply messages_stay.
  - eexists. split.
    + eapply rtc_l; [by apply (looks _ 0)|]. eapply rtc_l; [by apply (looks _ 1)|].
      eapply rtc_l; [by apply (locks _ 0)|]. eapply rtc_l; [by apply (publishes _ 0)|].
      eapply rtc_l; [by apply (unlocks _ 0)|]. eapply rtc_l; [by apply (locks _ 1)|].
      eapply rtc_l; [by apply (publishes _ 1)|]. eapply rtc_l; [by apply (unlocks _ 1)|]. apply rtc_refl.
    + split; [|done]. repeat constructor.
Qed.

(** ** Examples *)
Definition ex_count (n : Z) : bytes + error := inl (pretty n).
Definition ex_timer_world : @World sim :=
  w_pub (mkMsg WorkflowTelemetryTimer ∅ (DBytes "")) (w_put "default" WfClients "c1" (DBytes "") world_init).

Lemma clients_are_reported_witness :
  (telemetry_turn ex_count "default" ex_timer_world).2 = Ok true ∧
  (telemetry_turn ex_count "default" ex_timer_world).1 ≡
    w_pub (mkMsg WorkflowTelemetryClientCount ∅ (DBytes "1")) ex_timer_world.
Proof.
  pose proof (@clients_are_reported sim ex_count sim_NoFaults "default" ex_timer_world
    (mkMsg WorkflowTelemetryTimer ∅ (DBytes "")) "1" eq_refl) as Hr.
  cbv zeta in Hr. specialize (Hr ltac:(vm_compute; reflexivity)).
  destruct (telemetry_turn ex_count "default" ex_timer_world) as [w' r]. exact Hr.
Defined.

Lemma publish_once_is_not_once_witness :
  ∃ s, rtc once_step (engines_start 0 2) s ∧ all_through s ∧ sg_messages s = 2.
Proof. apply (publish_once_is_not_once 0 0 (engines_start 0 1) (rtc_refl _ _)). Defined.
