(* ===== verification/Vars.v ===== *)
(** * Variables and expressions

    [server/vars/vars.go], [internal/model/servervars.go] and
    [common/expression]: decoding and encoding of workflow variables, the
    evaluation of expressions over them, and the transformation of variables
    into and out of an element.  The expression language and msgpack are
    parameters of the environment. *)
From S2P Require Import Prelude Model Errors Env Sim Common Wp NatsUtil.

Definition lift_res `{Env} {A} (r : res error A) : M A := λ w, (w, r).

Definition lift_sum `{Env} {A} (r : A + error) : M A :=
  match r with inl a => mret a | inr e => throw e end.

(** ** [model.ServerVars] *)
Section server_vars.
Context `{Env}.

Definition NewServerVars : gmap string GoVal := ∅.

Definition Encode (vals : gmap string GoVal) : M bytes :=
  match msgpack_marshal vals with
  | inl b => mret b
  | inr err => throw (Wrap "encode vars" err)
  end.

(** [msgpack.Unmarshal] into a map that exists adds to it. *)
Definition DecodeVars (vals : gmap string GoVal) (b : bytes) : M (gmap string GoVal) :=
  if bool_decide (b = "") then mret vals
  else match msgpack_unmarshal b with
       | inl m => mret (m ∪ vals)
       | inr err => throw (Wrap "decode vars" err)
       end.

Definition GetString (vals : gmap string GoVal) (key : string) : string + error :=
  match vals !! key with
  | None | Some VNil => inr (Wrap "getString" (New "workflow var found nil"))
  | Some (VString s) => inl s
  | Some _ => inr (Wrap "getString" (New "workflow var not present"))
  end.

Definition GetBool (vals : gmap string GoVal) (key : string) : bool + error :=
  match vals !! key with
  | None | Some VNil => inr (Wrap "getBool" (New "workflow var found nil"))
  | Some (VBool b) => inl b
  | Some _ => inr (Wrap "getBool" (New "workflow var not present"))
  end.

Definition SetVar (vals : gmap string GoVal) (key : string) (v : GoVal) : gmap string GoVal :=
  <[key := v]> vals.
End server_vars.

(** ** Expressions *)
Definition TrimPrefixEq (s : string) : string :=
  match s with String "=" s' => s' | _ => s end.

Definition is_space (c : ascii) : bool :=
  bool_decide (c ∈ ["032"; "009"; "010"; "011"; "012"; "013"]%char).

Fixpoint TrimLeft (s : string) : string :=
  match s with
  | EmptyString => ""
  | String c s' => if is_space c then TrimLeft s' else s
  end.

Fixpoint TrimRight (s : string) : string :=
  match s with
  | EmptyString => ""
  | String c s' =>
      match TrimRight s' with
      | EmptyString => if is_space c then "" else String c ""
      | t => String c t
      end
  end.

Definition TrimSpace (s : string) : string := TrimRight (TrimLeft s).

Section expressions.
Context `{Env}.

(** [ExprEngine.Eval]: the empty expression is nil, a leading [=] is dropped
    (twice), the rest is compiled and run. *)
Definition ExprEngine_Eval (exp : string) (vars : gmap string GoVal) : res error GoVal :=
  if bool_decide (exp = "") then Ok VNil
  else
    let exp := TrimPrefixEq (TrimPrefixEq exp) in
    match expr_compile exp with
    | Some err => Err (Wrap "compile" (ErrWorkflowFatal err None))
    | None =>
        match expr_run exp vars with
        | Ok v => Ok v
        | Err err => Err (Wrap "evaluate expression" err)
        | Panic why => Panic why
        end
    end.

(** A panic below the deferred [recover] comes back as a fatal error. *)
Definition recovered {A} (r : res error A) : res error A :=
  match r with
  | Panic why => Err (Wrap "panic: evaluate expression" (ErrWorkflowFatal (New why) None))
  | r => r
  end.

Definition EvalAny (exp : string) (vars : gmap string GoVal) : res error GoVal :=
  recovered match ExprEngine_Eval exp vars with
            | Err err => Err (Wrap "evaluate expression" err)
            | r => r
            end.

(** [Eval[bool]]: a result of another type panics in the type assertion. *)
Definition EvalBool (exp : string) (vars : gmap string GoVal) : res error bool :=
  recovered match ExprEngine_Eval exp vars with
            | Ok (VBool b) => Ok b
            | Ok _ => Panic "interface conversion"
            | Err err => Err (Wrap "evaluate expression" err)
            | Panic why => Panic why
            end.

(** [Eval[string]] *)
Definition EvalString (exp : string) (vars : gmap string GoVal) : res error string :=
  recovered match ExprEngine_Eval exp vars with
            | Ok (VString s) => Ok s
            | Ok _ => Panic "interface conversion"
            | Err err => Err (Wrap "evaluate expression" err)
            | Panic why => Panic why
            end.

(** [Eval[interface{}]]: so does nil. *)
Definition EvalIface (exp : string) (vars : gmap string GoVal) : res error GoVal :=
  recovered match ExprEngine_Eval exp vars with
            | Ok VNil => Panic "interface conversion: interface is nil, not interface {}"
            | Ok v => Ok v
            | Err err => Err (Wrap "evaluate expression" err)
            | Panic why => Panic why
            end.

(** The identifiers of an expression; only text after a leading [=] is one. *)
Definition ExprEngine_GetVariables (exp : string) : list string + error :=
  match TrimSpace exp with
  | String "=" exp =>
      match expr_identifiers exp with
      | inl l => inl l
      | inr err => inr (Wrap "get variables failed to parse expression" err)
      end
  | _ => inl []
  end.

Definition GetVariables (exp : string) : list string + error :=
  match ExprEngine_GetVariables exp with
  | inl l => inl l
  | inr err => inr (Wrap "get expression variables" err)
  end.

(** ** Transformations *)

(** One turn of the loops over a transform. *)
Definition eval_into (msg : string) (vars : gmap string GoVal) (acc : gmap string GoVal)
    (kv : string * string) : M (gmap string GoVal) :=
  res ← wrapping (Wrap msg) (lift_res (EvalAny kv.2 vars));
  mret (<[kv.1 := res]> acc).

Definition InputVars (oldVarsBin newVarsBin : bytes) (el : Element) : M bytes :=
  if bool_decide (el_InputTransform el = ∅) then mret newVarsBin
  else
    processVars ← wrapping (Wrap "decode old input variables") (DecodeVars NewServerVars oldVarsBin);
    l ← range (el_InputTransform el);
    localVars ← for_fold l (eval_into "expression evalutaion failed" processVars) NewServerVars;
    wrapping (Wrap "encode transofrmed input variables") (Encode localVars).

Definition OutputVars (newVarsBin mergeVarsBin : bytes) (transform : gmap string string) : M bytes :=
  if bool_decide (transform = ∅) then mret mergeVarsBin
  else
    localVars ← wrapping (Wrap "decode new output variables") (DecodeVars NewServerVars newVarsBin);
    processVars ← wrapping (Wrap "decode merge output variables")
                    (DecodeVars NewServerVars mergeVarsBin);
    l ← range transform;
    merged ← for_fold l (eval_into "evaluate output transform expression" localVars) processVars;
    wrapping (Wrap "encode new output process variables") (Encode merged).

(** Every variable an output transform mentions must be there. *)
Definition check_variables (vrs : gmap string GoVal) (v : string) : M unit :=
  list ← wrapping (Wrap "get the variables to check from output transform")
           (lift_sum (GetVariables v));
  for_each list (λ i,
    match vrs !! i with
    | Some _ => mret tt
    | None => throw (ErrWorkflowFatal (New "expected output variable missing") None)
    end).

Definition CheckVars (state : WorkflowState) (el : Element) : M unit :=
  if bool_decide (el_OutputTransform el = ∅) then mret tt
  else
    vrs ← wrapping (Wrap "falied to decode variables to check") (DecodeVars NewServerVars (ws_Vars state));
    l ← range (el_OutputTransform el);
    for_each l (λ kv, check_variables vrs kv.2).
End expressions.

(** ** Effects: none *)
Section vars_effects.
Context `{EnvOk} (T : Cells) (P : Msg → Prop).

Lemma eff_lift_res {A} (r : res error A) : preserves (effect T P) (lift_res r).
Proof. by intros w. Qed.
Lemma eff_lift_sum {A} (r : A + error) : preserves (effect T P) (lift_sum r).
Proof. by destruct r. Qed.
Lemma eff_Encode v : preserves (effect T P) (Encode v).
Proof. unfold Encode. preserves_tac. Qed.
Lemma eff_DecodeVars v b : preserves (effect T P) (DecodeVars v b).
Proof. unfold DecodeVars. preserves_tac. Qed.
#[local] Hint Resolve eff_lift_res eff_lift_sum eff_Encode eff_DecodeVars : preserves.

Lemma eff_InputVars o n el : preserves (effect T P) (InputVars o n el).
Proof. unfold InputVars, eval_into. preserves_tac. Qed.
Lemma eff_OutputVars n m t : preserves (effect T P) (OutputVars n m t).
Proof. unfold OutputVars, eval_into. preserves_tac. Qed.
Lemma eff_CheckVars st el : preserves (effect T P) (CheckVars st el).
Proof. unfold CheckVars, check_variables. preserves_tac. Qed.
End vars_effects.

#[export] Hint Resolve eff_lift_res eff_lift_sum eff_Encode eff_DecodeVars eff_InputVars
  eff_OutputVars eff_CheckVars : preserves.

(** ** What the transformations compute *)
Section vars_specs.
Context `{EnvOk}.

(** The bytes hold these variables; no bytes hold none. *)
Definition holds (b : bytes) (vals : gmap string GoVal) : Prop :=
  (b = "" ∧ vals = ∅) ∨ (b ≠ "" ∧ msgpack_unmarshal b = inl vals).

Lemma DecodeVars_holds b vals w : holds b vals → DecodeVars NewServerVars b w = (w, Ok vals).
Proof.
  unfold DecodeVars, NewServerVars. intros [[-> ->]|[Hb Hm]]; [done|].
  rewrite bool_decide_false by done. rewrite Hm. by rewrite map_union_empty.
Qed.

Lemma Encode_holds vals b w :
  msgpack_marshal vals = inl b → Encode vals w = (w, Ok b) ∧ holds b (wire <$> vals).
Proof.
  intros Hm. unfold Encode. rewrite Hm. split; [done|].
  apply msgpack_roundtrip in Hm as [Hb Hu]. by right.
Qed.

(** The values the expressions of a transform have under [vars]. *)
Definition evaluates (transform : gmap string string) (vars vals : gmap string GoVal) : Prop :=
  dom vals = dom transform ∧
  ∀ k e, transform !! k = Some e → ∃ v, vals !! k = Some v ∧ EvalAny e vars = Ok v.

Lemma for_fold_eval msg vars (l : list (string * string)) acc w vals :
  NoDup l.*1 →
  (∀ k e, (k, e) ∈ l → ∃ v, vals !! k = Some v ∧ EvalAny e vars = Ok v) →
  dom vals = list_to_set l.*1 →
  for_fold l (eval_into msg vars) acc w = (w, Ok (vals ∪ acc)).
Proof.
  revert acc vals. induction l as [|[k e] l IH]; intros acc vals; simpl.
  - intros _ _ ->%dom_empty_iff_L. by rewrite map_empty_union.
  - intros [Hk Hn]%NoDup_cons Hv Hd.
    destruct (Hv k e) as (v & Hkv & He); [by left|].
    unfold eval_into, mbind, gom_bind, wrapping, lift_res. simpl. rewrite He. simpl.
    rewrite (IH (<[k := v]> acc) (delete k vals)); [|done| |].
    + f_equal. f_equal. rewrite <-insert_union_r by apply lookup_delete_eq.
      rewrite insert_union_l. by rewrite insert_delete_id.
    + intros k' e' Hin. destruct (Hv k' e') as (v' & Hv' & He'); [by right|].
      exists v'. rewrite lookup_delete_ne; [done|].
      intros ->. apply Hk. by apply (list_elem_of_fmap_2 fst _ (k', e')).
    + rewrite dom_delete_L, Hd. apply leibniz_equiv. intros x. set_solver.
Qed.

Lemma range_eval msg vars transform acc w vals :
  evaluates transform vars vals →
  for_fold (map_order string (w_tick w) transform) (eval_into msg vars) acc (w_next w) =
  (w_next w, Ok (vals ∪ acc)).
Proof.
  intros [Hd Hv]. apply for_fold_eval.
  - rewrite map_order_perm. apply NoDup_fst_map_to_list.
  - intros k e Hin. apply Hv. rewrite map_order_perm in Hin. by apply elem_of_map_to_list.
  - rewrite Hd. apply leibniz_equiv. intros k. rewrite elem_of_dom, elem_of_list_to_set.
    rewrite map_order_perm, list_elem_of_fmap. split.
    + intros [e He]. exists (k, e). by rewrite elem_of_map_to_list.
    + intros ([k' e] & -> & Hin). apply elem_of_map_to_list in Hin. by exists e.
Qed.
End vars_specs.

(** An element sees its inputs and nothing else: the variables a job is
    started with are exactly the targets of the element's input transform, each
    with the value of its expression over the process variables. *)
Theorem InputVars_scope `{EnvOk} w oldVars newVars processVars el vals b :
  el_InputTransform el ≠ ∅ → holds oldVars processVars →
  evaluates (el_InputTransform el) processVars vals →
  msgpack_marshal vals = inl b →
  InputVars oldVars newVars el w = (w_next w, Ok b) ∧ holds b (wire <$> vals).
Proof.
  intros Hne Hold Hev Hb. destruct (Encode_holds vals b (w_next w) Hb) as [He Hh].
  split; [|done]. unfold InputVars. rewrite bool_decide_false by done.
  erewrite bind_ok by (apply wrapping_ok, DecodeVars_holds, Hold).
  erewrite bind_ok by done.
  erewrite bind_ok by (by apply range_eval).
  unfold NewServerVars. rewrite map_union_empty. by apply wrapping_ok.
Qed.

(** An element writes its outputs and nothing else: the targets of an output
    transform get the values of their expressions over the job's variables, and
    every other process variable keeps its value. *)
Theorem OutputVars_merge `{EnvOk} w newVars mergeVars localVars processVars transform vals b :
  transform ≠ ∅ → holds newVars localVars → holds mergeVars processVars →
  evaluates transform localVars vals →
  msgpack_marshal (vals ∪ processVars) = inl b →
  OutputVars newVars mergeVars transform w = (w_next w, Ok b) ∧ holds b (wire <$> vals ∪ processVars).
Proof.
  intros Hne Hnew Hmerge Hev Hb. destruct (Encode_holds _ b (w_next w) Hb) as [He Hh].
  split; [|done]. unfold OutputVars. rewrite bool_decide_false by done.
  erewrite bind_ok by (apply wrapping_ok, DecodeVars_holds, Hnew).
  erewrite bind_ok by (apply wrapping_ok, DecodeVars_holds, Hmerge).
  erewrite bind_ok by done.
  erewrite bind_ok by (by apply range_eval). by apply wrapping_ok.
Qed.

Section check_vars.
Context `{Env}.

(** What an expression needs is there. *)
Definition supplied (vrs : gmap string GoVal) (e : string) : Prop :=
  ∃ l, GetVariables e = inl l ∧ Forall (λ i, is_Some (vrs !! i)) l.

Lemma check_variables_ok vrs e w :
  (check_variables vrs e w).1 = w ∧ ((check_variables vrs e w).2 = Ok tt ↔ supplied vrs e).
Proof.
  unfold check_variables, supplied. unfold mbind, gom_bind, wrapping, lift_sum.
  destruct (GetVariables e) as [l|err]; simpl.
  - edestruct (for_each_pure (E:=error) l
      (λ i, match vrs !! i with
            | Some _ => mret tt
            | None => throw (ErrWorkflowFatal (New "expected output variable missing") None)
            end)
      (λ i, match vrs !! i with
            | Some _ => Ok tt
            | None => Err (ErrWorkflowFatal (New "expected output variable missing") None)
            end) w) as [Hs Hr].
    { intros i w'. by destruct (vrs !! i). }
    split; [done|]. rewrite Hr. split.
    + intros Hl. exists l. split; [done|]. eapply Forall_impl; [exact Hl|].
      intros i. simpl. by destruct (vrs !! i).
    + intros (l' & [= <-] & Hl). eapply Forall_impl; [exact Hl|].
      intros i [v Hv]. by rewrite Hv.
  - split; [done|]. naive_solver.
Qed.
End check_vars.

(** [CheckVars] passes exactly the results that supply every variable an output
    transform of the element reads. *)
Lemma CheckVars_ok `{EnvOk} state el vrs w :
  holds (ws_Vars state) vrs →
  (CheckVars state el w).2 = Ok tt ↔
  ∀ k e, el_OutputTransform el !! k = Some e → supplied vrs e.
Proof.
  intros Hh. unfold CheckVars. case_bool_decide as He.
  - simpl. split; [|done]. intros _ k e. by rewrite He.
  - erewrite bind_ok by (apply wrapping_ok, DecodeVars_holds, Hh).
    erewrite bind_ok by done.
    set (l := map_order _ _ _).
    destruct (for_each_pure l (λ kv, check_variables vrs kv.2)
      (λ kv, (check_variables vrs kv.2 w).2) (w_next w)) as [_ ->].
    { intros [k e] w'. simpl. unfold check_variables, mbind, gom_bind, wrapping, lift_sum.
      destruct (GetVariables e) as [vs|err]; simpl; [|done].
      induction vs as [|i vs IH]; simpl; [done|]. unfold mbind, gom_bind.
      destruct (vrs !! i); simpl; [apply IH|done]. }
    unfold l. rewrite map_order_perm, Forall_forall. split.
    + intros Hl k e Hk. eapply check_variables_ok, (Hl (k, e)). by apply elem_of_map_to_list.
    + intros Hl [k e] Hin. apply check_variables_ok, (Hl k e). by apply elem_of_map_to_list.
Qed.

(** A transform and variables to run the theorems on. *)
Definition ex_element (inp out : gmap string string) : Element :=
  mkElement "t" "t" element.ServiceTask "" "task" None None None "" "" "" [] None inp out None []
    None None (Some "uid") None false.

Definition ex_vars : gmap string GoVal := {["a" := VNum Int8 5; "b" := VString "x"]}.
Definition ex_bytes (m : gmap string GoVal) : bytes :=
  match @msgpack_marshal sim m with inl b => b | inr _ => "" end.

Lemma InputVars_scope_witness :
  @InputVars sim (ex_bytes ex_vars) "" (ex_element {["n" := "=a"]} ∅) world_init =
    (w_next world_init, Ok (ex_bytes {["n" := VNum Int8 5]})) ∧
  @holds sim (ex_bytes {["n" := VNum Int8 5]}) (@wire sim <$> {["n" := VNum Int8 5]}).
Proof.
  apply (@InputVars_scope sim (Sim_ok _ _ _) world_init (ex_bytes ex_vars) "" ex_vars
    (ex_element {["n" := "=a"]} ∅) {["n" := VNum Int8 5]} (ex_bytes {["n" := VNum Int8 5]})).
  - simpl. apply map_non_empty_singleton.
  - right. split; vm_compute; [discriminate|reflexivity].
  - split; [vm_compute; reflexivity|]. intros k e Hk.
    change (({["n" := "=a"]} : gmap string string) !! k = Some e) in Hk. apply lookup_singleton_Some in Hk as [<- <-].
    exists (VNum Int8 5). split; vm_compute; reflexivity.
  - vm_compute. reflexivity.
Defined.

Lemma OutputVars_merge_witness :
  @OutputVars sim (ex_bytes {["n" := VNum Int8 7]}) (ex_bytes ex_vars) {["a" := "=n"]} world_init =
    (w_next world_init, Ok (ex_bytes ({["a" := VNum Int8 7]} ∪ ex_vars))) ∧
  @holds sim (ex_bytes ({["a" := VNum Int8 7]} ∪ ex_vars)) (@wire sim <$> ({["a" := VNum Int8 7]} ∪ ex_vars)).
Proof.
  apply (@OutputVars_merge sim (Sim_ok _ _ _) world_init (ex_bytes {["n" := VNum Int8 7]})
    (ex_bytes ex_vars) {["n" := VNum Int8 7]} ex_vars {["a" := "=n"]} {["a" := VNum Int8 7]}
    (ex_bytes ({["a" := VNum Int8 7]} ∪ ex_vars))).
  - apply map_non_empty_singleton.
  - right. split; vm_compute; [discriminate|reflexivity].
  - right. split; vm_compute; [discriminate|reflexivity].
  - split; [vm_compute; reflexivity|]. intros k e [<- <-]%lookup_singleton_Some.
    exists (VNum Int8 7). split; vm_compute; reflexivity.
  - vm_compute. reflexivity.
Defined.
