(* ===== verification/Publish.v ===== *)
(** * Publishing, user task lists and owners

    The part of [internal/server/workflow/operations.go] that everything else
    publishes through, with the lists of open user tasks that publishing a user
    task extends, and the owner directory. *)
From S2P Require Import Prelude Model Errors Env Sim Common Wp NatsUtil.

(** [publishOptions], from [publish-opts.go]. *)
Record publishOptions := mkPublishOptions {
  po_Embargo : Z;
  po_headers : gmap string string }.

Inductive PublishOpt :=
  | WithEmbargo (embargo : Z)
  | WithHeaders (headers : gmap string string).

Definition Apply (n : publishOptions) (o : PublishOpt) : publishOptions :=
  match o with
  | WithEmbargo e => mkPublishOptions e (po_headers n)
  | WithHeaders h => mkPublishOptions (po_Embargo n) h
  end.

(** [remove]: the first occurrence goes. *)
Fixpoint remove (slice : list string) (member : string) : list string :=
  match slice with
  | [] => []
  | v :: rest => if bool_decide (v = member) then rest else v :: remove rest member
  end.

Section publish.
Context `{Env}.

Definition openUserTask (ctx : Ctx) (owner id : string) : M unit :=
  _ ← nsKVs ctx;
  let ns := GetNS ctx in
  _ ← wrapping (Wrap "update user task object")
        (check (UpdateObj ns WfUserTasks owner (mkUserTasks [])
                  (λ msg, mret (msg <| ut_Id ::= λ l, l ++ [id] |>))));
  mret tt.

(** Errors do not stop the loop; the last one is returned. *)
Definition closeUserTask (ctx : Ctx) (trackingID : string) : M unit :=
  _ ← nsKVs ctx;
  let ns := GetNS ctx in
  job ← wrapping (Wrap "load job when closing user task") (LoadObj WorkflowState ns Job trackingID);
  retErr ← for_fold (ws_Owners job ++ ws_Groups job) (λ retErr i,
    r ← UpdateObj ns WfUserTasks i (mkUserTasks [])
          (λ msg, mret (msg <| ut_Id ::= λ l, remove l trackingID |>));
    mret (match r.2 with
          | Some err => Some (Wrap "faiiled to update user tasks object when closing user task" err)
          | None => retErr
          end)) None;
  match retErr with Some err => throw err | None => mret tt end.

Definition GetUserTaskIDs (ctx : Ctx) (owner : string) : M UserTasks :=
  _ ← nsKVs ctx;
  let ns := GetNS ctx in
  wrapping (Wrap "load user task IDs") (LoadObj UserTasks ns WfUserTasks owner).

Definition OwnerID_ (ctx : Ctx) (name : string) : M string :=
  _ ← nsKVs ctx;
  let ns := GetNS ctx in
  let name := if bool_decide (name = "") then "AnyUser" else name in
  nm ← attempt (kvGet ns OwnerID name);
  match nm with
  | inl (DBytes id, _) => mret id
  | inl _ => panic "owner id is not text"
  | inr err =>
      if Is err ErrKeyNotFound then
        id ← newId;
        _ ← wrapping (Wrap "write owner ID") (kvPut ns OwnerID name (DBytes id));
        _ ← wrapping (Wrap "store owner name in kv") (kvPut ns OwnerName id (DBytes name));
        mret id
      else throw (Wrap "get owner id" err)
  end.

Definition OwnerName_ (ctx : Ctx) (id : string) : M string :=
  _ ← nsKVs ctx;
  let ns := GetNS ctx in
  nm ← wrapping (Wrap "get owner name for id") (kvGet ns OwnerName id);
  match nm.1 with DBytes name => mret name | _ => panic "owner name is not text" end.

(** The headers of a state message. *)
Definition state_header (ctx : Ctx) (c : publishOptions) : gmap string string :=
  po_headers c ∪
  <["embargo" := pretty (po_Embargo c)]> {[header.SharNamespace := GetNS ctx]}.

(** [PublishWorkflowState] stamps the caller's state, so it returns it. *)
Definition PublishWorkflowState (ctx : Ctx) (stateName : string) (state : WorkflowState)
    (opts : list PublishOpt) : M WorkflowState :=
  let c := foldl Apply (mkPublishOptions 0 ∅) opts in
  now ← timeNow;
  let state := state <| ws_UnixTimeNano := now |> in
  match header.FromCtxToMsgHeader ctx (state_header ctx c) with
  | inr err => throw (Wrap "add header to published workflow state" err)
  | inl hdr =>
      _ ← newId;
      _ ← wrapping (Wrap "publish workflow state message")
            (natsPublish (mkMsg (NS stateName (GetNS ctx)) hdr (Marshal state)));
      _ ← (if bool_decide (stateName = NS messages.WorkflowJobUserTaskExecute (GetNS ctx)) then
             for_each (ws_Owners state ++ ws_Groups state) (λ i,
               wrapping (Wrap "open user task during publish workflow state")
                 (openUserTask ctx i (TrackingID.ID (ws_Id state))))
           else mret tt);
      mret state
  end.

Definition PublishMsg `{Proto A} (ctx : Ctx) (subject : string) (sharMsg : A) : M unit :=
  match header.FromCtxToMsgHeader ctx ∅ with
  | inr err => throw (Wrap "add header to published message" err)
  | inl hdr =>
      _ ← newId;
      wrapping (Wrap "publish message")
        (natsPublish (mkMsg subject (<[header.SharNamespace := GetNS ctx]> hdr) (Marshal sharMsg)))
  end.

(** A failure to signal is logged. *)
Definition signaFatalError (ctx : Ctx) (state : WorkflowState) (s : HandlingStrategy) : M unit :=
  _ ← attempt (PublishMsg ctx (NS messages.WorkflowSystemProcessFatalError (GetNS ctx))
                 (mkFatalError s state));
  mret tt.

Definition SignalFatalErrorTeardown (ctx : Ctx) (state : WorkflowState) : M unit :=
  signaFatalError ctx state TearDown.

Definition SignalFatalErrorPause (ctx : Ctx) (state : WorkflowState) : M unit :=
  signaFatalError ctx state Pause.
End publish.

(** ** Effects *)
Definition opts_plain (opts : list PublishOpt) : Prop :=
  po_headers (foldl Apply (mkPublishOptions 0 ∅) opts) !! header.SharNamespace = None.

Lemma msg_ns_header ctx c hdr :
  po_headers c !! header.SharNamespace = None →
  header.FromCtxToMsgHeader ctx (state_header ctx c) = inl hdr →
  hdr !! header.SharNamespace = Some (GetNS ctx).
Proof.
  unfold header.FromCtxToMsgHeader. intros Hc. destruct (ctx_Correlation ctx); [|done].
  intros [= <-]. rewrite lookup_insert_ne by done. unfold header.toMsg.
  rewrite lookup_union_r.
  - unfold state_header. rewrite lookup_union_r by done. rewrite lookup_insert_ne by done.
    by rewrite lookup_singleton_eq.
  - apply lookup_kmap_None; [apply _|]. intros k Hk. by destruct k.
Qed.

(** A published state also opens user tasks: no other store is written. *)
Section publish_state_effect.
Context `{EnvOk} (ctx : Ctx) (T : Cells) (HT : ∀ k, T (GetNS ctx) WfUserTasks k).
Abbreviation within := (effect T (msg_ns (GetNS ctx))).

Lemma eff_openUserTask_in o id : preserves within (openUserTask ctx o id).
Proof. unfold openUserTask. preserves_tac. Qed.
#[local] Hint Resolve eff_openUserTask_in : preserves.

Lemma eff_PublishWorkflowState_in name st opts :
  opts_plain opts → preserves within (PublishWorkflowState ctx name st opts).
Proof.
  intros Ho. unfold PublishWorkflowState. preserves_step; [preserves_tac|]. cbv zeta.
  destruct (header.FromCtxToMsgHeader _ _) as [hdr|] eqn:Hh; preserves_tac.
  apply eff_natsPublish. by apply (msg_ns_header _ _ _ Ho Hh).
Qed.
End publish_state_effect.

Section publish_effects.
Context `{EnvOk} (ctx : Ctx) (T : Cells) `{!Lesser ctx T}.
Abbreviation within := (effect T (msg_ns (GetNS ctx))).

Lemma eff_openUserTask o id : preserves within (openUserTask ctx o id).
Proof. apply eff_openUserTask_in. intros k. by apply lesser. Qed.
Lemma eff_closeUserTask t : preserves within (closeUserTask ctx t).
Proof. unfold closeUserTask. preserves_tac. Qed.
Lemma eff_GetUserTaskIDs P o : preserves (effect T P) (GetUserTaskIDs ctx o).
Proof. unfold GetUserTaskIDs. preserves_tac. Qed.
Lemma eff_OwnerID n : preserves within (OwnerID_ ctx n).
Proof. unfold OwnerID_. preserves_tac. Qed.
Lemma eff_OwnerName P n : preserves (effect T P) (OwnerName_ ctx n).
Proof. unfold OwnerName_. preserves_tac. Qed.

Lemma eff_PublishWorkflowState name st opts :
  opts_plain opts → preserves within (PublishWorkflowState ctx name st opts).
Proof. apply eff_PublishWorkflowState_in. intros k. by apply lesser. Qed.

Lemma eff_PublishMsg `{Proto A} subj (m : A) : preserves within (PublishMsg ctx subj m).
Proof.
  unfold PublishMsg. preserves_tac. apply eff_natsPublish.
  unfold msg_ns. simpl. by rewrite lookup_insert_eq.
Qed.
#[local] Hint Resolve eff_PublishMsg : preserves.

Lemma eff_signaFatalError st s : preserves within (signaFatalError ctx st s).
Proof. unfold signaFatalError. preserves_tac. Qed.
End publish_effects.

Lemma opts_plain_nil : opts_plain [].
Proof. done. Qed.
Lemma opts_plain_embargo z : opts_plain [WithEmbargo z].
Proof. done. Qed.

#[export] Hint Resolve opts_plain_nil opts_plain_embargo eff_openUserTask eff_closeUserTask
  eff_GetUserTaskIDs eff_OwnerID eff_OwnerName eff_PublishWorkflowState eff_PublishMsg
  eff_signaFatalError : preserves.

(** ** Runs without faults *)

(** The message a state goes out in. *)
Definition state_msg (ctx : Ctx) (cid name : string) (state : WorkflowState)
    (opts : list PublishOpt) : Msg :=
  mkMsg (NS name (GetNS ctx))
    (<[header.CorrelationHeader := cid]>
       (header.toMsg (ctx_Values ctx) (state_header ctx (foldl Apply (mkPublishOptions 0 ∅) opts))))
    (Marshal state).

(** Subjects that do not announce a user task. *)
Definition quiet (name : string) : Prop := HasSuffix name "UserTask" = false.

Lemma quiet_ne name ns : quiet name → name ≠ NS messages.WorkflowJobUserTaskExecute ns.
Proof.
  unfold quiet. intros Hq ->.
  change (NS messages.WorkflowJobUserTaskExecute ns)
    with ("WORKFLOW." +:+ (ns +:+ (".State.Job.Execute." +:+ "UserTask"))) in Hq.
  rewrite <-!app_assoc_str in Hq. by rewrite HasSuffix_app in Hq.
Qed.

(** Looking for a short suffix, the beginning does not matter. *)
Lemma HasSuffix_app_long a b suf :
  String.length suf ≤ String.length b → HasSuffix (a +:+ b) suf = HasSuffix b suf.
Proof.
  intros Hl. induction a as [|c a IH]; [done|].
  change (String c a +:+ b) with (String c (a +:+ b)). simpl. rewrite IH.
  rewrite bool_decide_false; [done|]. intros <-. simpl in Hl.
  rewrite length_append_string in Hl.
  lia.
Qed.

Section publish_wp.
Context `{EnvOk} (NF : NoFaults).

Lemma wp_PublishWorkflowState_other ctx cid name st opts w Φ :
  ctx_Correlation ctx = Some cid → name ≠ NS messages.WorkflowJobUserTaskExecute (GetNS ctx) →
  (∀ w' now, let st' := st <| ws_UnixTimeNano := now |> in
     w' ≡ w_pub (state_msg ctx cid name st' opts) w → Φ w' (Ok st')) →
  wp (PublishWorkflowState ctx name st opts) w Φ.
Proof.
  intros Hc Hq HΦ. unfold PublishWorkflowState. wp_steps.
  unfold header.FromCtxToMsgHeader. rewrite Hc. wp_steps.
  rewrite bool_decide_false by done. wp_steps.
  apply HΦ. by rewrite !w_next_equiv.
Qed.

Lemma wp_PublishWorkflowState ctx cid name st opts w Φ :
  ctx_Correlation ctx = Some cid → quiet name →
  (∀ w' now, let st' := st <| ws_UnixTimeNano := now |> in
     w' ≡ w_pub (state_msg ctx cid name st' opts) w → Φ w' (Ok st')) →
  wp (PublishWorkflowState ctx name st opts) w Φ.
Proof. intros Hc Hq. apply wp_PublishWorkflowState_other; [done|by apply quiet_ne]. Qed.

(** ** Lists of user tasks *)
Definition tasks (w : World) (ns owner : string) : list string :=
  match w_get w ns WfUserTasks owner with Some (DUserTasks m) => ut_Id m | _ => [] end.

(** Every list that is stored is one. *)
Definition tasks_wf (w : World) (ns : string) : Prop :=
  ∀ o d, w_get w ns WfUserTasks o = Some d → ∃ m, d = DUserTasks m.

#[local] Instance tasks_proper : Proper ((≡) ==> (=) ==> (=) ==> (=)) tasks.
Proof. intros w w' Hw ns ? <- o ? <-. unfold tasks. by rewrite Hw. Qed.

Lemma wp_update_tasks ctx f o w Φ :
  tasks_wf w (GetNS ctx) →
  (∀ w', (∀ ns b k, b ≠ WfUserTasks → w_get w' ns b k = w_get w ns b k) →
     w_out w' = w_out w → tasks_wf w' (GetNS ctx) →
     (∀ o', tasks w' (GetNS ctx) o' =
            if decide (o' = o) then f (tasks w (GetNS ctx) o) else tasks w (GetNS ctx) o') →
     ∀ m, Φ w' (Ok (m, None))) →
  wp (UpdateObj (GetNS ctx) WfUserTasks o (mkUserTasks [])
        (λ msg, mret (msg <| ut_Id ::= f |>))) w Φ.
Proof.
  intros Hwf HΦ.
  apply (wp_UpdateObj NF _ _ _ _ (mkUserTasks (tasks w (GetNS ctx) o))
    (λ msg, msg <| ut_Id ::= f |>)).
  { unfold tasks. destruct (w_get w _ WfUserTasks o) as [d|] eqn:Hd; [|done].
    destruct (Hwf o d Hd) as [m ->]. by destruct m. }
  intros w' Hw'. apply HΦ.
  - intros ns b k Hb. rewrite Hw'. apply w_get_put_ne. congruence.
  - by rewrite Hw'.
  - intros o' d. rewrite Hw', w_get_put. case_decide; [|apply Hwf]. intros [= <-]. by eexists.
  - intros o'. unfold tasks at 1. rewrite Hw', w_get_put.
    destruct (decide (o' = o)) as [->|Hne]; [by rewrite decide_True|].
    rewrite decide_False by congruence. done.
Qed.

(** A loop that applies [f] to the list of each owner in turn. *)
Definition applied (f : list string → list string) (os : list string) (ns : string)
    (w w' : World) : Prop :=
  (∀ ns b k, b ≠ WfUserTasks → w_get w' ns b k = w_get w ns b k) ∧ w_out w' = w_out w ∧
  tasks_wf w' ns ∧
  ∀ o, tasks w' ns o = Nat.iter (length (filter (.= o) os)) f (tasks w ns o).

Lemma applied_nil f ns w : tasks_wf w ns → applied f [] ns w w.
Proof. by split. Qed.

Lemma applied_cons f o os ns w w1 w2 :
  (∀ ns b k, b ≠ WfUserTasks → w_get w1 ns b k = w_get w ns b k) → w_out w1 = w_out w →
  (∀ o', tasks w1 ns o' = if decide (o' = o) then f (tasks w ns o) else tasks w ns o') →
  applied f os ns w1 w2 → applied f (o :: os) ns w w2.
Proof.
  intros Hg1 Ho1 Ht1 (Hg2 & Ho2 & Hwf2 & Ht2). split; [|split; [congruence|split; [done|]]].
  - intros ns' b k Hb. by rewrite Hg2, Hg1.
  - intros o'. rewrite Ht2, Ht1, filter_cons.
    destruct (decide (o' = o)) as [->|Hne].
    + rewrite decide_True by done. simpl. by rewrite Nat.iter_swap.
    + rewrite decide_False by done. done.
Qed.

Lemma wp_open_loop ctx id os w Φ :
  tasks_wf w (GetNS ctx) →
  (∀ w', applied (λ l, l ++ [id]) os (GetNS ctx) w w' → Φ w' (Ok tt)) →
  wp (for_each os (λ i, wrapping (Wrap "open user task during publish workflow state")
                          (openUserTask ctx i id))) w Φ.
Proof.
  revert w. induction os as [|o os IH]; intros w Hwf HΦ; simpl.
  - apply wp_ret, HΦ. by apply applied_nil.
  - wp_steps. unfold openUserTask. wp_steps. apply wp_nsKVs; [done|]. intros w0 Hw0 _.
    wp_steps. unfold check. wp_steps. apply wp_update_tasks.
    { intros o' d. rewrite Hw0. apply Hwf. }
    intros w1 Hg1 Ho1 Hwf1 Ht1 m. simpl. wp_steps. apply IH; [done|].
    intros w2 Ha. apply HΦ. eapply applied_cons; [| | |exact Ha].
    + intros ns b k Hb. by rewrite Hg1, Hw0.
    + by rewrite Ho1, Hw0.
    + intros o'. rewrite Ht1. assert (∀ o, tasks w0 (GetNS ctx) o = tasks w (GetNS ctx) o) as Ht0
        by (intros; by rewrite Hw0). by rewrite !Ht0.
Qed.

Lemma wp_closeUserTask ctx id job w Φ :
  tasks_wf w (GetNS ctx) → w_get w (GetNS ctx) Job id = Some (DState job) →
  (∀ w', applied (λ l, remove l id) (ws_Owners job ++ ws_Groups job) (GetNS ctx) w w' →
     Φ w' (Ok tt)) →
  wp (closeUserTask ctx id) w Φ.
Proof.
  intros Hwf Hj HΦ. unfold closeUserTask. wp_steps. apply wp_nsKVs; [done|].
  intros w0 Hw0 _. wp_steps. eapply wp_LoadObj_some; [done|by rewrite Hw0|done|].
  intros w1 Hw1. wp_steps.
  assert (tasks_wf w1 (GetNS ctx)) as Hwf1 by (intros o d; rewrite Hw1, Hw0; apply Hwf).
  generalize (ws_Owners job ++ ws_Groups job), HΦ. intros os HΦ'. clear HΦ Hj.
  assert (∀ w', applied (λ l, remove l id) os (GetNS ctx) w1 w' → Φ w' (Ok tt)) as HΦ1.
  { intros w' (Hg & Ho & Hwf' & Ht). apply HΦ'. split; [|split; [|split; [done|]]].
    - intros ns b k Hb. by rewrite Hg, Hw1, Hw0.
    - by rewrite Ho, Hw1, Hw0.
    - intros o. by rewrite Ht, Hw1, Hw0. }
  clear HΦ' Hw1 Hw0 Hwf w w0. revert w1 Hwf1 HΦ1.
  induction os as [|o os IH]; intros w Hwf HΦ; simpl.
  - wp_steps. apply HΦ. by apply applied_nil.
  - wp_steps. apply (wp_update_tasks _ (λ l, remove l id)); [done|]. intros w1 Hg1 Ho1 Hwf1 Ht1 m. simpl. wp_steps.
    apply IH; [done|]. intros w2 Ha. apply HΦ. by eapply applied_cons.
Qed.
End publish_wp.

Lemma remove_replicate n l id :
  id ∉ l →
  Nat.iter n (λ l, remove l id) (Nat.iter n (λ l, l ++ [id]) l) = l.
Proof.
  intros Hn.
  assert (∀ m, Nat.iter m (λ l, l ++ [id]) l = l ++ replicate m id) as Hi.
  { induction m as [|m IHm]; simpl; [by rewrite app_nil_r|].
    rewrite IHm, <-app_assoc, <-(replicate_cons_app m id). done. }
  rewrite Hi. induction n as [|n IH]; [by rewrite app_nil_r|].
  rewrite Nat.iter_succ_r. simpl.
  assert (remove (l ++ id :: replicate n id) id = l ++ replicate n id) as ->; [|done].
  clear -Hn. induction l as [|x l IHl]; simpl.
  - by rewrite bool_decide_true.
  - apply not_elem_of_cons in Hn as [Hne Hn]. rewrite bool_decide_false by congruence.
    by rewrite IHl.
Qed.

(** Opening and closing a user task is a round trip: publishing a user task
    puts it on the list of each of its owners and groups, and closing it takes
    it off again, whoever is named how often, and no other list changes. *)
Theorem user_task_roundtrip `{EnvOk} ctx cid job w :
  NoFaults → ctx_Correlation ctx = Some cid → tasks_wf w (GetNS ctx) →
  (∀ o, TrackingID.ID (ws_Id job) ∉ tasks w (GetNS ctx) o) →
  (∃ j, w_get w (GetNS ctx) Job (TrackingID.ID (ws_Id job)) = Some (DState j) ∧
        ws_Owners j = ws_Owners job ∧ ws_Groups j = ws_Groups job) →
  let name := NS messages.WorkflowJobUserTaskExecute (GetNS ctx) in
  wp (PublishWorkflowState ctx name job []) w (returns (λ w1 _,
    (∀ o, o ∈ ws_Owners job ++ ws_Groups job →
          TrackingID.ID (ws_Id job) ∈ tasks w1 (GetNS ctx) o) ∧
    wp (closeUserTask ctx (TrackingID.ID (ws_Id job))) w1 (returns (λ w2 _,
      ∀ o, tasks w2 (GetNS ctx) o = tasks w (GetNS ctx) o)))).
Proof.
  intros NF Hc Hwf Hnew (j & Hj & HjO & HjG). simpl. set (id := TrackingID.ID (ws_Id job)) in *.
  unfold PublishWorkflowState. wp_steps.
  unfold header.FromCtxToMsgHeader. rewrite Hc. wp_steps.
  rewrite bool_decide_true by done. apply wp_open_loop; [done|done|].
  intros w1 (Hg & Ho & Hwf1 & Ht). wp_steps. split.
  - intros o Hin. rewrite Ht. change (tasks _ (GetNS ctx) o) with (tasks w (GetNS ctx) o).
    assert (0 < length (filter (.= o) (ws_Owners job ++ ws_Groups job))) as Hpos.
    { destruct (filter _ _) eqn:Hf; [|simpl; lia].
      assert (o ∈ ([] : list string)) as []%not_elem_of_nil.
      rewrite <-Hf. by apply list_elem_of_filter. }
    destruct (length _) as [|n]; [lia|]. simpl. set_solver.
  - apply (wp_closeUserTask NF _ _ j); [done|by rewrite Hg|].
    intros w2 (_ & _ & _ & Ht2). intros o. rewrite Ht2, Ht, HjO, HjG.
    apply remove_replicate, Hnew.
Qed.

Definition ex_ctx : Ctx := mkCtx None (Some "cid") ∅.

Definition ex_job : WorkflowState :=
  zero_state <| ws_Id := ["e"; "job"] |> <| ws_Owners := ["o1"; "o2"] |> <| ws_Groups := ["o1"] |>.

Definition ex_job_world : @World sim :=
  @w_put sim "default" Job "job" (DState ex_job) world_init.

Lemma user_task_roundtrip_witness :
  @wp sim _ (@PublishWorkflowState sim ex_ctx
      (NS messages.WorkflowJobUserTaskExecute "default") ex_job []) ex_job_world (returns (λ w1 _,
    (∀ o, o ∈ ["o1"; "o2"; "o1"] → "job" ∈ tasks w1 "default" o) ∧
    wp (closeUserTask ex_ctx "job") w1 (returns (λ w2 _,
      ∀ o, tasks w2 "default" o = tasks ex_job_world "default" o)))).
Proof.
  assert (∀ o, @w_get sim ex_job_world "default" WfUserTasks o = None) as Hnone.
  { intros o. unfold ex_job_world. rewrite w_get_put_ne by discriminate. apply w_get_init. }
  apply (@user_task_roundtrip sim (Sim_ok _ _ _) ex_ctx "cid" ex_job ex_job_world).
  - exact sim_NoFaults.
  - reflexivity.
  - intros o d. change (@w_get sim ex_job_world "default" WfUserTasks o = Some d → ∃ m, d = DUserTasks m).
    rewrite Hnone. discriminate.
  - intros o. unfold tasks. change (GetNS ex_ctx) with "default". rewrite Hnone.
    apply not_elem_of_nil.
  - exists ex_job. vm_compute. auto.
Defined.
