(* ===== verification/History.v ===== *)
(** * Process history

    [internal/server/workflow/history.go]: the history entries of a process
    instance, stored under the key [processInstance.tracking.type], and the
    queries over them.

    The abstract history [Hist] is a table by process instance, tracking id and
    entry type; [represents] says that a store holds it.  Recording refines the
    table's update, the single-entry query its lookup, and [GetActiveEntries]
    the query for entries that began and have not ended. *)
From S2P Require Import Prelude Model Errors Env Sim Common Wp NatsUtil Publish.

Local Open Scope string_scope.

(** Results sent down a channel, with the errors sent down the other. *)
Abbreviation Stream A := (list A * list error)%type.

Definition processHistoryTypeString (t : ProcessHistoryType) : string :=
  pretty (ProcessHistoryType_num t).

Definition historyKey (processInstanceID trackingID : string) (t : ProcessHistoryType) : string :=
  processInstanceID +:+ "." +:+ trackingID +:+ "." +:+ processHistoryTypeString t.

(** [strings.LastIndexByte(k, '.')], as the text before and after it. *)
Fixpoint LastDot (k : string) : option (string * string) :=
  match k with
  | EmptyString => None
  | String c k' =>
      match LastDot k' with
      | Some (a, b) => Some (String c a, b)
      | None => if bool_decide (c = "."%char) then Some ("", k') else None
      end
  end.

Section history.
Context `{Env}.

Definition historyEntry (state : WorkflowState) (historyType : ProcessHistoryType) :
    ProcessHistoryEntry :=
  mkProcessHistoryEntry historyType (Some (ws_WorkflowId state)) (Some (ws_ExecutionId state))
    (Some (ws_ElementId state)) (Some (ws_ElementName state)) (Some (ws_ProcessInstanceId state))
    (Some (ws_State state)) (ws_Vars state) (ws_Timer state) (ws_Error state)
    (ws_UnixTimeNano state) (ws_Execute state) (ws_Id state) false (ws_ProcessId state)
    (ws_SatisfiesGatewayExpectation state) (ws_GatewayExpectations state) (ws_WorkflowName state)
    (ws_PreviousActivity state) (ws_PreviousElement state).

Definition RecordHistory (ctx : Ctx) (state : WorkflowState) (historyType : ProcessHistoryType) :
    M unit :=
  _ ← nsKVs ctx;
  let trackingId := TrackingID.ID (ws_Id state) in
  let newId := historyKey (ws_ProcessInstanceId state) trackingId historyType in
  wrapping (λ err, ErrWorkflowFatal (Wrap "recording history" err) None)
    (SaveObj (GetNS ctx) WfHistory newId (historyEntry state historyType)).

Definition RecordHistoryProcessStart (ctx : Ctx) (state : WorkflowState) : M unit :=
  wrapping (Wrap "recordHistoryProcessStart") (RecordHistory ctx state processExecute).
Definition RecordHistoryActivityExecute (ctx : Ctx) (state : WorkflowState) : M unit :=
  wrapping (Wrap "recordHistoryActivityExecute") (RecordHistory ctx state activityExecute).
Definition RecordHistoryActivityComplete (ctx : Ctx) (state : WorkflowState) : M unit :=
  wrapping (Wrap "recordHistoryActivityComplete") (RecordHistory ctx state activityComplete).
Definition RecordHistoryJobExecute (ctx : Ctx) (state : WorkflowState) : M unit :=
  wrapping (Wrap "recordHistoryJobExecute") (RecordHistory ctx state jobExecute).
Definition RecordHistoryJobComplete (ctx : Ctx) (state : WorkflowState) : M unit :=
  wrapping (Wrap "recordHistoryJobComplete") (RecordHistory ctx state jobComplete).
Definition RecordHistoryJobAbort (ctx : Ctx) (state : WorkflowState) : M unit :=
  wrapping (Wrap "recordHistoryJobAbort") (RecordHistory ctx state jobAbort).
Definition RecordHistoryProcessComplete (ctx : Ctx) (state : WorkflowState) : M unit :=
  wrapping (Wrap "recordHistoryProcessComplete") (RecordHistory ctx state processComplete).
Definition RecordHistoryProcessSpawn (ctx : Ctx) (state : WorkflowState) : M unit :=
  wrapping (Wrap "recordHistoryProcessSpawn") (RecordHistory ctx state processSpawnSync).
Definition RecordHistoryProcessAbort (ctx : Ctx) (state : WorkflowState) : M unit :=
  wrapping (Wrap "recordHistoryProcessAbort") (RecordHistory ctx state processAbort).
Definition RecordHistoryCompensationCheckpoint (ctx : Ctx) (state : WorkflowState) : M unit :=
  wrapping (Wrap "recordHistoryCompensationCheckpoint")
    (RecordHistory ctx state compensationCheckpoint).

(** Send the stored entries of [keys] in order; the first failure ends it. *)
Fixpoint send_entries (ns : string) (keys : list string) : M (Stream ProcessHistoryEntry) :=
  match keys with
  | [] => mret ([], [])
  | key :: rest =>
      r ← attempt (LoadObj ProcessHistoryEntry ns WfHistory key);
      match r with
      | inr err => mret ([], [Wrap "get process history item" err])
      | inl entry => s ← send_entries ns rest; mret (entry :: s.1, s.2)
      end
  end.

Definition GetProcessHistory (ctx : Ctx) (processInstanceId : string) :
    M (Stream ProcessHistoryEntry) :=
  r ← attempt (nsKVs ctx);
  match r with
  | inr err => mret ([], [err])
  | inl _ =>
      keys ← attempt (KeyPrefixSearch (GetNS ctx) WfHistory processInstanceId
                        (mkKeyPrefixResultOpts true false));
      match keys with
      | inr err => mret ([], [Wrap "get process history" err])
      | inl keys => send_entries (GetNS ctx) keys
      end
  end.

Definition GetProcessHistoryItem (ctx : Ctx) (processInstanceID trackingID : string)
    (historyType : ProcessHistoryType) : M ProcessHistoryEntry :=
  _ ← wrapping (Wrap "get key value stores for namespace") (KvsFor (GetNS ctx));
  entry ← wrapping (Wrap "get history entry")
            (kvGet (GetNS ctx) WfHistory (historyKey processInstanceID trackingID historyType));
  match Unmarshal entry.1 with
  | Some ret => mret ret
  | None => throw (Wrap "unmarshal history entry" (New "proto"))
  end.

(** Whether the loop of [GetActiveEntries] loads the key: [None] where slicing
    before a missing dot panics. *)
Definition is_active_key (keys : gset string) (k : string) : option bool :=
  match LastDot k with
  | None => None
  | Some (entryId, state) =>
      if bool_decide (state = processHistoryTypeString activityExecute) then
        Some (negb (bool_decide (entryId +:+ "." +:+ processHistoryTypeString activityComplete ∈ keys))
              && negb (bool_decide (entryId +:+ "." +:+ processHistoryTypeString activityAbort ∈ keys)))
      else if bool_decide (state = processHistoryTypeString jobExecute) then
        Some (negb (bool_decide (entryId +:+ "." +:+ processHistoryTypeString jobComplete ∈ keys))
              && negb (bool_decide (entryId +:+ "." +:+ processHistoryTypeString jobAbort ∈ keys)))
      else Some false
  end.

Fixpoint send_active (ns : string) (keys : gset string) (l : list string) :
    M (Stream ProcessHistoryEntry) :=
  match l with
  | [] => mret ([], [])
  | k :: rest =>
      active ← deref "slice bounds out of range" (is_active_key keys k);
      if active : bool then
        r ← attempt (LoadObj ProcessHistoryEntry ns WfHistory k);
        match r with
        | inr err => mret ([], [Wrap "get process history item" err])
        | inl item => s ← send_active ns keys rest; mret (item :: s.1, s.2)
        end
      else send_active ns keys rest
  end.

Definition GetActiveEntries (ctx : Ctx) (processInstanceID : string) :
    M (Stream ProcessHistoryEntry) :=
  r ← attempt (KvsFor (GetNS ctx));
  match r with
  | inr err => mret ([], [Wrap "get kvs for namespace" err])
  | inl _ =>
      keys ← attempt (KeyPrefixSearchMap (GetNS ctx) WfHistory processInstanceID
                        (mkKeyPrefixResultOpts false false));
      match keys with
      | inr err => mret ([], [Wrap "key prefix search in history for processinstance ID" err])
      | inl keys =>
          l ← range (set_to_map (λ k, (k, tt)) keys : gmap string ());
          send_active (GetNS ctx) keys l.*1
      end
  end.
End history.

(** ** Effects *)
Section history_effects.
Context `{EnvOk} (ctx : Ctx) (T : Cells) `{!Lesser ctx T}.
Abbreviation within := (effect T (msg_ns (GetNS ctx))).

Lemma eff_RecordHistory st t : preserves within (RecordHistory ctx st t).
Proof. unfold RecordHistory. preserves_tac. Qed.
#[local] Hint Resolve eff_RecordHistory : preserves.

Lemma eff_RecordHistoryProcessStart st : preserves within (RecordHistoryProcessStart ctx st).
Proof. unfold RecordHistoryProcessStart. preserves_tac. Qed.
Lemma eff_RecordHistoryActivityExecute st :
  preserves within (RecordHistoryActivityExecute ctx st).
Proof. unfold RecordHistoryActivityExecute. preserves_tac. Qed.
Lemma eff_RecordHistoryActivityComplete st :
  preserves within (RecordHistoryActivityComplete ctx st).
Proof. unfold RecordHistoryActivityComplete. preserves_tac. Qed.
Lemma eff_RecordHistoryJobExecute st : preserves within (RecordHistoryJobExecute ctx st).
Proof. unfold RecordHistoryJobExecute. preserves_tac. Qed.
Lemma eff_RecordHistoryJobComplete st : preserves within (RecordHistoryJobComplete ctx st).
Proof. unfold RecordHistoryJobComplete. preserves_tac. Qed.
Lemma eff_RecordHistoryJobAbort st : preserves within (RecordHistoryJobAbort ctx st).
Proof. unfold RecordHistoryJobAbort. preserves_tac. Qed.
Lemma eff_RecordHistoryProcessComplete st :
  preserves within (RecordHistoryProcessComplete ctx st).
Proof. unfold RecordHistoryProcessComplete. preserves_tac. Qed.
Lemma eff_RecordHistoryProcessSpawn st : preserves within (RecordHistoryProcessSpawn ctx st).
Proof. unfold RecordHistoryProcessSpawn. preserves_tac. Qed.
Lemma eff_RecordHistoryProcessAbort st : preserves within (RecordHistoryProcessAbort ctx st).
Proof. unfold RecordHistoryProcessAbort. preserves_tac. Qed.
Lemma eff_RecordHistoryCompensationCheckpoint st :
  preserves within (RecordHistoryCompensationCheckpoint ctx st).
Proof. unfold RecordHistoryCompensationCheckpoint. preserves_tac. Qed.

Context (P : Msg → Prop).

Lemma eff_send_entries ns keys : preserves (effect T P) (send_entries ns keys).
Proof. induction keys as [|k keys IH]; simpl; preserves_tac. Qed.
#[local] Hint Resolve eff_send_entries : preserves.
Lemma eff_GetProcessHistory pid : preserves (effect T P) (GetProcessHistory ctx pid).
Proof. unfold GetProcessHistory. preserves_tac. Qed.
Lemma eff_GetProcessHistoryItem pid tid t :
  preserves (effect T P) (GetProcessHistoryItem ctx pid tid t).
Proof. unfold GetProcessHistoryItem. preserves_tac. Qed.
Lemma eff_send_active ns keys l : preserves (effect T P) (send_active ns keys l).
Proof. induction l as [|k l IH]; simpl; preserves_tac. Qed.
#[local] Hint Resolve eff_send_active : preserves.
Lemma eff_GetActiveEntries pid : preserves (effect T P) (GetActiveEntries ctx pid).
Proof. unfold GetActiveEntries. preserves_tac. Qed.
End history_effects.

#[export] Hint Resolve eff_RecordHistory eff_RecordHistoryProcessStart
  eff_RecordHistoryActivityExecute eff_RecordHistoryActivityComplete eff_RecordHistoryJobExecute
  eff_RecordHistoryJobComplete eff_RecordHistoryJobAbort eff_RecordHistoryProcessComplete
  eff_RecordHistoryProcessSpawn eff_RecordHistoryProcessAbort
  eff_RecordHistoryCompensationCheckpoint eff_send_entries eff_GetProcessHistory
  eff_GetProcessHistoryItem eff_GetActiveEntries : preserves.

(** ** Keys *)
Definition id_ok (s : string) : Prop := lacks "." s = true.

Lemma app_String (c : ascii) a b : String c a +:+ b = String c (a +:+ b).
Proof. done. Qed.

#[export] Instance processHistoryTypeString_inj : Inj (=) (=) processHistoryTypeString.
Proof. intros [] []; vm_compute; congruence. Qed.

Lemma processHistoryTypeString_lacks t : lacks "." (processHistoryTypeString t) = true.
Proof. by destruct t. Qed.

Lemma historyKey_split pid tid t :
  historyKey pid tid t = pid +:+ String "." (tid +:+ String "." (processHistoryTypeString t)).
Proof. done. Qed.

Lemma historyKey_inj pid tid t pid' tid' t' :
  id_ok pid → id_ok tid → id_ok pid' → id_ok tid' →
  historyKey pid tid t = historyKey pid' tid' t' → pid = pid' ∧ tid = tid' ∧ t = t'.
Proof.
  intros Hp Ht Hp' Ht'. rewrite !historyKey_split.
  intros [-> Hr]%lacks_app_inj; [|done|done]. apply lacks_app_inj in Hr as [-> Hr]; [|done|done].
  by apply (inj processHistoryTypeString) in Hr as ->.
Qed.

Lemma LastDot_lacks b : lacks "." b = true → LastDot b = None.
Proof.
  unfold lacks. induction b as [|c b IH]; simpl; [done|].
  intros [Hc Hb]%andb_true_iff. rewrite IH by done.
  apply negb_true_iff, bool_decide_eq_false in Hc. by rewrite bool_decide_false.
Qed.

Lemma LastDot_app a b : lacks "." b = true → LastDot (a +:+ String "." b) = Some (a, b).
Proof.
  intros Hb. induction a as [|c a IH].
  - change ("" +:+ String "." b) with (String "." b). simpl. by rewrite LastDot_lacks.
  - rewrite app_String. simpl. by rewrite IH.
Qed.

Lemma LastDot_historyKey pid tid t :
  LastDot (historyKey pid tid t) = Some (pid +:+ "." +:+ tid, processHistoryTypeString t).
Proof.
  rewrite historyKey_split.
  assert (pid +:+ String "." (tid +:+ String "." (processHistoryTypeString t)) =
    (pid +:+ "." +:+ tid) +:+ String "." (processHistoryTypeString t)) as ->.
  { by rewrite app_assoc_str. }
  apply LastDot_app, processHistoryTypeString_lacks.
Qed.

Lemma HasPrefix_key pid pid' rest :
  id_ok pid → id_ok pid' →
  HasPrefix (pid' +:+ String "." rest) (pid +:+ ".") = true ↔ pid = pid'.
Proof.
  intros Hp Hp'. unfold HasPrefix. change "." with (String "." ""). split.
  - revert pid' Hp Hp'. unfold id_ok, lacks. induction pid as [|c p IH]; intros [|c' p'] Hp Hp';
      rewrite ?app_String; cbn [String.prefix string_forall] in *.
    + done.
    + change ("" +:+ String "." "") with (String "." ""). cbn [String.prefix].
      apply andb_true_iff in Hp' as [Hc _]. apply negb_true_iff, bool_decide_eq_false in Hc.
      by destruct (ascii_dec "." c') as [<-|].
    + change ("" +:+ String "." rest) with (String "." rest). cbn [String.prefix].
      apply andb_true_iff in Hp as [Hc _]. apply negb_true_iff, bool_decide_eq_false in Hc.
      by destruct (ascii_dec c ".") as [->|].
    + apply andb_true_iff in Hp as [_ Hp]. apply andb_true_iff in Hp' as [_ Hp'].
      destruct (ascii_dec c c') as [->|]; [|done]. intros Hx. f_equal. by apply IH.
  - intros ->. clear. induction pid' as [|c p IH]; rewrite ?app_String.
    + change ("" +:+ String "." rest) with (String "." rest).
      change ("" +:+ String "." "") with (String "." ""). cbn [String.prefix].
      destruct (ascii_dec "." "."); [by destruct rest|done].
    + cbn [String.prefix]. destruct (ascii_dec c c); [done|congruence].
Qed.

(** ** The abstract history *)
Definition Hist : Type := string → string → ProcessHistoryType → option ProcessHistoryEntry.

Definition hist_insert (pid tid : string) (t : ProcessHistoryType) (e : ProcessHistoryEntry)
    (hs : Hist) : Hist :=
  λ pid' tid' t', if decide ((pid', tid', t') = (pid, tid, t)) then Some e else hs pid' tid' t'.

(** Begun and not ended. *)
Definition hist_active (hs : Hist) (pid tid : string) (t : ProcessHistoryType) : Prop :=
  (t = activityExecute ∧ hs pid tid activityComplete = None ∧ hs pid tid activityAbort = None) ∨
  (t = jobExecute ∧ hs pid tid jobComplete = None ∧ hs pid tid jobAbort = None).

Record represents `{Env} (w : World) (ns : string) (hs : Hist) : Prop := {
  rep_ids pid tid t e : hs pid tid t = Some e → id_ok pid ∧ id_ok tid;
  rep_get k d : w_get w ns WfHistory k = Some d ↔
    ∃ pid tid t e, hs pid tid t = Some e ∧ k = historyKey pid tid t ∧ d = DHistory e }.

Lemma rep_lookup `{Env} w ns hs pid tid t :
  represents w ns hs → id_ok pid → id_ok tid →
  w_get w ns WfHistory (historyKey pid tid t) = DHistory <$> hs pid tid t.
Proof.
  intros [Hids Hget] Hp Ht. apply option_eq. intros d. rewrite Hget, fmap_Some. split.
  - intros (pid' & tid' & t' & e & He & Hk & ->). destruct (Hids _ _ _ _ He) as [Hp' Ht'].
    apply historyKey_inj in Hk as (-> & -> & ->); eauto.
  - intros (e & He & ->). eauto 10.
Qed.

Lemma represents_insert `{EnvOk} w w' ns hs pid tid t e :
  represents w ns hs → id_ok pid → id_ok tid →
  w' ≡ w_put ns WfHistory (historyKey pid tid t) (DHistory e) w →
  represents w' ns (hist_insert pid tid t e hs).
Proof.
  intros [Hids Hget] Hp Ht Hw. unfold hist_insert. split.
  - intros pid' tid' t' e'. case_decide; [by intros; simplify_eq|apply Hids].
  - intros k d. rewrite Hw, w_get_put. destruct (decide (k = historyKey pid tid t)) as [->|Hne].
    + rewrite decide_True by done. split.
      * intros [= <-]. exists pid, tid, t, e. by rewrite decide_True.
      * intros (pid' & tid' & t' & e' & He & Hk & ->). case_decide; [congruence|].
        destruct (Hids _ _ _ _ He). by apply historyKey_inj in Hk as (-> & -> & ->).
    + rewrite decide_False by congruence. rewrite Hget. split.
      * intros (pid' & tid' & t' & e' & He & -> & ->). exists pid', tid', t', e'.
        rewrite decide_False; [done|]. intros [= -> -> ->]. done.
      * intros (pid' & tid' & t' & e' & He & -> & ->). case_decide; [simplify_eq|eauto 10].
Qed.

(** ** Refinement *)
Section history_wp.
Context `{EnvOk} (NF : NoFaults) (ctx : Ctx).
Abbreviation ns := (GetNS ctx).

Lemma wp_RecordHistory st t w Φ :
  (∀ w', w' ≡ w_put ns WfHistory
                (historyKey (ws_ProcessInstanceId st) (TrackingID.ID (ws_Id st)) t)
                (DHistory (historyEntry st t)) w → Φ w' (Ok tt)) →
  wp (RecordHistory ctx st t) w Φ.
Proof.
  intros HΦ. unfold RecordHistory. wp_steps. apply wp_nsKVs; [done|]. intros w0 Hw0 _.
  wp_steps. apply wp_SaveObj; [done|]. intros w1 Hw1. apply HΦ. by rewrite Hw1, Hw0.
Qed.

Lemma wp_GetProcessHistoryItem hs pid tid t w Φ :
  represents w ns hs → id_ok pid → id_ok tid →
  (∀ w', w' ≡ w →
     match hs pid tid t with
     | Some e => Φ w' (Ok e)
     | None => ∀ e, leaf e = Sentinel ErrKeyNotFound → Φ w' (Err e)
     end) →
  wp (GetProcessHistoryItem ctx pid tid t) w Φ.
Proof.
  intros Hr Hp Ht HΦ. unfold GetProcessHistoryItem. wp_steps. apply wp_KvsFor; [done|]. intros w0 Hw0 Hkv.
  wp_steps. apply wp_kvGet; [done|]. rewrite Hkv.
  pose proof (rep_lookup _ _ _ _ _ t Hr Hp Ht) as Hl.
  destruct (hs pid tid t) as [e|] eqn:He; simpl in Hl.
  - apply w_get_kv_get in Hl as [r ->]. wp_steps. simpl. wp_steps.
    specialize (HΦ (w_next w0)). apply HΦ. by rewrite w_next_equiv.
  - apply w_get_none in Hl as ->. specialize (HΦ (w_next w0)).
    apply HΦ; [by rewrite w_next_equiv|done].
Qed.

(** The store has no deleted entries of the process instance. *)
Definition live_history (w : World) (pid : string) : Prop :=
  ∀ k, k ∈ kv_subjects (w_kv w ns WfHistory) pid → is_Some (kv_get (w_kv w ns WfHistory) k).

Lemma subjects_spec hs w pid k :
  represents w ns hs → id_ok pid → live_history w pid →
  k ∈ kv_subjects (w_kv w ns WfHistory) pid ↔
  ∃ tid t e, hs pid tid t = Some e ∧ k = historyKey pid tid t.
Proof.
  intros Hr Hp Hlive. split.
  - intros Hk. pose proof (kv_subjects_prefix _ _ _ Hk) as Hpre.
    destruct (Hlive k Hk) as [[d r] Hg]. apply kv_get_w_get in Hg.
    apply (rep_get _ _ _ Hr) in Hg as (pid' & tid & t & e & He & -> & _).
    destruct (rep_ids _ _ _ Hr _ _ _ _ He) as [Hp' _].
    rewrite historyKey_split in Hpre. apply HasPrefix_key in Hpre as <-; eauto.
  - intros (tid & t & e & He & ->). apply kv_subjects_live.
    + destruct (w_get_kv_get w ns WfHistory (historyKey pid tid t) (DHistory e)) as [r ->]; eauto.
      apply (rep_get _ _ _ Hr). eauto 10.
    + rewrite historyKey_split. by apply HasPrefix_key.
    + rewrite historyKey_split. intros Heq. change "." with (String "." "") in Heq.
      apply lacks_app_inj in Heq as [_ Heq]; [|done|done]. by destruct tid.
Qed.

Lemma is_active_key_spec hs pid (keys : gset string) tid t e :
  (∀ k, k ∈ keys ↔ ∃ tid t e, hs pid tid t = Some e ∧ k = historyKey pid tid t) →
  (∀ pid tid t e, hs pid tid t = Some e → id_ok pid ∧ id_ok tid) →
  hs pid tid t = Some e →
  ∃ b : bool, is_active_key keys (historyKey pid tid t) = Some b ∧ (b = true ↔ hist_active hs pid tid t).
Proof.
  intros Hkeys Hids He. destruct (Hids _ _ _ _ He) as [Hp Ht].
  assert (∀ t', (pid +:+ "." +:+ tid) +:+ "." +:+ processHistoryTypeString t' ∈ keys ↔
    is_Some (hs pid tid t')) as Hin.
  { intros t'. assert ((pid +:+ "." +:+ tid) +:+ "." +:+ processHistoryTypeString t' =
      historyKey pid tid t') as ->. { unfold historyKey. by rewrite !app_assoc_str. }
    rewrite Hkeys. split; [|intros [e' He']; eauto 10].
    intros (tid' & t'' & e' & He' & Hk). destruct (Hids _ _ _ _ He').
    apply historyKey_inj in Hk as (_ & -> & ->); eauto. }
  unfold is_active_key. rewrite LastDot_historyKey. unfold hist_active.
  assert (∀ t', (hs pid tid t' = None ↔ negb (bool_decide
    ((pid +:+ "." +:+ tid) +:+ "." +:+ processHistoryTypeString t' ∈ keys)) = true)) as Hneg.
  { intros t'. rewrite negb_true_iff, bool_decide_eq_false, Hin, <-eq_None_not_Some. done. }
  destruct (decide (t = activityExecute)) as [->|Ha].
  { rewrite bool_decide_true by done. eexists. split; [done|].
    rewrite andb_true_iff, <-!Hneg. split; [naive_solver|]. by intros [(_ & ? & ?)|[? _]]. }
  rewrite bool_decide_false by (by intros ?%(inj processHistoryTypeString)).
  destruct (decide (t = jobExecute)) as [->|Hj].
  { rewrite bool_decide_true by done. eexists. split; [done|].
    rewrite andb_true_iff, <-!Hneg. split; [naive_solver|]. by intros [[? _]|(_ & ? & ?)]. }
  rewrite bool_decide_false by (by intros ?%(inj processHistoryTypeString)).
  exists false. split; [done|]. split; [done|]. by intros [[? _]|[? _]].
Qed.

Lemma wp_send_active hs pid (keys : gset string) l w Φ :
  represents w ns hs →
  (∀ k, k ∈ keys ↔ ∃ tid t e, hs pid tid t = Some e ∧ k = historyKey pid tid t) →
  (∀ k, k ∈ l → k ∈ keys) →
  (∀ w' s, w' ≡ w →
     (∀ e, e ∈ s ↔ ∃ tid t, hs pid tid t = Some e ∧ hist_active hs pid tid t ∧
                             historyKey pid tid t ∈ l) →
     Φ w' (Ok (s, []))) →
  wp (send_active ns keys l) w Φ.
Proof.
  revert w Φ. induction l as [|k l IH]; intros w Φ Hr Hkeys Hl HΦ; simpl.
  { wp_steps. apply HΦ; [done|]. set_solver. }
  destruct (proj1 (Hkeys k) (Hl k ltac:(by left))) as (tid & t & e & He & ->).
  pose proof (rep_ids _ _ _ Hr) as Hids. destruct (Hids _ _ _ _ He) as [Hp Ht].
  destruct (is_active_key_spec hs pid keys tid t e Hkeys Hids He) as (b & Hb & Hact).
  assert (∀ e' tid' t', hs pid tid' t' = Some e' → historyKey pid tid' t' = historyKey pid tid t →
    tid' = tid ∧ t' = t) as Huniq.
  { intros e' tid' t' He' Hk. destruct (Hids _ _ _ _ He') as [_ Ht'].
    by apply historyKey_inj in Hk as (_ & -> & ->). }
  wp_steps. rewrite Hb. destruct b.
  - wp_steps. apply (wp_LoadObj_some NF _ _ _ (DHistory e) e); [|done|].
    { apply (rep_get _ _ _ Hr). eauto 10. }
    intros w1 Hw1. wp_steps. apply IH; [|done|set_solver|].
    { split; [apply Hids|]. intros k d. rewrite Hw1. apply (rep_get _ _ _ Hr). }
    intros w2 s Hw2 Hs. wp_steps. simpl. apply HΦ; [by rewrite Hw2, Hw1|].
    intros e'. rewrite elem_of_cons, Hs. setoid_rewrite elem_of_cons. split.
    + intros [->|(tid' & t' & ? & ? & ?)]; [|eauto 10]. exists tid, t. naive_solver.
    + intros (tid' & t' & He' & Ha' & [Hk|Hk]); [|eauto 10].
      destruct (Huniq _ _ _ He' Hk) as [-> ->]. left. congruence.
  - apply IH; [done|done|set_solver|]. intros w2 s Hw2 Hs. apply HΦ; [done|].
    intros e'. rewrite Hs. setoid_rewrite elem_of_cons. split; [naive_solver|].
    intros (tid' & t' & He' & Ha' & [Hk|Hk]); [|eauto 10].
    destruct (Huniq _ _ _ He' Hk) as [-> ->]. by apply Hact in Ha'.
Qed.
End history_wp.

(** (C22) Recording an entry refines the table's update: afterwards the query for
    any entry answers from the updated table, an absent one with an error that
    ends in [ErrKeyNotFound]. *)
Theorem RecordHistory_refines `{EnvOk} ctx hs st t w :
  NoFaults → represents w (GetNS ctx) hs →
  id_ok (ws_ProcessInstanceId st) → id_ok (TrackingID.ID (ws_Id st)) →
  let hs' := hist_insert (ws_ProcessInstanceId st) (TrackingID.ID (ws_Id st)) t
               (historyEntry st t) hs in
  wp (RecordHistory ctx st t) w (returns (λ w1 _,
    represents w1 (GetNS ctx) hs' ∧
    ∀ pid tid t', id_ok pid → id_ok tid →
      wp (GetProcessHistoryItem ctx pid tid t') w1 (λ w2 r, w2 ≡ w1 ∧
        match hs' pid tid t' with
        | Some e => r = Ok e
        | None => ∃ e, r = Err e ∧ leaf e = Sentinel ErrKeyNotFound
        end))).
Proof.
  intros NF Hr Hp Ht. simpl. apply wp_RecordHistory; [done|]. intros w1 Hw1. simpl.
  assert (represents w1 (GetNS ctx) (hist_insert (ws_ProcessInstanceId st)
    (TrackingID.ID (ws_Id st)) t (historyEntry st t) hs)) as Hr1 by (by eapply represents_insert).
  split; [done|]. intros pid tid t' Hp' Ht'. eapply wp_GetProcessHistoryItem; [done..|].
  intros w2 Hw2. destruct (hist_insert _ _ _ _ _ _ _ _); eauto.
Qed.

(** (C21) [GetActiveEntries] returns exactly the activities and jobs of the process
    instance that began and have neither completed nor been aborted. *)
Theorem GetActiveEntries_refines `{EnvOk} ctx hs pid w :
  NoFaults → represents w (GetNS ctx) hs → id_ok pid → live_history ctx w pid →
  wp (GetActiveEntries ctx pid) w (returns (λ w' s, w' ≡ w ∧ s.2 = [] ∧
    ∀ e, e ∈ s.1 ↔ ∃ tid t, hs pid tid t = Some e ∧ hist_active hs pid tid t)).
Proof.
  intros NF Hr Hp Hlive. unfold GetActiveEntries. wp_steps. apply wp_KvsFor; [done|].
  intros w0 Hw0 Hkv. wp_steps. unfold KeyPrefixSearchMap. wp_steps.
  unfold kvSubjects. apply wp_nats; [done|]. simpl. wp_steps.
  change (w_kv (w_next w0)) with (w_kv w0). rewrite Hkv.
  set (keys := list_to_set _ : gset string).
  assert (∀ k, k ∈ keys ↔ ∃ tid t e, hs pid tid t = Some e ∧ k = historyKey pid tid t) as Hkeys.
  { intros k. unfold keys. rewrite elem_of_list_to_set. by apply subjects_spec. }
  apply wp_range. intros l Hl0. wp_steps.
  assert (∀ k, k ∈ l.*1 ↔ k ∈ keys) as Hl.
  { intros k. rewrite Hl0, list_elem_of_fmap. split.
    - intros ([k' []] & -> & Hin). apply elem_of_map_to_list, lookup_set_to_map in Hin as (k & Hk & Heq).
      + by simplify_eq.
      + intros ? ? _ _. simpl. done.
    - intros Hk. exists (k, tt). rewrite elem_of_map_to_list. split; [done|].
      apply lookup_set_to_map; [by intros ? ? _ _|]. eauto. }
  apply (wp_send_active NF ctx hs pid); [|done|set_solver|].
  { split; [apply (rep_ids _ _ _ Hr)|]. intros k d. rewrite !w_next_equiv, Hw0.
    apply (rep_get _ _ _ Hr). }
  intros w2 s Hw2 Hs. simpl. split; [by rewrite Hw2, !w_next_equiv, Hw0|]. split; [done|].
  intros e. rewrite Hs. split; [naive_solver|]. intros (tid & t & He & Ha).
  exists tid, t. split; [done|]. split; [done|]. apply Hl, Hkeys. eauto.
Qed.

(** ** Examples *)
Definition ex_state : WorkflowState :=
  zero_state <| ws_ProcessInstanceId := "p" |> <| ws_Id := ["e"; "a"] |>.

Lemma represents_init `{EnvOk} ns : represents world_init ns (λ _ _ _, None).
Proof.
  split; [done|]. intros k d. rewrite w_get_init. split; [done|]. by intros (? & ? & ? & ? & ? & _).
Qed.

Lemma RecordHistory_refines_witness :
  let hs' := hist_insert "p" "a" activityExecute (historyEntry ex_state activityExecute)
               (λ _ _ _, None) in
  @wp sim _ (RecordHistory ex_ctx ex_state activityExecute) world_init (returns (λ w1 _,
    represents w1 "default" hs' ∧
    ∀ pid tid t', id_ok pid → id_ok tid →
      wp (GetProcessHistoryItem ex_ctx pid tid t') w1 (λ w2 r, w2 ≡ w1 ∧
        match hs' pid tid t' with
        | Some e => r = Ok e
        | None => ∃ e, r = Err e ∧ leaf e = Sentinel ErrKeyNotFound
        end))).
Proof.
  apply (@RecordHistory_refines sim (Sim_ok _ _ _) ex_ctx (λ _ _ _, None) ex_state activityExecute
    world_init).
  - exact sim_NoFaults.
  - apply represents_init.
  - reflexivity.
  - reflexivity.
Defined.

(** An activity that runs, and a job of it that has completed. *)
Definition ex_entry : ProcessHistoryEntry := historyEntry ex_state activityExecute.

Definition ex_history : @World sim :=
  @w_put sim "default" WfHistory (historyKey "p" "j" jobComplete) (DHistory ex_entry)
    (@w_put sim "default" WfHistory (historyKey "p" "j" jobExecute) (DHistory ex_entry)
      (@w_put sim "default" WfHistory (historyKey "p" "a" activityExecute) (DHistory ex_entry)
        world_init)).

Definition ex_hist : Hist :=
  hist_insert "p" "j" jobComplete ex_entry (hist_insert "p" "j" jobExecute ex_entry
    (hist_insert "p" "a" activityExecute ex_entry (λ _ _ _, None))).

Lemma ex_represents : represents ex_history "default" ex_hist.
Proof.
  unfold ex_history, ex_hist. eapply represents_insert; [|reflexivity..]. eapply represents_insert; [|reflexivity..].
  eapply represents_insert; [|reflexivity..]. apply represents_init.
Qed.

Lemma GetActiveEntries_refines_witness :
  @wp sim _ (GetActiveEntries ex_ctx "p") ex_history (returns (λ w' s, w' ≡ ex_history ∧ s.2 = [] ∧
    ∀ e, e ∈ s.1 ↔ ∃ tid t, ex_hist "p" tid t = Some e ∧ hist_active ex_hist "p" tid t)).
Proof.
  apply (@GetActiveEntries_refines sim (Sim_ok _ _ _) ex_ctx ex_hist "p" ex_history).
  - exact sim_NoFaults.
  - exact ex_represents.
  - reflexivity.
  - intros k Hk. apply (proj1 (Forall_forall (λ k, is_Some (kv_get
      (@w_kv sim ex_history "default" WfHistory) k)) _)) with (2 := Hk).
    apply (bool_decide_unpack _). vm_compute. exact I.
Defined.
