(* ===== verification/Instances.v ===== *)
(** * Workflows, executions, process instances and jobs

    The records of [internal/server/workflow/operations.go]: reading workflow
    definitions, creating and destroying executions and process instances,
    storing jobs, and the checks the message handlers start with. *)
From S2P Require Import Prelude Model Errors Env Sim Common Wp NatsUtil Publish History.


Section instances.
Context `{Env}.

(** ** Workflow definitions *)
Definition GetWorkflow (ctx : Ctx) (workflowID : string) : M Workflow :=
  wrapping (Wrap "error caching GetWorkflow") (Cacheable workflowID (
    _ ← nsKVs ctx;
    r ← attempt (LoadObj Workflow (GetNS ctx) Wf workflowID);
    match r with
    | inl wf => mret wf
    | inr err =>
        if Is err ErrKeyNotFound
        then throw (Wrap "get workflow failed to load object" (Sentinel ErrWorkflowNotFound))
        else throw (Wrap "load workflow from KV" err)
    end)).

Definition getWorkflowNameFor (ctx : Ctx) (processId : string) : M string :=
  _ ← nsKVs ctx;
  r ← attempt (Load (GetNS ctx) WfProcess processId);
  match r with
  | inl (DBytes name) => mret name
  | inl _ => panic "workflow name is not text"
  | inr err =>
      if Is err ErrKeyNotFound
      then throw (Wrap "get workflow name for process" (Sentinel ErrProcessNotFound))
      else throw (Wrap "load workflow name for process" err)
  end.

Definition getWorkflowVersions (ctx : Ctx) (workflowName : string) : M WorkflowVersions :=
  _ ← nsKVs ctx;
  r ← attempt (LoadObj WorkflowVersions (GetNS ctx) WfVersion workflowName);
  match r with
  | inl v => mret v
  | inr err =>
      if Is err ErrKeyNotFound
      then throw (Wrap "get latest workflow version" (Sentinel ErrWorkflowNotFound))
      else throw (Wrap "load object whist getting latest versiony" err)
  end.

Definition StreamWorkflowVersions (ctx : Ctx) (workflowName : string) : M (Stream WorkflowVersion) :=
  k ← attempt (nsKVs ctx);
  match k with
  | inr err => mret ([], [err])
  | inl _ =>
      r ← attempt (LoadObj WorkflowVersions (GetNS ctx) WfVersion workflowName);
      mret match r with
           | inl ver => (wvs_Version ver, [])
           | inr err =>
               if Is err ErrKeyNotFound
               then ([], [Wrap "load object" (Sentinel ErrWorkflowVersionNotFound)])
               else ([], [Wrap "load workflow from KV" err])
           end
  end.

(** A load that failed for another reason than a missing key leaves the empty
    workflow behind. *)
Definition getElement (ctx : Ctx) (state : WorkflowState) : M Element :=
  _ ← nsKVs ctx;
  r ← attempt (LoadObj Workflow (GetNS ctx) Wf (ws_WorkflowId state));
  wf ← match r with
       | inl wf => mret wf
       | inr err =>
           if Is err ErrKeyNotFound then throw (Wrap "load object during get element" err)
           else mret zero
       end;
  els ← ElementTable wf;
  match els !! ws_ElementId state with
  | Some el => mret el
  | None => throw (Wrap "get element failed to locate" (Sentinel ErrElementNotFound))
  end.

(** ** Executions *)
Definition GetExecution (ctx : Ctx) (executionID : string) : M Execution :=
  _ ← nsKVs ctx;
  r ← attempt (LoadObj Execution (GetNS ctx) WfExecution executionID);
  match r with
  | inl e => mret e
  | inr err =>
      if Is err ErrKeyNotFound
      then throw (Wrap "get execution failed to load object" (Sentinel ErrExecutionNotFound))
      else throw (Wrap "load execution from KV" err)
  end.

(** [setup.EnsureBucket] for a message's transmit bucket, which no operation
    modelled here reads. *)
Definition EnsureBucket (name : string) : M unit := nats (λ w, (w, Ok tt)).

Definition createExecution (ctx : Ctx) (execution : Execution) : M Execution :=
  executionID ← newId;
  let execution := execution <| ex_ExecutionId := executionID |> <| ex_ProcessInstanceId := [] |> in
  _ ← nsKVs ctx;
  wf ← attempt (GetWorkflow ctx (ex_WorkflowId execution));
  _ ← wrapping (Wrap "save execution object to KV")
        (SaveObj (GetNS ctx) WfExecution executionID execution);
  match wf with
  | inr err => throw (Wrap "get workflow object from KV" err)
  | inl wf =>
      _ ← for_each (wf_Messages wf) (λ m,
            wrapping (Wrap "ensuring bucket")
              (EnsureBucket (NS "MsgTx_%s_" (GetNS ctx) +:+ el_Name m)));
      mret execution
  end.

Definition ListExecutionProcesses (ctx : Ctx) (id : string) : M (list string) :=
  _ ← nsKVs ctx;
  v ← wrapping (Wrap "load execution from KV") (LoadObj Execution (GetNS ctx) WfExecution id);
  mret (ex_ProcessInstanceId v).

Definition hasValidExecution (ctx : Ctx) (executionId : string) : M Execution :=
  r ← attempt (GetExecution ctx executionId);
  match r with
  | inl execution => mret execution
  | inr err => if Is err ErrExecutionNotFound then throw (Wrap "orphaned activity" err) else throw err
  end.

(** A delete that finds no key is no error. *)
Definition delete_ignoring (msg : string) (ns : string) (b : Bucket) (k : string) : M unit :=
  r ← attempt (kvDelete ns b k);
  match r with
  | inl _ => mret tt
  | inr err => if Is err ErrKeyNotFound then mret tt else throw (Wrap msg err)
  end.

Definition deleteExecution (ctx : Ctx) (state : WorkflowState) : M unit :=
  _ ← nsKVs ctx;
  _ ← delete_ignoring "delete workflow instance" (GetNS ctx) WfExecution (ws_ExecutionId state);
  _ ← delete_ignoring "delete workflow tracking" (GetNS ctx) WfTracking (ws_ExecutionId state);
  _ ← wrapping (Wrap "send workflow terminate message")
        (PublishWorkflowState ctx messages.ExecutionTerminated state []);
  mret tt.

(** ** Process instances *)
Definition GetProcessInstance (ctx : Ctx) (processInstanceID : string) : M ProcessInstance :=
  _ ← nsKVs ctx;
  r ← attempt (LoadObj ProcessInstance (GetNS ctx) WfProcessInstance processInstanceID);
  match r with
  | inl pi => mret pi
  | inr err =>
      if Is err ErrKeyNotFound
      then throw (Wrap "get process instance failed to load instance"
                    (Sentinel ErrProcessInstanceNotFound))
      else throw (Wrap "get process instance failed to load instance" err)
  end.

Definition hasValidProcess (ctx : Ctx) (processInstanceId executionId : string) :
    M (ProcessInstance * Execution) :=
  execution ← hasValidExecution ctx executionId;
  r ← attempt (GetProcessInstance ctx processInstanceId);
  match r with
  | inl pi => mret (pi, execution)
  | inr err =>
      if Is err ErrProcessInstanceNotFound then throw (Wrap "orphaned activity" err) else throw err
  end.

Definition createProcessInstance (ctx : Ctx) (executionId parentProcessID parentElementID
    processId workflowName workflowId : string) (headers : bytes) : M ProcessInstance :=
  id ← newId;
  _ ← nsKVs ctx;
  wfi ← wrapping (Wrap "create process instance failed to get workflow") (GetExecution ctx executionId);
  let pi := mkProcessInstance id executionId (Some parentProcessID) (Some parentElementID)
              workflowId workflowName processId ∅ headers in
  _ ← wrapping (Wrap "create process instance failed to save process instance")
        (SaveObj (GetNS ctx) WfProcessInstance id pi);
  _ ← wrapping (Wrap "create process instance failed to update workflow instance")
        (check (UpdateObj (GetNS ctx) WfExecution executionId wfi
                  (λ v, mret (v <| ex_ProcessInstanceId ::= λ l, l ++ [id] |>))));
  mret pi.

(** The execution goes with its last process instance; its error, if the update
    had one, is looked at after that. *)
Definition destroyProcessInstance (ctx : Ctx) (state : WorkflowState)
    (processInstanceId executionId : string) : M unit :=
  _ ← nsKVs ctx;
  r ← UpdateObj (GetNS ctx) WfExecution executionId (zero : Execution)
        (λ v, mret (v <| ex_ProcessInstanceId ::= λ l, remove l processInstanceId |>));
  let e := r.1 in
  _ ← (if bool_decide (ex_ProcessInstanceId e = []) then
         wrapping (Wrap "destroy process instance delete execution")
           (Delete (GetNS ctx) WfExecution executionId)
       else mret tt);
  _ ← match r.2 with
      | Some err => throw (Wrap "destroy process instance failed to update execution" err)
      | None => mret tt
      end;
  _ ← wrapping (Wrap "destroy process instance failed to delete process instance")
        (Delete (GetNS ctx) WfProcessInstance processInstanceId);
  state ← wrapping (Wrap "destroy process instance failed initiaite completing workflow instance")
            (PublishWorkflowState ctx messages.WorkflowProcessTerminated state []);
  if bool_decide (ex_ProcessInstanceId e = []) then
    _ ← wrapping (Wrap "destroy process instance failed initiaite completing workflow instance")
          (PublishWorkflowState ctx messages.WorkflowExecutionComplete state []);
    mret tt
  else mret tt.

Definition xDestroyProcessInstance (ctx : Ctx) (state : WorkflowState) : M unit :=
  _ ← nsKVs ctx;
  execution ← wrapping (Wrap "x destroy process instance, get execution")
                (GetExecution ctx (ws_ExecutionId state));
  r ← attempt (GetProcessInstance ctx (ws_ProcessInstanceId state));
  match r with
  | inr err =>
      if IsNotFound err then mret tt
      else throw (Wrap "x destroy process instance, get process instance" err)
  | inl pi =>
      _ ← wrapping (Wrap "x destroy process instance, kill process instance")
            (destroyProcessInstance ctx state (pi_ProcessInstanceId pi) (ex_ExecutionId execution));
      _ ← (if bool_decide (ex_WorkflowId execution = "") then mret (inl zero)
           else attempt (LoadObj Workflow (GetNS ctx) Wf (ex_WorkflowId execution)));
      let tState := match ws_Error state with
                    | Some _ => state <| ws_State := errored |>
                    | None => state
                    end in
      wrapping (Wrap "delete workflow state whilst destroying execution") (deleteExecution ctx tState)
  end.

Definition CancelProcessInstance (ctx : Ctx) (state : WorkflowState) : M unit :=
  if bool_decide (ws_State state = executing)
  then throw (Wrap "executing is an invalid cancellation state" (Sentinel ErrInvalidState))
  else wrapping (λ _, Wrap "cancel workflow instance failed" (Sentinel ErrCancelFailed))
         (xDestroyProcessInstance ctx state).

(** ** Jobs *)
Definition createJob (ctx : Ctx) (job : WorkflowState) : M (string * WorkflowState) :=
  _ ← nsKVs ctx;
  tid ← newId;
  let job := job <| ws_Id ::= λ id, TrackingID.Push id tid |> in
  _ ← wrapping (Wrap "save job to KV") (SaveObj (GetNS ctx) Job tid job);
  mret (tid, job).

Definition GetJob (ctx : Ctx) (trackingID : string) : M WorkflowState :=
  _ ← nsKVs ctx;
  r ← attempt (LoadObj WorkflowState (GetNS ctx) Job trackingID);
  match r with
  | inl job => mret job
  | inr err =>
      if Is err ErrKeyNotFound
      then throw (Wrap "get job failed to load workflow object" (Sentinel ErrJobNotFound))
      else throw (Wrap "load job from KV" err)
  end.

Definition DeleteJob (ctx : Ctx) (trackingID : string) : M unit :=
  _ ← nsKVs ctx;
  wrapping (Wrap "delete job") (Delete (GetNS ctx) Job trackingID).

(** ** Fatal errors *)
Definition fatalErrorKey (workFlowName workflowId executionId processInstanceId elementId : string) :
    string :=
  Join "." [workFlowName; workflowId; executionId; processInstanceId; elementId].

Definition state_fatalErrorKey (state : WorkflowState) : string :=
  fatalErrorKey (ws_WorkflowName state) (ws_WorkflowId state) (ws_ExecutionId state)
    (ws_ProcessInstanceId state) (ws_ElementId state).

Definition PersistFatalError (ctx : Ctx) (fatalError : FatalError) : M bool :=
  _ ← wrapping (Wrap "persistFatalError get KVs for ns") (KvsFor (GetNS ctx));
  _ ← wrapping (Wrap "save fatal error")
        (SaveObj (GetNS ctx) WfFatalError (state_fatalErrorKey (fe_WorkflowState fatalError)) fatalError);
  mret true.

Definition RetryActivity (ctx : Ctx) (state : WorkflowState) : M unit :=
  _ ← wrapping (Wrap "get kvs for fatal errors") (KvsFor (GetNS ctx));
  fatalErr ← wrapping (Wrap "unable to find fatal errored workflow to retry")
               (LoadObj FatalError (GetNS ctx) WfFatalError (state_fatalErrorKey state));
  let st := fe_WorkflowState fatalErr <| ws_Vars := ws_Vars state |> in
  _ ← wrapping (Wrap "failed publishing to job retry")
        (PublishWorkflowState ctx (NS messages.WorkflowJobRetry (GetNS ctx)) st []);
  mret tt.

Definition DeleteFatalError (ctx : Ctx) (state : WorkflowState) : M unit :=
  _ ← wrapping (Wrap "get kvs for delete fatal error") (KvsFor (GetNS ctx));
  wrapping (Wrap "delete fatal error") (Delete (GetNS ctx) WfFatalError (state_fatalErrorKey state)).

Fixpoint send_fatal (ns : string) (keys : list string) : M (Stream FatalError) :=
  match keys with
  | [] => mret ([], [])
  | k :: rest =>
      r ← attempt (LoadObj FatalError ns WfFatalError k);
      match r with
      | inr err => mret ([], [Wrap "load fatal errors" err])
      | inl fe => s ← send_fatal ns rest; mret (fe :: s.1, s.2)
      end
  end.

Definition GetFatalErrors (ctx : Ctx) (keyPrefix : string) : M (Stream FatalError) :=
  k ← attempt (KvsFor (GetNS ctx));
  match k with
  | inr err => mret ([], [Wrap "get kvs for fatal errors" err])
  | inl _ =>
      ks ← attempt (KeyPrefixSearch (GetNS ctx) WfFatalError keyPrefix (mkKeyPrefixResultOpts true true));
      match ks with
      | inr err => mret ([], [Wrap "get fatal errors" err])
      | inl ks => send_fatal (GetNS ctx) ks
      end
  end.

(** The process instances of the execution are destroyed one by one, failures
    logged; the state's terminated flag stays set from the first on. *)
Definition tearDownWorkflow (ctx : Ctx) (state : WorkflowState) : M bool :=
  state ← (if bool_decide (ws_ElementType state = element.ServiceTask ∨
                           ws_ElementType state = element.MessageIntermediateCatchEvent) then
             wrapping (Wrap "publish abort task for handle fatal workflow error")
               (PublishWorkflowState ctx messages.WorkflowJobServiceTaskAbort state [])
           else mret state);
  execution ← wrapping (Wrap "error retrieving execution when processing fatal err")
                (GetExecution ctx (ws_ExecutionId state));
  _ ← for_each (ex_ProcessInstanceId execution) (λ processInstanceId,
        _ ← attempt (destroyProcessInstance ctx (state <| ws_State := terminated |>)
                       processInstanceId (ex_ExecutionId execution));
        mret tt);
  mret true.

(** ** Switching workflows on and off *)
Definition makeExecutable (ctx : Ctx) (workflowName : string) (isExecutionDisabled : bool) : M unit :=
  _ ← wrapping (Wrap "get kvs for makeExecutable") (KvsFor (GetNS ctx));
  _ ← wrapping (Wrap "set makeExecutable")
        (check (UpdateObj (GetNS ctx) WfVersion workflowName (zero : WorkflowVersions)
                  (λ v, mret (v <| wvs_IsExecutionDisabled := isExecutionDisabled |>))));
  mret tt.

Definition DisableWorkflow (ctx : Ctx) (workflowName : string) : M unit :=
  makeExecutable ctx workflowName true.
Definition EnableWorkflow (ctx : Ctx) (workflowName : string) : M unit :=
  makeExecutable ctx workflowName false.

(** ** Clients *)
Definition Heartbeat (ctx : Ctx) (req : HeartbeatRequest) : M unit :=
  _ ← nsKVs ctx;
  wrapping (Wrap "heartbeat write to kv")
    (SaveObj (GetNS ctx) WfClients (hb_Host req +:+ "-" +:+ hb_Id req) req).
End instances.

(** ** Effects *)
Section instances_reads.
Context `{EnvOk} (ctx : Ctx) (T : Cells) (P : Msg → Prop).

Lemma eff_GetWorkflow id : preserves (effect T P) (GetWorkflow ctx id).
Proof.
  unfold GetWorkflow. apply preserves_wrapping, eff_Cacheable. preserves_tac.
Qed.
Lemma eff_getWorkflowNameFor p : preserves (effect T P) (getWorkflowNameFor ctx p).
Proof. unfold getWorkflowNameFor. preserves_tac. Qed.
Lemma eff_getWorkflowVersions n : preserves (effect T P) (getWorkflowVersions ctx n).
Proof. unfold getWorkflowVersions. preserves_tac. Qed.
Lemma eff_StreamWorkflowVersions n : preserves (effect T P) (StreamWorkflowVersions ctx n).
Proof. unfold StreamWorkflowVersions. preserves_tac. Qed.
Lemma eff_getElement st : preserves (effect T P) (getElement ctx st).
Proof. unfold getElement. preserves_tac. Qed.
Lemma eff_GetExecution id : preserves (effect T P) (GetExecution ctx id).
Proof. unfold GetExecution. preserves_tac. Qed.
Lemma eff_ListExecutionProcesses id : preserves (effect T P) (ListExecutionProcesses ctx id).
Proof. unfold ListExecutionProcesses. preserves_tac. Qed.
#[local] Hint Resolve eff_GetExecution : preserves.
Lemma eff_hasValidExecution id : preserves (effect T P) (hasValidExecution ctx id).
Proof. unfold hasValidExecution. preserves_tac. Qed.
Lemma eff_GetProcessInstance id : preserves (effect T P) (GetProcessInstance ctx id).
Proof. unfold GetProcessInstance. preserves_tac. Qed.
#[local] Hint Resolve eff_hasValidExecution eff_GetProcessInstance : preserves.
Lemma eff_hasValidProcess p e : preserves (effect T P) (hasValidProcess ctx p e).
Proof. unfold hasValidProcess. preserves_tac. Qed.
Lemma eff_GetJob id : preserves (effect T P) (GetJob ctx id).
Proof. unfold GetJob. preserves_tac. Qed.
Lemma eff_EnsureBucket n : preserves (effect T P) (EnsureBucket n).
Proof.
  apply effect_intro; [by apply preserves_nats; [apply _|..]|by apply emits_quiet].
Qed.
Lemma eff_send_fatal ns ks : preserves (effect T P) (send_fatal ns ks).
Proof. induction ks as [|k ks IH]; simpl; preserves_tac. Qed.
#[local] Hint Resolve eff_send_fatal : preserves.
Lemma eff_GetFatalErrors p : preserves (effect T P) (GetFatalErrors ctx p).
Proof. unfold GetFatalErrors. preserves_tac. Qed.
Lemma eff_delete_ignoring m ns b k : T ns b k → preserves (effect T P) (delete_ignoring m ns b k).
Proof. intros. unfold delete_ignoring. preserves_tac. Qed.
End instances_reads.

#[export] Hint Resolve eff_GetWorkflow eff_getWorkflowNameFor eff_getWorkflowVersions
  eff_StreamWorkflowVersions eff_getElement eff_GetExecution eff_ListExecutionProcesses
  eff_hasValidExecution eff_GetProcessInstance eff_hasValidProcess eff_GetJob eff_EnsureBucket
  eff_GetFatalErrors eff_delete_ignoring : preserves.

Section instances_effects.
Context `{EnvOk} (ctx : Ctx) (T : Cells) `{!Lesser ctx T}.
Abbreviation within := (effect T (msg_ns (GetNS ctx))).

Lemma eff_createJob job : preserves within (createJob ctx job).
Proof. unfold createJob. preserves_tac. Qed.
Lemma eff_DeleteJob id : preserves within (DeleteJob ctx id).
Proof. unfold DeleteJob. preserves_tac. Qed.
Lemma eff_PersistFatalError fe : preserves within (PersistFatalError ctx fe).
Proof. unfold PersistFatalError. preserves_tac. Qed.
Lemma eff_RetryActivity st : preserves within (RetryActivity ctx st).
Proof. unfold RetryActivity. preserves_tac. Qed.
Lemma eff_DeleteFatalError st : preserves within (DeleteFatalError ctx st).
Proof. unfold DeleteFatalError. preserves_tac. Qed.
Lemma eff_makeExecutable n b : preserves within (makeExecutable ctx n b).
Proof. unfold makeExecutable. preserves_tac. Qed.
Lemma eff_Heartbeat r : preserves within (Heartbeat ctx r).
Proof. unfold Heartbeat. preserves_tac. Qed.
End instances_effects.

#[export] Hint Resolve eff_createJob eff_DeleteJob eff_PersistFatalError eff_RetryActivity
  eff_DeleteFatalError eff_makeExecutable eff_Heartbeat : preserves.

Section instances_iso.
Context `{EnvOk} (ctx : Ctx).

Lemma eff_createExecution e : preserves (iso ctx) (createExecution ctx e).
Proof. unfold createExecution. preserves_tac. Qed.
Lemma eff_deleteExecution st : preserves (iso ctx) (deleteExecution ctx st).
Proof. unfold deleteExecution. preserves_tac. Qed.
Lemma eff_createProcessInstance a b c d e f g :
  preserves (iso ctx) (createProcessInstance ctx a b c d e f g).
Proof. unfold createProcessInstance. preserves_tac. Qed.
Lemma eff_destroyProcessInstance st p e :
  preserves (iso ctx) (destroyProcessInstance ctx st p e).
Proof. unfold destroyProcessInstance. preserves_tac. Qed.
#[local] Hint Resolve eff_destroyProcessInstance eff_deleteExecution : preserves.
Lemma eff_xDestroyProcessInstance st : preserves (iso ctx) (xDestroyProcessInstance ctx st).
Proof. unfold xDestroyProcessInstance. preserves_tac. Qed.
#[local] Hint Resolve eff_xDestroyProcessInstance : preserves.
Lemma eff_CancelProcessInstance st : preserves (iso ctx) (CancelProcessInstance ctx st).
Proof. unfold CancelProcessInstance. preserves_tac. Qed.
Lemma eff_tearDownWorkflow st : preserves (iso ctx) (tearDownWorkflow ctx st).
Proof. unfold tearDownWorkflow. preserves_tac. Qed.
End instances_iso.

#[export] Hint Resolve eff_createExecution eff_deleteExecution eff_createProcessInstance
  eff_destroyProcessInstance eff_xDestroyProcessInstance eff_CancelProcessInstance
  eff_tearDownWorkflow : preserves.
