(* ===== verification/Integrity.v ===== *)
(** * Referential integrity of executions and process instances

    An execution lists its process instances ([WfExecution] and
    [WfProcessInstance] of [operations.go]).  The two stores are written one
    after the other, with calls that may fail or be applied without an
    acknowledgement.  Whatever fails, every process instance an execution lists
    exists and names that execution: [registry_integrity]. *)
From S2P Require Import Prelude Model Errors Env Sim Common Wp NatsUtil Publish History Instances.

(** ** Calls under any schedule *)
Section any_schedule.
Context `{EnvOk}.

Lemma wp_nats_any {A} (eff : World → World * res error A) w Φ :
  Φ (eff (w_next w)).1 (eff (w_next w)).2 →
  (∀ e, IsNotFound e = false → Φ (w_next w) (Err e)) →
  (∀ e, IsNotFound e = false → e ≠ WrongLastSequence → Φ (eff (w_next w)).1 (Err e)) →
  wp (nats eff) w Φ.
Proof.
  intros Hok Hno Hlost. unfold wp, nats.
  destruct (nats_fault (w_tick w)) as [[e []]|] eqn:Hf; simpl; [| |done].
  - apply Hlost; [by eapply fault_not_missing|]. intros ->. by apply refused_not_applied in Hf.
  - by eapply Hno, fault_not_missing.
Qed.

Lemma not_missing e : IsNotFound e = false → Is e ErrKeyNotFound = false.
Proof.
  intros He. destruct (Is e ErrKeyNotFound) eqn:Hi; [|done].
  unfold IsNotFound, integrityErrors in He. simpl in He. by rewrite Hi in He.
Qed.

(** What one cell may hold after an update that may have failed. *)
Definition updated (before after : option Data) (msg v' : Data) : Prop :=
  after = before ∨ (before = None ∧ after = Some msg) ∨ after = Some v'.

Definition cell (ns : string) (b : Bucket) (k : string) : Cells :=
  λ ns' b' k', (ns', b', k') = (ns, b, k).

(** Only the one cell changed, nothing was published. *)
Definition only_cell (ns : string) (b : Bucket) (k : string) (w w' : World) : Prop :=
  frame (cell ns b k) w w' ∧ w_out w' = w_out w ∧ w_tick w ≤ w_tick w'.

#[export] Instance only_cell_preorder ns b k : PreOrder (only_cell ns b k).
Proof.
  split.
  - by intros w.
  - intros w1 w2 w3 (F1 & O1 & T1) (F2 & O2 & T2).
    split; [by etrans|]. split; [congruence|lia].
Qed.

Lemma only_cell_next ns b k w : only_cell ns b k w (w_next w).
Proof. split; [by intros ? ? ? _|]. simpl. auto. Qed.

Lemma only_cell_put ns b k d w : only_cell ns b k w (w_put ns b k d w).
Proof. split; [|done]. by apply frame_put. Qed.

Lemma updateKV_any `{Proto A} ns b k (msg v : A) d (f : A → A) w fuel Φ :
  w_get w ns b k = Some d → Unmarshal d = Some v →
  (∀ w', only_cell ns b k w w' → w_get w' ns b k = Some (Marshal (f v)) →
     Φ w' (Ok (f v, None))) →
  (∀ w' m e, only_cell ns b k w w' →
     w_get w' ns b k = Some d ∨ w_get w' ns b k = Some (Marshal (f v)) →
     Φ w' (Ok (m, Some e))) →
  (∀ w' p, only_cell ns b k w w' → w_get w' ns b k = Some d → Φ w' (Panic p)) →
  wp (updateKV_loop fuel ns b k msg (update_closure (λ v, mret (f v)))) w Φ.
Proof.
  revert msg w. induction fuel as [|fuel IH]; intros msg w Hg Hd HOk HErr HPanic.
  { apply wp_panic. by apply HPanic. }
  rewrite updateKV_loop_alone. wp_steps. apply wp_nats_any; simpl.
  2,3: intros; wp_steps; apply HErr; [apply only_cell_next|by left].
  change (w_kv (w_next w)) with (w_kv w).
  destruct (w_get_kv_get _ _ _ _ _ Hg) as [r Hr]. rewrite Hr. wp_steps.
  unfold update_closure at 1. rewrite Hd. wp_steps.
  assert (w_set ns b (kv_put (w_kv w ns b) k (Marshal (f v))) (w_next (w_next w)) =
    w_put ns b k (Marshal (f v)) (w_next (w_next w))) as Hput by done.
  assert (∀ d, only_cell ns b k w (w_put ns b k d (w_next (w_next w)))) as Honly.
  { intros d'. etrans; [apply only_cell_next|]. etrans; [apply only_cell_next|].
    apply only_cell_put. }
  unfold kvUpdate, kv_update. apply wp_nats_any; change (w_kv (w_next (w_next w)) ns b) with (w_kv w ns b);
    try (rewrite Hr, decide_True by done); cbn [fst snd].
  - wp_steps. apply HOk; rewrite Hput; [done|apply w_get_put_eq].
  - intros e _. cbv beta iota. destruct e; wp_steps;
      try (apply HErr; [do 2 (etrans; [apply only_cell_next|]); done|by left]).
    apply IH; try done.
    + intros w' Hw'. apply HOk. do 2 (etrans; [apply only_cell_next|]). done.
    + intros w' m e Hw'. apply HErr. do 2 (etrans; [apply only_cell_next|]). done.
    + intros w' p Hw'. apply HPanic. do 2 (etrans; [apply only_cell_next|]). done.
  - intros e _ He. cbv beta iota. destruct e; wp_steps;
      try (apply HErr; rewrite Hput; [done|right; apply w_get_put_eq]). done.
Qed.

Lemma updateKV_missing `{Proto A} ns b k (msg : A) (f : A → A) w Φ :
  w_get w ns b k = None →
  (∀ w' m e, only_cell ns b k w w' → w_get w' ns b k = None → Φ w' (Ok (m, Some e))) →
  wp (updateKV ns b k msg (update_closure (λ v, mret (f v)))) w Φ.
Proof.
  intros Hg HΦ. unfold updateKV, contention. rewrite updateKV_loop_alone. wp_steps.
  apply wp_nats_any; cbn [fst snd]; intros; wp_steps.
  - change (w_kv (w_next w)) with (w_kv w). rewrite (w_get_none _ _ _ _ Hg). wp_steps.
    by apply HΦ; [apply only_cell_next|].
  - by apply HΦ; [apply only_cell_next|].
  - by apply HΦ; [apply only_cell_next|].
Qed.

(** [UpdateObj] under any schedule: one cell changes, to the caller's message
    where there was none or to the update of the value; success means the
    update. *)
Lemma UpdateObj_any `{Proto A} ns b k (msg v : A) (f : A → A) w Φ :
  match w_get w ns b k with Some d => Unmarshal d | None => Some msg end = Some v →
  (∀ w', only_cell ns b k w w' → w_get w' ns b k = Some (Marshal (f v)) →
     Φ w' (Ok (f v, None))) →
  (∀ w' m e, only_cell ns b k w w' →
     updated (w_get w ns b k) (w_get w' ns b k) (Marshal msg) (Marshal (f v)) →
     Φ w' (Ok (m, Some e))) →
  (∀ w' p, only_cell ns b k w w' →
     updated (w_get w ns b k) (w_get w' ns b k) (Marshal msg) (Marshal (f v)) → Φ w' (Panic p)) →
  wp (UpdateObj ns b k msg (λ v, mret (f v))) w Φ.
Proof.
  unfold updated. intros Hv HOk HErr HPanic.
  assert (∀ w1, only_cell ns b k w w1 →
    (∃ d, w_get w1 ns b k = Some d ∧ Unmarshal d = Some v ∧
      (w_get w1 ns b k = w_get w ns b k ∨
       w_get w ns b k = None ∧ w_get w1 ns b k = Some (Marshal msg))) →
    wp (updateKV ns b k msg (update_closure (λ v, mret (f v)))) w1 Φ) as Hup.
  { intros w1 Hw1 (d & Hd & Hu & Hc). eapply updateKV_any; [done|done|..].
    - intros w' Hw'. apply HOk. by etrans.
    - intros w' m e Hw' Hc'. apply HErr; [by etrans|]. naive_solver congruence.
    - intros w' p Hw' Hc'. apply HPanic; [by etrans|]. naive_solver congruence. }
  assert (wp (updateKV ns b k msg (update_closure (λ v, mret (f v)))) (w_next w) Φ) as Hfault.
  { destruct (w_get w ns b k) as [d|] eqn:Hg.
    - apply Hup; [apply only_cell_next|]. exists d. rewrite w_get_next, Hg. auto.
    - apply updateKV_missing; [by rewrite w_get_next|]. intros w' m e Hw' Hg'.
      apply HErr; [by etrans; [apply only_cell_next|]|]. left. congruence. }
  unfold UpdateObj. wp_steps. apply wp_nats_any; cbn [fst snd].
  - destruct (w_get w ns b k) as [d|] eqn:Hg.
    + change (w_kv (w_next w)) with (w_kv w).
      destruct (w_get_kv_get _ _ _ _ _ Hg) as [r ->]. wp_steps.
      apply Hup; [apply only_cell_next|]. exists d. rewrite w_get_next. auto.
    + change (w_kv (w_next w)) with (w_kv w). rewrite (w_get_none _ _ _ _ Hg). simpl. wp_steps.
      injection Hv as <-. unfold SaveObj, Save. wp_steps.
      apply wp_nats_any; cbn [fst snd]; intros; wp_steps.
      * apply Hup; [do 2 (etrans; [apply only_cell_next|]); apply only_cell_put|].
        exists (Marshal msg). rewrite w_get_put_eq. split; [done|].
        split; [apply Unmarshal_Marshal|auto].
      * apply HErr; [do 2 (etrans; [apply only_cell_next|]); done|]. left. by rewrite !w_get_next.
      * apply HErr; [do 2 (etrans; [apply only_cell_next|]); apply only_cell_put|].
        right. left. by rewrite w_get_put_eq.
  - intros e He. cbv beta iota. wp_steps. rewrite not_missing by done. wp_steps. apply Hfault.
  - intros e He _. cbv beta iota. wp_steps. rewrite not_missing by done. wp_steps. apply Hfault.
Qed.
End any_schedule.

(** ** Integrity *)
Section integrity.
Context `{EnvOk}.

(** Handed out by the identifier generator already. *)
Definition issued (w : World) (id : string) : Prop := ∃ n, n < w_tick w ∧ id = ksuid_new n.

Definition listed (w : World) (ns pid eid : string) : Prop :=
  ∃ e, w_get w ns WfExecution eid = Some (DExecution e) ∧ pid ∈ ex_ProcessInstanceId e.

Record integrity (ns : string) (w : World) : Prop := {
  int_typed eid d : w_get w ns WfExecution eid = Some d → ∃ e, d = DExecution e;
  int_nodup eid e : w_get w ns WfExecution eid = Some (DExecution e) →
    NoDup (ex_ProcessInstanceId e);
  int_issued pid eid : listed w ns pid eid → issued w pid;
  int_instance pid eid : listed w ns pid eid →
    ∃ pi, w_get w ns WfProcessInstance pid = Some (DProcessInstance pi) ∧
          pi_ExecutionId pi = eid }.

Lemma issued_mono w w' id : w_tick w ≤ w_tick w' → issued w id → issued w' id.
Proof. intros Ht (n & Hn & ->). exists n. split; [lia|done]. Qed.

(** A process instance is listed by one execution at most. *)
Lemma listed_unique ns w pid eid eid' :
  integrity ns w → listed w ns pid eid → listed w ns pid eid' → eid = eid'.
Proof.
  intros Hi H1 H2. destruct (int_instance _ _ Hi _ _ H1) as (pi & Hpi & <-).
  destruct (int_instance _ _ Hi _ _ H2) as (pi' & Hpi' & <-). congruence.
Qed.

(** Integrity survives whatever leaves the two stores as they are. *)
Lemma integrity_frame ns w w' :
  (∀ b k, b = WfExecution ∨ b = WfProcessInstance → w_get w' ns b k = w_get w ns b k) →
  w_tick w ≤ w_tick w' → integrity ns w → integrity ns w'.
Proof.
  intros Hg Ht [Hty Hnd His Hin].
  assert (∀ pid eid, listed w' ns pid eid → listed w ns pid eid) as Hl.
  { intros pid eid (e & He & Hp). exists e. rewrite <-Hg by auto. done. }
  split.
  - intros eid d. rewrite Hg by auto. apply Hty.
  - intros eid e. rewrite Hg by auto. apply Hnd.
  - intros pid eid Hp. eapply issued_mono; [done|]. by eapply His, Hl.
  - intros pid eid Hp. rewrite Hg by auto. by apply Hin, Hl.
Qed.

Lemma integrity_next ns w : integrity ns w → integrity ns (w_next w).
Proof. apply integrity_frame; [done|simpl; lia]. Qed.

(** A new process instance may be stored before it is listed. *)
Lemma integrity_put_instance ns w pid pi :
  (∀ eid, ¬ listed w ns pid eid) → integrity ns w →
  integrity ns (w_put ns WfProcessInstance pid (DProcessInstance pi) w).
Proof.
  intros Hn [Hty Hnd His Hin].
  assert (∀ eid, w_get (w_put ns WfProcessInstance pid (DProcessInstance pi) w) ns WfExecution eid
    = w_get w ns WfExecution eid) as Hg by (intros; by rewrite w_get_put_ne).
  assert (∀ pid' eid, listed (w_put ns WfProcessInstance pid (DProcessInstance pi) w) ns pid' eid →
    listed w ns pid' eid) as Hl by (intros pid' eid (e & He & Hp); exists e; by rewrite Hg in He).
  split.
  - intros eid d. rewrite Hg. apply Hty.
  - intros eid e. rewrite Hg. apply Hnd.
  - intros pid' eid Hp. by eapply His, Hl.
  - intros pid' eid Hp. apply Hl in Hp. rewrite w_get_put_ne; [by apply Hin|].
    intros [= ->]. by eapply Hn.
Qed.

(** An execution may be replaced by one that lists instances that are its own. *)
Lemma integrity_set_execution ns w w' eid e :
  only_cell ns WfExecution eid w w' → w_get w' ns WfExecution eid = Some (DExecution e) →
  NoDup (ex_ProcessInstanceId e) →
  (∀ pid, pid ∈ ex_ProcessInstanceId e → issued w pid ∧
     ∃ pi, w_get w ns WfProcessInstance pid = Some (DProcessInstance pi) ∧ pi_ExecutionId pi = eid) →
  integrity ns w → integrity ns w'.
Proof.
  intros (Hf & _ & Ht) He Hnd He' [Hty Hnd' His Hin].
  assert (∀ eid', eid' ≠ eid → w_get w' ns WfExecution eid' = w_get w ns WfExecution eid') as Hg.
  { intros eid' Hne. eapply frame_get; [exact Hf|]. unfold cell. congruence. }
  assert (∀ pid, w_get w' ns WfProcessInstance pid = w_get w ns WfProcessInstance pid) as Hp.
  { intros pid. eapply frame_get; [exact Hf|]. unfold cell. congruence. }
  assert (∀ pid eid', listed w' ns pid eid' →
    (eid' = eid ∧ pid ∈ ex_ProcessInstanceId e) ∨ listed w ns pid eid') as Hl.
  { intros pid eid' (e' & He'' & Hpid). destruct (decide (eid' = eid)) as [->|Hne].
    - left. split; [done|]. congruence.
    - right. exists e'. by rewrite <-Hg. }
  split.
  - intros eid' d. destruct (decide (eid' = eid)) as [->|Hne]; [rewrite He; naive_solver|].
    rewrite Hg by done. apply Hty.
  - intros eid' e'. destruct (decide (eid' = eid)) as [->|Hne]; [rewrite He; naive_solver|].
    rewrite Hg by done. apply Hnd'.
  - intros pid eid' [[-> Hpid]|Hpid]%Hl; (eapply issued_mono; [done|]); [by apply He'|].
    by eapply His.
  - intros pid eid' [[-> Hpid]|Hpid]%Hl; rewrite Hp; [by apply He'|by apply Hin].
Qed.

Lemma integrity_del_execution ns w eid :
  integrity ns w → integrity ns (w_del ns WfExecution eid w).
Proof.
  intros [Hty Hnd His Hin].
  assert (∀ eid' d, w_get (w_del ns WfExecution eid w) ns WfExecution eid' = Some d →
    w_get w ns WfExecution eid' = Some d) as Hg.
  { intros eid' d. rewrite w_get_del. by case_decide. }
  assert (∀ pid eid', listed (w_del ns WfExecution eid w) ns pid eid' → listed w ns pid eid') as Hl.
  { intros pid eid' (e & He & Hp). exists e. eauto. }
  split.
  - intros eid' d Hd. eapply Hty, Hg, Hd.
  - intros eid' e He. eapply Hnd, Hg, He.
  - intros pid eid' Hp. by eapply His, Hl.
  - intros pid eid' Hp. rewrite w_get_del_ne by done. by apply Hin, Hl.
Qed.

(** A process instance no execution lists may go. *)
Lemma integrity_del_instance ns w pid :
  (∀ eid, ¬ listed w ns pid eid) → integrity ns w →
  integrity ns (w_del ns WfProcessInstance pid w).
Proof.
  intros Hn [Hty Hnd His Hin].
  assert (∀ eid, w_get (w_del ns WfProcessInstance pid w) ns WfExecution eid
    = w_get w ns WfExecution eid) as Hg by (intros; by rewrite w_get_del_ne).
  assert (∀ pid' eid, listed (w_del ns WfProcessInstance pid w) ns pid' eid →
    listed w ns pid' eid) as Hl by (intros pid' eid (e & He & Hp); exists e; by rewrite Hg in He).
  split.
  - intros eid d. rewrite Hg. apply Hty.
  - intros eid e. rewrite Hg. apply Hnd.
  - intros pid' eid Hp. by eapply His, Hl.
  - intros pid' eid Hp. apply Hl in Hp. rewrite w_get_del_ne; [by apply Hin|].
    intros [= ->]. by eapply Hn.
Qed.
End integrity.

(** ** The operations keep it *)
Section operations.
Context `{EnvOk}.

(** The two worlds hold the same. *)
Definition same_store (w w' : World) : Prop :=
  (∀ ns b, w_kv w' ns b = w_kv w ns b) ∧ w_tick w ≤ w_tick w'.

#[local] Instance same_store_preorder : PreOrder same_store.
Proof.
  split; [by intros w|]. intros w1 w2 w3 [K1 T1] [K2 T2]. split; [|lia].
  intros ns b. by rewrite K2.
Qed.

Lemma same_store_get w w' ns b k : same_store w w' → w_get w' ns b k = w_get w ns b k.
Proof. intros [Hk _]. unfold w_get. by rewrite Hk. Qed.

Lemma same_store_integrity ns w w' : same_store w w' → integrity ns w → integrity ns w'.
Proof.
  intros Hs. apply integrity_frame; [|apply Hs]. intros b k _. by apply same_store_get.
Qed.

Lemma nsKVs_any ctx w Φ : (∀ w' r, same_store w w' → Φ w' r) → wp (nsKVs ctx) w Φ.
Proof.
  intros HΦ. apply wp_wrapping. unfold wp, KvsFor.
  assert (∀ w' r, same_store w w' →
    match r with Err e => Φ w' (Err (Wrap "get KVs for ns" e)) | _ => Φ w' r end) as HΦ'.
  { intros w' [] Hw; by apply HΦ. }
  case_bool_decide; [by apply HΦ'|].
  assert (same_store w (w_next w)) as Hn by (split; [done|simpl; lia]).
  unfold wrapping, nats. destruct (nats_fault (w_tick w)) as [[e []]|]; simpl;
    try (by apply HΦ'); apply HΦ; (split; [done|simpl; lia]).
Qed.

Lemma GetExecution_any ctx eid w Φ :
  (∀ w' r, same_store w w' →
     (∀ e, r = Ok e → ∃ d, w_get w (GetNS ctx) WfExecution eid = Some d ∧ Unmarshal d = Some e) →
     Φ w' r) →
  wp (GetExecution ctx eid) w Φ.
Proof.
  intros HΦ. unfold GetExecution. wp_steps. apply nsKVs_any. intros w1 [[]|e|p] Hw1;
    [|by apply HΦ..].
  wp_steps. unfold LoadObj, Load, kvGet. wp_steps.
  assert (same_store w (w_next w1)) as Hn.
  { etrans; [exact Hw1|]. split; [done|simpl; lia]. }
  apply wp_nats_any; cbn [fst snd]; intros; wp_steps.
  2,3: destruct (Is _ _); wp_steps; by apply HΦ.
  change (w_kv (w_next w1)) with (w_kv w1).
  destruct (kv_get (w_kv w1 (GetNS ctx) WfExecution) eid) as [[d r]|] eqn:Hg; wp_steps.
  - simpl. destruct (Unmarshal d) as [e|] eqn:Hd; wp_steps.
    + apply HΦ; [done|]. intros e' [= <-]. exists d. split; [|done].
      rewrite <-(same_store_get w w1) by done. by eapply kv_get_w_get.
    + simpl. by apply HΦ.
  - simpl. by apply HΦ.
Qed.

Lemma apart_integrity ctx ns w w' :
  effect (records_apart ctx) (msg_ns (GetNS ctx)) w w' → integrity ns w → integrity ns w'.
Proof.
  intros [Hf [Ht _]]. apply integrity_frame; [|done]. intros b k Hb.
  eapply frame_get; [exact Hf|]. unfold records_apart. naive_solver.
Qed.

Lemma other_ns_integrity ctx ns w w' :
  ns ≠ GetNS ctx → iso ctx w w' → integrity ns w → integrity ns w'.
Proof.
  intros Hne [Hf [Ht _]]. apply integrity_frame; [|done]. intros b k _.
  eapply frame_get; [exact Hf|]. unfold of_ns. done.
Qed.

Lemma not_listed_fresh ns w eid :
  integrity ns w → ¬ listed w ns (ksuid_new (w_tick w)) eid.
Proof.
  intros Hi Hl. destruct (int_issued _ _ Hi _ _ Hl) as (n & Hn & Heq).
  apply (inj ksuid_new) in Heq. lia.
Qed.

(** The execution to put back when an update failed part of the way. *)
Lemma integrity_updated ns w w' eid (f : Execution → Execution) (msg v : Execution) :
  only_cell ns WfExecution eid w w' →
  updated (w_get w ns WfExecution eid) (w_get w' ns WfExecution eid) (DExecution msg)
    (DExecution (f v)) →
  (∀ e, e = msg ∧ w_get w ns WfExecution eid = None ∨ e = f v →
     NoDup (ex_ProcessInstanceId e) ∧ ∀ pid, pid ∈ ex_ProcessInstanceId e → issued w pid ∧
     ∃ pi, w_get w ns WfProcessInstance pid = Some (DProcessInstance pi) ∧ pi_ExecutionId pi = eid) →
  integrity ns w → integrity ns w'.
Proof.
  intros Ho Hu He Hi. destruct Hu as [Hs|[[Hn Hm]|Hv]].
  - destruct Ho as (Hf & _ & Ht). eapply integrity_frame; [|done|done].
    intros b k _. destruct (decide ((ns, b, k) = (ns, WfExecution, eid))) as [[= -> ->]|Hne]; [done|].
    by eapply frame_get.
  - destruct (He msg) as [Hnd Hp]; [auto|]. by eapply integrity_set_execution.
  - destruct (He (f v)) as [Hnd Hp]; [auto|]. by eapply integrity_set_execution.
Qed.

(** What an execution's list must be for integrity. *)
Definition list_ok (ns : string) (w : World) (eid : string) (e : Execution) : Prop :=
  NoDup (ex_ProcessInstanceId e) ∧ ∀ pid, pid ∈ ex_ProcessInstanceId e → issued w pid ∧
  ∃ pi, w_get w ns WfProcessInstance pid = Some (DProcessInstance pi) ∧ pi_ExecutionId pi = eid.

Lemma list_ok_stored ns w eid e :
  integrity ns w → w_get w ns WfExecution eid = Some (DExecution e) → list_ok ns w eid e.
Proof.
  intros Hi He. split; [by eapply int_nodup|]. intros pid Hpid.
  assert (listed w ns pid eid) as Hl by (by exists e).
  split; [by eapply int_issued|by eapply int_instance].
Qed.

Lemma list_ok_append ns w eid e id pi :
  list_ok ns w eid e → id ∉ ex_ProcessInstanceId e → issued w id →
  w_get w ns WfProcessInstance id = Some (DProcessInstance pi) → pi_ExecutionId pi = eid →
  list_ok ns w eid (e <| ex_ProcessInstanceId ::= λ l, l ++ [id] |>).
Proof.
  intros [Hnd Hp] Hid Hiss Hpi Heid. split; simpl.
  - apply NoDup_app. split; [done|]. split; [set_solver|apply NoDup_singleton].
  - intros pid [Hpid| ->%list_elem_of_singleton]%elem_of_app; [by apply Hp|eauto].
Qed.

Lemma remove_sub l x y : y ∈ remove l x → y ∈ l.
Proof. induction l as [|z l IH]; simpl; [done|]. case_bool_decide; set_solver. Qed.

Lemma remove_NoDup l x : NoDup l → NoDup (remove l x) ∧ x ∉ remove l x.
Proof.
  induction l as [|z l IH]; simpl; [intros _; split; [constructor|apply not_elem_of_nil]|].
  intros [Hz Hl]%NoDup_cons. destruct (IH Hl) as [IHn IHx]. case_bool_decide as Hc.
  - by subst.
  - split; [|set_solver]. apply NoDup_cons. split; [|done]. intros Hin. by apply remove_sub in Hin.
Qed.

Lemma list_ok_remove ns w eid e id :
  list_ok ns w eid e → list_ok ns w eid (e <| ex_ProcessInstanceId ::= λ l, remove l id |>).
Proof.
  intros [Hnd Hp]. split; simpl; [by apply remove_NoDup|].
  intros pid Hpid. by eapply Hp, remove_sub.
Qed.

Lemma createProcessInstance_integrity ctx eid a b c d e h ns w :
  integrity ns w → integrity ns (createProcessInstance ctx eid a b c d e h w).1.
Proof.
  intros Hi. destruct (decide (ns = GetNS ctx)) as [->|Hne].
  2: { eapply other_ns_integrity; [done| |done]. apply eff_createProcessInstance. }
  change (wp (createProcessInstance ctx eid a b c d e h) w (λ w' _, integrity (GetNS ctx) w')).
  unfold createProcessInstance. wp_steps. set (id := ksuid_new (w_tick w)).
  assert (∀ w1, same_store (w_next w) w1 →
    (integrity (GetNS ctx) w1 ∧ (∀ eid, ¬ listed w1 (GetNS ctx) id eid) ∧ issued w1 id)) as Hw1.
  { intros w1 Hs. split; [by eapply same_store_integrity, integrity_next|]. split.
    - intros eid' (x & Hx & Hp). rewrite (same_store_get (w_next w) w1) in Hx by done.
      apply (not_listed_fresh (GetNS ctx) w eid'); [done|]. by exists x.
    - exists (w_tick w). destruct Hs as [_ Ht]. simpl in Ht. split; [lia|done]. }
  apply nsKVs_any. intros w1 [[]|x|p] Hs1; [|by apply Hw1..].
  wp_steps. apply GetExecution_any. intros w2 r Hs2 Hr.
  assert (same_store (w_next w) w2) as Hs by (by etrans).
  destruct r as [wfi|x|p]; [|by apply Hw1..]. destruct (Hr wfi eq_refl) as (dx & Hdx & Hwfi).
  destruct (Hw1 w2 Hs) as (Hi2 & Hn2 & Hiss2). cbv zeta. wp_steps.
  unfold SaveObj, Save. wp_steps.
  set (pi := mkProcessInstance id eid (Some a) (Some b) e d c ∅ h).
  assert (integrity (GetNS ctx) (w_put (GetNS ctx) WfProcessInstance id (DProcessInstance pi)
    (w_next w2))) as Hi3 by (by apply integrity_put_instance, integrity_next).
  apply wp_nats_any; cbn [fst snd]; intros; wp_steps; [|by apply integrity_next|done].
  set (w3 := w_put _ _ _ _ _) in *.
  assert (w_get w3 (GetNS ctx) WfExecution eid = Some dx) as Hdx3.
  { unfold w3. rewrite w_get_put_ne, w_get_next by done. by rewrite (same_store_get w1). }
  destruct (int_typed _ _ Hi3 _ _ Hdx3) as [x ->]. simpl in Hwfi. injection Hwfi as <-.
  unfold check. wp_steps.
  assert (list_ok (GetNS ctx) w3 eid (x <| ex_ProcessInstanceId ::= λ l, l ++ [id] |>)) as [Hnd Hp].
  { apply (list_ok_append _ _ _ _ _ pi); [by apply list_ok_stored| | | |done].
    - intros Hin. apply (Hn2 eid). exists x. split; [|done].
      rewrite <-Hdx3. unfold w3. by rewrite w_get_put_ne.
    - eapply issued_mono; [|exact Hiss2]. simpl. lia.
    - apply w_get_put_eq. }
  apply (UpdateObj_any _ _ _ x x (λ v, v <| ex_ProcessInstanceId ::= λ l, l ++ [id] |>)).
  { by rewrite Hdx3. }
  - intros w4 Ho Hg. simpl. wp_steps. by eapply integrity_set_execution.
  - intros w4 m y Ho Hu. simpl. wp_steps. eapply integrity_updated; [done|done| |done].
    intros x0 [[-> Hnone]| ->]; [congruence|done].
  - intros w4 p Ho Hu. eapply integrity_updated; [done|done| |done].
    intros x0 [[-> Hnone]| ->]; [congruence|done].
Qed.

(** The process instance is the execution's, or nobody's. *)
Definition owned (ns : string) (w : World) (pid eid : string) : Prop :=
  ∀ eid', listed w ns pid eid' → eid' = eid.

Lemma Delete_any b k ns w Φ :
  (∀ r, Φ (w_next w) r) → (∀ r, Φ (w_del ns b k (w_next w)) r) → wp (Delete ns b k) w Φ.
Proof.
  intros Hn Hd. unfold Delete. wp_steps. apply wp_nats_any; cbn [fst snd]; intros; auto.
Qed.

(** No execution lists the process instance any more. *)
Definition detached (ns pid : string) (w : World) : Prop :=
  integrity ns w ∧ ∀ eid, ¬ listed w ns pid eid.

Definition keeps (J : World → Prop) (w w' : World) : Prop := J w → J w'.

#[local] Instance keeps_preorder J : PreOrder (keeps J).
Proof. split; [by intros w Hw|]. intros w1 w2 w3 H12 H23 Hw. by apply H23, H12. Qed.

Lemma detached_apart ctx ns pid w w' :
  effect (records_apart ctx) (msg_ns (GetNS ctx)) w w' → keeps (detached ns pid) w w'.
Proof.
  intros He [Hi Hn]. split; [by eapply apart_integrity|]. intros eid (e & Hg & Hp).
  apply (Hn eid). exists e. split; [|done]. rewrite <-Hg. symmetry.
  destruct He as [Hf _]. eapply frame_get; [exact Hf|]. unfold records_apart. naive_solver.
Qed.

Lemma keeps_publish ctx ns pid name st :
  preserves (keeps (detached ns pid)) (PublishWorkflowState ctx name st []).
Proof.
  intros w. apply (detached_apart ctx). apply eff_PublishWorkflowState; [apply _|done].
Qed.

Lemma detached_next ns pid w : detached ns pid w → detached ns pid (w_next w).
Proof. intros [Hi Hn]. split; [by apply integrity_next|done]. Qed.

Lemma keeps_delete_execution ns pid eid :
  preserves (keeps (detached ns pid)) (Delete ns WfExecution eid).
Proof.
  intros w Hd. apply detached_next in Hd as [Hi Hn].
  change (wp (Delete ns WfExecution eid) w (λ w' _, detached ns pid w')).
  apply Delete_any; intros _; [done|]. split; [by apply integrity_del_execution|].
  intros eid' (x & Hx & Hp). apply (Hn eid'). exists x. split; [|done].
  revert Hx. rewrite w_get_del. by case_decide.
Qed.

Lemma keeps_delete_instance ns pid :
  preserves (keeps (detached ns pid)) (Delete ns WfProcessInstance pid).
Proof.
  intros w Hd. apply detached_next in Hd as [Hi Hn].
  change (wp (Delete ns WfProcessInstance pid) w (λ w' _, detached ns pid w')).
  apply Delete_any; intros _; [done|]. split; [by apply integrity_del_instance|].
  intros eid' (x & Hx & Hp). apply (Hn eid'). exists x. split; [|done].
  by rewrite w_get_del_ne in Hx.
Qed.

#[local] Hint Resolve keeps_publish keeps_delete_execution keeps_delete_instance : preserves.

Lemma destroyProcessInstance_integrity ctx st pid eid ns w :
  owned (GetNS ctx) w pid eid →
  integrity ns w → integrity ns (destroyProcessInstance ctx st pid eid w).1.
Proof.
  intros Hown Hi. destruct (decide (ns = GetNS ctx)) as [->|Hne].
  2: { eapply other_ns_integrity; [done| |done]. apply eff_destroyProcessInstance. }
  change (wp (destroyProcessInstance ctx st pid eid) w (λ w' _, integrity (GetNS ctx) w')).
  unfold destroyProcessInstance. wp_steps. apply nsKVs_any.
  intros w1 [[]|x|p] Hs1; [|by eapply same_store_integrity..].
  assert (integrity (GetNS ctx) w1) as Hi1 by (by eapply same_store_integrity).
  assert (∃ v, match w_get w1 (GetNS ctx) WfExecution eid with
    | Some d => Unmarshal d | None => Some (zero : Execution) end = Some v ∧
    list_ok (GetNS ctx) w1 eid v) as (v & Hv & Hok).
  { destruct (w_get w1 (GetNS ctx) WfExecution eid) as [d|] eqn:Hd.
    - destruct (int_typed _ _ Hi1 _ _ Hd) as [x ->]. exists x. split; [done|].
      by apply list_ok_stored.
    - eexists. split; [done|]. split; [constructor|]. by intros ? ?%not_elem_of_nil. }
  pose proof (list_ok_remove _ _ _ _ pid Hok) as [Hnd Hp].
  assert (∀ w2, updated (w_get w1 (GetNS ctx) WfExecution eid) (w_get w2 (GetNS ctx) WfExecution eid)
      (Marshal (zero : Execution))
      (Marshal (v <| ex_ProcessInstanceId ::= λ l, remove l pid |>)) →
    only_cell (GetNS ctx) WfExecution eid w1 w2 → integrity (GetNS ctx) w2) as Hup.
  { intros w2 Hu Ho. eapply (integrity_updated _ w1 _ _ (λ v, v <| ex_ProcessInstanceId ::= _ |>));
      [done|exact Hu| |done].
    intros x0 [[-> _]| ->]; [|done]. split; [constructor|]. by intros ? ?%not_elem_of_nil. }
  wp_steps. apply (UpdateObj_any _ _ _ _ v (λ v, v <| ex_ProcessInstanceId ::= λ l, remove l pid |>));
    [done| |intros w2 m y Ho Hu; simpl; wp_steps|intros; by apply Hup].
  - intros w2 Ho Hg. cbn [fst snd].
    assert (integrity (GetNS ctx) w2) as Hi2 by (apply Hup; [by right; right|done]).
    assert (∀ eid', ¬ listed w2 (GetNS ctx) pid eid') as Hnl.
    { intros eid' (x & Hx & Hpid). destruct (decide (eid' = eid)) as [->|Hne].
      - rewrite Hg in Hx. injection Hx as <-. simpl in Hpid.
        destruct Hok as [Hok _]. by apply (remove_NoDup _ pid) in Hok as [_ ?].
      - apply Hne, Hown. exists x. split; [|done]. rewrite <-(same_store_get w w1) by done.
        rewrite <-Hx. symmetry. destruct Ho as [Hf _]. eapply frame_get; [exact Hf|].
        unfold cell. congruence. }
    match goal with |- wp ?m _ _ => assert (preserves (keeps (detached (GetNS ctx) pid)) m) as Hk
      by preserves_tac end.
    by apply (Hk w2).
  - destruct (bool_decide _); wp_steps; [|by apply Hup].
    apply Delete_any; intros [[]|?|?]; wp_steps;
      (try apply integrity_del_execution); apply integrity_next; by apply Hup.
Qed.
Lemma keeps_apart ctx ns {A} (m : M A) :
  preserves (effect (records_apart ctx) (msg_ns (GetNS ctx))) m → preserves (keeps (integrity ns)) m.
Proof. intros Hm w Hi. exact (apart_integrity ctx ns _ _ (Hm w) Hi). Qed.

Lemma keeps_save_execution ns' ns k (e : Execution) :
  ex_ProcessInstanceId e = [] → preserves (keeps (integrity ns')) (SaveObj ns WfExecution k e).
Proof.
  intros He w Hi. change (wp (SaveObj ns WfExecution k e) w (λ w' _, integrity ns' w')).
  assert (integrity ns' (w_put ns WfExecution k (DExecution e) (w_next w))) as Hp.
  { destruct (decide (ns' = ns)) as [->|Hne].
    - eapply (integrity_set_execution _ (w_next w) _ k e);
        [apply only_cell_put|apply w_get_put_eq|by rewrite He; constructor| |by apply integrity_next].
      intros pid. rewrite He. by intros ?%not_elem_of_nil.
    - apply (integrity_frame _ (w_next w)); [|simpl; lia|by apply integrity_next].
      intros b k' _. apply w_get_put_ne. congruence. }
  unfold SaveObj, Save. wp_steps. apply wp_nats_any; cbn [fst snd]; intros; wp_steps;
    [done|by apply integrity_next|done].
Qed.

Lemma keeps_delete_ignoring ns' msg ns k :
  preserves (keeps (integrity ns')) (delete_ignoring msg ns WfExecution k).
Proof.
  intros w Hi. change (wp (delete_ignoring msg ns WfExecution k) w (λ w' _, integrity ns' w')).
  assert (integrity ns' (w_del ns WfExecution k (w_next w))) as Hp.
  { destruct (decide (ns' = ns)) as [->|Hne]; [by apply integrity_del_execution, integrity_next|].
    apply (integrity_frame _ (w_next w)); [|simpl; lia|by apply integrity_next].
    intros b k' _. apply w_get_del_ne. congruence. }
  unfold delete_ignoring. wp_steps. apply wp_nats_any; cbn [fst snd]; intros; wp_steps; [done|..];
    rewrite not_missing by done; wp_steps; [by apply integrity_next|done].
Qed.

#[local] Hint Resolve keeps_save_execution keeps_delete_ignoring : preserves.
#[local] Hint Extern 6 (preserves (keeps (integrity _)) _) =>
  (eapply (keeps_apart _); solve [eauto 4 with preserves typeclass_instances]) : preserves.

Lemma createExecution_integrity ctx e ns :
  preserves (keeps (integrity ns)) (createExecution ctx e).
Proof.
  unfold createExecution. preserves_step; [by apply (keeps_apart ctx), eff_newId|]. cbv zeta.
  preserves_step; [by apply (keeps_apart ctx), eff_nsKVs|].
  preserves_step; [apply (keeps_apart ctx), preserves_attempt, eff_GetWorkflow|].
  preserves_step; [by apply preserves_wrapping, keeps_save_execution|].
  apply (keeps_apart ctx). preserves_tac.
Qed.

Lemma deleteExecution_integrity ctx st ns :
  preserves (keeps (integrity ns)) (deleteExecution ctx st).
Proof.
  unfold deleteExecution. preserves_step; [by apply (keeps_apart ctx), eff_nsKVs|].
  preserves_step; [apply keeps_delete_ignoring|]. apply (keeps_apart ctx). preserves_tac.
Qed.

(** ** The registry as a state machine

    Any operation on executions and process instances, under any context,
    between any other operations of the engine, which leave the two stores
    alone. *)
Inductive registry_step : World → World → Prop :=
  | rs_createExecution ctx e w :
      registry_step w (createExecution ctx e w).1
  | rs_createProcessInstance ctx eid a b c d e h w :
      registry_step w (createProcessInstance ctx eid a b c d e h w).1
  | rs_destroyProcessInstance ctx st pid eid w :
      owned (GetNS ctx) w pid eid →
      registry_step w (destroyProcessInstance ctx st pid eid w).1
  | rs_deleteExecution ctx st w :
      registry_step w (deleteExecution ctx st w).1
  | rs_other ctx w w' :
      effect (records_apart ctx) (msg_ns (GetNS ctx)) w w' → registry_step w w'.

Lemma integrity_init ns : integrity ns world_init.
Proof.
  assert (∀ pid eid, ¬ listed world_init ns pid eid) as Hn.
  { intros pid eid (e & He & _). by rewrite w_get_init in He. }
  split; try (intros eid d; by rewrite w_get_init); intros pid eid Hl; by apply Hn in Hl.
Qed.

Lemma registry_step_integrity ns w w' :
  registry_step w w' → integrity ns w → integrity ns w'.
Proof.
  intros [ctx e v|ctx eid a b c d e h v|ctx st pid eid v Hown|ctx st v|ctx v v' He] Hi.
  - by apply createExecution_integrity.
  - by apply createProcessInstance_integrity.
  - by apply destroyProcessInstance_integrity.
  - by apply deleteExecution_integrity.
  - by eapply apart_integrity.
Qed.
End operations.

(** (C13) Referential integrity: after any sequence of registry operations, each
    instance destroyed with the execution that lists it if one does ([owned]), under
    every schedule of failed calls and lost acknowledgements, every process
    instance that an execution lists is stored and names that execution, no
    execution lists one twice, and no two executions list the same one. *)
Theorem registry_integrity `{EnvOk} w :
  rtc registry_step world_init w →
  ∀ ns eid e, w_get w ns WfExecution eid = Some (DExecution e) →
    NoDup (ex_ProcessInstanceId e) ∧
    ∀ pid, pid ∈ ex_ProcessInstanceId e →
      (∃ pi, w_get w ns WfProcessInstance pid = Some (DProcessInstance pi) ∧
             pi_ExecutionId pi = eid) ∧
      ∀ eid', listed w ns pid eid' → eid' = eid.
Proof.
  intros Hr ns eid e He.
  assert (integrity ns w) as Hi.
  { clear He. pose proof (integrity_init ns) as Hi. induction Hr as [|w1 w2 w3 Hs _ IH]; [done|].
    apply IH. by eapply registry_step_integrity. }
  split; [by eapply int_nodup|]. intros pid Hpid. assert (listed w ns pid eid) as Hl by (by exists e).
  split; [by eapply int_instance|]. intros eid' Hl'. by eapply listed_unique.
Qed.

(** A run where the acknowledgement of one store write is lost. *)
Definition lossy : Env :=
  Sim (λ n, if bool_decide (n = 16) then Some (New "timeout", true) else None) Z.of_nat sim_expr.

Definition ex_registry : @World lossy :=
  let w1 := (@createExecution lossy ex_ctx (mkExecution "" "wf" "w" []) world_init).1 in
  let w2 := (@createProcessInstance lossy ex_ctx "0" "" "" "p" "w" "wf" "" w1).1 in
  (@createProcessInstance lossy ex_ctx "0" "" "" "q" "w" "wf" "" w2).1.

Lemma registry_integrity_witness :
  NoDup ["5"; "11"] ∧
  ∀ pid, pid ∈ ["5"; "11"] →
    (∃ pi, @w_get lossy ex_registry "default" WfProcessInstance pid = Some (DProcessInstance pi) ∧
           pi_ExecutionId pi = "0") ∧
    ∀ eid', @listed lossy ex_registry "default" pid eid' → eid' = "0".
Proof.
  apply (@registry_integrity lossy (Sim_ok _ _ _) ex_registry) with
    (e := mkExecution "0" "wf" "w" ["5"; "11"]).
  - eapply rtc_l; [apply rs_createExecution|]. eapply rtc_l; [apply rs_createProcessInstance|].
    eapply rtc_l; [apply rs_createProcessInstance|]. apply rtc_refl.
  - vm_compute. reflexivity.
Defined.
