(* ===== verification/Lifecycle.v ===== *)
(** * What creating and destroying process instances achieves

    Runs without faults of the operations of [Instances]: the exact change of
    the stores and the messages published. *)
From S2P Require Import Prelude Model Errors Env Sim Common Wp NatsUtil Publish History Instances.

(** What is left of a list of ids when the first [pid] is taken off it. *)
Inductive taken_off (pid : string) : list string → list string → Prop :=
  | taken_off_listed before after : pid ∉ before → taken_off pid (before ++ pid :: after) (before ++ after)
  | taken_off_missing l : pid ∉ l → taken_off pid l l.

Lemma remove_taken_off l pid : taken_off pid l (remove l pid).
Proof.
  induction l as [|v l IH]; [by apply taken_off_missing, not_elem_of_nil|]. cbn [remove].
  case_bool_decide as Hv; [subst; by apply (taken_off_listed pid []), not_elem_of_nil|].
  inversion IH as [before after Hb Hl Hr|l' Hl' Hr1 Hr2].
  - apply (taken_off_listed pid (v :: before)). set_solver.
  - rewrite <-Hr2 at 2. apply taken_off_missing. set_solver.
Qed.

Section lifecycle.
Context `{EnvOk} (NF : NoFaults) (ctx : Ctx) (cid : string).
Context (Hcid : ctx_Correlation ctx = Some cid).
Abbreviation ns := (GetNS ctx).

Lemma wp_GetExecution eid e w Φ :
  w_get w ns WfExecution eid = Some (DExecution e) →
  (∀ w', w' ≡ w → Φ w' (Ok e)) → wp (GetExecution ctx eid) w Φ.
Proof.
  intros He HΦ. unfold GetExecution. wp_steps. apply wp_nsKVs; [done|]. intros w1 Hw1 _. wp_steps.
  apply (wp_LoadObj_some NF _ _ _ (DExecution e) e); [by rewrite Hw1|done|].
  intros w2 Hw2. wp_steps. apply HΦ. by rewrite Hw2.
Qed.

Lemma wp_GetExecution_missing eid w Φ :
  w_get w ns WfExecution eid = None →
  (∀ w' e, w' ≡ w → leaf e = Sentinel ErrExecutionNotFound → Φ w' (Err e)) →
  wp (GetExecution ctx eid) w Φ.
Proof.
  intros He HΦ. unfold GetExecution. wp_steps. apply wp_nsKVs; [done|]. intros w1 Hw1 _. wp_steps.
  apply wp_LoadObj_none; [done|by rewrite Hw1|]. intros w2 e Hw2 Hl. wp_steps.
  rewrite (proj2 (Is_leaf e ErrKeyNotFound)) by done. wp_steps. apply HΦ; [by rewrite Hw2|done].
Qed.

Lemma wp_GetProcessInstance pid pi w Φ :
  w_get w ns WfProcessInstance pid = Some (DProcessInstance pi) →
  (∀ w', w' ≡ w → Φ w' (Ok pi)) → wp (GetProcessInstance ctx pid) w Φ.
Proof.
  intros He HΦ. unfold GetProcessInstance. wp_steps. apply wp_nsKVs; [done|].
  intros w1 Hw1 _. wp_steps.
  apply (wp_LoadObj_some NF _ _ _ (DProcessInstance pi) pi); [by rewrite Hw1|done|].
  intros w2 Hw2. wp_steps. apply HΦ. by rewrite Hw2.
Qed.

Lemma wp_GetProcessInstance_missing pid w Φ :
  w_get w ns WfProcessInstance pid = None →
  (∀ w' e, w' ≡ w → leaf e = Sentinel ErrProcessInstanceNotFound → Φ w' (Err e)) →
  wp (GetProcessInstance ctx pid) w Φ.
Proof.
  intros He HΦ. unfold GetProcessInstance. wp_steps. apply wp_nsKVs; [done|].
  intros w1 Hw1 _. wp_steps.
  apply wp_LoadObj_none; [done|by rewrite Hw1|]. intros w2 e Hw2 Hl. wp_steps.
  rewrite (proj2 (Is_leaf e ErrKeyNotFound)) by done. wp_steps. apply HΦ; [by rewrite Hw2|done].
Qed.

(** ** The worlds the operations lead to *)
Definition after_create (eid : string) (e : Execution) (id : string) (pi : ProcessInstance)
    (w : World) : World :=
  w_put ns WfExecution eid (DExecution (e <| ex_ProcessInstanceId ::= λ l, l ++ [id] |>))
    (w_put ns WfProcessInstance id (DProcessInstance pi) w).

(** The stamp of a published state is the clock's. *)
Definition published (name : string) (st : WorkflowState) (t : Z) (w : World) : World :=
  w_pub (state_msg ctx cid name (st <| ws_UnixTimeNano := t |>) []) w.

(** The instance is gone, and the execution lists [rest], or is gone as well. *)
Definition after_destroy (st : WorkflowState) (pid eid : string) (e : Execution) (rest : list string) (t1 t2 : Z)
    (w : World) : World :=
  if bool_decide (rest = []) then
    published messages.WorkflowExecutionComplete st t2
      (published messages.WorkflowProcessTerminated st t1
        (w_del ns WfProcessInstance pid (w_del ns WfExecution eid w)))
  else
    published messages.WorkflowProcessTerminated st t1
      (w_del ns WfProcessInstance pid
        (w_put ns WfExecution eid (DExecution (e <| ex_ProcessInstanceId := rest |>)) w)).

Lemma wp_publish name st w Φ :
  quiet name →
  (∀ w' t, w' ≡ published name st t w → Φ w' (Ok (st <| ws_UnixTimeNano := t |>))) →
  wp (PublishWorkflowState ctx name st []) w Φ.
Proof.
  intros Hq HΦ. eapply (wp_PublishWorkflowState NF); [done|done|]. intros w' t st' Hw'.
  by apply HΦ.
Qed.

#[export] Instance published_proper name st t : Proper ((≡) ==> (≡)) (published name st t).
Proof. intros w w' Hw. unfold published. by rewrite Hw. Qed.

#[export] Instance after_destroy_proper st pid eid e rest t1 t2 :
  Proper ((≡) ==> (≡)) (after_destroy st pid eid e rest t1 t2).
Proof. intros w w' Hw. unfold after_destroy. destruct (bool_decide _); by rewrite Hw. Qed.

Lemma wp_destroyProcessInstance st pid eid e w Φ :
  w_get w ns WfExecution eid = Some (DExecution e) →
  (∀ w' t1 t2, w' ≡ after_destroy st pid eid e (remove (ex_ProcessInstanceId e) pid) t1 t2 w → Φ w' (Ok tt)) →
  wp (destroyProcessInstance ctx st pid eid) w Φ.
Proof.
  intros He HΦ. unfold destroyProcessInstance, after_destroy in *.
  wp_steps. apply wp_nsKVs; [done|]. intros w0 Hw0 _. wp_steps.
  apply (wp_UpdateObj NF _ _ _ _ e (λ v, v <| ex_ProcessInstanceId ::= λ l, remove l pid |>)).
  { by rewrite Hw0, He. }
  intros w1 Hw1. cbn [fst snd]. wp_steps.
  set (rest := remove (ex_ProcessInstanceId e) pid) in *.
  change (ex_ProcessInstanceId (e <| ex_ProcessInstanceId ::= λ l, remove l pid |>)) with rest.
  destruct (bool_decide (rest = [])) eqn:Hrest; wp_steps.
  - apply wp_Delete; [done|]. intros w2 Hw2. wp_steps. apply wp_Delete; [done|]. intros w3 Hw3.
    wp_steps. apply wp_publish; [done|]. intros w4 t1 Hw4. wp_steps.
    apply wp_publish; [done|]. intros w5 t2 Hw5. wp_steps. apply (HΦ w5 t1 t2).
    rewrite Hw5, Hw4, Hw3, Hw2, Hw1, Hw0, w_del_put. done.
  - apply wp_Delete; [done|]. intros w2 Hw2. wp_steps. apply wp_publish; [done|].
    intros w3 t1 Hw3. wp_steps. apply (HΦ w3 t1 0%Z). by rewrite Hw3, Hw2, Hw1, Hw0.
Qed.

Lemma wp_delete_ignoring msg b k w Φ :
  (∀ w', w' ≡ w_del ns b k w → Φ w' (Ok tt)) → wp (delete_ignoring msg ns b k) w Φ.
Proof.
  intros HΦ. unfold delete_ignoring. wp_steps. apply HΦ. by rewrite w_next_equiv.
Qed.
End lifecycle.

(** Creating a process instance stores it under a fresh id, with its
    execution and parent, and appends that id to the execution's list; nothing
    else changes and nothing is published. *)
Theorem createProcessInstance_spec `{EnvOk} ctx eid parent parentEl prId wfName wfId hdr e w :
  NoFaults → w_get w (GetNS ctx) WfExecution eid = Some (DExecution e) →
  wp (createProcessInstance ctx eid parent parentEl prId wfName wfId hdr) w (returns (λ w' pi,
    pi = mkProcessInstance (ksuid_new (w_tick w)) eid (Some parent) (Some parentEl) wfId wfName
           prId ∅ hdr ∧
    w' ≡ after_create ctx eid e (ksuid_new (w_tick w)) pi w)).
Proof.
  intros NF He. unfold createProcessInstance. wp_steps. apply wp_nsKVs; [done|].
  intros w1 Hw1 _. wp_steps. eapply (wp_GetExecution NF ctx); [by rewrite Hw1|].
  intros w2 Hw2. wp_steps. cbv zeta. wp_steps. apply wp_SaveObj; [done|]. intros w3 Hw3. wp_steps.
  apply (wp_check_UpdateObj NF _ _ _ _ e (λ v, v <| ex_ProcessInstanceId ::= λ l, l ++ [_] |>)).
  { by rewrite Hw3, w_get_put_ne, Hw2, Hw1, w_get_next, He by done. }
  intros w4 Hw4. wp_steps. simpl. split; [done|]. unfold after_create.
  by rewrite Hw4, Hw3, Hw2, Hw1, w_next_equiv.
Qed.

(** (C34) Destroying a process instance takes the first entry of its id off its
    execution's list, and the instance out of the store, and announces it; when the
    list is then empty the execution goes too and its completion is announced after
    that. *)
Theorem destroyProcessInstance_spec `{EnvOk} ctx cid st pid eid e w :
  NoFaults → ctx_Correlation ctx = Some cid →
  w_get w (GetNS ctx) WfExecution eid = Some (DExecution e) →
  wp (destroyProcessInstance ctx st pid eid) w (returns (λ w' _,
    ∃ rest t1 t2, taken_off pid (ex_ProcessInstanceId e) rest ∧
      w' ≡ after_destroy ctx cid st pid eid e rest t1 t2 w)).
Proof.
  intros NF Hc He. eapply wp_destroyProcessInstance; [done..|]. intros w' t1 t2 Hw'. simpl.
  exists (remove (ex_ProcessInstanceId e) pid), t1, t2. split; [apply remove_taken_off|done].
Qed.

(** Cancelling one process instance removes the record of its whole
    execution: whatever other instances it lists stay in the store, but no
    execution lists them any more. *)
Theorem CancelProcessInstance_orphans `{EnvOk} ctx cid st pi e w :
  NoFaults → ctx_Correlation ctx = Some cid → ws_State st ≠ executing →
  w_get w (GetNS ctx) WfExecution (ws_ExecutionId st) = Some (DExecution e) →
  ex_ExecutionId e = ws_ExecutionId st →
  w_get w (GetNS ctx) WfProcessInstance (ws_ProcessInstanceId st) = Some (DProcessInstance pi) →
  pi_ProcessInstanceId pi = ws_ProcessInstanceId st →
  wp (CancelProcessInstance ctx st) w (returns (λ w' _,
    w_get w' (GetNS ctx) WfExecution (ws_ExecutionId st) = None ∧
    w_get w' (GetNS ctx) WfProcessInstance (ws_ProcessInstanceId st) = None ∧
    ∀ pid, pid ≠ ws_ProcessInstanceId st →
      w_get w' (GetNS ctx) WfProcessInstance pid = w_get w (GetNS ctx) WfProcessInstance pid)).
Proof.
  intros NF Hc Hst He Heid Hpi Hpid. unfold CancelProcessInstance.
  rewrite bool_decide_false by done. unfold xDestroyProcessInstance. wp_steps.
  apply wp_nsKVs; [done|]. intros w1 Hw1 _. wp_steps.
  eapply (wp_GetExecution NF ctx); [by rewrite Hw1|]. intros w2 Hw2. wp_steps.
  eapply (wp_GetProcessInstance NF ctx); [by rewrite Hw2, Hw1|]. intros w3 Hw3. wp_steps.
  rewrite Heid, Hpid. eapply (wp_destroyProcessInstance NF ctx cid Hc); [by rewrite Hw3, Hw2, Hw1|].
  intros w4 t1 t2 Hw4. wp_steps.
  match goal with |- wp ?m w4 _ => assert (∀ Ψ, (∀ w' x, w' ≡ w4 → Ψ w' (Ok x)) → wp m w4 Ψ) as Hload end.
  { intros Ψ HΨ. destruct (bool_decide _); wp_steps; [by apply HΨ|].
    apply wp_LoadObj; [done|]. destruct (w_get w4 _ Wf _) as [d|]; [destruct (Unmarshal d)|];
      intros; by apply HΨ. }
  apply Hload. intros w5 x Hw5. cbv zeta. wp_steps.
  unfold deleteExecution. wp_steps. apply wp_nsKVs; [done|]. intros w6 Hw6 _. wp_steps.
  set (tState := match ws_Error st with Some _ => _ | None => _ end).
  assert (ws_ExecutionId tState = ws_ExecutionId st) as Ht by (unfold tState; by destruct (ws_Error st)).
  rewrite Ht. apply (wp_delete_ignoring NF ctx). intros w7 Hw7. wp_steps.
  apply (wp_delete_ignoring NF ctx). intros w8 Hw8. wp_steps.
  eapply (wp_publish NF ctx cid Hc); [done|]. intros w9 t3 Hw9. wp_steps. simpl.
  unfold published in Hw9.
  assert (∀ b k, b ≠ WfTracking → w_get w9 (GetNS ctx) b k =
    w_get (w_del (GetNS ctx) WfExecution (ws_ExecutionId st)
      (after_destroy ctx cid st (ws_ProcessInstanceId st) (ws_ExecutionId st) e (remove (ex_ProcessInstanceId e) (ws_ProcessInstanceId st)) t1 t2 w))
      (GetNS ctx) b k) as Hall.
  { intros b k Hb. rewrite Hw9, w_get_pub, Hw8, w_get_del_ne, Hw7, Hw6, Hw5, Hw4 by congruence.
    by rewrite Hw3, Hw2, Hw1. }
  split; [|split].
  - rewrite Hall by done. apply w_get_del_eq.
  - rewrite Hall, w_get_del_ne by done. unfold after_destroy, published.
    destruct (bool_decide (remove _ _ = [])); rewrite ?w_get_pub, w_get_del_eq; done.
  - intros pid Hne. rewrite Hall, w_get_del_ne by done. unfold after_destroy, published.
    destruct (bool_decide (remove _ _ = [])); rewrite ?w_get_pub, w_get_del_ne by congruence;
      rewrite ?w_get_del_ne, ?w_get_put_ne by done; done.
Qed.

(** ** Examples: an execution with two process instances *)
Definition ex_exec : Execution := mkExecution "e" "wf" "w" ["p"; "q"].
Definition ex_pi (id : string) : ProcessInstance :=
  mkProcessInstance id "e" None None "wf" "w" "Process" ∅ "".

Definition ex_two : @World sim :=
  @w_put sim "default" WfProcessInstance "p" (DProcessInstance (ex_pi "p"))
    (@w_put sim "default" WfProcessInstance "q" (DProcessInstance (ex_pi "q"))
      (@w_put sim "default" WfExecution "e" (DExecution ex_exec) world_init)).

Definition ex_cancel : WorkflowState :=
  zero_state <| ws_ProcessInstanceId := "p" |> <| ws_ExecutionId := "e" |> <| ws_State := terminated |>.

Lemma createProcessInstance_spec_witness :
  @wp sim _ (createProcessInstance ex_ctx "e" "" "" "Process" "w" "wf" "") ex_two (returns (λ w' pi,
    pi = mkProcessInstance (@ksuid_new sim (w_tick ex_two)) "e" (Some "") (Some "") "wf" "w"
           "Process" ∅ "" ∧
    w' ≡ after_create ex_ctx "e" ex_exec (@ksuid_new sim (w_tick ex_two)) pi ex_two)).
Proof.
  apply (@createProcessInstance_spec sim (Sim_ok _ _ _) ex_ctx "e" "" "" "Process" "w" "wf" ""
    ex_exec ex_two).
  - exact sim_NoFaults.
  - vm_compute. reflexivity.
Defined.

Lemma destroyProcessInstance_spec_witness :
  @wp sim _ (destroyProcessInstance ex_ctx ex_cancel "p" "e") ex_two (returns (λ w' _,
    ∃ rest t1 t2, taken_off "p" ["p"; "q"] rest ∧
      w' ≡ after_destroy ex_ctx "cid" ex_cancel "p" "e" ex_exec rest t1 t2 ex_two)).
Proof.
  apply (@destroyProcessInstance_spec sim (Sim_ok _ _ _) ex_ctx "cid" ex_cancel "p" "e" ex_exec ex_two).
  - exact sim_NoFaults.
  - reflexivity.
  - vm_compute. reflexivity.
Defined.

Lemma CancelProcessInstance_orphans_witness :
  @wp sim _ (CancelProcessInstance ex_ctx ex_cancel) ex_two (returns (λ w' _,
    w_get w' "default" WfExecution "e" = None ∧
    w_get w' "default" WfProcessInstance "p" = None ∧
    ∀ pid, pid ≠ "p" →
      w_get w' "default" WfProcessInstance pid = w_get ex_two "default" WfProcessInstance pid)).
Proof.
  apply (@CancelProcessInstance_orphans sim (Sim_ok _ _ _) ex_ctx "cid" ex_cancel (ex_pi "p")
    ex_exec ex_two).
  - exact sim_NoFaults.
  - reflexivity.
  - discriminate.
  - vm_compute. reflexivity.
  - reflexivity.
  - vm_compute. reflexivity.
  - reflexivity.
Defined.
