(* ===== verification/Lookups.v ===== *)
(** * What the lookups of the operations give

    Runs without faults of the reading operations of [Instances], as rules for
    the theorems about the handlers. *)
From S2P Require Import Prelude Model Errors Env Sim Common Wp NatsUtil Publish History Instances Lifecycle.

(** The workflow cache misses: reads come from the store.  A cache that holds
    what the store holds makes no difference to the value read. *)
Definition ColdCache `{Env} : Prop := ∀ n, cache_hit n = false.

Lemma sim_ColdCache : @ColdCache sim.
Proof. intros n. reflexivity. Qed.

(** Stores that are the same, deleted keys included. *)
Definition same_kv `{Env} (w w' : World) : Prop := ∀ ns b, w_kv w' ns b = w_kv w ns b.

#[export] Instance same_kv_preorder `{Env} : PreOrder same_kv.
Proof. split; [by intros w ns b|]. intros w1 w2 w3 H12 H23 ns b. by rewrite H23, H12. Qed.

Lemma wp_preserves `{Env} {A} R (m : M A) w Φ :
  preserves R m → wp m w (λ w' r, R w w' → Φ w' r) → wp m w Φ.
Proof. intros HR Hm. apply Hm, HR. Qed.

Section reads.
Context `{EnvOk}.

Lemma same_kv_LoadObj A `{Proto A} ns b k : preserves same_kv (LoadObj A ns b k).
Proof.
  unfold LoadObj, Load. preserves_tac; try by intros w. by apply preserves_nats; [apply _|..].
Qed.

Lemma same_kv_KvsFor ns : preserves same_kv (KvsFor ns).
Proof.
  intros w. unfold KvsFor. case_bool_decide; [done|].
  apply preserves_wrapping. by apply preserves_nats; [apply _|..].
Qed.
#[local] Hint Resolve same_kv_LoadObj same_kv_KvsFor : preserves.

Lemma same_kv_GetWorkflow ctx id : preserves same_kv (GetWorkflow ctx id).
Proof.
  unfold GetWorkflow, Cacheable, nsKVs. preserves_tac; try by intros w.
  intros w. unfold cacheSet. by destruct (cache_set _).
Qed.
End reads.

Section lookups.
Context `{EnvOk} (NF : NoFaults) (ctx : Ctx).
Abbreviation ns := (GetNS ctx).

Lemma wp_GetWorkflow (CC : ColdCache) id wf w Φ :
  w_get w ns Wf id = Some (DWorkflow wf) →
  (∀ w', w' ≡ w → Φ w' (Ok wf)) → wp (GetWorkflow ctx id) w Φ.
Proof.
  intros Hg HΦ. unfold GetWorkflow, Cacheable. wp_steps. unfold cacheGet, wp at 1. simpl.
  rewrite CC. wp_steps. apply wp_nsKVs; [done|]. intros w1 Hw1 _. wp_steps.
  apply (wp_LoadObj_some NF _ _ _ (DWorkflow wf) wf); [by rewrite Hw1, w_next_equiv|done|].
  intros w2 Hw2. wp_steps. unfold cacheSet, wp. simpl.
  assert (∀ w3, w3 ≡ w2 → w3 ≡ w) as Hw.
  { intros w3 ->. by rewrite Hw2, Hw1, w_next_equiv. }
  destruct (cache_set _); apply HΦ, Hw; [|apply w_next_equiv].
  split; [|done]. by intros.
Qed.

(** A store of the cache that has the workflow answers in every namespace. *)
Lemma wp_GetWorkflow_hit id wf w Φ :
  cache_hit (w_tick w) = true → w_cache w !! id = Some wf →
  Φ (w_next w) (Ok wf) → wp (GetWorkflow ctx id) w Φ.
Proof.
  intros Hhit Hc HΦ. unfold GetWorkflow, Cacheable. wp_steps. unfold cacheGet, wp at 1. simpl.
  rewrite Hhit, Hc. by wp_steps.
Qed.

Lemma wp_GetWorkflow_missing (CC : ColdCache) id w Φ :
  w_get w ns Wf id = None →
  (∀ w' e, w' ≡ w → leaf e = Sentinel ErrWorkflowNotFound → Φ w' (Err e)) →
  wp (GetWorkflow ctx id) w Φ.
Proof.
  intros Hg HΦ. unfold GetWorkflow, Cacheable. wp_steps. unfold cacheGet, wp at 1. simpl.
  rewrite CC. wp_steps. apply wp_nsKVs; [done|]. intros w1 Hw1 _. wp_steps.
  apply wp_LoadObj_none; [done|by rewrite Hw1, w_next_equiv|]. intros w2 e Hw2 He. wp_steps.
  rewrite (proj2 (Is_leaf e ErrKeyNotFound)) by done. wp_steps.
  apply HΦ; [|done]. by rewrite Hw2, Hw1, w_next_equiv.
Qed.

Lemma wp_hasValidExecution eid e w Φ :
  w_get w ns WfExecution eid = Some (DExecution e) →
  (∀ w', w' ≡ w → Φ w' (Ok e)) → wp (hasValidExecution ctx eid) w Φ.
Proof.
  intros He HΦ. unfold hasValidExecution. wp_steps. eapply wp_GetExecution; [done..|].
  intros w' Hw. wp_steps. by apply HΦ.
Qed.

Lemma wp_hasValidExecution_missing eid w Φ :
  w_get w ns WfExecution eid = None →
  (∀ w' e, w' ≡ w → leaf e = Sentinel ErrExecutionNotFound → Φ w' (Err e)) →
  wp (hasValidExecution ctx eid) w Φ.
Proof.
  intros He HΦ. unfold hasValidExecution. wp_steps. eapply wp_GetExecution_missing; [done..|].
  intros w' e Hw Hl. wp_steps. rewrite (proj2 (Is_leaf e ErrExecutionNotFound)) by done.
  wp_steps. by apply HΦ.
Qed.

Lemma wp_hasValidProcess pid eid pi e w Φ :
  w_get w ns WfExecution eid = Some (DExecution e) →
  w_get w ns WfProcessInstance pid = Some (DProcessInstance pi) →
  (∀ w', w' ≡ w → Φ w' (Ok (pi, e))) → wp (hasValidProcess ctx pid eid) w Φ.
Proof.
  intros He Hp HΦ. unfold hasValidProcess. wp_steps. eapply wp_hasValidExecution; [done|].
  intros w1 Hw1. wp_steps. eapply wp_GetProcessInstance; [done|by rewrite Hw1|].
  intros w2 Hw2. wp_steps. apply HΦ. by rewrite Hw2.
Qed.

Lemma wp_getWorkflowNameFor processId name w Φ :
  w_get w ns WfProcess processId = Some (DBytes name) →
  (∀ w', w' ≡ w → Φ w' (Ok name)) → wp (getWorkflowNameFor ctx processId) w Φ.
Proof.
  intros Hg HΦ. unfold getWorkflowNameFor. wp_steps. apply wp_nsKVs; [done|]. intros w1 Hw1 _. wp_steps.
  apply (wp_Load NF). replace (w_get w1 ns WfProcess processId) with (Some (DBytes name)) by (by rewrite Hw1).
  intros w2 Hw2. wp_steps. apply HΦ. by rewrite Hw2.
Qed.

Lemma wp_getWorkflowVersions name v w Φ :
  w_get w ns WfVersion name = Some (DVersions v) →
  (∀ w', w' ≡ w → Φ w' (Ok v)) → wp (getWorkflowVersions ctx name) w Φ.
Proof.
  intros Hg HΦ. unfold getWorkflowVersions. wp_steps. apply wp_nsKVs; [done|]. intros w1 Hw1 _. wp_steps.
  apply (wp_LoadObj_some NF _ _ _ (DVersions v) v); [by rewrite Hw1|done|].
  intros w2 Hw2. wp_steps. apply HΦ. by rewrite Hw2.
Qed.

Lemma wp_getWorkflowVersions_missing name w Φ :
  w_get w ns WfVersion name = None →
  (∀ w' e, w' ≡ w → Φ w' (Err e)) → wp (getWorkflowVersions ctx name) w Φ.
Proof.
  intros Hg HΦ. unfold getWorkflowVersions. wp_steps. apply wp_nsKVs; [done|]. intros w1 Hw1 _. wp_steps.
  apply (wp_LoadObj_none NF); [by rewrite Hw1|]. intros w2 e Hw2 _. wp_steps.
  case_match; wp_steps; apply HΦ; by rewrite Hw2.
Qed.

Lemma wp_GetJob id job w Φ :
  w_get w ns Job id = Some (DState job) →
  (∀ w', w' ≡ w → Φ w' (Ok job)) → wp (GetJob ctx id) w Φ.
Proof.
  intros Hg HΦ. unfold GetJob. wp_steps. apply wp_nsKVs; [done|]. intros w1 Hw1 _. wp_steps.
  apply (wp_LoadObj_some NF _ _ _ (DState job) job); [by rewrite Hw1|done|].
  intros w2 Hw2. wp_steps. apply HΦ. by rewrite Hw2.
Qed.

Lemma wp_ElementTable wf w Φ :
  NoDup (el_Id <$> ElementFacts.elements wf) →
  (∀ els, (∀ id i, els !! id = Some i ↔ i ∈ ElementFacts.elements wf ∧ el_Id i = id) →
     Φ (w_next w) (Ok els)) →
  wp (ElementTable wf) w Φ.
Proof.
  intros Hnd HΦ. destruct (ElementFacts.ElementTable_spec wf w Hnd) as (t & Ht & Hs).
  unfold wp. rewrite Ht. by apply HΦ.
Qed.
End lookups.

(** ** Two ways to find an element *)

(** Where the ids of a workflow are distinct, [SeekElement] finds the element
    that [ElementTable] holds under the id, unless it is inside a sub-process: then
    it finds none. *)
Theorem SeekElement_ElementTable `{EnvOk} wf w id :
  NoDup (el_Id <$> ElementFacts.elements wf) →
  ∃ t o, (ElementTable wf w).2 = Ok t ∧ (SeekElement wf id w).2 = Ok o ∧
    ∀ e, o = Some e ↔
      t !! id = Some e ∧ ∃ k pr, wf_Process wf !! k = Some pr ∧ e ∈ pr_Elements pr.
Proof.
  intros Hnd. destruct (ElementFacts.ElementTable_spec wf w Hnd) as (t & Ht & Hs).
  set (ps := map_order Process (w_tick w) (wf_Process wf)).
  exists t, (list_find (λ i, el_Id i = id) (mjoin (map (λ p, pr_Elements p.2) ps)) ≫= λ x, Some x.2).
  split; [by rewrite Ht|]. split; [done|]. intros e. rewrite Hs.
  assert (∀ i, i ∈ mjoin (map (λ p : string * Process, pr_Elements p.2) ps) ↔
    ∃ k pr, wf_Process wf !! k = Some pr ∧ i ∈ pr_Elements pr) as Htop.
  { intros i. rewrite list_elem_of_join. split.
    - intros (l & Hi & Hl). apply list_elem_of_In, in_map_iff in Hl as ([k pr] & <- & Hp).
      apply list_elem_of_In in Hp. unfold ps in Hp. rewrite map_order_perm, elem_of_map_to_list in Hp.
      by exists k, pr.
    - intros (k & pr & Hp & Hi). exists (pr_Elements pr). split; [done|].
      apply list_elem_of_In, in_map_iff. exists (k, pr). split; [done|]. apply list_elem_of_In.
      unfold ps. by rewrite map_order_perm, elem_of_map_to_list. }
  assert (∀ i, (∃ k pr, wf_Process wf !! k = Some pr ∧ i ∈ pr_Elements pr) →
    i ∈ ElementFacts.elements wf) as Hin.
  { intros i (k & pr & Hp & Hi). apply list_elem_of_In, in_flat_map. exists (k, pr).
    split; [by apply list_elem_of_In, elem_of_map_to_list|].
    by apply list_elem_of_In, ElementFacts.subelements_self. }
  rewrite <-Htop. split.
  - destruct (list_find _ _) as [[n i]|] eqn:Hf; [|done]. intros [= <-].
    apply list_find_Some in Hf as (Hl & Hid & _). apply list_elem_of_lookup_2 in Hl.
    split_and!; [by apply Hin, Htop|done..].
  - intros [[He Hid] Htop']. destruct (list_find _ _) as [[n i]|] eqn:Hf.
    + apply list_find_Some in Hf as (Hl & Hid' & _). apply list_elem_of_lookup_2, Htop, Hin in Hl. simpl.
      f_equal. apply list_elem_of_lookup in He as [x Hx]. apply list_elem_of_lookup in Hl as [y Hy].
      assert (y = x) as ->; [|congruence].
      eapply NoDup_lookup; [exact Hnd|..]; rewrite list_lookup_fmap; [by rewrite Hy|rewrite Hx; simpl; congruence].
    + exfalso. rewrite list_find_None, Forall_forall in Hf. by eapply Hf.
Qed.

(** A task inside a sub-process. *)
Definition ex_inner : Element :=
  mkElement "inner" "" element.ServiceTask "" "task" None None None "" "" "" [] None ∅ ∅ None [] None None
    None None false.

Definition ex_nested : Workflow :=
  mkWorkflow "W" {["P" := mkProcess
    [mkElement "outer" "" "subProcess" "" "" None None (Some (mkProcess [ex_inner] "" None)) "" "" "" []
       None ∅ ∅ None [] None None None None false] "P" None]} [] [] "" (Some []) ∅ "".

Lemma SeekElement_ElementTable_witness :
  ∃ t, (@ElementTable sim ex_nested world_init).2 = Ok t ∧ t !! "inner" = Some ex_inner ∧
    (@SeekElement sim ex_nested "inner" world_init).2 = Ok None.
Proof.
  destruct (@SeekElement_ElementTable sim (Sim_ok _ _ _) ex_nested world_init "inner") as (t & o & Ht & Ho & He).
  { apply (bool_decide_unpack _). by vm_compute. }
  exists t. split; [done|]. split.
  - injection Ht as <-. by vm_compute.
  - rewrite Ho. destruct o as [e|]; [|done]. vm_compute in Ho. discriminate Ho.
Defined.
