(* ===== verification/Base62.v ===== *)
(** * Base 62

    [common/base62/base62.go], which turns the hash of a task specification
    into its identifier.  The output buffer is kept least significant digit
    first, so the loop that walks it from its end walks this list from its head. *)
From S2P Require Import Prelude.

Local Open Scope Z_scope.

Definition encodeStd : string :=
  "0123456789ABCDEFGHIJKLMNOPQRSTUVWXYZabcdefghijklmnopqrstuvwxyz".

Definition is_byte (b : Z) : Prop := 0 ≤ b < 256.
Definition is_digit (d : Z) : Prop := 0 ≤ d < 62.

(** The size of the buffer, [ceil(log 256 / log 62 * n)]: the least number of
    digits that holds [n] bytes. *)
Fixpoint digits_from (fuel : nat) (k : nat) (bound : Z) : nat :=
  match fuel with
  | O => k
  | S fuel => if bool_decide (bound ≤ 62 ^ Z.of_nat k) then k else digits_from fuel (S k) bound
  end.

Definition buffer_size (n : nat) : nat := digits_from (2 * n) 0 (256 ^ Z.of_nat n).

(** The inner loop: [for j := cs - 1; j >= 0 && (v != 0 || c < rs); j--]. *)
Fixpoint add_byte (dst : list Z) (v : Z) (c rs : nat) : list Z * nat * Z :=
  match dst with
  | [] => ([], c, v)
  | d :: dst' =>
      if negb (bool_decide (v = 0)) || bool_decide (c < rs)%nat then
        let v := v + 256 * d in
        match add_byte dst' (v / 62) (S c) rs with
        | (dst', c', v') => (v mod 62 :: dst', c', v')
        end
      else (dst, c, v)
  end.

(** The loop over the bytes; what is left of [v] after the buffer is dropped. *)
Fixpoint encode_loop (src : list Z) (dst : list Z) (rs : nat) : list Z * nat :=
  match src with
  | [] => (dst, rs)
  | b :: src' =>
      match add_byte dst b 0 rs with
      | (dst, c, _) => encode_loop src' dst c
      end
  end.

(** The digits, most significant first; leading positions never reached are cut. *)
Definition Encode_digits (src : list Z) : list Z :=
  let cs := buffer_size (length src) in
  let '(dst, rs) := encode_loop src (replicate cs 0) 0 in
  rev (if bool_decide (rs < cs)%nat then take rs dst else dst).

Definition Encode (src : list Z) : list ascii :=
  map (λ d, default "0"%char (String.get (Z.to_nat d) encodeStd)) (Encode_digits src).

Definition EncodeToString (src : list Z) : string :=
  String.string_of_list_ascii (Encode src).

(** ** The number a buffer and a byte string stand for *)
Fixpoint val62 (dst : list Z) : Z :=
  match dst with [] => 0 | d :: dst' => d + 62 * val62 dst' end.

Definition val256 (src : list Z) (acc : Z) : Z := foldl (λ a b, a * 256 + b) acc src.

Lemma val62_bound dst : Forall is_digit dst → 0 ≤ val62 dst < 62 ^ Z.of_nat (length dst).
Proof.
  unfold is_digit. induction 1 as [|d dst Hd _ IH]; cbn [val62 length]; [done|].
  rewrite Nat2Z.inj_succ, Z.pow_succ_r by lia. lia.
Qed.

Lemma val62_zeros dst : Forall (.= 0) dst → val62 dst = 0.
Proof. induction 1 as [|d dst -> _ IH]; simpl; lia. Qed.

(** One byte in: the buffer is multiplied by 256 and the byte added; digits past
    the returned count are still zero. *)
Lemma add_byte_spec dst v c rs :
  Forall is_digit dst → 0 ≤ v → Forall (.= 0) (drop (rs - c) dst) →
  ∃ dst' c' v', add_byte dst v c rs = (dst', c', v') ∧
    length dst' = length dst ∧ Forall is_digit dst' ∧ 0 ≤ v' ∧
    val62 dst' + 62 ^ Z.of_nat (length dst) * v' = v + 256 * val62 dst ∧
    (c ≤ c' ≤ c + length dst)%nat ∧ Forall (.= 0) (drop (c' - c) dst').
Proof.
  unfold is_digit. intros Hd. revert v c.
  induction Hd as [|d dst Hd Hdst IH]; intros v c Hv Hz; cbn [add_byte].
  - exists [], c, v. simpl. repeat split; try lia; try constructor. by rewrite drop_nil.
  - destruct (negb (bool_decide (v = 0)) || bool_decide (c < rs)%nat) eqn:Hcond.
    + destruct (IH ((v + 256 * d) / 62) (S c)) as (dst' & c' & v' & -> & Hl & Hd' & Hv' & Hval & Hc & Hz').
      { apply Z.div_pos; lia. }
      { destruct (decide (c < rs)%nat).
        - replace (rs - c)%nat with (S (rs - S c)) in Hz by lia. done.
        - replace (rs - c)%nat with O in Hz by lia. replace (rs - S c)%nat with O by lia.
          by inversion Hz. }
      exists ((v + 256 * d) mod 62 :: dst'), c', v'. split; [done|].
      pose proof (Z.mod_pos_bound (v + 256 * d) 62). pose proof (Z.div_mod (v + 256 * d) 62).
      repeat split; try lia.
      * simpl. lia.
      * constructor; [lia|done].
      * cbn [val62 length]. rewrite Nat2Z.inj_succ, Z.pow_succ_r by lia. nia.
      * cbn [length]. lia.
      * replace (c' - c)%nat with (S (c' - S c)) by lia. done.
    + apply orb_false_iff in Hcond as [Hv0 Hc]. apply negb_false_iff, bool_decide_eq_true in Hv0.
      apply bool_decide_eq_false in Hc. replace (rs - c)%nat with O in Hz by lia.
      exists (d :: dst), c, v. split; [done|]. rewrite (val62_zeros (d :: dst)) by done.
      repeat split; try lia; [by constructor|]. by replace (c - c)%nat with O by lia.
Qed.

Lemma val256_app src b acc : val256 (src ++ [b]) acc = val256 src acc * 256 + b.
Proof. unfold val256. by rewrite foldl_snoc. Qed.

Lemma val256_bound src acc :
  Forall is_byte src → 0 ≤ acc →
  0 ≤ val256 src acc < (acc + 1) * 256 ^ Z.of_nat (length src).
Proof.
  unfold is_byte, val256. intros Hs. revert acc.
  induction Hs as [|b src Hb _ IH]; intros acc Ha; cbn [foldl length].
  - rewrite Z.pow_0_r. lia.
  - specialize (IH (acc * 256 + b)). rewrite Nat2Z.inj_succ, Z.pow_succ_r by lia. nia.
Qed.

Lemma encode_loop_spec src dst rs :
  Forall is_byte src → Forall is_digit dst → Forall (.= 0) (drop rs dst) → (rs ≤ length dst)%nat →
  (val62 dst + 1) * 256 ^ Z.of_nat (length src) ≤ 62 ^ Z.of_nat (length dst) →
  ∃ dst' rs', encode_loop src dst rs = (dst', rs') ∧ length dst' = length dst ∧
    val62 dst' = val256 src (val62 dst) ∧ Forall (.= 0) (drop rs' dst') ∧ (rs' ≤ length dst)%nat ∧
    Forall is_digit dst'.
Proof.
  intros Hs. revert dst rs. induction Hs as [|b src Hb Hs IH]; intros dst rs Hd Hz Hrs Hfit.
  - exists dst, rs. done.
  - unfold is_byte in Hb. cbn [encode_loop].
    destruct (add_byte_spec dst b 0 rs Hd) as (dst' & c' & v' & -> & Hl & Hd' & Hv' & Hval & Hc & Hz');
      [lia|by rewrite Nat.sub_0_r|].
    rewrite Nat.sub_0_r in Hz'. pose proof (val62_bound _ Hd) as Hb0.
    pose proof (val62_bound _ Hd') as Hb1. rewrite Hl in Hb1.
    cbn [length] in Hfit. rewrite Nat2Z.inj_succ, Z.pow_succ_r in Hfit by lia.
    assert (0 < 256 ^ Z.of_nat (length src)) as Hp by lia.
    assert (v' = 0) as ->.
    { set (P := 62 ^ Z.of_nat (length dst)) in *. set (Q := 256 ^ Z.of_nat (length src)) in *.
      assert ((val62 dst + 1) * 256 ≤ P) by nia. nia. }
    destruct (IH dst' c' Hd' Hz') as (dst'' & rs'' & He & Hl'' & Hv'' & Hz'' & Hr'' & Hd'').
    { lia. } { rewrite Hl. nia. }
    exists dst'', rs''. rewrite Hl in *. split; [done|]. split; [done|]. split; [|done].
    rewrite Hv''. unfold val256. cbn [foldl]. f_equal. lia.
Qed.

Lemma digits_from_spec fuel k bound :
  0 < bound ≤ 62 ^ Z.of_nat (k + fuel) → bound ≤ 62 ^ Z.of_nat (digits_from fuel k bound).
Proof.
  revert k. induction fuel as [|fuel IH]; intros k Hb; simpl.
  - rewrite Nat.add_0_r in Hb. lia.
  - case_bool_decide; [done|]. apply IH. by replace (S k + fuel)%nat with (k + S fuel)%nat by lia.
Qed.

Lemma buffer_size_fits n : 256 ^ Z.of_nat n ≤ 62 ^ Z.of_nat (buffer_size n).
Proof.
  apply digits_from_spec. split; [lia|].
  replace (Z.of_nat (0 + 2 * n)) with (2 * Z.of_nat n) by lia.
  rewrite Z.pow_mul_r by lia. apply Z.pow_le_mono_l. lia.
Qed.

Lemma Forall_is_digit_zeros n : Forall is_digit (replicate n 0).
Proof. apply Forall_replicate. unfold is_digit. lia. Qed.

Lemma val62_drop_zeros dst rs : Forall (.= 0) (drop rs dst) → val62 (take rs dst) = val62 dst.
Proof.
  revert rs. induction dst as [|d dst IH]; intros [|rs]; simpl; intros Hz; try done.
  - inversion Hz as [|? ? -> Hz']; subst. by rewrite (val62_zeros dst).
  - by rewrite IH.
Qed.

(** The digits written are the number the bytes are. *)
Lemma Encode_digits_value src :
  Forall is_byte src →
  val62 (rev (Encode_digits src)) = val256 src 0 ∧ Forall is_digit (Encode_digits src).
Proof.
  intros Hs. unfold Encode_digits. set (cs := buffer_size (length src)).
  assert (val62 (replicate cs 0) = 0) as H0 by (apply val62_zeros, Forall_replicate; done).
  destruct (encode_loop_spec src (replicate cs 0) 0 Hs) as (dst & rs & -> & Hl & Hv & Hz & Hr & Hd).
  - apply Forall_is_digit_zeros.
  - rewrite drop_0. by apply Forall_replicate.
  - lia.
  - rewrite H0, length_replicate. pose proof (buffer_size_fits (length src)). unfold cs. lia.
  - rewrite H0 in Hv. rewrite rev_involutive. case_bool_decide.
    + split; [by rewrite val62_drop_zeros|]. apply Forall_rev. by apply Forall_take.
    + split; [done|]. by apply Forall_rev.
Qed.

Lemma val256_inj a b :
  length a = length b → Forall is_byte a → Forall is_byte b → val256 a 0 = val256 b 0 → a = b.
Proof.
  unfold is_byte. revert b. induction a as [|x a IH] using rev_ind; intros b Hl Ha Hb.
  - by destruct b.
  - destruct b as [|y b] using rev_ind; [rewrite length_app in Hl; simpl in Hl; lia|].
    rewrite !length_app in Hl. simpl in Hl. rewrite !val256_app.
    apply Forall_app in Ha as [Ha Hx]. rewrite Forall_singleton in Hx.
    apply Forall_app in Hb as [Hb Hy]. rewrite Forall_singleton in Hy. intros Hv.
    assert (x = y) as -> by lia. f_equal. apply IH; [lia|done|done|lia].
Qed.

Lemma encodeStd_inj d d' :
  is_digit d → is_digit d' →
  default "0"%char (String.get (Z.to_nat d) encodeStd) =
  default "0"%char (String.get (Z.to_nat d') encodeStd) → d = d'.
Proof.
  unfold is_digit. intros Hd Hd' Heq.
  assert (Forall (λ n, Forall (λ m,
    default "0"%char (String.get n encodeStd) = default "0"%char (String.get m encodeStd) → n = m)
    (seq 0 62)) (seq 0 62)) as Hall by (apply (bool_decide_unpack _); vm_compute; exact I).
  rewrite Forall_forall in Hall. specialize (Hall (Z.to_nat d)). rewrite Forall_forall in Hall.
  assert (Z.to_nat d = Z.to_nat d') as Hn.
  { apply Hall; [apply elem_of_seq; lia|apply elem_of_seq; lia|done]. }
  lia.
Qed.

Lemma map_inj_on {A B} (P : A → Prop) (f : A → B) l l' :
  (∀ x y, P x → P y → f x = f y → x = y) → Forall P l → Forall P l' → map f l = map f l' → l = l'.
Proof.
  intros Hf Hl. revert l'. induction Hl as [|x l Hx _ IH]; intros [|y l'] Hl' Heq; try done.
  inversion Hl'; subst. simpl in Heq. injection Heq as Hxy Heq. f_equal; [by apply Hf|by apply IH].
Qed.

(** Base 62 loses nothing: two different byte strings of one length, such as
    two hashes, have different encodings. *)
Theorem EncodeToString_inj a b :
  length a = length b → Forall is_byte a → Forall is_byte b →
  EncodeToString a = EncodeToString b → a = b.
Proof.
  intros Hl Ha Hb Heq. apply (f_equal String.list_ascii_of_string) in Heq. unfold EncodeToString in Heq.
  rewrite !String.list_ascii_of_string_of_list_ascii in Heq.
  destruct (Encode_digits_value a Ha) as [Hva Hda]. destruct (Encode_digits_value b Hb) as [Hvb Hdb].
  apply (map_inj_on is_digit _ _ _ encodeStd_inj Hda Hdb) in Heq.
  apply val256_inj; [done..|]. by rewrite <-Hva, <-Hvb, Heq.
Qed.

Lemma EncodeToString_inj_witness :
  EncodeToString [0; 255] = "47" ∧ EncodeToString [1; 0] ≠ "47" ∧
  (∀ b : Z, 0 ≤ b < 256 → EncodeToString [0; b] = "47" → b = 255).
Proof.
  split; [vm_compute; reflexivity|]. split; [vm_compute; discriminate|].
  intros b Hb He. assert ([0; b] = [0; 255]) as [= H]; [|exact H].
  apply EncodeToString_inj.
  - reflexivity.
  - repeat constructor; unfold is_byte; lia.
  - repeat constructor; unfold is_byte; lia.
  - rewrite He. vm_compute. reflexivity.
Defined.
