(* ===== verification/TaskSpec.v ===== *)
(** * Task specifications

    [internal/server/workflow/taskspec.go] and the task operations of
    [operations.go], with [common/task/task.go] (the identifier of a
    specification) and [common/validation/service_task.go]. *)
From S2P Require Import Prelude Model Errors Env Sim Common Wp NatsUtil Vars Base62.

(** ** Identifiers *)
Definition Bytes (s : string) : list Z :=
  map (λ c, Z.of_N (Ascii.N_of_ascii c)) (String.list_ascii_of_string s).

(** [fmt.Sprint] of a bool. *)
Definition Sprint (b : bool) : string := if b then "true" else "false".

(** What the hash reads, in the order of its [Write] calls. *)
Definition input_text (v : TaskParameter) : string :=
  pm_Type v +:+ pm_Name v +:+ Sprint (pm_Collection v) +:+ Sprint (pm_Mandatory v).

Definition output_text (v : TaskParameter) : string :=
  pm_Type v +:+ pm_Name v +:+ Sprint (pm_Collection v).

Definition hashed (spec : TaskSpec) (md : TaskMetadata) : string :=
  Join "" [ts_Kind spec; ts_Version spec; md_Type md; md_Version md] +:+
  match ts_Parameters spec with
  | None => ""
  | Some p => Join "" (map input_text (tp_Input p)) +:+ Join "" (map output_text (tp_Output p))
  end.

Section uid.
Context `{Env}.

Definition CreateUID (spec : TaskSpec) : M string :=
  md ← deref "spec.Metadata" (ts_Metadata spec);
  mret (EncodeToString (Bytes (sha256 (hashed spec md)))).
End uid.

(** ** Validation *)
Inductive validation_error :=
  | ErrTaskSpecVersion | ErrServiceTaskNoMetadata | ErrServiceTaskDuration | ErrNoDefaultRetry
  | ErrServiceMockValue | ErrServiceTaskNatsName | ErrInvalidRetry
  | ErrBadExpression (err : error) | ErrBadName.

Definition validNATSName (name : string) : bool := lacks "." name && lacks " " name.

Definition exp_name_char (c : ascii) : bool :=
  let n := Ascii.N_of_ascii c in
  ((97 <=? n) && (n <=? 122) || (65 <=? n) && (n <=? 90) || (48 <=? n) && (n <=? 57)
   || (n =? 95))%N.

Definition is_digit_char (c : ascii) : bool :=
  let n := Ascii.N_of_ascii c in ((48 <=? n) && (n <=? 57))%N.

(** The empty name passes the loop and fails on [name[0]]. *)
Definition validExpName (name : string) : res validation_error unit :=
  if forallb exp_name_char (String.list_ascii_of_string name) then
    match name with
    | EmptyString => Panic "index out of range [0] with length 0"
    | String c _ => if is_digit_char c then Err ErrBadName else Ok tt
    end
  else Err ErrBadName.

Section validation.
Context `{Env}.

(** An expression that is given must compile. *)
Definition compiles (ex : string) : res validation_error unit :=
  if bool_decide (ex = "") then Ok tt
  else match expr_compile (TrimPrefixEq ex) with
       | Some err => Err (ErrBadExpression err)
       | None => Ok tt
       end.

Definition guard_res (b : bool) (e : validation_error) : res validation_error unit :=
  if b then Err e else Ok tt.

(** [m; k]: the next check runs when this one passed. *)
Definition then_res (m k : res validation_error unit) : res validation_error unit :=
  match m with Ok _ => k | r => r end.

Definition validInput (mock : bool) (v : TaskParameter) : res validation_error unit :=
  then_res (compiles (pm_ValidateExpr v)) (then_res (validExpName (pm_Name v))
    (if bool_decide (pm_Example v = "") then guard_res mock ErrServiceMockValue
     else compiles (pm_Example v))).

Definition ValidateTaskSpec (td : TaskSpec) : res validation_error unit :=
  if negb (bool_decide (ts_Version td = "1.0")) then Err ErrTaskSpecVersion else
  match ts_Metadata td with
  | None => Err ErrServiceTaskNoMetadata
  | Some md =>
      if negb (validNATSName (md_Type md)) then Err ErrServiceTaskNatsName else
      match ts_Behaviour td with
      | None => Err ErrServiceTaskNoMetadata
      | Some b =>
          if bool_decide (tb_EstimatedMaxDuration b = 0%Z) then Err ErrServiceTaskDuration else
          match tb_DefaultRetry b with
          | None => Err ErrNoDefaultRetry
          | Some retry =>
              if bool_decide (rt_DefaultExceeded retry = None) then Err ErrNoDefaultRetry else
              if bool_decide (rt_IntervalMilli retry = 0%Z) then Err ErrNoDefaultRetry else
              if bool_decide (rt_MaxMilli retry = 0%Z ∨ (rt_MaxMilli retry <= rt_IntervalMilli retry)%Z)
              then Err ErrInvalidRetry else
              then_res
                match tb_MockBehaviour b with
                | None => Ok tt
                | Some mb => then_res (compiles (mb_ErrorCodeExpr mb)) (compiles (mb_FatalErrorExpr mb))
                end
                match ts_Parameters td with
                | None => Ok tt
                | Some p => foldr (λ v k, then_res (validInput (tb_Mock b) v) k) (Ok tt) (tp_Input p)
                end
          end
      end
  end.
End validation.

(** ** Operations *)
Record TaskSpecUsageReport := mkTaskSpecUsageReport {
  ur_Workflow : list string;
  ur_Process : list string;
  ur_ExecutingWorkflow : list string;
  ur_ExecutingProcessInstance : list string }.

Section taskspec.
Context `{Env}.

Definition GetTaskSpecVersions (ctx : Ctx) (name : string) : M TaskSpecVersions :=
  _ ← nsKVs ctx;
  wrapping (Wrap "opening task spec versions") (LoadObj TaskSpecVersions (GetNS ctx) WfTaskSpecVer name).

(** [l[len(l)-1]] *)
Definition last_elem {A} (l : list A) : M A := deref "index out of range [-1]" (last l).

Definition GetTaskSpecUID (ctx : Ctx) (name : string) : M string :=
  tskVer ← wrapping (Wrap "opening task spec versions") (GetTaskSpecVersions ctx name);
  last_elem (tsv_Id tskVer).

Definition ensureServiceTaskConsumer (ctx : Ctx) (uid : string) : M unit :=
  wrapping (Wrap "add service task consumer")
    (natsConsumer ("ServiceTask_" +:+ GetNS ctx +:+ "_" +:+ uid)).

(** The announcement is sent from inside the update function, so once per
    attempt; its subject is chosen after the append. *)
Definition put_version (ctx : Ctx) (spec : TaskSpec) (uid : string) (v : TaskSpecVersions) :
    M TaskSpecVersions :=
  let v := v <| tsv_Id ::= λ l, l ++ [uid] |> in
  let subj := if bool_decide (tsv_Id v = []) then messages.WorkflowSystemTaskUpdate
              else messages.WorkflowSystemTaskCreate in
  _ ← wrapping (Wrap "send system message")
        (natsPublish (mkMsg subj {[header.SharNamespace := GetNS ctx]} (Marshal spec)));
  mret v.

Definition PutTaskSpec (ctx : Ctx) (spec : TaskSpec) : M string :=
  _ ← nsKVs ctx;
  uid ← wrapping (Wrap "put task spec: hash task") (CreateUID spec);
  md ← deref "spec.Metadata" (ts_Metadata spec);
  let md := md <| md_Uid := uid |> in
  let spec := spec <| ts_Metadata := Some md |> in
  _ ← wrapping (Wrap "ensure consumer for service task") (ensureServiceTaskConsumer ctx uid);
  _ ← wrapping (Wrap "saving task spec") (SaveObj (GetNS ctx) WfTaskSpec uid spec);
  _ ← wrapping (Wrap "saving task spec version")
        (check (UpdateObj (GetNS ctx) WfTaskSpecVer (md_Type md) (zero : TaskSpecVersions)
                  (put_version ctx spec uid)));
  mret uid.

Definition GetTaskSpecByUID (ctx : Ctx) (uid : string) : M TaskSpec :=
  _ ← nsKVs ctx;
  wrapping (Wrap "loading task spec") (LoadObj TaskSpec (GetNS ctx) WfTaskSpec uid).

(** The elements of a workflow that run one of the given specifications: the
    process ids and workflow names of the two report maps. *)
Definition element_uses (uids : list string) (el : Element) : bool :=
  bool_decide (el_Type el = element.ServiceTask) &&
  match el_Version el with Some v => bool_decide (v ∈ uids) | None => false end.

Definition workflow_usage (uids : list string) (wf : Workflow) (rpt : gset string * gset string) :
    M (gset string * gset string) :=
  prs ← range (wf_Process wf);
  mret (foldl (λ r pr,
    if existsb (element_uses uids) (pr_Elements pr.2)
    then ({[wf_Name wf]} ∪ r.1, {[pr_Id pr.2]} ∪ r.2) else r) rpt prs).

(** The loop over the stored process instances; every one is reported. *)
Definition instance_usage (ns : string) (piKeys : list string) : M (gset string * gset string) :=
  for_fold piKeys (λ r piKey,
    pi ← wrapping (Wrap "task spec usage by name get process instance")
           (LoadObj ProcessInstance ns WfProcessInstance piKey);
    mret ({[pi_WorkflowId pi]} ∪ r.1, {[pi_ProcessInstanceId pi]} ∪ r.2)) (∅, ∅).

Definition usage_report (r e : gset string * gset string) : TaskSpecUsageReport :=
  mkTaskSpecUsageReport (elements r.1) (elements r.2) (elements e.1) (elements e.2).

(** Workflow ids are looked up in the bucket of workflow versions, which is
    keyed by workflow name. *)
Definition GetTaskSpecUsageByName (ctx : Ctx) (name : string) : M TaskSpecUsageReport :=
  _ ← nsKVs ctx;
  taskSpecVersions ← wrapping (Wrap "get task spec versions") (GetTaskSpecVersions ctx name);
  wfKeys ← wrapping (Wrap "task spec usage by name get workflow version keys") (kvKeys (GetNS ctx) Wf);
  rpt ← for_fold wfKeys (λ r vk,
          wf ← wrapping (λ _, New "task spec usage by name get workflow")
                 (LoadObj Workflow (GetNS ctx) WfVersion vk);
          workflow_usage (tsv_Id taskSpecVersions) wf r) (∅, ∅);
  piKeys ← wrapping (Wrap "task spec usage by name get process instance keys")
             (kvKeys (GetNS ctx) WfProcessInstance);
  e ← instance_usage (GetNS ctx) piKeys;
  mret (usage_report rpt e).

Definition GetExecutableWorkflowIds (ctx : Ctx) : M (list string) :=
  _ ← wrapping (Wrap "GetExecutableWorkflowIds - failed getting KVs") (KvsFor (GetNS ctx));
  verKeys ← wrapping (Wrap "get workflow version keys") (kvKeys (GetNS ctx) WfVersion);
  for_fold verKeys (λ res verKey,
    wfv ← wrapping (Wrap "get workflow version") (LoadObj WorkflowVersions (GetNS ctx) WfVersion verKey);
    v ← last_elem (wvs_Version wfv);
    mret (res ++ [wv_Id v])) [].

(** An error of [ErrNoKeysFound] is no keys. *)
Definition keys_or_none (msg : string) (m : M (list string)) : M (list string) :=
  r ← attempt m;
  match r with
  | inl ks => mret ks
  | inr err => if Is err ErrNoKeysFound then mret [] else throw (Wrap msg err)
  end.

Definition GetTaskSpecUsage (ctx : Ctx) (uid : list string) : M TaskSpecUsageReport :=
  _ ← nsKVs ctx;
  wfKeys ← keys_or_none "get executable workflows" (GetExecutableWorkflowIds ctx);
  rpt ← for_fold wfKeys (λ r vk,
          wf ← wrapping (λ _, New "task spec usage by name get workflow")
                 (LoadObj Workflow (GetNS ctx) Wf vk);
          workflow_usage uid wf r) (∅, ∅);
  piKeys ← keys_or_none "task spec usage by name get process instance keys"
             (kvKeys (GetNS ctx) WfProcessInstance);
  e ← instance_usage (GetNS ctx) piKeys;
  mret (usage_report rpt e).

Definition zero_behaviour : TaskBehaviour := mkTaskBehaviour None 0 false false false None.

Definition deprecated (v : TaskSpec) : TaskSpec :=
  v <| ts_Behaviour ::= λ b, Some (default zero_behaviour b <| tb_Deprecated := true |>) |>.

Definition DeprecateTaskSpec (ctx : Ctx) (uid : list string) : M unit :=
  _ ← nsKVs ctx;
  for_each uid (λ u,
    _ ← wrapping (Wrap "deprecate task spec update task")
          (check (UpdateObj (GetNS ctx) WfTaskSpec u (zero : TaskSpec) (λ v, mret (deprecated v))));
    mret tt).

Definition is_deprecated (st : TaskSpec) : bool :=
  match ts_Behaviour st with Some b => tb_Deprecated b | None => false end.

Definition checkProcessTaskDeprecation (ctx : Ctx) (workflow : Workflow) (processId : string) : M unit :=
  pr ← deref "workflow.Process[processId]" (wf_Process workflow !! processId);
  for_each (pr_Elements pr) (λ el,
    if bool_decide (el_Type el = element.ServiceTask) then
      version ← deref "el.Version" (el_Version el);
      st ← wrapping (Wrap "get task spec by uid") (GetTaskSpecByUID ctx version);
      if is_deprecated st then throw (New "process contains deprecated task") else mret tt
    else mret tt).

Definition ListTaskSpecUIDs (ctx : Ctx) (include_deprecated : bool) : M (list string) :=
  _ ← nsKVs ctx;
  vers ← wrapping (Wrap "get task spec version keys") (kvKeys (GetNS ctx) WfTaskSpecVer);
  for_fold vers (λ ret v,
    ver ← wrapping (Wrap "get task spec version") (LoadObj TaskSpecVersions (GetNS ctx) WfTaskSpecVer v);
    latestVer ← last_elem (tsv_Id ver);
    latest ← wrapping (Wrap "get task spec") (GetTaskSpecByUID ctx latestVer);
    if include_deprecated
       || match ts_Behaviour latest with Some b => negb (tb_Deprecated b) | None => false end
    then mret (ret ++ [latestVer]) else mret ret) [].
End taskspec.

(** ** Effects *)
Section taskspec_reads.
Context `{EnvOk} (ctx : Ctx) (T : Cells) (P : Msg → Prop).

Lemma eff_CreateUID spec : preserves (effect T P) (CreateUID spec).
Proof. unfold CreateUID. preserves_tac. Qed.
Lemma eff_last_elem {A} (l : list A) : preserves (effect T P) (last_elem l).
Proof. unfold last_elem. preserves_tac. Qed.
Lemma eff_GetTaskSpecVersions n : preserves (effect T P) (GetTaskSpecVersions ctx n).
Proof. unfold GetTaskSpecVersions. preserves_tac. Qed.
Lemma eff_GetTaskSpecByUID n : preserves (effect T P) (GetTaskSpecByUID ctx n).
Proof. unfold GetTaskSpecByUID. preserves_tac. Qed.
#[local] Hint Resolve eff_last_elem eff_GetTaskSpecVersions eff_GetTaskSpecByUID : preserves.
Lemma eff_GetTaskSpecUID n : preserves (effect T P) (GetTaskSpecUID ctx n).
Proof. unfold GetTaskSpecUID. preserves_tac. Qed.
Lemma eff_ensureServiceTaskConsumer u : preserves (effect T P) (ensureServiceTaskConsumer ctx u).
Proof. unfold ensureServiceTaskConsumer. preserves_tac. Qed.
Lemma eff_workflow_usage l wf r : preserves (effect T P) (workflow_usage l wf r).
Proof. unfold workflow_usage. preserves_tac. Qed.
Lemma eff_instance_usage ns l : preserves (effect T P) (instance_usage ns l).
Proof. unfold instance_usage. preserves_tac. Qed.
Lemma eff_GetExecutableWorkflowIds : preserves (effect T P) (GetExecutableWorkflowIds ctx).
Proof. unfold GetExecutableWorkflowIds. preserves_tac. Qed.
Lemma eff_keys_or_none m k : preserves (effect T P) k → preserves (effect T P) (keys_or_none m k).
Proof. intros. unfold keys_or_none. preserves_tac. Qed.
#[local] Hint Resolve eff_workflow_usage eff_instance_usage eff_GetExecutableWorkflowIds
  eff_keys_or_none : preserves.
Lemma eff_GetTaskSpecUsageByName n : preserves (effect T P) (GetTaskSpecUsageByName ctx n).
Proof. unfold GetTaskSpecUsageByName. preserves_tac. Qed.
Lemma eff_GetTaskSpecUsage l : preserves (effect T P) (GetTaskSpecUsage ctx l).
Proof. unfold GetTaskSpecUsage. preserves_tac. Qed.
Lemma eff_checkProcessTaskDeprecation wf p :
  preserves (effect T P) (checkProcessTaskDeprecation ctx wf p).
Proof. unfold checkProcessTaskDeprecation. preserves_tac. Qed.
Lemma eff_ListTaskSpecUIDs d : preserves (effect T P) (ListTaskSpecUIDs ctx d).
Proof. unfold ListTaskSpecUIDs. preserves_tac. Qed.
End taskspec_reads.

#[export] Hint Resolve eff_CreateUID eff_last_elem eff_GetTaskSpecVersions eff_GetTaskSpecByUID
  eff_GetTaskSpecUID eff_ensureServiceTaskConsumer eff_GetExecutableWorkflowIds eff_keys_or_none
  eff_GetTaskSpecUsageByName eff_GetTaskSpecUsage eff_checkProcessTaskDeprecation
  eff_ListTaskSpecUIDs : preserves.

Section taskspec_effects.
Context `{EnvOk} (ctx : Ctx) (T : Cells) `{!Lesser ctx T}.
Abbreviation within := (effect T (msg_ns (GetNS ctx))).

Lemma eff_put_version spec uid v : preserves within (put_version ctx spec uid v).
Proof.
  unfold put_version. cbv zeta. preserves_step; [|preserves_tac].
  apply preserves_wrapping, eff_natsPublish. unfold msg_ns. simpl. by rewrite lookup_singleton_eq.
Qed.
#[local] Hint Resolve eff_put_version : preserves.
Lemma eff_PutTaskSpec spec : preserves within (PutTaskSpec ctx spec).
Proof. unfold PutTaskSpec. preserves_tac. Qed.
Lemma eff_DeprecateTaskSpec l : preserves within (DeprecateTaskSpec ctx l).
Proof. unfold DeprecateTaskSpec. preserves_tac. Qed.
End taskspec_effects.

#[export] Hint Resolve eff_PutTaskSpec eff_DeprecateTaskSpec : preserves.

(** ** Runs without faults *)
Section taskspec_spec.
Context `{EnvOk} (NF : NoFaults) (ctx : Ctx).
Abbreviation ns := (GetNS ctx).

Lemma wp_natsConsumer n w Φ : (∀ w', w' ≡ w → Φ w' (Ok tt)) → wp (natsConsumer n) w Φ.
Proof. intros HΦ. apply wp_nats; [done|]. by apply HΦ. Qed.

Lemma wp_GetTaskSpecByUID uid spec w Φ :
  w_get w ns WfTaskSpec uid = Some (DTaskSpec spec) →
  (∀ w', w' ≡ w → Φ w' (Ok spec)) → wp (GetTaskSpecByUID ctx uid) w Φ.
Proof.
  intros Hg HΦ. unfold GetTaskSpecByUID. wp_steps. apply wp_nsKVs; [done|]. intros w1 Hw1 _.
  wp_steps. apply (wp_LoadObj_some NF ns WfTaskSpec uid (DTaskSpec spec) spec); [by rewrite Hw1|done|].
  intros w2 Hw2. apply HΦ. by rewrite Hw2.
Qed.

Lemma wp_GetTaskSpecUID name l uid w Φ :
  w_get w ns WfTaskSpecVer name = Some (DTaskSpecVersions (mkTaskSpecVersions (l ++ [uid]))) →
  (∀ w', w' ≡ w → Φ w' (Ok uid)) → wp (GetTaskSpecUID ctx name) w Φ.
Proof.
  intros Hg HΦ. unfold GetTaskSpecUID, GetTaskSpecVersions. wp_steps.
  apply wp_nsKVs; [done|]. intros w1 Hw1 _. wp_steps.
  eapply (wp_LoadObj_some NF ns WfTaskSpecVer name); [by rewrite Hw1|done|].
  intros w2 Hw2. cbv beta iota. unfold last_elem. simpl. rewrite last_snoc. wp_steps.
  apply HΦ. by rewrite Hw2.
Qed.

(** The versions stored under a task's name. *)
Definition versions (w : World) (name : string) : option (list string) :=
  match w_get w ns WfTaskSpecVer name with
  | None => Some []
  | Some (DTaskSpecVersions v) => Some (tsv_Id v)
  | Some _ => None
  end.

Lemma versions_unmarshal w name l :
  versions w name = Some l →
  match w_get w ns WfTaskSpecVer name with
  | Some d => Unmarshal d
  | None => Some (zero : TaskSpecVersions)
  end = Some (mkTaskSpecVersions l).
Proof.
  unfold versions. destruct (w_get _ _ _ _) as [[| | | | | | | |  |v| | | | | | | ]|]; try done.
  - intros [= <-]. by destruct v.
  - by intros [= <-].
Qed.

Definition with_uid (spec : TaskSpec) (md : TaskMetadata) (uid : string) : TaskSpec :=
  spec <| ts_Metadata := Some (md <| md_Uid := uid |>) |>.

Definition task_created (spec : TaskSpec) : Msg :=
  mkMsg messages.WorkflowSystemTaskCreate {[header.SharNamespace := ns]} (DTaskSpec spec).

Definition uid_of (spec : TaskSpec) (md : TaskMetadata) : string :=
  EncodeToString (Bytes (sha256 (hashed spec md))).

Lemma wp_PutTaskSpec spec md l w Φ :
  ts_Metadata spec = Some md → versions w (md_Type md) = Some l →
  (∀ w', let uid := uid_of spec md in
     w' ≡ w_put ns WfTaskSpecVer (md_Type md) (DTaskSpecVersions (mkTaskSpecVersions (l ++ [uid])))
            (w_pub (task_created (with_uid spec md uid))
               (w_put ns WfTaskSpec uid (DTaskSpec (with_uid spec md uid)) w)) →
     Φ w' (Ok uid)) →
  wp (PutTaskSpec ctx spec) w Φ.
Proof.
  intros Hmd Hl HΦ. unfold PutTaskSpec. wp_steps. apply wp_nsKVs; [done|]. intros w1 Hw1 _.
  wp_steps. unfold CreateUID. wp_steps. rewrite Hmd. wp_steps. fold (uid_of spec md).
  set (uid := uid_of spec md) in *. unfold ensureServiceTaskConsumer. wp_steps.
  apply wp_natsConsumer. intros w2 Hw2. wp_steps. apply wp_SaveObj; [done|]. intros w3 Hw3. wp_steps.
  unfold check. wp_steps.
  apply (wp_UpdateObj_run NF _ _ _ _ (mkTaskSpecVersions l)).
  { rewrite <-(versions_unmarshal w _ l Hl). rewrite Hw3, Hw2, Hw1.
    by rewrite w_get_put_ne by done. }
  intros w4 Hw4. unfold put_version. cbv zeta. wp_steps. simpl tsv_Id.
  rewrite bool_decide_false by (by destruct l). wp_steps. split; [done|].
  intros w5 Hw5. cbn [fst snd]. wp_steps. apply HΦ. rewrite Hw5, w_next_equiv, !w_put_pub, Hw4, Hw3, Hw2, Hw1. done.
Qed.

(** (C35) A task specification that was registered can be fetched by the
    identifier registration returned, is the current version of its task's name
    behind all earlier ones, and was announced once. *)
Theorem PutTaskSpec_roundtrip spec md l w :
  ts_Metadata spec = Some md → versions w (md_Type md) = Some l →
  wp (PutTaskSpec ctx spec) w (returns (λ w' uid,
    wp (GetTaskSpecByUID ctx uid) w' (returns (λ _ s, s = with_uid spec md uid)) ∧
    wp (GetTaskSpecUID ctx (md_Type md)) w' (returns (λ _ u, u = uid)) ∧
    versions w' (md_Type md) = Some (l ++ [uid]) ∧
    w_out w' = w_out w ++ [task_created (with_uid spec md uid)])).
Proof.
  intros Hmd Hl. apply (wp_PutTaskSpec spec md l); [done..|]. simpl. intros w' Hw'.
  set (uid := uid_of spec md) in *. split; [|split; [|split]].
  - eapply wp_GetTaskSpecByUID; [|by intros]. rewrite Hw', w_get_put_ne, w_get_pub by done.
    apply w_get_put_eq.
  - eapply wp_GetTaskSpecUID; [|by intros]. by rewrite Hw', w_get_put_eq.
  - unfold versions. by rewrite Hw', w_get_put_eq.
  - by rewrite Hw'.
Qed.

(** One turn of [DeprecateTaskSpec]. *)
Definition all_specs (w : World) (uids : list string) : Prop :=
  ∀ u, u ∈ uids → ∃ s, w_get w ns WfTaskSpec u = Some (DTaskSpec s).

Definition deprecated_at (w : World) (u : string) : Prop :=
  ∃ s, w_get w ns WfTaskSpec u = Some (DTaskSpec s) ∧ is_deprecated s = true.

Lemma is_deprecated_deprecated s : is_deprecated (deprecated s) = true.
Proof. by destruct s as [? ? ? [] ?]. Qed.

Definition elsewhere (uids : list string) (w w' : World) : Prop :=
  (∀ b k, ¬ (b = WfTaskSpec ∧ k ∈ uids) → w_get w' ns b k = w_get w ns b k) ∧ w_out w' = w_out w.

Lemma wp_DeprecateTaskSpec uids w Φ :
  all_specs w uids →
  (∀ w', (∀ u, u ∈ uids → deprecated_at w' u) → elsewhere uids w w' → Φ w' (Ok tt)) →
  wp (DeprecateTaskSpec ctx uids) w Φ.
Proof.
  intros Hall HΦ. unfold DeprecateTaskSpec. wp_steps. apply wp_nsKVs; [done|]. intros w1 Hw1 _.
  apply (wp_for_each (λ l w', all_specs w' l ∧ l ⊆ uids ∧
    (∀ u, u ∈ uids → u ∈ l ∨ deprecated_at w' u) ∧ elsewhere uids w w')).
  - split; [|split; [done|split; [by left|]]].
    + intros u Hu. destruct (Hall u Hu) as [s Hs]. exists s. by rewrite Hw1.
    + split; [intros b k _; by rewrite Hw1|by rewrite Hw1].
  - intros u l w2 (Hl & Hsub & Hd & Hb & Ho). destruct (Hl u) as [s Hs]; [left|]. wp_steps.
    apply (wp_check_UpdateObj NF ns WfTaskSpec u _ s); [by rewrite Hs|]. intros w3 Hw3. wp_steps.
    simpl. split; [|split; [set_solver|split]].
    + intros u' Hu'. destruct (Hl u') as [s' Hs']; [by right|].
      destruct (decide (u' = u)) as [->|Hne].
      * exists (deprecated s). by rewrite Hw3, w_get_put_eq.
      * exists s'. by rewrite Hw3, w_get_put_ne by congruence.
    + intros u' Hu'. destruct (decide (u' = u)) as [->|Hne].
      { right. exists (deprecated s). by rewrite Hw3, w_get_put_eq, is_deprecated_deprecated. }
      destruct (Hd u' Hu') as [Hin|(s' & Hs' & Hd')]; [left; by apply elem_of_cons in Hin as [->|]|].
      right. exists s'. by rewrite Hw3, w_get_put_ne by congruence.
    + split; [|by rewrite Hw3]. intros b k Hbk. rewrite Hw3, w_get_put_ne; [by apply Hb|].
      intros [= -> ->]. apply Hbk. split; [done|]. apply Hsub. left.
  - intros w' (_ & _ & Hd & He). apply HΦ; [|done]. intros u Hu.
    by destruct (Hd u Hu) as [[]%elem_of_nil|].
Qed.

(** Every service task names a specification that is stored. *)
Definition tasks_registered (w : World) (els : list Element) : Prop :=
  ∀ el, el ∈ els → el_Type el = element.ServiceTask →
    ∃ v s, el_Version el = Some v ∧ w_get w ns WfTaskSpec v = Some (DTaskSpec s).

Definition runs_deprecated (w : World) (el : Element) : Prop :=
  el_Type el = element.ServiceTask ∧ ∃ v, el_Version el = Some v ∧ deprecated_at w v.

Lemma runs_deprecated_equiv w w' el : w ≡ w' → runs_deprecated w el → runs_deprecated w' el.
Proof.
  intros Hw (Ht & v & Hv & s & Hs & Hd). split; [done|]. exists v. split; [done|]. exists s.
  by rewrite <-Hw.
Qed.

Lemma wp_checkProcessTaskDeprecation wf pid pr w Φ :
  wf_Process wf !! pid = Some pr → tasks_registered w (pr_Elements pr) →
  (∀ w' r, w' ≡ w → (r = Ok tt ∨ ∃ e, r = Err e) →
     (r = Ok tt ↔ ∀ el, el ∈ pr_Elements pr → ¬ runs_deprecated w el) → Φ w' r) →
  wp (checkProcessTaskDeprecation ctx wf pid) w Φ.
Proof.
  intros Hpr Hreg HΦ. unfold checkProcessTaskDeprecation. rewrite Hpr. wp_steps. clear Hpr.
  revert w Hreg HΦ. induction (pr_Elements pr) as [|el els IH]; intros w Hreg HΦ; simpl.
  - wp_steps. apply HΦ; [done|by left|]. split; [intros _ el []%elem_of_nil|done].
  - wp_steps. assert (tasks_registered w els) as Hreg' by (intros e He; apply Hreg; by right).
    destruct (decide (el_Type el = element.ServiceTask)) as [Ht|Ht].
    + rewrite bool_decide_true by done. destruct (Hreg el) as (v & s & Hv & Hs); [left|done|].
      rewrite Hv. wp_steps. apply (wp_GetTaskSpecByUID v s); [done|]. intros w1 Hw1.
      destruct (is_deprecated s) eqn:Hd; wp_steps.
      * apply HΦ; [done|by right; eexists|]. split; [done|]. intros Hall. exfalso.
        apply (Hall el); [left|]. split; [done|]. exists v. split; [done|]. by exists s.
      * apply IH.
        { intros e He He'. destruct (Hreg' e He He') as (v' & s' & Hv' & Hs'). exists v', s'. by rewrite Hw1. }
        intros w2 r Hw2 Hr Hiff.
        apply HΦ; [by rewrite Hw2|done|]. rewrite Hiff. split; intros Hall e He.
        -- apply elem_of_cons in He as [->|He].
           ++ intros (_ & v' & Hv' & s' & Hs' & Hd'). congruence.
           ++ intros Hrd. apply (Hall e He). by apply (runs_deprecated_equiv w).
        -- intros Hrd. apply (Hall e); [by right|]. by apply (runs_deprecated_equiv w1).
    + rewrite bool_decide_false by done. wp_steps. apply IH; [done|]. intros w2 r Hw2 Hr Hiff.
      apply HΦ; [done..|]. rewrite Hiff. split; intros Hall e He.
      * apply elem_of_cons in He as [->|He]; [by intros []|by apply Hall].
      * apply Hall. by right.
Qed.

(** Deprecation closes launches: after [DeprecateTaskSpec uids], the check a
    launch makes on a process with registered tasks passes exactly when none of
    its service tasks runs one of [uids] or a specification that was deprecated
    before; in the other cases it is an error. *)
Theorem DeprecateTaskSpec_blocks uids wf pid pr w :
  wf_Process wf !! pid = Some pr → all_specs w uids → tasks_registered w (pr_Elements pr) →
  wp (DeprecateTaskSpec ctx uids) w (returns (λ w' _,
    wp (checkProcessTaskDeprecation ctx wf pid) w' (λ _ r,
      (r = Ok tt ∨ ∃ e, r = Err e) ∧
      (r = Ok tt ↔ ∀ el u, el ∈ pr_Elements pr → el_Type el = element.ServiceTask →
         el_Version el = Some u → u ∉ uids ∧ ¬ deprecated_at w u)))).
Proof.
  intros Hpr Hall Hreg. apply wp_DeprecateTaskSpec; [done|]. intros w' Hdep [He Ho]. simpl.
  apply (wp_checkProcessTaskDeprecation wf pid pr); [done|..].
  - intros el Hel Ht. destruct (Hreg el Hel Ht) as (v & s & Hv & Hs).
    destruct (decide (v ∈ uids)) as [Hin|Hin].
    + destruct (Hdep v Hin) as (s' & Hs' & _). by exists v, s'.
    + exists v, s. by rewrite He by naive_solver.
  - intros w2 r Hw2 Hr Hiff. split; [done|]. rewrite Hiff. split.
    + intros Hno el u Hel Ht Hu. split.
      * intros Hin. apply (Hno el Hel). split; [done|]. exists u. split; [done|]. by apply Hdep.
      * intros (s & Hs & Hd). destruct (decide (u ∈ uids)) as [Hin|Hin].
        -- apply (Hno el Hel). split; [done|]. exists u. split; [done|]. by apply Hdep.
        -- apply (Hno el Hel). split; [done|]. exists u. split; [done|]. exists s.
           by rewrite He by naive_solver.
    + intros Hok el Hel (Ht & u & Hu & s & Hs & Hd). destruct (Hok el u Hel Ht Hu) as [Hin Hnd].
      apply Hnd. exists s. by rewrite <-He by naive_solver.
Qed.
End taskspec_spec.

(** The identifier does not tell all specifications apart: the hashed text
    has no separators, so two valid specifications of differently named tasks
    share their identifier whatever the hash, and the second to be registered
    replaces the first. *)
Theorem CreateUID_collision `{Env} w :
  ∃ a b : TaskSpec, ValidateTaskSpec a = Ok tt ∧ ValidateTaskSpec b = Ok tt ∧
    (md_Type <$> ts_Metadata a) ≠ (md_Type <$> ts_Metadata b) ∧
    CreateUID a w = CreateUID b w.
Proof.
  set (retry := mkDefaultTaskRetry 1 Linear 0 1000 2000 (Some (mkRetryExceeded PauseWorkflow "" "" "" ""))).
  set (beh := mkTaskBehaviour (Some retry) 1000 false false false None).
  exists (mkTaskSpec "1.0" "ServiceTask" (Some (mkTaskMetadata "" "Pay" "1.0")) (Some beh) None).
  exists (mkTaskSpec "1.0" "ServiceTask" (Some (mkTaskMetadata "" "Pay1" ".0")) (Some beh) None).
  done.
Qed.

(** ** Examples *)
Definition ex_spec : TaskSpec :=
  mkTaskSpec "1.0" "ServiceTask" (Some (mkTaskMetadata "" "Pay" "1.0"))
    (Some (mkTaskBehaviour None 1000 false false false None)) None.

Definition ex_task_ctx : Ctx := mkCtx (Some "ns") (Some "cid") ∅.

Lemma PutTaskSpec_roundtrip_witness :
  wp (PutTaskSpec (H := sim) ex_task_ctx ex_spec) world_init (returns (λ w' uid,
    wp (GetTaskSpecByUID ex_task_ctx uid) w' (returns (λ _ s, ts_Version s = "1.0")))).
Proof.
  eapply wp_mono; [|apply (PutTaskSpec_roundtrip sim_NoFaults ex_task_ctx ex_spec
    (mkTaskMetadata "" "Pay" "1.0") []); reflexivity].
  intros w' [uid| |]; simpl; [|done|done]. intros (Hs & _). eapply wp_mono; [|exact Hs].
  intros w2 [s| |]; simpl; [|done|done]. by intros ->.
Defined.

Definition ex_service : Element :=
  mkElement "pay" "" element.ServiceTask "" "Pay" None None None "" "" "" [] None ∅ ∅ None [] None
    None (Some "u1") None false.
Definition ex_task_wf : Workflow :=
  mkWorkflow "W" {["P" := mkProcess [ex_service] "P" None]} [] [] "" None ∅ "".

Lemma DeprecateTaskSpec_blocks_witness :
  wp (DeprecateTaskSpec (H := sim) ex_task_ctx ["u1"])
    (w_put "ns" WfTaskSpec "u1" (DTaskSpec ex_spec) world_init) (returns (λ w' _,
    wp (checkProcessTaskDeprecation ex_task_ctx ex_task_wf "P") w' (λ _ r, ∃ e, r = Err e))).
Proof.
  eapply wp_mono; [|apply (DeprecateTaskSpec_blocks sim_NoFaults ex_task_ctx ["u1"] ex_task_wf "P"
    (mkProcess [ex_service] "P" None))].
  - intros w' [[]| |]; simpl; [|done|done]. intros Hc. eapply wp_mono; [|exact Hc].
    intros w2 r ([->|He] & Hiff); [|done]. destruct Hiff as [Hf _].
    destruct (Hf eq_refl ex_service "u1") as [Hn _]; [left|done|done|]. destruct Hn. left.
  - reflexivity.
  - intros u ->%list_elem_of_singleton. by exists ex_spec.
  - intros el ->%list_elem_of_singleton _. by exists "u1", ex_spec.
Defined.
