(* ===== verification/Store.v ===== *)
(** * Storing and listing workflow definitions

    [storeWorkflow] of [internal/server/workflow/operations.go] with the checks
    it makes and the stores it fills, [common/workflow/workflow.go] (the hash of
    a definition), and the operations that list what is stored. *)
From S2P Require Import Prelude Model Errors Env Sim Common Wp NatsUtil Vars Publish History Instances TaskSpec.

Section store.
Context `{Env}.

(** ** Checks *)

(** A lookup that fails for another reason than a missing key leaves a nil entry
    whose value is read. *)
Definition validateUniqueProcessIdFor (ctx : Ctx) (wf : Workflow) : M unit :=
  _ ← nsKVs ctx;
  l ← range (wf_Process wf);
  existing ← for_fold l (λ (acc : gmap string string) p,
    r ← attempt (kvGet (GetNS ctx) WfProcess p.1);
    match r with
    | inr err =>
        if Is err ErrKeyNotFound then mret acc else panic "workFlowName.Value() of a nil entry"
    | inl (DBytes wfName, _) =>
        if bool_decide (wfName = wf_Name wf) then mret acc else mret (<[p.1 := wfName]> acc)
    | inl _ => panic "workflow name is not text"
    end) ∅;
  if bool_decide (existing = ∅) then mret tt
  else throw (New "These process names already exist under different workflows").

Definition validateUniqueMessageNames (ctx : Ctx) (wf : Workflow) : M unit :=
  _ ← nsKVs ctx;
  existing ← for_fold (wf_Messages wf) (λ (acc : gset string) msgType,
    r ← attempt (LoadObj MessageReceivers (GetNS ctx) WfMsgTypes (el_Name msgType));
    match r with
    | inl receivers =>
        if bool_decide (mrs_AssociatedWorkflowName receivers = wf_Name wf) then mret acc
        else mret ({[el_Name msgType]} ∪ acc)
    | inr _ => mret acc
    end) ∅;
  if bool_decide (existing = ∅) then mret tt
  else throw (New "these messages already exist for other workflows").

(** ** Filling in the definition *)
Definition populateMetadata (wf : Workflow) : Workflow :=
  wf <| wf_Process ::= fmap (λ p, p <| pr_TimedStart := Some
    (existsb (λ el, bool_decide (el_Type el = element.TimedStartEvent)) (pr_Elements p)) |>) |>.

(** The variables the output transforms of a service task read. *)
Definition output_variables (transform : gmap string string) : M (gset string) :=
  l ← range transform;
  for_fold l (λ (acc : gset string) kv,
    vars ← wrapping (λ _, New "an error occurred getting the variables from the output expression")
             (lift_sum (GetVariables kv.2));
    mret (list_to_set vars ∪ acc)) ∅.

Definition merge_retry (j : Element) (def : TaskSpec) : M Element :=
  match el_RetryBehaviour j with
  | None =>
      b ← deref "def.Behaviour" (ts_Behaviour def);
      mret (match tb_DefaultRetry b with
            | Some r => j <| el_RetryBehaviour := Some r |>
            | None => j
            end)
  | Some r =>
      b ← deref "def.Behaviour" (ts_Behaviour def);
      if bool_decide (rt_Number r = 0%Z) then mret (j <| el_RetryBehaviour := tb_DefaultRetry b |>)
      else
        d ← deref "j.RetryBehaviour" (tb_DefaultRetry b);
        mret (j <| el_RetryBehaviour := Some (d <| rt_Number := rt_Number r |>) |>)
  end.

Definition check_exceeded (wf : Workflow) (j : Element) (outVars : gset string) : M unit :=
  r ← deref "j.RetryBehaviour" (el_RetryBehaviour j);
  x ← deref "j.RetryBehaviour.DefaultExceeded" (rt_DefaultExceeded r);
  match rx_Action x with
  | SetVariableValue =>
      if bool_decide (rx_Variable x ∈ outVars) then mret tt
      else throw (New "retry exceeded output parameter was expected for service task, but is not handled")
  | ThrowWorkflowError =>
      match list_find (λ e, err_Code e = rx_ErrorCode x) (wf_Errors wf) with
      | None => throw (New "retry exceeded error code is not declared")
      | Some (_, wfErr) =>
          match list_find (λ e, ce_ErrorId e = err_Id wfErr) (el_Errors j) with
          | None => throw (New "retry exceeded error code can be thrown but is not handled")
          | Some _ => mret tt
          end
      end
  | _ => mret tt
  end.

Definition mandatory (msg : string) (ps : list TaskParameter) (has : string → bool) : M unit :=
  for_each ps (λ val,
    if pm_Mandatory val && negb (has (pm_Name val)) then throw (New msg) else mret tt).

(** One service task: a failure to look up its identifier other than a missing
    task goes on with the empty identifier. *)
Definition process_service_task (ctx : Ctx) (wf : Workflow) (svcTaskConsFn : string → M unit)
    (j : Element) : M Element :=
  r ← attempt (GetTaskSpecUID ctx (el_Execute j));
  id ← match r with
       | inl id => mret id
       | inr err => if Is err ErrKeyNotFound then throw (Wrap "task is not registered" err) else mret ""
       end;
  let j := j <| el_Version := Some id |> in
  def ← wrapping (Wrap "look up task spec") (GetTaskSpecByUID ctx id);
  let params := default (mkTaskParameters [] []) (ts_Parameters def) in
  _ ← mandatory "mandatory input parameter was expected for service task" (tp_Input params)
        (λ n, bool_decide (is_Some (el_InputTransform j !! n)));
  outVars ← output_variables (el_OutputTransform j);
  _ ← mandatory "mandatory output parameter was expected for service task" (tp_Output params)
        (λ n, bool_decide (n ∈ outVars));
  j ← merge_retry j def;
  _ ← check_exceeded wf j outVars;
  _ ← wrapping (Wrap "ensure consumer for service task") (svcTaskConsFn id);
  mret j.

Definition process_elements (ctx : Ctx) (wf : Workflow) (svcTaskConsFn : string → M unit)
    (els : list Element) : M (list Element) :=
  for_fold els (λ done j,
    j ← (if bool_decide (el_Type j = element.ServiceTask)
         then process_service_task ctx wf svcTaskConsFn j else mret j);
    mret (done ++ [j])) [].

Definition ProcessServiceTasks (ctx : Ctx) (wf : Workflow) (svcTaskConsFn : string → M unit)
    (wfProcessMappingFn : Workflow → Process → M unit) : M Workflow :=
  l ← range (wf_Process wf);
  for_fold l (λ wf p,
    els ← process_elements ctx wf svcTaskConsFn (pr_Elements p.2);
    let i := p.2 <| pr_Elements := els |> in
    let wf := wf <| wf_Process ::= <[p.1 := i]> |> in
    _ ← wrapping (Wrap "store the process to workflow mapping") (wfProcessMappingFn wf i);
    mret wf) wf.

(** [workflow.GetHash]: the hash of the definition without its source and
    without the metadata of its processes, which are put back afterwards. *)
Definition without_source (wf : Workflow) : Workflow :=
  wf <| wf_GzipSource := "" |> <| wf_Process ::= fmap (λ p, p <| pr_TimedStart := None |>) |>.

Definition GetHash (wf : Workflow) : M bytes :=
  b ← wrapping (Wrap "marshal the workflow definition") (lift_sum (json_workflow (without_source wf)));
  mret (sha256 b).

(** ** Storing *)
Definition ensureMessageBuckets (ctx : Ctx) (wf : Workflow) : M unit :=
  _ ← nsKVs ctx;
  for_each (wf_Messages wf) (λ m,
    let rcvrBytes := match wf_MessageReceivers wf !! el_Name m with
                     | None => DBytes ""
                     | Some receivers => Marshal receivers
                     end in
    _ ← wrapping (λ err, ErrWorkflowFatal err None)
          (Save (GetNS ctx) WfMsgTypes (el_Name m) rcvrBytes);
    ks ← newId;
    _ ← wrapping (Wrap "create a client task during workflow creation")
          (Save (GetNS ctx) WfClientTask (wf_Name wf +:+ "_" +:+ el_Name m) (DBytes ks));
    wrapping (Wrap "add service task consumer")
      (natsConsumer ("ServiceTask_" +:+ GetNS ctx +:+ "_" +:+ wf_Name wf +:+ "_" +:+ el_Name m))).

Definition createWorkflowProcessMappingFn (ctx : Ctx) (wf : Workflow) (i : Process) : M unit :=
  wrapping (Wrap "store the workflow process mapping")
    (kvPut (GetNS ctx) WfProcess (pr_Id i) (DBytes (wf_Name wf))).

(** The update of the version list; [wfID] and [newWf] are variables of
    [storeWorkflow]. *)
Definition add_version (ctx : Ctx) (wf : Workflow) (hash : bytes) (captured : string * bool)
    (v : WorkflowVersions) : M (string * bool * WorkflowVersions) :=
  let '(wfID, newWf) := captured in
  let n := Z.of_nat (length (wvs_Version v)) in
  match last (wvs_Version v) with
  | Some latest =>
      if bool_decide (hash = wv_Sha256 latest) then mret (wv_Id latest, newWf, v)
      else
        _ ← wrapping (λ _, New "save workflow") (SaveObj (GetNS ctx) Wf wfID wf);
        mret (wfID, true, v <| wvs_Version ::= λ l, l ++ [mkWorkflowVersion wfID hash (wrap32 (n + 1))] |>)
  | None =>
      _ ← wrapping (λ _, New "save workflow") (SaveObj (GetNS ctx) Wf wfID wf);
      mret (wfID, true, v <| wvs_Version := [mkWorkflowVersion wfID hash (wrap32 (n + 1))] |>)
  end.

Definition forEachTimedStartElement (pr : Process) (fn : Element → M unit) : M unit :=
  for_each (pr_Elements pr) (λ i,
    if bool_decide (el_Type i = element.TimedStartEvent)
    then wrapping (Wrap "timed start event execution") (fn i) else mret tt).

Definition start_timer (ctx : Ctx) (wf : Workflow) (wfID : string) (pr : Process) (el : Element) :
    M unit :=
  if bool_decide (el_Type el = element.TimedStartEvent) then
    now ← timeNow;
    let timer := zero_state
      <| ws_WorkflowId := wfID |> <| ws_ElementId := el_Id el |> <| ws_ElementName := el_Name el |>
      <| ws_UnixTimeNano := now |> <| ws_Timer := Some (mkWorkflowTimer 0 0) |>
      <| ws_WorkflowName := wf_Name wf |> <| ws_ProcessId := pr_Id pr |> in
    _ ← wrapping (Wrap "publish workflow timed execute")
          (PublishWorkflowState ctx (NS messages.WorkflowTimedExecute (GetNS ctx)) timer []);
    mret tt
  else mret tt.

Definition storeWorkflow (ctx : Ctx) (wf : Workflow) : M string :=
  _ ← wrapping (Wrap "process names are not unique") (validateUniqueProcessIdFor ctx wf);
  _ ← wrapping (Wrap "message names are not globally unique") (validateUniqueMessageNames ctx wf);
  let wf := populateMetadata wf in
  _ ← nsKVs ctx;
  wfID ← newId;
  wf ← ProcessServiceTasks ctx wf (ensureServiceTaskConsumer ctx) (createWorkflowProcessMappingFn ctx);
  hash ← wrapping (Wrap "store workflow failed to get the workflow hash") (GetHash wf);
  r ← wrapping (λ _, New "update workflow version")
        (check (UpdateObj_with (GetNS ctx) WfVersion (wf_Name wf) (zero : WorkflowVersions)
                  (wfID, false) (add_version ctx wf hash)));
  let '(wfID, newWf, _) := r in
  if negb newWf then mret wfID
  else
    _ ← wrapping (Wrap "create workflow message buckets") (ensureMessageBuckets ctx wf);
    prs ← range (wf_Process wf);
    _ ← for_each prs (λ pr,
          wrapping (Wrap "initialize all workflow timed start events")
            (forEachTimedStartElement pr.2 (start_timer ctx wf wfID pr.2)));
    mret wfID.

Definition LoadWorkflow (ctx : Ctx) (wf : Workflow) : M string :=
  wrapping (Wrap "store workflow") (storeWorkflow ctx wf).

(** ** Listing *)

(** [v] is one variable for the whole loop, so an entry that fails to load is
    reported and then listed with the version of the entry before it. *)
Fixpoint list_workflows (ns : string) (ks : list string) (v : WorkflowVersions) :
    M (Stream (string * Z)) :=
  match ks with
  | [] => mret ([], [])
  | k :: ks =>
      r ← LoadObjInto ns WfVersion k v;
      match r.2 with
      | Some err =>
          if Is err ErrNoKeysFound then list_workflows ns ks r.1
          else
            latest ← last_elem (wvs_Version r.1);
            s ← list_workflows ns ks r.1;
            mret ((k, wv_Number latest) :: s.1, err :: s.2)
      | None =>
          latest ← last_elem (wvs_Version r.1);
          s ← list_workflows ns ks r.1;
          mret ((k, wv_Number latest) :: s.1, s.2)
      end
  end.

Definition ListWorkflows (ctx : Ctx) : M (Stream (string * Z)) :=
  k ← attempt (nsKVs ctx);
  match k with
  | inr err => mret ([], [err])
  | inl _ =>
      ks ← attempt (kvKeys (GetNS ctx) WfVersion);
      match ks with
      | inl ks => list_workflows (GetNS ctx) ks zero
      | inr err => if Is err ErrNoKeysFound then mret ([], []) else mret ([], [err])
      end
  end.

Fixpoint list_executions (ns : string) (ver : gmap string WorkflowVersion) (ks : list string) :
    M (Stream (string * Z)) :=
  match ks with
  | [] => mret ([], [])
  | k :: ks =>
      r ← LoadObjInto ns WfExecution k (zero : Execution);
      match ver !! ex_WorkflowId r.1 with
      | None => list_executions ns ver ks
      | Some wv =>
          match r.2 with
          | Some err =>
              if Is err ErrKeyNotFound then mret ([], [err])
              else s ← list_executions ns ver ks; mret ((k, wv_Number wv) :: s.1, s.2)
          | None => s ← list_executions ns ver ks; mret ((k, wv_Number wv) :: s.1, s.2)
          end
      end
  end.

Definition ListExecutions (ctx : Ctx) (workflowName : string) : M (Stream (string * Z)) :=
  k ← attempt (nsKVs ctx);
  match k with
  | inr err => mret ([], [err])
  | inl _ =>
      v ← attempt (LoadObj WorkflowVersions (GetNS ctx) WfVersion workflowName);
      match v with
      | inr err => mret ([], [err])
      | inl wfv =>
          let ver := foldl (λ m v, <[wv_Id v := v]> m) ∅ (wvs_Version wfv) in
          ks ← attempt (kvKeys (GetNS ctx) WfExecution);
          match ks with
          | inl ks => list_executions (GetNS ctx) ver ks
          | inr err => if Is err ErrNoKeysFound then mret ([], []) else mret ([], [err])
          end
      end
  end.

Record ListExecutableProcessesItem := mkListExecutableProcessesItem {
  lp_ProcessId : string;
  lp_WorkflowName : string;
  lp_Parameter : list string }.

(** The parameters gathered so far are appended after every element. *)
Fixpoint start_parameters (els : list Element) (startParam : gset string) (acc : list string) :
    M (list string + error) :=
  match els with
  | [] => mret (inl acc)
  | el :: els =>
      r ← (if bool_decide (el_Type el = element.StartEvent) then
             l ← range (el_OutputTransform el);
             attempt (for_fold l (λ (sp : gset string) ex,
               v ← wrapping (Wrap "get expression variables") (lift_sum (GetVariables ex.2));
               mret (list_to_set v ∪ sp)) startParam)
           else mret (inl startParam));
      match r with
      | inr err => mret (inr err)
      | inl sp =>
          names ← range (gset_to_gmap tt sp);
          start_parameters els sp (acc ++ map fst names)
      end
  end.

Fixpoint list_processes (wf : Workflow) (ps : list (string * Process)) :
    M (list ListExecutableProcessesItem * option error) :=
  match ps with
  | [] => mret ([], None)
  | p :: ps =>
      r ← start_parameters (pr_Elements p.2) ∅ [];
      match r with
      | inr err => mret ([], Some err)
      | inl params =>
          s ← list_processes wf ps;
          mret (mkListExecutableProcessesItem (pr_Id p.2) (wf_Name wf) params :: s.1, s.2)
      end
  end.

(** The loads' errors are reported without leaving the loop. *)
Fixpoint list_executable (ns : string) (ks : list string) : M (Stream ListExecutableProcessesItem) :=
  match ks with
  | [] => mret ([], [])
  | k :: ks =>
      v ← LoadObjInto ns WfVersion k (zero : WorkflowVersions);
      if match v.2 with Some err => Is err ErrKeyNotFound | None => false end
      then list_executable ns ks
      else
        latest ← last_elem (wvs_Version v.1);
        w ← LoadObjInto ns Wf (wv_Id latest) (zero : Workflow);
        if match w.2 with Some err => Is err ErrKeyNotFound | None => false end
        then s ← list_executable ns ks; mret (s.1, option_list (Wrap "load workflow versions" <$> v.2) ++ s.2)
        else
          let errs := option_list (Wrap "load workflow versions" <$> v.2)
                        ++ option_list (Wrap "load workflow" <$> w.2) in
          ps ← range (wf_Process w.1);
          r ← list_processes w.1 ps;
          match r.2 with
          | Some err => mret (r.1, errs ++ [err])
          | None => s ← list_executable ns ks; mret (r.1 ++ s.1, errs ++ s.2)
          end
  end.

Definition ListExecutableProcesses (ctx : Ctx) : M (Stream ListExecutableProcessesItem) :=
  k ← attempt (nsKVs ctx);
  match k with
  | inr err => mret ([], [err])
  | inl _ =>
      ks ← attempt (kvKeys (GetNS ctx) WfVersion);
      match ks with
      | inr err => mret ([], [Wrap "get workflow keys" err])
      | inl ks => list_executable (GetNS ctx) ks
      end
  end.

(** An error other than a missing key is read as no receivers. *)
Definition GetProcessIdFor (ctx : Ctx) (startEventMessageName : string) : M string :=
  _ ← nsKVs ctx;
  r ← LoadObjInto (GetNS ctx) WfMsgTypes startEventMessageName (zero : MessageReceivers);
  let none := match r.2 with
              | Some err => Wrap "no message receivers" err
              | None => New "no message receivers"
              end in
  if match r.2 with Some err => Is err ErrKeyNotFound | None => false end
     || bool_decide (mrs_MessageReceiver r.1 = [])
  then throw none
  else match list_find (λ m, mr_ProcessIdToStart m ≠ "") (mrs_MessageReceiver r.1) with
       | Some (_, m) => mret (mr_ProcessIdToStart m)
       | None => throw none
       end.

(** ** Namespaces *)
Definition all_buckets : list Bucket :=
  [WfExecution; WfProcessInstance; WfUserTasks; WfTaskSpec; WfTaskSpecVer; Wf; WfVersion; WfTracking;
   Job; OwnerName; OwnerID; WfClientTask; WfGateway; WfHistory; WfLock; WfMsgTypes; WfProcess;
   WfMessages; WfClients; WfFatalError].

(** [js.KeyValueStores]: the stores of all namespaces. *)
Definition keyValueStores : M (list (string * Bucket)) :=
  gets (λ w, ns ← elements (w_namespaces w); map (pair ns) all_buckets).

(** [js.DeleteKeyValue]: reading the store afterwards finds nothing. *)
Definition deleteKeyValue (ns : string) (b : Bucket) : M unit :=
  nats (λ w, (w_set ns b kv_new w, Ok tt)).

Definition DeleteNamespace (ctx : Ctx) (ns : string) : M unit :=
  toDelete ← keyValueStores;
  for_each toDelete (λ bucket,
    wrapping (Wrap "delete key value") (deleteKeyValue bucket.1 bucket.2)).
End store.

(** ** Effects *)
Section store_reads.
Context `{EnvOk} (ctx : Ctx) (T : Cells) (P : Msg → Prop).

Lemma eff_validateUniqueProcessIdFor wf : preserves (effect T P) (validateUniqueProcessIdFor ctx wf).
Proof. unfold validateUniqueProcessIdFor. preserves_tac. Qed.
Lemma eff_validateUniqueMessageNames wf : preserves (effect T P) (validateUniqueMessageNames ctx wf).
Proof. unfold validateUniqueMessageNames. preserves_tac. Qed.
Lemma eff_output_variables t : preserves (effect T P) (output_variables t).
Proof. unfold output_variables. preserves_tac. Qed.
Lemma eff_merge_retry j d : preserves (effect T P) (merge_retry j d).
Proof. unfold merge_retry. preserves_tac. Qed.
Lemma eff_check_exceeded wf j o : preserves (effect T P) (check_exceeded wf j o).
Proof. unfold check_exceeded. preserves_tac. Qed.
Lemma eff_mandatory m ps h : preserves (effect T P) (mandatory m ps h).
Proof. unfold mandatory. preserves_tac. Qed.
#[local] Hint Resolve eff_output_variables eff_merge_retry eff_check_exceeded eff_mandatory : preserves.
Lemma eff_process_elements wf f els :
  (∀ u, preserves (effect T P) (f u)) → preserves (effect T P) (process_elements ctx wf f els).
Proof. intros. unfold process_elements, process_service_task. preserves_tac. Qed.
#[local] Hint Resolve eff_process_elements : preserves.
Lemma eff_ProcessServiceTasks wf f g :
  (∀ u, preserves (effect T P) (f u)) → (∀ wf p, preserves (effect T P) (g wf p)) →
  preserves (effect T P) (ProcessServiceTasks ctx wf f g).
Proof. intros. unfold ProcessServiceTasks. preserves_tac. Qed.
Lemma eff_GetHash wf : preserves (effect T P) (GetHash wf).
Proof. unfold GetHash. preserves_tac. Qed.
Lemma eff_list_workflows ns ks v : preserves (effect T P) (list_workflows ns ks v).
Proof. revert v. induction ks as [|k ks IH]; intros v; simpl; preserves_tac. Qed.
Lemma eff_list_executions ns m ks : preserves (effect T P) (list_executions ns m ks).
Proof. induction ks as [|k ks IH]; simpl; preserves_tac. Qed.
#[local] Hint Resolve eff_list_workflows eff_list_executions : preserves.
Lemma eff_ListWorkflows : preserves (effect T P) (ListWorkflows ctx).
Proof. unfold ListWorkflows. preserves_tac. Qed.
Lemma eff_ListExecutions n : preserves (effect T P) (ListExecutions ctx n).
Proof. unfold ListExecutions. preserves_tac. Qed.
Lemma eff_start_parameters els s acc : preserves (effect T P) (start_parameters els s acc).
Proof. revert s acc. induction els as [|el els IH]; intros s acc; simpl; preserves_tac. Qed.
#[local] Hint Resolve eff_start_parameters : preserves.
Lemma eff_list_processes wf ps : preserves (effect T P) (list_processes wf ps).
Proof. induction ps as [|p ps IH]; simpl; preserves_tac. Qed.
#[local] Hint Resolve eff_list_processes : preserves.
Lemma eff_list_executable ns ks : preserves (effect T P) (list_executable ns ks).
Proof. induction ks as [|k ks IH]; simpl; preserves_tac. Qed.
#[local] Hint Resolve eff_list_executable : preserves.
Lemma eff_ListExecutableProcesses : preserves (effect T P) (ListExecutableProcesses ctx).
Proof. unfold ListExecutableProcesses. preserves_tac. Qed.
Lemma eff_GetProcessIdFor m : preserves (effect T P) (GetProcessIdFor ctx m).
Proof. unfold GetProcessIdFor. preserves_tac. Qed.
Lemma eff_createWorkflowProcessMappingFn wf i :
  (∀ k, T (GetNS ctx) WfProcess k) → preserves (effect T P) (createWorkflowProcessMappingFn ctx wf i).
Proof. intros. unfold createWorkflowProcessMappingFn. preserves_tac. Qed.
Lemma eff_ensureMessageBuckets wf :
  (∀ k, T (GetNS ctx) WfMsgTypes k) → (∀ k, T (GetNS ctx) WfClientTask k) →
  preserves (effect T P) (ensureMessageBuckets ctx wf).
Proof. intros. unfold ensureMessageBuckets. preserves_tac. Qed.
End store_reads.

#[export] Hint Resolve eff_validateUniqueProcessIdFor eff_validateUniqueMessageNames
  eff_ProcessServiceTasks eff_GetHash eff_ListWorkflows eff_ListExecutions
  eff_ListExecutableProcesses eff_GetProcessIdFor eff_createWorkflowProcessMappingFn
  eff_ensureMessageBuckets : preserves.

Section store_effects.
Context `{EnvOk} (ctx : Ctx) (T : Cells) `{!Lesser ctx T}.
Abbreviation within := (effect T (msg_ns (GetNS ctx))).

Lemma eff_add_version wf h c v : preserves within (add_version ctx wf h c v).
Proof. unfold add_version. destruct c. preserves_tac. Qed.
Lemma eff_start_timers wf id p :
  preserves within (forEachTimedStartElement p (start_timer ctx wf id p)).
Proof. unfold forEachTimedStartElement, start_timer. preserves_tac. Qed.
#[local] Hint Resolve eff_add_version eff_start_timers : preserves.
Lemma eff_storeWorkflow wf : preserves within (storeWorkflow ctx wf).
Proof. unfold storeWorkflow. preserves_tac. Qed.
#[local] Hint Resolve eff_storeWorkflow : preserves.
Lemma eff_LoadWorkflow wf : preserves within (LoadWorkflow ctx wf).
Proof. unfold LoadWorkflow. preserves_tac. Qed.
End store_effects.

#[export] Hint Resolve eff_storeWorkflow eff_LoadWorkflow : preserves.
