(* ===== verification/Catalogue.v ===== *)
(** * The catalogue of workflow versions

    [storeWorkflow] writes the definition ([Wf]) and then the list of versions
    ([WfVersion]) with calls that may fail or be applied without an
    acknowledgement.  Whatever fails, every listed version can be loaded, has the
    listed hash and name, and versions are numbered from one: [catalogue]. *)
From S2P Require Import Prelude Model Errors Env Sim Common Wp NatsUtil Vars Publish History Instances Integrity TaskSpec Store.

(** ** Invariants under any schedule *)
Section invariants.
Context `{EnvOk}.

(** [m] keeps [I], whatever fails. *)
Definition keeps_inv {A} (I : World → Prop) (m : M A) : Prop := ∀ w, I w → wp m w (λ w' _, I w').

Lemma inv_bind {A B} (I : World → Prop) (m : M A) (f : A → M B) w :
  wp m w (λ w' r, I w' ∧ ∀ a, r = Ok a → wp (f a) w' (λ w'' _, I w'')) →
  wp (m ≫= f) w (λ w' _, I w').
Proof.
  intros Hm. apply wp_bind. eapply wp_mono; [|exact Hm].
  intros w' [a|e|p] [HI Hf]; [by apply Hf|done|done].
Qed.

Lemma inv_bind_keeps {A B} (I : World → Prop) (m : M A) (f : A → M B) w :
  I w → keeps_inv I m → (∀ w' a, I w' → wp (f a) w' (λ w'' _, I w'')) →
  wp (m ≫= f) w (λ w' _, I w').
Proof.
  intros HI Hm Hf. apply inv_bind. eapply wp_mono; [|by apply Hm].
  intros w' r HI'. split; [done|]. intros a _. by apply Hf.
Qed.

Lemma keeps_quiet {A} (I : World → Prop) T P (m : M A) :
  (∀ w w', effect T P w w' → I w → I w') → preserves (effect T P) m → keeps_inv I m.
Proof. intros Hc Hm w HI. eapply Hc; [apply Hm|done]. Qed.

(** [UpdateObj_with] keeps an invariant that its update function keeps, that the
    write of the caller's message to an empty cell keeps, and establishes [Q]
    if the write of the updated value does.  Attempts that are refused find the same value. *)
Section update.
Context {S A} `{Proto A} (I Q : World → Prop) (J : A → S → Prop).
Context (ns : string) (b : Bucket) (k : string) (msg : A) (f : S → A → M (S * A)).
Hypothesis HIQ : ∀ w, I w → Q w.
Hypothesis Hnext : ∀ w, I w → I (w_next w).
Hypothesis Qnext : ∀ w, Q w → Q (w_next w).
Hypothesis Hfresh : ∀ w, I w → w_get w ns b k = None → I (w_put ns b k (Marshal msg) w).
Hypothesis Hf : ∀ s v d w, I w → J v s → w_get w ns b k = Some d → Unmarshal d = Some v →
  wp (f s v) w (λ w' r, I w' ∧ w_kv w' ns b = w_kv w ns b ∧
    ∀ s' v', r = Ok (s', v') → J v s' ∧ Q (w_put ns b k (Marshal v') w')).

Lemma updateKV_inv fuel d (s : S) (m : A) w :
  I w → (∀ v, Unmarshal d = Some v → J v s) → w_get w ns b k = Some d →
  wp (updateKV_loop fuel ns b k (s, m) (update_closure_with f)) w (λ w' _, Q w').
Proof.
  revert s m w. induction fuel as [|fuel IH]; intros s m w HI HJ Hd.
  { by apply wp_panic, HIQ. }
  rewrite updateKV_loop_alone. wp_steps. apply wp_nats_any; simpl; [|intros; wp_steps; by apply HIQ, Hnext..].
  change (w_kv (w_next w)) with (w_kv w). destruct (w_get_kv_get _ _ _ _ _ Hd) as [r Hr].
  rewrite Hr. wp_steps. unfold update_closure_with at 1.
  destruct (Unmarshal d) as [v|] eqn:Hv; [|wp_steps; by apply HIQ, Hnext]. cbn [fst snd]. wp_steps.
  eapply wp_mono; [|apply (Hf s v d); [by apply Hnext|by apply HJ|done|done]].
  intros w1 [[s' v']|e|p] (HI1 & Hkv & Hok); cbn [fst snd]; wp_steps; [|by apply HIQ..].
  destruct (Hok s' v' eq_refl) as [HJ' Hput].
  assert (w_get w1 ns b k = Some d) as Hd1 by (unfold w_get in *; by rewrite Hkv).
  unfold kvUpdate, kv_update. change (w_kv (w_next w)) with (w_kv w) in Hkv.
  assert (Q (w_put ns b k (Marshal v') (w_next w1))) as Hput' by (by apply (Qnext (w_put ns b k (Marshal v') w1))).
  apply wp_nats_any; change (w_kv (w_next w1) ns b) with (w_kv w1 ns b); rewrite ?Hkv, ?Hr;
    rewrite ?decide_True by done; cbn [fst snd]; wp_steps.
  - change (w_kv (w_next w1) ns b) with (w_kv w1 ns b) in Hput'. unfold w_put in Hput'. simpl in Hput'.
    by rewrite Hkv in Hput'.
  - intros e _. destruct e; wp_steps; try (by apply HIQ, Hnext).
    apply IH; [by apply Hnext| |done]. intros v0 Hv0. congruence.
  - intros e _ He. destruct e; wp_steps; try done;
    unfold w_put in Hput'; simpl in Hput'; by rewrite Hkv in Hput'.
Qed.

Lemma UpdateObj_with_inv (s : S) w :
  I w → (∀ v, J v s) →
  wp (UpdateObj_with ns b k msg s f) w (λ w' _, Q w').
Proof.
  intros HI HJ. unfold UpdateObj_with.
  assert (∀ w1, I w1 → wp (updateKV ns b k (s, msg) (update_closure_with f)) w1 (λ w' _, Q w')) as Hup.
  { intros w1 HI1. destruct (w_get w1 ns b k) as [d|] eqn:Hg.
    - by apply (updateKV_inv _ d).
    - unfold updateKV, contention. rewrite updateKV_loop_alone. wp_steps. apply wp_nats_any; cbn [fst snd].
      + change (w_kv (w_next w1)) with (w_kv w1). rewrite (w_get_none _ _ _ _ Hg).
        wp_steps. by apply HIQ, Hnext.
      + intros. wp_steps. by apply HIQ, Hnext.
      + intros. wp_steps. by apply HIQ, Hnext. }
  apply wp_bind, wp_attempt. apply wp_nats_any; cbn [fst snd].
  - change (w_kv (w_next w)) with (w_kv w). destruct (w_get w ns b k) as [d|] eqn:Hg.
    + destruct (w_get_kv_get _ _ _ _ _ Hg) as [r ->]. wp_steps. by apply Hup, Hnext.
    + rewrite (w_get_none _ _ _ _ Hg). cbn [Is]. rewrite bool_decide_true by done.
      wp_steps. unfold SaveObj, Save. wp_steps. apply wp_nats_any; cbn [fst snd].
      * wp_steps. apply Hup, Hfresh; [by do 2 apply Hnext|]. by rewrite !w_get_next.
      * intros. wp_steps. by do 2 apply Qnext; apply HIQ.
      * intros. wp_steps. apply HIQ, Hfresh; [by do 2 apply Hnext|]. by rewrite !w_get_next.
  - intros e He. wp_steps. rewrite not_missing by done. wp_steps. by apply Hup, Hnext.
  - intros e He _. wp_steps. rewrite not_missing by done. wp_steps. by apply Hup, Hnext.
Qed.
End update.
End invariants.

(** ** The catalogue *)
Section catalogue.
Context `{EnvOk} (ctx : Ctx).
Abbreviation ns := (GetNS ctx).

(** The stored definition behind a listed version. *)
Definition backed (w : World) (name : string) (ver : WorkflowVersion) : Prop :=
  issued w (wv_Id ver) ∧
  ∃ wf b, w_get w ns Wf (wv_Id ver) = Some (DWorkflow wf) ∧ wf_Name wf = name ∧
    json_workflow (without_source wf) = inl b ∧ wv_Sha256 ver = sha256 b.

Definition numbered (l : list WorkflowVersion) : Prop :=
  ∀ i ver, l !! i = Some ver → wv_Number ver = wrap32 (Z.of_nat i + 1).

(** No version repeats the one before it. *)
Definition distinct_steps (l : list WorkflowVersion) : Prop :=
  ∀ i v v', l !! i = Some v → l !! S i = Some v' → wv_Sha256 v ≠ wv_Sha256 v'.

Definition catalogue (w : World) : Prop :=
  ∀ name d, w_get w ns WfVersion name = Some d →
    ∃ v, d = DVersions v ∧ numbered (wvs_Version v) ∧ distinct_steps (wvs_Version v) ∧
      Forall (backed w name) (wvs_Version v).

(** An identifier that was handed out and is no version's. *)
Definition unlisted (w : World) (id : string) : Prop :=
  issued w id ∧ ∀ name v ver, w_get w ns WfVersion name = Some (DVersions v) →
    ver ∈ wvs_Version v → wv_Id ver ≠ id.

(** Where neither definitions nor versions are written. *)
Definition aside : Cells := λ ns' b _, ns' = ns ∧ b ≠ Wf ∧ b ≠ WfVersion.
Abbreviation quietly := (effect aside (msg_ns ns)).

Lemma quietly_get w w' b k :
  quietly w w' → b = Wf ∨ b = WfVersion → w_get w' ns b k = w_get w ns b k.
Proof. intros [Hf _] Hb. unfold w_get. rewrite Hf; [done|]. intros (_ & H1 & H2). by destruct Hb. Qed.

Lemma backed_later w w' name ver :
  w_tick w ≤ w_tick w' → w_get w' ns Wf (wv_Id ver) = w_get w ns Wf (wv_Id ver) →
  backed w name ver → backed w' name ver.
Proof.
  intros Ht Hg ((n & Hn & Hid) & wf & b & Hwf & Hrest). split; [exists n; split; [lia|done]|].
  exists wf, b. by rewrite Hg.
Qed.

Lemma catalogue_quiet w w' : quietly w w' → catalogue w → catalogue w'.
Proof.
  intros Hq Hc name d Hd. rewrite (quietly_get w w') in Hd by auto.
  destruct (Hc name d Hd) as (v & Hv & Hn & Hs & Hb). exists v. split_and!; [done..|].
  eapply Forall_impl; [exact Hb|]. intros ver. apply backed_later; [by destruct Hq as (_ & Ht & _)|].
  rewrite (quietly_get w w'); auto.
Qed.

Lemma unlisted_quiet id w w' : quietly w w' → unlisted w id → unlisted w' id.
Proof.
  intros Hq [(n & Hn & Hid) Hu]. split.
  - exists n. split; [|done]. destruct Hq as (_ & Ht & _). lia.
  - intros name v ver. rewrite (quietly_get w w') by auto. apply Hu.
Qed.

Lemma quietly_next w : quietly w (w_next w).
Proof. split; [by intros ? ? ? _|]. split; [simpl; lia|]. exists []. by rewrite app_nil_r. Qed.

(** A definition stored under an unlisted identifier disturbs nothing. *)
Lemma catalogue_save id wf w : unlisted w id → catalogue w → catalogue (w_put ns Wf id (DWorkflow wf) w).
Proof.
  intros [_ Hu] Hc name d Hd. rewrite w_get_put_ne in Hd by done.
  destruct (Hc name d Hd) as (v & -> & Hn & Hs & Hb). exists v. split_and!; [done..|].
  apply Forall_forall. intros ver Hver. rewrite Forall_forall in Hb.
  apply (backed_later w); [done| |by apply Hb]. apply w_get_put_ne. intros [= He].
  by apply (Hu name v ver Hd Hver).
Qed.

Lemma unlisted_put id b k d w : b ≠ WfVersion → unlisted w id → unlisted (w_put ns b k d w) id.
Proof.
  intros Hb [Hi Hu]. split; [done|]. intros name v ver. rewrite w_get_put_ne by congruence. apply Hu.
Qed.

(** Writing a list of versions that is in order. *)
Lemma catalogue_versions name v w :
  numbered (wvs_Version v) → distinct_steps (wvs_Version v) →
  Forall (backed w name) (wvs_Version v) → catalogue w →
  catalogue (w_put ns WfVersion name (DVersions v) w).
Proof.
  intros Hn Hs Hb Hc name' d. rewrite w_get_put. case_decide as He.
  - intros [= <-]. injection He as ->. exists v. split_and!; [done..|].
    eapply Forall_impl; [exact Hb|]. intros ver. apply backed_later; [done|]. by apply w_get_put_ne.
  - intros Hd. destruct (Hc name' d Hd) as (v' & Hv' & Hn' & Hs' & Hb'). exists v'. split_and!; [done..|].
    eapply Forall_impl; [exact Hb'|]. intros ver. apply backed_later; [done|]. by apply w_get_put_ne.
Qed.

Lemma numbered_snoc l id h :
  numbered l → numbered (l ++ [mkWorkflowVersion id h (wrap32 (Z.of_nat (length l) + 1))]).
Proof.
  intros Hn i ver [Hi|[Hi Hv]]%lookup_app_Some; [by apply Hn|].
  destruct (i - length l) as [|j] eqn:Hj; [|by destruct j].
  simpl in Hv. injection Hv as <-. simpl. do 2 f_equal. lia.
Qed.

Lemma distinct_snoc l ver :
  distinct_steps l → (∀ v, last l = Some v → wv_Sha256 v ≠ wv_Sha256 ver) → distinct_steps (l ++ [ver]).
Proof.
  intros Hs Hl i v v' Hv Hv'.
  assert (S i < length (l ++ [ver])) as Hlt by (by eapply lookup_lt_Some).
  rewrite length_app in Hlt. simpl in Hlt. rewrite lookup_app_l in Hv by lia.
  destruct (decide (S i < length l)).
  - rewrite lookup_app_l in Hv' by lia. by eapply Hs.
  - rewrite lookup_app_r in Hv' by lia. replace (S i - length l) with 0 in Hv' by lia.
    injection Hv' as <-. apply Hl. rewrite last_lookup. by replace (pred (length l)) with i by lia.
Qed.

(** The update function of the version list. *)
Definition hash_of (wf : Workflow) (h : bytes) : Prop :=
  ∃ b, json_workflow (without_source wf) = inl b ∧ h = sha256 b.

Definition cat_inv (id : string) (w : World) : Prop := catalogue w ∧ unlisted w id.

(** Either the latest version is this definition already, or the identifier is
    still the fresh one. *)
Definition captured_ok (h : bytes) (id : string) (v : WorkflowVersions) (s : string * bool) : Prop :=
  s.1 = id ∨ ∃ latest, last (wvs_Version v) = Some latest ∧ wv_Sha256 latest = h.

Lemma add_version_ok wf h id s v d w :
  hash_of wf h → cat_inv id w → captured_ok h id v s →
  w_get w ns WfVersion (wf_Name wf) = Some d → Unmarshal d = Some v →
  wp (add_version ctx wf h s v) w (λ w' r,
    cat_inv id w' ∧ w_kv w' ns WfVersion = w_kv w ns WfVersion ∧
    ∀ s' v', r = Ok (s', v') →
      captured_ok h id v s' ∧ catalogue (w_put ns WfVersion (wf_Name wf) (Marshal v') w')).
Proof.
  intros Hh [Hc Hu] Hs Hd Hv. destruct (Hc _ _ Hd) as (v0 & -> & Hn & Hds & Hb).
  injection Hv as ->. destruct s as [sid snew]. unfold add_version.
  (* the definition is stored and listed *)
  assert (∀ ver, (∀ u, last (wvs_Version v) = Some u → wv_Sha256 u ≠ h) → sid = id →
    ver = mkWorkflowVersion sid h (wrap32 (Z.of_nat (length (wvs_Version v)) + 1)) →
    wp (_ ← wrapping (λ _, New "save workflow") (SaveObj ns Wf sid wf);
        mret (sid, true, v <| wvs_Version ::= λ l, l ++ [ver] |>)) w (λ w' r,
      cat_inv id w' ∧ w_kv w' ns WfVersion = w_kv w ns WfVersion ∧
      ∀ s' v', r = Ok (s', v') →
        captured_ok h id v s' ∧ catalogue (w_put ns WfVersion (wf_Name wf) (Marshal v') w'))) as Hnew.
  { intros ver Hlast -> ->.
    assert (∀ w0, quietly w w0 → cat_inv id (w_put ns Wf id (DWorkflow wf) w0)) as Hsave.
    { intros w0 Hq. split.
      - apply catalogue_save; [by apply (unlisted_quiet _ w)|by apply (catalogue_quiet w)].
      - apply unlisted_put; [done|]. by apply (unlisted_quiet _ w). }
    wp_steps. unfold SaveObj, Save. wp_steps. apply wp_nats_any; cbn [fst snd].
    - wp_steps. specialize (Hsave _ (quietly_next w)). split; [done|].
      split; [by rewrite w_kv_put_ne|]. intros s' v' [= <- <-]. split; [by left|]. apply catalogue_versions; [| | |apply Hsave].
      + by apply numbered_snoc.
      + by apply distinct_snoc.
      + simpl. apply Forall_app. split.
        * rewrite Forall_forall in Hb |- *. intros u Hin.
          apply (backed_later w); [simpl; lia| |by apply Hb]. rewrite w_get_put_ne; [done|].
          intros [= He]. destruct Hu as [_ Hu]. by apply (Hu _ _ _ Hd Hin).
        * apply Forall_singleton. split; [|].
          -- destruct Hu as [(n & Hn' & Hid) _]. exists n. split; [simpl; lia|done].
          -- destruct Hh as (b & Hj & Hh). exists wf, b. split_and!; try done. apply w_get_put_eq.
    - intros. wp_steps. split; [|done]. split; [by apply (catalogue_quiet w), Hc; apply quietly_next|].
      apply (unlisted_quiet _ w); [apply quietly_next|done].
    - intros. wp_steps. split; [by apply Hsave, quietly_next|]. by rewrite w_kv_put_ne. }
  destruct (last (wvs_Version v)) as [latest|] eqn:Hl.
  - case_bool_decide as He.
    + wp_steps. split; [done|]. split; [done|]. intros s' v' [= <- <-].
      split; [right; by exists latest|]. by apply catalogue_versions.
    + apply Hnew; [intros u Hu'; congruence| |done]. destruct Hs as [Hs|(u & Hu' & Hh')]; [done|].
      congruence.
  - apply last_None in Hl as Hnil. replace (v <| wvs_Version := _ |>) with
      (v <| wvs_Version ::= λ l, l ++
        [mkWorkflowVersion sid h (wrap32 (Z.of_nat (length (wvs_Version v)) + 1))] |>)
      by (unfold setter; simpl; by rewrite Hnil).
    destruct Hs as [Hs|(u & Hu' & _)]; [by apply Hnew|congruence].
Qed.

(** ** Every store keeps it *)
Lemma aside_in b k : b ≠ Wf → b ≠ WfVersion → aside ns b k.
Proof. by intros. Qed.
#[local] Hint Resolve aside_in : preserves.
#[local] Hint Extern 5 (aside _ _ _) => (apply aside_in; discriminate) : preserves.

Lemma eff_start_timer_aside wf id pr :
  preserves quietly (forEachTimedStartElement pr (start_timer ctx wf id pr)).
Proof.
  unfold forEachTimedStartElement, start_timer. preserves_tac.
  apply eff_PublishWorkflowState_in; [by intros k; apply aside_in|apply opts_plain_nil].
Qed.
#[local] Hint Resolve eff_start_timer_aside : preserves.

Lemma unlisted_newId w : catalogue w → cat_inv (ksuid_new (w_tick w)) (w_next w).
Proof.
  intros Hc. split; [by apply (catalogue_quiet w), Hc; apply quietly_next|]. split.
  - exists (w_tick w). simpl. split; [lia|done].
  - intros name v ver Hv Hin He. rewrite w_get_next in Hv.
    destruct (Hc _ _ Hv) as (v' & [= <-] & _ & _ & Hb). rewrite Forall_forall in Hb.
    destruct (Hb ver Hin) as [(n & Hn & Hid) _]. rewrite Hid in He. apply (inj ksuid_new) in He. lia.
Qed.

Lemma cat_inv_quiet id w w' : quietly w w' → cat_inv id w → cat_inv id w'.
Proof. intros Hq [Hc Hu]. split; [by apply (catalogue_quiet w)|by apply (unlisted_quiet _ w)]. Qed.

Lemma keeps_catalogue {A} (m : M A) : preserves quietly m → keeps_inv catalogue m.
Proof. apply keeps_quiet, catalogue_quiet. Qed.

(** The versions part: the definition and its hash. *)
Lemma catalogue_update wf h id w :
  hash_of wf h → cat_inv id w →
  wp (check (UpdateObj_with ns WfVersion (wf_Name wf) (zero : WorkflowVersions) (id, false)
               (add_version ctx wf h))) w (λ w' _, catalogue w').
Proof.
  intros Hh HI. unfold check. apply inv_bind.
  eapply wp_mono; [|apply (UpdateObj_with_inv (cat_inv id) catalogue (captured_ok h id))].
  - intros w' r Hc. split; [done|]. intros [a [e|]] _; by simpl.
  - by intros w0 [Hc _].
  - intros w0. apply cat_inv_quiet, quietly_next.
  - intros w0. apply catalogue_quiet, quietly_next.
  - intros w0 [Hc Hu] Hg. split.
    + apply catalogue_versions; [by intros i ver|by intros i ver|by constructor|done].
    + destruct Hu as [Hi Hu]. split; [done|]. intros name v ver. rewrite w_get_put. case_decide.
      * intros [= <-]. by intros []%elem_of_nil.
      * apply Hu.
  - intros s v d w0 HI0 HJ Hd Hv. by apply (add_version_ok wf h id s v d).
  - done.
  - intros v. by left.
Qed.

(** (C14) The catalogue of workflow versions is in order after every store of a
    workflow that began with it in order, whichever calls fail or lose their
    acknowledgement: each listed version is stored, carries the workflow's name
    and the listed hash, versions count from one, and no version repeats the one
    before it. *)
Theorem storeWorkflow_catalogue wf w :
  catalogue w → wp (storeWorkflow ctx wf) w (λ w' _, catalogue w').
Proof.
  intros Hc. unfold storeWorkflow.
  apply inv_bind_keeps; [done|apply keeps_catalogue; preserves_tac|]. intros w1 _ Hc1.
  apply inv_bind_keeps; [done|apply keeps_catalogue; preserves_tac|]. intros w2 _ Hc2. cbv zeta.
  apply inv_bind_keeps; [done|apply keeps_catalogue; preserves_tac|]. intros w3 _ Hc3.
  apply wp_bind, wp_newId. apply unlisted_newId in Hc3. revert Hc3.
  generalize (ksuid_new (w_tick w3)) as id, (w_next w3) as w4. intros id w4 HI.
  apply inv_bind. eapply wp_mono; [|apply (keeps_quiet (cat_inv id) aside (msg_ns ns));
    [apply cat_inv_quiet|preserves_tac|exact HI]].
  intros w5 r HI5. split; [apply HI5|]. intros wf' _.
  apply inv_bind. unfold GetHash. wp_steps.
  destruct (json_workflow (without_source wf')) as [b|e] eqn:Hj; simpl; wp_steps;
    (split; [apply HI5|]); [|done]. intros h [= <-].
  apply inv_bind. apply wp_wrapping. eapply wp_mono; [|apply (catalogue_update wf' (sha256 b) id)].
  2: by exists b. 2: done.
  intros w6 [[[id' new] v]|e|p] Hc6; (split; [done|]); [|done|done]. intros a [= <-].
  destruct new; cbn [negb]; [|by apply wp_ret].
  apply inv_bind_keeps; [done|apply keeps_catalogue; preserves_tac|]. intros w7 _ Hc7.
  apply inv_bind_keeps; [done|apply keeps_catalogue; preserves_tac|]. intros w8 prs Hc8.
  apply inv_bind_keeps; [done|apply keeps_catalogue; preserves_tac|]. intros w9 _ Hc9. by wp_steps.
Qed.
End catalogue.

(** ** Example: a store whose acknowledgements get lost *)
Definition ex_timed : Element :=
  mkElement "start" "" element.TimedStartEvent "" "" None None None "" "" "" [] None ∅ ∅ None [] None
    None None None false.
Definition ex_wf : Workflow :=
  mkWorkflow "W" {["P" := mkProcess [ex_timed] "P" None]} [] [] "" None ∅ "".

(** The write of the version list is applied and reported as failed. *)
Definition ex_lossy : Env :=
  Sim (λ n, if bool_decide (n = 10) then Some (New "timeout", true) else None) Z.of_nat sim_expr.

Definition ex_stored : @World ex_lossy := (storeWorkflow (H := ex_lossy) ex_task_ctx ex_wf world_init).1.

Lemma storeWorkflow_catalogue_witness :
  catalogue (H := ex_lossy) ex_task_ctx ex_stored ∧
  (match w_get ex_stored "ns" WfVersion "W" with
   | Some (DVersions v) => length (wvs_Version v)
   | _ => 0
   end = 1) ∧
  match (storeWorkflow (H := ex_lossy) ex_task_ctx ex_wf world_init).2 with Err _ => True | _ => False end.
Proof.
  split; [|split; vm_compute; [reflexivity|exact I]].
  apply (storeWorkflow_catalogue (H0 := Sim_ok _ _ _) ex_task_ctx ex_wf).
  intros name d. by rewrite w_get_init.
Defined.
