(* ===== verification/Launch.v ===== *)
(** * Launching workflows

    [LaunchWithParent] and [launchProcess] of
    [internal/server/workflow/operations.go]: from a process name to a stored
    execution, its process instances, and the first traversal of every start
    event. *)
From S2P Require Import Prelude Model Errors Env Sim Common Wp NatsUtil Vars Publish History Instances TaskSpec.

Section launch.
Context `{Env}.

Definition engineErr (err : error) : error := Wrap "engine-error" err.

Definition forEachStartElement (pr : Process) (fn : Element → M unit) : M unit :=
  for_each (pr_Elements pr) (λ i,
    if bool_decide (el_Type i = element.StartEvent)
    then wrapping (Wrap "start event execution") (fn i) else mret tt).

(** All variables the output transforms of a start event mention are there. *)
Definition check_start (testVars : gmap string GoVal) (el : Element) : M unit :=
  l ← range (el_OutputTransform el);
  for_each l (λ kv,
    evs ← wrapping (Wrap "extract variables from workflow during launch") (lift_sum (GetVariables kv.2));
    for_each evs (λ ev,
      match testVars !! ev with
      | Some _ => mret tt
      | None => throw (Wrap "workflow expects variable" (Sentinel ErrExpectedVar))
      end)).

Definition has_start_events (pr : Process) : bool :=
  existsb (λ i, bool_decide (el_Type i = element.StartEvent)) (pr_Elements pr).

(** The state of the first traversal, and the process state announced with it. *)
Definition start_state (el : Element) (wfID executionId : string) (id : list string) (vrs : bytes)
    (workflowName prId piId : string) : WorkflowState :=
  zero_state
    <| ws_ElementType := el_Type el |> <| ws_ElementId := el_Id el |> <| ws_ElementName := el_Name el |>
    <| ws_WorkflowId := wfID |> <| ws_ExecutionId := executionId |> <| ws_Id := id |>
    <| ws_Vars := vrs |> <| ws_WorkflowName := workflowName |> <| ws_ProcessId := prId |>
    <| ws_ProcessInstanceId := piId |>.

Definition start_element (ctx : Ctx) (ID : list string) (prId workflowName wfID executionId : string)
    (vrs : bytes) (pi : ProcessInstance) (el : Element) : M unit :=
  id ← newId;
  let trackingID := TrackingID.Push (TrackingID.Push ID (pi_ProcessInstanceId pi)) id in
  let exec := start_state el wfID executionId trackingID vrs workflowName prId (pi_ProcessInstanceId pi) in
  let processWfState :=
    exec <| ws_Id := TrackingID.Push (TrackingID.Push ID executionId) (pi_ProcessInstanceId pi) |> in
  _ ← wrapping (Wrap "publish workflow timed process execute")
        (PublishWorkflowState ctx (NS messages.WorkflowProcessExecute (GetNS ctx)) processWfState []);
  _ ← wrapping (Wrap "publish initial traversal") (RecordHistoryProcessStart ctx exec);
  _ ← wrapping (Wrap "publish initial traversal")
        (PublishWorkflowState ctx messages.WorkflowTraversalExecute exec []);
  mret tt.

Definition launchProcess (ctx : Ctx) (ID : list string) (prId : string) (pr : Process)
    (workflowName wfID executionId : string) (vrs : bytes) (parentpiID parentElID : string)
    (headers : bytes) : M unit :=
  testVars ← wrapping (Wrap "decode variables during launch") (DecodeVars NewServerVars vrs);
  _ ← wrapping (Wrap "initialize all workflow start events")
        (forEachStartElement pr (check_start testVars));
  if has_start_events pr then
    pi ← wrapping (Wrap "launch failed to create new process instance")
           (createProcessInstance ctx executionId parentpiID parentElID (pr_Id pr) workflowName wfID headers);
    forEachStartElement pr (start_element ctx ID prId workflowName wfID executionId vrs pi)
  else mret tt.

(** A failure to signal the abort is logged. *)
Definition rollBackLaunch (ctx : Ctx) (e : Execution) : M unit :=
  _ ← attempt (PublishWorkflowState ctx messages.WorkflowExecutionAbort
        (zero_state <| ws_Id := [ex_ExecutionId e] |> <| ws_ExecutionId := ex_ExecutionId e |>
           <| ws_WorkflowName := ex_WorkflowName e |> <| ws_WorkflowId := ex_WorkflowId e |>
           <| ws_State := terminated |>) []);
  mret tt.

(** The processes started together: all participants of the collaboration when
    the process is one of them. *)
Definition launch_processes (wf : Workflow) (processId : string) : M (list Process) :=
  participants ← deref "wf.Collaboration" (wf_Participants wf);
  collab ← for_fold participants (λ acc i,
    match wf_Process wf !! pt_ProcessId i with
    | Some pr => mret (acc ++ [pr])
    | None => throw (New "find collaboration process")
    end) [];
  if existsb (λ i, bool_decide (pt_ProcessId i = processId)) participants then mret collab
  else match wf_Process wf !! processId with
       | Some pr => mret [pr]
       | None => throw (New "find process")
       end.

(** The execution of the launch: a new one, announced, for a top-level launch;
    the parent's, with the parent's headers, otherwise.  The deferred rollback
    is tied to a variable that only the failed announcement sets after the
    execution is stored. *)
Definition launch_execution (ctx : Ctx) (wf : Workflow) (workflowName wfID : string) (vrs headers : bytes)
    (parentpiID : string) : M (string * bytes) :=
  if bool_decide (parentpiID = "") then
    e ← wrapping engineErr (createExecution ctx (mkExecution "" wfID (wf_Name wf) []));
    let executionId := ex_ExecutionId e in
    let wiState := zero_state
      <| ws_ExecutionId := executionId |> <| ws_WorkflowId := wfID |>
      <| ws_WorkflowName := workflowName |> <| ws_Vars := vrs |> <| ws_Id := [executionId] |> in
    r ← attempt (PublishWorkflowState ctx messages.WorkflowExecutionExecute wiState []);
    match r with
    | inl _ => mret (executionId, headers)
    | inr err => _ ← rollBackLaunch ctx e; throw (engineErr err)
    end
  else
    pi ← wrapping (Wrap "launch failed to get process instance for parent")
           (GetProcessInstance ctx parentpiID);
    e ← wrapping (Wrap "launch failed to get execution for parent")
          (GetExecution ctx (pi_ExecutionId pi));
    mret (ex_ExecutionId e, pi_Headers pi).

(** [wfv] is nil when the versions cannot be loaded, and read before the error
    is looked at. *)
Definition LaunchWithParent (ctx : Ctx) (processId : string) (ID : list string) (vrs headers : bytes)
    (parentpiID parentElID : string) : M (string * string) :=
  workflowName ← wrapping engineErr (getWorkflowNameFor ctx processId);
  r ← attempt (getWorkflowVersions ctx workflowName);
  match r with
  | inr _ => panic "wfv.IsExecutionDisabled of nil"
  | inl wfv =>
      if wvs_IsExecutionDisabled wfv then
        now ← timeNow;
        _ ← wrapping (Wrap "failed to publish disable workflow launch notification")
              (PublishMsg ctx messages.WorkflowSystemWorkflowDisableLaunchAttempted
                 (mkDisableWorkflowLaunch (now / 1000000) workflowName));
        throw (engineErr (New "the workflow is not executable"))
      else
        latest ← last_elem (wvs_Version wfv);
        let wfID := wv_Id latest in
        wf ← wrapping engineErr (GetWorkflow ctx wfID);
        _ ← wrapping (Wrap "check task deprecation") (checkProcessTaskDeprecation ctx wf processId);
        x ← launch_execution ctx wf workflowName wfID vrs headers parentpiID;
        let '(executionId, headers) := x in
        launchProcesses ← launch_processes wf processId;
        _ ← for_each launchProcesses (λ pr,
              launchProcess ctx ID (pr_Id pr) pr workflowName wfID executionId vrs parentpiID parentElID
                headers);
        mret (executionId, wfID)
  end.

Definition Launch (ctx : Ctx) (processId : string) (vars headers : bytes) : M (string * string) :=
  LaunchWithParent ctx processId [] vars headers "" "".
End launch.

(** ** Effects *)
Section launch_effects.
Context `{EnvOk} (ctx : Ctx).

Lemma eff_check_start T P v el : preserves (effect T P) (check_start v el).
Proof. unfold check_start. preserves_tac. Qed.
Lemma eff_forEachStartElement T P pr fn :
  (∀ el, preserves (effect T P) (fn el)) → preserves (effect T P) (forEachStartElement pr fn).
Proof. intros. unfold forEachStartElement. preserves_tac. Qed.
Lemma eff_launch_processes T P wf p : preserves (effect T P) (launch_processes wf p).
Proof. unfold launch_processes. preserves_tac. Qed.
Lemma eff_start_element ID a b c d e pi el : preserves (iso ctx) (start_element ctx ID a b c d e pi el).
Proof. unfold start_element. preserves_tac. Qed.
#[local] Hint Resolve eff_check_start eff_forEachStartElement eff_launch_processes
  eff_start_element : preserves.
Lemma eff_launchProcess ID a p b c d e f g h : preserves (iso ctx) (launchProcess ctx ID a p b c d e f g h).
Proof. unfold launchProcess. preserves_tac. Qed.
Lemma eff_rollBackLaunch e : preserves (iso ctx) (rollBackLaunch ctx e).
Proof. unfold rollBackLaunch. preserves_tac. Qed.
#[local] Hint Resolve eff_launchProcess eff_rollBackLaunch : preserves.
Lemma eff_launch_execution a b c d e f : preserves (iso ctx) (launch_execution ctx a b c d e f).
Proof. unfold launch_execution. preserves_tac. Qed.
#[local] Hint Resolve eff_launch_execution : preserves.
Lemma eff_LaunchWithParent p ID v h a b : preserves (iso ctx) (LaunchWithParent ctx p ID v h a b).
Proof. unfold LaunchWithParent. preserves_tac. Qed.
#[local] Hint Resolve eff_LaunchWithParent : preserves.
Lemma eff_Launch p v h : preserves (iso ctx) (Launch ctx p v h).
Proof. unfold Launch. preserves_tac. Qed.
End launch_effects.

#[export] Hint Resolve eff_LaunchWithParent eff_Launch : preserves.
