(* ===== verification/Jobs.v ===== *)
(** * Jobs: starting, completing and failing tasks

    [startJob], the [Complete...Task] operations, [HandleWorkflowError] and the
    variables of compensation, from [internal/server/workflow/operations.go]. *)
From S2P Require Import Prelude Model Errors Env Sim Common Wp NatsUtil Vars Publish History Instances TaskSpec.

Section jobs.
Context `{Env}.

Definition fatal (err : error) : error := ErrWorkflowFatal err None.

(** ** Starting *)

(** The owners an expression names, by their identifiers: text, a list of texts,
    or nothing for a value of another type. *)
Definition evaluateOwners (ctx : Ctx) (owners : string) (vars : gmap string GoVal) : M (list string) :=
  groups ← wrapping fatal (lift_res (EvalIface owners vars));
  let jobGroups := match groups with VString s => [s] | VStrings l => l | _ => [] end in
  for_fold jobGroups (λ acc v,
    id ← wrapping (Wrap "evaluate owners failed to get owner ID") (OwnerID_ ctx v);
    mret (acc ++ [id])) [].

(** The job goes out and is recorded only when the element is not iterated. *)
Definition startJob (ctx : Ctx) (subject : string) (job : WorkflowState) (el : Element) (v : bytes)
    (opts : list PublishOpt) : M WorkflowState :=
  let job := job <| ws_Execute := Some (el_Execute el) |> in
  let job := match el_Version el with
             | Some ver => job <| ws_ExecuteVersion := ver |>
             | None => job
             end in
  job ← (if bool_decide (el_Type el = element.MessageIntermediateCatchEvent) then mret job
         else
           vars ← wrapping (λ err, fatal (Wrap "start job failed to get input variables" err))
                    (InputVars v "" el);
           mret (job <| ws_Vars := vars |>));
  job ← (if bool_decide (el_Type el = element.UserTask) then
           vx ← wrapping (λ err, fatal (Wrap "start job failed to decode input variables" err))
                  (DecodeVars NewServerVars v);
           owners ← wrapping (λ err, fatal (Wrap "start job: evaluate owners" err))
                      (evaluateOwners ctx (el_Candidates el) vx);
           groups ← wrapping (λ err, fatal (Wrap "start job failed to evaluate groups" err))
                      (evaluateOwners ctx (el_CandidateGroups el) vx);
           mret (job <| ws_Owners := owners |> <| ws_Groups := groups |>)
         else mret job);
  subject ← (if bool_decide (el_Type el = element.ServiceTask) then
               version ← deref "el.Version" (el_Version el);
               def ← wrapping (Wrap "get task spec by uid") (GetTaskSpecByUID ctx version);
               mret (if match ts_Behaviour def with Some b => tb_Mock b | None => false end
                     then subject +:+ ".Mock" else subject)
             else mret subject);
  tj ← wrapping (Wrap "create job") (createJob ctx job);
  let job := tj.2 in
  match el_Iteration el with
  | Some _ => mret job
  | None =>
      job ← wrapping (Wrap "start job failed to publish")
              (PublishWorkflowState ctx (NS subject (GetNS ctx)) job opts);
      _ ← wrapping (Wrap "job start failed to record history") (RecordHistoryJobExecute ctx job);
      mret job
  end.

(** ** Completing *)
Definition check_job_vars (ctx : Ctx) (job : WorkflowState) (newvars : bytes) : M WorkflowState :=
  el ← wrapping fatal (getElement ctx job);
  let job := job <| ws_Vars := newvars |> in
  _ ← wrapping fatal (CheckVars job el);
  mret job.

Definition CompleteManualTask (ctx : Ctx) (job : WorkflowState) (newvars : bytes) : M unit :=
  job ← check_job_vars ctx job newvars;
  _ ← wrapping (Wrap "complete manual task failed to publish manual task complete message")
        (PublishWorkflowState ctx messages.WorkflowJobManualTaskComplete job []);
  mret tt.

(** A service task whose activity has no record any more is aborted. *)
Definition CompleteServiceTask (ctx : Ctx) (job : WorkflowState) (newvars : bytes) : M unit :=
  gone ← (if bool_decide (ws_State job = compensating) then mret false
          else
            r ← attempt (GetProcessHistoryItem ctx (ws_ProcessInstanceId job)
                           (TrackingID.ParentID (ws_Id job)) activityExecute);
            match r with
            | inl _ => mret false
            | inr err =>
                if Is err ErrKeyNotFound then mret true
                else throw (Wrap "complete service task failed to get old state" err)
            end);
  if (gone : bool) then
    _ ← wrapping (Wrap "complete service task failed to publish workflow state")
          (PublishWorkflowState ctx (NS messages.WorkflowJobServiceTaskAbort (GetNS ctx)) job []);
    mret tt
  else
    job ← check_job_vars ctx job newvars;
    _ ← wrapping (Wrap "complete service task failed to publish service task complete message")
          (PublishWorkflowState ctx messages.WorkflowJobServiceTaskComplete job []);
    mret tt.

Definition CompleteSendMessageTask (ctx : Ctx) (job : WorkflowState) (newvars : bytes) : M unit :=
  _ ← wrapping fatal (getElement ctx job);
  _ ← wrapping (Wrap "complete send message task failed to publish send message complete nats message")
        (PublishWorkflowState ctx messages.WorkflowJobSendMessageComplete job []);
  mret tt.

Definition CompleteUserTask (ctx : Ctx) (job : WorkflowState) (newvars : bytes) : M unit :=
  job ← check_job_vars ctx job newvars;
  job ← wrapping (Wrap "complete user task failed to publish user task complete message")
          (PublishWorkflowState ctx messages.WorkflowJobUserTaskComplete job []);
  wrapping (Wrap "complete user task failed to close user task")
    (closeUserTask ctx (TrackingID.ID (ws_Id job))).

(** ** Compensation *)
Definition GetCompensationInputVariables (ctx : Ctx) (processInstanceId trackingId : string) : M bytes :=
  entry ← wrapping (Wrap "get compensation history entry")
            (GetProcessHistoryItem ctx processInstanceId trackingId jobExecute);
  mret (ph_Vars entry).

Definition GetCompensationOutputVariables (ctx : Ctx) (processInstanceId trackingId : string) : M bytes :=
  entry ← wrapping (Wrap "get compensation history entry")
            (GetProcessHistoryItem ctx processInstanceId trackingId jobComplete);
  mret (ph_Vars entry).

(** ** Workflow errors *)
Definition error_table (errs : list WfError) : gmap string WfError :=
  foldl (λ m v, <[err_Id v := v]> m) ∅ errs.

(** The first of the element's catch clauses whose error has the code. *)
Fixpoint find_catch (wfErrs : gmap string WfError) (errorCode : string) (l : list CatchError) :
    M (option CatchError) :=
  match l with
  | [] => mret None
  | v :: l =>
      wfErr ← deref "wfErr.Code" (wfErrs !! ce_ErrorId v);
      if bool_decide (errorCode = err_Code wfErr) then mret (Some v) else find_catch wfErrs errorCode l
  end.

Definition error_state (target : Element) (state : WorkflowState) (wf : Workflow) (id : list string)
    (vars : bytes) : WorkflowState :=
  zero_state
    <| ws_ElementType := el_Type target |> <| ws_ElementId := el_Id target |>
    <| ws_ElementName := el_Name target |> <| ws_WorkflowId := ws_WorkflowId state |>
    <| ws_ExecutionId := ws_ExecutionId state |> <| ws_Id := id |> <| ws_Vars := vars |>
    <| ws_WorkflowName := wf_Name wf |> <| ws_ProcessInstanceId := ws_ProcessInstanceId state |>
    <| ws_ProcessId := ws_ProcessId state |>.

(** A code the workflow does not declare ends the process instance. *)
Definition unknown_error (ctx : Ctx) (errorCode : string) (state : WorkflowState) : M unit :=
  let werr := fatal (Wrap "workflow-fatal: can't handle error code as the workflow doesn't support it"
                       (Sentinel ErrWorkflowErrorNotFound)) in
  state ← wrapping (λ _, Wrap "cencel state" werr)
            (PublishWorkflowState ctx (NS messages.WorkflowJobServiceTaskAbort (GetNS ctx)) state []);
  let cancelState := CopyWorkflowState state <| ws_State := errored |>
                       <| ws_Error := Some (mkWfError "UNKNOWN" "UNKNOWN" errorCode) |> in
  _ ← wrapping (λ _, Wrap "cancel workflow instance" werr) (CancelProcessInstance ctx cancelState);
  throw (Wrap "workflow halted" werr).

Definition HandleWorkflowError (ctx : Ctx) (errorCode : string) (inVars : bytes) (state : WorkflowState) :
    M unit :=
  wf ← wrapping (Wrap "get workflow definition for handle workflow error")
         (GetWorkflow ctx (ws_WorkflowId state));
  els ← ElementTable wf;
  let wfErrs := error_table (wf_Errors wf) in
  if negb (existsb (λ v, bool_decide (err_Code v = errorCode)) (wf_Errors wf))
  then unknown_error ctx errorCode state
  else
    el ← deref "el.Errors" (els !! ws_ElementId state);
    caught ← find_catch wfErrs errorCode (el_Errors el);
    match caught with
    | None => throw (Sentinel ErrUnhandledWorkflowError)
    | Some caughtError =>
        activityStart ← wrapping (Wrap "get activity start state for handle workflow error")
          (GetProcessHistoryItem ctx (ws_ProcessInstanceId state)
             (TrackingID.ID (TrackingID.Pop (ws_Id state))) activityExecute);
        vars ← wrapping fatal (OutputVars inVars (ph_Vars activityStart) (ce_OutputTransform caughtError));
        target ← deref "target.Type" (els !! ce_Target caughtError);
        _ ← wrapping (Wrap "publish traversal for handle workflow error")
              (PublishWorkflowState ctx messages.WorkflowTraversalExecute
                 (error_state target state wf (TrackingID.Pop (TrackingID.Pop (ws_Id state))) vars) []);
        _ ← wrapping (Wrap "publish abort task for handle workflow error")
              (PublishWorkflowState ctx messages.WorkflowJobServiceTaskAbort
                 (error_state target state wf (ws_Id state) (ws_Vars state)) []);
        mret tt
    end.
End jobs.

(** ** Effects *)
Section jobs_effects.
Context `{EnvOk} (ctx : Ctx) (T : Cells) `{!Lesser ctx T}.
Abbreviation within := (effect T (msg_ns (GetNS ctx))).

Lemma eff_evaluateOwners o v : preserves within (evaluateOwners ctx o v).
Proof. unfold evaluateOwners. preserves_tac. Qed.
#[local] Hint Resolve eff_evaluateOwners : preserves.
Lemma eff_startJob s job el v opts : opts_plain opts → preserves within (startJob ctx s job el v opts).
Proof. intros. unfold startJob. preserves_tac. Qed.
Lemma eff_check_job_vars job v : preserves within (check_job_vars ctx job v).
Proof. unfold check_job_vars. preserves_tac. Qed.
#[local] Hint Resolve eff_check_job_vars : preserves.
Lemma eff_CompleteManualTask job v : preserves within (CompleteManualTask ctx job v).
Proof. unfold CompleteManualTask. preserves_tac. Qed.
Lemma eff_CompleteServiceTask job v : preserves within (CompleteServiceTask ctx job v).
Proof. unfold CompleteServiceTask. preserves_tac. Qed.
Lemma eff_CompleteSendMessageTask job v : preserves within (CompleteSendMessageTask ctx job v).
Proof. unfold CompleteSendMessageTask. preserves_tac. Qed.
Lemma eff_CompleteUserTask job v : preserves within (CompleteUserTask ctx job v).
Proof. unfold CompleteUserTask. preserves_tac. Qed.
Lemma eff_GetCompensationInputVariables p t : preserves within (GetCompensationInputVariables ctx p t).
Proof. unfold GetCompensationInputVariables. preserves_tac. Qed.
Lemma eff_GetCompensationOutputVariables p t : preserves within (GetCompensationOutputVariables ctx p t).
Proof. unfold GetCompensationOutputVariables. preserves_tac. Qed.
End jobs_effects.

#[export] Hint Resolve eff_startJob eff_CompleteManualTask eff_CompleteServiceTask
  eff_CompleteSendMessageTask eff_CompleteUserTask eff_GetCompensationInputVariables
  eff_GetCompensationOutputVariables : preserves.

Section errors_effects.
Context `{EnvOk} (ctx : Ctx).

Lemma eff_find_catch T P m c l : preserves (effect T P) (find_catch m c l).
Proof. induction l as [|v l IH]; simpl; preserves_tac. Qed.
#[local] Hint Resolve eff_find_catch : preserves.
Lemma eff_HandleWorkflowError c v st : preserves (iso ctx) (HandleWorkflowError ctx c v st).
Proof. unfold HandleWorkflowError, unknown_error. preserves_tac. Qed.
End errors_effects.

#[export] Hint Resolve eff_HandleWorkflowError : preserves.
