(* ===== verification/Duration.v ===== *)
(** * ISO 8601 durations

    [client/parser/duration.go], which the parser and the engine's timers use,
    and [parseDuration] of [client/parser/parser.go].  Times are nanoseconds
    since the epoch; the calendar is the proleptic Gregorian one in UTC. *)
From S2P Require Import Prelude Model Errors Env Vars.

Local Open Scope Z_scope.

(** [model Duration]: Go's [int] fields. *)
Record Duration := mkDuration {
  dur_Y : Z; dur_M : Z; dur_W : Z; dur_D : Z;
  dur_TH : Z; dur_TM : Z; dur_TS : Z }.

(** ** [strconv] *)
Definition digit (c : ascii) : option Z :=
  let n := Z.of_N (Ascii.N_of_ascii c) in
  if bool_decide (48 ≤ n ≤ 57) then Some (n - 48) else None.

(** The leading decimal digits of a text, and the rest. *)
Fixpoint span_digits (s : string) : string * string :=
  match s with
  | EmptyString => ("", "")
  | String c s' =>
      match digit c with
      | Some _ => let '(a, b) := span_digits s' in (String c a, b)
      | None => ("", s)
      end
  end.

Fixpoint digits_value (acc : Z) (s : string) : option Z :=
  match s with
  | EmptyString => Some acc
  | String c s' => match digit c with Some d => digits_value (10 * acc + d) s' | None => None end
  end.

(** [strconv.Atoi]: an optional sign and digits, in the range of [int]. *)
Definition Atoi (s : string) : option Z :=
  let '(sg, ds) := match s with
                   | String "-" s' => (-1, s')
                   | String "+" s' => (1, s')
                   | _ => (1, s)
                   end in
  if bool_decide (ds = "") then None
  else match digits_value 0 ds with
       | Some n => if bool_decide (- 2 ^ 63 ≤ sg * n < 2 ^ 63) then Some (sg * n) else None
       | None => None
       end.

Definition Itoa (z : Z) : string := pretty z.

(** ** Parsing *)

(** [((?P<name>\d+)c)?]: the digits before the unit, when both are there. *)
Definition field (c : ascii) (s : string) : string * string :=
  let '(ds, rest) := span_digits s in
  match ds, rest with
  | String _ _, String c' rest' => if bool_decide (c = c') then (ds, rest') else ("", s)
  | _, _ => ("", s)
  end.

(** The sub-matches year, month, week, day, hour, minute, second of the
    pattern, or nothing when the text does not match it. *)
Definition match_pattern (s : string) : option (list string) :=
  match s with
  | String "P" s =>
      let '(y, s) := field "Y" s in
      let '(m, s) := field "M" s in
      let '(w, s) := field "W" s in
      let '(d, s) := field "D" s in
      match s with
      | EmptyString => Some [y; m; w; d; ""; ""; ""]
      | String "T" s =>
          let '(th, s) := field "H" s in
          let '(tm, s) := field "M" s in
          let '(ts, s) := field "S" s in
          match s with EmptyString => Some [y; m; w; d; th; tm; ts] | _ => None end
      | _ => None
      end
  | _ => None
  end.

Definition field_value (part : string) : res error Z :=
  if bool_decide (part = "") then Ok 0
  else match Atoi part with
       | Some v => Ok v
       | None => Err (Wrap "parse to integer" (New "value out of range"))
       end.

Fixpoint field_values (parts : list string) : res error (list Z) :=
  match parts with
  | [] => Ok []
  | p :: ps =>
      match field_value p with
      | Ok v => match field_values ps with Ok vs => Ok (v :: vs) | Err e => Err e | Panic w => Panic w end
      | Err e => Err e
      | Panic w => Panic w
      end
  end.

Definition ParseISO8601 (from : string) : res error Duration :=
  match match_pattern from with
  | None => Err (Wrap "parse duration failed" (Sentinel ErrFailedToParseISO8601))
  | Some parts =>
      match field_values parts with
      | Ok [y; m; w; d; th; tm; ts] => Ok (mkDuration y m w d th tm ts)
      | Ok _ => Panic "index out of range"
      | Err e => Err e
      | Panic w => Panic w
      end
  end.

Definition IsZero (d : Duration) : bool :=
  bool_decide (dur_Y d = 0 ∧ dur_M d = 0 ∧ dur_W d = 0 ∧ dur_D d = 0 ∧
               dur_TH d = 0 ∧ dur_TM d = 0 ∧ dur_TS d = 0).

(** ** Time *)
Definition Second : Z := 1000000000.
Definition Minute : Z := 60 * Second.
Definition Hour : Z := 60 * Minute.
Definition day_ns : Z := 24 * Hour.

(** Days since 1970-01-01 of a civil date, and back. *)
Definition days_from_civil (y m d : Z) : Z :=
  let y := if bool_decide (m ≤ 2) then y - 1 else y in
  let era := y / 400 in
  let yoe := y - era * 400 in
  let mp := (m + 9) mod 12 in
  let doy := (153 * mp + 2) / 5 + d - 1 in
  let doe := yoe * 365 + yoe / 4 - yoe / 100 + doy in
  era * 146097 + doe - 719468.

Definition civil_from_days (z : Z) : Z * Z * Z :=
  let z := z + 719468 in
  let era := z / 146097 in
  let doe := z - era * 146097 in
  let yoe := (doe - doe / 1460 + doe / 36524 - doe / 146096) / 365 in
  let doy := doe - (365 * yoe + yoe / 4 - yoe / 100) in
  let mp := (5 * doy + 2) / 153 in
  let d := doy - (153 * mp + 2) / 5 + 1 in
  let m := if bool_decide (mp < 10) then mp + 3 else mp - 9 in
  let y := yoe + era * 400 in
  ((if bool_decide (m ≤ 2) then y + 1 else y), m, d).

(** [time.Time.AddDate]: the date's fields are added to and normalised. *)
Definition AddDate (t years months days : Z) : Z :=
  let '(y, m, d) := civil_from_days (t / day_ns) in
  let m := m + months - 1 in
  let y := y + years + m / 12 in
  (days_from_civil y (m mod 12 + 1) 1 + (d + days - 1)) * day_ns + t mod day_ns.

Definition timeDuration (d : Duration) : Z :=
  let dur := wrap64 (0 + wrap64 (dur_TH d * Hour)) in
  let dur := wrap64 (dur + wrap64 (dur_TM d * Minute)) in
  wrap64 (dur + wrap64 (dur_TS d * Second)).

(** The shifted time; [UnixNano] of the result wraps. *)
Definition Shift (d : Duration) (t : Z) : Z :=
  let t := if bool_decide (dur_Y d = 0 ∧ dur_M d = 0 ∧ dur_W d = 0 ∧ dur_D d = 0) then t
           else AddDate t (dur_Y d) (dur_M d) (wrap64 (wrap64 (dur_W d * 7) + dur_D d)) in
  t + timeDuration d.

(** ** Durations in a definition *)

(** Text that is no duration is looked at from its second character on. *)
Definition parseDuration (ref : string) : res error string :=
  let ref := TrimSpace ref in
  if bool_decide (ref = "") then Err (New "empty Duration found")
  else match ParseISO8601 ref with
       | Ok d => Ok (Itoa (timeDuration d))
       | Panic w => Panic w
       | Err err =>
           match String.get 1 ref with
           | None => Panic "index out of range [1] with length 1"
           | Some c => if bool_decide (c = "="%char) then Ok ref else Err err
           end
       end.

(** ** Printing and parsing *)
Definition in_int (z : Z) : Prop := 0 ≤ z < 2 ^ 63.

Definition unit_text (z : Z) (c : ascii) (rest : string) : string := Itoa z +:+ String c rest.

(** The date and the time part of a duration, all fields spelled out. *)
Definition date_text (d : Duration) (rest : string) : string :=
  unit_text (dur_Y d) "Y" (unit_text (dur_M d) "M" (unit_text (dur_W d) "W" (unit_text (dur_D d) "D" rest))).

Definition time_text (d : Duration) : string :=
  unit_text (dur_TH d) "H" (unit_text (dur_TM d) "M" (unit_text (dur_TS d) "S" "")).

Definition print (d : Duration) : string := String "P" (date_text d (String "T" (time_text d))).

Definition well_formed (d : Duration) : Prop :=
  in_int (dur_Y d) ∧ in_int (dur_M d) ∧ in_int (dur_W d) ∧ in_int (dur_D d) ∧
  in_int (dur_TH d) ∧ in_int (dur_TM d) ∧ in_int (dur_TS d).

Lemma digit_char x : (x < 10)%N → digit (pretty_N_char x) = Some (Z.of_N x).
Proof. intros Hx. destruct x as [|[[[[]|[]|]|[[]|[]|]|]|[[[]|[]|]|[[]|[]|]|]|]]; done || lia. Qed.

Lemma digits_value_go x s : digits_value 0 (pretty_N_go x s) = digits_value (Z.of_N x) s.
Proof.
  revert s. induction (N.lt_wf_0 x) as [x _ IH]; intros s. destruct (decide (0 < x)%N).
  - rewrite pretty_N_go_step by done. rewrite IH by (by apply N.div_lt). simpl.
    rewrite digit_char by (by apply N.mod_lt). f_equal.
    rewrite (N.div_mod x 10) at 3 by done. lia.
  - replace x with 0%N by lia. by rewrite pretty_N_go_0.
Qed.

(** All characters of the text are digits. *)
Fixpoint numeral (s : string) : bool :=
  match s with
  | EmptyString => true
  | String c s' => match digit c with Some _ => numeral s' | None => false end
  end.

Lemma numeral_go x s : numeral s = true → numeral (pretty_N_go x s) = true.
Proof.
  revert s. induction (N.lt_wf_0 x) as [x _ IH]; intros s Hs. destruct (decide (0 < x)%N).
  - rewrite pretty_N_go_step by done. apply IH; [by apply N.div_lt|]. simpl.
    by rewrite digit_char by (by apply N.mod_lt).
  - replace x with 0%N by lia. by rewrite pretty_N_go_0.
Qed.

Lemma pretty_N_go_nonempty x s : s ≠ "" → pretty_N_go x s ≠ "".
Proof.
  revert s. induction (N.lt_wf_0 x) as [x _ IH]; intros s Hs. destruct (decide (0 < x)%N).
  - rewrite pretty_N_go_step by done. apply IH; [by apply N.div_lt|done].
  - replace x with 0%N by lia. by rewrite pretty_N_go_0.
Qed.

Lemma Itoa_nonneg z : 0 ≤ z →
  numeral (Itoa z) = true ∧ Itoa z ≠ "" ∧ digits_value 0 (Itoa z) = Some z.
Proof.
  unfold Itoa. intros Hz. destruct z as [|p|p]; [done| |lia].
  change (pretty (Z.pos p)) with (pretty (N.pos p)). unfold pretty, pretty_N.
  rewrite decide_False by done. split; [by apply numeral_go|]. split.
  - rewrite pretty_N_go_step by lia. by apply pretty_N_go_nonempty.
  - by rewrite digits_value_go.
Qed.

Lemma Itoa_spec z : in_int z →
  numeral (Itoa z) = true ∧ Itoa z ≠ "" ∧ digits_value 0 (Itoa z) = Some z.
Proof. intros [Hz _]. by apply Itoa_nonneg. Qed.

Lemma span_digits_numeral s c rest :
  numeral s = true → digit c = None → span_digits (s +:+ String c rest) = (s, String c rest).
Proof.
  intros Hs Hc. induction s as [|d s IH].
  - change ("" +:+ String c rest) with (String c rest). simpl. by rewrite Hc.
  - change (String d s +:+ String c rest) with (String d (s +:+ String c rest)). simpl in *.
    destruct (digit d); [|done]. by rewrite IH.
Qed.

Lemma field_unit z c rest :
  in_int z → digit c = None → field c (unit_text z c rest) = (Itoa z, rest).
Proof.
  intros Hz Hc. destruct (Itoa_spec z Hz) as (Hn & He & _). unfold field, unit_text.
  rewrite span_digits_numeral by done. destruct (Itoa z); [done|]. by rewrite bool_decide_true.
Qed.

Lemma Atoi_Itoa z : in_int z → Atoi (Itoa z) = Some z.
Proof.
  intros Hz. destruct (Itoa_spec z Hz) as (Hn & He & Hv). unfold Atoi. unfold in_int in Hz.
  destruct (Itoa z) as [|c s] eqn:Ei; [done|]. simpl in Hn.
  destruct (digit c) as [n|] eqn:Hd; [|done].
  assert (match String c s with
          | String "-" s' => (-1, s')
          | String "+" s' => (1, s')
          | _ => (1, String c s)
          end = (1, String c s)) as ->.
  { destruct c as [[] [] [] [] [] [] [] []]; done. }
  rewrite bool_decide_false by done. rewrite Hv, bool_decide_true by lia. f_equal. lia.
Qed.

(** A numeral has no character that is not a digit. *)
Lemma numeral_lacks c s : digit c = None → numeral s = true → lacks c s = true.
Proof.
  intros Hc. unfold lacks. induction s as [|d s IH]; [done|]. simpl. destruct (digit d) eqn:Hd; [|done].
  intros Hs. rewrite IH by done. rewrite bool_decide_false; [done|]. intros ->. congruence.
Qed.

Lemma field_value_Itoa z : in_int z → field_value (Itoa z) = Ok z.
Proof.
  intros Hz. destruct (Itoa_spec z Hz) as (_ & He & _). unfold field_value.
  by rewrite bool_decide_false, Atoi_Itoa.
Qed.

Lemma match_print d :
  well_formed d → match_pattern (print d) =
    Some (map Itoa [dur_Y d; dur_M d; dur_W d; dur_D d; dur_TH d; dur_TM d; dur_TS d]).
Proof.
  intros (HY & HM & HW & HD & HH & HN & HS). unfold print, match_pattern, date_text, time_text.
  rewrite !field_unit by done. done.
Qed.

Lemma match_date d :
  well_formed d → match_pattern (String "P" (date_text d "")) =
    Some (map Itoa [dur_Y d; dur_M d; dur_W d; dur_D d] ++ [""; ""; ""]).
Proof.
  intros (HY & HM & HW & HD & _). unfold match_pattern, date_text.
  rewrite !field_unit by done. done.
Qed.

(** (C37) Parsing inverts printing: every duration written out in ISO 8601 is read
    back field by field. *)
Theorem ParseISO8601_print d : well_formed d → ParseISO8601 (print d) = Ok d.
Proof.
  intros Hd. unfold ParseISO8601. rewrite match_print by done.
  destruct Hd as (HY & HM & HW & HD & HH & HN & HS). simpl.
  rewrite !field_value_Itoa by done. by destruct d.
Qed.

Lemma ParseISO8601_print_witness :
  print (mkDuration 1 2 0 4 5 6 7) = "P1Y2M0W4DT5H6M7S" ∧
  ParseISO8601 "P1Y2M0W4DT5H6M7S" = Ok (mkDuration 1 2 0 4 5 6 7).
Proof.
  split; [vm_compute; reflexivity|].
  apply (ParseISO8601_print (mkDuration 1 2 0 4 5 6 7)). unfold well_formed, in_int. simpl. lia.
Defined.

(** ** What a definition keeps of a duration *)
Fixpoint ends_with (c : ascii) (s : string) : bool :=
  match s with
  | EmptyString => false
  | String d EmptyString => bool_decide (c = d)
  | String _ s' => ends_with c s'
  end.

Lemma ends_with_cons c d s : ends_with c s = true → ends_with c (String d s) = true.
Proof. by destruct s. Qed.

Lemma ends_with_app c a s : ends_with c s = true → ends_with c (a +:+ s) = true.
Proof. induction a as [|d a IH]; [done|]. intros Hs. apply ends_with_cons. by apply IH. Qed.

Lemma TrimRight_end c s : is_space c = false → ends_with c s = true → TrimRight s = s.
Proof.
  intros Hc. induction s as [|d s IH]; [done|]. intros Hs. destruct s as [|d' s'].
  - simpl in *. apply bool_decide_eq_true in Hs as <-. by rewrite Hc.
  - change (ends_with c (String d' s') = true) in Hs. specialize (IH Hs).
    remember (String d' s') as s0. simpl. rewrite IH. by subst s0.
Qed.

Lemma parseDuration_parsed c d s :
  is_space c = false → TrimLeft s = s → s ≠ "" → ends_with c s = true → ParseISO8601 s = Ok d →
  parseDuration s = Ok (Itoa (timeDuration d)).
Proof.
  intros Hc Hl Hs He Hp. unfold parseDuration, TrimSpace.
  rewrite Hl, (TrimRight_end c) by done. rewrite bool_decide_false by done. by rewrite Hp.
Qed.

(** A definition keeps only the time part of a duration: what [parseDuration]
    makes of a date duration, years, months, weeks and days, is the timer value
    zero, so the timer fires at once. *)
Theorem parseDuration_drops_date d :
  well_formed d → parseDuration (String "P" (date_text d "")) = Ok "0".
Proof.
  intros Hd. rewrite (parseDuration_parsed "D" (mkDuration (dur_Y d) (dur_M d) (dur_W d) (dur_D d) 0 0 0));
    [done|done|done|done| |].
  - apply ends_with_cons. unfold date_text, unit_text.
    do 3 apply ends_with_app, ends_with_cons. by apply ends_with_app.
  - unfold ParseISO8601. rewrite match_date by done. destruct Hd as (HY & HM & HW & HD & _). simpl.
    by rewrite !field_value_Itoa.
Qed.

Lemma parseDuration_drops_date_witness : parseDuration "P0Y0M0W1D" = Ok "0".
Proof.
  apply (parseDuration_drops_date (mkDuration 0 0 0 1 0 0 0)).
  unfold well_formed, in_int. simpl. lia.
Defined.
