(* ===== verification/Traverse.v ===== *)
(** * Traversal

    [traverse] and [completeActivity] of [internal/server/workflow/engine.go]:
    the outbound flows of an element whose conditions hold, the bookkeeping for
    gateways that have to join them again, and the message that moves the
    process along each of them. *)
From S2P Require Import Prelude Model Errors Env Sim Common Wp NatsUtil Vars Publish History Instances Jobs Launch.

Section traverse.
Context `{Env}.

(** All conditions of a flow hold; the first that does not ends the test. *)
Fixpoint conditions_hold (vars : bytes) (l : list string) : M bool :=
  match l with
  | [] => mret true
  | ex :: l =>
      exVars ← wrapping (Wrap "decode variables for condition evaluation")
                 (DecodeVars NewServerVars vars);
      res ← wrapping fatal (lift_res (EvalBool ex exVars));
      if res : bool then conditions_hold vars l else mret false
  end.

(** The flows that are taken, by their id; the default flow is passed over. *)
Fixpoint open_targets (vars : bytes) (dflt : Z) (ord : Z) (l : list Target)
    (targets : gmap string string) : M (gmap string string) :=
  match l with
  | [] => mret targets
  | t :: l =>
      if bool_decide (ord = dflt) then open_targets vars dflt (ord + 1) l targets
      else
        ok ← conditions_hold vars (tg_Conditions t);
        open_targets vars dflt (ord + 1) l
          (if ok : bool then <[tg_Id t := tg_Target t]> targets else targets)
  end.

(** [l[i]] for an [int64] index. *)
Definition index {A} (l : list A) (i : Z) : M A :=
  if bool_decide (i < 0)%Z then panic "index out of range"
  else deref "index out of range" (l !! Z.to_nat i).

Definition taken_targets (vars : bytes) (outbound : Targets) : M (gmap string string) :=
  targets ← open_targets vars (tgs_DefaultTarget outbound) 0 (tgs_Target outbound) ∅;
  if bool_decide (targets = ∅ ∧ tgs_DefaultTarget outbound ≠ (-1)%Z) then
    def ← index (tgs_Target outbound) (tgs_DefaultTarget outbound);
    mret (<[tg_Id def := tg_Target def]> targets)
  else mret targets.

(** The element is a gateway of the direction with (or without) a reciprocal. *)
Definition is_gateway (d : GatewayDirection) (reciprocal : bool) (el : Element) : M bool :=
  if bool_decide (el_Type el = element.Gateway) then
    g ← deref "Gateway.Direction" (el_Gateway el);
    mret (bool_decide (gs_Direction g = d) &&
          Bool.eqb (negb (bool_decide (gs_ReciprocalId g = ""))) reciprocal)
  else mret false.

(** Appends to a list in a map of lists. *)
Definition push_tracking (m : gmap string (list string)) (k v : string) : gmap string (list string) :=
  <[k := default [] (m !! k) ++ [v]]> m.

(** [els[id].Name] in the process the state is of. *)
Definition element_name (ctx : Ctx) (workflowId processId elementId : string) : M string :=
  wf ← wrapping (λ err, fatal (Wrap "get workflow" err)) (GetWorkflow ctx workflowId);
  pr ← deref "wf.Process[ws.ProcessId]" (wf_Process wf !! processId);
  el ← deref "els[ws.ElementId]" (IndexProcessElements (pr_Elements pr) ∅ !! elementId);
  mret (el_Name el).

(** The state sent along one flow.  [reciprocal] carries the joining gateway and
    the instance that the divergent gateway opened for it. *)
Definition branch_state (state : WorkflowState) (trackingID : list string) (newID branchID : string)
    (target : Element) (name : string) (joins : bool) (reciprocal : option (string * string)) :
    WorkflowState :=
  let ws := state
    <| ws_Id := TrackingID.Push trackingID newID |>
    <| ws_ElementType := el_Type target |> <| ws_ElementId := el_Id target |>
    <| ws_ElementName := name |> in
  let ws := if joins
            then ws <| ws_SatisfiesGatewayExpectation ::= λ m, push_tracking m (el_Id target) ("-," +:+ branchID) |>
            else ws in
  match reciprocal with
  | Some (rid, iid) =>
      ws <| ws_SatisfiesGatewayExpectation ::= λ m, push_tracking m rid (iid +:+ "," +:+ branchID) |>
  | None => ws
  end.

Definition traverse_branch (ctx : Ctx) (trackingID : list string) (el : gmap string Element)
    (state : WorkflowState) (reciprocal : option (string * string)) (branch : string * string) : M unit :=
  newID ← newId;
  target ← deref "target.Type" (el !! branch.2);
  name ← element_name ctx (ws_WorkflowId state) (ws_ProcessId state) (el_Id target);
  joins ← is_gateway convergent false target;
  let ws := branch_state state trackingID newID branch.1 target name joins reciprocal in
  _ ← wrapping (Wrap "publish workflow state")
        (PublishWorkflowState ctx messages.WorkflowTraversalExecute ws []);
  mret tt.

(** A divergent gateway with a reciprocal opens an instance of it that expects
    the flows taken. *)
Definition open_gateway (ctx : Ctx) (elem : Element) (iid : string) (targets : gmap string string)
    (state : WorkflowState) : M (WorkflowState * option (string * string)) :=
  reciprocated ← is_gateway divergent true elem;
  if reciprocated : bool then
    g ← deref "elem.Gateway" (el_Gateway elem);
    paths ← range targets;
    let state := state <| ws_GatewayExpectations ::= <[iid := map fst paths]> |> in
    _ ← wrapping (Wrap "traverse get kvs for ns") (KvsFor (GetNS ctx));
    _ ← wrapping (Wrap "failed to save gateway to KV")
          (SaveObj (GetNS ctx) WfGateway iid (mkGateway ∅ [ws_Vars state] 0));
    mret (state, Some (gs_ReciprocalId g, iid))
  else mret (state, None).

(** The caller's state is marked with where it came from, so it is returned. *)
Definition traverse (ctx : Ctx) (trackingID : list string) (outbound : option Targets)
    (el : gmap string Element) (state : WorkflowState) : M WorkflowState :=
  let state := state <| ws_PreviousActivity := TrackingID.ID (ws_Id state) |>
                     <| ws_PreviousElement := ws_ElementId state |> in
  match outbound with
  | None => mret state
  | Some outbound =>
      targets ← taken_targets (ws_Vars state) outbound;
      elem ← deref "elem.Type" (el !! ws_ElementId state);
      iid ← newId;
      r ← open_gateway ctx elem iid targets state;
      let '(state, reciprocal) := r in
      branches ← range targets;
      _ ← for_each branches (traverse_branch ctx trackingID el state reciprocal);
      mret state
  end.

(** ** Completing an activity *)
Definition completeActivity (ctx : Ctx) (state : WorkflowState) : M WorkflowState :=
  let state := DropStateParams state in
  state ← wrapping engineErr (PublishWorkflowState ctx messages.WorkflowActivityComplete state []);
  _ ← wrapping (λ err, engineErr (fatal err)) (RecordHistoryActivityComplete ctx state);
  mret state.

(** The state a history entry recorded; the fields it reads are pointers. *)
Definition workfFlowStateFrom (activityStart : ProcessHistoryEntry) : M WorkflowState :=
  workflowId ← deref "activityStart.WorkflowId" (ph_WorkflowId activityStart);
  executionId ← deref "activityStart.ExecutionId" (ph_ExecutionId activityStart);
  elementId ← deref "activityStart.ElementId" (ph_ElementId activityStart);
  processInstanceId ← deref "activityStart.ProcessInstanceId" (ph_ProcessInstanceId activityStart);
  state ← deref "activityStart.CancellationState" (ph_CancellationState activityStart);
  mret (zero_state
    <| ws_Id := ph_Id activityStart |> <| ws_WorkflowId := workflowId |>
    <| ws_ExecutionId := executionId |> <| ws_ElementId := elementId |>
    <| ws_ProcessInstanceId := processInstanceId |> <| ws_State := state |>
    <| ws_Vars := ph_Vars activityStart |> <| ws_Timer := ph_Timer activityStart |>
    <| ws_Error := ph_Error activityStart |> <| ws_UnixTimeNano := ph_UnixTimeNano activityStart |>
    <| ws_Execute := ph_Execute activityStart |> <| ws_ProcessId := ph_ProcessId activityStart |>
    <| ws_SatisfiesGatewayExpectation := ph_SatisfiesGatewayExpectation activityStart |>
    <| ws_GatewayExpectations := ph_GatewayExpectations activityStart |>
    <| ws_WorkflowName := ph_WorkflowName activityStart |>).
End traverse.

(** ** Effects *)
Section traverse_reads.
Context `{EnvOk} (ctx : Ctx) (T : Cells) (P : Msg → Prop).

Lemma eff_conditions_hold v l : preserves (effect T P) (conditions_hold v l).
Proof. induction l as [|e l IH]; simpl; preserves_tac. Qed.
#[local] Hint Resolve eff_conditions_hold : preserves.
Lemma eff_open_targets v d o l t : preserves (effect T P) (open_targets v d o l t).
Proof. revert o t. induction l as [|x l IH]; intros o t; simpl; preserves_tac. Qed.
Lemma eff_index {A} (l : list A) i : preserves (effect T P) (index l i).
Proof. unfold index. preserves_tac. Qed.
#[local] Hint Resolve eff_open_targets eff_index : preserves.
Lemma eff_taken_targets v o : preserves (effect T P) (taken_targets v o).
Proof. unfold taken_targets. preserves_tac. Qed.
Lemma eff_is_gateway d r el : preserves (effect T P) (is_gateway d r el).
Proof. unfold is_gateway. preserves_tac. Qed.
Lemma eff_element_name a b c : preserves (effect T P) (element_name ctx a b c).
Proof. unfold element_name. preserves_tac. Qed.
Lemma eff_workfFlowStateFrom e : preserves (effect T P) (workfFlowStateFrom e).
Proof. unfold workfFlowStateFrom. preserves_tac. Qed.
End traverse_reads.

#[export] Hint Resolve eff_taken_targets eff_is_gateway eff_element_name eff_workfFlowStateFrom : preserves.

Section traverse_effects.
Context `{EnvOk} (ctx : Ctx) (T : Cells) `{!Lesser ctx T}.
Abbreviation within := (effect T (msg_ns (GetNS ctx))).

Lemma eff_traverse_branch t el st r b : preserves within (traverse_branch ctx t el st r b).
Proof. unfold traverse_branch. preserves_tac. Qed.
Lemma eff_open_gateway e i t st : preserves within (open_gateway ctx e i t st).
Proof. unfold open_gateway. preserves_tac. Qed.
#[local] Hint Resolve eff_traverse_branch eff_open_gateway : preserves.
Lemma eff_traverse t o el st : preserves within (traverse ctx t o el st).
Proof. unfold traverse. preserves_tac. Qed.
Lemma eff_completeActivity st : preserves within (completeActivity ctx st).
Proof. unfold completeActivity. preserves_tac. Qed.
End traverse_effects.

#[export] Hint Resolve eff_traverse eff_completeActivity : preserves.
