(* ===== verification/Flows.v ===== *)
(** * Which flows a traversal takes

    The specification of [traverse]: with the variables decoded and every
    condition evaluated, exactly the flows whose conditions hold are taken, the
    default flow when there is none, and one traversal message goes out for
    each of them; a divergent gateway with a reciprocal opens one instance of
    it that expects exactly these flows. *)
From S2P Require Import Prelude Model Errors Env Sim Common Wp NatsUtil Vars Publish History Instances Lifecycle Lookups Jobs Launch Traverse.

(** ** Pure counterparts *)
Section flows.
Context `{Env}.

(** Conditions are evaluated in order, up to the first that is false. *)
Inductive conditions (vals : gmap string GoVal) : list string → bool → Prop :=
  | conditions_nil : conditions vals [] true
  | conditions_false c cs : EvalBool c vals = Ok false → conditions vals (c :: cs) false
  | conditions_true c cs b :
      EvalBool c vals = Ok true → conditions vals cs b → conditions vals (c :: cs) b.

Fixpoint open_flows (open : Target → bool) (dflt ord : Z) (l : list Target) : list Target :=
  match l with
  | [] => []
  | t :: l =>
      if bool_decide (ord = dflt) then open_flows open dflt (ord + 1) l
      else if open t then t :: open_flows open dflt (ord + 1) l
      else open_flows open dflt (ord + 1) l
  end.

(** The flows taken: those that are open, or else the default. *)
Definition taken (open : Target → bool) (outbound : Targets) : list Target :=
  match open_flows open (tgs_DefaultTarget outbound) 0 (tgs_Target outbound) with
  | [] => if bool_decide (tgs_DefaultTarget outbound = (-1)%Z) then []
          else option_list (tgs_Target outbound !! Z.to_nat (tgs_DefaultTarget outbound))
  | l => l
  end.

(** The element is a gateway of the direction with (or without) a reciprocal. *)
Definition gateway_is (d : GatewayDirection) (reciprocal : bool) (el : Element) : bool :=
  bool_decide (el_Type el = element.Gateway) &&
  match el_Gateway el with
  | Some g => bool_decide (gs_Direction g = d) &&
              Bool.eqb (negb (bool_decide (gs_ReciprocalId g = ""))) reciprocal
  | None => false
  end.

Definition gateway_ok (el : Element) : Prop := el_Type el = element.Gateway → is_Some (el_Gateway el).

Definition flow (t : Target) : string * string := (tg_Id t, tg_Target t).

(** The default flow is one of the targets, or there is none. *)
Definition default_ok (outbound : Targets) : Prop :=
  tgs_DefaultTarget outbound = (-1)%Z ∨
  (0 ≤ tgs_DefaultTarget outbound < Z.of_nat (length (tgs_Target outbound)))%Z.
End flows.

Lemma open_flows_sublist open dflt ord l : sublist (open_flows open dflt ord l) l.
Proof.
  revert ord. induction l as [|t l IH]; intros ord; simpl; [constructor|].
  case_bool_decide; [by constructor|]. case_match; by constructor.
Qed.

Lemma taken_sub open outbound t : t ∈ taken open outbound → t ∈ tgs_Target outbound.
Proof.
  unfold taken. pose proof (open_flows_sublist open (tgs_DefaultTarget outbound) 0 (tgs_Target outbound)) as Hs.
  destruct (open_flows _ _ _ _) as [|t' l].
  - case_bool_decide; [by rewrite elem_of_nil|].
    destruct (_ !! _) as [t'|] eqn:E; simpl; [|by rewrite elem_of_nil].
    intros ->%list_elem_of_singleton. by eapply list_elem_of_lookup_2.
  - intros Hin. eapply elem_of_submseteq; [done|by apply sublist_submseteq].
Qed.

Lemma taken_nodup open outbound :
  NoDup (tg_Id <$> tgs_Target outbound) → NoDup (flow <$> taken open outbound).*1.
Proof.
  intros Hnd. rewrite <-list_fmap_compose. change (fst ∘ flow) with tg_Id. unfold taken.
  pose proof (open_flows_sublist open (tgs_DefaultTarget outbound) 0 (tgs_Target outbound)) as Hs.
  destruct (open_flows _ _ _ _) as [|t' l].
  - case_bool_decide; [constructor|]. destruct (_ !! _); simpl; [apply NoDup_singleton|constructor].
  - eapply sublist_NoDup; [done|]. by apply fmap_sublist.
Qed.

Section flows_specs.
Context `{EnvOk}.

Lemma conditions_hold_spec b vals cs v w :
  holds b vals → conditions vals cs v → conditions_hold b cs w = (w, Ok v).
Proof.
  intros Hb Hc. induction Hc as [|c cs Hf|c cs v Ht _ IH]; simpl; [done|..];
    unfold mbind at 1, gom_bind at 1, wrapping at 1; rewrite (DecodeVars_holds b vals) by done.
  - unfold mbind, gom_bind, wrapping, lift_res. by rewrite Hf.
  - unfold mbind, gom_bind, wrapping, lift_res. by rewrite Ht.
Qed.

Lemma open_targets_spec b vals open dflt ord l m w :
  holds b vals → (∀ t, t ∈ l → conditions vals (tg_Conditions t) (open t)) →
  open_targets b dflt ord l m w =
  (w, Ok (foldl (λ m t, <[tg_Id t := tg_Target t]> m) m (open_flows open dflt ord l))).
Proof.
  intros Hb. revert ord m. induction l as [|t l IH]; intros ord m Hl; simpl; [done|].
  case_bool_decide; [apply IH; set_solver|].
  unfold mbind, gom_bind. rewrite (conditions_hold_spec b vals _ (open t)) by (auto; set_solver).
  rewrite IH by set_solver. by destruct (open t).
Qed.

Lemma foldl_insert_flows l (m : gmap string string) :
  NoDup (tg_Id <$> l) → (∀ t, t ∈ l → m !! tg_Id t = None) →
  foldl (λ m t, <[tg_Id t := tg_Target t]> m) m l = list_to_map (flow <$> l) ∪ m.
Proof.
  revert m. induction l as [|t l IH]; intros m Hnd Hm; simpl; [by rewrite map_empty_union|].
  apply NoDup_cons in Hnd as [Ht Hnd]. rewrite IH; [|done|].
  - rewrite <-insert_union_r, insert_union_l; [done|].
    apply not_elem_of_list_to_map_1. rewrite <-list_fmap_compose. done.
  - intros t' Ht'. rewrite lookup_insert_ne; [apply Hm; by right|].
    intros Heq. apply Ht. rewrite Heq. by apply list_elem_of_fmap_2.
Qed.

Lemma taken_targets_spec b vals open outbound w :
  holds b vals → NoDup (tg_Id <$> tgs_Target outbound) → default_ok outbound →
  (∀ t, t ∈ tgs_Target outbound → conditions vals (tg_Conditions t) (open t)) →
  taken_targets b outbound w = (w, Ok (list_to_map (flow <$> taken open outbound))).
Proof.
  intros Hb Hnd Hd Hc. unfold taken_targets, taken. unfold mbind at 1, gom_bind at 1.
  rewrite (open_targets_spec b vals open) by done.
  pose proof (open_flows_sublist open (tgs_DefaultTarget outbound) 0 (tgs_Target outbound)) as Hs.
  set (l := open_flows _ _ _ _) in *.
  rewrite foldl_insert_flows, map_union_empty by
    (set_solver || (eapply sublist_NoDup; [done|by apply fmap_sublist])).
  destruct l as [|t l']; simpl.
  - destruct (decide (tgs_DefaultTarget outbound = (-1)%Z)) as [Hm|Hm].
    { rewrite bool_decide_false, bool_decide_true by tauto. done. }
    rewrite bool_decide_true, bool_decide_false by done. destruct Hd as [Hd|Hd]; [done|].
    unfold index. rewrite bool_decide_false by lia.
    destruct (lookup_lt_is_Some_2 (tgs_Target outbound) (Z.to_nat (tgs_DefaultTarget outbound)))
      as [t Ht]; [lia|]. by rewrite Ht.
  - rewrite bool_decide_false; [done|]. intros [He _]. by apply insert_non_empty in He.
Qed.

Lemma is_gateway_spec d r el w : gateway_ok el → is_gateway d r el w = (w, Ok (gateway_is d r el)).
Proof.
  intros Hok. unfold is_gateway, gateway_is. case_bool_decide; [|done].
  destruct (Hok ltac:(done)) as [g ->]. done.
Qed.
End flows_specs.

(** ** The traversal *)

(** Messages published one after the other. *)
Definition w_pubs `{Env} (ms : list Msg) (w : World) : World := w <| w_out ::= λ l, l ++ ms |>.

Section w_pubs.
Context `{Env}.
#[export] Instance w_pubs_proper ms : Proper ((≡) ==> (≡)) (w_pubs ms).
Proof.
  intros w w' Hw. split.
  - intros ns b k. change (w_get w ns b k = w_get w' ns b k). by rewrite Hw.
  - simpl. destruct Hw as [_ Ho]. by rewrite Ho.
Qed.
Lemma w_pubs_nil w : w_pubs [] w ≡ w.
Proof. split; [done|]. simpl. by rewrite app_nil_r. Qed.
Lemma w_pubs_pub m ms w : w_pubs ms (w_pub m w) ≡ w_pubs (m :: ms) w.
Proof. split; [done|]. simpl. by rewrite <-app_assoc. Qed.
Lemma w_pub_pubs m ms w : w_pub m (w_pubs ms w) ≡ w_pubs (ms ++ [m]) w.
Proof. split; [done|]. simpl. by rewrite app_assoc. Qed.
Lemma w_get_pubs ms w ns b k : w_get (w_pubs ms w) ns b k = w_get w ns b k.
Proof. done. Qed.
End w_pubs.

Section traverse_spec.
Context `{EnvOk} (NF : NoFaults) (CC : ColdCache) (ctx : Ctx) (cid : string).
Context (Hcid : ctx_Correlation ctx = Some cid).
Abbreviation ns := (GetNS ctx).

(** The workflow of the state, its process, and the table of elements. *)
Record flows_ok (w : World) (wf : Workflow) (pr : Process) (els : gmap string Element)
    (outbound : Targets) (state : WorkflowState) : Prop := {
  fo_workflow : w_get w ns Wf (ws_WorkflowId state) = Some (DWorkflow wf);
  fo_process : wf_Process wf !! ws_ProcessId state = Some pr;
  fo_ids : NoDup (tg_Id <$> tgs_Target outbound);
  fo_default : default_ok outbound;
  fo_target t : t ∈ tgs_Target outbound → ∃ e, els !! tg_Target t = Some e ∧ gateway_ok e ∧
    IndexProcessElements (pr_Elements pr) ∅ !! el_Id e = Some e }.

Lemma flows_ok_equiv w w' wf pr els outbound st :
  w' ≡ w → flows_ok w wf pr els outbound st → flows_ok w' wf pr els outbound st.
Proof. intros Hw []. split; try done. by rewrite Hw. Qed.

(** The message that goes along one flow. *)
Definition branch_msg (els : gmap string Element) (trackingID : list string) (state : WorkflowState)
    (reciprocal : option (string * string)) (b : string * string) (m : Msg) : Prop :=
  ∃ newID t target, els !! b.2 = Some target ∧
    m = state_msg ctx cid messages.WorkflowTraversalExecute
          (branch_state state trackingID newID b.1 target (el_Name target)
             (gateway_is convergent false target) reciprocal <| ws_UnixTimeNano := t |>) [].

Lemma wp_traverse_branch wf pr els outbound trackingID state reciprocal t w Φ :
  flows_ok w wf pr els outbound state → t ∈ tgs_Target outbound →
  (∀ w' m, branch_msg els trackingID state reciprocal (flow t) m → w' ≡ w_pub m w → Φ w' (Ok tt)) →
  wp (traverse_branch ctx trackingID els state reciprocal (flow t)) w Φ.
Proof.
  intros Hok Ht HΦ. destruct (fo_target _ _ _ _ _ _ Hok t Ht) as (e & He & Hgw & Hi).
  unfold traverse_branch, element_name. wp_steps. simpl. rewrite He. wp_steps.
  apply (wp_GetWorkflow NF ctx CC _ wf); [apply (fo_workflow _ _ _ _ _ _ Hok)|].
  intros w1 Hw1. wp_steps. rewrite (fo_process _ _ _ _ _ _ Hok). wp_steps. rewrite Hi. wp_steps.
  unfold wp at 1. rewrite is_gateway_spec by done. simpl. wp_steps.
  eapply wp_publish; [done..|]. intros w2 time Hw2. wp_steps. eapply HΦ.
  - unfold branch_msg. eauto.
  - rewrite Hw2. unfold published. by rewrite Hw1, w_next_equiv.
Qed.

Lemma wp_traverse_branches wf pr els outbound trackingID state reciprocal bs w Φ :
  flows_ok w wf pr els outbound state → (∀ t, t ∈ bs → t ∈ tgs_Target outbound) →
  (∀ w' ms, Forall2 (branch_msg els trackingID state reciprocal) (flow <$> bs) ms →
     w' ≡ w_pubs ms w → Φ w' (Ok tt)) →
  wp (for_each (flow <$> bs) (traverse_branch ctx trackingID els state reciprocal)) w Φ.
Proof.
  revert w Φ. induction bs as [|t bs IH]; intros w Φ Hok Hbs HΦ; simpl.
  { wp_steps. eapply HΦ; [constructor|]. by rewrite w_pubs_nil. }
  wp_steps. eapply wp_traverse_branch; [done|apply Hbs; by left|]. intros w1 m Hm Hw1. cbv beta iota.
  apply IH; [|set_solver|].
  { destruct Hok. split; try done. by rewrite Hw1, w_get_pub. }
  intros w2 ms Hms Hw2. eapply HΦ; [by constructor|]. by rewrite Hw2, Hw1, w_pubs_pub.
Qed.

(** The state as it leaves the element, and the gateway instance it opened. *)
Definition departing (state : WorkflowState) : WorkflowState :=
  state <| ws_PreviousActivity := TrackingID.ID (ws_Id state) |>
        <| ws_PreviousElement := ws_ElementId state |>.

Lemma wp_open_gateway elem iid targets state w Φ :
  gateway_ok elem →
  (if gateway_is divergent true elem then
     ∀ g w' paths, el_Gateway elem = Some g → paths ≡ₚ (map_to_list targets).*1 →
       w' ≡ w_put ns WfGateway iid (DGateway (mkGateway ∅ [ws_Vars state] 0)) w →
       Φ w' (Ok (state <| ws_GatewayExpectations ::= <[iid := paths]> |>, Some (gs_ReciprocalId g, iid)))
   else Φ w (Ok (state, None))) →
  wp (open_gateway ctx elem iid targets state) w Φ.
Proof.
  intros Hok HΦ. unfold open_gateway. wp_steps. unfold wp at 1. rewrite is_gateway_spec by done. simpl.
  destruct (gateway_is divergent true elem) eqn:Hg; [|by wp_steps].
  unfold gateway_is in Hg. destruct (el_Gateway elem) as [g|]; [|by rewrite andb_false_r in Hg].
  wp_steps. apply wp_range. intros paths Hp. wp_steps. apply wp_KvsFor; [done|].
  intros w1 Hw1 _. wp_steps. apply wp_SaveObj; [done|]. intros w2 Hw2. wp_steps.
  apply HΦ; [done|by rewrite Hp|]. by rewrite Hw2, Hw1, w_next_equiv.
Qed.
End traverse_spec.

(** What a traversal leaves: the messages along the flows taken, and the instance
    of the reciprocal gateway that a divergent gateway opened. *)
Definition traversed `{Env} (ctx : Ctx) (cid : string) (els : gmap string Element) (outbound : Targets)
    (elem : Element) (open : Target → bool) (trackingID : list string) (state : WorkflowState)
    (w w' : World) (state' : WorkflowState) : Prop :=
  ∃ bs ms reciprocal,
    bs ≡ₚ taken open outbound ∧
    Forall2 (branch_msg ctx cid els trackingID state' reciprocal) (flow <$> bs) ms ∧
    if gateway_is divergent true elem then
      ∃ iid g paths, el_Gateway elem = Some g ∧ reciprocal = Some (gs_ReciprocalId g, iid) ∧
        paths ≡ₚ tg_Id <$> taken open outbound ∧
        state' = departing state <| ws_GatewayExpectations ::= <[iid := paths]> |> ∧
        w' ≡ w_pubs ms (w_put (GetNS ctx) WfGateway iid (DGateway (mkGateway ∅ [ws_Vars state] 0)) w)
    else reciprocal = None ∧ state' = departing state ∧ w' ≡ w_pubs ms w.

Lemma wp_traverse `{EnvOk} ctx cid wf pr els outbound elem vals open trackingID state w :
  NoFaults → ColdCache → ctx_Correlation ctx = Some cid →
  flows_ok ctx w wf pr els outbound state →
  els !! ws_ElementId state = Some elem → gateway_ok elem → holds (ws_Vars state) vals →
  (∀ t, t ∈ tgs_Target outbound → conditions vals (tg_Conditions t) (open t)) →
  wp (traverse ctx trackingID (Some outbound) els state) w
    (returns (traversed ctx cid els outbound elem open trackingID state w)).
Proof.
  intros NF CC Hcid Hok Helem Hgw Hv Hc. unfold traverse. cbv zeta.
  change (state <| ws_PreviousActivity := TrackingID.ID (ws_Id state) |>
                <| ws_PreviousElement := ws_ElementId state |>) with (departing state).
  pose proof (taken_nodup open outbound (fo_ids _ _ _ _ _ _ _ Hok)) as Hnd.
  assert (∀ br, br ≡ₚ map_to_list (list_to_map (flow <$> taken open outbound) : gmap string string) →
    ∃ bs, br = flow <$> bs ∧ bs ≡ₚ taken open outbound) as Hbr.
  { intros br Hbr. rewrite map_to_list_to_map in Hbr by done.
    destruct (Permutation_map_inv _ _ Hbr) as (bs & -> & Hp). by exists bs. }
  wp_steps. unfold wp at 1. change (ws_Vars (departing state)) with (ws_Vars state).
  rewrite (taken_targets_spec _ vals open)
    by (done || apply (fo_ids _ _ _ _ _ _ _ Hok) || apply (fo_default _ _ _ _ _ _ _ Hok)).
  simpl. wp_steps. rewrite Helem. wp_steps. apply (wp_open_gateway NF); [done|].
  destruct (gateway_is divergent true elem) eqn:Hg.
  - intros g w1 paths Hgs Hpaths Hw1. wp_steps. apply wp_range. intros br (bs & -> & Hbs)%Hbr. wp_steps.
    eapply (wp_traverse_branches NF CC ctx cid Hcid); [| |].
    { destruct Hok. split; try done. by rewrite w_next_equiv, Hw1, w_get_put_ne, w_next_equiv by done. }
    { intros t. rewrite Hbs. apply taken_sub. }
    intros w2 ms Hms Hw2. wp_steps. unfold returns, traversed. rewrite Hg. exists bs, ms, (Some (gs_ReciprocalId g, ksuid_new (w_tick w))). split; [done|]. split; [done|].
    exists (ksuid_new (w_tick w)), g, paths. repeat (split; [done|]). split.
    { rewrite Hpaths, map_to_list_to_map by done. by rewrite <-list_fmap_compose. }
    split; [done|]. by rewrite Hw2, w_next_equiv, Hw1, w_next_equiv.
  - wp_steps. apply wp_range. intros br (bs & -> & Hbs)%Hbr. wp_steps.
    eapply (wp_traverse_branches NF CC ctx cid Hcid); [| |].
    { by eapply flows_ok_equiv; [|by destruct Hok]; rewrite !w_next_equiv. }
    { intros t. rewrite Hbs. apply taken_sub. }
    intros w2 ms Hms Hw2. wp_steps. unfold returns, traversed. rewrite Hg. exists bs, ms, None. split; [done|]. split; [done|].
    repeat (split; [done|]). by rewrite Hw2, !w_next_equiv.
Qed.


(** An exclusive gateway is no exception: where the conditions of several of
    its flows hold, a traversal message goes out along every one of them, not
    along exactly one. *)
Theorem exclusive_gateway_takes_all `{EnvOk} ctx cid wf pr els outbound elem spec vals open trackingID state w :
  NoFaults → ColdCache → ctx_Correlation ctx = Some cid →
  flows_ok ctx w wf pr els outbound state →
  els !! ws_ElementId state = Some elem → el_Gateway elem = Some spec → gs_Type spec = exclusive →
  holds (ws_Vars state) vals →
  (∀ t, t ∈ tgs_Target outbound → conditions vals (tg_Conditions t) (open t)) →
  wp (traverse ctx trackingID (Some outbound) els state) w (returns (λ w' _,
    ∃ ms, w_out w' = w_out w ++ ms ∧ length ms = length (taken open outbound))).
Proof.
  intros NF CC Hcid Hok Helem Hspec _ Hv Hc. eapply wp_mono; [|eapply wp_traverse; try done].
  2: { intros _. by rewrite Hspec. }
  intros w' [st'| |]; simpl; [|done|done]. intros (bs & ms & r & Hbs & Hms & Hrest).
  exists ms. split; [|by rewrite <-(Forall2_length _ _ _ Hms), length_fmap, Hbs].
  destruct (gateway_is _ _ _).
  - destruct Hrest as (iid & g & paths & _ & _ & _ & _ & Hw). by rewrite (w_out_proper _ _ Hw).
  - destruct Hrest as (_ & _ & Hw). by rewrite (w_out_proper _ _ Hw).
Qed.

(** ** Examples: a fork whose two branches meet in a join, and a choice *)
Definition ex_element (id type : string) (outbound : option Targets) (gw : option GatewaySpec) : Element :=
  mkElement id id type "" "" outbound None None "" "" "" [] None ∅ ∅ None [] gw None None None false.

Definition ex_fork_flows : Targets := mkTargets [mkTarget "f1" ["true"] "a"; mkTarget "f2" ["true"] "b"] (-1).
Definition ex_choice_flows : Targets :=
  mkTargets [mkTarget "c1" ["true"] "a"; mkTarget "c2" ["true"] "b"; mkTarget "c3" [] "join"] 2.
Definition ex_join_flows : Targets := mkTargets [mkTarget "f5" [] "end"] (-1).

Definition ex_fork : Element :=
  ex_element "fork" element.Gateway (Some ex_fork_flows) (Some (mkGatewaySpec parallel divergent "join" [])).
Definition ex_choice : Element :=
  ex_element "choice" element.Gateway (Some ex_choice_flows) (Some (mkGatewaySpec exclusive divergent "" [])).
Definition ex_task (id : string) : Element := ex_element id element.ManualTask None None.
Definition ex_join : Element :=
  ex_element "join" element.Gateway (Some ex_join_flows) (Some (mkGatewaySpec parallel convergent "fork" [])).
Definition ex_end : Element := ex_element "end" element.EndEvent None None.

Definition ex_process : Process :=
  mkProcess [ex_fork; ex_choice; ex_task "a"; ex_task "b"; ex_join; ex_end] "P" None.
Definition ex_workflow : Workflow := mkWorkflow "W" {["P" := ex_process]} [] [] "" (Some []) ∅ "".
Definition ex_els : gmap string Element := IndexProcessElements (pr_Elements ex_process) ∅.

Definition ex_at (el : string) : WorkflowState :=
  zero_state <| ws_WorkflowId := "w" |> <| ws_WorkflowName := "W" |> <| ws_ProcessId := "P" |>
    <| ws_ProcessInstanceId := "p" |> <| ws_ExecutionId := "e" |> <| ws_ElementId := el |>
    <| ws_Id := ["e"; "p"; "t"] |>.

Definition ex_flow_world : @World sim := @w_put sim "default" Wf "w" (DWorkflow ex_workflow) world_init.

Lemma ex_flows_ok outbound el :
  outbound = ex_fork_flows ∨ outbound = ex_choice_flows →
  flows_ok ex_ctx ex_flow_world ex_workflow ex_process ex_els outbound (ex_at el).
Proof.
  intros Ho. split.
  - reflexivity.
  - reflexivity.
  - destruct Ho as [-> | ->]; apply (bool_decide_unpack _); vm_compute; exact I.
  - destruct Ho as [-> | ->]; [by left|right; split; simpl; lia].
  - intros t Ht. assert (t ∈ tgs_Target ex_fork_flows ++ tgs_Target ex_choice_flows) as Hin
      by (destruct Ho as [-> | ->]; apply elem_of_app; tauto).
    clear Ht Ho. simpl in Hin. rewrite !elem_of_cons, elem_of_nil in Hin.
    destruct Hin as [->|[->|[->|[->|[->|[]]]]]];
      (eexists; split; [reflexivity|]; split; [|reflexivity]); intros Hg; vm_compute in Hg; eauto; discriminate.
Qed.


Lemma exclusive_gateway_takes_all_witness :
  @wp sim _ (traverse ex_ctx ["e"; "p"] (Some ex_choice_flows) ex_els (ex_at "choice")) ex_flow_world
    (returns (λ w' _, ∃ ms, w_out w' = [] ++ ms ∧ length ms = 2)).
Proof.
  apply (@exclusive_gateway_takes_all sim (Sim_ok _ _ _) ex_ctx "cid" ex_workflow ex_process ex_els
    ex_choice_flows ex_choice (mkGatewaySpec exclusive divergent "" []) ∅ (λ _, true)).
  - exact sim_NoFaults.
  - exact sim_ColdCache.
  - reflexivity.
  - apply ex_flows_ok. by right.
  - reflexivity.
  - reflexivity.
  - reflexivity.
  - by left.
  - intros t Ht. simpl in Ht. rewrite !elem_of_cons, elem_of_nil in Ht.
    destruct Ht as [->|[->|[->|[]]]]; repeat constructor.
Defined.
