(* ===== verification/Gateway.v ===== *)
(** * Gateways that join branches

    [internal/server/workflow/gateway.go].  A divergent gateway opened an
    instance of its reciprocal with the flows it expects ([traverse]); each
    branch that arrives is added to the instance, and the one that completes it
    moves on with the merged variables. *)
From S2P Require Import Prelude Model Errors Env Sim Common Wp NatsUtil Vars Publish History Instances Jobs Launch Traverse.

(** What a message handler answers: whether the message is done with, and its
    error. *)
Abbreviation reply := (bool * option error)%type.

(** [if err != nil { return ack, err }] *)
Definition or_return `{Env} {A} (ack : bool) (m : M A) (k : A → M reply) : M reply :=
  r ← attempt m;
  match r with inl a => k a | inr err => mret (ack, Some err) end.

(** [proto.Unmarshal(msg.Data(), &v)], failing with a negative acknowledgement. *)
Definition or_unmarshal `{Env} {A} `{Proto A} (why : string) (d : Data) (k : A → M reply) : M reply :=
  match Unmarshal d with
  | Some v => k v
  | None => mret (false, Some (Wrap why (New "proto: cannot parse invalid wire-format data")))
  end.

Definition missing_process (err : error) : bool :=
  Is err ErrExecutionNotFound || Is err ErrProcessInstanceNotFound.

(** The guard most handlers start with: a state whose execution or process
    instance is gone is done with, reported ([loud]) or not. *)
Definition with_process `{Env} (ctx : Ctx) (st : WorkflowState) (loud : bool)
    (k : ProcessInstance → Execution → M reply) : M reply :=
  r ← attempt (hasValidProcess ctx (ws_ProcessInstanceId st) (ws_ExecutionId st));
  match r with
  | inl (pi, execution) => k pi execution
  | inr err =>
      if missing_process err then mret (true, if loud then Some err else None)
      else mret (false, Some err)
  end.

Section gateway.
Context `{Env}.

(** The instance and the route of the last gateway the state came through on
    its way to this one, from ["instance,route"]. *)
Definition GetGatewayInstanceID (state : WorkflowState) : M (string * string) :=
  match ws_SatisfiesGatewayExpectation state !! ws_ElementId state with
  | None => throw (Wrap "discover gateway instance ID" (Sentinel ErrGatewayInstanceNotFound))
  | Some tracking =>
      r ← deref "index out of range [-1]" (last tracking);
      match Split "," r with
      | gatewayIID :: route :: _ => mret (gatewayIID, route)
      | _ => panic "index out of range [1]"
      end
  end.

Definition GetGatewayInstance (ctx : Ctx) (gatewayInstanceID : string) : M Gateway :=
  _ ← nsKVs ctx;
  wrapping (Wrap "get gateway instance failed to get gateway instance from KV")
    (LoadObj Gateway (GetNS ctx) WfGateway gatewayInstanceID).

(** ** Variables *)

(** One variable of a branch: it counts when it is not what the variables before
    the gateway had. *)
Definition merge_var (base : gmap string GoVal) (ret : gmap string GoVal) (kv : string * GoVal) :
    M (gmap string GoVal) :=
  match base !! kv.1 with
  | None => mret (<[kv.1 := kv.2]> ret)
  | Some bv =>
      match go_eq bv kv.2 with
      | None => panic "runtime error: comparing uncomparable type"
      | Some true => mret ret
      | Some false => mret (<[kv.1 := kv.2]> ret)
      end
  end.

Definition merge_branch (base ret : gmap string GoVal) (b : bytes) : M (gmap string GoVal) :=
  v2 ← wrapping (Wrap "merge gateway vars failed to decode variable set") (DecodeVars NewServerVars b);
  l ← range v2;
  for_fold l (merge_var base) ret.

Definition mergeGatewayVars (gw : Gateway) : M bytes :=
  match gw_Vars gw with
  | [] => panic "index out of range [0] with length 0"
  | [v] => mret v
  | v :: vs =>
      base ← wrapping (Wrap "merge gateway vars failed to decode base variables")
               (DecodeVars NewServerVars v);
      ret ← wrapping (Wrap "merge gateway vars failed to decode initial variables")
              (DecodeVars NewServerVars v);
      ret ← for_fold vs (merge_branch base) ret;
      wrapping (Wrap "merge gateway vars failed to encode variable set") (Encode ret)
  end.

(** ** Completing *)
Definition completeGateway (ctx : Ctx) (job : WorkflowState) : M unit :=
  gwIID ← deref "job.Execute" (ws_Execute job);
  _ ← nsKVs ctx;
  _ ← wrapping (Wrap "failed to update gateway")
        (check (UpdateObj (GetNS ctx) WfProcessInstance (ws_ProcessInstanceId job)
                  (zero : ProcessInstance) (λ v, mret (v <| pi_GatewayComplete ::= <[gwIID := true]> |>))));
  _ ← wrapping (Wrap "complete gateway processor failed to complete activity") (completeActivity ctx job);
  wrapping (Wrap "complete gateway failed with") (Delete (GetNS ctx) WfGateway gwIID).

(** ** Handlers *)

(** The error of the instance lookup is dropped, and one of the load that is not
    a missing key reads as a gateway without variables. *)
Definition gatewayActivation (ctx : Ctx) (msg : Msg) : M reply :=
  or_return false (nsKVs ctx) (λ _,
  or_unmarshal "unmarshal completed gateway activation state" (msg_Data msg) (λ job : WorkflowState,
  with_process ctx job false (λ _ _,
    r ← attempt (GetGatewayInstanceID job);
    let gwIID := match r with inl p => p.1 | inr _ => "" end in
    gw ← LoadObjInto (GetNS ctx) WfGateway gwIID (zero : Gateway);
    if match gw.2 with Some err => Is err ErrKeyNotFound | None => false end
    then mret (false, Wrap "could not load gateway information" <$> gw.2)
    else
      let name := if bool_decide (length (gw_Vars gw.1) = 1)
                  then messages.WorkflowJobGatewayTaskExecute
                  else messages.WorkflowJobGatewayTaskReEnter in
      or_return false (wrapping (Wrap "failed to execute gateway to KV") (PublishWorkflowState ctx name job []))
        (λ _, mret (true, None))))).

Definition arrive (route : string) (vars : bytes) (g : Gateway) : Gateway :=
  g <| gw_MetExpectations ::= <[route := ""]> |> <| gw_Vars ::= λ l, l ++ [vars] |>
    <| gw_Visits ::= λ n, (n + 1)%Z |>.

Definition merge_and_complete (ctx : Ctx) (job : WorkflowState) (gw : Gateway) : M reply :=
  or_return false (wrapping (λ err, Wrap "merge gateway variables" (fatal err)) (mergeGatewayVars gw)) (λ nv,
  or_return false (completeGateway ctx (job <| ws_Vars := nv |>)) (λ _, mret (true, None))).

Definition gatewayExecProcessor (ctx : Ctx) (msg : Msg) : M reply :=
  or_unmarshal "unmarshal during process launch" (msg_Data msg) (λ job : WorkflowState,
  with_process ctx job true (λ _ _,
  or_return true (wrapping (λ err, fatal (Wrap "process gateway execute failed" err))
                    (GetWorkflow ctx (ws_WorkflowId job))) (λ wf,
    pr ← deref "wf.Process[job.ProcessId]" (wf_Process wf !! ws_ProcessId job);
    let el := IndexProcessElements (pr_Elements pr) ∅ !! ws_ElementId job in
    or_return false (wrapping (Wrap "failed to find gateway instance ID") (GetGatewayInstanceID job)) (λ ir,
    let '(gatewayIID, route) := ir in
    let job := job <| ws_Execute := Some gatewayIID |> in
    or_return false (nsKVs ctx) (λ _,
    or_return false (wrapping (Wrap "save gateway instance metadata")
      (check (UpdateObj (GetNS ctx) WfGateway gatewayIID (zero : Gateway)
                (λ g, mret (arrive route (ws_Vars job) g))))) (λ gw,
      el ← deref "el.Gateway" el;
      spec ← deref "el.Gateway.Type" (el_Gateway el);
      match gs_Type spec with
      | exclusive => merge_and_complete ctx job gw
      | inclusive | parallel =>
          expected ← deref "job.GatewayExpectations[gatewayIID]" (ws_GatewayExpectations job !! gatewayIID);
          if bool_decide (length expected ≤ size (gw_MetExpectations gw))
          then merge_and_complete ctx job gw
          else or_return false (PublishWorkflowState ctx messages.WorkflowJobGatewayTaskAwait job [])
                 (λ _, mret (true, None))
      end)))))).
End gateway.

(** ** Effects *)
Section reply_effects.
Context `{EnvOk} (T : Cells) (P : Msg → Prop).

Lemma eff_or_return {A} ack (m : M A) k :
  preserves (effect T P) m → (∀ a, preserves (effect T P) (k a)) →
  preserves (effect T P) (or_return ack m k).
Proof. intros. unfold or_return. preserves_tac. Qed.
Lemma eff_or_unmarshal `{Proto A} why d (k : A → M reply) :
  (∀ a, preserves (effect T P) (k a)) → preserves (effect T P) (or_unmarshal why d k).
Proof. intros. unfold or_unmarshal. preserves_tac. Qed.
Lemma eff_with_process ctx st loud k :
  (∀ pi e, preserves (effect T P) (k pi e)) → preserves (effect T P) (with_process ctx st loud k).
Proof. intros. unfold with_process. preserves_tac. Qed.
Lemma eff_GetGatewayInstanceID st : preserves (effect T P) (GetGatewayInstanceID st).
Proof. unfold GetGatewayInstanceID. preserves_tac. Qed.
Lemma eff_GetGatewayInstance ctx id : preserves (effect T P) (GetGatewayInstance ctx id).
Proof. unfold GetGatewayInstance. preserves_tac. Qed.
Lemma eff_mergeGatewayVars gw : preserves (effect T P) (mergeGatewayVars gw).
Proof. unfold mergeGatewayVars, merge_branch, merge_var. preserves_tac. Qed.
End reply_effects.

(** Handlers are walked through like operations. *)
Ltac reply_step :=
  first
    [ apply eff_or_return; [|intros ?]
    | apply eff_or_unmarshal; intros ?
    | apply eff_with_process; intros ? ? ].
Ltac reply_tac := repeat first [ reply_step | progress preserves_tac ].

#[export] Hint Resolve eff_GetGatewayInstanceID eff_GetGatewayInstance eff_mergeGatewayVars : preserves.

Section gateway_effects.
Context `{EnvOk} (ctx : Ctx).

Lemma eff_gatewayActivation m : preserves (iso ctx) (gatewayActivation ctx m).
Proof. unfold gatewayActivation. reply_tac. Qed.
Lemma eff_completeGateway job : preserves (iso ctx) (completeGateway ctx job).
Proof. unfold completeGateway. preserves_tac. Qed.
#[local] Hint Resolve eff_completeGateway : preserves.
Lemma eff_gatewayExecProcessor m : preserves (iso ctx) (gatewayExecProcessor ctx m).
Proof. unfold gatewayExecProcessor, merge_and_complete. reply_tac. Qed.
End gateway_effects.

#[export] Hint Resolve eff_gatewayActivation eff_completeGateway eff_gatewayExecProcessor : preserves.
