(* ===== verification/Join.v ===== *)
(** * Joining branches

    The specification of the gateway handlers: what merging the variables of the
    branches gives, and that a join lets the process pass exactly once, when the
    last expected branch arrives, whatever the order of the arrivals. *)
From S2P Require Import Prelude Model Errors Env Sim Common Wp NatsUtil Vars Publish History Instances Lifecycle Lookups Jobs Launch Traverse Flows Gateway.

(** ** Merging variables *)

(** [!ok || bv != v] of [mergeGatewayVars]; [None] when the comparison panics. *)
Definition differs (base : gmap string GoVal) (k : string) (v : GoVal) : option bool :=
  match base !! k with
  | Some bv => negb <$> go_eq bv v
  | None => Some true
  end.

(** What a branch changed: the values the base does not have. *)
Definition changed (base v : gmap string GoVal) : gmap string GoVal :=
  filter (λ kv, differs base kv.1 kv.2 = Some true) v.

(** A branch that changed a variable overrides the base and earlier branches. *)
Definition merged (base : gmap string GoVal) (branches : list (gmap string GoVal)) : gmap string GoVal :=
  foldl (λ ret v, changed base v ∪ ret) base branches.

(** No variable is a slice or a map of one dynamic type on both sides. *)
Definition comparable (base v : gmap string GoVal) : Prop := map_Forall (λ k b, is_Some (differs base k b)) v.

(** The value of a variable after the merge: the last change, or the base. *)
Lemma merged_lookup_unchanged base branches k :
  (∀ v, v ∈ branches → changed base v !! k = None) → merged base branches !! k = base !! k.
Proof.
  intros Hvs. unfold merged.
  cut (∀ ret, foldl (λ ret v, changed base v ∪ ret) ret branches !! k = ret !! k); [by auto|].
  induction branches as [|v vs IH]; intros ret; simpl; [done|].
  rewrite IH by set_solver. by rewrite lookup_union_r by (apply Hvs; by left).
Qed.

Lemma merged_snoc base vs v : merged base (vs ++ [v]) = changed base v ∪ merged base vs.
Proof. unfold merged. by rewrite foldl_app. Qed.

Section merge.
Context `{EnvOk}.

Lemma merge_var_spec base ret k v w :
  match differs base k v with
  | Some true => merge_var base ret (k, v) w = (w, Ok (<[k := v]> ret))
  | Some false => merge_var base ret (k, v) w = (w, Ok ret)
  | None => ∃ p, merge_var base ret (k, v) w = (w, Panic p)
  end.
Proof. unfold differs, merge_var. simpl. destruct (base !! k) as [bv|]; [|done]. destruct (go_eq bv v) as [[]|]; simpl; eauto. Qed.

Lemma for_fold_merge_var base (l : list (string * GoVal)) ret w :
  NoDup l.*1 →
  if decide (Forall (λ kv, is_Some (differs base kv.1 kv.2)) l)
  then for_fold l (merge_var base) ret w = (w, Ok (changed base (list_to_map l) ∪ ret))
  else ∃ p, for_fold l (merge_var base) ret w = (w, Panic p).
Proof.
  revert ret. induction l as [|[k v] l IH]; intros ret Hnd.
  { rewrite decide_True by done. simpl. unfold changed. by rewrite map_filter_empty, map_empty_union. }
  apply NoDup_cons in Hnd as [Hk Hnd].
  assert (list_to_map l !! k = None :> option GoVal) as Hl by (by apply not_elem_of_list_to_map_1).
  pose proof (merge_var_spec base ret k v w) as Hm. cbn [for_fold]. unfold mbind, gom_bind.
  destruct (differs base k v) as [d|] eqn:Hd.
  2:{ destruct Hm as [p Hm]. rewrite decide_False, Hm; [by eexists|]. intros Hf. inversion Hf as [|? ? [? He]]. simplify_eq/=. }
  specialize (IH (if d then <[k := v]> ret else ret) Hnd).
  replace (merge_var base ret (k, v) w) with (w, Ok (if d then <[k := v]> ret else ret) : res error (gmap string GoVal))
    by (by destruct d).
  destruct (decide (Forall _ l)) as [Hf|Hf].
  - rewrite decide_True by (constructor; [by exists d|done]). rewrite IH. simpl. do 2 f_equal. unfold changed. destruct d.
    + rewrite map_filter_insert_True by done. rewrite <-insert_union_l, <-insert_union_r; [done|].
      apply map_lookup_filter_None. by left.
    + rewrite map_filter_insert_False by (simpl; congruence). by rewrite delete_id.
  - rewrite decide_False; [done|]. by intros [_ ?]%Forall_cons.
Qed.

Lemma merge_branch_spec base ret b v w Φ :
  holds b v →
  (comparable base v → ∀ w', w' ≡ w → Φ w' (Ok (changed base v ∪ ret))) →
  (¬ comparable base v → ∀ w' p, w' ≡ w → Φ w' (Panic p)) →
  wp (merge_branch base ret b) w Φ.
Proof.
  intros Hb HΦ HP. unfold merge_branch. wp_steps. unfold wp at 1. rewrite (DecodeVars_holds b v) by done.
  simpl. wp_steps. apply wp_range. intros l Hl. unfold wp.
  assert (NoDup l.*1) as Hnd by (rewrite Hl; apply NoDup_fst_map_to_list).
  assert (Forall (λ kv, is_Some (differs base kv.1 kv.2)) l ↔ comparable base v) as Hc.
  { rewrite Hl. unfold comparable. rewrite map_Forall_to_list. apply Forall_iff. by intros []. }
  pose proof (for_fold_merge_var base l ret (w_next w) Hnd) as Hm. destruct (decide _) as [Hf|Hf].
  - rewrite Hm, (list_to_map_proper l (map_to_list v)), list_to_map_to_list by done.
    apply HΦ; [by apply Hc|apply w_next_equiv].
  - destruct Hm as [p ->]. apply HP; [by rewrite <-Hc|apply w_next_equiv].
Qed.

Lemma merge_branches_spec base bs vs ret w Φ :
  Forall2 holds bs vs →
  (Forall (comparable base) vs → ∀ w', w' ≡ w → Φ w' (Ok (foldl (λ ret v, changed base v ∪ ret) ret vs))) →
  (¬ Forall (comparable base) vs → ∀ w' p, w' ≡ w → Φ w' (Panic p)) →
  wp (for_fold bs (merge_branch base) ret) w Φ.
Proof.
  intros Hbs. revert ret w Φ. induction Hbs as [|b v bs vs Hb Hbs IH]; intros ret w Φ HΦ HP; simpl.
  { wp_steps. by apply HΦ. }
  wp_steps. apply (merge_branch_spec _ _ _ v); [done|..]; intros Hc w1.
  - intros Hw1. cbv beta iota. apply IH.
    + intros Hcs w2 Hw2. apply HΦ; [by constructor|by rewrite Hw2].
    + intros Hcs w2 p Hw2. apply HP; [by intros [_ ?]%Forall_cons|by rewrite Hw2].
  - intros p Hw1. cbv beta iota. apply HP; [by intros [? _]%Forall_cons|done].
Qed.

Lemma wp_mergeGatewayVars gw b0 bs base vs nv w Φ :
  gw_Vars gw = b0 :: bs → bs ≠ [] → holds b0 base → Forall2 holds bs vs →
  msgpack_marshal (merged base vs) = inl nv →
  (Forall (comparable base) vs → ∀ w', w' ≡ w → Φ w' (Ok nv)) →
  (¬ Forall (comparable base) vs → ∀ w' p, w' ≡ w → Φ w' (Panic p)) →
  wp (mergeGatewayVars gw) w Φ.
Proof.
  intros Hgw Hne Hb0 Hbs Hm HΦ HP. unfold mergeGatewayVars. rewrite Hgw. destruct bs as [|b1 bs]; [done|].
  revert Hbs. generalize (b1 :: bs) as l. intros l Hbs. wp_steps. unfold wp at 1. rewrite (DecodeVars_holds b0 base) by done. simpl. wp_steps.
  unfold wp at 1. rewrite (DecodeVars_holds b0 base) by done. simpl. wp_steps.
  apply (merge_branches_spec _ _ vs); [done|..].
  - intros Hc w1 Hw1. wp_steps. unfold wp.
    destruct (Encode_holds (merged base vs) nv w1 Hm) as [He _]. unfold merged in He. rewrite He. by apply HΦ.
  - intros Hc w1 p Hw1. cbv beta iota. by apply HP.
Qed.
End merge.

Lemma merged_lookup_last base pre v post k x :
  changed base v !! k = Some x → (∀ v', v' ∈ post → changed base v' !! k = None) →
  merged base (pre ++ v :: post) !! k = Some x.
Proof.
  intros Hx. induction post as [|v' post IH] using rev_ind; intros Hpost.
  - rewrite merged_snoc. by apply lookup_union_Some_l.
  - rewrite app_comm_cons, app_assoc, merged_snoc, lookup_union_r by (apply Hpost; set_solver).
    apply IH. set_solver.
Qed.

(** Merging the variables of the branches that met in a gateway: a variable
    that no branch changed keeps the value it had before the gateway opened, and
    one that some branch changed (or introduced) has the value of the last such
    branch. *)
Theorem mergeGatewayVars_merges `{EnvOk} gw b0 bs base vs b w :
  gw_Vars gw = b0 :: bs → bs ≠ [] → holds b0 base → Forall2 holds bs vs → Forall (comparable base) vs →
  msgpack_marshal (merged base vs) = inl b →
  wp (mergeGatewayVars gw) w (returns (λ w' nv, w' ≡ w ∧ ∃ m, holds nv (wire <$> m) ∧
    (∀ k, (∀ v, v ∈ vs → changed base v !! k = None) → m !! k = base !! k) ∧
    (∀ k x pre v post, vs = pre ++ v :: post → changed base v !! k = Some x →
       (∀ v', v' ∈ post → changed base v' !! k = None) → m !! k = Some x))).
Proof.
  intros Hgw Hne Hb0 Hbs Hc Hm. eapply wp_mergeGatewayVars; [done..| |done]. intros _ w' Hw. split; [done|].
  exists (merged base vs). split; [by apply (Encode_holds _ _ w)|]. split.
  - intros k. apply merged_lookup_unchanged.
  - intros k x pre v post -> Hx Hpost. by apply merged_lookup_last.
Qed.

(** A list variable that exists when a gateway opens and arrives with a
    branch, changed or not, makes the merge panic: the values are compared with
    [!=], which Go does not define on slices and maps. *)
Theorem mergeGatewayVars_panics_on_lists `{EnvOk} gw b0 b1 bs base v k l l' w :
  gw_Vars gw = b0 :: b1 :: bs → holds b0 base → holds b1 v →
  base !! k = Some (VComposite l) → v !! k = Some (VComposite l') →
  ∃ p, (mergeGatewayVars gw w).2 = Panic p.
Proof.
  intros Hgw Hb0 Hb1 Hl Hl'.
  cut (wp (mergeGatewayVars gw) w (λ _ r, ∃ p, r = Panic p)); [done|].
  unfold mergeGatewayVars. rewrite Hgw. wp_steps. unfold wp at 1.
  rewrite (DecodeVars_holds b0 base) by done. simpl. wp_steps. unfold wp at 1.
  rewrite (DecodeVars_holds b0 base) by done. simpl. wp_steps.
  apply (merge_branch_spec _ _ _ v); [done| |by eauto]. intros Hc. exfalso.
  destruct (Hc k _ Hl') as [d Hd]. unfold differs in Hd. by rewrite Hl in Hd.
Qed.

(** ** Arrivals *)
(** The instance after some branches. *)
Definition arrived (js : list (WorkflowState * string)) (g : Gateway) : Gateway :=
  foldl (λ g jr, arrive jr.2 (ws_Vars jr.1) g) g js.

Lemma arrived_vars js g : gw_Vars (arrived js g) = gw_Vars g ++ (ws_Vars ∘ fst <$> js).
Proof.
  unfold arrived. revert g. induction js as [|jr js IH]; intros g; simpl; [by rewrite app_nil_r|].
  rewrite IH. simpl. by rewrite <-app_assoc.
Qed.

Lemma arrived_met js g :
  NoDup js.*2 → (∀ r, r ∈ js.*2 → gw_MetExpectations g !! r = None) →
  size (gw_MetExpectations (arrived js g)) = size (gw_MetExpectations g) + length js ∧
  ∀ r, r ∉ js.*2 → gw_MetExpectations (arrived js g) !! r = gw_MetExpectations g !! r.
Proof.
  unfold arrived. revert g. induction js as [|[j r] js IH]; intros g Hnd Hf; simpl; [split; [lia|done]|].
  simpl in Hnd. apply NoDup_cons in Hnd as [Hr Hnd].
  destruct (IH (arrive r (ws_Vars j) g)) as [Hs Hl]; [done| |].
  { intros r' Hr'. simpl. rewrite lookup_insert_ne by (by intros ->). apply Hf. by right. }
  split.
  - rewrite Hs. simpl. rewrite map_size_insert_None by (apply Hf; by left). lia.
  - intros r' Hr'. rewrite Hl by set_solver. simpl. rewrite lookup_insert_ne by set_solver. done.
Qed.

Section join.
Context `{EnvOk} (NF : NoFaults) (CC : ColdCache) (ctx : Ctx) (cid : string).
Context (Hcid : ctx_Correlation ctx = Some cid).
Abbreviation ns := (GetNS ctx).

(** A branch on its way to a gateway instance: what the handler looks up. *)
Record join_ok (w : World) (iid : string) (spec : GatewaySpec) (pi : ProcessInstance) (wf : Workflow)
    (pr : Process) (el : Element) (job : WorkflowState) (route : string) : Prop := {
  jo_execution : ∃ e, w_get w ns WfExecution (ws_ExecutionId job) = Some (DExecution e);
  jo_instance : w_get w ns WfProcessInstance (ws_ProcessInstanceId job) = Some (DProcessInstance pi);
  jo_workflow : w_get w ns Wf (ws_WorkflowId job) = Some (DWorkflow wf);
  jo_process : wf_Process wf !! ws_ProcessId job = Some pr;
  jo_element : IndexProcessElements (pr_Elements pr) ∅ !! ws_ElementId job = Some el;
  jo_spec : el_Gateway el = Some spec;
  jo_tracking : ∃ tr, ws_SatisfiesGatewayExpectation job !! ws_ElementId job = Some tr ∧
    last tr = Some (iid +:+ "," +:+ route);
  jo_lacks : lacks "," iid = true ∧ lacks "," route = true }.

Lemma join_ok_equiv w w' iid spec pi wf pr el job route :
  (∀ b k, b = WfExecution ∨ b = WfProcessInstance ∨ b = Wf → w_get w' ns b k = w_get w ns b k) →
  join_ok w iid spec pi wf pr el job route → join_ok w' iid spec pi wf pr el job route.
Proof. intros Hw []. split; try done; rewrite Hw; tauto. Qed.

Lemma GetGatewayInstanceID_spec w iid spec pi wf pr el job route w' :
  join_ok w iid spec pi wf pr el job route → GetGatewayInstanceID job w' = (w', Ok (iid, route)).
Proof.
  intros Hok. destruct (jo_tracking _ _ _ _ _ _ _ _ _ Hok) as (tr & Htr & Hl).
  destruct (jo_lacks _ _ _ _ _ _ _ _ _ Hok) as [Hi Hr].
  change (iid +:+ "," +:+ route) with (iid +:+ String "," route) in Hl.
  unfold GetGatewayInstanceID. rewrite Htr, Hl. unfold mbind, gom_bind, deref, mret, gom_ret.
  by rewrite Split_app, Split_lacks by done.
Qed.

Definition at_gateway (iid : string) (job : WorkflowState) : WorkflowState :=
  job <| ws_Execute := Some iid |>.

Definition job_msg (job : WorkflowState) (m : Msg) : Prop := msg_Data m = DState job.

(** Up to the arrival being counted, every branch is treated alike. *)
Lemma wp_arrive iid spec pi wf pr el job route g m w Φ :
  join_ok w iid spec pi wf pr el job route → w_get w ns WfGateway iid = Some (DGateway g) →
  job_msg job m →
  (∀ w', w' ≡ w_put ns WfGateway iid (DGateway (arrive route (ws_Vars job) g)) w →
     wp (match gs_Type spec with
         | exclusive => merge_and_complete ctx (at_gateway iid job) (arrive route (ws_Vars job) g)
         | inclusive | parallel =>
             expected ← deref "job.GatewayExpectations[gatewayIID]" (ws_GatewayExpectations job !! iid);
             if bool_decide (length expected ≤ size (gw_MetExpectations (arrive route (ws_Vars job) g)))
             then merge_and_complete ctx (at_gateway iid job) (arrive route (ws_Vars job) g)
             else or_return false (PublishWorkflowState ctx messages.WorkflowJobGatewayTaskAwait
                                     (at_gateway iid job) []) (λ _, mret (true, None))
         end) w' Φ) →
  wp (gatewayExecProcessor ctx m) w Φ.
Proof.
  intros Hok Hg Hm HΦ. unfold gatewayExecProcessor, or_unmarshal, with_process. rewrite Hm. simpl.
  destruct (jo_execution _ _ _ _ _ _ _ _ _ Hok) as [e He].
  wp_steps. eapply (wp_hasValidProcess NF); [done|apply (jo_instance _ _ _ _ _ _ _ _ _ Hok)|].
  intros w1 Hw1. wp_steps. unfold or_return at 1. wp_steps.
  apply (wp_GetWorkflow NF ctx CC _ wf); [rewrite Hw1; apply (jo_workflow _ _ _ _ _ _ _ _ _ Hok)|].
  intros w2 Hw2. wp_steps. rewrite (jo_process _ _ _ _ _ _ _ _ _ Hok). wp_steps.
  unfold or_return at 1. wp_steps. unfold wp at 1.
  rewrite (GetGatewayInstanceID_spec _ _ _ _ _ _ _ _ _ _ Hok). simpl. unfold or_return at 1. wp_steps.
  apply wp_nsKVs; [done|]. intros w3 Hw3 _. wp_steps. unfold or_return at 1. wp_steps.
  apply (wp_check_UpdateObj NF _ _ _ _ g (arrive route (ws_Vars job))).
  { by rewrite Hw3, Hw2, Hw1, Hg. }
  intros w4 Hw4. wp_steps. rewrite (jo_element _ _ _ _ _ _ _ _ _ Hok). wp_steps.
  rewrite (jo_spec _ _ _ _ _ _ _ _ _ Hok). wp_steps. apply HΦ. by rewrite Hw4, Hw3, Hw2, Hw1.
Qed.

(** The join has not seen all branches: the arrival is recorded and announced. *)
Lemma wp_await iid spec pi wf pr el job route expected g m w Φ :
  join_ok w iid spec pi wf pr el job route → w_get w ns WfGateway iid = Some (DGateway g) →
  job_msg job m → gs_Type spec ≠ exclusive → ws_GatewayExpectations job !! iid = Some expected →
  size (<[route := ""]> (gw_MetExpectations g)) < length expected →
  (∀ w' t, w' ≡ published ctx cid messages.WorkflowJobGatewayTaskAwait (at_gateway iid job) t
                (w_put ns WfGateway iid (DGateway (arrive route (ws_Vars job) g)) w) →
     Φ w' (Ok (true, None))) →
  wp (gatewayExecProcessor ctx m) w Φ.
Proof.
  intros Hok Hg Hm Hne Hexp Hlt HΦ. eapply wp_arrive; [done..|]. intros w1 Hw1.
  assert (wp (or_return false (PublishWorkflowState ctx messages.WorkflowJobGatewayTaskAwait
    (at_gateway iid job) []) (λ _, mret (true, None))) w1 Φ).
  { unfold or_return. wp_steps. eapply (wp_publish NF); [done..|]. intros w2 t Hw2. wp_steps.
    eapply HΦ. by rewrite Hw2, Hw1. }
  destruct (gs_Type spec); [done| |]; wp_steps; rewrite Hexp; wp_steps;
    rewrite bool_decide_false by (simpl; lia); done.
Qed.

(** The last branch: the process passes the gateway. *)
Definition passed (iid : string) (pi : ProcessInstance) (job : WorkflowState) (nv : bytes) (t : Z)
    (w : World) : World :=
  let st := DropStateParams (at_gateway iid job <| ws_Vars := nv |>) <| ws_UnixTimeNano := t |> in
  w_del ns WfGateway iid
    (w_put ns WfHistory (historyKey (ws_ProcessInstanceId job) (TrackingID.ID (ws_Id job)) activityComplete)
       (DHistory (historyEntry st activityComplete))
       (published ctx cid messages.WorkflowActivityComplete st t
         (w_put ns WfProcessInstance (ws_ProcessInstanceId job)
            (DProcessInstance (pi <| pi_GatewayComplete ::= <[iid := true]> |>)) w))).

Lemma wp_merge_and_complete iid pi job gw b0 bs base vs nv w Φ :
  w_get w ns WfProcessInstance (ws_ProcessInstanceId job) = Some (DProcessInstance pi) →
  gw_Vars gw = b0 :: bs → bs ≠ [] → holds b0 base → Forall2 holds bs vs →
  msgpack_marshal (merged base vs) = inl nv →
  (Forall (comparable base) vs → ∀ w' t, w' ≡ passed iid pi job nv t w → Φ w' (Ok (true, None))) →
  (¬ Forall (comparable base) vs → ∀ w' p, w' ≡ w → Φ w' (Panic p)) →
  wp (merge_and_complete ctx (at_gateway iid job) gw) w Φ.
Proof.
  intros Hp Hgw Hne Hb0 Hbs Hm HΦ HP. unfold merge_and_complete, or_return at 1. wp_steps.
  apply (wp_mergeGatewayVars _ b0 bs base vs nv); [done..| |exact HP].
  intros Hc w1 Hw1. wp_steps. unfold or_return. wp_steps.
  unfold completeGateway, completeActivity. wp_steps.
  change (ws_Execute (at_gateway iid job <| ws_Vars := nv |>)) with (Some iid). cbv beta iota. wp_steps. apply wp_nsKVs; [done|]. intros w2 Hw2 _. wp_steps.
  apply (wp_check_UpdateObj NF _ _ _ _ pi (λ v, v <| pi_GatewayComplete ::= <[iid := true]> |>)).
  { rewrite Hw2, Hw1. cbn. by rewrite Hp. }
  intros w3 Hw3. wp_steps. eapply (wp_publish NF); [done..|]. intros w4 t Hw4. wp_steps.
  unfold RecordHistoryActivityComplete. wp_steps. apply wp_RecordHistory; [done|]. intros w5 Hw5. wp_steps.
  apply wp_Delete; [done|]. intros w6 Hw6. wp_steps. apply (HΦ Hc w6 t).
  rewrite Hw6, Hw5, Hw4. unfold published, passed. by rewrite Hw3, Hw2, Hw1.
Qed.

Lemma wp_pass iid spec pi wf pr el job route expected g m b0 bs base vs nv w Φ :
  join_ok w iid spec pi wf pr el job route → w_get w ns WfGateway iid = Some (DGateway g) →
  job_msg job m → gs_Type spec ≠ exclusive → ws_GatewayExpectations job !! iid = Some expected →
  length expected ≤ size (<[route := ""]> (gw_MetExpectations g)) →
  gw_Vars g ++ [ws_Vars job] = b0 :: bs → bs ≠ [] →
  holds b0 base → Forall2 holds bs vs → msgpack_marshal (merged base vs) = inl nv →
  (Forall (comparable base) vs →
     ∀ w' t, w' ≡ passed iid pi job nv t
                   (w_put ns WfGateway iid (DGateway (arrive route (ws_Vars job) g)) w) →
     Φ w' (Ok (true, None))) →
  (¬ Forall (comparable base) vs →
     ∀ w' p, w' ≡ w_put ns WfGateway iid (DGateway (arrive route (ws_Vars job) g)) w → Φ w' (Panic p)) →
  wp (gatewayExecProcessor ctx m) w Φ.
Proof.
  intros Hok Hg Hm Hne Hexp Hle Hvars Hbs Hb0 Hvs Hnv HΦ HP. eapply wp_arrive; [done..|]. intros w1 Hw1.
  assert (wp (merge_and_complete ctx (at_gateway iid job) (arrive route (ws_Vars job) g)) w1 Φ).
  { eapply wp_merge_and_complete; try done.
    - rewrite Hw1, w_get_put_ne by done. apply (jo_instance _ _ _ _ _ _ _ _ _ Hok).
    - intros Hc w2 t Hw2. apply (HΦ Hc w2 t). rewrite Hw2. unfold passed, published. by rewrite Hw1.
    - intros Hc w2 p Hw2. apply (HP Hc). by rewrite Hw2. }
  destruct (gs_Type spec); [done| |]; wp_steps; rewrite Hexp; wp_steps;
    rewrite bool_decide_true by done; done.
Qed.

(** ** All branches, in any order *)
Fixpoint handle_all (fn : Msg → M reply) (l : list Msg) : M (list reply) :=
  match l with
  | [] => mret []
  | m :: l => r ← fn m; rs ← handle_all fn l; mret (r :: rs)
  end.

(** The announcements made for waiting branches. *)
Definition await_msgs (iid : string) (js : list (WorkflowState * string)) (ms : list Msg) : Prop :=
  Forall2 (λ jr m, ∃ t, m = state_msg ctx cid messages.WorkflowJobGatewayTaskAwait
                              (at_gateway iid jr.1 <| ws_UnixTimeNano := t |>) []) js ms.

Definition state_message (job : WorkflowState) : Msg := mkMsg "" ∅ (DState job).

Lemma wp_awaits iid spec pi wf pr el expected js g w Φ :
  gs_Type spec ≠ exclusive →
  (∀ jr, jr ∈ js → join_ok w iid spec pi wf pr el jr.1 jr.2 ∧
                   ∃ ps, ws_GatewayExpectations jr.1 !! iid = Some ps ∧ length ps = expected) →
  NoDup js.*2 → (∀ r, r ∈ js.*2 → gw_MetExpectations g !! r = None) →
  size (gw_MetExpectations g) + length js < expected →
  w_get w ns WfGateway iid = Some (DGateway g) →
  (∀ w' ms, await_msgs iid js ms → w' ≡ w_pubs ms (w_put ns WfGateway iid (DGateway (arrived js g)) w) →
     Φ w' (Ok ((λ _, (true, None)) <$> js))) →
  wp (handle_all (gatewayExecProcessor ctx) (state_message ∘ fst <$> js)) w Φ.
Proof.
  intros Hty. revert g w Φ. induction js as [|[j r] js IH]; intros g w Φ Hjs Hnd Hf Hsz Hg HΦ; simpl.
  { wp_steps. eapply HΦ; [constructor|]. by rewrite w_pubs_nil, w_put_same. }
  simpl in Hnd. apply NoDup_cons in Hnd as [Hr Hnd]. simpl in Hsz.
  destruct (Hjs (j, r)) as (Hok & ps & Hps & Hlen); [by left|]. simpl in *.
  assert (gw_MetExpectations g !! r = None) as Hgr by (apply Hf; by left).
  wp_steps. eapply wp_await; [done..| |].
  { rewrite map_size_insert_None by done. lia. }
  intros w1 t Hw1. wp_steps.
  assert (∀ b k, b ≠ WfGateway → w_get w1 ns b k = w_get w ns b k) as Hsame.
  { intros b k Hb. rewrite Hw1. unfold published. rewrite w_get_pub, w_get_put_ne; [done|]. congruence. }
  eapply (IH (arrive r (ws_Vars j) g)); [|done| | | |].
  - intros jr Hjr. destruct (Hjs jr) as [Hok' Hps']; [by right|]. split; [|done].
    eapply join_ok_equiv; [|done]. intros b k Hb. apply Hsame. naive_solver.
  - intros r' Hr'. simpl. rewrite lookup_insert_ne by (by intros ->). apply Hf. by right.
  - simpl. rewrite map_size_insert_None by done. lia.
  - rewrite Hw1. unfold published. by rewrite w_get_pub, w_get_put_eq.
  - intros w2 ms Hms Hw2. wp_steps. eapply HΦ; [constructor; [by exists t|done]|].
    rewrite Hw2, Hw1. unfold published. by rewrite w_put_pub, w_put_put, w_pubs_pub.
Qed.
End join.

Lemma wp_handle_all_snoc `{Env} fn l m w Φ :
  wp (handle_all fn l) w (λ w' r,
    match r with
    | Ok rs => wp (fn m) w' (λ w'' r', match r' with
                                       | Ok x => Φ w'' (Ok (rs ++ [x]))
                                       | Err e => Φ w'' (Err e)
                                       | Panic p => Φ w'' (Panic p)
                                       end)
    | Err e => Φ w' (Err e)
    | Panic p => Φ w' (Panic p)
    end) →
  wp (handle_all fn (l ++ [m])) w Φ.
Proof.
  revert w Φ. induction l as [|x l IH]; intros w Φ HΦ; simpl in *.
  - unfold wp, mbind, gom_bind in *. simpl in *. by destruct (fn m w) as [w' []].
  - wp_steps. unfold wp, mbind, gom_bind in HΦ. unfold wp at 1.
    destruct (fn x w) as [w1 [rx| |]]; simpl in *; [|done|done]. wp_steps. apply IH. unfold wp at 1.
    destruct (handle_all fn l w1) as [w2 [rs| |]]; simpl in *; [|done|done].
    unfold wp in *. by destruct (fn m w2) as [w3 []].
Qed.


(** ** Examples *)
Definition ex_bytes (vals : gmap string GoVal) : bytes :=
  match sim_marshal vals with inl b => b | inr _ => "" end.

Lemma ex_holds (vals : gmap string GoVal) : sim_wire <$> vals = vals → @holds sim (ex_bytes vals) vals.
Proof.
  intros Hw. right. destruct (@msgpack_roundtrip sim (Sim_ok _ _ _) vals (ex_bytes vals) eq_refl) as [Hb Hu].
  split; [exact Hb|]. rewrite Hu. exact (f_equal inl Hw).
Qed.

Definition ex_x : gmap string GoVal := {["x" := VNum Int8 1]}.
Definition ex_y : gmap string GoVal := {["y" := VNum Int8 2]}.

Definition ex_branch (route : string) (vals : gmap string GoVal) : WorkflowState :=
  ex_at "join" <| ws_SatisfiesGatewayExpectation := {["join" := ["g" +:+ "," +:+ route]]} |>
    <| ws_GatewayExpectations := {["g" := ["f1"; "f2"]]} |> <| ws_Vars := ex_bytes vals |>.

Definition ex_instance : ProcessInstance := mkProcessInstance "p" "e" (Some "") (Some "") "w" "W" "P" ∅ "".

Definition ex_join_world : @World sim :=
  @w_put sim "default" WfExecution "e" (DExecution (mkExecution "e" "w" "W" ["p"]))
    (@w_put sim "default" WfProcessInstance "p" (DProcessInstance ex_instance)
      (@w_put sim "default" WfGateway "g" (DGateway (mkGateway ∅ [""] 0)) ex_flow_world)).

Definition ex_spec_join : GatewaySpec := mkGatewaySpec parallel convergent "fork" [].

Lemma ex_join_ok route vals :
  lacks "," route = true →
  join_ok ex_ctx ex_join_world "g" ex_spec_join ex_instance ex_workflow ex_process ex_join
    (ex_branch route vals) route.
Proof.
  intros Hr. split; try reflexivity.
  - by eexists.
  - eexists. split; reflexivity.
  - by split.
Qed.


Lemma mergeGatewayVars_merges_witness :
  @wp sim _ (mergeGatewayVars (mkGateway ∅ [ex_bytes ex_x; ex_bytes ex_x; ex_bytes ex_y] 2)) world_init
    (returns (λ w' nv, w' ≡ world_init ∧ ∃ m, @holds sim nv (@wire sim <$> m) ∧
      (∀ k, (∀ v, v ∈ [ex_x; ex_y] → changed ex_x v !! k = None) → m !! k = ex_x !! k) ∧
      (∀ k x pre v post, [ex_x; ex_y] = pre ++ v :: post → changed ex_x v !! k = Some x →
         (∀ v', v' ∈ post → changed ex_x v' !! k = None) → m !! k = Some x))).
Proof.
  eapply (@mergeGatewayVars_merges sim (Sim_ok _ _ _) _ (ex_bytes ex_x) [ex_bytes ex_x; ex_bytes ex_y] ex_x
    [ex_x; ex_y]).
  - reflexivity.
  - discriminate.
  - apply ex_holds. reflexivity.
  - apply Forall2_cons; split; [apply ex_holds; reflexivity|].
    apply Forall2_cons; split; [apply ex_holds; reflexivity|]. apply Forall2_nil; exact I.
  - apply Forall_cons; split; [|apply Forall_cons; split; [|by apply Forall_nil]];
      apply (bool_decide_unpack _); vm_compute; exact I.
  - reflexivity.
Defined.

Definition ex_list : gmap string GoVal := {["l" := VComposite "abc"]}.

Lemma mergeGatewayVars_panics_on_lists_witness :
  ∃ p, (@mergeGatewayVars sim (mkGateway ∅ [ex_bytes ex_list; ex_bytes ex_list] 1) world_init).2 = Panic p.
Proof.
  eapply (@mergeGatewayVars_panics_on_lists sim (Sim_ok _ _ _) _ (ex_bytes ex_list) (ex_bytes ex_list) []
    ex_list ex_list "l").
  - reflexivity.
  - apply ex_holds. reflexivity.
  - apply ex_holds. reflexivity.
  - reflexivity.
  - reflexivity.
Defined.
