(* ===== verification/Messages.v ===== *)
(** * Message correlation

    [internal/server/workflow/messages.go].  A message and the elements that
    wait for it meet in an exchange, stored under the message's name and
    correlation key; whoever arrives, the exchange is completed and delivered
    to the waiting jobs that are known by then. *)
From S2P Require Import Prelude Model Errors Env Sim Common Wp NatsUtil Vars Publish History Instances Jobs Launch Traverse Gateway.

Inductive party := senderParty | receiverParty.

Section exchange.
Context `{Env}.

Definition messageKeyFrom (keyElements : list string) : string := Join "-" keyElements.

(** Some receiver is expected, and all that are have arrived. *)
Definition hasAllReceivers (ctx : Ctx) (exchange : Exchange) (messageName : string) : M bool :=
  _ ← nsKVs ctx;
  expected ← wrapping (Wrap "load expected receivers")
               (LoadObj MessageReceivers (GetNS ctx) WfMsgTypes messageName);
  mret (negb (bool_decide (mrs_MessageReceiver expected = [])) &&
        forallb (λ receiver, bool_decide (is_Some (xc_Receivers exchange !! mr_Id receiver)))
          (mrs_MessageReceiver expected)).

(** The loop over the receivers; a job lookup that ends in [ErrKeyNotFound]
    leaves the whole delivery. *)
Fixpoint deliver (ctx : Ctx) (vars : bytes) (receivers : list Receiver) : M bool :=
  match receivers with
  | [] => mret true
  | recvr :: receivers =>
      r ← attempt (GetJob ctx (rc_Id recvr));
      match r with
      | inr err => if Is err ErrKeyNotFound then mret false else throw err
      | inl job =>
          _ ← wrapping (Wrap "publishing complete message job")
                (PublishWorkflowState ctx messages.WorkflowJobAwaitMessageComplete
                   (job <| ws_Vars := vars |>) []);
          deliver ctx vars receivers
      end
  end.

Definition attemptMessageDelivery (ctx : Ctx) (exchange : Exchange) (receiverName : string)
    (justArrivedParty : party) (messageName correlationKey : string) : M unit :=
  _ ← nsKVs ctx;
  match xc_Sender exchange with
  | None => mret tt
  | Some sender =>
      if bool_decide (xc_Receivers exchange = ∅) then mret tt
      else
        receivers ← match justArrivedParty with
                    | senderParty => l ← range (xc_Receivers exchange); mret (map snd l)
                    | receiverParty =>
                        r ← deref "recvr.Id" (xc_Receivers exchange !! receiverName); mret [r]
                    end;
        done ← deliver ctx (sd_Vars sender) receivers;
        if negb done then mret tt
        else
          all ← wrapping (Wrap "failed has expected receivers") (hasAllReceivers ctx exchange messageName);
          if all : bool then
            wrapping (Wrap "error deleting exchange")
              (kvDelete (GetNS ctx) WfMessages (messageKeyFrom [messageName; correlationKey]))
          else mret tt
  end.

(** The first to arrive creates the exchange, the others add themselves to it. *)
Definition handleMessageExchange (ctx : Ctx) (p : party) (setPartyFn : Exchange → Exchange)
    (elementId : string) (exchange : Exchange) (messageName correlationKey : string) : M unit :=
  _ ← nsKVs ctx;
  let messageKey := messageKeyFrom [messageName; correlationKey] in
  r ← attempt (kvCreate (GetNS ctx) WfMessages messageKey (Marshal exchange));
  _ ← match r with
      | inl _ => mret tt
      | inr createErr =>
          if Is createErr ErrKeyExists then
            _ ← wrapping (Wrap "failed to update exchange")
                  (check (UpdateObj (GetNS ctx) WfMessages messageKey (zero : Exchange)
                            (λ x, mret (setPartyFn x))));
            mret tt
          else throw (Wrap "error creating message exchange" createErr)
      end;
  updated ← wrapping (Wrap "failed to retrieve exchange")
              (LoadObj Exchange (GetNS ctx) WfMessages messageKey);
  wrapping (Wrap "failed attempted delivery")
    (attemptMessageDelivery ctx updated elementId p messageName correlationKey).

(** ** Handlers *)
Definition set_sender (sender : Sender) (x : Exchange) : Exchange := x <| xc_Sender := Some sender |>.
Definition set_receiver (elementId : string) (receiver : Receiver) (x : Exchange) : Exchange :=
  x <| xc_Receivers ::= <[elementId := receiver]> |>.

Definition processMessage (ctx : Ctx) (msg : Msg) : M reply :=
  or_unmarshal "unmarshal message proto" (msg_Data msg) (λ instance : MessageInstance,
  let sender := mkSender (mi_Vars instance) (mi_CorrelationKey instance) in
  or_return false (handleMessageExchange ctx senderParty (set_sender sender) ""
                     (mkExchange (Some sender) ∅) (mi_Name instance) (mi_CorrelationKey instance))
    (λ _, mret (true, None))).

(** The correlation key is what the element's expression gives over the job's
    variables, as text. *)
Definition correlation (job : WorkflowState) (el : Element) : M string :=
  vrs ← wrapping (λ err, ErrWorkflowFatal (Wrap "decoding vars for message correlation" err) (Some job))
          (DecodeVars NewServerVars (ws_Vars job));
  let failed := λ err, ErrWorkflowFatal
    (Wrap "message correlation expression evaluation errored or was empty" err) (Some job) in
  resAny ← wrapping failed (lift_res (EvalAny ("= " +:+ el_Execute el) vrs));
  match resAny with
  | VNil => throw (ErrWorkflowFatal
              (New "message correlation expression evaluation errored or was empty") (Some job))
  | v => mret (Sprint_v v)
  end.

Definition awaitMessageProcessor (ctx : Ctx) (msg : Msg) : M reply :=
  or_unmarshal "unmarshal during process launch" (msg_Data msg) (λ job : WorkflowState,
  with_process ctx job true (λ _ _,
    r ← attempt (getElement ctx job);
    match r with
    | inr err =>
        if Is err ErrKeyNotFound
        then mret (true, Some (ErrWorkflowFatal (Wrap "finding associated element" err) (Some job)))
        else mret (false, Some (Wrap "get message element" err))
    | inl el =>
        or_return false (correlation job el) (λ correlationKey,
        let elementId := ws_ElementId job in
        let receiver := mkReceiver (TrackingID.ID (ws_Id job)) correlationKey in
        or_return false (wrapping (Wrap "failed to handle receiver message")
          (handleMessageExchange ctx receiverParty (set_receiver elementId receiver) elementId
             (mkExchange None {[elementId := receiver]}) (el_Msg el) correlationKey))
          (λ _, mret (true, None)))
    end)).
End exchange.

(** ** Effects *)
Section exchange_effects.
Context `{EnvOk} (ctx : Ctx) (T : Cells) `{!Lesser ctx T}.
Abbreviation within := (effect T (msg_ns (GetNS ctx))).

Lemma eff_hasAllReceivers P x m : preserves (effect T P) (hasAllReceivers ctx x m).
Proof. unfold hasAllReceivers. preserves_tac. Qed.
Lemma eff_deliver v l : preserves within (deliver ctx v l).
Proof. induction l as [|r l IH]; simpl; preserves_tac. Qed.
#[local] Hint Resolve eff_hasAllReceivers eff_deliver : preserves.
Lemma eff_attemptMessageDelivery x r p m c : preserves within (attemptMessageDelivery ctx x r p m c).
Proof. unfold attemptMessageDelivery. preserves_tac. Qed.
#[local] Hint Resolve eff_attemptMessageDelivery : preserves.
Lemma eff_handleMessageExchange p f e x m c : preserves within (handleMessageExchange ctx p f e x m c).
Proof. unfold handleMessageExchange. preserves_tac. Qed.
#[local] Hint Resolve eff_handleMessageExchange : preserves.
Lemma eff_correlation P job el : preserves (effect T P) (correlation job el).
Proof. unfold correlation. preserves_tac. Qed.
#[local] Hint Resolve eff_correlation : preserves.
Lemma eff_processMessage m : preserves within (processMessage ctx m).
Proof. unfold processMessage. reply_tac. Qed.
Lemma eff_awaitMessageProcessor m : preserves within (awaitMessageProcessor ctx m).
Proof. unfold awaitMessageProcessor. reply_tac. Qed.
End exchange_effects.

#[export] Hint Resolve eff_processMessage eff_awaitMessageProcessor : preserves.
