(* ===== verification/Exchange.v ===== *)
(** * Messages meet their receivers

    The specification of the exchange of [Messages]: the sender of a message and
    the elements that wait for it arrive in some order; whatever the order, each
    waiting job is completed exactly once with the sender's variables, and the
    exchange is gone when all have met. *)
From S2P Require Import Prelude Model Errors Env Sim Common Wp NatsUtil Vars Publish History Instances Lifecycle Lookups Jobs Launch Traverse Flows Gateway Messages.

(** An arrival: the sender, or a receiver at its element. *)
Abbreviation arrival := (option (string * Receiver)).

Section arrivals.
Context `{Env} (ctx : Ctx) (name key : string) (s : Sender).

(** What the handlers of the two kinds of messages run. *)
Definition meet (a : arrival) : M unit :=
  match a with
  | None => handleMessageExchange ctx senderParty (set_sender s) "" (mkExchange (Some s) ∅) name key
  | Some (el, r) =>
      handleMessageExchange ctx receiverParty (set_receiver el r) el (mkExchange None {[el := r]}) name key
  end.

(** The exchange after some arrivals, the latest first. *)
Definition receivers (done : list arrival) : list (string * Receiver) := omap id done.
Definition sent (done : list arrival) : bool := existsb (λ a, negb (bool_decide (is_Some a))) done.
Definition exchange_of (done : list arrival) : Exchange :=
  mkExchange (if sent done then Some s else None) (list_to_map (receivers done)).

Definition set_party (a : arrival) : Exchange → Exchange :=
  match a with None => set_sender s | Some (el, r) => set_receiver el r end.

Lemma exchange_of_cons a done : set_party a (exchange_of done) = exchange_of (a :: done).
Proof.
  by destruct a as [[el r]|].
Qed.
End arrivals.

Section exchange_wp.
Context `{EnvOk} (NF : NoFaults) (ctx : Ctx) (cid : string) (Hcid : ctx_Correlation ctx = Some cid).
Abbreviation ns := (GetNS ctx).
Context (name key : string) (s : Sender) (expected : MessageReceivers).
Context (J : string → WorkflowState).
Abbreviation xkey := (messageKeyFrom [name; key]).

(** The message that completes the job of a receiver. *)
Definition delivered (er : string * Receiver) (m : Msg) : Prop :=
  ∃ t, m = state_msg ctx cid messages.WorkflowJobAwaitMessageComplete
             (J (rc_Id er.2) <| ws_Vars := sd_Vars s |> <| ws_UnixTimeNano := t |>) [].

(** The store knows the jobs and which receivers the message expects. *)
Record exchange_ok (w : World) (rs : list (string * Receiver)) : Prop := {
  xo_jobs er : er ∈ rs → w_get w ns Job (rc_Id er.2) = Some (DState (J (rc_Id er.2)));
  xo_expected : w_get w ns WfMsgTypes name = Some (DReceivers expected) }.

Lemma exchange_ok_mono w w' rs rs' :
  (∀ b k, b ≠ WfMessages → w_get w' ns b k = w_get w ns b k) → (∀ er, er ∈ rs' → er ∈ rs) →
  exchange_ok w rs → exchange_ok w' rs'.
Proof. intros Hw Hrs [Hj He]. split; intros; rewrite Hw; auto. Qed.

Lemma wp_deliver js w Φ :
  exchange_ok w js →
  (∀ w' ms, Forall2 delivered js ms → w' ≡ w_pubs ms w → Φ w' (Ok true)) →
  wp (deliver ctx (sd_Vars s) (js.*2)) w Φ.
Proof.
  revert w Φ. induction js as [|er js IH]; intros w Φ Hok HΦ; simpl.
  { wp_steps. eapply HΦ; [constructor|by rewrite w_pubs_nil]. }
  wp_steps. eapply (wp_GetJob NF); [apply (xo_jobs _ _ Hok); by left|]. intros w1 Hw1. wp_steps.
  eapply (wp_publish NF); [done..|]. intros w2 t Hw2. wp_steps. apply IH.
  { eapply exchange_ok_mono; [| |done].
    - intros b k _. rewrite Hw2. unfold published. by rewrite w_get_pub, Hw1.
    - intros. by right. }
  intros w3 ms Hms Hw3. eapply HΦ; [constructor; [by exists t|done]|].
  rewrite Hw3, Hw2. unfold published. by rewrite Hw1, w_pubs_pub.
Qed.

Definition all_received (x : Exchange) : bool :=
  negb (bool_decide (mrs_MessageReceiver expected = [])) &&
  forallb (λ r, bool_decide (is_Some (xc_Receivers x !! mr_Id r))) (mrs_MessageReceiver expected).

Lemma wp_hasAllReceivers x rs w Φ :
  exchange_ok w rs → (∀ w', w' ≡ w → Φ w' (Ok (all_received x))) → wp (hasAllReceivers ctx x name) w Φ.
Proof.
  intros Hok HΦ. unfold hasAllReceivers. wp_steps. apply wp_nsKVs; [done|]. intros w1 Hw1 _. wp_steps.
  apply (wp_LoadObj_some NF _ _ _ (DReceivers expected) expected);
    [rewrite Hw1; apply (xo_expected _ _ Hok)|done|].
  intros w2 Hw2. wp_steps. apply HΦ. by rewrite Hw2.
Qed.

(** The end of an arrival: the deliveries it makes, and the exchange is deleted
    when all receivers are there. *)
Lemma wp_finish x js w Φ :
  exchange_ok w js →
  (∀ w' ms, Forall2 delivered js ms →
     w' ≡ (if all_received x then w_del ns WfMessages xkey (w_pubs ms w) else w_pubs ms w) →
     Φ w' (Ok tt)) →
  wp (deliver ctx (sd_Vars s) (js.*2)) w (λ w' r,
    match r with
    | Ok done =>
        wp (if negb done then mret tt
            else all ← wrapping (Wrap "failed has expected receivers") (hasAllReceivers ctx x name);
                 if all : bool then wrapping (Wrap "error deleting exchange") (kvDelete ns WfMessages xkey)
                 else mret tt) w' Φ
    | Err e => Φ w' (Err e)
    | Panic p => Φ w' (Panic p)
    end).
Proof.
  intros Hok HΦ. eapply wp_deliver; [done|]. intros w1 ms Hms Hw1. simpl. wp_steps.
  eapply (wp_hasAllReceivers x js).
  { eapply exchange_ok_mono; [| |done]; [|auto]. intros b k _. by rewrite Hw1, w_get_pubs. }
  intros w2 Hw2. destruct (all_received x) eqn:Ha; wp_steps; (eapply HΦ; [done|]).
  - by rewrite w_next_equiv, Hw2, Hw1.
  - by rewrite Hw2, Hw1.
Qed.

Lemma wp_kvCreate ns' b k d w Φ :
  (∀ w', w_get w ns' b k = None → w' ≡ w_put ns' b k d w → Φ w' (Ok tt)) →
  (∀ w' d', w_get w ns' b k = Some d' → w' ≡ w → Φ w' (Err (Sentinel ErrKeyExists))) →
  wp (kvCreate ns' b k d) w Φ.
Proof.
  intros Hnew Hold. unfold kvCreate, kv_create. apply wp_nats; [done|].
  change (w_kv (w_next w)) with (w_kv w). destruct (kv_get (w_kv w ns' b) k) as [[d' r]|] eqn:Hg; simpl.
  - eapply Hold; [by eapply kv_get_w_get|apply w_next_equiv].
  - apply Hnew; [unfold w_get; by rewrite Hg|].
    change (w_put ns' b k d (w_next w) ≡ w_put ns' b k d w). by rewrite w_next_equiv.
Qed.

(** Creating or joining the exchange. *)
Lemma wp_handleMessageExchange p f el ox w Q :
  w_get w ns WfMessages xkey = DExchange <$> ox →
  (∀ w1, w1 ≡ w_put ns WfMessages xkey (DExchange (f (default zero ox))) w →
     wp (attemptMessageDelivery ctx (f (default zero ox)) el p name key) w1 (returns Q)) →
  wp (handleMessageExchange ctx p f el (f zero) name key) w (returns Q).
Proof.
  intros Hg HQ. unfold handleMessageExchange. wp_steps. apply wp_nsKVs; [done|]. intros w0 Hw0 _. wp_steps.
  assert (∀ w1, w1 ≡ w_put ns WfMessages xkey (DExchange (f (default zero ox))) w →
    wp (updated ← wrapping (Wrap "failed to retrieve exchange") (LoadObj Exchange ns WfMessages xkey);
        wrapping (Wrap "failed attempted delivery")
          (attemptMessageDelivery ctx updated el p name key)) w1 (returns Q)) as Htail.
  { intros w1 Hw1. wp_steps.
    apply (wp_LoadObj_some NF _ _ _ (DExchange (f (default zero ox))) (f (default zero ox)));
      [by rewrite Hw1, w_get_put_eq|done|].
    intros w2 Hw2. wp_steps. eapply wp_mono; [|apply HQ; by rewrite Hw2]. by intros w3 []. }
  apply wp_kvCreate.
  - intros w1 Hnone Hw1. apply wp_bind, wp_ret, Htail. rewrite Hw0, Hg in Hnone. destruct ox; [done|].
    by rewrite Hw1, Hw0.
  - intros w1 d Hsome Hw1. rewrite Hw0, Hg in Hsome. destruct ox as [x|]; [|done]. simpl in *.
    apply wp_bind. wp_steps. apply (wp_check_UpdateObj NF _ _ _ _ x f); [by rewrite Hw1, Hw0, Hg|].
    intros w2 Hw2. apply wp_ret, Htail. by rewrite Hw2, Hw1, Hw0.
Qed.

(** How far an exchange that began in [w0] is. *)
Definition progress_of (w0 : World) (done : list arrival) (w : World) : Prop :=
  ∃ ms, w ≡ w_pubs ms (match done with
                       | [] => w0
                       | _ => w_put ns WfMessages xkey (DExchange (exchange_of s done)) w0
                       end) ∧
    if sent done then ∃ js, js ≡ₚ receivers done ∧ Forall2 delivered js ms else ms = [].

Definition over (w0 : World) (done : list arrival) (w : World) : Prop :=
  ∃ ms js, w ≡ w_pubs ms w0 ∧ js ≡ₚ receivers done ∧ Forall2 delivered js ms.

Lemma wp_attempt_deliver a done w Q :
  exchange_ok w (receivers (a :: done)) → NoDup (receivers (a :: done)).*1 →
  sent (a :: done) = true → receivers (a :: done) ≠ [] →
  (∀ w' ms js, (match a with None => js ≡ₚ receivers done | Some er => js = [er] end) →
     Forall2 delivered js ms →
     w' ≡ (if all_received (exchange_of s (a :: done)) then w_del ns WfMessages xkey (w_pubs ms w)
           else w_pubs ms w) → Q w' tt) →
  wp (attemptMessageDelivery ctx (exchange_of s (a :: done)) (match a with Some er => er.1 | None => "" end)
        (match a with Some _ => receiverParty | None => senderParty end) name key) w (returns Q).
Proof.
  intros Hok Hnd Hs Hne HQ. unfold attemptMessageDelivery. wp_steps. apply wp_nsKVs; [done|].
  intros w1 Hw1 _. wp_steps. unfold exchange_of at 1. rewrite Hs. simpl xc_Sender. cbv iota.
  rewrite bool_decide_false.
  2: { change (list_to_map (receivers (a :: done)) ≠ (∅ : gmap string Receiver)).
       destruct (receivers (a :: done)) as [|[k v] l]; [done|]. apply insert_non_empty. }
  assert (exchange_ok w1 (receivers (a :: done))) as Hok1.
  { eapply exchange_ok_mono; [| |done]; [|auto]. intros b k _. by rewrite Hw1. }
  destruct a as [[el r]|]; simpl in *.
  - rewrite lookup_insert_eq. wp_steps. eapply (wp_finish _ [(el, r)]).
    { eapply exchange_ok_mono; [done| |done]. intros er ->%list_elem_of_singleton. by left. }
    intros w2 ms Hms Hw2. eapply HQ; [done|done|]. rewrite Hw2. destruct (all_received _); by rewrite Hw1.
  - wp_steps. apply wp_range. intros l Hl. wp_steps. rewrite map_to_list_to_map in Hl by done.
    eapply (wp_finish _ l).
    { eapply exchange_ok_mono; [| |exact Hok1]; [intros b k _; by rewrite w_next_equiv|].
      intros er. by rewrite Hl. }
    intros w2 ms Hms Hw2. eapply HQ; [done|done|]. rewrite Hw2. destruct (all_received _); by rewrite w_next_equiv, Hw1.
Qed.

Lemma wp_attempt_nothing done el p w Q :
  sent done = false ∨ receivers done = [] →
  (∀ w', w' ≡ w → Q w' tt) →
  wp (attemptMessageDelivery ctx (exchange_of s done) el p name key) w (returns Q).
Proof.
  intros Hn HQ. unfold attemptMessageDelivery. wp_steps. apply wp_nsKVs; [done|]. intros w1 Hw1 _. wp_steps.
  unfold exchange_of at 1. simpl xc_Sender. destruct (sent done); [|wp_steps; by apply HQ].
  destruct Hn as [?|Hn]; [done|]. rewrite bool_decide_true; [wp_steps; by apply HQ|].
  unfold exchange_of. simpl. by rewrite Hn.
Qed.

Lemma w_put_pubs b k d ms w : w_put ns b k d (w_pubs ms w) ≡ w_pubs ms (w_put ns b k d w).
Proof. split; [|done]. intros ns' b' k'. by rewrite w_get_pubs, !w_get_put, w_get_pubs. Qed.

Lemma w_del_put_fresh b k d ms w :
  w_get w ns b k = None → w_del ns b k (w_pubs ms (w_put ns b k d w)) ≡ w_pubs ms w.
Proof.
  intros Hk. split; [|done]. intros ns' b' k'. rewrite w_get_pubs, w_get_del, w_get_pubs, w_get_put.
  case_decide; [|done]. by simplify_eq.
Qed.

(** Nothing is received before it has arrived. *)
Definition complete (done : list arrival) : bool := sent done && all_received (exchange_of s done).

Lemma complete_receivers done : complete done = true → sent done = true ∧ receivers done ≠ [].
Proof.
  unfold complete, all_received. intros (Hs & Hn & Ha)%andb_true_iff%(λ H, conj (proj1 H) (proj1 (andb_true_iff _ _) (proj2 H))).
  split; [done|]. intros Hr. unfold exchange_of in Ha. rewrite Hr in Ha. simpl in Ha.
  destruct (mrs_MessageReceiver expected); [done|]. simpl in Ha. rewrite lookup_empty in Ha. done.
Qed.

Lemma wp_meet a done rs w0 w :
  w_get w0 ns WfMessages xkey = None → exchange_ok w0 rs →
  (∀ er, er ∈ receivers (a :: done) → er ∈ rs) → NoDup (receivers (a :: done)).*1 →
  (a = None → sent done = false) → progress_of w0 done w →
  wp (meet ctx name key s a) w (returns (λ w' _,
    if complete (a :: done) then over w0 (a :: done) w' else progress_of w0 (a :: done) w')).
Proof.
  intros Hnone Hok Hrs Hnd Ha (ms & Hw & Hms).
  set (el := match a with Some er => er.1 | None => "" end).
  set (p := match a with Some _ => receiverParty | None => senderParty end).
  assert (meet ctx name key s a = handleMessageExchange ctx p (set_party s a) el (set_party s a zero) name key)
    as -> by (by destruct a as [[]|]).
  set (ox := match done with [] => None | _ => Some (exchange_of s done) end).
  assert (default zero ox = exchange_of s done) as Hox by (by destruct done).
  apply (wp_handleMessageExchange p (set_party s a) el ox).
  { rewrite Hw, w_get_pubs. destruct done; [done|]. by rewrite w_get_put_eq. }
  rewrite Hox, exchange_of_cons. intros w1 Hw1.
  assert (w1 ≡ w_pubs ms (w_put ns WfMessages xkey (DExchange (exchange_of s (a :: done))) w0)) as Hw1'.
  { rewrite Hw1, Hw, w_put_pubs. destruct done; [done|]. by rewrite w_put_put. }
  assert (exchange_ok w1 (receivers (a :: done))) as Hok1.
  { eapply exchange_ok_mono; [|exact Hrs|exact Hok]. intros b k Hb.
    rewrite Hw1', w_get_pubs, w_get_put_ne; [done|]. congruence. }
  destruct (decide (sent (a :: done) = true ∧ receivers (a :: done) ≠ [])) as [[Hs Hr]|Hno].
  - apply wp_attempt_deliver; [done..|]. intros w2 ms2 js2 Hjs2 Hms2 Hw2.
    assert (∃ js, js ≡ₚ receivers (a :: done) ∧ Forall2 delivered js (ms ++ ms2)) as (js & Hjs & Hall).
    { destruct a as [er|]; simpl in *.
      - rewrite Hs in Hms. destruct Hms as (js & Hjs & Hms). exists (js ++ js2). subst js2. split.
        + rewrite Hjs, Permutation_app_comm. done.
        + by apply Forall2_app.
      - rewrite Ha in Hms by done. subst ms. exists js2. done. }
    assert (∀ w', w_pubs ms2 (w_pubs ms w') ≡ w_pubs (ms ++ ms2) w') as Happ.
    { intros w'. split; [done|]. simpl. by rewrite app_assoc. }
    unfold complete. rewrite Hs. simpl. destruct (all_received _).
    + exists (ms ++ ms2), js. split; [|done]. by rewrite Hw2, Hw1', Happ, w_del_put_fresh.
    + exists (ms ++ ms2). rewrite Hs. split; [by rewrite Hw2, Hw1', Happ|eauto].
  - assert (sent (a :: done) = false ∨ receivers (a :: done) = []) as Hn.
    { destruct (sent (a :: done)); [right|by left]. destruct (receivers (a :: done)); [done|].
      exfalso. by apply Hno. }
    apply wp_attempt_nothing; [done|]. intros w2 Hw2.
    destruct (complete (a :: done)) eqn:Hc; [by apply complete_receivers in Hc|].
    exists ms. split; [by rewrite Hw2|]. destruct (sent (a :: done)) eqn:Hs.
    + destruct Hn as [?|Hr]; [done|]. exists []. rewrite Hr. split; [done|].
      destruct a as [er|]; [done|]. rewrite Ha in Hms by done. by rewrite Hms.
    + destruct a as [er|]; simpl in *; [|done]. by rewrite Hs in Hms.
Qed.
End exchange_wp.

(** ** Any order of arrivals *)
Lemma sent_spec (l : list arrival) : sent l = true ↔ None ∈ l.
Proof.
  unfold sent. rewrite existsb_exists. split.
  - intros ([er|] & Hin & Hx); [by rewrite bool_decide_true in Hx|]. by apply list_elem_of_In.
  - intros Hin. exists None. split; [by apply list_elem_of_In|done].
Qed.

Lemma receivers_perm (l l' : list arrival) : l ≡ₚ l' → receivers l ≡ₚ receivers l'.
Proof. intros Hp. unfold receivers. by rewrite Hp. Qed.

Lemma receivers_app (l l' : list arrival) : receivers (l ++ l') = receivers l ++ receivers l'.
Proof. apply omap_app. Qed.

Lemma receivers_all (rs : list (string * Receiver)) : receivers (None :: (Some <$> rs)) = rs.
Proof.
  change (receivers (Some <$> rs) = rs). induction rs as [|r rs IH]; [done|].
  change (r :: receivers (Some <$> rs) = r :: rs). by rewrite IH.
Qed.

Section order.
Context (s : Sender) (expected : MessageReceivers) (rs : list (string * Receiver)).
Context (Hne : rs ≠ []) (Hnd : NoDup rs.*1).
Context (Hexp : ∀ id, id ∈ mr_Id <$> mrs_MessageReceiver expected ↔ id ∈ rs.*1).

Lemma all_received_spec done :
  NoDup (receivers done).*1 →
  all_received expected (exchange_of s done) = true ↔ ∀ id, id ∈ rs.*1 → id ∈ (receivers done).*1.
Proof.
  intros Hnd'. unfold all_received. rewrite andb_true_iff, negb_true_iff, bool_decide_eq_false, forallb_forall.
  split.
  - intros [_ Hall] id (r & -> & Hr)%Hexp%list_elem_of_fmap. specialize (Hall r).
    rewrite bool_decide_eq_true in Hall. destruct Hall as [v Hv]; [by apply list_elem_of_In|].
    simpl in Hv. apply elem_of_list_to_map_2 in Hv. by apply (list_elem_of_fmap_2 fst _ (mr_Id r, v)).
  - intros Hall. split.
    + intros He. rewrite He in Hexp. simpl in Hexp. destruct rs as [|er l]; [done|].
      apply (not_elem_of_nil er.1), Hexp. by left.
    + intros r Hr. rewrite bool_decide_eq_true. simpl.
      assert (mr_Id r ∈ (receivers done).*1) as ([k v] & Hk & Hin)%list_elem_of_fmap.
      { apply Hall, Hexp, list_elem_of_fmap_2. by apply list_elem_of_In. }
      exists v. apply elem_of_list_to_map_1; [done|]. simpl in Hk. by rewrite Hk.
Qed.

(** The exchange is complete exactly with the last arrival. *)
Lemma complete_last done rest :
  done ++ rest ≡ₚ None :: (Some <$> rs) → complete s expected done = bool_decide (rest = []).
Proof.
  intros Hp. pose proof (receivers_perm _ _ Hp) as Hr. rewrite receivers_app, receivers_all in Hr.
  assert (NoDup ((receivers done).*1 ++ (receivers rest).*1)) as (Hd & Hdis & Hrd)%NoDup_app.
  { rewrite <-fmap_app, Hr. done. }
  assert (∀ id, id ∈ rs.*1 ↔ id ∈ (receivers done).*1 ∨ id ∈ (receivers rest).*1) as Hin.
  { intros id. rewrite <-Hr, fmap_app, elem_of_app. done. }
  apply Bool.eq_iff_eq_true. unfold complete.
  rewrite andb_true_iff, sent_spec, all_received_spec, bool_decide_eq_true by done. split.
  - intros [Hs Hall]. destruct rest as [|[er|] rest]; [done|exfalso..].
    + apply (Hdis er.1); [|by left]. apply Hall, Hin. right. by left.
    + assert (NoDup (done ++ None :: rest)) as Hnn.
      { rewrite Hp. apply NoDup_cons. split; [by intros (? & ? & ?)%list_elem_of_fmap|].
        apply NoDup_fmap_2; [apply _|]. by eapply NoDup_fmap_1. }
      apply NoDup_app in Hnn as (_ & Hx & _). apply (Hx None Hs). by left.
  - intros ->. rewrite app_nil_r in Hp. split; [rewrite Hp; by left|].
    intros id Hid. apply Hin in Hid as [?|Hid]; [done|]. by apply elem_of_nil in Hid.
Qed.
End order.

Lemma wp_meet_all `{EnvOk} (NF : NoFaults) ctx cid name key s expected J rs w0 :
  ctx_Correlation ctx = Some cid →
  w_get w0 (GetNS ctx) WfMessages (messageKeyFrom [name; key]) = None →
  exchange_ok ctx name expected J w0 rs → rs ≠ [] → NoDup rs.*1 →
  (∀ id, id ∈ mr_Id <$> mrs_MessageReceiver expected ↔ id ∈ rs.*1) →
  ∀ rest past w, past ++ rest ≡ₚ None :: (Some <$> rs) → rest ≠ [] →
    progress_of ctx cid name key s J w0 past w →
    wp (for_each rest (meet ctx name key s)) w (returns (λ w' _, ∃ ms js,
      js ≡ₚ rs ∧ Forall2 (delivered ctx cid s J) js ms ∧ w' ≡ w_pubs ms w0)).
Proof.
  intros Hcid Hnone Hok Hne Hnd Hexp rest. induction rest as [|a rest IH]; intros past w Hp Hrest Hpr; [done|].
  assert ((a :: past) ++ rest ≡ₚ None :: (Some <$> rs)) as Hp'.
  { rewrite <-Hp. simpl. by rewrite Permutation_middle. }
  pose proof (receivers_perm _ _ Hp') as Hr. rewrite receivers_app, receivers_all in Hr.
  assert (NoDup (receivers (a :: past)).*1) as Hnda.
  { assert (NoDup ((receivers (a :: past)).*1 ++ (receivers rest).*1)) as Hx
      by (rewrite <-fmap_app, Hr; done). by apply NoDup_app in Hx as []. }
  simpl. apply wp_bind. eapply wp_mono; [|eapply (wp_meet NF ctx cid Hcid name key s expected J a past rs w0)]; try done.
  - intros w1 [[]| |]; cbv beta iota; [|done|done]. unfold returns at 1.
    rewrite (complete_last s expected rs Hne Hnd Hexp (a :: past) rest) by done.
    case_bool_decide as Hl.
    + subst rest. intros (ms & js & Hw1 & Hjs & Hms). simpl. wp_steps. exists ms, js.
      split; [|done]. rewrite Hjs, <-Hr. by rewrite app_nil_r.
    + intros Hpr1. by eapply (IH (a :: past)).
  - intros er Her. rewrite <-Hr, elem_of_app. by left.
  - intros ->. apply not_true_is_false. intros Hs%sent_spec.
    assert (NoDup (past ++ None :: rest)) as Hnn.
    { rewrite Hp. apply NoDup_cons. split; [by intros (? & ? & ?)%list_elem_of_fmap|].
      apply NoDup_fmap_2; [apply _|]. by eapply NoDup_fmap_1. }
    apply NoDup_app in Hnn as (_ & Hx & _). apply (Hx None Hs). by left.
Qed.

(** (C6) A message and the jobs that wait for it meet whatever the order they
    arrive in: every waiting job is completed exactly once, with the variables of
    the message, and nothing else is published; the exchange they met in is gone,
    so the stores are as they were before. *)
Theorem message_reaches_every_receiver `{EnvOk} ctx cid name key s expected J rs arrivals w :
  NoFaults → ctx_Correlation ctx = Some cid →
  w_get w (GetNS ctx) WfMessages (messageKeyFrom [name; key]) = None →
  exchange_ok ctx name expected J w rs → rs ≠ [] → NoDup rs.*1 →
  (∀ id, id ∈ mr_Id <$> mrs_MessageReceiver expected ↔ id ∈ rs.*1) →
  arrivals ≡ₚ None :: (Some <$> rs) →
  wp (for_each arrivals (meet ctx name key s)) w (returns (λ w' _, ∃ ms js,
    js ≡ₚ rs ∧ Forall2 (delivered ctx cid s J) js ms ∧ w' ≡ w_pubs ms w)).
Proof.
  intros NF Hcid Hnone Hok Hne Hnd Hexp Harr.
  apply (wp_meet_all NF ctx cid name key s expected J rs w Hcid Hnone Hok Hne Hnd Hexp arrivals []).
  - done.
  - intros ->. by apply Permutation_nil_cons in Harr.
  - exists []. split; [by rewrite w_pubs_nil|done].
Qed.

(** ** Examples: two elements wait for a payment, one of them before it is sent *)
Definition ex_waiting (id : string) : WorkflowState := zero_state <| ws_Id := ["e"; "p"; "a"; id] |>.
Definition ex_receivers : list (string * Receiver) :=
  [("wait1", mkReceiver "j1" "7"); ("wait2", mkReceiver "j2" "7")].
Definition ex_expected : MessageReceivers :=
  mkMessageReceivers [mkMessageReceiver "wait1" ""; mkMessageReceiver "wait2" ""] "W".
Definition ex_exchange_world : @World sim :=
  @w_put sim "default" WfMsgTypes "paid" (DReceivers ex_expected)
    (@w_put sim "default" Job "j1" (DState (ex_waiting "j1"))
      (@w_put sim "default" Job "j2" (DState (ex_waiting "j2")) world_init)).

Lemma message_reaches_every_receiver_witness :
  @wp sim _ (for_each [Some ("wait2", mkReceiver "j2" "7"); None; Some ("wait1", mkReceiver "j1" "7")]
      (meet ex_ctx "paid" "7" (mkSender "vars" "7"))) ex_exchange_world (returns (λ w' _, ∃ ms js,
    js ≡ₚ ex_receivers ∧ Forall2 (delivered ex_ctx "cid" (mkSender "vars" "7") ex_waiting) js ms ∧
    w' ≡ w_pubs ms ex_exchange_world)).
Proof.
  apply (@message_reaches_every_receiver sim (Sim_ok _ _ _) ex_ctx "cid" "paid" "7" (mkSender "vars" "7")
    ex_expected ex_waiting ex_receivers).
  - exact sim_NoFaults.
  - reflexivity.
  - reflexivity.
  - split; [|reflexivity]. intros er Her. unfold ex_receivers in Her.
    rewrite !elem_of_cons, elem_of_nil in Her. destruct Her as [->|[->|[]]]; reflexivity.
  - discriminate.
  - apply (bool_decide_unpack _). vm_compute. exact I.
  - reflexivity.
  - unfold ex_receivers. simpl. solve_Permutation.
Defined.
