(* ===== verification/Compensate.v ===== *)
(** * Compensation

    [internal/server/workflow/compensation.go].  [Compensate] reads the history
    of a process instance and publishes a plan: the completed jobs that have a
    compensating element, latest first.  [processCompensate] takes the next
    entry of the plan and starts the compensating job; [compensationJobComplete]
    goes on to the next one or finishes. *)
From S2P Require Import Prelude Model Errors Env Sim Common Wp NatsUtil Vars Publish History Instances TaskSpec Jobs Launch Traverse Gateway Duration.
From stdpp Require Import sorting.

Record step := mkStep {
  st_UnixTime : Z;
  st_Item : string }.

(** Latest first. *)
Definition later (a b : step) : Prop := (st_UnixTime b ≤ st_UnixTime a)%Z.
#[export] Instance later_dec : RelDecision later.
Proof. intros a b. unfold later. apply _. Defined.
#[export] Instance later_total : Total later.
Proof. intros a b. unfold later. lia. Qed.
#[export] Instance later_trans : Transitive later.
Proof. intros a b c. unfold later. lia. Qed.

Definition consumerPrefix : string := "comp_plan_".

Section compensation.
Context `{Env}.

(** The elements of the process the state is in. *)
Definition process_elements_of (ctx : Ctx) (state : WorkflowState) : M (gmap string Element) :=
  wf ← wrapping (Wrap "get workflow") (GetWorkflow ctx (ws_WorkflowId state));
  pr ← deref "wf.Process[state.ProcessId]" (wf_Process wf !! ws_ProcessId state);
  mret (IndexProcessElements (pr_Elements pr) ∅).

(** One history entry: a job outside compensation whose element can be
    compensated and whose activity completed.  Any answer but a missing key
    counts as completed. *)
Definition compensable (ctx : Ctx) (els : gmap string Element) (entry : ProcessHistoryEntry) :
    M (option step) :=
  if ph_Compensating entry then mret None
  else if negb (bool_decide (ph_ItemType entry = jobExecute)) then mret None
  else
    elementId ← deref "entry.ElementId" (ph_ElementId entry);
    el ← deref "els[*entry.ElementId]" (els !! elementId);
    match el_CompensateWith el with
    | None => mret None
    | Some _ =>
        pid ← deref "entry.ProcessInstanceId" (ph_ProcessInstanceId entry);
        r ← attempt (kvGet (GetNS ctx) WfHistory
                       (historyKey pid (TrackingID.ParentID (ph_Id entry)) activityComplete));
        if match r with inr err => Is err ErrKeyNotFound | inl _ => false end then mret None
        else mret (Some (mkStep (ph_UnixTimeNano entry)
                           (historyKey pid (TrackingID.ID (ph_Id entry)) jobExecute)))
    end.

Definition plan_message (ns subject : string) (i length : nat) (v : step) : Msg :=
  mkMsg subject (<["Step" := pretty i]> (<["Steps" := pretty length]> {[header.SharNamespace := ns]}))
    (DBytes (st_Item v)).

Definition planSubject (ctx : Ctx) (id : string) : string :=
  NS "WORKFLOW.%s.Compensate." (GetNS ctx) +:+ id.

Fixpoint publish_plan (ns subject : string) (length i : nat) (l : list step) : M unit :=
  match l with
  | [] => mret tt
  | v :: l =>
      _ ← wrapping (Wrap "publish compensation plan entry")
            (natsPublish (plan_message ns subject i length v));
      publish_plan ns subject length (S i) l
  end.

(** The order of jobs recorded at the same nanosecond is not specified. *)
Definition compensation_plan (ctx : Ctx) (els : gmap string Element) (hist : list ProcessHistoryEntry) :
    M (list step) :=
  l ← for_fold hist (λ acc entry, s ← compensable ctx els entry; mret (acc ++ option_list s)) [];
  mret (merge_sort later l).

Definition Compensate (ctx : Ctx) (state : WorkflowState) : M unit :=
  _ ← wrapping (Wrap "get kvs for compensate") (KvsFor (GetNS ctx));
  els ← process_elements_of ctx state;
  let id := TrackingID.ID (ws_Id state) in
  _ ← wrapping (Wrap "create compensation consumer") (natsConsumer (consumerPrefix +:+ id));
  h ← GetProcessHistory ctx (ws_ProcessInstanceId state);
  plan ← compensation_plan ctx els h.1;
  match h.2 with
  | err :: _ => throw (Wrap "get process history" err)
  | [] =>
      _ ← publish_plan (GetNS ctx) (planSubject ctx id) (length plan) 0 plan;
      let state := state <| ws_State := compensating |> in
      _ ← wrapping (Wrap "publish compensation state")
            (PublishWorkflowState ctx messages.WorkflowProcessCompensate state []);
      mret tt
  end.

(** ** The next entry of the plan *)
Definition header_int (m : Msg) (k : string) : option Z := Atoi (default "" (msg_Header m !! k)).

(** A plan without a message gives a nil message, which is read. *)
Definition fetch_step (ctx : Ctx) (id : string) : M (string * Z * Z) :=
  _ ← wrapping (Wrap "get compensation consumer") (natsFindConsumer (consumerPrefix +:+ id));
  r ← wrapping (Wrap "get compensation plan entry")
        (natsFetch (consumerPrefix +:+ id) (planSubject ctx id));
  cmsg ← deref "cmsg.Data of nil" r;
  step ← match header_int cmsg "Step" with
         | Some n => mret n
         | None => throw (Wrap "get compensation step" (New "strconv.Atoi"))
         end;
  steps ← match header_int cmsg "Steps" with
          | Some n => mret n
          | None => throw (Wrap "get total compensation steps" (New "strconv.Atoi"))
          end;
  _ ← wrapping (Wrap "ack compensation plan entry") (natsAck (consumerPrefix +:+ id));
  match msg_Data cmsg with
  | DBytes key => mret (key, step, steps)
  | _ => panic "plan entry is not text"
  end.

Definition compensation_job (state : WorkflowState) (jobExe : ProcessHistoryEntry) (workflowId : string)
    (el : Element) (now step steps : Z) : WorkflowState :=
  zero_state
    <| ws_WorkflowId := workflowId |> <| ws_ElementId := el_Id el |> <| ws_ElementType := el_Type el |>
    <| ws_ElementName := el_Name el |> <| ws_Id := ws_Id state |> <| ws_Execute := Some (el_Execute el) |>
    <| ws_State := compensating |> <| ws_UnixTimeNano := now |> <| ws_Vars := ws_Vars state |>
    <| ws_WorkflowName := ws_WorkflowName state |> <| ws_ProcessId := ws_ProcessId state |>
    <| ws_ProcessInstanceId := ws_ProcessInstanceId state |>
    <| ws_Compensation := Some (mkCompensation step steps (TrackingID.ID (ph_Id jobExe))) |>
    <| ws_ExecutionId := default "" (ph_ExecutionId jobExe) |>
    <| ws_ExecuteVersion := default "" (el_Version el) |>.

Definition processCompensate (ctx : Ctx) (msg : Msg) : M reply :=
  or_unmarshal "unmarshal workflow state" (msg_Data msg) (λ state : WorkflowState,
  or_return false (process_elements_of ctx state) (λ els,
  or_return false (fetch_step ctx (TrackingID.ID (ws_Id state))) (λ s,
  let '(key, step, steps) := s in
  or_return false (wrapping (Wrap "get key value stores for namespace") (KvsFor (GetNS ctx))) (λ _,
  or_return false (wrapping (Wrap "get compensation history entry") (kvGet (GetNS ctx) WfHistory key)) (λ v,
  match Unmarshal v.1 with
  | None => mret (true, Some (Wrap "unmarshal process history entry" (New "proto")))
  | Some jobExe =>
      elementId ← deref "jobExe.ElementId" (ph_ElementId jobExe);
      originalElement ← deref "els[*jobExe.ElementId]" (els !! elementId);
      with_ ← deref "originalElement.CompensateWith" (el_CompensateWith originalElement);
      el ← deref "els[*originalElement.CompensateWith]" (els !! with_);
      workflowId ← deref "jobExe.WorkflowId" (ph_WorkflowId jobExe);
      now ← timeNow;
      let job := compensation_job state jobExe workflowId el now step steps in
      or_return false (wrapping (Wrap "record compensation checkpoint")
        (RecordHistoryCompensationCheckpoint ctx job)) (λ _,
      if bool_decide (ws_ElementType job = element.ServiceTask) then
        or_return false (wrapping (Wrap "start job")
          (startJob ctx (NS messages.WorkflowJobServiceTaskExecute (GetNS ctx) +:+ "." +:+ ws_ExecuteVersion job)
             job el (ws_Vars state) [])) (λ _, mret (true, None))
      else mret (true, None))
  end))))).

(** ** After a compensating job *)

(** The last step completes the activity that asked for compensation, and with a
    compensating end event the process. *)
Definition finish_compensation (ctx : Ctx) (els : gmap string Element) (id : list string)
    (state : WorkflowState) : M unit :=
  activity ← wrapping (Wrap "get compensation history activity entry")
    (GetProcessHistoryItem ctx (ws_ProcessInstanceId state) (TrackingID.ID id) activityExecute);
  elementId ← deref "activity.ElementId" (ph_ElementId activity);
  el ← deref "els[*activity.ElementId]" (els !! elementId);
  elementName ← deref "activity.ElementName" (ph_ElementName activity);
  let state := DropStateParams (state <| ws_State := executing |> <| ws_ElementId := elementId |>
    <| ws_ElementType := el_Type el |> <| ws_ElementName := elementName |>) <| ws_Id := id |> in
  state ← wrapping (Wrap "publish compensation activity complete")
            (PublishWorkflowState ctx messages.WorkflowActivityComplete state []);
  _ ← wrapping (Wrap "record history activity complete for compensation")
        (RecordHistoryActivityComplete ctx state);
  if bool_decide (ws_ElementType state = element.CompensateEndEvent) then
    localVars ← wrapping (Wrap "transform output vars") (OutputVars (ws_Vars state) "" (el_OutputTransform el));
    let finalState := CopyWorkflowState state <| ws_Id := [ws_ProcessInstanceId state] |>
      <| ws_State := completed |> <| ws_Vars := localVars |> in
    _ ← wrapping (Wrap "publish workflow status")
          (PublishWorkflowState ctx messages.WorkflowProcessComplete finalState []);
    mret tt
  else mret tt.

Definition compensationJobComplete (ctx : Ctx) (job : WorkflowState) : M unit :=
  let id := TrackingID.Pop (ws_Id job) in
  checkpoint ← wrapping (Wrap "get compensation checkpoint")
    (GetProcessHistoryItem ctx (ws_ProcessInstanceId job) (TrackingID.ID id) compensationCheckpoint);
  els ← process_elements_of ctx job;
  el ← deref "els[job.ElementId]" (els !! ws_ElementId job);
  vars ← wrapping (Wrap "transform output vars")
           (OutputVars (ws_Vars job) (ph_Vars checkpoint) (el_OutputTransform el));
  let state := CopyWorkflowState job <| ws_Vars := vars |> in
  comp ← deref "state.Compensation" (ws_Compensation state);
  if bool_decide (cp_Step comp = wrap64 (cp_TotalSteps comp - 1))
  then finish_compensation ctx els id state
  else
    _ ← wrapping (Wrap "publish workflow state")
          (PublishWorkflowState ctx messages.WorkflowProcessCompensate (state <| ws_Id := id |>) []);
    mret tt.
End compensation.

(** ** Effects *)
Section compensation_effects.
Context `{EnvOk} (ctx : Ctx) (T : Cells) `{!Lesser ctx T}.
Abbreviation within := (effect T (msg_ns (GetNS ctx))).

Lemma eff_process_elements_of P st : preserves (effect T P) (process_elements_of ctx st).
Proof. unfold process_elements_of. preserves_tac. Qed.
Lemma eff_compensation_plan P els h : preserves (effect T P) (compensation_plan ctx els h).
Proof. unfold compensation_plan, compensable. preserves_tac. Qed.
Lemma eff_publish_plan s n i l : preserves within (publish_plan (GetNS ctx) s n i l).
Proof.
  revert i. induction l as [|v l IH]; intros i; simpl; preserves_tac.
  apply eff_natsPublish. unfold msg_ns. simpl. by rewrite !lookup_insert_ne, lookup_singleton_eq.
Qed.
Lemma eff_fetch_step P id : preserves (effect T P) (fetch_step ctx id).
Proof. unfold fetch_step. preserves_tac. Qed.
#[local] Hint Resolve eff_process_elements_of eff_compensation_plan eff_publish_plan eff_fetch_step : preserves.
Lemma eff_Compensate st : preserves within (Compensate ctx st).
Proof. unfold Compensate. preserves_tac. Qed.
Lemma eff_processCompensate m : preserves within (processCompensate ctx m).
Proof. unfold processCompensate. reply_tac. Qed.
Lemma eff_finish_compensation els id st : preserves within (finish_compensation ctx els id st).
Proof. unfold finish_compensation. preserves_tac. Qed.
#[local] Hint Resolve eff_finish_compensation : preserves.
Lemma eff_compensationJobComplete job : preserves within (compensationJobComplete ctx job).
Proof. unfold compensationJobComplete. preserves_tac. Qed.
End compensation_effects.

#[export] Hint Resolve eff_Compensate eff_processCompensate eff_compensationJobComplete : preserves.
