(* ===== verification/Plan.v ===== *)
(** * The compensation plan

    The specification of [Compensate]: the plan it publishes has exactly the
    completed jobs of the process instance that can be compensated, each once,
    latest first. *)
From S2P Require Import Prelude Model Errors Env Sim Common Wp NatsUtil Vars Publish History Instances Lifecycle Lookups TaskSpec Jobs Launch Traverse Flows Gateway Duration Compensate.
From stdpp Require Import sorting.

Section plan.
Context (els : gmap string Element) (hs : Hist) (pid : string).

(** The step a history entry asks for: a job, not itself part of a compensation,
    of an element that names one to compensate with, whose activity completed. *)
Definition step_of (e : ProcessHistoryEntry) : option step :=
  if ph_Compensating e then None
  else if bool_decide (ph_ItemType e = jobExecute) then
    elementId ← ph_ElementId e; el ← els !! elementId; _ ← el_CompensateWith el;
    _ ← hs pid (TrackingID.ParentID (ph_Id e)) activityComplete;
    Some (mkStep (ph_UnixTimeNano e) (historyKey pid (TrackingID.ID (ph_Id e)) jobExecute))
  else None.

(** The entries of the process instance say what they are, and the elements of
    its jobs are known. *)
Definition entries_ok : Prop := ∀ tid t e, hs pid tid t = Some e →
  ph_ItemType e = t ∧ ph_ProcessInstanceId e = Some pid ∧ TrackingID.ID (ph_Id e) = tid ∧
  id_ok (TrackingID.ParentID (ph_Id e)) ∧
  (t = jobExecute → ∃ elementId el, ph_ElementId e = Some elementId ∧ els !! elementId = Some el).

Definition entry_at (k : string) (e : ProcessHistoryEntry) : Prop :=
  ∃ tid t, hs pid tid t = Some e ∧ k = historyKey pid tid t.

(** The steps of a list of entries carry their keys. *)
Lemma steps_keys ks es :
  entries_ok → Forall2 entry_at ks es → sublist (st_Item <$> omap step_of es) ks.
Proof.
  intros Hok. induction 1 as [|k e ks es (tid & t & He & ->) _ IH]; simpl; [constructor|].
  destruct (Hok _ _ _ He) as (Ht & _ & Hid & _). unfold step_of at 1.
  destruct (ph_Compensating e); [by constructor|]. case_bool_decide as Hj; [|by constructor].
  destruct (ph_ElementId e) as [eid|]; simpl; [|by constructor].
  destruct (els !! eid) as [el|]; simpl; [|by constructor].
  destruct (el_CompensateWith el); simpl; [|by constructor].
  destruct (hs pid _ activityComplete); simpl; [|by constructor].
  rewrite Hid. replace t with jobExecute by congruence. by constructor.
Qed.
End plan.

Section plan_specs.
Context `{EnvOk} (NF : NoFaults) (ctx : Ctx).
Abbreviation ns := (GetNS ctx).

Lemma wp_send_entries hs pid ks w Φ :
  represents w ns hs →
  (∀ k, k ∈ ks → ∃ tid t e, hs pid tid t = Some e ∧ k = historyKey pid tid t) →
  (∀ w' es, w' ≡ w → Forall2 (entry_at hs pid) ks es → Φ w' (Ok (es, []))) →
  wp (send_entries ns ks) w Φ.
Proof.
  revert w Φ. induction ks as [|k ks IH]; intros w Φ Hr Hks HΦ; simpl.
  { wp_steps. by apply HΦ. }
  destruct (Hks k) as (tid & t & e & He & ->); [by left|]. wp_steps.
  apply (wp_LoadObj_some NF _ _ _ (DHistory e) e); [|done|].
  { apply (rep_get _ _ _ Hr). eauto 10. }
  intros w1 Hw1. wp_steps. apply IH; [|set_solver|].
  { split; [apply (rep_ids _ _ _ Hr)|]. intros k d. rewrite Hw1. apply (rep_get _ _ _ Hr). }
  intros w2 es Hw2 Hes. wp_steps. apply HΦ; [by rewrite Hw2|]. constructor; [|done]. by exists tid, t.
Qed.

Lemma wp_GetProcessHistory hs pid w Φ :
  represents w ns hs → id_ok pid → live_history ctx w pid →
  (∀ w' ks es, w' ≡ w → NoDup ks → Forall2 (entry_at hs pid) ks es →
     (∀ k, k ∈ ks ↔ ∃ tid t e, hs pid tid t = Some e ∧ k = historyKey pid tid t) →
     Φ w' (Ok (es, []))) →
  wp (GetProcessHistory ctx pid) w Φ.
Proof.
  intros Hr Hp Hlive HΦ. unfold GetProcessHistory, KeyPrefixSearch. wp_steps. apply wp_nsKVs; [done|].
  intros w0 Hw0 Hkv. wp_steps. unfold kvSubjects. apply wp_nats; [done|]. simpl. wp_steps.
  change (w_kv (w_next w0)) with (w_kv w0). rewrite Hkv.
  set (ks := merge_sort _ _). assert (ks ≡ₚ kv_subjects (w_kv w ns WfHistory) pid) as Hks
    by apply merge_sort_Permutation.
  assert (∀ k, k ∈ ks ↔ ∃ tid t e, hs pid tid t = Some e ∧ k = historyKey pid tid t) as Hin.
  { intros k. rewrite Hks. by apply subjects_spec. }
  eapply (wp_send_entries hs pid).
  { split; [apply (rep_ids _ _ _ Hr)|]. intros k d. rewrite w_next_equiv, Hw0. apply (rep_get _ _ _ Hr). }
  { intros k. apply Hin. }
  intros w1 es Hw1 Hes. eapply HΦ; [by rewrite Hw1, w_next_equiv| |done|done].
  rewrite Hks. apply kv_subjects_nodup.
Qed.

Lemma wp_compensable els hs pid k e w Φ :
  represents w ns hs → id_ok pid → entries_ok els hs pid → entry_at hs pid k e →
  (∀ w', w' ≡ w → Φ w' (Ok (step_of els hs pid e))) → wp (compensable ctx els e) w Φ.
Proof.
  intros Hr Hp Hok (tid & t & He & ->) HΦ. destruct (Hok _ _ _ He) as (Ht & Hpi & Hid & Hpar & Hjob).
  unfold compensable. unfold step_of in HΦ. destruct (ph_Compensating e); [wp_steps; by apply HΦ|].
  case_bool_decide as Hj; simpl; [|wp_steps; by apply HΦ].
  destruct Hjob as (eid & el & Heid & Hel); [congruence|]. rewrite Heid in HΦ. simpl in HΦ.
  rewrite Hel in HΦ. simpl in HΦ. wp_steps. rewrite Heid. wp_steps. rewrite Hel. wp_steps.
  destruct (el_CompensateWith el); simpl in HΦ; [|wp_steps; by apply HΦ].
  wp_steps. rewrite Hpi. wp_steps. apply wp_kvGet; [done|].
  pose proof (rep_lookup _ _ _ pid (TrackingID.ParentID (ph_Id e)) activityComplete Hr Hp Hpar) as Hl.
  destruct (hs pid (TrackingID.ParentID (ph_Id e)) activityComplete) as [c|]; simpl in *.
  - apply w_get_kv_get in Hl as [r ->]. wp_steps. apply HΦ, w_next_equiv.
  - apply w_get_none in Hl as ->. simpl. wp_steps. apply HΦ, w_next_equiv.
Qed.

Lemma wp_collect els hs pid ks es acc w Φ :
  represents w ns hs → id_ok pid → entries_ok els hs pid → Forall2 (entry_at hs pid) ks es →
  (∀ w', w' ≡ w → Φ w' (Ok (acc ++ omap (step_of els hs pid) es))) →
  wp (for_fold es (λ acc entry, s ← compensable ctx els entry; mret (acc ++ option_list s)) acc) w Φ.
Proof.
  intros Hr Hp Hok Hes. revert acc w Φ Hr. induction Hes as [|k e ks es He _ IH]; intros acc w Φ Hr HΦ; simpl.
  { wp_steps. rewrite <-(app_nil_r acc). by apply HΦ. }
  wp_steps. eapply wp_compensable; [done..|]. intros w1 Hw1. wp_steps. apply IH.
  { split; [apply (rep_ids _ _ _ Hr)|]. intros k' d. rewrite Hw1. apply (rep_get _ _ _ Hr). }
  intros w2 Hw2. specialize (HΦ w2). simpl in HΦ.
  destruct (step_of els hs pid e); simpl; rewrite ?app_nil_r, <-?app_assoc; apply HΦ; by rewrite Hw2.
Qed.

Lemma wp_publish_plan subject len i l w Φ :
  (∀ w', w' ≡ w_pubs (imap (λ j v, plan_message ns subject (i + j) len v) l) w → Φ w' (Ok tt)) →
  wp (publish_plan ns subject len i l) w Φ.
Proof.
  revert i w Φ. induction l as [|v l IH]; intros i w Φ HΦ; simpl.
  { wp_steps. apply HΦ. by rewrite w_pubs_nil. }
  wp_steps. apply IH. intros w' Hw'. apply HΦ. rewrite Hw', w_next_equiv, w_pubs_pub. simpl.
  rewrite Nat.add_0_r. apply reflexive_eq. do 2 f_equal. apply imap_ext. intros j x _. simpl.
  by rewrite Nat.add_succ_r.
Qed.
End plan_specs.

(** (C16) Compensation is planned from the history: the plan published has, exactly
    once each, the jobs of the process instance whose element names a compensating
    element and whose activity completed (jobs run by a compensation left out),
    sorted latest first and numbered; then the process goes into compensation. *)
Theorem Compensate_plans_backwards `{EnvOk} ctx cid hs wf pr st w :
  NoFaults → ColdCache → ctx_Correlation ctx = Some cid →
  represents w (GetNS ctx) hs → id_ok (ws_ProcessInstanceId st) →
  live_history ctx w (ws_ProcessInstanceId st) →
  w_get w (GetNS ctx) Wf (ws_WorkflowId st) = Some (DWorkflow wf) →
  wf_Process wf !! ws_ProcessId st = Some pr →
  let els := IndexProcessElements (pr_Elements pr) ∅ in
  entries_ok els hs (ws_ProcessInstanceId st) →
  wp (Compensate ctx st) w (returns (λ w' _, ∃ plan t,
    StronglySorted later plan ∧ NoDup (st_Item <$> plan) ∧
    (∀ s, s ∈ plan ↔ ∃ tid e, hs (ws_ProcessInstanceId st) tid jobExecute = Some e ∧
                              step_of els hs (ws_ProcessInstanceId st) e = Some s) ∧
    w' ≡ published ctx cid messages.WorkflowProcessCompensate (st <| ws_State := compensating |>) t
           (w_pubs (imap (λ i v, plan_message (GetNS ctx) (planSubject ctx (TrackingID.ID (ws_Id st))) i
                                   (length plan) v) plan) w))).
Proof.
  intros NF CC Hcid Hr Hp Hlive Hwf Hpr els Hok. unfold Compensate, process_elements_of. wp_steps.
  apply wp_KvsFor; [done|]. intros w1 Hw1 Hkv1. wp_steps.
  apply (wp_preserves same_kv); [apply same_kv_GetWorkflow|].
  apply (wp_GetWorkflow NF ctx CC _ wf); [by rewrite Hw1|]. intros w2 Hw2 Hkv2. wp_steps. rewrite Hpr. wp_steps.
  fold els. unfold natsConsumer. apply wp_nats; [done|]. cbn [fst snd]. wp_steps.
  match goal with |- wp _ ?w0 _ => set (w3 := w0) end.
  assert (w3 ≡ w) as Hw3.
  { transitivity w2; [by split|]. by rewrite Hw2, Hw1. }
  eapply (wp_GetProcessHistory NF ctx hs); [|done| |].
  { split; [apply (rep_ids _ _ _ Hr)|]. intros k d. rewrite Hw3. apply (rep_get _ _ _ Hr). }
  { intros k. change (w_kv w3) with (w_kv w2). rewrite Hkv2, Hkv1. apply Hlive. }
  intros w4 ks es Hw4 Hnd Hes Hks. wp_steps. unfold compensation_plan. wp_steps. cbn [fst snd].
  eapply (wp_collect NF ctx els hs); [|done|done|done|].
  { split; [apply (rep_ids _ _ _ Hr)|]. intros k d. rewrite Hw4, Hw3. apply (rep_get _ _ _ Hr). }
  intros w5 Hw5. wp_steps. simpl app. set (l := omap _ es). set (plan := merge_sort later l).
  assert (plan ≡ₚ l) as Hl by apply merge_sort_Permutation.
  apply wp_publish_plan; [done|]. intros w6 Hw6. wp_steps.
  eapply (wp_publish NF); [done..|]. intros w7 t Hw7. wp_steps. exists plan, t.
  split; [apply (StronglySorted_merge_sort later)|]. split.
  { rewrite Hl. eapply sublist_NoDup; [exact Hnd|]. by apply steps_keys. }
  split; [|rewrite Hw7; unfold published; by rewrite Hw6, Hw5, Hw4, Hw3].
  intros s. rewrite Hl. unfold l. rewrite list_elem_of_omap. split.
  - intros (e & He & Hs). destruct (list_elem_of_lookup_1 _ _ He) as [i Hi].
    destruct (Forall2_lookup_r _ _ _ _ _ Hes Hi) as (k & _ & tid & t' & Hh & ->).
    destruct (Hok _ _ _ Hh) as (Ht & _). exists tid, e. split; [|done].
    unfold step_of in Hs. destruct (ph_Compensating e); [done|]. case_bool_decide; [|done]. congruence.
  - intros (tid & e & He & Hs). exists e. split; [|done].
    assert (historyKey (ws_ProcessInstanceId st) tid jobExecute ∈ ks) as Hin by (apply Hks; eauto).
    destruct (list_elem_of_lookup_1 _ _ Hin) as [i Hi].
    destruct (Forall2_lookup_l _ _ _ _ _ Hes Hi) as (e' & He' & tid' & t' & Hh & Hk).
    destruct (rep_ids _ _ _ Hr _ _ _ _ He), (rep_ids _ _ _ Hr _ _ _ _ Hh).
    apply historyKey_inj in Hk as (_ & <- & <-); try done.
    assert (e' = e) as -> by congruence. by eapply list_elem_of_lookup_2.
Qed.

(** ** Examples: two paid jobs, the second after the first *)
Definition ex_pay : Element :=
  mkElement "pay" "pay" element.ServiceTask "" "Pay" None (Some "refund") None "" "" "" [] None ∅ ∅ None []
    None None None None false.
Definition ex_refund : Element := ex_element "refund" element.ServiceTask None None.
Definition ex_paying : Process := mkProcess [ex_pay; ex_refund] "P" None.
Definition ex_paying_workflow : Workflow := mkWorkflow "W" {["P" := ex_paying]} [] [] "" None ∅ "".

Definition ex_record (id : list string) (time : Z) (t : ProcessHistoryType) : ProcessHistoryEntry :=
  historyEntry (ex_at "pay" <| ws_Id := id |> <| ws_UnixTimeNano := time |>) t.

Definition ex_paid : list (string * ProcessHistoryType * ProcessHistoryEntry) :=
  [("a1", activityComplete, ex_record ["e"; "p"; "a1"] 6 activityComplete);
   ("j1", jobExecute, ex_record ["e"; "p"; "a1"; "j1"] 5 jobExecute);
   ("a2", activityComplete, ex_record ["e"; "p"; "a2"] 9 activityComplete);
   ("j2", jobExecute, ex_record ["e"; "p"; "a2"; "j2"] 8 jobExecute)].

Definition ex_paid_hist : Hist :=
  foldr (λ x, hist_insert "p" x.1.1 x.1.2 x.2) (λ _ _ _, None) ex_paid.
Definition ex_paid_world : @World sim :=
  foldr (λ x, @w_put sim "default" WfHistory (historyKey "p" x.1.1 x.1.2) (DHistory x.2))
    (@w_put sim "default" Wf "w" (DWorkflow ex_paying_workflow) world_init) ex_paid.

Lemma ex_paid_represents : represents ex_paid_world "default" ex_paid_hist.
Proof.
  unfold ex_paid_world, ex_paid_hist. simpl.
  do 4 (eapply represents_insert; [|reflexivity..]).
  split; [done|]. intros k d. split; [vm_compute; discriminate|]. by intros (? & ? & ? & ? & ? & _).
Qed.

Lemma Compensate_plans_backwards_witness :
  @wp sim _ (Compensate ex_ctx (ex_at "pay")) ex_paid_world (returns (λ w' _, ∃ plan t,
    StronglySorted later plan ∧ NoDup (st_Item <$> plan) ∧
    (∀ s, s ∈ plan ↔ ∃ tid e, ex_paid_hist "p" tid jobExecute = Some e ∧
       step_of (IndexProcessElements (pr_Elements ex_paying) ∅) ex_paid_hist "p" e = Some s) ∧
    w' ≡ published ex_ctx "cid" messages.WorkflowProcessCompensate (ex_at "pay" <| ws_State := compensating |>) t
           (w_pubs (imap (λ i v, plan_message "default" (planSubject ex_ctx "t") i (length plan) v) plan)
              ex_paid_world))).
Proof.
  apply (@Compensate_plans_backwards sim (Sim_ok _ _ _) ex_ctx "cid" ex_paid_hist ex_paying_workflow
    ex_paying (ex_at "pay")).
  - exact sim_NoFaults.
  - exact sim_ColdCache.
  - reflexivity.
  - exact ex_paid_represents.
  - reflexivity.
  - intros k Hk. apply (proj1 (Forall_forall (λ k, is_Some (kv_get
      (@w_kv sim ex_paid_world "default" WfHistory) k)) _)) with (2 := Hk).
    apply (bool_decide_unpack _). vm_compute. exact I.
  - reflexivity.
  - reflexivity.
  - intros tid t e He. unfold ex_paid_hist, hist_insert in He. simpl in He.
    repeat case_decide; simplify_eq; (repeat split; [reflexivity..|]); intros; simplify_eq; by eexists _, _.
Defined.
