(* ===== verification/Activity.v ===== *)
(** * Activities

    The processors of [internal/server/workflow/engine.go]: what happens when a
    traversal reaches an element, when its job completes, when the activity
    completes, when a child workflow is to be launched, and when a start timer
    fires. *)
From S2P Require Import Prelude Model Errors Env Sim Common Wp NatsUtil Vars Publish History Instances TaskSpec Jobs Launch Traverse Gateway Duration Compensate.

(** What a timer handler answers: done, the delay otherwise, and the error. *)
Abbreviation timer_reply := (bool * Z * option error)%type.

Section activity.
Context `{Env}.

(** [engineErr(ctx, msg, err, apErrFields(... el ...))]: the fields of the element
    are read for the log, so a nil element panics here. *)
Definition with_fields {A} (el : option Element) (m : M A) : M A :=
  r ← attempt m;
  match r with
  | inl a => mret a
  | inr err => _ ← deref "el.Id" el; throw (engineErr err)
  end.

(** ** Boundary timers *)

(** When a boundary timer is due: an [int] is nanoseconds from now, a text an
    ISO 8601 duration, any other value is now. *)
Definition boundary_due (res : GoVal) (ut : Z) : M Z :=
  match res with
  | VInt x => mret (ut + x)%Z
  | VString x =>
      dur ← wrapping (Wrap "parse ISO8601 boundary timer value") (lift_res (ParseISO8601 x));
      mret (Shift dur ut)
  | _ => mret ut
  end.

Definition start_boundary_timer (ctx : Ctx) (traversal newState : WorkflowState) (i : Timer) : M unit :=
  now ← timeNow;
  let timerState := CopyWorkflowState newState <| ws_Execute := Some (tm_Target i) |>
    <| ws_UnixTimeNano := now |> <| ws_Timer := Some (mkWorkflowTimer 0 0) |> in
  v ← wrapping (Wrap "decode boundary timer variable") (DecodeVars NewServerVars (ws_Vars traversal));
  res ← wrapping (Wrap "evaluate boundary timer expression") (lift_res (EvalAny (tm_Duration i) v));
  ut ← timeNow;
  due ← boundary_due res ut;
  _ ← wrapping (Wrap "publish timed execute during activity start")
        (PublishWorkflowState ctx (NS messages.WorkflowElementTimedExecute (GetNS ctx)) timerState
           [WithEmbargo (wrap64 due)]);
  mret tt.

(** ** Elements *)
Definition start_service_task (ctx : Ctx) (traversal newState : WorkflowState) (el : Element) : M unit :=
  version ← match el_Version el with
            | Some v => mret v
            | None =>
                r ← attempt (GetTaskSpecUID ctx (el_Execute el));
                match r with
                | inl v => mret v
                | inr err =>
                    if Is err ErrKeyNotFound
                    then throw (Wrap "engine failed to get task spec id" (fatal err))
                    else mret ""
                end
            end;
  let el := el <| el_Version := Some version |> in
  _ ← with_fields (Some el)
        (startJob ctx (messages.WorkflowJobServiceTaskExecute +:+ "." +:+ version) newState el
           (ws_Vars traversal) []);
  mret tt.

Definition start_throw_event (ctx : Ctx) (pi : ProcessInstance) (traversal newState : WorkflowState)
    (el : Element) : M unit :=
  wf ← wrapping (Wrap "get workflow for intermediate throw event") (GetWorkflow ctx (pi_WorkflowId pi));
  if existsb (λ v, bool_decide (el_Name v = el_Execute el)) (wf_Messages wf) then
    _ ← with_fields (Some el)
          (startJob ctx (messages.WorkflowJobSendMessageExecute +:+ "." +:+ pi_WorkflowName pi +:+ "_" +:+
                           el_Execute el) newState el (ws_Vars traversal) []);
    mret tt
  else throw (fatal (New "unknown workflow message name")).

(** The embargo of an intermediate timer. *)
Definition timer_embargo (ret : GoVal) : M Z :=
  match ret with
  | VString em =>
      match Atoi em with
      | Some v => now ← timeNow; mret (wrap64 (v + now))
      | None =>
          pem ← wrapping fatal (lift_res (ParseISO8601 em));
          now ← timeNow;
          mret (wrap64 (Shift pem now))
      end
  | VInt em => now ← timeNow; mret (wrap64 (em + now))
  | _ => throw ErrFatalBadDuration
  end.

Definition start_timer_event (ctx : Ctx) (traversal newState : WorkflowState) (el : Element) :
    M WorkflowState :=
  varmap ← wrapping fatal (DecodeVars NewServerVars (ws_Vars traversal));
  ret ← wrapping fatal (lift_res (EvalAny (el_Execute el) varmap));
  embargo ← timer_embargo ret;
  id ← newId;
  let newState := newState <| ws_Id ::= λ t, TrackingID.Push t id |> in
  newState ← wrapping (Wrap "publish timer task execute job")
    (PublishWorkflowState ctx (NS messages.WorkflowJobTimerTaskExecute (GetNS ctx)) newState []);
  wrapping (Wrap "publish timer task execute complete")
    (PublishWorkflowState ctx (NS messages.WorkflowJobTimerTaskComplete (GetNS ctx)) newState
       [WithEmbargo embargo]).

(** A top-level process ends with its end event. *)
Definition end_status (pi : ProcessInstance) (el : Element) : CancellationState :=
  if bool_decide (default "" (pi_ParentProcessId pi) = "")
  then if bool_decide (el_Errors el = []) then completed else errored
  else executing.

(** The behaviour of one element; the state it leaves the activity in, and the
    status of the process afterwards. *)
Definition start_element_of (ctx : Ctx) (pi : ProcessInstance) (traversal newState : WorkflowState)
    (el : Element) (type : string) : M (WorkflowState * CancellationState) :=
  let job subject := with_fields (Some el) (startJob ctx subject newState el (ws_Vars traversal) []) in
  if bool_decide (type = element.StartEvent) then
    initVars ← wrapping (Wrap "get output vars for start event")
                 (OutputVars (ws_Vars traversal) "" (el_OutputTransform el));
    st ← wrapping (Wrap "start event complete activity")
           (completeActivity ctx (newState <| ws_State := executing |> <| ws_Vars := initVars |>));
    mret (st, executing)
  else if bool_decide (type = element.Gateway) then
    g ← deref "el.Gateway.Direction" (el_Gateway el);
    let st := CopyWorkflowState newState <| ws_State := executing |> in
    _ ← (if bool_decide (gs_Direction g = convergent)
         then wrapping (Wrap "failed to activate gateway")
                (PublishWorkflowState ctx messages.WorkflowJobGatewayTaskActivate st [])
         else wrapping (Wrap "complete activity for exclusive gateway") (completeActivity ctx st));
    mret (newState, executing)
  else if bool_decide (type = element.ServiceTask) then
    _ ← start_service_task ctx traversal newState el; mret (newState, executing)
  else if bool_decide (type = element.UserTask) then
    st ← job messages.WorkflowJobUserTaskExecute; mret (st, executing)
  else if bool_decide (type = element.ManualTask) then
    st ← job messages.WorkflowJobManualTaskExecute; mret (st, executing)
  else if bool_decide (type = element.MessageIntermediateThrowEvent) then
    _ ← start_throw_event ctx pi traversal newState el; mret (newState, executing)
  else if bool_decide (type = element.CallActivity) then
    st ← job (NS messages.WorkflowJobLaunchExecute (GetNS ctx)); mret (st, executing)
  else if bool_decide (type = element.MessageIntermediateCatchEvent) then
    let awaitMsg := CopyWorkflowState newState <| ws_Execute := Some (el_Execute el) |>
      <| ws_Condition := Some (el_Msg el) |> in
    _ ← with_fields (Some el)
          (startJob ctx messages.WorkflowJobAwaitMessageExecute awaitMsg el (ws_Vars awaitMsg) []);
    mret (newState, executing)
  else if bool_decide (type = element.TimerIntermediateCatchEvent) then
    st ← start_timer_event ctx traversal newState el; mret (st, executing)
  else if bool_decide (type = element.EndEvent) then
    let status := end_status pi el in
    st ← wrapping (Wrap "complete activity for end event")
           (completeActivity ctx (newState <| ws_State := status |>));
    mret (st, status)
  else if bool_decide (type = element.CompensateEndEvent) then
    _ ← wrapping (Wrap "initializing compensation") (Compensate ctx newState);
    mret (newState, executing)
  else
    st ← wrapping (Wrap "default complete activity")
           (completeActivity ctx (newState <| ws_State := executing |>));
    mret (st, executing).

(** When the process has ended, its completion is announced with its results. *)
Definition announce_end (ctx : Ctx) (pi : ProcessInstance) (el : Element) (newState : WorkflowState)
    (status : CancellationState) : M unit :=
  if bool_decide (status = completed ∨ status = errored ∨ status = terminated) then
    let newState := newState <| ws_Id := [pi_ProcessInstanceId pi] |> <| ws_State := status |>
      <| ws_Error := el_Error el |> in
    newState ← (if bool_decide (status = completed ∧ el_OutputTransform el ≠ ∅) then
                  finalVars ← wrapping (Wrap "transform output vars")
                    (OutputVars (ws_Vars newState) "" (el_OutputTransform el));
                  mret (newState <| ws_Vars := finalVars |>)
                else mret newState);
    _ ← with_fields (Some el) (PublishWorkflowState ctx messages.WorkflowProcessComplete newState []);
    mret tt
  else mret tt.

Definition activityStartProcessor (ctx : Ctx) (newActivityID : string) (traversal : WorkflowState)
    (traverseOnly : bool) : M unit :=
  r ← attempt (GetProcessInstance ctx (ws_ProcessInstanceId traversal));
  match r with
  | inr err =>
      if Is err ErrProcessInstanceNotFound || Is err ErrKeyNotFound then mret tt
      else throw (engineErr err)
  | inl pi =>
      workflow ← wrapping engineErr (GetWorkflow ctx (pi_WorkflowId pi));
      els ← ElementTable workflow;
      let el := els !! ws_ElementId traversal in
      type ← (if traverseOnly then _ ← deref "el.Type" el; mret (Some "forceTraversal")
              else mret (el_Type <$> el));
      let activityID := TrackingID.Push (TrackingID.Pop (ws_Id traversal)) newActivityID in
      let newState := CopyWorkflowState traversal <| ws_Id := activityID |> in
      newState ← with_fields el (PublishWorkflowState ctx messages.WorkflowActivityExecute newState []);
      _ ← with_fields el (RecordHistoryActivityExecute ctx newState);
      traversal ← with_fields el (PublishWorkflowState ctx messages.WorkflowTraversalComplete traversal []);
      el ← deref "el.BoundaryTimer" el;
      _ ← for_each (el_BoundaryTimer el) (start_boundary_timer ctx traversal newState);
      st ← start_element_of ctx pi traversal newState el (default "" type);
      announce_end ctx pi el st.1 st.2
  end.

(** ** Completed jobs *)
Definition completeJobProcessor (ctx : Ctx) (job : WorkflowState) : M unit :=
  h ← attempt (GetProcessHistoryItem ctx (ws_ProcessInstanceId job)
                 (TrackingID.ParentID (ws_Id job)) activityExecute);
  match h with
  | inr err =>
      if Is err ErrKeyNotFound then mret tt
      else throw (Wrap "get old state for complete job processor" err)
  | inl _ =>
      p ← attempt (GetProcessInstance ctx (ws_ProcessInstanceId job));
      match p with
      | inr err =>
          if Is err ErrProcessInstanceNotFound then mret tt
          else throw (Wrap "get workflow instance for job" err)
      | inl pi =>
          wf ← wrapping engineErr (GetWorkflow ctx (pi_WorkflowId pi));
          els ← ElementTable wf;
          let newID := TrackingID.Pop (ws_Id job) in
          a ← attempt (GetProcessHistoryItem ctx (ws_ProcessInstanceId job) (TrackingID.ID newID)
                         activityExecute);
          match a with
          | inr err =>
              if Is err ErrKeyNotFound then mret tt
              else throw (Wrap "complete job processor failed to get old state" err)
          | inl activityStart =>
              oldState ← workfFlowStateFrom activityStart;
              el ← deref "el.OutputTransform" (els !! ws_ElementId job);
              vars ← wrapping (Wrap "complete job processor failed to transform variables")
                       (OutputVars (ws_Vars job) (ws_Vars oldState) (el_OutputTransform el));
              let st := CopyWorkflowState oldState <| ws_Vars := vars |> <| ws_Id := newID |>
                <| ws_State := ws_State job |> <| ws_ElementId := el_Id el |>
                <| ws_ElementType := el_Type el |> in
              _ ← wrapping (Wrap "complete job processor failed to complete activity")
                    (completeActivity ctx st);
              _ ← wrapping (Wrap "complete job processor failed to record history job complete")
                    (RecordHistoryJobComplete ctx job);
              wrapping (Wrap "complete job processor failed to delete job")
                (DeleteJob ctx (TrackingID.ID (ws_Id job)))
          end
      end
  end.

(** ** Completed activities *)

(** A link throw event leads to the catch event of the same name. *)
Definition link_outbound (els : gmap string Element) (el : Element) : M (option Targets) :=
  if bool_decide (el_Type el = element.LinkIntermediateThrowEvent) then
    l ← range els;
    match list_find (λ e, el_Type e.2 = element.LinkIntermediateCatchEvent ∧ el_Execute e.2 = el_Execute el) l with
    | Some (_, (_, target)) => mret (Some (mkTargets [mkTarget "" [] (el_Id target)] 0))
    | None => throw (fatal (New "corresponding catch not found"))
    end
  else mret (el_Outbound el).

(** [err != nil && !errors.Is(err, ErrKeyNotFound)] *)
Definition unless_missing (msg : string) (m : M unit) : M unit :=
  r ← attempt m;
  match r with
  | inl _ => mret tt
  | inr err => if Is err ErrKeyNotFound then mret tt else throw (Wrap msg err)
  end.

(** The end of a child process completes the job of its parent.  [j] and
    [execution] are nil where they were not found; a nil state is published
    again at the end. *)
Definition complete_parent (ctx : Ctx) (state : WorkflowState) (pi : option ProcessInstance) (jobID : string) :
    M unit :=
  r ← attempt (GetJob ctx jobID);
  j ← match r with
      | inl j => mret (Some j)
      | inr err =>
          if Is err ErrJobNotFound then mret None
          else throw (Wrap "activity complete processor failed to get job" err)
      end;
  j ← match j with
      | Some j =>
          j ← wrapping (Wrap "activity complete processor failed to publish job launch complete")
                (PublishWorkflowState ctx messages.WorkflowJobLaunchComplete
                   (j <| ws_Vars := ws_Vars state |> <| ws_Error := ws_Error state |>) []);
          mret (Some j)
      | None => mret None
      end;
  _ ← unless_missing "activity complete processor failed to delete job" (DeleteJob ctx jobID);
  e ← attempt (GetExecution ctx (ws_ExecutionId state));
  execution ← match e with
              | inl e => mret (Some e)
              | inr err =>
                  if Is err ErrKeyNotFound then mret None
                  else throw (New "activity complete processor failed to get execution")
              end;
  _ ← match pi with
      | Some pi =>
          ex ← deref "execution.ExecutionId" execution;
          unless_missing "activity complete processor failed to destroy execution"
            (destroyProcessInstance ctx state (pi_ProcessInstanceId pi) (ex_ExecutionId ex))
      | None => mret tt
      end;
  j ← deref "state.UnixTimeNano of nil" j;
  _ ← wrapping (Wrap "activity complete processor failed to publish job launch complete")
        (PublishWorkflowState ctx messages.WorkflowJobLaunchComplete j []);
  mret tt.

(** A fatal error of the traversal is logged and ends the handler. *)
Definition activityCompleteProcessor (ctx : Ctx) (state : WorkflowState) : M unit :=
  h ← attempt (GetProcessHistoryItem ctx (ws_ProcessInstanceId state) (TrackingID.ID (ws_Id state))
                 activityExecute);
  stop ← match h with
         | inr err =>
             if Is err ErrKeyNotFound then mret false
             else throw (Wrap "activity complete processor failed to get old state" err)
         | inl old =>
             c ← deref "old.CancellationState" (ph_CancellationState old);
             mret (bool_decide (c = obsolete ∧ ws_State state = obsolete))
         end;
  if (stop : bool) then mret tt
  else
    p ← attempt (GetProcessInstance ctx (ws_ProcessInstanceId state));
    pi ← match p with
         | inl pi => mret (Some pi)
         | inr err =>
             if Is err ErrProcessInstanceNotFound then mret None
             else throw (Wrap "activity complete processor failed to get process instance" err)
         end;
    wf ← wrapping (Wrap "activity complete processor failed to get workflow")
           (GetWorkflow ctx (ws_WorkflowId state));
    els ← ElementTable wf;
    el ← deref "el.Type" (els !! ws_ElementId state);
    outbound ← link_outbound els el;
    t ← match pi with
        | None => mret (inl state)
        | Some _ =>
            attempt (traverse ctx (TrackingID.Pop (ws_Id state)) outbound
                       (<[ws_ElementId state := el <| el_Outbound := outbound |>]> els) state)
        end;
    match t with
    | inr err =>
        if IsWorkflowFatal err then mret tt
        else throw (Wrap "activity complete processor traversal attempt" err)
    | inl state =>
        if bool_decide ((ws_ElementType state = element.EndEvent ∨
                         ws_ElementType state = element.CompensateEndEvent) ∧ 2 < length (ws_Id state)) then
          let jobID := TrackingID.Ancestor (ws_Id state) 2 in
          if bool_decide (jobID = ws_ExecutionId state) then mret tt
          else complete_parent ctx state pi jobID
        else mret tt
    end.

(** ** Child workflows *)
Definition launchProcessor (ctx : Ctx) (state : WorkflowState) : M unit :=
  wf ← wrapping (λ _, fatal (Sentinel ErrWorkflowNotFound)) (GetWorkflow ctx (ws_WorkflowId state));
  els ← ElementTable wf;
  pi ← wrapping (Wrap "get process instance") (GetProcessInstance ctx (ws_ProcessInstanceId state));
  el ← deref "els[state.ElementId]" (els !! ws_ElementId state);
  _ ← wrapping (λ err, engineErr (fatal err))
        (LaunchWithParent ctx (el_Execute el) (ws_Id state) (ws_Vars state) (pi_Headers pi)
           (ws_ProcessInstanceId state) (ws_ElementId state));
  mret tt.

(** ** Start timers *)

(** Whether the timer of a start event is due; [None] when a repeating timer has
    run out.  [due] is Go's [shouldFire]. *)
Definition timer_due (t : WorkflowTimerDefinition) (now lastFired count : Z) : option bool :=
  match wtd_Type t with
  | fixed => Some (bool_decide (wtd_Value t ≤ now)%Z)
  | duration =>
      if bool_decide (wtd_Repeat t ≠ 0%Z ∧ wtd_Repeat t ≤ count)%Z then None
      else Some (bool_decide (wtd_Value t ≤ wrap64 (now - lastFired))%Z)
  end.

(** [if err := m; err != nil { return ack, delay, g(err) }]; the errors some
    calls meet are logged only ([g err] is nil). *)
Definition or_later {A} (r : error → timer_reply) (m : M A) (k : A → M timer_reply) : M timer_reply :=
  x ← attempt m;
  match x with inl a => k a | inr err => mret (r err) end.

Definition failed (msg : string) (err : error) : timer_reply := (false, 0%Z, Some (Wrap msg err)).
Definition dropped (delay : Z) (_ : error) : timer_reply := (false, delay, None).

(** A due timer starts an execution at the element after the start event and
    puts the timer back. *)
Definition fire_timer (ctx : Ctx) (wf : Workflow) (els : gmap string Element) (el : Element)
    (state newTimer : WorkflowState) (fireNext : Z) : M timer_reply :=
  or_later (failed "creating timed workflow instance")
    (createExecution ctx (mkExecution "" (ws_WorkflowId state) (ws_WorkflowName state) [])) (λ exec,
  or_later (failed "creating timed workflow instance")
    (createProcessInstance ctx (ex_ExecutionId exec) "" "" (ws_ProcessId state) (wf_Name wf)
       (ws_WorkflowId state) (wf_AutoLaunchHeaders wf)) (λ pi,
  let state := state <| ws_ExecutionId := pi_ExecutionId pi |>
                     <| ws_ProcessInstanceId := pi_ProcessInstanceId pi |> in
  let processWfState := state <| ws_Id :=
    TrackingID.Push (TrackingID.Push [] (ws_ExecutionId state)) (ws_ProcessInstanceId state) |> in
  or_later (dropped 0)
    (PublishWorkflowState ctx messages.WorkflowProcessExecute processWfState []) (λ processWfState,
  or_later (failed "publish initial traversal") (RecordHistoryProcessStart ctx processWfState) (λ _,
  or_later (dropped 0)
    (OutputVars (ws_Vars newTimer) (ws_Vars newTimer) (el_OutputTransform el)) (λ vars,
  id ← newId;
  or_later (dropped 0) (traverse ctx [id] (el_Outbound el) els state) (λ _,
  or_later (dropped fireNext)
    (PublishWorkflowState ctx messages.WorkflowTimedExecute (newTimer <| ws_Vars := vars |>) []) (λ _,
  mret (true, 0%Z, None)))))))).

Definition timedExecuteProcessor (ctx : Ctx) (state : WorkflowState) : M timer_reply :=
  or_later (λ err, (true, 0%Z, Some (Wrap "get timer proto workflow" err)))
    (GetWorkflow ctx (ws_WorkflowId state)) (λ wf,
  els ← ElementTable wf;
  now ← timeNow;
  timer ← deref "state.Timer" (ws_Timer state);
  el ← deref "el.Timer" (els !! ws_ElementId state);
  t ← deref "el.Timer.Repeat" (el_Timer el);
  let fireNext := wrap64 (wt_LastFired timer + wrap64 (wtd_Value t * 2)) in
  let newTimer := state <| ws_Timer := Some (mkWorkflowTimer now (wrap64 (wt_Count timer + 1))) |> in
  match timer_due t now (wt_LastFired timer) (wt_Count timer) with
  | None => mret (true, 0%Z, None)
  | Some true => fire_timer ctx wf els el state newTimer fireNext
  | Some false =>
      if bool_decide (wtd_Type t = duration) then mret (false, wrap64 (fireNext - now), None)
      else mret (true, 0%Z, None)
  end).
End activity.

(** ** Effects *)
Section activity_pure_effects.
Context `{EnvOk} (ctx : Ctx) (T : Cells) (P : Msg → Prop).

Lemma eff_with_fields {A} el (m : M A) :
  preserves (effect T P) m → preserves (effect T P) (with_fields el m).
Proof. intros. unfold with_fields. preserves_tac. Qed.
Lemma eff_unless_missing msg m : preserves (effect T P) m → preserves (effect T P) (unless_missing msg m).
Proof. intros. unfold unless_missing. preserves_tac. Qed.
Lemma eff_or_later {A} r (m : M A) k :
  preserves (effect T P) m → (∀ a, preserves (effect T P) (k a)) →
  preserves (effect T P) (or_later r m k).
Proof. intros. unfold or_later. preserves_tac. Qed.
Lemma eff_boundary_due v ut : preserves (effect T P) (boundary_due v ut).
Proof. unfold boundary_due. preserves_tac. Qed.
Lemma eff_timer_embargo v : preserves (effect T P) (timer_embargo v).
Proof. unfold timer_embargo. preserves_tac. Qed.
Lemma eff_link_outbound els el : preserves (effect T P) (link_outbound els el).
Proof. unfold link_outbound. preserves_tac. Qed.
End activity_pure_effects.

Ltac later_tac :=
  repeat lazymatch goal with
    | |- preserves _ (or_later _ _ _) => apply eff_or_later; [|intros ?]
    | _ => progress preserves_tac
    end.

#[export] Hint Resolve eff_with_fields eff_unless_missing eff_boundary_due eff_timer_embargo
  eff_link_outbound : preserves.

Section activity_effects.
Context `{EnvOk} (ctx : Ctx) (T : Cells) `{!Lesser ctx T}.
Abbreviation within := (effect T (msg_ns (GetNS ctx))).

Lemma eff_start_boundary_timer t n i : preserves within (start_boundary_timer ctx t n i).
Proof. unfold start_boundary_timer. preserves_tac. Qed.
Lemma eff_start_service_task t n el : preserves within (start_service_task ctx t n el).
Proof. unfold start_service_task. preserves_tac. Qed.
Lemma eff_start_throw_event pi t n el : preserves within (start_throw_event ctx pi t n el).
Proof. unfold start_throw_event. preserves_tac. Qed.
Lemma eff_start_timer_event t n el : preserves within (start_timer_event ctx t n el).
Proof. unfold start_timer_event. preserves_tac. Qed.
#[local] Hint Resolve eff_start_boundary_timer eff_start_service_task eff_start_throw_event
  eff_start_timer_event : preserves.
Lemma eff_start_element_of pi t n el ty : preserves within (start_element_of ctx pi t n el ty).
Proof. unfold start_element_of. preserves_tac. Qed.
Lemma eff_announce_end pi el n st : preserves within (announce_end ctx pi el n st).
Proof. unfold announce_end. preserves_tac. Qed.
#[local] Hint Resolve eff_start_element_of eff_announce_end : preserves.
Lemma eff_activityStartProcessor id t b : preserves within (activityStartProcessor ctx id t b).
Proof. unfold activityStartProcessor. preserves_tac. Qed.
Lemma eff_completeJobProcessor job : preserves within (completeJobProcessor ctx job).
Proof. unfold completeJobProcessor. preserves_tac. Qed.
End activity_effects.

Section activity_record_effects.
Context `{EnvOk} (ctx : Ctx).

Lemma eff_complete_parent st pi j : preserves (iso ctx) (complete_parent ctx st pi j).
Proof. unfold complete_parent. preserves_tac. Qed.
#[local] Hint Resolve eff_complete_parent : preserves.
Lemma eff_activityCompleteProcessor st : preserves (iso ctx) (activityCompleteProcessor ctx st).
Proof. unfold activityCompleteProcessor. preserves_tac. Qed.
Lemma eff_launchProcessor st : preserves (iso ctx) (launchProcessor ctx st).
Proof. unfold launchProcessor. preserves_tac. Qed.
Lemma eff_fire_timer wf els el st nt f : preserves (iso ctx) (fire_timer ctx wf els el st nt f).
Proof. unfold fire_timer. later_tac. Qed.
#[local] Hint Resolve eff_fire_timer : preserves.
Lemma eff_timedExecuteProcessor st : preserves (iso ctx) (timedExecuteProcessor ctx st).
Proof. unfold timedExecuteProcessor. later_tac. Qed.
End activity_record_effects.

#[export] Hint Resolve eff_activityStartProcessor eff_completeJobProcessor
  eff_activityCompleteProcessor eff_launchProcessor eff_timedExecuteProcessor : preserves.
