(* ===== verification/Process.v ===== *)
(** * The message loop

    [Process] of [common/natsutil.go]: what every consumer of the engine does
    with one message before and after its handler.  The namespace of a message
    is its header; the handler runs in a context made from the headers; its
    reply becomes the answer to the server. *)
From S2P Require Import Prelude Model Errors Env Sim Common Wp NatsUtil Vars Publish History Instances Jobs Launch Traverse Gateway Duration.

(** What the server is told about a message.  One that is not answered is
    delivered again after the consumer's acknowledgement timeout, one that is
    terminated never again. *)
Inductive answer :=
  | Ack
  | Nak
  | NakWithDelay (offset : Z)
  | Term
  | Unanswered.

#[export] Instance answer_eq_dec : EqDecision answer.
Proof. solve_decision. Defined.

Section process.
Context `{Env}.

(** [m.Headers().Get(k)] *)
Definition HeaderGet (m : Msg) (k : string) : string := default "" (msg_Header m !! k).

(** The embargo of a message: how long it still has to wait. *)
Definition embargo_left (embargo now : Z) : Z := wrap64 (embargo - now).

(** [header.Copy] of what the headers gave, in the namespace of the message.
    The receive middleware of the engine adds tracing values only. *)
Definition executeCtx (ctx : Ctx) (m : Msg) : Ctx :=
  SetNS (header.FromMsgHeaderToCtx ctx (msg_Header m)) (HeaderGet m header.SharNamespace).

(** The reply of the handler as an answer.  [backoff] answers the message
    itself and its error is only logged; the error of a handler that is looked
    for is the struct [workflow.Error], not a pointer to it. *)
Definition settle (ctx : Ctx) (m : Msg) (signalFatalErrFn : option (Ctx → WorkflowState → M unit))
    (backoff : option (Ctx → Msg → M (answer * option error))) (r : reply) : M answer :=
  let ack := if r.1 then Ack else Nak in
  match r.2 with
  | None => mret ack
  | Some err =>
      match AsWorkflowFatal err with
      | Some (_, st) =>
          _ ← match signalFatalErrFn, st with
              | Some signal, Some st => signal ctx st
              | _, _ => mret tt
              end;
          mret Ack
      | None =>
          match AsWorkflowError_value err, backoff with
          | None, Some backoff => r ← backoff ctx m; mret r.1
          | _, _ => mret ack
          end
      end
  end.

Definition handle_message (ctx : Ctx) (fn : Ctx → Msg → M reply)
    (signalFatalErrFn : option (Ctx → WorkflowState → M unit)) (backoff : option (Ctx → Msg → M (answer * option error)))
    (m : Msg) : M answer :=
  let ctx := executeCtx ctx m in
  r ← fn ctx m;
  settle ctx m signalFatalErrFn backoff r.

(** The body of the loop. *)
Definition process_message (ctx : Ctx) (fn : Ctx → Msg → M reply)
    (signalFatalErrFn : option (Ctx → WorkflowState → M unit)) (backoff : option (Ctx → Msg → M (answer * option error)))
    (m : Msg) : M answer :=
  if bool_decide (HeaderGet m header.SharNamespace = "") then mret Ack
  else
    let embargo := HeaderGet m "embargo" in
    if bool_decide (embargo ≠ "" ∧ embargo ≠ "0") then
      match Atoi embargo with
      | None => mret Unanswered
      | Some e =>
          now ← timeNow;
          let offset := embargo_left e now in
          if bool_decide (0 < offset)%Z then mret (NakWithDelay offset)
          else handle_message ctx fn signalFatalErrFn backoff m
      end
    else handle_message ctx fn signalFatalErrFn backoff m.
End process.

(** ** Effects *)
Section process_effects.
Context `{EnvOk}.

(** A consumer whose handler keeps to the namespace of its context keeps to the
    namespace in the header of the message. *)
Lemma eff_process_message T P ctx fn signal backoff m :
  preserves (effect T P) (fn (executeCtx ctx m) m) →
  (∀ f st, signal = Some f → preserves (effect T P) (f (executeCtx ctx m) st)) →
  (∀ f, backoff = Some f → preserves (effect T P) (f (executeCtx ctx m) m)) →
  preserves (effect T P) (process_message ctx fn signal backoff m).
Proof.
  intros Hfn Hs Hb. assert (preserves (effect T P) (handle_message ctx fn signal backoff m)).
  { unfold handle_message, settle. preserves_tac; eauto. }
  unfold process_message. preserves_tac.
Qed.
End process_effects.
