(* ===== verification/Handlers.v ===== *)
(** * The consumers of the engine

    The handlers that [Start] of [internal/server/workflow/engine.go] attaches
    to the message loop, apart from those of gateways, messages and
    compensation, which are with their components. *)
From S2P Require Import Prelude Model Errors Env Sim Common Wp NatsUtil Vars Publish History Instances TaskSpec Jobs Launch Traverse Gateway Duration Messages Compensate Activity Process.

Section handlers.
Context `{Env}.

Definition processTraversals (ctx : Ctx) (msg : Msg) : M reply :=
  or_unmarshal "unmarshal traversal proto" (msg_Data msg) (λ traversal : WorkflowState,
  with_process ctx traversal false (λ _ _,
    activityID ← newId;
    r ← attempt (activityStartProcessor ctx activityID traversal false);
    match r with
    | inl _ => mret (true, None)
    | inr err =>
        if IsWorkflowFatal err then mret (true, None)
        else mret (false, Some (Wrap "process event" err))
    end)).

(** The tracking store keeps the last state of an execution that is under way. *)
Definition is_execute_event (sj : string) : bool :=
  HasSuffix sj messages.StateExecutionExecute || HasSuffix sj messages.StateProcessExecute ||
  HasSuffix sj messages.StateTraversalExecute || HasSuffix sj messages.StateActivityExecute ||
  Contains sj messages.StateJobExecute.

Definition is_complete_event (sj : string) : bool :=
  HasSuffix sj messages.StateExecutionComplete || HasSuffix sj messages.StateProcessComplete ||
  HasSuffix sj messages.StateTraversalComplete || HasSuffix sj messages.StateActivityComplete ||
  Contains sj messages.StateJobComplete.

Definition track (ctx : Ctx) (msg : Msg) : M reply :=
  or_return false (nsKVs ctx) (λ _,
  let sj := msg_Subject msg in
  if is_execute_event sj then
    or_unmarshal "unmarshal failed during tracking 'execute' event" (msg_Data msg) (λ st : WorkflowState,
    or_return false (wrapping (Wrap "save tracking information")
                       (SaveObj (GetNS ctx) WfTracking (ws_ExecutionId st) st)) (λ _,
    mret (true, None)))
  else if is_complete_event sj then
    or_unmarshal "unmarshall failed during tracking 'complete' event" (msg_Data msg) (λ st : WorkflowState,
    or_return false (wrapping (Wrap "delete workflow instance upon completion")
                       (kvDelete (GetNS ctx) WfTracking (ws_ExecutionId st))) (λ _,
    mret (true, None)))
  else mret (true, None)).

Definition processCompletedJobs (ctx : Ctx) (msg : Msg) : M reply :=
  or_unmarshal "unmarshal completed job state" (msg_Data msg) (λ job : WorkflowState,
  with_process ctx job false (λ _ _,
    if bool_decide (ws_State job ≠ compensating)
    then or_return false (completeJobProcessor ctx job) (λ _, mret (true, None))
    else or_return false (wrapping (Wrap "complete compensation") (compensationJobComplete ctx job))
           (λ _, mret (true, None)))).

Definition processWorkflowEvents (ctx : Ctx) (msg : Msg) : M reply :=
  or_unmarshal "load workflow state processing workflow event" (msg_Data msg) (λ job : WorkflowState,
  if HasSuffix (msg_Subject msg) messages.StateExecutionComplete then
    r ← attempt (hasValidExecution ctx (ws_ExecutionId job));
    match r with
    | inr err => if missing_process err then mret (true, None) else mret (false, Some err)
    | inl _ =>
        or_return false (wrapping (Wrap "destroy process instance whilst processing workflow events")
                           (xDestroyProcessInstance ctx job)) (λ _, mret (true, None))
    end
  else mret (true, None)).

Definition processActivities (ctx : Ctx) (msg : Msg) : M reply :=
  if HasSuffix (msg_Subject msg) messages.StateActivityExecute then mret (true, None)
  else if HasSuffix (msg_Subject msg) messages.StateActivityComplete then
    or_unmarshal "unmarshal state activity complete" (msg_Data msg) (λ activity : WorkflowState,
    or_return false (activityCompleteProcessor ctx activity) (λ _, mret (true, None)))
  else mret (true, None).

Definition processLaunch (ctx : Ctx) (msg : Msg) : M reply :=
  or_unmarshal "unmarshal during process launch" (msg_Data msg) (λ job : WorkflowState,
  with_process ctx job true (λ _ _,
    or_return false (wrapping (Wrap "execute launch function") (launchProcessor ctx job))
      (λ _, mret (true, None)))).

(** ** Aborts *)
Definition deleteJob (ctx : Ctx) (state : WorkflowState) : M unit :=
  _ ← unless_missing "delete job" (DeleteJob ctx (TrackingID.ID (ws_Id state)));
  r ← attempt (GetProcessHistoryItem ctx (ws_ProcessInstanceId state)
                 (TrackingID.ID (TrackingID.Pop (ws_Id state))) activityExecute);
  match r with
  | inr err =>
      if Is err ErrKeyNotFound then throw (Wrap "fetch old state during delete job" err) else mret tt
  | inl activityStart =>
      activityState ← workfFlowStateFrom activityStart;
      _ ← wrapping (Wrap "publish activity abort during delete job")
            (PublishWorkflowState ctx (NS messages.WorkflowActivityAbort (GetNS ctx)) activityState []);
      mret tt
  end.

Definition processJobAbort (ctx : Ctx) (msg : Msg) : M reply :=
  or_unmarshal "job abort consumer failed to unmarshal state" (msg_Data msg) (λ state : WorkflowState,
  with_process ctx state true (λ _ _,
    if Contains (msg_Subject msg) messages.StateJobAbortServiceTask ||
       Contains (msg_Subject msg) messages.StateJobAbortGateway then
      or_return false (wrapping (Wrap "delete job during service task abort") (deleteJob ctx state)) (λ _,
      or_return true (wrapping (Wrap "complete job processor failed to record history job complete")
                        (RecordHistoryJobComplete ctx state)) (λ _,
      mret (true, None)))
    else mret (true, None))).

Definition processGeneralAbort (ctx : Ctx) (msg : Msg) : M reply :=
  or_unmarshal "unmarshal during general abort processor" (msg_Data msg) (λ state : WorkflowState,
  if HasSuffix (msg_Subject msg) messages.StateExecutionAbort then
    or_return false (wrapping (Wrap "delete process instance during general abort processor")
                       (xDestroyProcessInstance ctx state)) (λ _, mret (true, None))
  else mret (true, None)).

(** ** The end of a process *)
Definition processProcessComplete (ctx : Ctx) (msg : Msg) : M reply :=
  or_unmarshal "unmarshal during general abort processor" (msg_Data msg) (λ state : WorkflowState,
  with_process ctx state true (λ pi execution,
    or_return false (wrapping (Wrap "delete prcess")
      (destroyProcessInstance ctx (state <| ws_State := completed |>) (pi_ProcessInstanceId pi)
         (ex_ExecutionId execution))) (λ _, mret (true, None)))).

(** The message an entry of a finished process is archived with. *)
Definition archive_message (k : string) (d : Data) : Msg :=
  mkMsg messages.WorkflowSystemHistoryArchive {["KEY" := k]} d.

(** Keys come with those of deleted entries. *)
Definition archive_entry (ctx : Ctx) (k : string) : M unit :=
  item ← wrapping (Wrap "get workflow history item") (kvGet (GetNS ctx) WfHistory k);
  _ ← wrapping (Wrap "publish workflow history archive item") (natsPublish (archive_message k item.1));
  delete_ignoring "delete key" (GetNS ctx) WfHistory k.

Definition deleteProcessHistory (ctx : Ctx) (processId : string) : M unit :=
  _ ← nsKVs ctx;
  ks ← wrapping (Wrap "keyPrefixSearch")
         (KeyPrefixSearch (GetNS ctx) WfHistory processId (mkKeyPrefixResultOpts false false));
  for_each ks (archive_entry ctx).

Definition processProcessTerminate (ctx : Ctx) (msg : Msg) : M reply :=
  or_unmarshal "unmarshal during general abort processor" (msg_Data msg) (λ state : WorkflowState,
  r ← attempt (deleteProcessHistory ctx (ws_ProcessInstanceId state));
  match r with
  | inl _ => mret (true, None)
  | inr err =>
      if Is err ErrKeyNotFound then mret (true, None)
      else mret (false, Some (Wrap "delete process history" err))
  end).

(** ** Fatal errors *)

Definition processFatalError (ctx : Ctx) (msg : Msg) : M reply :=
  or_unmarshal "unmarshal during fatal error processor" (msg_Data msg) (λ fatalErr : FatalError,
  match fe_HandlingStrategy fatalErr with
  | TearDown =>
      or_return false (tearDownWorkflow ctx (fe_WorkflowState fatalErr)) (λ _, mret (true, None))
  | Pause => or_return false (PersistFatalError ctx fatalErr) (λ _, mret (true, None))
  end).

Definition processJobRetry (ctx : Ctx) (msg : Msg) : M reply :=
  or_unmarshal "unmarshal during fatal error processor" (msg_Data msg) (λ state : WorkflowState,
  or_return false (wrapping (Wrap "job retry old service task abort failed to publish workflow state")
    (PublishWorkflowState ctx (NS messages.WorkflowJobServiceTaskAbort (GetNS ctx)) state [])) (λ state,
  let retryWs := state <| ws_Id ::= TrackingID.Pop |> in
  or_return false (wrapping (Wrap "job retry failed to publish workflow state")
    (PublishWorkflowState ctx (NS messages.WorkflowTraversalExecute (GetNS ctx)) retryWs [])) (λ _,
  or_return false (wrapping (Wrap "job retry failed to delete fatal err") (DeleteFatalError ctx state))
    (λ _, mret (true, None))))).
End handlers.

(** ** Effects *)

(** Archived history goes to a subject all namespaces share, without a header. *)
Definition archive_or_ns (ns : string) (m : Msg) : Prop :=
  msg_ns ns m ∨ ∃ k d, m = archive_message k d.

Section handler_effects.
Context `{EnvOk} (ctx : Ctx) (T : Cells) `{!Lesser ctx T}.
Abbreviation within := (effect T (msg_ns (GetNS ctx))).

Lemma eff_processTraversals m : preserves within (processTraversals ctx m).
Proof. unfold processTraversals. reply_tac. Qed.
Lemma eff_track m : preserves within (track ctx m).
Proof. unfold track. reply_tac. Qed.
Lemma eff_processCompletedJobs m : preserves within (processCompletedJobs ctx m).
Proof. unfold processCompletedJobs. reply_tac. Qed.
Lemma eff_deleteJob st : preserves within (deleteJob ctx st).
Proof. unfold deleteJob. preserves_tac. Qed.
#[local] Hint Resolve eff_deleteJob : preserves.
Lemma eff_processJobAbort m : preserves within (processJobAbort ctx m).
Proof. unfold processJobAbort. reply_tac. Qed.
Lemma eff_processJobRetry m : preserves within (processJobRetry ctx m).
Proof. unfold processJobRetry. reply_tac. Qed.
Lemma eff_deleteProcessHistory id :
  preserves (effect T (archive_or_ns (GetNS ctx))) (deleteProcessHistory ctx id).
Proof.
  unfold deleteProcessHistory, archive_entry, delete_ignoring. preserves_tac.
  apply eff_natsPublish. right. eauto.
Qed.
Lemma eff_processProcessTerminate m :
  preserves (effect T (archive_or_ns (GetNS ctx))) (processProcessTerminate ctx m).
Proof. unfold processProcessTerminate. pose proof eff_deleteProcessHistory. reply_tac. Qed.
End handler_effects.

Section record_handler_effects.
Context `{EnvOk} (ctx : Ctx).

Lemma eff_processWorkflowEvents m : preserves (iso ctx) (processWorkflowEvents ctx m).
Proof. unfold processWorkflowEvents. reply_tac. Qed.
Lemma eff_processActivities m : preserves (iso ctx) (processActivities ctx m).
Proof. unfold processActivities. reply_tac. Qed.
Lemma eff_processLaunch m : preserves (iso ctx) (processLaunch ctx m).
Proof. unfold processLaunch. reply_tac. Qed.
Lemma eff_processGeneralAbort m : preserves (iso ctx) (processGeneralAbort ctx m).
Proof. unfold processGeneralAbort. reply_tac. Qed.
Lemma eff_processProcessComplete m : preserves (iso ctx) (processProcessComplete ctx m).
Proof. unfold processProcessComplete. reply_tac. Qed.
Lemma eff_processFatalError m : preserves (iso ctx) (processFatalError ctx m).
Proof. unfold processFatalError. reply_tac. Qed.
End record_handler_effects.

#[export] Hint Resolve eff_processTraversals eff_track eff_processCompletedJobs eff_processJobAbort
  eff_processJobRetry eff_processProcessTerminate eff_processWorkflowEvents eff_processActivities
  eff_processLaunch eff_processGeneralAbort eff_processProcessComplete eff_processFatalError : preserves.
