(* ===== verification/Archive.v ===== *)
(** * The end of a process instance's history

    What [processProcessTerminate] and [deleteProcessHistory] of
    [internal/server/workflow/engine.go] do to the history table: every entry
    of the process instance is archived once and deleted, the entries of other
    instances stay.  The search for keys also returns deleted ones, and the
    first of those ends the work. *)
From S2P Require Import Prelude Model Errors Env Sim Common Wp NatsUtil Vars Publish History Instances TaskSpec Jobs Launch Traverse Gateway Duration Messages Compensate Activity Process Handlers.

(** The table without a process instance. *)
Definition hist_drop (pid : string) (hs : Hist) : Hist :=
  λ pid' tid t, if decide (pid' = pid) then None else hs pid' tid t.

Section archive.
Context `{EnvOk} (NF : NoFaults) (ctx : Ctx).
Abbreviation ns := (GetNS ctx).

(** The archive messages of some keys. *)
Definition archived (w : World) (ks : list string) : list Msg :=
  omap (λ k, archive_message k <$> w_get w ns WfHistory k) ks.

Lemma archived_cons w k ks :
  archived w (k :: ks) = option_list (archive_message k <$> w_get w ns WfHistory k) ++ archived w ks.
Proof. unfold archived. simpl. by destruct (w_get _ _ _ _). Qed.

Lemma archived_ext w w' ks :
  (∀ k, k ∈ ks → w_get w ns WfHistory k = w_get w' ns WfHistory k) → archived w ks = archived w' ks.
Proof.
  induction ks as [|k ks IH]; intros Hw; [done|]. rewrite !archived_cons, Hw by (by left).
  rewrite IH; [done|]. intros k' Hk'. apply Hw. by right.
Qed.

Definition without (ks : list string) (w w' : World) : Prop :=
  ∀ ns' b k, w_get w' ns' b k =
    if decide (ns' = ns ∧ b = WfHistory ∧ k ∈ ks) then None else w_get w ns' b k.

Lemma wp_archive_entry k d w Φ :
  w_get w ns WfHistory k = Some d →
  (∀ w', w' ≡ w_pub (archive_message k d) (w_del ns WfHistory k w) → Φ w' (Ok tt)) →
  wp (archive_entry ctx k) w Φ.
Proof.
  intros (r & Hg)%w_get_kv_get HΦ. unfold archive_entry, delete_ignoring. wp_steps.
  apply wp_kvGet; [done|]. rewrite Hg. wp_steps. apply HΦ. cbn [fst].
  rewrite !w_next_equiv. split; [|done]. intros ns' b' k'.
  by rewrite w_get_pub, !w_get_del, w_get_pub.
Qed.

Lemma wp_archive_entries ks w Φ :
  NoDup ks → (∀ k, k ∈ ks → is_Some (w_get w ns WfHistory k)) →
  (∀ w', without ks w w' → w_out w' = w_out w ++ archived w ks → Φ w' (Ok tt)) →
  wp (for_each ks (archive_entry ctx)) w Φ.
Proof.
  revert w Φ. induction ks as [|k ks IH]; intros w Φ Hnd Hlive HΦ; simpl.
  { wp_steps. apply HΦ; [|by rewrite app_nil_r]. intros ns' b' k'. by case_decide; set_solver. }
  apply NoDup_cons in Hnd as [Hk Hnd]. destruct (Hlive k) as [d Hd]; [by left|].
  wp_steps. eapply wp_archive_entry; [done|]. intros w1 Hw1. cbv beta iota.
  assert (∀ k', k' ∈ ks → w_get w1 ns WfHistory k' = w_get w ns WfHistory k') as Hsame.
  { intros k' Hk'. by rewrite Hw1, w_get_pub, w_get_del_ne by (intros [= ->]; done). }
  apply IH; [done| |].
  { intros k' Hk'. rewrite Hsame by done. apply Hlive. by right. }
  intros w2 Hw2 Ho. apply HΦ.
  - intros ns' b' k'. pose proof (w_get_proper _ _ Hw1 ns' _ eq_refl b' _ eq_refl k' _ eq_refl) as Hg.
    rewrite w_get_pub, w_get_del in Hg. rewrite Hw2, Hg.
    repeat case_decide; set_solver.
  - rewrite Ho, (w_out_proper _ _ Hw1), (archived_ext w1 w) by done.
    by rewrite archived_cons, Hd, app_assoc.
Qed.

Lemma wp_deleteProcessHistory pid w Φ :
  live_history ctx w pid →
  (∀ w', without (kv_subjects (w_kv w ns WfHistory) pid) w w' →
     w_out w' = w_out w ++ archived w (kv_subjects (w_kv w ns WfHistory) pid) → Φ w' (Ok tt)) →
  wp (deleteProcessHistory ctx pid) w Φ.
Proof.
  intros Hlive HΦ. unfold deleteProcessHistory, KeyPrefixSearch. wp_steps. apply wp_nsKVs; [done|].
  intros w0 Hw0 Hkv. wp_steps. unfold kvSubjects. apply wp_nats; [done|]. simpl. wp_steps. 
  change (w_kv (w_next w0)) with (w_kv w0). rewrite Hkv.
  apply wp_archive_entries.
  - apply kv_subjects_nodup.
  - intros k Hk. rewrite w_next_equiv, Hw0. destruct (Hlive k Hk) as [[d r] Hg].
    exists d. by eapply kv_get_w_get.
  - intros w' Hw' Ho. apply HΦ.
    + intros ns' b k. rewrite Hw'. case_decide; [done|]. by rewrite w_next_equiv, Hw0.
    + rewrite Ho, (archived_ext _ w) by (intros; by rewrite w_next_equiv, Hw0).
      f_equal. by destruct Hw0.
Qed.

(** The archive of a process instance, against the table. *)
Lemma archived_spec hs w pid ks m :
  represents w ns hs →
  (∀ k, k ∈ ks ↔ ∃ tid t e, hs pid tid t = Some e ∧ k = historyKey pid tid t) →
  m ∈ archived w ks ↔
  ∃ tid t e, hs pid tid t = Some e ∧ m = archive_message (historyKey pid tid t) (DHistory e).
Proof.
  intros Hr Hks. unfold archived. rewrite list_elem_of_omap. split.
  - intros (k & (tid & t & e & He & ->)%Hks & (d & Hd & ->)%fmap_Some).
    destruct (rep_ids _ _ _ Hr _ _ _ _ He) as [Hp Ht].
    rewrite (rep_lookup _ _ _ _ _ _ Hr) in Hd by done. rewrite He in Hd. simplify_eq/=. eauto.
  - intros (tid & t & e & He & ->). destruct (rep_ids _ _ _ Hr _ _ _ _ He) as [Hp Ht].
    exists (historyKey pid tid t). split; [apply Hks; eauto|].
    by rewrite (rep_lookup _ _ _ _ _ _ Hr), He by done.
Qed.

Lemma archived_nodup w ks : NoDup ks → NoDup (archived w ks).
Proof.
  induction 1 as [|k ks Hk Hnd IH]; [constructor|]. rewrite archived_cons.
  destruct (w_get w ns WfHistory k) as [d|]; simpl; [|done]. constructor; [|done]. unfold archived.
  rewrite list_elem_of_omap. intros (k' & Hk' & (d' & _ & Heq)%fmap_Some). apply Hk.
  apply (f_equal (λ m, msg_Header m !! "KEY")) in Heq. simpl in Heq.
  rewrite !lookup_singleton_eq in Heq. by simplify_eq.
Qed.

Lemma represents_drop hs w w' pid ks :
  represents w ns hs →
  (∀ k, k ∈ ks ↔ ∃ tid t e, hs pid tid t = Some e ∧ k = historyKey pid tid t) →
  without ks w w' → represents w' ns (hist_drop pid hs).
Proof.
  intros Hr Hks Hw. unfold hist_drop. split.
  - intros pid' tid t e. case_decide; [done|]. apply (rep_ids _ _ _ Hr).
  - intros k d. rewrite Hw. split.
    + case_decide as Hd; [done|]. intros (pid' & tid & t & e & He & -> & ->)%(rep_get _ _ _ Hr).
      exists pid', tid, t, e. rewrite decide_False; [done|]. intros ->. apply Hd.
      split; [done|]. split; [done|]. apply Hks. eauto.
    + intros (pid' & tid & t & e & He & -> & ->). case_decide as Hp; [done|].
      rewrite decide_False; [apply (rep_get _ _ _ Hr); eauto 10|].
      intros (_ & _ & (tid' & t' & e' & He' & Hk)%Hks). apply Hp.
      destruct (rep_ids _ _ _ Hr _ _ _ _ He), (rep_ids _ _ _ Hr _ _ _ _ He').
      by apply historyKey_inj in Hk as (-> & _ & _).
Qed.
End archive.

(** (C23) When a process instance has terminated, its handler archives every entry
    of its history exactly once and removes them all from the history table; the
    entries of all other process instances stay, and the message is done with. *)
Theorem processProcessTerminate_archives `{EnvOk} ctx hs st m w :
  NoFaults → represents w (GetNS ctx) hs → msg_Data m = Marshal st →
  id_ok (ws_ProcessInstanceId st) → live_history ctx w (ws_ProcessInstanceId st) →
  wp (processProcessTerminate ctx m) w (returns (λ w' r, r = (true, None) ∧
    represents w' (GetNS ctx) (hist_drop (ws_ProcessInstanceId st) hs) ∧
    ∃ l, w_out w' = w_out w ++ l ∧ NoDup l ∧
      ∀ msg, msg ∈ l ↔ ∃ tid t e, hs (ws_ProcessInstanceId st) tid t = Some e ∧
        msg = archive_message (historyKey (ws_ProcessInstanceId st) tid t) (DHistory e))).
Proof.
  intros NF Hr Hm Hp Hlive. unfold processProcessTerminate, or_unmarshal.
  rewrite Hm, Unmarshal_Marshal. wp_steps. apply wp_deleteProcessHistory; [done|done|].
  intros w' Hw' Ho. wp_steps. split; [done|]. split.
  - eapply represents_drop; [done| |done]. intros k. by apply subjects_spec.
  - eexists. split; [done|]. split; [apply archived_nodup, kv_subjects_nodup|].
    intros msg. eapply archived_spec; [done|]. intros k. by apply subjects_spec.
Qed.

(** The key search of the handler also finds deleted entries, and the first
    one it meets ends it: the message is done with, nothing more is archived or
    deleted.  A delivery that failed half-way therefore leaves the remaining
    entries in the table for good. *)
Theorem processProcessTerminate_gives_up `{EnvOk} ctx st m k ks w :
  NoFaults → msg_Data m = Marshal st →
  kv_subjects (w_kv w (GetNS ctx) WfHistory) (ws_ProcessInstanceId st) = k :: ks →
  w_get w (GetNS ctx) WfHistory k = None →
  wp (processProcessTerminate ctx m) w (returns (λ w' r, r = (true, None) ∧ w' ≡ w)).
Proof.
  intros NF Hm Hks Hk. unfold processProcessTerminate, or_unmarshal.
  rewrite Hm, Unmarshal_Marshal. wp_steps.
  unfold deleteProcessHistory, KeyPrefixSearch. wp_steps. apply wp_nsKVs; [done|].
  intros w0 Hw0 Hkv. wp_steps. unfold kvSubjects. apply wp_nats; [done|]. simpl. wp_steps.
  change (w_kv (w_next w0)) with (w_kv w0). rewrite Hkv, Hks. simpl. wp_steps.
  unfold archive_entry at 1. wp_steps. apply wp_kvGet; [done|].
  change (w_kv (w_next w0)) with (w_kv w0). rewrite Hkv, (w_get_none _ _ _ _ Hk). simpl. wp_steps.
  split; [done|]. by rewrite !w_next_equiv.
Qed.

(** ** Examples *)
Definition ex_terminated : Msg := mkMsg "WORKFLOW.default.State.Process.Terminated" ∅ (DState ex_state).

Lemma processProcessTerminate_archives_witness :
  @wp sim _ (processProcessTerminate ex_ctx ex_terminated) ex_history (returns (λ w' r,
    r = (true, None) ∧ represents w' "default" (hist_drop "p" ex_hist) ∧
    ∃ l, w_out w' = [] ++ l ∧ NoDup l ∧
      ∀ msg, msg ∈ l ↔ ∃ tid t e, ex_hist "p" tid t = Some e ∧
        msg = archive_message (historyKey "p" tid t) (DHistory e))).
Proof.
  apply (@processProcessTerminate_archives sim (Sim_ok _ _ _) ex_ctx ex_hist ex_state ex_terminated
    ex_history).
  - exact sim_NoFaults.
  - exact ex_represents.
  - reflexivity.
  - reflexivity.
  - intros k Hk. apply (proj1 (Forall_forall (λ k, is_Some (kv_get
      (@w_kv sim ex_history "default" WfHistory) k)) _)) with (2 := Hk).
    apply (bool_decide_unpack _). vm_compute. exact I.
Defined.

(** The first entry is gone, the second is left. *)
Definition ex_half_archived : @World sim :=
  @w_del sim "default" WfHistory (historyKey "p" "a" activityExecute)
    (@w_put sim "default" WfHistory (historyKey "p" "a" activityExecute) (DHistory ex_entry)
      (@w_put sim "default" WfHistory (historyKey "p" "j" jobComplete) (DHistory ex_entry)
        world_init)).

Lemma processProcessTerminate_gives_up_witness :
  @wp sim _ (processProcessTerminate ex_ctx ex_terminated) ex_half_archived (returns (λ w' r,
    r = (true, None) ∧ w' ≡ ex_half_archived)) ∧
  is_Some (w_get ex_half_archived "default" WfHistory (historyKey "p" "j" jobComplete)).
Proof.
  split; [|vm_compute; eauto].
  eapply (@processProcessTerminate_gives_up sim (Sim_ok _ _ _) ex_ctx ex_state ex_terminated
    (historyKey "p" "a" activityExecute)).
  - exact sim_NoFaults.
  - reflexivity.
  - vm_compute. reflexivity.
  - vm_compute. reflexivity.
Defined.
