(* ===== verification/Timers.v ===== *)
(** * The timer listener

    The body of [listenForTimer] of [internal/server/workflow/timers.go] for one
    message: boundary timers redirect a running activity, start timers launch
    an execution and are put back. *)
From S2P Require Import Prelude Model Errors Env Sim Common Wp NatsUtil Vars Publish History Instances Lifecycle Lookups TaskSpec Jobs Launch Traverse Gateway Duration Messages Compensate Activity Process Handlers.

(** An answer to the server, or the listener's goroutine ends. *)
Inductive timer_outcome :=
  | Answer (a : answer)
  | StopListening.

Section timers.
Context `{Env}.

(** The context of the message, made from the listener's. *)
Definition timerCtx (sCtx : Ctx) (m : Msg) : Ctx := executeCtx sCtx m.

(** The flow a boundary timer takes.  Its only target is the default one. *)
Definition timer_targets (execute : string) : Targets :=
  mkTargets [mkTarget "timer-target" [] execute] 0.

(** A boundary timer.  The execution is looked up in the namespace of the
    listener, everything else in the namespace of the message. *)
Definition element_timer (sCtx ctx : Ctx) (state : WorkflowState) : M timer_outcome :=
  e ← attempt (hasValidExecution sCtx (ws_ExecutionId state));
  match e with
  | inr _ => mret (Answer Unanswered)
  | inl _ =>
      p ← attempt (GetProcessInstance ctx (ws_ProcessInstanceId state));
      match p with
      | inr err =>
          if Is err ErrProcessInstanceNotFound then mret (Answer Ack)
          else panic "pi.WorkflowId of nil"
      | inl pi =>
          w ← attempt (GetWorkflow ctx (pi_WorkflowId pi));
          match w with
          | inr _ => mret (Answer Unanswered)
          | inl wf =>
              h ← attempt (GetProcessHistoryItem ctx (ws_ProcessInstanceId state)
                             (TrackingID.ID (ws_Id state)) activityExecute);
              match h with
              | inr _ => mret StopListening
              | inl _ =>
                  els ← ElementTable wf;
                  execute ← deref "state.Execute" (ws_Execute state);
                  t ← attempt (traverse ctx (TrackingID.Pop (ws_Id state))
                                 (Some (timer_targets execute)) els state);
                  match t with
                  | inr _ => mret (Answer Unanswered)
                  | inl state =>
                      a ← attempt (PublishWorkflowState ctx
                                     (NS messages.WorkflowActivityAbort (GetNS ctx)) state []);
                      mret (Answer (match a with inl _ => Ack | inr _ => Unanswered end))
                  end
              end
          end
      end
  end.

Definition timer_answer (r : timer_reply) : answer :=
  match r with
  | (_, _, Some err) => if IsWorkflowFatal err then Ack else Unanswered
  | (true, _, None) => Ack
  | (false, delay, None) => if bool_decide (0 < delay)%Z then NakWithDelay delay else Nak
  end.

Definition on_timer (sCtx : Ctx) (m : Msg) : M timer_outcome :=
  let embargoA := HeaderGet m "embargo" in
  match Atoi (if bool_decide (embargoA = "") then "0" else embargoA) with
  | None => mret (Answer Unanswered)
  | Some embargo =>
      offset ← (if bool_decide (embargo ≠ 0%Z) then now ← timeNow; mret (embargo_left embargo now)
                else mret 0%Z);
      if bool_decide (0 < offset)%Z then mret (Answer (NakWithDelay offset))
      else
        match (Unmarshal (msg_Data m) : option WorkflowState) with
        | None => mret (Answer Ack)
        | Some state =>
            if bool_decide (HeaderGet m header.CorrelationHeader = "") then mret (Answer Unanswered)
            else
              let ctx := timerCtx sCtx m in
              if HasSuffix (msg_Subject m) ".Timers.ElementExecute"
              then element_timer sCtx ctx state
              else r ← timedExecuteProcessor ctx state; mret (Answer (timer_answer r))
        end
  end.
End timers.

(** ** Effects *)
Section timer_effects.
Context `{EnvOk}.

Lemma eff_element_timer sCtx ctx T `{!Lesser ctx T} st :
  preserves (effect T (msg_ns (GetNS ctx))) (element_timer sCtx ctx st).
Proof. unfold element_timer. preserves_tac. Qed.

Lemma eff_on_timer sCtx m :
  preserves (iso (timerCtx sCtx m)) (on_timer sCtx m).
Proof.
  pose proof (eff_element_timer sCtx (timerCtx sCtx m) (of_ns (GetNS (timerCtx sCtx m)))).
  unfold on_timer. preserves_tac.
Qed.
End timer_effects.

#[export] Hint Resolve eff_on_timer : preserves.

(** ** When a start timer is due *)

(** The ranges in which Go's clock arithmetic does not wrap. *)
Definition clock_ok (lastFired value now : Z) : Prop :=
  (0 ≤ lastFired < 2 ^ 62 ∧ 0 ≤ value < 2 ^ 60 ∧ 0 ≤ now < 2 ^ 62)%Z.

Lemma timer_due_duration t now lastFired count :
  wtd_Type t = duration → clock_ok lastFired (wtd_Value t) now →
  timer_due t now lastFired count =
  if bool_decide (wtd_Repeat t ≠ 0 ∧ wtd_Repeat t ≤ count)%Z then None
  else Some (bool_decide (lastFired + wtd_Value t ≤ now)%Z).
Proof.
  intros Ht Hok. unfold timer_due, clock_ok in *. rewrite Ht, wrap64_small by lia.
  case_bool_decide; [done|]. f_equal. apply bool_decide_ext. lia.
Qed.

(** A start timer that is delivered before it is due changes nothing and is
    sent back, but with a delay that reaches a whole period beyond the moment it
    is due; one that has fired its last time is acknowledged. *)
Theorem timer_not_due `{EnvOk} ctx wf el t lastFired count st w :
  NoFaults → ColdCache →
  w_get w (GetNS ctx) Wf (ws_WorkflowId st) = Some (DWorkflow wf) →
  NoDup (el_Id <$> ElementFacts.elements wf) →
  el ∈ ElementFacts.elements wf → el_Id el = ws_ElementId st → el_Timer el = Some t →
  wtd_Type t = duration → ws_Timer st = Some (mkWorkflowTimer lastFired count) →
  (∀ n, clock_ok lastFired (wtd_Value t) (time_now n)) →
  (wtd_Repeat t ≠ 0 ∧ wtd_Repeat t ≤ count)%Z ∨ (∀ n, time_now n < lastFired + wtd_Value t)%Z →
  wp (timedExecuteProcessor ctx st) w (returns (λ w' r, w' ≡ w ∧
    if bool_decide (wtd_Repeat t ≠ 0 ∧ wtd_Repeat t ≤ count)%Z then r = (true, 0%Z, None)
    else ∃ n, r = (false, ((lastFired + wtd_Value t - time_now n) + wtd_Value t)%Z, None))).
Proof.
  intros NF CC Hwf Hnd Hel Hid Ht Hty Htm Hclock Hidle. unfold timedExecuteProcessor, or_later. wp_steps.
  apply (wp_GetWorkflow NF ctx CC _ wf); [done|]. intros w1 Hw1. wp_steps.
  apply wp_ElementTable; [done|]. intros els Hels. wp_steps. rewrite Htm. wp_steps.
  rewrite (proj2 (Hels (ws_ElementId st) el)) by done. wp_steps. rewrite Ht. wp_steps. cbv zeta.
  cbn [wt_LastFired wt_Count]. set (n := w_tick (w_next w1)). pose proof (Hclock n) as Hc.
  rewrite (timer_due_duration t (time_now n) lastFired count) by done.
  destruct (bool_decide (wtd_Repeat t ≠ 0 ∧ wtd_Repeat t ≤ count)%Z) eqn:Hout.
  - wp_steps. simpl. split; [by rewrite !w_next_equiv, Hw1|done].
  - apply bool_decide_eq_false in Hout. destruct Hidle as [?|Hlate]; [done|]. rewrite bool_decide_false by (specialize (Hlate n); lia).
    rewrite bool_decide_true by done. wp_steps. simpl. split; [by rewrite !w_next_equiv, Hw1|].
    exists n. do 2 f_equal. unfold clock_ok in Hc. f_equal.
    rewrite (wrap64_small (wtd_Value t * 2)) by lia.
    rewrite (wrap64_small (lastFired + wtd_Value t * 2)) by lia. rewrite wrap64_small; lia.
Qed.

(** The listener looks up the execution of a boundary timer in its own
    namespace, which is the default one, not in that of the message: the boundary
    timers of every other namespace are never answered and never redirect their
    activity. *)
Theorem boundary_timer_other_namespace `{EnvOk} m st w :
  NoFaults → msg_Data m = Marshal st → HasSuffix (msg_Subject m) ".Timers.ElementExecute" = true →
  HeaderGet m header.CorrelationHeader ≠ "" →
  (∃ e, Atoi (HeaderGet m "embargo") = Some e ∧ ∀ n, embargo_left e (time_now n) ≤ 0)%Z →
  w_get w "default" WfExecution (ws_ExecutionId st) = None →
  wp (on_timer (mkCtx None None ∅) m) w (returns (λ w' r, r = Answer Unanswered ∧ w' ≡ w)).
Proof.
  intros NF Hm Hsuf Hcid (e & He & Hleft) Hx. unfold on_timer.
  rewrite (bool_decide_false (HeaderGet m "embargo" = "")) by (by intros Hem; rewrite Hem in He).
  rewrite He, Hm, Unmarshal_Marshal.
  assert (∀ w', w' ≡ w → wp (element_timer (mkCtx None None ∅) (timerCtx (mkCtx None None ∅) m) st) w'
    (returns (λ w' r, r = Answer Unanswered ∧ w' ≡ w))) as Helem.
  { intros w' Hw'. unfold element_timer. wp_steps.
    apply (wp_hasValidExecution_missing NF); [by rewrite Hw'|]. intros w1 err Hw1 _. wp_steps.
    split; [done|]. by rewrite Hw1, Hw'. }
  wp_steps. case_bool_decide; wp_steps;
    (rewrite bool_decide_false by first [lia | (pose proof (Hleft (w_tick w)); lia)]);
    rewrite bool_decide_false, Hsuf by done; apply Helem; [apply w_next_equiv|done].
Qed.

(** ** Examples *)

(** The clock stands still. *)
Definition sim_at : Env := Sim (λ _, None) (λ _, 1000%Z) sim_expr.

Definition ex_timer : WorkflowTimerDefinition := mkWorkflowTimerDefinition duration 1000 0 false.
Definition ex_timed : Element :=
  mkElement "start" "" element.TimedStartEvent "" "" None None None "" "" "" [] None ∅ ∅ (Some ex_timer) []
    None None None None false.
Definition ex_timed_workflow : Workflow :=
  mkWorkflow "W" {["P" := mkProcess [ex_timed] "P" None]} [] [] "" None ∅ "".
Definition ex_timer_state : WorkflowState :=
  zero_state <| ws_WorkflowId := "w" |> <| ws_ElementId := "start" |>
    <| ws_Timer := Some (mkWorkflowTimer 500 0) |> <| ws_ExecutionId := "e" |>.
Definition ex_timer_world : @World sim_at :=
  @w_put sim_at "default" Wf "w" (DWorkflow ex_timed_workflow) world_init.

Lemma timer_not_due_witness :
  @wp sim_at _ (timedExecuteProcessor ex_ctx ex_timer_state) ex_timer_world (returns (λ w' r,
    w' ≡ ex_timer_world ∧ ∃ n, r = (false, ((500 + 1000 - @time_now sim_at n) + 1000)%Z, None))).
Proof.
  apply (@timer_not_due sim_at (Sim_ok _ _ _) ex_ctx ex_timed_workflow ex_timed ex_timer 500 0).
  - intros n. reflexivity.
  - intros n. reflexivity.
  - reflexivity.
  - apply (bool_decide_unpack _). vm_compute. exact I.
  - by left.
  - reflexivity.
  - reflexivity.
  - reflexivity.
  - reflexivity.
  - intros n. unfold clock_ok. simpl. lia.
  - right. intros n. simpl. lia.
Defined.

(** A boundary timer of a running activity in another namespace. *)
Definition ex_boundary : Msg :=
  mkMsg "WORKFLOW.acme.Timers.ElementExecute"
    (<["embargo" := "0"]> (<[header.CorrelationHeader := "cid"]> {[header.SharNamespace := "acme"]}))
    (DState ex_timer_state).
Definition ex_boundary_world : @World sim_at :=
  @w_put sim_at "acme" WfExecution "e" (DExecution (mkExecution "e" "w" "W" ["p"])) world_init.

Lemma boundary_timer_other_namespace_witness :
  @wp sim_at _ (on_timer (mkCtx None None ∅) ex_boundary) ex_boundary_world (returns (λ w' r,
    r = Answer Unanswered ∧ w' ≡ ex_boundary_world)).
Proof.
  apply (@boundary_timer_other_namespace sim_at (Sim_ok _ _ _) ex_boundary ex_timer_state).
  - intros n. reflexivity.
  - reflexivity.
  - reflexivity.
  - vm_compute. discriminate.
  - exists 0%Z. split; [reflexivity|]. intros n. vm_compute. discriminate.
  - reflexivity.
Defined.
