(* ===== verification/Api.v ===== *)
(** * The API

    [server/api/auth.go] (authentication and authorization),
    [server/api/functions.go] (the endpoints around the operations) and the
    calls of [server/api/listener.go].  The two functions the server is given to
    check callers are parameters, and so are the version library and the decoder
    of launch headers. *)
From S2P Require Import Prelude Model Errors Env Sim Common Wp NatsUtil Vars Publish History Instances TaskSpec Store Launch Jobs Process.

(** [authn.Check], [authz.APIFunc] and the libraries of the endpoints.  [None] is
    an error of the check; a server may be started without authorization. *)
Class ApiEnv := {
  apiAuthNFn : Ctx → gmap string string → option (bool * string);
  apiAuthZFn : option (Ctx → gmap string string → string → string → string → option bool);
  NewVersion : string → option string;
  compatibleVersion : string;
  headers_unmarshal : bytes → gmap string string + error;
  Error_ : error → string (* the text of an error; the model's errors abridge it *) }.

Definition APIGetVersionInfo : string := "WORKFLOW.API.GetVersionInfo".
Definition NatsCompatHeader : string := "Shar-Compat".

(** [context.Background()] *)
Definition Background : Ctx := mkCtx None None ∅.

(** The checks a server is started with when it is given no others. *)
Definition noopAuthN (_ : Ctx) (_ : gmap string string) : option (bool * string) := Some (true, "anonymous").
Definition noopAuthZ (_ : Ctx) (_ : gmap string string) (_ _ _ : string) : option bool := Some true.

(** ** Authorization *)
Section auth.
Context `{Env} `{ApiEnv}.

(** The user, or an error with an empty context in place of the caller's. *)
Definition authenticate (ctx : Ctx) : Ctx * (string + error) :=
  match apiAuthNFn ctx (ctx_Values ctx) with
  | Some (true, user) => (ctx, inl user)
  | _ => (Background, inr (Wrap "authenticate" (Sentinel ErrApiAuthNFail)))
  end.

(** [fn] is the subject of the call, which the listener keeps in the context. *)
Definition authorize (fn : string) (ctx : Ctx) (workflowName : string) : Ctx * option error :=
  match authenticate ctx with
  | (ctx', inr _) => (ctx', Some (Wrap "authenticate" (Sentinel ErrApiAuthNFail)))
  | (ctx', inl user) =>
      match apiAuthZFn with
      | None => (ctx', None)
      | Some z =>
          match z ctx' (ctx_Values ctx) fn workflowName user with
          | Some true => (ctx', None)
          | _ => (ctx', Some (Wrap "authorize" (Sentinel ErrApiAuthZFail)))
          end
      end
  end.

(** What the [auth...] methods return: a context, and a value or an error. *)
Definition authed {A} (a : A) (r : Ctx * option error) : Ctx * (A + error) :=
  (r.1, match r.2 with
        | None => inl a
        | Some err => inr (Wrap "authorize" (ErrWorkflowFatal err None))
        end).

(** [x, err := m; if err != nil { return ctx, nil, wrapped }] *)
Definition lookup_for {A B} (msg : string) (ctx : Ctx) (m : M A) (k : A → M (Ctx * (B + error))) :
    M (Ctx * (B + error)) :=
  r ← attempt m;
  match r with
  | inr err => mret (ctx, inr (Wrap msg err))
  | inl a => k a
  end.

Definition authFromJobID (fn : string) (ctx : Ctx) (trackingID : string) :
    M (Ctx * (WorkflowState + error)) :=
  lookup_for "get job for authorization" ctx (GetJob ctx trackingID) (λ job,
  lookup_for "get workflow for authorization" ctx (GetWorkflow ctx (ws_WorkflowId job)) (λ w,
  mret (authed job (authorize fn ctx (wf_Name w))))).

Definition authFromExecutionID (fn : string) (ctx : Ctx) (executionID : string) :
    M (Ctx * (Execution + error)) :=
  lookup_for "get execution for authorization" ctx (GetExecution ctx executionID) (λ execution,
  mret (authed execution (authorize fn ctx (ex_WorkflowName execution)))).

Definition authFromProcessInstanceID (fn : string) (ctx : Ctx) (instanceID : string) :
    M (Ctx * (ProcessInstance + error)) :=
  lookup_for "get workflow instance for authorization" ctx (GetProcessInstance ctx instanceID) (λ pi,
  mret (authed pi (authorize fn ctx (pi_WorkflowName pi)))).

Definition authForNonWorkflow (fn : string) (ctx : Ctx) : Ctx * (unit + error) :=
  authed tt (authorize fn ctx "").

Definition authForNamedWorkflow (fn : string) (ctx : Ctx) (name : string) : Ctx * (unit + error) :=
  authed tt (authorize fn ctx name).

Definition authForWorkflowId (fn : string) (ctx : Ctx) (workflowId : string) : M (Ctx * (unit + error)) :=
  lookup_for "get workflow for authorization" ctx (GetWorkflow ctx workflowId) (λ w,
  mret (authed tt (authorize fn ctx (wf_Name w)))).

(** [if err2 != nil { return nil, fmt.Errorf("authorize ...", err2) }] *)
Definition granted {A B} (r : Ctx * (A + error)) (k : Ctx → A → M B) : M B :=
  match r.2 with
  | inr err => throw (Wrap "authorize" err)
  | inl a => k r.1 a
  end.

(** The same on the error channel of a stream. *)
Definition granted_stream {A B} (r : Ctx * (A + error)) (k : Ctx → A → M (Stream B)) : M (Stream B) :=
  match r.2 with
  | inr err => mret ([], [Wrap "authorize" err])
  | inl a => k r.1 a
  end.
End auth.

(** ** Endpoints *)
Module api.
Section endpoints.
Context `{Env} `{ApiEnv} (fn : string).

Definition getProcessInstanceStatus (ctx : Ctx) (id : string) : M (Stream ProcessHistoryEntry) :=
  a ← authFromProcessInstanceID fn ctx id;
  granted_stream a (λ ctx _, GetActiveEntries ctx id).

Definition listExecutionProcesses (ctx : Ctx) (id : string) : M (list string) :=
  a ← authFromExecutionID fn ctx id;
  granted a (λ ctx instance,
    wrapping (Wrap "get execution status") (ListExecutionProcesses ctx (ex_ExecutionId instance))).

Definition listWorkflows (ctx : Ctx) : M (Stream (string * Z)) :=
  granted_stream (authForNonWorkflow fn ctx) (λ ctx _, ListWorkflows ctx).

Definition listExecutableProcesses (ctx : Ctx) : M (Stream ListExecutableProcessesItem) :=
  granted_stream (authForNonWorkflow fn ctx) (λ ctx _, ListExecutableProcesses ctx).

(** The caller is checked for the process id in place of the workflow's name. *)
Definition launchProcess (ctx : Ctx) (processId : string) (vars headers : bytes) : M (string * string) :=
  granted (authForNamedWorkflow fn ctx processId) (λ ctx _,
    wrapping (Wrap "launch execution kv") (Launch ctx processId vars headers)).

(** A message without a correlation key launches the process it starts. *)
Definition sendMessage (ctx : Ctx) (name correlationKey : string) (vars : bytes) : M (string * string) :=
  if bool_decide (correlationKey = "") then
    processId ← wrapping (Wrap "error retrieving process id for message name") (GetProcessIdFor ctx name);
    wrapping (Wrap "failed to launch process with message") (launchProcess ctx processId vars "")
  else
    _ ← wrapping (Wrap "send message")
          (PublishMsg ctx (Sprintf1 messages.WorkflowMessage (GetNS ctx))
             (mkMessageInstance name correlationKey vars));
    mret ("", "").

Definition complete (msg : string) (op : Ctx → WorkflowState → bytes → M unit) (ctx : Ctx)
    (trackingId : string) (vars : bytes) : M unit :=
  a ← authFromJobID fn ctx trackingId;
  granted a (λ ctx job, wrapping (Wrap msg) (op ctx job vars)).

Definition completeManualTask := complete "complete manual task" CompleteManualTask.
Definition completeServiceTask := complete "complete service task" CompleteServiceTask.
Definition completeSendMessageTask := complete "complete send message task" CompleteSendMessageTask.
Definition completeUserTask := complete "complete user task" CompleteUserTask.

Definition getCompensationInputVariables (ctx : Ctx) (processInstanceId trackingId : string) : M bytes :=
  a ← authFromProcessInstanceID fn ctx processInstanceId;
  granted a (λ ctx _, wrapping (Wrap "get compensation input variables")
                        (GetCompensationInputVariables ctx processInstanceId trackingId)).

Definition getCompensationOutputVariables (ctx : Ctx) (processInstanceId trackingId : string) : M bytes :=
  a ← authFromProcessInstanceID fn ctx processInstanceId;
  granted a (λ ctx _, wrapping (Wrap "get compensation output variables")
                        (GetCompensationOutputVariables ctx processInstanceId trackingId)).

Definition storeWorkflow (ctx : Ctx) (wf : option Workflow) : M string :=
  wf ← deref "wf.Workflow.Name" wf;
  granted (authForNamedWorkflow fn ctx (wf_Name wf)) (λ ctx _,
    wrapping (Wrap "store workflow") (LoadWorkflow ctx wf)).

Definition cancelProcessInstance (ctx : Ctx) (id : string) (st : CancellationState) (err : option WfError) :
    M unit :=
  a ← authFromProcessInstanceID fn ctx id;
  granted a (λ ctx instance,
    wrapping (Wrap "cancel execution kv")
      (CancelProcessInstance ctx (zero_state
         <| ws_ExecutionId := pi_ExecutionId instance |>
         <| ws_ProcessInstanceId := pi_ProcessInstanceId instance |>
         <| ws_State := st |> <| ws_Error := err |>))).

(** A failed authorization is reported, and the listing goes on with the context
    it left. *)
Definition listExecution (ctx : Ctx) (workflowName : string) : M (Stream (string * Z)) :=
  let a := authForNamedWorkflow fn ctx workflowName in
  s ← ListExecutions a.1 workflowName;
  mret (match a.2 with
        | inr err => (s.1, Wrap "authorize" err :: s.2)
        | inl _ => s
        end).

Definition handleWorkflowFatalError (ctx : Ctx) (state : option WorkflowState) : M unit :=
  state ← deref "req.WorkflowState" state;
  match authorize fn ctx (ws_WorkflowName state) with
  | (_, Some err) => throw (Wrap "authorize" err)
  | (ctx, None) => SignalFatalErrorPause ctx state
  end.

Definition handleWorkflowError (ctx : Ctx) (trackingId errorCode : string) (vars : bytes) : M bool :=
  a ← authFromJobID fn ctx trackingId;
  granted a (λ ctx job,
    if bool_decide (errorCode = "")
    then throw (Wrap "ErrorCode may not be empty" (Sentinel ErrMissingErrorCode))
    else
      r ← attempt (HandleWorkflowError ctx errorCode vars job);
      match r with
      | inl _ => mret true
      | inr err => if Is err ErrUnhandledWorkflowError then mret false
                   else throw (Wrap "handle workflow error" err)
      end).

Definition listUserTaskIDs (ctx : Ctx) (owner : string) : M UserTasks :=
  granted (authForNonWorkflow fn ctx) (λ ctx _,
    oid ← wrapping (Wrap "get owner ID") (OwnerID_ ctx owner);
    r ← attempt (GetUserTaskIDs ctx oid);
    match r with
    | inl ut => mret ut
    | inr err => if Is err ErrKeyNotFound then mret (mkUserTasks [])
                 else throw (Wrap "get user task IDs" err)
    end).

(** The tracking id, the name and documentation of the element, and the
    variables. *)
Definition getUserTask (ctx : Ctx) (trackingId : string) : M (string * string * string * bytes) :=
  a ← authFromJobID fn ctx trackingId;
  granted a (λ ctx job,
    wf ← wrapping (Wrap "get user task failed to get workflow") (GetWorkflow ctx (ws_WorkflowId job));
    els ← ElementTable wf;
    el ← deref "els[job.ElementId].Name" (els !! ws_ElementId job);
    mret (TrackingID.ID (ws_Id job), el_Name el, el_Documentation el, ws_Vars job)).

Definition getJob (ctx : Ctx) (jobId : string) : M WorkflowState :=
  a ← authFromJobID fn ctx jobId;
  granted a (λ _ job, mret job).

Definition getWorkflowVersions (ctx : Ctx) (name : string) : M (Stream WorkflowVersion) :=
  granted_stream (authForNamedWorkflow fn ctx name) (λ ctx _, StreamWorkflowVersions ctx name).

Definition getWorkflow (ctx : Ctx) (id : string) : M Workflow :=
  granted (authForNonWorkflow fn ctx) (λ ctx _, wrapping (Wrap "get workflow") (GetWorkflow ctx id)).

Definition getProcessHistory (ctx : Ctx) (id : string) : M (Stream ProcessHistoryEntry) :=
  a ← authFromProcessInstanceID fn ctx id;
  granted_stream a (λ ctx _, GetProcessHistory ctx id).

(** [fatalErrorKeyPrefixBuilder] *)
Definition fatalErrorKeyPrefixBuilder (wfName wfId executionId processInstanceId : string) : string :=
  Join "." (map (λ segment, if bool_decide (segment = "") then "*" else segment)
              [wfName; wfId; executionId; processInstanceId]).

Definition validateGetFatalErrorRequest (wfName wfId executionId processInstanceId : string) : option error :=
  let all s := bool_decide (wfName = s ∧ wfId = s ∧ executionId = s ∧ processInstanceId = s) in
  if all "" then Some (Wrap "invalid get fatal err request" (New "at least one must be specified"))
  else if all "*" then Some (Wrap "invalid get fatal err request" (New "all parameters cannot be wildcards"))
  else None.

(** [s != "" && s != "*"] *)
Definition specified (s : string) : bool := bool_decide (s ≠ "" ∧ s ≠ "*").

(** Where none of the four is given a name, no check is made and the context
    passed on is nil. *)
Definition getFatalErrors (ctx : Ctx) (wfName wfId executionId processInstanceId : string) :
    M (Stream FatalError) :=
  let prefix := fatalErrorKeyPrefixBuilder wfName wfId executionId processInstanceId in
  match validateGetFatalErrorRequest wfName wfId executionId processInstanceId with
  | Some err => mret ([], [err])
  | None =>
      if specified wfName then
        granted_stream (authForNamedWorkflow fn ctx wfName) (λ ctx _, GetFatalErrors ctx prefix)
      else if specified wfId then
        a ← authForWorkflowId fn ctx wfId; granted_stream a (λ ctx _, GetFatalErrors ctx prefix)
      else if specified executionId then
        a ← authFromExecutionID fn ctx executionId; granted_stream a (λ ctx _, GetFatalErrors ctx prefix)
      else if specified processInstanceId then
        a ← authFromProcessInstanceID fn ctx processInstanceId;
        granted_stream a (λ ctx _, GetFatalErrors ctx prefix)
      else panic "ctx.Value of a nil context"
  end.

Definition retryActivity (ctx : Ctx) (state : option WorkflowState) : M unit :=
  state ← deref "req.WorkflowState" state;
  granted (authForNamedWorkflow fn ctx (ws_WorkflowName state)) (λ ctx _,
    wrapping (Wrap "failed retrying activity") (RetryActivity ctx state)).

(** [upgrader.IsCompatible] against the version of the last patch. *)
Definition IsCompatible (v : string) : bool := bool_decide (v = compatibleVersion).

Definition versionInfo (ctx : Ctx) (version : string) : M bool :=
  match (authenticate ctx).2 with
  | inr err => throw (Wrap "authorize" err)
  | inl _ =>
      if bool_decide (version = "") then throw (New "client version too old, please upgrade")
      else
        match NewVersion version with
        | None => throw (New "parsing client version")
        | Some v => mret (IsCompatible v)
        end
  end.

Definition lift_validation {A} (r : res validation_error A) : M A :=
  λ w, (w, match r with
           | Ok a => Ok a
           | Err _ => Err (New "validaet service task")
           | Panic p => Panic p
           end).

Definition registerTask (ctx : Ctx) (spec : option TaskSpec) : M string :=
  granted (authForNonWorkflow fn ctx) (λ ctx _,
    spec ← deref "td.Version" spec;
    _ ← lift_validation (ValidateTaskSpec spec);
    wrapping (Wrap "register task spec") (PutTaskSpec ctx spec)).

(** Any running process instance stops the deprecation of any task. *)
Definition deprecateServiceTask (ctx : Ctx) (name : string) : M (TaskSpecUsageReport * bool) :=
  granted (authForNonWorkflow fn ctx) (λ ctx _,
    usage ← wrapping (Wrap "deprecate service task get initial task usage") (GetTaskSpecUsage ctx [name]);
    if bool_decide (0 < length (ur_ExecutingWorkflow usage) + length (ur_ExecutingProcessInstance usage))
    then mret (usage, false)
    else
      _ ← wrapping (Wrap "delete service task get spec UID") (DeprecateTaskSpec ctx [name]);
      mret (usage, true)).

Definition getTaskSpec (ctx : Ctx) (uid : string) : M TaskSpec :=
  granted (authForNonWorkflow fn ctx) (λ ctx _, wrapping (Wrap "get task spec") (GetTaskSpecByUID ctx uid)).

Definition getTaskSpecVersions (ctx : Ctx) (name : string) : M TaskSpecVersions :=
  granted (authForNonWorkflow fn ctx) (λ ctx _,
    wrapping (Wrap "get task spec versions") (GetTaskSpecVersions ctx name)).

Definition getTaskSpecUsage (ctx : Ctx) (id : string) : M TaskSpecUsageReport :=
  granted (authForNonWorkflow fn ctx) (λ ctx _,
    wrapping (Wrap "get task spec versions") (GetTaskSpecUsage ctx [id])).

Definition listTaskSpecUIDs (ctx : Ctx) (includeDeprecated : bool) : M (list string) :=
  granted (authForNonWorkflow fn ctx) (λ ctx _,
    wrapping (Wrap "list task spec uids") (ListTaskSpecUIDs ctx includeDeprecated)).

(** The endpoints from here to [resolveWorkflow] check nobody. *)
Definition heartbeat (ctx : Ctx) (req : HeartbeatRequest) : M unit :=
  wrapping (Wrap "heartbeat") (Heartbeat ctx req).

(** [PublishObj] and [Log]: the request goes out as it came in, without a
    namespace. *)
Definition PublishObj (subject : string) (prot : bytes) : M unit :=
  wrapping (Wrap "publish message") (natsPublish (mkMsg subject ∅ (DBytes prot))).

Definition Log (req : bytes) : M unit :=
  wrapping (Wrap "publish object") (PublishObj messages.WorkflowTelemetryLog req).

Definition log (ctx : Ctx) (req : bytes) : M unit := wrapping (Wrap "log") (Log req).

Definition resolveWorkflow (ctx : Ctx) (wf : option Workflow) : M Workflow :=
  wf ← deref "wf.Process" wf;
  wrapping (Wrap "resolveWorkflow")
    (ProcessServiceTasks ctx wf (λ _, mret tt) (λ _ _, mret tt)).

Definition getProcessHeaders (ctx : Ctx) (processInstanceID : string) : M (gmap string string) :=
  a ← authFromProcessInstanceID fn ctx processInstanceID;
  granted a (λ ctx pi,
    if bool_decide (pi_Headers pi = "") then mret ∅
    else wrapping (Wrap "decode headers") (lift_sum (headers_unmarshal (pi_Headers pi)))).

Definition disableWorkflow (ctx : Ctx) (workflowName : string) : M unit :=
  granted (authForNamedWorkflow fn ctx workflowName) (λ ctx _,
    wrapping (Wrap "failed to disable workflow") (DisableWorkflow ctx workflowName)).

Definition enableWorkflow (ctx : Ctx) (workflowName : string) : M unit :=
  granted (authForNamedWorkflow fn ctx workflowName) (λ ctx _,
    wrapping (Wrap "failed to enable workflow") (EnableWorkflow ctx workflowName)).
End endpoints.
End api.

(** ** Calls *)
Inductive request :=
  | StoreWorkflowRequest (wf : option Workflow)
  | CancelProcessInstanceRequest (id : string) (st : CancellationState) (err : option WfError)
  | LaunchWorkflowRequest (processId : string) (vars headers : bytes)
  | SendMessageRequest (name correlationKey : string) (vars : bytes)
  | CompleteManualTaskRequest (trackingId : string) (vars : bytes)
  | CompleteServiceTaskRequest (trackingId : string) (vars : bytes)
  | CompleteUserTaskRequest (trackingId : string) (vars : bytes)
  | CompleteSendMessageRequest (trackingId : string) (vars : bytes)
  | GetUserTaskRequest (trackingId : string)
  | GetJobRequest (jobId : string)
  | HandleWorkflowErrorRequest (trackingId errorCode : string) (vars : bytes)
  | HandleWorkflowFatalErrorRequest (state : option WorkflowState)
  | GetWorkflowRequest (id : string)
  | GetVersionInfoRequest (compatibleVersion : string)
  | RegisterTaskRequest (spec : option TaskSpec)
  | GetTaskSpecRequest (uid : string)
  | DeprecateServiceTaskRequest (name : string)
  | GetTaskSpecUsageRequest (id : string)
  | HeartbeatRequest_ (req : HeartbeatRequest)
  | LogRequest (req : bytes)
  | ResolveWorkflowRequest (wf : option Workflow)
  | ListExecutionProcessesRequest (id : string)
  | ListTaskSpecUIDsRequest (includeDeprecated : bool)
  | GetTaskSpecVersionsRequest (name : string)
  | GetCompensationInputVariablesRequest (processInstanceId trackingId : string)
  | GetCompensationOutputVariablesRequest (processInstanceId trackingId : string)
  | ListUserTasksRequest (owner : string)
  | RetryActivityRequest (state : option WorkflowState)
  | GetProcessHeadersRequest (processInstanceID : string)
  | DisableWorkflowRequest (workflowName : string)
  | EnableWorkflowRequest (workflowName : string)
  | GetWorkflowVersionsRequest (name : string)
  | GetProcessInstanceStatusRequest (id : string)
  | ListWorkflowsRequest
  | ListExecutionRequest (workflowName : string)
  | GetProcessHistoryRequest (id : string)
  | ListExecutableProcessesRequest
  | GetFatalErrorRequest (wfName wfId executionId processInstanceId : string).

(** What the endpoints answer.  A stream is the values and the errors its
    function sends. *)
Inductive response :=
  | EmptyResponse
  | StoreWorkflowResponse (workflowId : string)
  | LaunchWorkflowResponse (ids : string * string)
  | SendMessageResponse (ids : string * string)
  | GetUserTaskResponse (task : string * string * string * bytes)
  | GetJobResponse (job : WorkflowState)
  | HandleWorkflowErrorResponse (handled : bool)
  | GetWorkflowResponse (definition : Workflow)
  | GetVersionInfoResponse (connect : bool)
  | RegisterTaskResponse (uid : string)
  | GetTaskSpecResponse (spec : TaskSpec)
  | DeprecateServiceTaskResponse (usage : TaskSpecUsageReport * bool)
  | TaskSpecUsageReportResponse (usage : TaskSpecUsageReport)
  | ResolveWorkflowResponse (wf : Workflow)
  | ListExecutionProcessesResponse (ids : list string)
  | ListTaskSpecUIDsResponse (uids : list string)
  | GetTaskSpecVersionsResponse (versions : TaskSpecVersions)
  | GetCompensationVariablesResponse (vars : bytes)
  | UserTasksResponse (tasks : UserTasks)
  | GetProcessHeadersResponse (headers : gmap string string)
  | WorkflowVersionStream (s : Stream WorkflowVersion)
  | HistoryStream (s : Stream ProcessHistoryEntry)
  | WorkflowStream (s : Stream (string * Z))
  | ExecutionStream (s : Stream (string * Z))
  | ExecutableStream (s : Stream ListExecutableProcessesItem)
  | FatalErrorStream (s : Stream FatalError).

(** The errors of a stream. *)
Definition stream_errors (r : response) : list error :=
  match r with
  | WorkflowVersionStream s => s.2
  | HistoryStream s => s.2
  | WorkflowStream s | ExecutionStream s => s.2
  | ExecutableStream s => s.2
  | FatalErrorStream s => s.2
  | _ => []
  end.

(** The endpoints registered with [RegisterEndpointStreamingFn]. *)
Definition streaming (r : request) : bool :=
  match r with
  | GetWorkflowVersionsRequest _ | GetProcessInstanceStatusRequest _ | ListWorkflowsRequest
  | ListExecutionRequest _ | GetProcessHistoryRequest _ | ListExecutableProcessesRequest
  | GetFatalErrorRequest _ _ _ _ => true
  | _ => false
  end.

(** ** Error responses *)
Module codes.
Definition Unknown : Z := 2.
Definition PermissionDenied : Z := 7.
Definition Internal : Z := 13.
End codes.

Definition ErrorPrefix : string := "ERR" +:+ String "001" "".
Definition ErrorSeparator : string := String "002" "".

(** The body of an error response. *)
Definition apiError (code : Z) (msg : string) : string :=
  ErrorPrefix +:+ pretty code +:+ ErrorSeparator +:+ msg.

(** A response message, or the bytes of an error. *)
Inductive api_answer := Respond (r : response) | ErrorResponse (data : string).

Section calls.
Context `{Env} `{ApiEnv}.

Definition reply_ {A} (f : A → response) (m : M A) : M response := a ← m; mret (f a).

(** The endpoint of a request. *)
Definition serve (fn : string) (ctx : Ctx) (r : request) : M response :=
  match r with
  | StoreWorkflowRequest wf => reply_ StoreWorkflowResponse (api.storeWorkflow fn ctx wf)
  | CancelProcessInstanceRequest id st err => reply_ (λ _, EmptyResponse) (api.cancelProcessInstance fn ctx id st err)
  | LaunchWorkflowRequest p vars headers => reply_ LaunchWorkflowResponse (api.launchProcess fn ctx p vars headers)
  | SendMessageRequest name key vars => reply_ SendMessageResponse (api.sendMessage fn ctx name key vars)
  | CompleteManualTaskRequest id vars => reply_ (λ _, EmptyResponse) (api.completeManualTask fn ctx id vars)
  | CompleteServiceTaskRequest id vars => reply_ (λ _, EmptyResponse) (api.completeServiceTask fn ctx id vars)
  | CompleteUserTaskRequest id vars => reply_ (λ _, EmptyResponse) (api.completeUserTask fn ctx id vars)
  | CompleteSendMessageRequest id vars => reply_ (λ _, EmptyResponse) (api.completeSendMessageTask fn ctx id vars)
  | GetUserTaskRequest id => reply_ GetUserTaskResponse (api.getUserTask fn ctx id)
  | GetJobRequest id => reply_ GetJobResponse (api.getJob fn ctx id)
  | HandleWorkflowErrorRequest id code vars => reply_ HandleWorkflowErrorResponse (api.handleWorkflowError fn ctx id code vars)
  | HandleWorkflowFatalErrorRequest st => reply_ (λ _, EmptyResponse) (api.handleWorkflowFatalError fn ctx st)
  | GetWorkflowRequest id => reply_ GetWorkflowResponse (api.getWorkflow fn ctx id)
  | GetVersionInfoRequest v => reply_ GetVersionInfoResponse (api.versionInfo ctx v)
  | RegisterTaskRequest spec => reply_ RegisterTaskResponse (api.registerTask fn ctx spec)
  | GetTaskSpecRequest uid => reply_ GetTaskSpecResponse (api.getTaskSpec fn ctx uid)
  | DeprecateServiceTaskRequest name => reply_ DeprecateServiceTaskResponse (api.deprecateServiceTask fn ctx name)
  | GetTaskSpecUsageRequest id => reply_ TaskSpecUsageReportResponse (api.getTaskSpecUsage fn ctx id)
  | HeartbeatRequest_ req => reply_ (λ _, EmptyResponse) (api.heartbeat ctx req)
  | LogRequest req => reply_ (λ _, EmptyResponse) (api.log ctx req)
  | ResolveWorkflowRequest wf => reply_ ResolveWorkflowResponse (api.resolveWorkflow ctx wf)
  | ListExecutionProcessesRequest id => reply_ ListExecutionProcessesResponse (api.listExecutionProcesses fn ctx id)
  | ListTaskSpecUIDsRequest d => reply_ ListTaskSpecUIDsResponse (api.listTaskSpecUIDs fn ctx d)
  | GetTaskSpecVersionsRequest name => reply_ GetTaskSpecVersionsResponse (api.getTaskSpecVersions fn ctx name)
  | GetCompensationInputVariablesRequest p t => reply_ GetCompensationVariablesResponse (api.getCompensationInputVariables fn ctx p t)
  | GetCompensationOutputVariablesRequest p t => reply_ GetCompensationVariablesResponse (api.getCompensationOutputVariables fn ctx p t)
  | ListUserTasksRequest owner => reply_ UserTasksResponse (api.listUserTaskIDs fn ctx owner)
  | RetryActivityRequest st => reply_ (λ _, EmptyResponse) (api.retryActivity fn ctx st)
  | GetProcessHeadersRequest id => reply_ GetProcessHeadersResponse (api.getProcessHeaders fn ctx id)
  | DisableWorkflowRequest name => reply_ (λ _, EmptyResponse) (api.disableWorkflow fn ctx name)
  | EnableWorkflowRequest name => reply_ (λ _, EmptyResponse) (api.enableWorkflow fn ctx name)
  | GetWorkflowVersionsRequest name => reply_ WorkflowVersionStream (api.getWorkflowVersions fn ctx name)
  | GetProcessInstanceStatusRequest id => reply_ HistoryStream (api.getProcessInstanceStatus fn ctx id)
  | ListWorkflowsRequest => reply_ WorkflowStream (api.listWorkflows fn ctx)
  | ListExecutionRequest name => reply_ ExecutionStream (api.listExecution fn ctx name)
  | GetProcessHistoryRequest id => reply_ HistoryStream (api.getProcessHistory fn ctx id)
  | ListExecutableProcessesRequest => reply_ ExecutableStream (api.listExecutableProcesses fn ctx)
  | GetFatalErrorRequest a b c d => reply_ FatalErrorStream (api.getFatalErrors fn ctx a b c d)
  end.

(** ** The listener *)

(** The context of a call: nothing of the server's but what the headers say. *)
Definition apiCtx (m : Msg) : Ctx :=
  header.FromMsgHeaderToCtx (SetNS Background (HeaderGet m header.SharNamespace)) (msg_Header m).

(** [callAPI] and [callAPIReturnStream].  The function of a stream runs in a
    goroutine of its own, where the deferred recovery does not reach. *)
Definition callAPI (panicRecovery : bool) (m : Msg) (r : request) : M api_answer := λ w,
  match serve (msg_Subject m) (apiCtx m) r w with
  | (w', Ok resp) => (w', Ok (Respond resp))
  | (w', Err err) =>
      let c := if IsWorkflowFatal err then codes.Internal else codes.Unknown in
      (w', Ok (ErrorResponse (apiError c (Error_ err))))
  | (w', Panic p) =>
      if panicRecovery && negb (streaming r) then (w', Ok (ErrorResponse (apiError codes.Internal p)))
      else (w', Panic p)
  end.

(** [listen] and [ListenReturnStream]: a caller that does not say which version
    it is compatible with is turned away first. *)
Definition listen (panicRecovery : bool) (m : Msg) (r : request) : M api_answer :=
  let go := callAPI panicRecovery m r in
  let refuse msg := mret (ErrorResponse (apiError codes.PermissionDenied msg)) in
  if bool_decide (msg_Subject m = APIGetVersionInfo) then go
  else match NewVersion (HeaderGet m NatsCompatHeader) with
       | None => refuse "version: client version invalid"
       | Some v =>
           if api.IsCompatible v then go
           else refuse ("version: client version >= " +:+ compatibleVersion +:+ " required")
       end.
End calls.

(** ** Effects *)
Section api_effects.
Context `{EnvOk} `{ApiEnv} (T : Cells) (P : Msg → Prop) (fn : string) (ctx : Ctx).
Abbreviation eff := (effect T P).

Lemma authorize_ctx name : (authorize fn ctx name).2 = None → (authorize fn ctx name).1 = ctx.
Proof.
  unfold authorize, authenticate. destruct (apiAuthNFn _ _) as [[[] u]|]; simpl; try done.
  destruct apiAuthZFn as [z|]; [|done]. by destruct (z _ _ _ _ _) as [[]|].
Qed.

Lemma eff_granted {A B} (a : A) name (k : Ctx → A → M B) :
  preserves eff (k ctx a) → preserves eff (granted (authed a (authorize fn ctx name)) k).
Proof.
  intros Hk. unfold granted, authed. pose proof (authorize_ctx name) as Hc.
  destruct (authorize fn ctx name) as [c [e|]]; simpl in *; [preserves_tac|by rewrite Hc].
Qed.

Lemma eff_granted_stream {A B} (a : A) name (k : Ctx → A → M (Stream B)) :
  preserves eff (k ctx a) → preserves eff (granted_stream (authed a (authorize fn ctx name)) k).
Proof.
  intros Hk. unfold granted_stream, authed. pose proof (authorize_ctx name) as Hc.
  destruct (authorize fn ctx name) as [c [e|]]; simpl in *; [preserves_tac|by rewrite Hc].
Qed.

Lemma eff_lookup_for {A B C} msg (m : M A) (k : A → M (Ctx * (B + error))) (g : _ → M C) :
  preserves eff m → (∀ a, preserves eff (x ← k a; g x)) → (∀ e, preserves eff (g (ctx, inr e))) →
  preserves eff (x ← lookup_for msg ctx m k; g x).
Proof.
  intros Hm Hk Hg. assert (preserves eff (r ← attempt m; match r with
    | inr err => g (ctx, inr (Wrap msg err)) | inl a => x ← k a; g x end)) as Heq.
  { apply preserves_bind; [apply _|by apply preserves_attempt|]. intros []; auto. }
  intros w. specialize (Heq w). revert Heq. unfold lookup_for, mbind, gom_bind, attempt.
  destruct (m w) as [w1 [a|e|p]]; simpl; done.
Qed.

Lemma eff_authFromJobID {C} id (g : _ → M C) :
  (∀ job name, preserves eff (g (authed job (authorize fn ctx name)))) →
  (∀ e, preserves eff (g (ctx, inr e))) → preserves eff (a ← authFromJobID fn ctx id; g a).
Proof.
  intros Hg He. apply eff_lookup_for; [auto with preserves| |done]. intros job.
  apply eff_lookup_for; [auto with preserves| |done]. intros w. apply Hg.
Qed.

Lemma eff_authFromExecutionID {C} id (g : _ → M C) :
  (∀ x name, preserves eff (g (authed x (authorize fn ctx name)))) →
  (∀ e, preserves eff (g (ctx, inr e))) → preserves eff (a ← authFromExecutionID fn ctx id; g a).
Proof. intros Hg He. apply eff_lookup_for; [auto with preserves| |done]. intros x. apply Hg. Qed.

Lemma eff_authFromProcessInstanceID {C} id (g : _ → M C) :
  (∀ x name, preserves eff (g (authed x (authorize fn ctx name)))) →
  (∀ e, preserves eff (g (ctx, inr e))) → preserves eff (a ← authFromProcessInstanceID fn ctx id; g a).
Proof. intros Hg He. apply eff_lookup_for; [auto with preserves| |done]. intros x. apply Hg. Qed.

Lemma eff_authForWorkflowId {C} id (g : _ → M C) :
  (∀ x name, preserves eff (g (authed x (authorize fn ctx name)))) →
  (∀ e, preserves eff (g (ctx, inr e))) → preserves eff (a ← authForWorkflowId fn ctx id; g a).
Proof. intros Hg He. apply eff_lookup_for; [auto with preserves| |done]. intros x. apply Hg. Qed.
End api_effects.

(** Messages of the namespace, and messages that carry none. *)
Definition ns_or_none (ns : string) (m : Msg) : Prop :=
  HeaderGet m header.SharNamespace = ns ∨ HeaderGet m header.SharNamespace = "".

Section serve_effects.
Context `{EnvOk} `{ApiEnv}.

Section endpoint_effects.
Context (fn : string) (ctx : Ctx).

Lemma eff_Log req : preserves (effect (of_ns (GetNS ctx)) (ns_or_none (GetNS ctx))) (api.log ctx req).
Proof.
  unfold api.log, api.Log, api.PublishObj. preserves_tac. apply eff_natsPublish. by right.
Qed.

Lemma eff_lift_validation {A} T P (r : res validation_error A) :
  preserves (effect T P) (api.lift_validation r).
Proof. by intros w. Qed.
#[local] Hint Resolve eff_lift_validation : preserves.

Lemma eff_handleWorkflowFatalError st : preserves (iso ctx) (api.handleWorkflowFatalError fn ctx st).
Proof.
  unfold api.handleWorkflowFatalError, SignalFatalErrorPause. apply preserves_bind; [apply _|preserves_tac|].
  intros state. pose proof (authorize_ctx fn ctx (ws_WorkflowName state)) as Hc.
  destruct (authorize fn ctx (ws_WorkflowName state)) as [c [e|]]; simpl in *; [preserves_tac|].
  rewrite Hc by done. preserves_tac.
Qed.
#[local] Hint Resolve eff_handleWorkflowFatalError : preserves.

Ltac endpoint_tac :=
  unfold api.storeWorkflow, api.cancelProcessInstance, api.launchProcess, api.sendMessage,
    api.completeManualTask, api.completeServiceTask, api.completeUserTask, api.completeSendMessageTask,
    api.complete, api.getUserTask, api.getJob, api.handleWorkflowError,
    api.getWorkflow, api.versionInfo, api.registerTask, api.getTaskSpec,
    api.deprecateServiceTask, api.getTaskSpecUsage, api.heartbeat, api.resolveWorkflow,
    api.listExecutionProcesses, api.listTaskSpecUIDs, api.getTaskSpecVersions,
    api.getCompensationInputVariables, api.getCompensationOutputVariables, api.listUserTaskIDs,
    api.retryActivity, api.getProcessHeaders, api.disableWorkflow, api.enableWorkflow,
    api.getWorkflowVersions, api.getProcessInstanceStatus, api.listWorkflows, api.listExecution,
    api.getProcessHistory, api.listExecutableProcesses, api.getFatalErrors, DisableWorkflow, EnableWorkflow,
    authForNonWorkflow, authForNamedWorkflow;
  repeat first
    [ apply eff_authFromJobID; intros | apply eff_authFromExecutionID; intros
    | apply eff_authFromProcessInstanceID; intros | apply eff_authForWorkflowId; intros
    | apply eff_granted | apply eff_granted_stream
    | match goal with
      | |- preserves _ (if ?b then _ else _) => destruct b
      | |- preserves _ (match ?x with Some _ => _ | None => _ end) => destruct x
      | |- preserves _ (granted (_, inr _) _) => unfold granted; simpl
      | |- preserves _ (granted_stream (_, inr _) _) => unfold granted_stream; simpl
      end
    | solve [preserves_tac]
    | apply preserves_bind; [apply _|solve [preserves_tac]|intros]
    | progress preserves_tac ].

(** Every endpoint keeps to the namespace of the call. *)
Lemma eff_serve r : preserves (effect (of_ns (GetNS ctx)) (ns_or_none (GetNS ctx))) (serve fn ctx r).
Proof.
  assert (∀ A (x : M A), preserves (iso ctx) x →
    preserves (effect (of_ns (GetNS ctx)) (ns_or_none (GetNS ctx))) x) as Hiso.
  { intros A x Hx w. eapply effect_mono; [..|apply Hx]; [done|]. intros m Hm. left. unfold HeaderGet.
    unfold msg_ns in Hm. by rewrite Hm. }
  destruct r; simpl; unfold reply_; (apply preserves_bind; [apply _| |intros; preserves_tac]).
  all: try apply eff_Log.
  all: apply Hiso; endpoint_tac.
Qed.
End endpoint_effects.

Lemma eff_listen recovery m r :
  preserves (effect (of_ns (HeaderGet m header.SharNamespace)) (ns_or_none (HeaderGet m header.SharNamespace)))
    (listen recovery m r).
Proof.
  assert (preserves (effect (of_ns (HeaderGet m header.SharNamespace))
    (ns_or_none (HeaderGet m header.SharNamespace))) (callAPI recovery m r)) as Hc.
  { intros w. pose proof (eff_serve (msg_Subject m) (apiCtx m) r w) as Hs. unfold callAPI. revert Hs.
    destruct (serve _ _ _ w) as [w' [l|e|p]]; simpl; [done..|]. by destruct (_ && _). }
  unfold listen. preserves_tac.
Qed.
End serve_effects.
