(* ===== verification/Access.v ===== *)
(** * Who may change what

    The endpoints of [server/api/functions.go] under the checks of
    [server/api/auth.go]: a caller who is not authorized for the workflow a
    request concerns changes nothing, whatever fails; and the places where the
    checks do not hold what they promise. *)
From S2P Require Import Prelude Model Errors Env Sim Common Wp NatsUtil Vars Publish History Instances Integrity Lifecycle Lookups TaskSpec Store Launch Jobs Process Api.

(** ** Reads under any schedule *)
Section reads.
Context `{EnvOk}.

(** Only the clock, the namespaces that were opened and the cache may differ. *)
Definition inert (w w' : World) : Prop :=
  (∀ ns b k, w_get w' ns b k = w_get w ns b k) ∧ w_out w' = w_out w.

#[export] Instance inert_preorder : PreOrder inert.
Proof.
  split; [by intros w|]. intros w1 w2 w3 [G1 O1] [G2 O2]. split; [|congruence].
  intros ns b k. by rewrite G2.
Qed.

Lemma effect_inert w w' : effect no_cells (λ _, False) w w' → inert w w'.
Proof.
  intros [HF (_ & l & Ho & Hl)]. split.
  - intros ns b k. apply (frame_get no_cells); [done|intros []].
  - rewrite Ho. destruct l as [|m l]; [by rewrite app_nil_r|]. by inversion Hl.
Qed.

(** A read leaves the cache alone too. *)
Definition reading (w w' : World) : Prop := inert w w' ∧ w_cache w' = w_cache w.

#[export] Instance reading_preorder : PreOrder reading.
Proof.
  split; [by intros w|]. intros w1 w2 w3 [I1 C1] [I2 C2]. split; [by etrans|congruence].
Qed.

Lemma reading_LoadObj A `{Proto A} ns b k : preserves reading (LoadObj A ns b k).
Proof.
  unfold LoadObj, Load. preserves_tac; try by intros w. by apply preserves_nats; [apply _|..].
Qed.

Lemma reading_nsKVs ctx : preserves reading (nsKVs ctx).
Proof.
  intros w. unfold nsKVs. apply preserves_wrapping. clear w. intros w. unfold KvsFor.
  case_bool_decide; [done|]. apply preserves_wrapping. by apply preserves_nats; [apply _|..].
Qed.
#[local] Hint Resolve reading_LoadObj reading_nsKVs : preserves.

(** [m] only reads, and what it returns satisfies [φ]. *)
Definition finds {A} (m : M A) (w : World) (φ : A → Prop) : Prop :=
  wp m w (λ w' r, reading w w' ∧ ∀ a, r = Ok a → φ a).

Lemma finds_bind {A B} (m : M A) (k : A → M B) w φ ψ :
  finds m w φ → (∀ a w', reading w w' → φ a → finds (k a) w' ψ) → finds (m ≫= k) w ψ.
Proof.
  unfold finds. intros Hm Hk. apply wp_bind. eapply wp_mono; [|exact Hm]. intros w' [a|e|p] [Hr Ha].
  - specialize (Hk a w' Hr (Ha a eq_refl)). eapply wp_mono; [|exact Hk]. intros w2 r [Hr2 H2].
    split; [by etrans|done].
  - by split.
  - by split.
Qed.

Lemma finds_attempt {A} (m : M A) w φ :
  finds m w φ → finds (attempt m) w (λ r, ∀ a, r = inl a → φ a).
Proof.
  unfold finds. intros Hm. apply wp_attempt. eapply wp_mono; [|exact Hm].
  intros w' [a|e|p] [Hr Ha]; (split; [done|]); [|intros ? [= <-] ? [=]|done].
  intros r [= <-] a' [= ->]. by apply Ha.
Qed.

Lemma finds_wrapping {A} f (m : M A) w φ : finds m w φ → finds (wrapping f m) w φ.
Proof.
  unfold finds. intros Hm. apply wp_wrapping. eapply wp_mono; [|exact Hm].
  intros w' [a|e|p] [Hr Ha]; by split.
Qed.

Lemma finds_ret {A} (a : A) w (φ : A → Prop) : φ a → finds (mret a) w φ.
Proof. intros Ha. apply wp_ret. split; [done|]. by intros ? [= <-]. Qed.

Lemma finds_throw {A} e w (φ : A → Prop) : finds (throw e) w φ.
Proof. by split. Qed.

Lemma LoadObj_finds A `{Proto A} ns b k w :
  finds (LoadObj A ns b k) w (λ v, ∃ d, w_get w ns b k = Some d ∧ Unmarshal d = Some v).
Proof.
  apply (wp_preserves reading); [apply reading_LoadObj|].
  unfold LoadObj, Load, kvGet. wp_steps. apply wp_nats_any; cbn [fst snd]; intros; wp_steps;
    try (intros; by split).
  change (w_kv (w_next w)) with (w_kv w).
  destruct (kv_get (w_kv w ns b) k) as [[d r]|] eqn:Hg; wp_steps; [|intros; by split].
  simpl. destruct (Unmarshal d) as [v|] eqn:Hd; wp_steps; [|intros; by split].
  intros Hr. split; [done|]. intros ? [= <-]. exists d. split; [by eapply kv_get_w_get|done].
Qed.

Lemma nsKVs_finds ctx w : finds (nsKVs ctx) w (λ _, True).
Proof. split; [apply reading_nsKVs|done]. Qed.

(** [KvsFor] and the load of one object, whose errors are turned into others. *)
Lemma load_finds A `{Proto A} ctx b k (h : error → M A) w :
  (∀ err w' φ, finds (h err) w' φ) →
  finds (_ ← nsKVs ctx; r ← attempt (LoadObj A (GetNS ctx) b k);
         match r with inl a => mret a | inr err => h err end) w
    (λ v, ∃ d, w_get w (GetNS ctx) b k = Some d ∧ Unmarshal d = Some v).
Proof.
  intros Hh. eapply finds_bind; [apply nsKVs_finds|]. intros _ w1 [[Hg _] _] _.
  eapply finds_bind; [apply finds_attempt, LoadObj_finds|]. intros [v|err] w2 _ Hv; [|apply Hh].
  apply finds_ret. rewrite <-Hg. by apply Hv.
Qed.

Lemma GetJob_finds ctx id w :
  finds (GetJob ctx id) w (λ job, ∃ d, w_get w (GetNS ctx) Job id = Some d ∧ Unmarshal d = Some job).
Proof. apply load_finds. intros err w' φ. destruct (Is err _); apply finds_throw. Qed.

Lemma GetExecution_finds ctx id w :
  finds (GetExecution ctx id) w (λ e, ∃ d, w_get w (GetNS ctx) WfExecution id = Some d ∧ Unmarshal d = Some e).
Proof. apply load_finds. intros err w' φ. destruct (Is err _); apply finds_throw. Qed.

Lemma GetProcessInstance_finds ctx id w :
  finds (GetProcessInstance ctx id) w
    (λ pi, ∃ d, w_get w (GetNS ctx) WfProcessInstance id = Some d ∧ Unmarshal d = Some pi).
Proof. apply load_finds. intros err w' φ. destruct (Is err _); apply finds_throw. Qed.

(** The workflow a lookup may give: the cache is shared by all namespaces. *)
Definition known (w : World) (ns id : string) (wf : Workflow) : Prop :=
  w_cache w !! id = Some wf ∨ ∃ d, w_get w ns Wf id = Some d ∧ Unmarshal d = Some wf.

Lemma GetWorkflow_known ctx id w :
  wp (GetWorkflow ctx id) w (λ w' r, inert w w' ∧ ∀ wf, r = Ok wf → known w (GetNS ctx) id wf).
Proof.
  apply wp_wrapping. unfold Cacheable. apply wp_bind. unfold cacheGet, wp at 1. simpl.
  destruct (if cache_hit _ then w_cache w !! id else None) as [wf|] eqn:Hc.
  { apply wp_ret. split; [done|]. intros ? [= <-]. left. by destruct (cache_hit _). }
  apply wp_bind, wp_wrapping. eapply wp_mono; [|apply load_finds]; cycle 1.
  { intros err w' φ. destruct (Is err _); apply finds_throw. }
  intros w1 [wf|e|p] [[Hi _] Hf]; [|done..]. apply wp_bind. unfold cacheSet, wp at 1. simpl.
  assert (known w (GetNS ctx) id wf) as Hk by (right; by apply (Hf wf)).
  destruct (cache_set _); apply wp_ret; (split; [exact Hi|]); by intros ? [= <-].
Qed.
End reads.

(** ** Authorization *)
Section access.
Context `{EnvOk} `{ApiEnv} (fn : string) (ctx : Ctx).

Definition denied (name : string) : Prop := (authorize fn ctx name).2 ≠ None.

(** The workflow names a stored object leads to. *)
Definition of_job (w : World) (id name : string) : Prop :=
  ∃ d job wf, w_get w (GetNS ctx) Job id = Some d ∧ Unmarshal d = Some job ∧
    known w (GetNS ctx) (ws_WorkflowId job) wf ∧ name = wf_Name wf.
Definition of_execution (w : World) (id name : string) : Prop :=
  ∃ d e, w_get w (GetNS ctx) WfExecution id = Some d ∧ Unmarshal d = Some e ∧ name = ex_WorkflowName e.
Definition of_instance (w : World) (id name : string) : Prop :=
  ∃ d pi, w_get w (GetNS ctx) WfProcessInstance id = Some d ∧ Unmarshal d = Some pi ∧
    name = pi_WorkflowName pi.
Definition of_workflow (w : World) (id name : string) : Prop :=
  ∃ wf, known w (GetNS ctx) id wf ∧ name = wf_Name wf.

(** Nothing changed and an error went back. *)
Definition refused {A} (failed : A → Prop) (w w' : World) (r : res error A) : Prop :=
  inert w w' ∧ ∀ a, r = Ok a → failed a.

Abbreviation turned_away := (refused (λ a, ∃ e, a.2 = inr e)).

Lemma authed_denied {A} (a : A) name : denied name → ∃ e, (authed a (authorize fn ctx name)).2 = inr e.
Proof. unfold denied, authed. destruct (authorize fn ctx name) as [c [e|]]; [by eexists|done]. Qed.

Lemma lookup_for_denied {A B} msg (m : M A) (k : A → M (Ctx * (B + error))) w φ :
  finds m w φ → (∀ a w', reading w w' → φ a → wp (k a) w' (turned_away w')) →
  wp (lookup_for msg ctx m k) w (turned_away w).
Proof.
  intros Hm Hk. unfold lookup_for. apply wp_bind. eapply wp_mono; [|apply finds_attempt, Hm].
  intros w' [[a|e]|e|p] [Hr Ha].
  - eapply wp_mono; [|apply (Hk a w'); [done|by apply (Ha (inl a))]]. intros w2 r [Hi Hf].
    split; [|done]. etrans; [apply Hr|done].
  - apply wp_ret. split; [apply Hr|]. intros ? [= <-]. by eexists.
  - by split; [apply Hr|].
  - by split; [apply Hr|].
Qed.

Lemma authed_turned_away {A} (a : A) name w : denied name →
  wp (mret (authed a (authorize fn ctx name))) w (turned_away w).
Proof. intros Hd. apply wp_ret. split; [done|]. intros ? [= <-]. by apply authed_denied. Qed.

Lemma workflow_denied {A} msg id (a : A) w :
  (∀ name, of_workflow w id name → denied name) →
  wp (lookup_for msg ctx (GetWorkflow ctx id) (λ wf, mret (authed a (authorize fn ctx (wf_Name wf))))) w
    (turned_away w).
Proof.
  intros Hd. unfold lookup_for. apply wp_bind, wp_attempt. eapply wp_mono; [|apply GetWorkflow_known].
  intros w' [wf|e|p] [Hi Hk].
  - apply wp_ret. split; [done|]. intros ? [= <-]. apply authed_denied, Hd. exists wf. auto.
  - apply wp_ret. split; [done|]. intros ? [= <-]. by eexists.
  - by split.
Qed.

Lemma authFromJobID_denied id w :
  (∀ name, of_job w id name → denied name) → wp (authFromJobID fn ctx id) w (turned_away w).
Proof.
  intros Hd. eapply lookup_for_denied; [apply GetJob_finds|]. intros job w' [[Hg Ho] Hc] (d & Hj & Hu).
  apply workflow_denied. intros name (wf & Hk & ->). apply Hd. exists d, job, wf. repeat (split; [done|]).
  split; [|done]. unfold known in *. by rewrite Hc, Hg in Hk.
Qed.

Lemma authFromExecutionID_denied id w :
  (∀ name, of_execution w id name → denied name) → wp (authFromExecutionID fn ctx id) w (turned_away w).
Proof.
  intros Hd. eapply lookup_for_denied; [apply GetExecution_finds|]. intros e w' _ (d & He & Hu).
  apply authed_turned_away, Hd. by exists d, e.
Qed.

Lemma authFromProcessInstanceID_denied id w :
  (∀ name, of_instance w id name → denied name) →
  wp (authFromProcessInstanceID fn ctx id) w (turned_away w).
Proof.
  intros Hd. eapply lookup_for_denied; [apply GetProcessInstance_finds|]. intros e w' _ (d & He & Hu).
  apply authed_turned_away, Hd. by exists d, e.
Qed.

Lemma granted_refused {A B} (m : M (Ctx * (A + error))) (k : Ctx → A → M B) w failed :
  wp m w (turned_away w) → wp (a ← m; granted a k) w (refused failed w).
Proof.
  intros Hm. apply wp_bind. eapply wp_mono; [|exact Hm]. intros w' [a|e|p] [Hi Hf]; [|by split..].
  destruct (Hf a eq_refl) as [e He]. unfold granted. rewrite He. by split.
Qed.

Lemma granted_stream_refused {A B} (m : M (Ctx * (A + error))) (k : Ctx → A → M (Stream B)) w :
  wp m w (turned_away w) → wp (a ← m; granted_stream a k) w (refused (λ s, s.2 ≠ []) w).
Proof.
  intros Hm. apply wp_bind. eapply wp_mono; [|exact Hm]. intros w' [a|e|p] [Hi Hf]; [|by split..].
  destruct (Hf a eq_refl) as [e He]. unfold granted_stream. rewrite He. split; [done|]. by intros ? [= <-].
Qed.

Lemma pure_refused {A B} (r : Ctx * (A + error)) (k : Ctx → A → M B) w failed e :
  r.2 = inr e → wp (granted r k) w (refused failed w).
Proof. intros He. unfold granted. rewrite He. by split. Qed.

Lemma pure_stream_refused {A B} (r : Ctx * (A + error)) (k : Ctx → A → M (Stream B)) w e :
  r.2 = inr e → wp (granted_stream r k) w (refused (λ s, s.2 ≠ []) w).
Proof. intros He. unfold granted_stream. rewrite He. split; [done|]. by intros ? [= <-]. Qed.

(** The process a message starts, by the receivers stored for it. *)
Definition of_message (w : World) (message name : string) : Prop :=
  ∃ d rs m, w_get w (GetNS ctx) WfMsgTypes message = Some d ∧ Unmarshal d = Some rs ∧
    m ∈ mrs_MessageReceiver rs ∧ name = mr_ProcessIdToStart m.

Lemma GetProcessIdFor_finds message w :
  wp (GetProcessIdFor ctx message) w (λ w' r, inert w w' ∧ ∀ id, r = Ok id → of_message w message id).
Proof.
  apply (wp_preserves (effect no_cells (λ _, False))); [apply eff_GetProcessIdFor|].
  unfold GetProcessIdFor. apply wp_bind. eapply wp_mono; [|apply nsKVs_finds].
  assert (∀ w' (r : res error string), (∀ id, r ≠ Ok id) →
    effect no_cells (λ _, False) w w' → inert w w' ∧ ∀ id, r = Ok id → of_message w message id) as Hno.
  { intros w' r Hr He. split; [by apply effect_inert|]. intros id Hid. by destruct (Hr id). }
  intros w1 [[]|e|p] [[[Hg1 _] _] _]; [|by apply Hno..].
  assert (∀ w' e, wp (throw e : M string) w' (λ w' r, effect no_cells (λ _, False) w w' →
    inert w w' ∧ ∀ id, r = Ok id → of_message w message id)) as Ht.
  { intros w2 e. unfold wp. simpl. by apply Hno. }
  unfold LoadObjInto, Load, kvGet. wp_steps. apply wp_nats_any; cbn [fst snd]; intros; wp_steps; cbn [fst snd].
  2,3: destruct (Is _ _); simpl; apply Ht.
  change (w_kv (w_next w1)) with (w_kv w1).
  destruct (kv_get (w_kv w1 (GetNS ctx) WfMsgTypes) message) as [[d rev]|] eqn:Hk; wp_steps; cbn [fst snd].
  2: simpl; apply Ht.
  destruct (Unmarshal d) as [rs|] eqn:Hu; cbn [fst snd]; [|simpl; apply Ht].
  simpl. case_bool_decide; [apply Ht|].
  destruct (list_find _ _) as [[i m]|] eqn:Hm; [|apply Ht].
  apply wp_ret. intros He. split; [by apply effect_inert|]. intros ? [= <-].
  apply list_find_Some in Hm as (Hm & _). apply kv_get_w_get in Hk. rewrite Hg1 in Hk.
  exists d, rs, m. repeat (split; [done|]). split; [by eapply list_elem_of_lookup_2|done].
Qed.

(** The names of the workflows a request concerns: that of the stored job, instance,
    execution or workflow it names, or the workflow it names itself; no workflow is
    the name that is empty. *)
Definition concerns (w : World) (r : request) (name : string) : Prop :=
  match r with
  | StoreWorkflowRequest wf => wf_Name <$> wf = Some name
  | CompleteManualTaskRequest id _ | CompleteServiceTaskRequest id _ | CompleteUserTaskRequest id _
  | CompleteSendMessageRequest id _ | GetUserTaskRequest id | GetJobRequest id
  | HandleWorkflowErrorRequest id _ _ => of_job w id name
  | CancelProcessInstanceRequest id _ _ | GetCompensationInputVariablesRequest id _
  | GetCompensationOutputVariablesRequest id _ | GetProcessHeadersRequest id
  | GetProcessInstanceStatusRequest id | GetProcessHistoryRequest id => of_instance w id name
  | ListExecutionProcessesRequest id => of_execution w id name
  | DisableWorkflowRequest n | EnableWorkflowRequest n | GetWorkflowVersionsRequest n
  | ListExecutionRequest n => name = n
  | GetFatalErrorRequest n id e p =>
      if api.specified n then name = n
      else if api.specified id then of_workflow w id name
      else if api.specified e then of_execution w e name else of_instance w p name
  | _ => name = ""
  end.

(** Launching and reporting a failed activity or its retry: the workflow of the
    process or the activity is not looked up, and the caller is checked for a name
    of the request, the id of the process or the name in the state. *)
Definition unverified (r : request) : bool :=
  match r with
  | LaunchWorkflowRequest _ _ _ | SendMessageRequest _ _ _ | HandleWorkflowFatalErrorRequest _
  | RetryActivityRequest _ => true
  | _ => false
  end.

Definition presents (w : World) (r : request) (name : string) : Prop :=
  match r with
  | LaunchWorkflowRequest p _ _ => name = p
  | SendMessageRequest message _ _ => of_message w message name
  | HandleWorkflowFatalErrorRequest st | RetryActivityRequest st => ws_WorkflowName <$> st = Some name
  | _ => False
  end.

(** The caller may not make the request. *)
Definition turned_down (w : World) (r : request) : Prop :=
  ∀ name, (if unverified r then presents w r name else concerns w r name) → denied name.

(** The endpoints that check their caller: all but the messages sent with a
    correlation key, the heartbeats, the logs, the resolution of a workflow and
    the version handshake. *)
Definition checked (r : request) : bool :=
  match r with
  | SendMessageRequest _ key _ => bool_decide (key = "")
  | HeartbeatRequest_ _ | LogRequest _ | ResolveWorkflowRequest _ | GetVersionInfoRequest _ => false
  | _ => true
  end.

Lemma reply_refused {A} (f : A → response) (failed : A → Prop) (m : M A) w :
  (∀ a, failed a → stream_errors (f a) ≠ []) →
  wp m w (refused failed w) → wp (reply_ f m) w (refused (λ r, stream_errors r ≠ []) w).
Proof.
  intros Hf Hm. apply wp_bind. eapply wp_mono; [|exact Hm]. intros w' [a|e|p] [Hi Hr]; [|by split..].
  apply wp_ret. split; [done|]. intros ? [= <-]. by apply Hf, Hr.
Qed.

Lemma named_denied name : denied name → ∃ e, (authForNamedWorkflow fn ctx name).2 = inr e.
Proof. apply authed_denied. Qed.

Lemma launch_refused p vars headers w failed :
  denied p → wp (api.launchProcess fn ctx p vars headers) w (refused failed w).
Proof. intros Hd. destruct (named_denied _ Hd) as [e He]. by apply (pure_refused _ _ _ _ e). Qed.

Lemma storeWorkflow_refused wf w failed :
  (∀ name, wf_Name <$> wf = Some name → denied name) →
  wp (api.storeWorkflow fn ctx wf) w (refused failed w).
Proof.
  intros Hd. unfold api.storeWorkflow. apply wp_bind. destruct wf as [wf|]; [apply wp_ret|by split].
  destruct (named_denied (wf_Name wf)) as [e He]; [by apply Hd|]. by apply (pure_refused _ _ _ _ e).
Qed.

Lemma sendMessage_refused message vars w failed :
  (∀ name, of_message w message name → denied name) →
  wp (api.sendMessage fn ctx message "" vars) w (refused failed w).
Proof.
  intros Hd. unfold api.sendMessage. simpl. apply wp_bind, wp_wrapping.
  eapply wp_mono; [|apply GetProcessIdFor_finds]. intros w' [id|e|p] [Hi Hm]; [|by split..].
  apply wp_wrapping. eapply wp_mono; [|apply (launch_refused id _ _ _ (λ _, False)), Hd; auto].
  intros w2 r [Hi2 Hr].
  assert (inert w w2) as Hi3 by (by etrans).
  destruct r as [a|e|p]; [by destruct (Hr a eq_refl)|by split..].
Qed.

Lemma handleWorkflowFatalError_refused st w failed :
  (∀ name, ws_WorkflowName <$> st = Some name → denied name) →
  wp (api.handleWorkflowFatalError fn ctx st) w (refused failed w).
Proof.
  intros Hd. unfold api.handleWorkflowFatalError. apply wp_bind. destruct st as [st|]; [apply wp_ret|by split].
  assert (denied (ws_WorkflowName st)) as Hst by (by apply Hd). unfold denied in Hst.
  destruct (authorize fn ctx (ws_WorkflowName st)) as [c [e|]]; [by split|done].
Qed.

Lemma retryActivity_refused st w failed :
  (∀ name, ws_WorkflowName <$> st = Some name → denied name) →
  wp (api.retryActivity fn ctx st) w (refused failed w).
Proof.
  intros Hd. unfold api.retryActivity. apply wp_bind. destruct st as [st|]; [apply wp_ret|by split].
  destruct (named_denied (ws_WorkflowName st)) as [e He]; [by apply Hd|]. by apply (pure_refused _ _ _ _ e).
Qed.

(** The listing goes on after the error, but it only reads. *)
Lemma listExecution_refused name w :
  denied name → wp (api.listExecution fn ctx name) w (refused (λ s, s.2 ≠ []) w).
Proof.
  intros Hd. destruct (named_denied name Hd) as [e He]. unfold api.listExecution. rewrite He. apply wp_bind.
  apply (wp_preserves (effect no_cells (λ _, False))); [apply eff_ListExecutions|].
  unfold wp. destruct (ListExecutions _ _ w) as [w' [s|e'|p]]; cbn [fst snd]; intros Hi;
    apply effect_inert in Hi; [|by split..].
  split; [done|]. by intros ? [= <-].
Qed.

Lemma getFatalErrors_refused a b c d w :
  (∀ name, concerns w (GetFatalErrorRequest a b c d) name → denied name) →
  wp (api.getFatalErrors fn ctx a b c d) w (refused (λ s, s.2 ≠ []) w).
Proof.
  simpl. intros Hd. unfold api.getFatalErrors.
  destruct (api.validateGetFatalErrorRequest a b c d) as [e|].
  { apply wp_ret. split; [done|]. by intros ? [= <-]. }
  destruct (api.specified a).
  { destruct (named_denied a) as [e He]; [by apply Hd|]. by apply (pure_stream_refused _ _ _ e). }
  destruct (api.specified b); [apply granted_stream_refused; by apply workflow_denied|].
  destruct (api.specified c); [apply granted_stream_refused; by apply authFromExecutionID_denied|].
  destruct (api.specified d); [apply granted_stream_refused; by apply authFromProcessInstanceID_denied|].
  by split.
Qed.
End access.


(** ** Listings *)
Section listing.
Context `{EnvOk} (NF : NoFaults).

Lemma wp_LoadObjInto `{Proto A} ns b k d (v v0 : A) w Φ :
  w_get w ns b k = Some d → Unmarshal d = Some v →
  (∀ w', w' ≡ w → Φ w' (Ok (v, None))) → wp (LoadObjInto ns b k v0) w Φ.
Proof.
  intros Hg Hd HΦ. unfold LoadObjInto. wp_steps. apply wp_Load; [done|]. rewrite Hg. intros w' Hw.
  wp_steps. rewrite Hd. by apply HΦ.
Qed.

(** The keys of a bucket, or [ErrNoKeysFound] when there are none. *)
Lemma wp_kvKeys ns b w Φ :
  (∀ w' ks, w' ≡ w → NoDup ks → (∀ k, k ∈ ks ↔ is_Some (w_get w ns b k)) →
     Φ w' (match ks with [] => Err (Sentinel ErrNoKeysFound) | _ => Ok ks end)) →
  wp (kvKeys ns b) w Φ.
Proof.
  intros HΦ. unfold kvKeys. apply wp_nats; [done|]. simpl. change (w_kv (w_next w)) with (w_kv w).
  specialize (HΦ (w_next w) (kv_keys (w_kv w ns b)) (w_next_equiv w) (kv_keys_nodup _)).
  destruct (kv_keys (w_kv w ns b)) as [|k ks] eqn:Hk; apply HΦ; intros k'; rewrite <-Hk, kv_keys_spec;
    unfold w_get; by rewrite fmap_is_Some.
Qed.

(** All executions of the namespace decode. *)
Definition executions_ok (w : World) (ns : string) : Prop :=
  ∀ k d, w_get w ns WfExecution k = Some d → ∃ e, d = DExecution e.

(** The version of a workflow an execution runs, by the last entry of its id. *)
Definition version_table (wfv : WorkflowVersions) : gmap string WorkflowVersion :=
  foldl (λ m v, <[wv_Id v := v]> m) ∅ (wvs_Version wfv).

Definition runs (w : World) (ns : string) (wfv : WorkflowVersions) (k : string) (n : Z) : Prop :=
  ∃ e v, w_get w ns WfExecution k = Some (DExecution e) ∧
    version_table wfv !! ex_WorkflowId e = Some v ∧ n = wv_Number v.

Lemma wp_list_executions ns wfv ks w Φ :
  executions_ok w ns → (∀ k, k ∈ ks → is_Some (w_get w ns WfExecution k)) → NoDup ks →
  (∀ w' l, w' ≡ w → NoDup l.*1 → (∀ k n, (k, n) ∈ l ↔ k ∈ ks ∧ runs w ns wfv k n) →
     Φ w' (Ok (l, []))) →
  wp (list_executions ns (version_table wfv) ks) w Φ.
Proof.
  intros Hok. revert w Hok Φ. induction ks as [|k ks IH]; intros w Hok Φ Hks Hnd HΦ; simpl.
  { wp_steps. apply HΦ; [done|constructor|]. intros k n. by rewrite !elem_of_nil; split; [|intros []]. }
  apply NoDup_cons in Hnd as [Hk Hnd]. destruct (Hks k) as [d Hd]; [set_solver|].
  destruct (Hok _ _ Hd) as [e ->]. wp_steps.
  apply (wp_LoadObjInto _ _ _ (DExecution e) e); [done|done|]. intros w1 Hw1. wp_steps. cbn [fst snd].
  assert (executions_ok w1 ns) as Hok1 by (intros k' d'; rewrite Hw1; apply Hok).
  assert (∀ k n, runs w1 ns wfv k n ↔ runs w ns wfv k n) as Hr.
  { intros k' n'. unfold runs. by setoid_rewrite Hw1. }
  assert (∀ k, k ∈ ks → is_Some (w_get w1 ns WfExecution k)) as Hks1.
  { intros k' Hk'. rewrite Hw1. apply Hks. set_solver. }
  destruct (version_table wfv !! ex_WorkflowId e) as [v|] eqn:Hv.
  - wp_steps. apply IH; [done..|]. intros w2 l Hw2 Hl Hin. wp_steps. cbn [fst snd].
    apply HΦ; [by rewrite Hw2|..].
    + simpl. constructor; [|done]. intros (x & -> & Hx)%list_elem_of_fmap. destruct x as [k' n'].
      by apply Hin in Hx as [? _].
    + intros k' n'. rewrite elem_of_cons, Hin, Hr, elem_of_cons. split.
      * intros [[= -> ->]|[? ?]]; [|by auto]. split; [by left|]. by exists e, v.
      * intros [[->|?] Hx]; [left|by right]. destruct Hx as (e' & v' & He' & Hv' & ->).
        rewrite Hd in He'. simplify_eq. congruence.
  - apply IH; [done..|]. intros w2 l Hw2 Hl Hin. apply HΦ; [by rewrite Hw2|done|].
    intros k' n'. rewrite Hin, Hr, elem_of_cons. split; [intros [? ?]; by auto|].
    intros [[->|?] Hx]; [|done]. destruct Hx as (e' & v' & He' & Hv' & ->). rewrite Hd in He'.
    simplify_eq.
Qed.

Lemma wp_ListExecutions ctx name wfv w Φ :
  w_get w (GetNS ctx) WfVersion name = Some (DVersions wfv) → executions_ok w (GetNS ctx) →
  (∀ w' l, w' ≡ w → NoDup l.*1 → (∀ k n, (k, n) ∈ l ↔ runs w (GetNS ctx) wfv k n) → Φ w' (Ok (l, []))) →
  wp (ListExecutions ctx name) w Φ.
Proof.
  intros Hv Hok HΦ. unfold ListExecutions. wp_steps. apply wp_nsKVs; [done|]. intros w1 Hw1 _. wp_steps.
  apply (wp_LoadObj_some NF _ _ _ (DVersions wfv) wfv); [by rewrite Hw1|done|]. intros w2 Hw2. wp_steps.
  apply wp_kvKeys. intros w3 ks Hw3 Hnd Hks. rewrite Hw2, Hw1 in Hw3.
  assert (executions_ok w3 (GetNS ctx)) as Hok3 by (intros k' d'; rewrite Hw3; apply Hok).
  assert (∀ k n, runs w3 (GetNS ctx) wfv k n ↔ runs w (GetNS ctx) wfv k n) as Hr.
  { intros k' n'. unfold runs. by setoid_rewrite Hw3. }
  assert (∀ k, k ∈ ks ↔ is_Some (w_get w (GetNS ctx) WfExecution k)) as Hks'.
  { intros k. by rewrite Hks, Hw2, Hw1. }
  destruct ks as [|k0 ks]; wp_steps.
  - simpl. wp_steps. apply HΦ; [by rewrite Hw3|constructor|]. intros k n. split; [by intros ?%elem_of_nil|].
    intros (e & v & He & _). assert (k ∈ []) as Hin by (apply Hks'; by rewrite He).
    by apply elem_of_nil in Hin.
  - apply wp_list_executions; [done| |done|].
    { intros k Hk. rewrite Hw3. by apply Hks'. }
    intros w4 l Hw4 Hl Hin. apply HΦ; [by rewrite Hw4|done|]. intros k n. rewrite Hin, Hr. split; [by intros []|].
    intros Hx. split; [|done]. apply Hks'. destruct Hx as (e & v & He & _). by rewrite He.
Qed.
End listing.

(** The listing of executions does not stop where authentication fails.
    For a caller of any namespace whom the server does not know the endpoint
    sends an error and then, on the same stream, every execution of the workflow
    in the default namespace: the failed check hands the endpoint an empty
    context, and the endpoint goes on with it. *)
Theorem listExecution_leaks `{EnvOk} `{ApiEnv} fn ctx name wfv w :
  NoFaults → (∀ user, apiAuthNFn ctx (ctx_Values ctx) ≠ Some (true, user)) →
  w_get w "default" WfVersion name = Some (DVersions wfv) → executions_ok w "default" →
  wp (api.listExecution fn ctx name) w (returns (λ w' s,
    s.2 ≠ [] ∧ NoDup s.1.*1 ∧ ∀ k n, (k, n) ∈ s.1 ↔ runs w "default" wfv k n)).
Proof.
  intros NF Ha Hv Hok.
  assert (∃ e, authForNamedWorkflow fn ctx name = (Background, inr e)) as [e He].
  { unfold authForNamedWorkflow, authorize, authenticate.
    destruct (apiAuthNFn ctx (ctx_Values ctx)) as [[[] u]|] eqn:Hn; [by destruct (Ha u)|by eexists..]. }
  unfold api.listExecution. rewrite He. wp_steps. cbn [fst snd].
  apply (wp_ListExecutions NF Background name wfv); [done|done|]. intros w' l Hw Hl Hin. wp_steps.
  split; [done|]. by split.
Qed.

(** A request for fatal errors that names nothing, only a wildcard, passes
    the validation, is checked against no workflow and goes on with a nil
    context: the endpoint panics for every caller, and where the server is told
    to recover from panics it still does, since streams run in a goroutine of
    their own. *)
Theorem getFatalErrors_panics `{EnvOk} `{ApiEnv} a b c d m w :
  Forall (λ s, s = "" ∨ s = "*") [a; b; c; d] → [a; b; c; d] ≠ [""; ""; ""; ""] →
  [a; b; c; d] ≠ ["*"; "*"; "*"; "*"] →
  wp (callAPI true m (GetFatalErrorRequest a b c d)) w (λ _ r, ∃ p, r = Panic p).
Proof.
  intros Hall Hne Hnw.
  assert (∀ s, s ∈ [a; b; c; d] → api.specified s = false) as Hs.
  { intros s Hin. rewrite Forall_forall in Hall. apply bool_decide_eq_false.
    destruct (Hall s Hin) as [-> | ->]; naive_solver. }
  unfold wp, callAPI. simpl. unfold api.getFatalErrors, api.validateGetFatalErrorRequest.
  rewrite (bool_decide_eq_false_2 (a = "" ∧ _)) by naive_solver.
  rewrite (bool_decide_eq_false_2 (a = "*" ∧ _)) by naive_solver.
  rewrite (Hs a), (Hs b), (Hs c), (Hs d) by set_solver. by eexists.
Qed.

(** ** Examples *)

(** A server that knows nobody, and what it is started with by default. *)
Definition nobody : ApiEnv := {|
  apiAuthNFn _ _ := None; apiAuthZFn := None; NewVersion := Some; compatibleVersion := "v1.1.503";
  headers_unmarshal _ := inl ∅; Error_ _ := "error" |}.

Definition ex_intruder : Ctx := mkCtx (Some "elsewhere") (Some "1") ∅.
Definition ex_running : @World sim :=
  @w_put sim "default" WfExecution "e1" (DExecution (mkExecution "e1" "v1" "orders" []))
    (@w_put sim "default" WfVersion "orders"
      (DVersions (mkWorkflowVersions [mkWorkflowVersion "v1" "" 1] false)) world_init).


Lemma listExecution_leaks_witness :
  @wp sim _ (@api.listExecution sim nobody "WORKFLOW.Api.ListExecution" ex_intruder "orders") ex_running
    (returns (λ w' s, s.2 ≠ [] ∧ NoDup s.1.*1 ∧
       ∀ k n, (k, n) ∈ s.1 ↔ @runs sim ex_running "default"
                 (mkWorkflowVersions [mkWorkflowVersion "v1" "" 1] false) k n)).
Proof.
  apply (@listExecution_leaks sim (Sim_ok _ _ _) nobody); [exact sim_NoFaults|discriminate|reflexivity|].
  intros k d. destruct (decide (k = "e1")) as [->|Hk].
  - vm_compute. intros [= <-]. by eexists.
  - unfold ex_running. rewrite !(@w_get_put_ne sim (Sim_ok _ _ _)) by (intros ?; congruence). intros Hd.
    discriminate Hd.
Defined.

Lemma getFatalErrors_panics_witness :
  @wp sim _ (@callAPI sim nobody true (mkMsg "WORKFLOW.Api.GetFatalErrors" ∅ (DBytes ""))
    (GetFatalErrorRequest "*" "" "" "")) world_init (λ _ r, ∃ p, r = Panic p).
Proof.
  apply (@getFatalErrors_panics sim (Sim_ok _ _ _) nobody); [|discriminate..].
  repeat (apply List.Forall_cons; [auto|]). apply List.Forall_nil.
Defined.
