(* ===== verification/Requests.v ===== *)
(** * The requests of a streaming endpoint

    [ListenReturnStream] and [callAPIReturnStream] of [server/api/listener.go] with
    the loop of [StreamingReplyServer] ([common/natsutil.go]) around them.  An
    endpoint is registered with one request object, and every call decodes its
    message into that object, in a goroutine the subscription waits for only until
    the stream ends or is cancelled.

    [requests_apart]: as long as no stream is cancelled, a call serves exactly the
    request it was sent and authorised.  [cancelled_request_read]: a cancelled call
    still decodes into the object, and then the next call can be authorised for its
    own request and serve the cancelled one.  [history_for] is what the endpoint of
    process histories does with the two reads. *)
From S2P Require Import Prelude Model Errors Env Sim Common Wp NatsUtil Vars Publish History Instances TaskSpec Store Launch Jobs Process Api.

Section requests.

(** Callers, requests (the inhabitant is the empty one), what the endpoint's check
    answers, and whether the endpoint returns when that is no, as all do but
    [listExecution]. *)
Context {Caller Req : Type} `{Inhabited Req} (allowed : Caller → Req → bool) (strict : bool).

(** Where the goroutine of a call is.  [Checked] and [Serving] say which request
    was checked, [Serving] also which one was read after that. *)
Inductive call_pc :=
  | Started
  | Reset           (* [proto.Unmarshal] empties the object first *)
  | Decoded
  | Checked (checked : Req)
  | Serving (checked served : Req)
  | Ended.

Record call := mkCall { ca_caller : Caller; ca_request : Req; ca_pc : call_pc }.

#[global] Instance call_settable : Settable call := λ r,
  mkCall (ca_caller r) (ca_request r) (ca_pc r).

(** The object, the call whose stream the subscription is in, the calls. *)
Record endpoint := mkEndpoint { ep_container : Req; ep_stream : option nat; ep_calls : list call }.

#[global] Instance endpoint_settable : Settable endpoint := λ r,
  mkEndpoint (ep_container r) (ep_stream r) (ep_calls r).

Definition at_pc (i : nat) (p : call_pc) (s : endpoint) : endpoint :=
  s <| ep_calls ::= alter (λ c, c <| ca_pc := p |>) i |>.

Definition pc_of (s : endpoint) (i : nat) : option call_pc := ca_pc <$> ep_calls s !! i.

(** The subscription takes one message at a time. *)
Inductive request_step : endpoint → endpoint → Prop :=
  | receives s c r :
      ep_stream s = None →
      request_step s (mkEndpoint (ep_container s) (Some (length (ep_calls s)))
                        (ep_calls s ++ [mkCall c r Started]))
  | turned_away s i : pc_of s i = Some Started → request_step s (at_pc i Ended s)
  | resets s i : pc_of s i = Some Started → request_step s (at_pc i Reset s <| ep_container := inhabitant |>)
  | decodes s i c :
      ep_calls s !! i = Some c → ca_pc c = Reset →
      request_step s (at_pc i Decoded s <| ep_container := ca_request c |>)
  | admits s i c :
      ep_calls s !! i = Some c → ca_pc c = Decoded → allowed (ca_caller c) (ep_container s) = true →
      request_step s (at_pc i (Checked (ep_container s)) s)
  | denies s i c :
      ep_calls s !! i = Some c → ca_pc c = Decoded → allowed (ca_caller c) (ep_container s) = false →
      strict = true → request_step s (at_pc i Ended s)
  | goes_on s i c :
      ep_calls s !! i = Some c → ca_pc c = Decoded → allowed (ca_caller c) (ep_container s) = false →
      strict = false → request_step s (at_pc i (Checked (ep_container s)) s)
  | serves s i r : pc_of s i = Some (Checked r) → request_step s (at_pc i (Serving r (ep_container s)) s)
  | ends_ s i r r' : pc_of s i = Some (Serving r r') → request_step s (at_pc i Ended s)
  | stops s i : ep_stream s = Some i → pc_of s i = Some Ended → request_step s (s <| ep_stream := None |>).

(** The client publishes to the cancel inbox: the loop is left, the goroutine is
    not. *)
Inductive cancel_step : endpoint → endpoint → Prop :=
  | cancels s i : ep_stream s = Some i → cancel_step s (s <| ep_stream := None |>).

Definition listening_start : endpoint := mkEndpoint inhabitant None [].

(** What the caller of call [i] is sent: what was asked for, and what is served. *)
Definition sent_to (s : endpoint) (i : nat) (c : Caller) (r served : Req) : Prop :=
  ep_stream s = Some i ∧ ∃ checked, ep_calls s !! i = Some (mkCall c r (Serving checked served)).

(** ** Without cancellations *)

(** Only the call of the stream is under way, and it has its own request. *)
Definition own_request (s : endpoint) (i : nat) (c : call) : Prop :=
  match ca_pc c with
  | Ended => True
  | Started | Reset => ep_stream s = Some i
  | Decoded => ep_stream s = Some i ∧ ep_container s = ca_request c
  | Checked r => ep_stream s = Some i ∧ ep_container s = ca_request c ∧ r = ca_request c ∧
                 (strict = true → allowed (ca_caller c) r = true)
  | Serving r r' => ep_stream s = Some i ∧ r = ca_request c ∧ r' = ca_request c ∧
                    (strict = true → allowed (ca_caller c) r = true)
  end.

Definition apart (s : endpoint) : Prop := ∀ i c, ep_calls s !! i = Some c → own_request s i c.

Lemma under_way s i c : apart s → ep_calls s !! i = Some c → ca_pc c ≠ Ended → ep_stream s = Some i.
Proof. intros Ha Hc Hp. specialize (Ha i c Hc). unfold own_request in Ha. destruct (ca_pc c); tauto. Qed.

Lemma idle_ended s s' j d :
  apart s → ep_calls s !! j = Some d → (ep_stream s = Some j → False) → own_request s' j d.
Proof.
  intros Ha Hd Hj. pose proof (under_way s j d Ha Hd). unfold own_request. destruct (ca_pc d); try done;
    exfalso; auto.
Qed.

(** A step of the call of the stream: the others have ended. *)
Lemma apart_move s i c p x :
  apart s → ep_calls s !! i = Some c → ca_pc c ≠ Ended →
  own_request (at_pc i p s <| ep_container := x |>) i (c <| ca_pc := p |>) →
  apart (at_pc i p s <| ep_container := x |>).
Proof.
  intros Ha Hc Hp Hown j d. unfold at_pc. simpl.
  destruct (decide (j = i)) as [->|Hj].
  - rewrite list_lookup_alter_eq, Hc. intros [= <-]. exact Hown.
  - rewrite list_lookup_alter_ne by done. intros Hd. apply (idle_ended s); [done..|].
    pose proof (under_way s i c Ha Hc Hp). congruence.
Qed.

Lemma apart_at s i c p :
  apart s → ep_calls s !! i = Some c → ca_pc c ≠ Ended →
  own_request (at_pc i p s) i (c <| ca_pc := p |>) → apart (at_pc i p s).
Proof.
  intros Ha Hc Hp Hown.
  replace (at_pc i p s) with (at_pc i p s <| ep_container := ep_container s |>) by by destruct s.
  apply (apart_move s i c); [done..|]. by destruct s.
Qed.

Lemma request_step_apart s s' : request_step s s' → apart s → apart s'.
Proof.
  intros Hs Ha. destruct Hs as [s c r Hn|s i Hp|s i Hp|s i c Hc Hp|s i c Hc Hp Hal|s i c Hc Hp Hal Hst|s i c Hc Hp Hal Hst|s i r Hp|s i r r' Hp|s i Hs Hp];
    unfold pc_of in *; try (apply fmap_Some in Hp as (c & Hc & Hp); symmetry in Hp);
    try (pose proof (Ha i c Hc) as Hown; unfold own_request in Hown; rewrite Hp in Hown);
    try (apply (apart_at s i c); [done..|congruence|]; unfold own_request; simpl; intuition congruence).
  - intros j d Hd. simpl in Hd. apply lookup_app_Some in Hd as [Hd|[Hlen Hd]].
    + apply (idle_ended s); [done..|congruence].
    + apply list_lookup_singleton_Some in Hd as [Hj <-]. unfold own_request. simpl. f_equal. lia.
  - apply (apart_move s i c); [done..|congruence|]. unfold own_request. simpl. tauto.
  - apply (apart_move s i c); [done..|congruence|]. unfold own_request. simpl. tauto.
  - intros j d Hd. simpl in Hd. destruct (decide (j = i)) as [->|Hj]; [|apply (idle_ended s); [done..|congruence]].
    assert (d = c) as -> by congruence. unfold own_request. by rewrite Hp.
Qed.

(** (C8) As long as no stream is cancelled, every call that serves a request serves
    its own, although all calls decode into one object; and its caller is allowed it,
    at an endpoint that returns when its check fails. *)
Theorem requests_apart s :
  rtc request_step listening_start s →
  ∀ i c r served, sent_to s i c r served → served = r ∧ (strict = true → allowed c r = true).
Proof.
  intros Hr. assert (apart s) as Ha by (eapply rtc_invariant, Hr; [exact request_step_apart|by intros i c Hc]).
  intros i c r served (_ & checked & Hc). specialize (Ha i _ Hc). unfold own_request in Ha. simpl in Ha.
  destruct Ha as (_ & -> & -> & Hal). done.
Qed.

(** ** With cancellations *)

(** The call of the other request is cancelled, and decodes its message when the
    next call has been authorised. *)
Lemma cancelled_run c own (c' : Caller) (other : Req) :
  allowed c own = true →
  ∃ s, rtc (λ s s', request_step s s' ∨ cancel_step s s') listening_start s ∧ sent_to s 1 c own other.
Proof.
  intros Hal. eexists. split.
  - eapply rtc_l; [left; by apply (receives _ c' other)|].
    eapply rtc_l; [right; by apply (cancels _ 0)|].
    eapply rtc_l; [left; by apply (receives _ c own)|].
    eapply rtc_l; [left; by apply (resets _ 1)|]. eapply rtc_l; [left; by eapply (decodes _ 1)|].
    eapply rtc_l; [left; by eapply (admits _ 1)|].
    eapply rtc_l; [left; by apply (resets _ 0)|]. eapply rtc_l; [left; by eapply (decodes _ 0)|].
    eapply rtc_l; [left; by eapply (serves _ 1)|]. apply rtc_refl.
  - split; [done|]. by eexists.
Qed.
End requests.

(** ** Process histories *)
Section histories.
Context `{Env} `{ApiEnv} (fn : string).

(** [getProcessHistory] reads the id of the request for the check, and again for
    the history. *)
Definition history_for (ctx : Ctx) (checked served : string) : M (Stream ProcessHistoryEntry) :=
  a ← authFromProcessInstanceID fn ctx checked;
  granted_stream a (λ ctx _, GetProcessHistory ctx served).

Definition may_read (w : World) (ctx : Ctx) (id : string) : bool :=
  match (authFromProcessInstanceID fn ctx id w).2 with Ok (_, inl _) => true | _ => false end.

Lemma history_for_own ctx id : history_for ctx id id = api.getProcessHistory fn ctx id.
Proof. reflexivity. Qed.

Lemma history_for_read w ctx checked served :
  may_read w ctx checked = true →
  history_for ctx checked served w =
    GetProcessHistory ctx served (authFromProcessInstanceID fn ctx checked w).1.
Proof.
  unfold may_read, history_for, authFromProcessInstanceID, lookup_for. unfold mbind, gom_bind, attempt.
  destruct (GetProcessInstance ctx checked w) as [w' [pi|e|p]]; simpl; try done.
  unfold granted_stream, authed. pose proof (authorize_ctx fn ctx (pi_WorkflowName pi)) as Hc.
  destruct (authorize fn ctx (pi_WorkflowName pi)) as [c [e|]]; simpl in *; [done|].
  intros _. by rewrite Hc.
Qed.

(** (C9) A caller who may read one history is sent another one, which he need not be
    allowed to read, when a request for that one is cancelled just before. *)
Theorem cancelled_request_read w ctx own (ctx' : Ctx) other :
  may_read w ctx own = true →
  ∃ s, rtc (λ s s', request_step (may_read w) true s s' ∨ cancel_step s s') listening_start s ∧
       sent_to s 1 ctx own other ∧
       history_for ctx own other w =
         GetProcessHistory ctx other (authFromProcessInstanceID fn ctx own w).1.
Proof.
  intros Hr. destruct (cancelled_run (may_read w) true ctx own ctx' other Hr) as (s & Hs & Ht).
  exists s. split; [exact Hs|]. split; [exact Ht|]. by apply history_for_read.
Qed.
End histories.

(** ** Examples *)

(** A server on which everybody may do what concerns the workflow "orders". *)
Definition ex_orders : ApiEnv := {|
  apiAuthNFn := noopAuthN; apiAuthZFn := Some (λ _ _ _ name _, Some (bool_decide (name = "orders")));
  NewVersion := Some; compatibleVersion := "v1.1.503"; headers_unmarshal _ := inl ∅; Error_ _ := "error" |}.

(** A process instance of "orders", and one of "payroll" with a history. *)
Definition ex_instances : @World sim :=
  @w_put sim "default" WfHistory (historyKey "p" "a" activityExecute) (DHistory ex_entry)
    (@w_put sim "default" WfProcessInstance "p"
       (DProcessInstance (mkProcessInstance "p" "e2" None None "w2" "payroll" "p2" ∅ ""))
    (@w_put sim "default" WfProcessInstance "o"
       (DProcessInstance (mkProcessInstance "o" "e1" None None "w1" "orders" "p1" ∅ "")) world_init)).

Lemma requests_apart_witness :
  ∃ s, rtc (request_step (λ (c r : string), bool_decide (c = r)) true) listening_start s ∧
       sent_to s 0 "a" "a" "a" ∧ bool_decide ("a" = "a") = true.
Proof.
  assert (∃ s, rtc (request_step (λ (c r : string), bool_decide (c = r)) true) listening_start s ∧
               sent_to s 0 "a" "a" "a") as (s & Hr & Hs).
  { eexists. split.
    - eapply rtc_l; [by apply (receives _ _ _ "a" "a")|]. eapply rtc_l; [by apply (resets _ _ _ 0)|].
      eapply rtc_l; [by eapply (decodes _ _ _ 0)|]. eapply rtc_l; [by eapply (admits _ _ _ 0)|].
      eapply rtc_l; [by eapply (serves _ _ _ 0)|]. apply rtc_refl.
    - split; [done|]. by eexists. }
  exists s. split; [exact Hr|]. split; [exact Hs|].
  by apply (requests_apart (λ (c r : string), bool_decide (c = r)) true s Hr 0 "a" "a" "a").
Defined.

Lemma cancelled_request_read_witness :
  @may_read sim ex_orders "WORKFLOW.Api.GetProcessHistory" ex_instances ex_ctx "p" = false ∧
  (∃ s, sent_to s 1 ex_ctx "o" "p" ∧
     @history_for sim ex_orders "WORKFLOW.Api.GetProcessHistory" ex_ctx "o" "p" ex_instances =
       @GetProcessHistory sim ex_ctx "p"
         (@authFromProcessInstanceID sim ex_orders "WORKFLOW.Api.GetProcessHistory" ex_ctx "o" ex_instances).1) ∧
  (@history_for sim ex_orders "WORKFLOW.Api.GetProcessHistory" ex_ctx "o" "p" ex_instances).2 = Ok ([ex_entry], []).
Proof.
  split; [reflexivity|]. split; [|vm_compute; reflexivity].
  destruct (@cancelled_request_read sim ex_orders "WORKFLOW.Api.GetProcessHistory" ex_instances ex_ctx "o" ex_ctx "p")
    as (s & _ & Hs); [reflexivity|]. by exists s.
Defined.
