(* ===== verification/Calls.v ===== *)
(** * Calls of the Go client

    [internal/client/api/call.go] and the methods of [client/client.go] that
    call the server: a request travels with the client's namespace and version,
    the server's listener answers it, and the answer comes back as a response
    or as the bytes of an error.  A request is served at the tick it is made;
    a fault of the transport loses it before or after the server has acted. *)
From S2P Require Import Prelude Model Errors Env Sim Common Wp NatsUtil Vars Publish History Instances TaskSpec Store Launch Jobs Duration Process Api.

(** ** The subjects of the calls: [server/messages/messages.go] *)
Module subject.
Definition APIDeprecateServiceTask : string := "WORKFLOW.Api.DeprecateServiceTask".
Definition APIListUserTaskIDs : string := "WORKFLOW.Api.ListUserTaskIDs".
Definition APIGetTaskSpecVersions : string := "WORKFLOW.Api.GetTaskSpecVersions".
Definition APICompleteManualTask : string := "WORKFLOW.Api.CompleteManualTask".
Definition APICompleteUserTask : string := "WORKFLOW.Api.CompleteUserTask".
Definition APICompleteServiceTask : string := "WORKFLOW.Api.CompleteServiceTask".
Definition APICompleteSendMessageTask : string := "WORKFLOW.Api.CompleteSendMessageTask".
Definition APIStoreWorkflow : string := "WORKFLOW.Api.StoreWorkflow".
Definition APIGetWorkflowVersions : string := "WORKFLOW.Api.StreamWorkflowVersions".
Definition APIGetWorkflow : string := "WORKFLOW.Api.GetWorkflow".
Definition APIGetTaskSpecUsage : string := "WORKFLOW.Api.GetTaskSpecUsage".
Definition APICancelProcessInstance : string := "WORKFLOW.API.CancelProcessInstance".
Definition APIListExecution : string := "WORKFLOW.Api.ListExecution".
Definition APILaunchProcess : string := "WORKFLOW.Api.LaunchProcess".
Definition APIListExecutableProcess : string := "WORKFLOW.Api.APIListExecutableProcess".
Definition APIListWorkflows : string := "WORKFLOW.Api.ListWorkflows".
Definition APIListExecutionProcesses : string := "WORKFLOW.Api.ListExecutionProcesses".
Definition APIGetProcessInstanceStatus : string := "WORKFLOW.Api.GetProcessInstanceStatus".
Definition APIGetUserTask : string := "WORKFLOW.Api.GetUserTask".
Definition APISendMessage : string := "WORKFLOW.Api.SendMessage".
Definition APIGetProcessHistory : string := "WORKFLOW.Api.GetProcessHistory".
Definition APIGetFatalErrors : string := "WORKFLOW.Api.GetFatalErrors".
Definition APILog : string := "WORKFLOW.Api.Log".
Definition APIGetJob : string := "WORKFLOW.Api.GetJob".
Definition APIRegisterTask : string := "Workflow.Api.RegisterTask".
Definition APIGetTaskSpec : string := "WORKFLOW.Api.GetTaskSpec".
Definition APIListTaskSpecUIDs : string := "WORKFLOW.Api.ListTaskSpecUIDs".
Definition APIResolveWorkflow : string := "WORKFLOW.Api.ResolveWorkflow".
Definition APIHeartbeat : string := "WORKFLOW.Api.Heartbeat".
Definition APIGetCompensationInputVariables : string := "WORKFLOW.Api.GetCompensationInputVariables".
Definition APIGetCompensationOutputVariables : string := "WORKFLOW.Api.GetCompensationOutputVariables".
Definition APIGetProcessInstanceHeaders : string := "WORKFLOW.Api.GetProcessInstanceHeaders".
Definition APIRetry : string := "WORKFLOW.Api.Retry".
Definition APIEnableWorkflow : string := "WORKFLOW.Api.APIEnableWorkflow".
Definition APIDisableWorkflow : string := "WORKFLOW.Api.APIDisableWorkflow".
Definition APIHandleWorkflowError : string := "WORKFLOW.Api.HandleWorkflowError".
Definition APIHandleWorkflowFatalError : string := "WORKFLOW.Api.HandleWorkflowFatalError".
End subject.

(** What the client uses and does not contain: whether the server it talks to
    recovers from panics, the encoding of launch headers, and the parsing of
    floating-point numbers. *)
Class ClientEnv := {
  panicRecovery : bool;
  headers_marshal : gmap string string → bytes + error;
  ParseFloat : string → option Z;
  (* is the value of a panic an [error]? *)
  panic_is_error : string → bool;
  sharVersion : string;
  (* what the cache of a client still holds at a call *)
  client_cache : nat → string → option Workflow }.

Definition NatsVersionHeader : string := "Shar-Version".

(** ** Error responses *)

(** The reader of error responses in [Call].  The second part of the prefix
    and the message are there only if the separators are. *)
Definition parse_error (data : string) : option (res error (Z * string)) :=
  if bool_decide (4 < String.length data) && HasPrefix data ErrorPrefix then
    let em := Split "002" data in
    let e := Split "001" (default "" (head em)) in
    Some match e !! 1, em !! 1 with
         | Some code, Some msg => Ok (default 0%Z (Atoi code), msg)
         | _, _ => Panic "index out of range"
         end
  else None.

(** The error [Call] makes of it. *)
Definition call_error (code : Z) (msg : string) : error :=
  let ae := ApiError code msg in
  if bool_decide (code = codes.Internal) then ErrWorkflowFatal ae None else ae.

(** The reader in [CallReturnStream]. *)
Definition parse_stream_error (data : string) : error :=
  let p2 := Split "002" (default "" (Split "001" data !! 1)) in
  match p2 !! 0 ≫= Atoi with
  | Some code => ApiError code (default "" (p2 !! 1))
  | None => Wrap "bad server errot" (New data)
  end.

Section call.
Context `{Env} `{ApiEnv} `{ClientEnv}.

(** The message of a call. *)
Definition request_message (ctx : Ctx) (ns cid subject : string) (expectCompat : option string) : Msg :=
  let h := <[header.CorrelationHeader := cid]> (header.toMsg (ctx_Values ctx) ∅) in
  mkMsg subject
    (<[NatsCompatHeader := default "v0.0.0" expectCompat]>
       (<[NatsVersionHeader := sharVersion]> (<[header.SharNamespace := ns]> h)))
    (DBytes "").

(** [con.RequestMsg]: nobody answers when the server has died of a panic. *)
Definition RequestMsg (m : Msg) (r : request) : M api_answer :=
  nats (λ w, match listen panicRecovery m r w with
             | (w', Panic _) => (w', Err (New "nats: timeout"))
             | wr => wr
             end).

(** [Call] and [CallReturnStream]; [ret] is the message the response is
    unmarshalled into. *)
Definition Call {A} (ctx : Ctx) (subject : string) (expectCompat : option string)
    (r : request) (ret : response → option A) : M A :=
  match ctx_SharNamespace ctx with
  | None => panic "contextless call"
  | Some ns =>
      cid ← newId;
      answer ← wrapping (Wrap "API call")
                 (RequestMsg (request_message ctx ns cid subject expectCompat) r);
      match answer with
      | ErrorResponse data =>
          if streaming r then throw (Wrap "API call" (parse_stream_error data))
          else
            match parse_error data with
            | Some (Ok (code, msg)) => throw (call_error code msg)
            | Some (Err e) => throw e
            | Some (Panic p) => panic p
            | None => throw (New "unmarshal proto for call API")
            end
      | Respond resp =>
          match stream_errors resp with
          | e :: _ =>
              throw (Wrap "API call" (parse_stream_error (apiError codes.Internal (Error_ e))))
          | [] =>
              match ret resp with
              | Some a => mret a
              | None => throw (New "unmarshal proto for call API")
              end
          end
      end
  end.
End call.

(** ** Examples *)

(** A server with the default checks, and versions that are compared as text. *)
Definition ex_server : ApiEnv := {|
  apiAuthNFn := noopAuthN; apiAuthZFn := Some noopAuthZ; NewVersion := Some;
  compatibleVersion := "v1.1.503"; headers_unmarshal _ := inl ∅; Error_ _ := "error" |}.
Definition ex_workers : ClientEnv := {|
  panicRecovery := true; headers_marshal _ := inl ""; ParseFloat _ := None; panic_is_error _ := true;
  sharVersion := "v1.1.1503"; client_cache _ _ := None |}.
