(* ===== verification/ServerLife.v ===== *)
(** * The life of a server

    [Listen], [Shutdown] and [Ready] of [server/server/server.go], the health
    checker of [server/health/checker.go], and the subscriptions of the API: the
    registration of endpoints in [server/api/api.go] and the listener of
    [server/api/listener.go].  A process may hold several servers; they share the
    package's [shutdownOnce].

    [listening_server_serves]: a server that started has a subscription for each
    endpoint and is ready, if its health service is enabled.  [Shutdown_spec]: when
    a shutdown panics and what it leaves.  [one_server_is_drained]: whatever the
    servers of a process do, the subscriptions of at most one are ever drained. *)
From S2P Require Import Prelude Model Errors Env Common Vars Publish History Instances TaskSpec Store Launch Jobs Process Api Calls.

Inductive ServingStatus := NOT_SERVING | SERVING.

#[export] Instance ServingStatus_eq_dec : EqDecision ServingStatus.
Proof. solve_decision. Defined.

Record endpointDef := mkEndpointDef { ed_name : string; ed_endpointSubject : string }.
Record Subscription := mkSubscription { su_Subject : string; su_drained : bool }.

(** [sv_grpcServer] is nil until [Listen]; [sv_closing] says whether the channel is
    closed. *)
Record Server := mkServer {
  sv_HealthServiceEnabled : bool;
  sv_status : ServingStatus;
  sv_grpcServer : option bool;
  sv_closing : bool;
  sv_endpointDefs : list endpointDef;
  sv_subs : list Subscription }.

#[export] Instance Server_settable : Settable Server := λ r,
  mkServer (sv_HealthServiceEnabled r) (sv_status r) (sv_grpcServer r) (sv_closing r) (sv_endpointDefs r)
    (sv_subs r).

Record serving := mkServing { sp_shutdownOnce : bool; sp_servers : list Server; sp_tick : nat }.

#[export] Instance serving_settable : Settable serving := λ r,
  mkServing (sp_shutdownOnce r) (sp_servers r) (sp_tick r).

Abbreviation SM := (gom error serving).

(** Which calls to the network and to NATS fail, and the order in which a map of
    [n] entries is ranged over. *)
Class Network := {
  net_fault : nat → option error;
  range_order : nat → list nat }.

Section life.
Context `{Network}.

Definition net_call : SM unit := λ s,
  let s' := s <| sp_tick ::= S |> in
  match net_fault (sp_tick s) with Some e => (s', Err e) | None => (s', Ok tt) end.

Section server.
Context (i : nat).

Definition this : SM Server := λ s,
  match sp_servers s !! i with Some v => (s, Ok v) | None => (s, Panic "s is nil") end.
Definition set_this (f : Server → Server) : SM unit := modify (λ s, s <| sp_servers ::= alter f i |>).

(** [if err := m(); err != nil { panic(err) }] *)
Definition or_panic (why : string) (m : SM unit) : SM unit :=
  r ← attempt m; match r with inl _ => mret tt | inr _ => panic why end.

Definition SetStatus (status : ServingStatus) : SM unit := set_this (λ v, v <| sv_status := status |>).
Definition GetStatus : SM ServingStatus := v ← this; mret (sv_status v).

(** ** The listener *)
Definition RegisterEndpointFn (d : endpointDef) : SM unit :=
  set_this (λ v, v <| sv_endpointDefs ::= λ l, l ++ [d] |>).

(** [QueueSubscribe], and the subscription is kept. *)
Definition startListeningFn (d : endpointDef) : SM unit :=
  _ ← wrapping (Wrap "subscribe") net_call;
  set_this (λ v, v <| sv_subs ::= λ l, l ++ [mkSubscription (ed_endpointSubject d) false] |>).

Definition Listener_StartListening : SM unit :=
  v ← this; for_each (sv_endpointDefs v) (λ d, wrapping (Wrap (ed_name d)) (startListeningFn d)).

Definition drained (u : Subscription) : Subscription := mkSubscription (su_Subject u) true.

(** A drain that fails ends the loop. *)
Fixpoint drain_subs (order : list nat) : SM unit :=
  match order with
  | [] => mret tt
  | n :: order =>
      r ← attempt net_call;
      match r with
      | inr _ => mret tt
      | inl _ =>
          _ ← set_this (λ v, v <| sv_subs ::= alter drained n |>);
          drain_subs order
      end
  end.

Definition Listener_Shutdown : SM unit :=
  once ← gets sp_shutdownOnce;
  if once : bool then mret tt
  else
    _ ← modify (λ s, s <| sp_shutdownOnce := true |>);
    v ← this; drain_subs (range_order (length (sv_subs v))).

(** The names and subjects the API registers, in their order. *)
Definition endpoints : list endpointDef := [
  mkEndpointDef "APIStoreWorkflow" subject.APIStoreWorkflow;
  mkEndpointDef "APICancelProcessInstance" subject.APICancelProcessInstance;
  mkEndpointDef "APILaunchProcess" subject.APILaunchProcess;
  mkEndpointDef "APISendMessage" subject.APISendMessage;
  mkEndpointDef "APICompleteManualTask" subject.APICompleteManualTask;
  mkEndpointDef "APICompleteServiceTask" subject.APICompleteServiceTask;
  mkEndpointDef "APICompleteUserTask" subject.APICompleteUserTask;
  mkEndpointDef "APIGetUserTask" subject.APIGetUserTask;
  mkEndpointDef "APIGetJob" subject.APIGetJob;
  mkEndpointDef "APIHandleWorkflowError" subject.APIHandleWorkflowError;
  mkEndpointDef "APIHandleWorkflowFatalError" subject.APIHandleWorkflowFatalError;
  mkEndpointDef "APICompleteSendMessageTask" subject.APICompleteSendMessageTask;
  mkEndpointDef "APIGetWorkflow" subject.APIGetWorkflow;
  mkEndpointDef "APIGetProcessHistory" APIGetVersionInfo;
  mkEndpointDef "APIRegisterTask" subject.APIRegisterTask;
  mkEndpointDef "APIGetTaskSpec" subject.APIGetTaskSpec;
  mkEndpointDef "APIDeprecateServiceTask" subject.APIDeprecateServiceTask;
  mkEndpointDef "APIGetTaskSpecUsage" subject.APIGetTaskSpecUsage;
  mkEndpointDef "APIHeartbeat" subject.APIHeartbeat;
  mkEndpointDef "APILog" subject.APILog;
  mkEndpointDef "APIResolveWorkflow" subject.APIResolveWorkflow;
  mkEndpointDef "APIListExecutionProcesses" subject.APIListExecutionProcesses;
  mkEndpointDef "APIListTaskSpecUIDs" subject.APIListTaskSpecUIDs;
  mkEndpointDef "APIGetTaskSpecVersions" subject.APIGetTaskSpecVersions;
  mkEndpointDef "APIGetCompensationInputVariables" subject.APIGetCompensationInputVariables;
  mkEndpointDef "APIGetCompensationOutputVariables" subject.APIGetCompensationOutputVariables;
  mkEndpointDef "APIListUserTaskIDs" subject.APIListUserTaskIDs;
  mkEndpointDef "APIRetry" subject.APIRetry;
  mkEndpointDef "APIGetProcessInstanceHeaders" subject.APIGetProcessInstanceHeaders;
  mkEndpointDef "APIDisableWorkflow" subject.APIDisableWorkflow;
  mkEndpointDef "APIEnableWorkflow" subject.APIEnableWorkflow;
  mkEndpointDef "APIGetWorkflowVersions" subject.APIGetWorkflowVersions;
  mkEndpointDef "APIGetProcessInstanceStatus" subject.APIGetProcessInstanceStatus;
  mkEndpointDef "APIListWorkflows" subject.APIListWorkflows;
  mkEndpointDef "APIListExecution" subject.APIListExecution;
  mkEndpointDef "APIGetProcessHistory" subject.APIGetProcessHistory;
  mkEndpointDef "APIListExecutableProcess" subject.APIListExecutableProcess;
  mkEndpointDef "APIGetFatalErrors" subject.APIGetFatalErrors].

Definition Endpoints_StartListening : SM unit :=
  _ ← for_each endpoints RegisterEndpointFn;
  wrapping (Wrap "failed to start endpoint listener") Listener_StartListening.

(** ** The server *)

(** [Listen] up to where it waits; starting the engine is one call here. *)
Definition Listen : SM unit :=
  v ← this;
  _ ← (if sv_HealthServiceEnabled v then
         _ ← or_panic "listen" net_call;
         _ ← set_this (λ v, v <| sv_grpcServer := Some true |>);
         SetStatus NOT_SERVING
       else SetStatus NOT_SERVING);
  _ ← or_panic "start SHAR engine" net_call;
  _ ← or_panic "start SHAR api" Endpoints_StartListening;
  if sv_HealthServiceEnabled v then SetStatus SERVING else mret tt.

(** [Engine.Shutdown] *)
Definition engine_Shutdown : SM unit :=
  v ← this;
  if sv_closing v then panic "close of closed channel" else set_this (λ v, v <| sv_closing := true |>).

Definition GracefulStop : SM unit :=
  v ← this;
  _ ← deref "s.grpcServer" (sv_grpcServer v);
  set_this (λ v, v <| sv_grpcServer := Some false |>).

Definition Shutdown : SM unit :=
  _ ← SetStatus NOT_SERVING;
  _ ← engine_Shutdown;
  _ ← Listener_Shutdown;
  v ← this;
  if sv_HealthServiceEnabled v then GracefulStop else mret tt.

(** What [Listen] waits for: a signal, or the end of the health service, with the
    error it ended with. *)
Inductive waited := Signal | Served (err : option error).

Definition Listen_ends (w : waited) : SM unit :=
  match w with
  | Signal => Shutdown
  | Served None => mret tt
  | Served (Some _) => panic "fatal error"
  end.

Definition Ready : SM bool := st ← GetStatus; mret (bool_decide (st = SERVING)).
End server.

(** [New] *)
Definition New_server (healthServiceEnabled : bool) : SM unit :=
  modify (λ s, s <| sp_servers ::= λ l,
    l ++ [mkServer healthServiceEnabled NOT_SERVING None false [] []] |>).

(** What happens in a process. *)
Inductive deed := Makes (healthServiceEnabled : bool) | Listens (i : nat) | ShutsDown (i : nat) | Wakes (i : nat) (w : waited).

Definition do_deed (d : deed) : SM unit :=
  match d with
  | Makes h => New_server h
  | Listens i => Listen i
  | ShutsDown i => Shutdown i
  | Wakes i w => Listen_ends i w
  end.

Definition after (s : serving) (d : deed) : serving := (do_deed d s).1.
End life.

(** ** What a server that listens offers *)
Section listening.
Context `{Network}.

(** No call fails from here on. *)
Definition calls_succeed (s : serving) : Prop := ∀ n, sp_tick s ≤ n → net_fault n = None.

Lemma runs_net_call s (Φ : serving → res error unit → Prop) :
  calls_succeed s → Φ (s <| sp_tick ::= S |>) (Ok tt) → runs net_call s Φ.
Proof. intros Hs HΦ. unfold runs, net_call. by rewrite (Hs (sp_tick s)). Qed.

Lemma endpoints_distinct : NoDup (map ed_endpointSubject endpoints).
Proof. apply (bool_decide_unpack _). vm_compute. exact I. Qed.

Lemma alter_insert {A} (f : A → A) (l : list A) j x : l !! j = Some x → alter f j l = <[j := f x]> l.
Proof. revert j. induction l as [|y l IH]; intros [|j]; simpl; [done..|congruence|]. intros Hx. f_equal. by apply IH. Qed.

(** Server [i] is [v] now, and nothing else of the process has changed. *)
Definition now (i : nat) (v : Server) (s s' : serving) : Prop :=
  sp_servers s' = <[i := v]> (sp_servers s) ∧ sp_shutdownOnce s' = sp_shutdownOnce s ∧
  sp_tick s ≤ sp_tick s'.

Lemma now_refl i v s : sp_servers s !! i = Some v → now i v s s.
Proof. intros Hv. split_and!; [by rewrite list_insert_id|done|lia]. Qed.

Lemma now_lookup i v s s' : is_Some (sp_servers s !! i) → now i v s s' → sp_servers s' !! i = Some v.
Proof. intros [? Hi] (-> & _). apply list_lookup_insert_eq. by eapply lookup_lt_Some. Qed.

Lemma now_succeed i v s s' : calls_succeed s → now i v s s' → calls_succeed s'.
Proof. intros Hs (_ & _ & Ht) n Hn. apply Hs. lia. Qed.

Context (i : nat) (s : serving).

Lemma runs_this s' v (Φ : serving → res error Server → Prop) :
  sp_servers s' !! i = Some v → Φ s' (Ok v) → runs (this i) s' Φ.
Proof. intros Hv HΦ. unfold runs, this. by rewrite Hv. Qed.

Context (Hi : is_Some (sp_servers s !! i)).

(** The server has become [v'], and calls still succeed. *)
Definition is_now (v' : Server) (s' : serving) (r : res error unit) : Prop := r = Ok tt ∧ now i v' s s'.

Lemma is_now_set s' v f : now i v s s' → runs (set_this i f) s' (is_now (f v)).
Proof.
  intros Hn. split; [done|]. pose proof (now_lookup i v s s' Hi Hn) as Hv.
  destruct Hn as (He & Ho & Ht). split_and!; [|done|done].
  simpl. rewrite (alter_insert _ _ _ v) by done. by rewrite He, list_insert_insert_eq.
Qed.

Lemma is_now_call s' v : calls_succeed s' → now i v s s' → runs net_call s' (is_now v).
Proof.
  intros Hs (He & Ho & Ht). apply runs_net_call; [done|]. split; [done|]. split_and!; simpl; [done..|lia].
Qed.

Context (Hs : calls_succeed s).

Lemma is_now_bind {A} s' v (m : SM unit) (k : unit → SM A) Φ :
  runs m s' (is_now v) → (∀ s2, now i v s s2 → runs (k tt) s2 Φ) → runs (m ≫= k) s' Φ.
Proof.
  intros Hm Hk. apply runs_bind. eapply runs_mono; [|exact Hm]. intros s2 r [-> Hn]. by apply Hk.
Qed.

Lemma is_now_wrapping s' v g m : runs m s' (is_now v) → runs (wrapping g m) s' (is_now v).
Proof. intros Hm. apply runs_wrapping. eapply runs_mono; [|exact Hm]. by intros s2 r [-> Hn]. Qed.

Lemma is_now_or_panic s' v why m : runs m s' (is_now v) → runs (or_panic why m) s' (is_now v).
Proof.
  intros Hm. apply runs_bind, runs_attempt. eapply runs_mono; [|exact Hm]. by intros s2 r [-> Hn].
Qed.

Lemma now_call s' v : now i v s s' → runs net_call s' (is_now v).
Proof. intros Hn. apply is_now_call; [by eapply now_succeed|done]. Qed.

Lemma is_now_for_each {A} (g : list A → Server) l (f : A → SM unit) s' :
  now i (g []) s s' →
  (∀ done x s', now i (g done) s s' → runs (f x) s' (is_now (g (done ++ [x])))) →
  runs (for_each l f) s' (is_now (g l)).
Proof.
  intros Hn Hf. apply (runs_for_each (λ done, now i (g done) s)); [done| |by split].
  intros done x rest s2 _ Hs2. eapply runs_mono; [|by apply Hf]. by intros s3 r [-> H3].
Qed.

Definition opened (d : endpointDef) : Subscription := mkSubscription (ed_endpointSubject d) false.

(** A server whose calls succeed has, when it listens, a subscription for each
    endpoint registered so far, and is ready exactly if its health service is
    enabled. *)
Definition listening_server (v : Server) : Server :=
  let defs := sv_endpointDefs v ++ endpoints in
  mkServer (sv_HealthServiceEnabled v) (if sv_HealthServiceEnabled v then SERVING else NOT_SERVING)
    (if sv_HealthServiceEnabled v then Some true else sv_grpcServer v) (sv_closing v)
    defs (sv_subs v ++ map opened defs).

Lemma Endpoints_StartListening_spec s' v :
  now i v s s' →
  let defs := sv_endpointDefs v ++ endpoints in
  runs (Endpoints_StartListening i) s'
    (is_now (v <| sv_endpointDefs := defs |> <| sv_subs := sv_subs v ++ map opened defs |>)).
Proof.
  intros Hn defs. eapply is_now_bind.
  { apply (is_now_for_each (λ l, v <| sv_endpointDefs := sv_endpointDefs v ++ l |>)).
    - rewrite app_nil_r. by destruct v.
    - intros done x s2 Hs2. eapply runs_mono; [|by apply (is_now_set s2 _ _ Hs2)].
      intros s3 r. simpl. by rewrite <-app_assoc. }
  intros s2 Hs2. apply is_now_wrapping. apply runs_bind.
  apply (runs_this s2 _ _ (now_lookup _ _ _ _ Hi Hs2)). fold defs.
  apply (is_now_for_each (λ l, v <| sv_endpointDefs := defs |> <| sv_subs := sv_subs v ++ map opened l |>) defs
    (λ d, wrapping (Wrap (ed_name d)) (startListeningFn i d))).
  - simpl. rewrite app_nil_r. exact Hs2.
  - intros done x s3 Hs3. apply is_now_wrapping. eapply is_now_bind; [apply is_now_wrapping, now_call, Hs3|].
    intros s4 Hs4. eapply runs_mono; [|by apply (is_now_set s4 _ _ Hs4)].
    intros s5 r. simpl. by rewrite map_app, app_assoc.
Qed.

(** A server starts to listen: it has then, undrained, a subscription of its own
    for each endpoint, and is ready exactly if its health service is enabled. *)
Theorem listening_server_serves v :
  sp_servers s !! i = Some v →
  runs (Listen i) s (λ s' r, r = Ok tt ∧
    sp_servers s' = <[i := listening_server v]> (sp_servers s) ∧ sp_shutdownOnce s' = sp_shutdownOnce s ∧
    (Ready i s').2 = Ok (sv_HealthServiceEnabled v)).
Proof.
  intros Hv. apply (runs_mono _ _ (is_now (listening_server v))).
  { intros s' r [-> Hn]. pose proof (now_lookup _ _ _ _ Hi Hn) as Hl. destruct Hn as (He & Ho & _).
    split_and!; [done..|]. unfold Ready, GetStatus, this, mbind, gom_bind. rewrite Hl. simpl.
    by destruct (sv_HealthServiceEnabled v). }
  unfold Listen. apply runs_bind, (runs_this s v); [done|].
  pose proof (now_refl i v s Hv) as Hn0.
  eapply (is_now_bind _ (v <| sv_status := NOT_SERVING |>
    <| sv_grpcServer := if sv_HealthServiceEnabled v then Some true else sv_grpcServer v |>)).
  { destruct (sv_HealthServiceEnabled v).
    - eapply is_now_bind; [apply is_now_or_panic, now_call, Hn0|]. intros s1 H1.
      eapply is_now_bind; [apply (is_now_set s1 _ _ H1)|]. intros s2 H2.
      eapply runs_mono; [|apply (is_now_set s2 _ _ H2)]. done.
    - eapply runs_mono; [|apply (is_now_set s _ _ Hn0)]. intros s2 r. by destruct v. }
  intros s2 H2. eapply is_now_bind; [apply is_now_or_panic, now_call, H2|]. intros s3 H3.
  eapply is_now_bind; [apply is_now_or_panic, Endpoints_StartListening_spec, H3|]. intros s4 H4.
  unfold listening_server. destruct (sv_HealthServiceEnabled v) eqn:Hh.
  - eapply runs_mono; [|apply (is_now_set s4 _ _ H4)]. intros s5 r. simpl. by rewrite Hh.
  - split; [done|]. simpl in H4. by rewrite Hh in H4.
Qed.
End listening.

(** ** Shutting down *)
Section shutting_down.
Context `{Network}.

Definition drain_all (order : list nat) (subs : list Subscription) : list Subscription :=
  foldl (λ l n, alter drained n l) subs order.

Lemma drain_subs_spec i s order s1 v :
  is_Some (sp_servers s !! i) → now i v s s1 →
  runs (drain_subs i order) s1 (λ s2 r, r = Ok tt ∧ ∃ k, k ≤ length order ∧
    (calls_succeed s → k = length order) ∧
    now i (v <| sv_subs := drain_all (take k order) (sv_subs v) |>) s s2).
Proof.
  intros Hi. revert s1 v. induction order as [|n order IH]; intros s1 v Hn; simpl.
  - split; [done|]. exists 0. split_and!; [lia|done|]. by destruct v.
  - apply runs_bind, runs_attempt. unfold net_call at 1, runs at 1.
    assert (now i v s (s1 <| sp_tick ::= S |>)) as Hn1 by (destruct Hn as (? & ? & ?); split_and!; simpl; [done..|lia]).
    destruct (net_fault (sp_tick s1)) eqn:Hf; simpl.
    + split; [done|]. exists 0. split_and!; [lia| |by destruct v]. intros Hs.
      rewrite (Hs (sp_tick s1)) in Hf; [done|apply Hn].
    + apply runs_bind. eapply runs_mono; [|by apply (is_now_set i s Hi _ v)].
      intros s2 r [-> H2]. eapply runs_mono; [|by apply (IH s2 _ H2)].
      intros s3 r [-> (k & Hk & Hall & H3)]. split; [done|]. exists (S k). split_and!; [lia| |done].
      intros Hs. by rewrite Hall.
Qed.

Lemma runs_panic {E S A} why (s : S) (Φ : S → res E A → Prop) : Φ s (Panic why) → runs (panic why) s Φ.
Proof. done. Qed.

(** What a shutdown drains, in what order. *)
Definition to_drain (s : serving) (v : Server) : list nat :=
  if sp_shutdownOnce s then [] else range_order (length (sv_subs v)).

Lemma Listener_Shutdown_spec i s s1 v :
  is_Some (sp_servers s !! i) → now i v s s1 →
  runs (Listener_Shutdown i) s1 (λ s2 r, r = Ok tt ∧ ∃ k, k ≤ length (to_drain s v) ∧
    (calls_succeed s → k = length (to_drain s v)) ∧ sp_shutdownOnce s2 = true ∧
    sp_servers s2 = <[i := v <| sv_subs := drain_all (take k (to_drain s v)) (sv_subs v) |>]> (sp_servers s)).
Proof.
  intros Hi Hn. pose proof Hn as (He & Ho & Ht). unfold to_drain.
  unfold Listener_Shutdown. apply runs_bind. unfold gets, runs at 1. simpl. rewrite Ho.
  destruct (sp_shutdownOnce s) eqn:Hso; simpl.
  - apply runs_ret. split; [done|]. exists 0. split_and!; [lia|done|congruence|]. rewrite He. by destruct v.
  - apply runs_bind, runs_modify, runs_bind. set (s2 := s1 <| sp_shutdownOnce := true |>).
    pose proof (now_lookup i v s s1 Hi Hn) as Hv. apply (runs_this i s2 v); [done|].
    eapply runs_mono; [|apply (drain_subs_spec i s2 _ s2 v); [by exists v|by apply now_refl]].
    intros s3 r [-> (k & Hk & Hall & He3 & Ho3 & _)]. split; [done|]. exists k. split_and!; [done| |done|].
    + intros Hs. apply Hall. intros n Hn'. apply Hs. simpl in Hn'. lia.
    + rewrite He3. simpl. by rewrite He, list_insert_insert_eq.
Qed.

(** A second shutdown of a server panics and leaves it as it was; a first one stops
    its loops and, if no server of the process has been shut down before, drains
    its subscriptions up to the first that fails; it panics after that where the
    health service was to be enabled and the server has never listened. *)
Theorem Shutdown_spec i s v :
  sp_servers s !! i = Some v →
  runs (Shutdown i) s (λ s' r,
    if sv_closing v then
      r = Panic "close of closed channel" ∧ sp_shutdownOnce s' = sp_shutdownOnce s ∧
      sp_servers s' = <[i := v <| sv_status := NOT_SERVING |>]> (sp_servers s)
    else
      let order := to_drain s v in
      ∃ k, k ≤ length order ∧ (calls_succeed s → k = length order) ∧ sp_shutdownOnce s' = true ∧
      let v' := v <| sv_status := NOT_SERVING |> <| sv_closing := true |>
                  <| sv_subs := drain_all (take k order) (sv_subs v) |> in
      (sp_servers s', r) =
        match sv_HealthServiceEnabled v, sv_grpcServer v with
        | false, _ => (<[i := v']> (sp_servers s), Ok tt)
        | true, None => (<[i := v']> (sp_servers s), Panic "s.grpcServer")
        | true, Some _ => (<[i := v' <| sv_grpcServer := Some false |>]> (sp_servers s), Ok tt)
        end).
Proof.
  intros Hv. assert (is_Some (sp_servers s !! i)) as Hi by (by exists v).
  unfold Shutdown. apply runs_bind. eapply runs_mono; [|apply (is_now_set i s Hi s v _ (now_refl i v s Hv))].
  intros s1 r1 [-> H1]. unfold engine_Shutdown. apply runs_bind, runs_bind.
  apply (runs_this i s1 _ _ (now_lookup _ _ _ _ Hi H1)). simpl.
  destruct (sv_closing v) eqn:Hc.
  { apply runs_panic. destruct H1 as (H1 & Ho & _). split; [done|]. split; [done|]. rewrite H1.
    destruct v; simpl in *; by subst. }
  eapply runs_mono; [|apply (is_now_set i s Hi s1 _ _ H1)]. intros s2 r2 [-> H2].
  apply runs_bind. eapply runs_mono; [|apply (Listener_Shutdown_spec i s s2 _ Hi H2)].
  intros s3 r3 [-> (k & Hk & Hall & Ho & H3)]. set (v3 := _ <| sv_subs := _ |>) in H3.
  assert (sp_servers s3 !! i = Some v3) as Hv3.
  { rewrite H3. apply list_lookup_insert_eq. by eapply lookup_lt_Some. }
  apply runs_bind, (runs_this i s3 v3); [done|]. simpl.
  destruct (sv_HealthServiceEnabled v) eqn:Hh.
  - unfold GracefulStop. apply runs_bind, (runs_this i s3 v3); [done|]. simpl.
    destruct (sv_grpcServer v) eqn:Hg; simpl.
    + apply runs_bind, runs_ret, runs_modify. exists k. split_and!; [done..|]. simpl.
      rewrite (alter_insert _ _ _ v3), H3, list_insert_insert_eq by done.
      unfold v3. destruct v; simpl in *; by subst.
    + apply runs_bind, runs_panic. exists k. split_and!; [done..|]. rewrite H3. unfold v3. destruct v; simpl in *; by subst.
  - apply runs_ret. exists k. split_and!; [done..|]. rewrite H3. unfold v3. destruct v; simpl in *; by subst.
Qed.
End shutting_down.

(** ** Several servers in a process *)
Section process.
Context `{Network}.

Definition has_drained (v : Server) : Prop := Exists (λ u, su_drained u = true) (sv_subs v).
Definition drained_of (s : serving) (i : nat) : Prop := ∃ v, sp_servers s !! i = Some v ∧ has_drained v.

(** Who has drained subscriptions had them before. *)
Definition drains_nothing (s s' : serving) : Prop :=
  sp_shutdownOnce s' = sp_shutdownOnce s ∧ ∀ i, drained_of s' i → drained_of s i.

#[export] Instance drains_nothing_preorder : PreOrder drains_nothing.
Proof. split; [by intros s|]. intros s1 s2 s3 [H1 H1'] [H2 H2']. split; [congruence|auto]. Qed.

Definition one_drained (s : serving) : Prop :=
  (sp_shutdownOnce s = false → ∀ i, ¬ drained_of s i) ∧
  ∀ i j, drained_of s i → drained_of s j → i = j.

Definition keeps_one (s s' : serving) : Prop := one_drained s → one_drained s'.

#[export] Instance keeps_one_preorder : PreOrder keeps_one.
Proof. split; unfold keeps_one; [by intros s|]. intros s1 s2 s3 H1 H2 Hs. auto. Qed.

Lemma drains_nothing_keeps s s' : drains_nothing s s' → keeps_one s s'.
Proof.
  intros [Ho Hd] [Hf Hu]. split; [|by eauto]. rewrite Ho. intros Hso i Hi. exact (Hf Hso i (Hd i Hi)).
Qed.

Lemma drains_nothing_call : preserves drains_nothing net_call.
Proof. intros s. unfold net_call. by destruct (net_fault (sp_tick s)). Qed.

Lemma drains_nothing_this i : preserves drains_nothing (this i).
Proof. intros s. unfold this. by destruct (sp_servers s !! i). Qed.

Lemma drains_nothing_set i f :
  (∀ v, has_drained (f v) → has_drained v) → preserves drains_nothing (set_this i f).
Proof.
  intros Hf s. split; [done|]. intros j (v & Hv & Hd). simpl in Hv.
  destruct (decide (j = i)) as [->|Hj].
  - rewrite list_lookup_alter_eq in Hv. apply fmap_Some in Hv as (v0 & Hv0 & ->). exists v0. auto.
  - rewrite list_lookup_alter_ne in Hv by done. by exists v.
Qed.
#[local] Hint Resolve drains_nothing_call drains_nothing_this : preserves.

Ltac quiet_tac := repeat first [apply drains_nothing_set; by intros [] | progress preserves_tac].

Lemma drains_nothing_Listen i : preserves drains_nothing (Listen i).
Proof.
  unfold Listen, or_panic, SetStatus, Endpoints_StartListening, RegisterEndpointFn, Listener_StartListening,
    startListeningFn.
  quiet_tac.
  all: try (apply drains_nothing_set; intros []; unfold has_drained; simpl; rewrite Exists_app, Exists_cons, Exists_nil; naive_solver).
Qed.

(** Only server [i] has changed. *)
Definition only_at (i : nat) (s s' : serving) : Prop :=
  (sp_shutdownOnce s = true → sp_shutdownOnce s' = true) ∧
  ∀ j, j ≠ i → sp_servers s' !! j = sp_servers s !! j.

#[export] Instance only_at_preorder i : PreOrder (only_at i).
Proof.
  split; [by intros s|]. intros s1 s2 s3 [H1 H1'] [H2 H2']. split; [auto|].
  intros j Hj. by rewrite H2', H1'.
Qed.

Lemma only_at_set i f : preserves (only_at i) (set_this i f).
Proof. intros s. split; [done|]. intros j Hj. simpl. by apply list_lookup_alter_ne. Qed.

Lemma only_at_drain i order : preserves (only_at i) (drain_subs i order).
Proof.
  induction order as [|n order IH]; simpl; preserves_tac; auto using only_at_set.
  intros s. unfold net_call. by destruct (net_fault (sp_tick s)).
Qed.

Lemma keeps_one_Listener_Shutdown i : preserves keeps_one (Listener_Shutdown i).
Proof.
  intros s [Hf Hu]. unfold Listener_Shutdown. unfold mbind at 1, gom_bind at 1, gets. simpl.
  destruct (sp_shutdownOnce s) eqn:Hso; [split; [change (sp_shutdownOnce s = false → ∀ j, ¬ drained_of s j); congruence|exact Hu]|].
  match goal with |- one_drained (?m _).1 => set (rest := m) end.
  assert (preserves (only_at i) rest) as Hp.
  { subst rest. preserves_tac; [by intros s0| |apply only_at_drain]. intros s0. unfold this.
    by destruct (sp_servers s0 !! i). }
  destruct (Hp s) as [_ Ho].
  assert (∀ j, drained_of (rest s).1 j → j = i) as Honly.
  { intros j (v & Hv & Hd). destruct (decide (j = i)) as [->|Hj]; [done|].
    rewrite Ho in Hv by done. destruct (Hf eq_refl j). by exists v. }
  split; [|intros j k Hj Hk; by rewrite (Honly j), (Honly k)].
  intros Hs'. exfalso. revert Hs'. subst rest. unfold mbind, gom_bind, modify, this. simpl.
  destruct (sp_servers s !! i) as [v|]; [|done].
  pose proof (proj1 (only_at_drain i (range_order (length (sv_subs v))) (s <| sp_shutdownOnce := true |>)) eq_refl) as Ht.
  simpl in Ht. congruence.
Qed.

Lemma keeps_one_Shutdown i : preserves keeps_one (Shutdown i).
Proof.
  unfold Shutdown, SetStatus, engine_Shutdown, GracefulStop.
  repeat first [apply keeps_one_Listener_Shutdown
    | apply (preserves_mono _ _ _ drains_nothing_keeps); solve [quiet_tac]
    | preserves_step].
Qed.

Lemma keeps_one_deed d : preserves keeps_one (do_deed d).
Proof.
  destruct d as [h|i|i|i [|[e|]]]; simpl; try apply keeps_one_Shutdown; try preserves_tac.
  - apply (preserves_mono _ _ _ drains_nothing_keeps). intros s. split; [done|].
    intros i (v & Hv & Hd). simpl in Hv. apply lookup_app_Some in Hv as [Hv|[_ Hv]]; [by exists v|].
    apply list_lookup_singleton_Some in Hv as [_ <-]. by apply Exists_nil in Hd.
  - apply (preserves_mono _ _ _ drains_nothing_keeps), drains_nothing_Listen.
Qed.

(** (C31) Whatever the servers of a process do and whatever fails, the subscriptions of
    at most one of them are ever drained: the others go on taking requests when
    they have been shut down. *)
Theorem one_server_is_drained ds i j :
  let s := foldl after (mkServing false [] 0) ds in
  drained_of s i → drained_of s j → i = j.
Proof.
  intros s. enough (one_drained s) as [_ Hu] by apply Hu.
  assert (∀ ds s0, one_drained s0 → one_drained (foldl after s0 ds)) as Hgo.
  { clear. induction ds as [|d ds IH]; intros s0 Hs0; [done|]. apply IH. by apply keeps_one_deed. }
  apply Hgo. split; [by intros _ k (v & Hv & _)|by intros k l (v & Hv & _)].
Qed.
End process.

(** ** Examples *)
Definition ex_network : Network := {| net_fault _ := None; range_order n := seq 0 n |}.
Definition ex_deeds : list deed := [Makes true; Listens 0; Makes true; Listens 1; ShutsDown 0; ShutsDown 1].
Abbreviation ex_process := (foldl (@after ex_network) (mkServing false [] 0) ex_deeds).

Lemma one_server_is_drained_witness :
  drained_of ex_process 0 ∧ (drained_of ex_process 1 → 0 = 1) ∧
  sv_status <$> sp_servers ex_process !! 1 = Some NOT_SERVING ∧
  (length ∘ sv_subs) <$> sp_servers ex_process !! 1 = Some 38.
Proof.
  assert (drained_of ex_process 0) as H0.
  { assert (match sp_servers ex_process !! 0 with
            | Some (mkServer _ _ _ _ _ (mkSubscription _ true :: _)) => True | _ => False end) as H0
      by (vm_compute; exact I).
    destruct (sp_servers ex_process !! 0) as [[? ? ? ? ? [|[? []] l]]|] eqn:Hl; try destruct H0.
    eexists. split; [exact Hl|]. by constructor. }
  split; [exact H0|]. split.
  - pose proof (@one_server_is_drained ex_network ex_deeds 0 1) as Hone.
    cbv zeta in Hone. exact (Hone H0).
  - by vm_compute.
Defined.

Definition ex_unhealthy : serving := mkServing false [mkServer false NOT_SERVING None false [] []] 0.
Definition ex_closed : Server := mkServer true NOT_SERVING None true [] [].

Lemma listening_server_serves_witness :
  runs (@Listen ex_network 0) ex_unhealthy (λ s' r, r = Ok tt ∧ (Ready 0 s').2 = Ok false).
Proof.
  assert (is_Some (sp_servers ex_unhealthy !! 0)) as Hi by by eexists.
  assert (@calls_succeed ex_network ex_unhealthy) as Hs by by intros n _.
  pose proof (@listening_server_serves ex_network 0 ex_unhealthy Hi Hs _ eq_refl) as Hl.
  refine (runs_mono _ _ _ _ _ Hl). intros s' r (Hr & _ & _ & Hready). by split.
Defined.

Lemma Shutdown_spec_witness :
  runs (@Shutdown ex_network 0) (mkServing false [ex_closed] 0) (λ s' r, r = Panic "close of closed channel").
Proof.
  pose proof (@Shutdown_spec ex_network 0 (mkServing false [ex_closed] 0) ex_closed eq_refl) as Hl.
  refine (runs_mono _ _ _ _ _ Hl). intros s' r. exact (@proj1 _ _).
Defined.
