(* ===== verification/ClientTask.v ===== *)
(** * Running tasks

    [internal/common/client/client.go]: what a worker, the Go client or the
    engine's mock services, does with a message that asks for a service task or
    for sending a message.  The functions a worker is made of are a record;
    the keep-alive goroutine and the counter of running tasks are left out. *)
From S2P Require Import Prelude Model Errors Env Sim Common Wp NatsUtil Vars Publish History Instances TaskSpec Store Launch Jobs Duration Traverse Gateway Messages Compensate Process Api Calls.

Abbreviation Vars := (gmap string GoVal).

(** [client/task/task.go] *)
Inductive ExecutionType := ExecutionTypeVars | ExecutionTypeTyped.

(** [jobClient], [messageClient]: the identifiers a task function is given, and
    the variables a compensation compensates for. *)
Record jobClient := mkJobClient {
  jc_jobID : string;
  jc_activityID : string;
  jc_processInstanceID : string;
  jc_executionID : string;
  jc_originalInputs : option Vars;
  jc_originalOutputs : option Vars }.

#[export] Instance jobClient_settable : Settable jobClient := λ r,
  mkJobClient (jc_jobID r) (jc_activityID r) (jc_processInstanceID r) (jc_executionID r)
    (jc_originalInputs r) (jc_originalOutputs r).

Record messageClient := mkMessageClient {
  mc_jobID : string;
  mc_activityID : string;
  mc_processInstanceID : string;
  mc_executionID : string }.

(** The context of a task function: the values the worker adds to its own. *)
Record TaskCtx := mkTaskCtx {
  tc_ctx : Ctx;
  tc_ProcessInstanceId : string;
  tc_ExecutionId : string;
  tc_ActivityId : string;
  tc_TaskId : string;
  tc_taskDef : option string }.

Section functions.
Context `{Env}.

(** A Go function that returns variables and an error may return both. *)
Definition ServiceFn : Type := TaskCtx → jobClient → Vars → M (option Vars * option error).
Definition SenderFn : Type := TaskCtx → messageClient → Vars → M unit.
Definition ProcessTerminateFn : Type := Ctx → Vars → option WfError → CancellationState → M unit.

Inductive TaskFn :=
  | FnNil
  | FnService (f : ServiceFn)
  | FnSender (f : SenderFn)
  | FnTerminate (f : ProcessTerminateFn).

Record FnDef := mkFnDef {
  fd_Type : ExecutionType;
  fd_Fn : TaskFn }.

Record ServiceTaskProcessParams := mkParams {
  SvcFnExecutor : Ctx → string → WorkflowState → FnDef → Vars → M (option Vars * option error);
  MsgFnExecutor : TaskCtx → string → WorkflowState → FnDef → Vars → M unit;
  SvcFnLocator : WorkflowState → M FnDef;
  MsgFnLocator : WorkflowState → M FnDef;
  SvcTaskCompleter : Ctx → string → option Vars → bool → M unit;
  MsgSendCompleter : Ctx → string → Vars → M unit;
  WfErrorHandler : Ctx → string → string → string → bytes → M bool;
  PiErrorCanceller : Ctx → string → WfError → M unit }.
End functions.

Section task.
Context `{Env} `{ApiEnv} `{ClientEnv}.

(** [if err != nil { return r(err) }] *)
Definition or_reply {A} (m : M A) (r : error → reply) (k : A → M reply) : M reply :=
  v ← attempt m;
  match v with inl a => k a | inr err => mret (r err) end.

(** The deferred recovery around a task function.  [r.(error)] panics again when
    the function panicked with anything but an error. *)
Definition recovering (noRecovery : bool) (ut : WorkflowState) (m : M (option Vars * option error)) :
    M (option Vars * option error) := λ w,
  match m w with
  | (w', Err e) => (w', Ok (None, Some e))
  | (w', Panic p) =>
      if noRecovery then (w', Panic p)
      else match ws_Execute ut with
           | None => (w', Panic "ut.Execute")
           | Some _ =>
               if panic_is_error p then
                 (w', Ok (Some ∅, Some (ErrWorkflowFatal (Wrap "call to service task terminated in panic" (New p)) (Some ut))))
               else (w', Panic "interface conversion")
           end
  | r => r
  end.

(** [newVars.Encode(ctx)] through the interface. *)
Definition EncodeVars (vars : option Vars) : M bytes :=
  v ← deref "newVars.Encode" vars; Encode v.

(** The version of the server that sent the message. *)
Definition compat_problem (m : Msg) : option error :=
  let sharCompat := HeaderGet m NatsCompatHeader in
  if bool_decide (sharCompat = "") then None
  else match NewVersion sharCompat with
       | None => Some (New "compatibility issue: shar server version corrupt")
       | Some v => if api.IsCompatible v then None else Some (New "compatibility issue: shar server level")
       end.

(** A task function that failed: a workflow error is handed to the server. *)
Definition task_failed (params : ServiceTaskProcessParams) (ctx : Ctx) (messageNamespace trackingID : string)
    (newVars : option Vars) (err : error) : M reply :=
  match AsWorkflowError err with
  | None => mret (false, Some err)
  | Some code =>
      or_reply (EncodeVars newVars) (λ e, (true, Some (ErrWorkflowFatal (Wrap "encode service task variables" e) None)))
        (λ v, or_reply (WfErrorHandler params ctx messageNamespace trackingID code v)
                (λ e, (true, Some (ErrWorkflowFatal (Wrap "handle workflow error" e) None)))
                (λ handled, mret (bool_decide (code ≠ ""), Some err)))
  end.

(** A task that could not be completed. *)
Definition completion_failed (params : ServiceTaskProcessParams) (ctx : Ctx) (ut : WorkflowState) (err : error) :
    M reply :=
  let later := mret (false, Some (Wrap "complete service task" err)) in
  match AsApiError err with
  | Some (code, message) =>
      if bool_decide (code = codes.Internal) then
        let e := mkWfError "" message ("client-" +:+ pretty code) in
        _ ← attempt (PiErrorCanceller params ctx (ws_ProcessInstanceId ut) e);
        mret (true, None)
      else later
  | None => if IsWorkflowFatal err then mret (true, Some err) else later
  end.

Definition service_task (noRecovery : bool) (GetJob : Ctx → string → M WorkflowState)
    (params : ServiceTaskProcessParams) (ctx : Ctx) (messageNamespace : string) (ut : WorkflowState) : M reply :=
  let trackingID := TrackingID.ID (ws_Id ut) in
  or_reply (GetJob ctx trackingID) (λ err, (false, Some (Wrap "get service task job kv" err))) (λ job,
  or_reply (SvcFnLocator params job)
    (λ err, (false, Some (Wrap "service task locator" (ErrWorkflowFatal_value err)))) (λ svcFn,
  dv ← attempt (DecodeVars NewServerVars (ws_Vars job));
  match dv with
  | inr err => _ ← deref "job.Execute" (ws_Execute job);
               mret (false, Some (Wrap "decode service task job variables" err))
  | inl dv =>
      '(newVars, err) ← recovering noRecovery ut (SvcFnExecutor params ctx trackingID job svcFn dv);
      match err with
      | Some err => task_failed params ctx messageNamespace trackingID newVars err
      | None =>
          r ← attempt (SvcTaskCompleter params ctx trackingID newVars (bool_decide (ws_State job = compensating)));
          match r with
          | inl _ => mret (true, None)
          | inr err => completion_failed params ctx ut err
          end
      end
  end)).

(** [pidCtx] *)
Definition task_ctx (ctx : Ctx) (id : list string) (job : WorkflowState) (taskDef : option string) : TaskCtx :=
  mkTaskCtx ctx (ws_ProcessInstanceId job) (ws_ExecutionId job)
    (TrackingID.ParentID id) (TrackingID.ID id) taskDef.

Definition send_message_task (GetJob : Ctx → string → M WorkflowState)
    (params : ServiceTaskProcessParams) (ctx : Ctx) (ut : WorkflowState) : M reply :=
  let id := ws_Id ut in
  let trackingID := TrackingID.ID id in
  or_reply (GetJob ctx trackingID) (λ err, (false, Some (Wrap "complete send message task" err))) (λ job,
  or_reply (MsgFnLocator params job) (λ err, (false, Some (Wrap "msgFn locator" (ErrWorkflowFatal_value err)))) (λ msgFn,
  dv ← attempt (DecodeVars NewServerVars (ws_Vars job));
  match dv with
  | inr err => _ ← deref "job.Execute" (ws_Execute job);
               mret (false, Some (ErrWorkflowFatal (Wrap "decode send message variables" err) None))
  | inl dv =>
      or_reply (MsgFnExecutor params (task_ctx ctx id job None) trackingID job msgFn dv)
        (λ err, (false, Some err)) (λ _,
      r ← attempt (MsgSendCompleter params ctx trackingID NewServerVars);
      match r with
      | inl _ => mret (true, None)
      | inr err =>
          if IsWorkflowFatal err then _ ← deref "job.Execute" (ws_Execute job); mret (true, None)
          else mret (false, Some err)
      end)
  end)).

Definition ClientProcessFn (noRecovery : bool) (GetJob : Ctx → string → M WorkflowState)
    (params : ServiceTaskProcessParams) (ctx : Ctx) (m : Msg) : M reply :=
  match compat_problem m with
  | Some err => mret (false, Some err)
  | None =>
      messageNamespace ← deref "strings.SplitN(msg.Subject(), '.', 3)[1]" (Split "." (msg_Subject m) !! 1);
      match Unmarshal (A:=WorkflowState) (msg_Data m) with
      | None => mret (false, Some (New "service task listener"))
      | Some ut =>
          let ctx := header.FromMsgHeaderToCtx ctx (msg_Header m) in
          if bool_decide (ws_ElementType ut = element.ServiceTask) then
            service_task noRecovery GetJob params ctx messageNamespace ut
          else if bool_decide (ws_ElementType ut = element.MessageIntermediateThrowEvent) then
            send_message_task GetJob params ctx ut
          else mret (true, None)
      end
  end.
End task.

(** ** Effects *)
Section task_effects.
Context `{EnvOk} `{ApiEnv} `{ClientEnv} (T : Cells) (P : Msg → Prop).
Abbreviation eff := (effect T P).

(** A worker whose functions keep to some cells and messages in a context.  The
    function the locator finds is what the executor runs, so the executor is
    asked only for the functions the locator can find. *)
Record worker_keeps (params : ServiceTaskProcessParams) (ctx : Ctx) : Prop := {
  keeps_locate job : preserves eff (SvcFnLocator params job);
  keeps_execute id job w fn v :
    (SvcFnLocator params job w).2 = Ok fn → preserves eff (SvcFnExecutor params ctx id job fn v);
  keeps_locate_sender job : preserves eff (MsgFnLocator params job);
  keeps_send tc id job w fn v :
    tc_ctx tc = ctx → (MsgFnLocator params job w).2 = Ok fn → preserves eff (MsgFnExecutor params tc id job fn v);
  keeps_complete id v b : preserves eff (SvcTaskCompleter params ctx id v b);
  keeps_complete_send id v : preserves eff (MsgSendCompleter params ctx id v);
  keeps_error ns id code v : preserves eff (WfErrorHandler params ctx ns id code v);
  keeps_cancel id e : preserves eff (PiErrorCanceller params ctx id e) }.

Lemma eff_recovering noRecovery ut m : preserves eff m → preserves eff (recovering noRecovery ut m).
Proof.
  intros Hm w. specialize (Hm w). unfold recovering. destruct (m w) as [w' [v|e|p]]; simpl in *; [done..|].
  destruct noRecovery; [done|]. destruct (ws_Execute ut); [|done]. by destruct (panic_is_error p).
Qed.

Lemma eff_or_reply {A} (m : M A) r k :
  preserves eff m → (∀ w a, (m w).2 = Ok a → preserves eff (k a)) → preserves eff (or_reply m r k).
Proof.
  intros Hm Hk w. specialize (Hm w). specialize (Hk w). unfold or_reply, mbind, gom_bind, attempt.
  destruct (m w) as [w' [a|e|p]]; simpl in *; [|done..]. etrans; [exact Hm|by apply Hk].
Qed.

Lemma eff_Encode_vars v : preserves eff (EncodeVars v).
Proof. unfold EncodeVars, Encode. preserves_tac. Qed.

Lemma eff_service_task noRecovery GetJob params ctx mns ut :
  worker_keeps params ctx → (∀ id, preserves eff (GetJob ctx id)) →
  preserves eff (service_task noRecovery GetJob params ctx mns ut).
Proof.
  intros [Hl He _ _ Hc _ Hw Hp] Hg. unfold service_task.
  apply eff_or_reply; [done|]. intros _ job _. apply eff_or_reply; [done|]. intros w fn Hfn.
  apply preserves_bind; [apply _|unfold DecodeVars; preserves_tac|]. intros [dv|err]; [|preserves_tac].
  apply preserves_bind; [apply _|by apply eff_recovering; eapply He|]. intros [newVars [err|]].
  - unfold task_failed. destruct (AsWorkflowError err); [|preserves_tac].
    apply eff_or_reply; [apply eff_Encode_vars|]. intros _ b _. apply eff_or_reply; [done|]. intros. preserves_tac.
  - unfold completion_failed. preserves_tac.
Qed.

Lemma eff_send_message_task GetJob params ctx ut :
  worker_keeps params ctx → (∀ id, preserves eff (GetJob ctx id)) →
  preserves eff (send_message_task GetJob params ctx ut).
Proof.
  intros [_ _ Hl He _ Hc _ _] Hg. unfold send_message_task.
  apply eff_or_reply; [done|]. intros _ job _. apply eff_or_reply; [done|]. intros w fn Hfn.
  apply preserves_bind; [apply _|unfold DecodeVars; preserves_tac|]. intros [dv|err]; [|preserves_tac].
  apply eff_or_reply; [by eapply He|]. intros _ [] _. preserves_tac.
Qed.

Lemma eff_ClientProcessFn noRecovery GetJob params ctx m :
  worker_keeps params (header.FromMsgHeaderToCtx ctx (msg_Header m)) →
  (∀ id, preserves eff (GetJob (header.FromMsgHeaderToCtx ctx (msg_Header m)) id)) →
  preserves eff (ClientProcessFn noRecovery GetJob params ctx m).
Proof.
  intros Hk Hg. unfold ClientProcessFn.
  preserves_tac; [by apply eff_service_task|by apply eff_send_message_task].
Qed.
End task_effects.
