(* ===== verification/Mock.v ===== *)
(** * Mock services

    [internal/server/workflow/mock.go]: the engine runs a service task itself
    when the task's specification says it is a mock.  The worker is the one of
    the Go client, made of the engine's own operations. *)
From S2P Require Import Prelude Model Errors Env Sim Common Wp NatsUtil Vars Publish History Instances Lookups TaskSpec Store Launch Jobs Duration Traverse Gateway Messages Compensate Process Api Calls ClientTask.

Section functions.
Context `{Env} `{ApiEnv} `{ClientEnv}.

(** [if err != nil { return v, wrap(err) }] in a function of two results. *)
Definition or_fail {A} (v : option Vars) (wrap : error → error) (m : M A)
    (k : A → M (option Vars * option error)) : M (option Vars * option error) :=
  r ← attempt m;
  match r with inl a => k a | inr err => mret (v, Some (wrap err)) end.

(** The value of an output parameter without an example. *)
Definition zero_of (type : string) : GoVal :=
  if bool_decide (type = "string") then VString ""
  else if bool_decide (type = "bool") then VBool false
  else if bool_decide (type = "float") then VFloat 0
  else if bool_decide (type = "int") then VInt 0
  else VNil.

(** An expression of the mock behaviour, when there is one. *)
Definition eval_behaviour {A} (eval : string → Vars → res error A) (none : A) (expr : string) (vars : Vars) : M A :=
  if bool_decide (expr = "") then mret none else lift_res (eval expr vars).

Definition mock_output (vars : Vars) (p : TaskParameter) : res error GoVal :=
  if bool_decide (pm_Example p = "") then Ok (zero_of (pm_Type p)) else EvalAny (pm_Example p) vars.

Fixpoint mock_outputs (newVars vars : Vars) (ps : list TaskParameter)
    (k : Vars → M (option Vars * option error)) : M (option Vars * option error) :=
  match ps with
  | [] => k newVars
  | p :: ps =>
      or_fail (Some newVars) (λ err, ErrWorkflowFatal (Wrap "eval example expression" err) None)
        (lift_res (mock_output vars p))
        (λ v, mock_outputs (<[pm_Name p := v]> newVars) vars ps k)
  end.

Definition mockServiceFunction (ctx : TaskCtx) (jc : jobClient) (vrs : Vars) : M (option Vars * option error) :=
  or_fail None (Wrap "encode vars") (Encode vrs) (λ b,
  or_fail None (Wrap "decode vars") (DecodeVars NewServerVars b) (λ vars,
  uid ← deref "ctx.Value(taskDef).(string)" (tc_taskDef ctx);
  or_fail (Some NewServerVars) (Wrap "get task spec") (GetTaskSpecByUID (tc_ctx ctx) uid) (λ ts,
  let mb := default (mkTaskMockBehaviours "" "") (ts_Behaviour ts ≫= tb_MockBehaviour) in
  or_fail (Some NewServerVars) (Wrap "evaluate mock workflow error expression")
    (eval_behaviour EvalString "" (mb_ErrorCodeExpr mb) vars) (λ wfError,
  or_fail (Some NewServerVars) (Wrap "evaluate mock fatal error expression")
    (eval_behaviour EvalBool false (mb_FatalErrorExpr mb) vars) (λ fatalError,
  if fatalError then mret (Some NewServerVars, Some (ErrWorkflowFatal (New "mock fatal error") None))
  else
    params ← deref "ts.Parameters" (ts_Parameters ts);
    mock_outputs NewServerVars vars (tp_Output params) (λ newVars,
      mret (Some newVars, if bool_decide (wfError = "") then None else Some (WorkflowError wfError)))))))).

Definition mockMessageFunction (_ : TaskCtx) (_ : messageClient) (_ : Vars) : M unit := mret tt.

End functions.

Module mock.
Section closures.
Context `{Env} `{ApiEnv} `{ClientEnv}.

Definition svcFnExecutor (ctx : Ctx) (trackingID : string) (job : WorkflowState) (svcFn : FnDef) (inVars : Vars) :
    M (option Vars * option error) :=
  let pidCtx := task_ctx ctx (ws_Id job) job (Some (ws_ExecuteVersion job)) in
  let jc := mkJobClient trackingID "" (ws_ProcessInstanceId job) "" None None in
  let run jc :=
    match fd_Fn svcFn with
    | FnService f =>
        '(v, err) ← f pidCtx jc inVars;
        mret (v, Wrap "execute service task" <$> err)
    | _ => panic "interface conversion"
    end in
  if bool_decide (ws_State job = compensating) then
    or_fail None (Wrap "get input variables")
      (GetCompensationInputVariables ctx (ws_ProcessInstanceId job) trackingID) (λ ins,
    or_fail None (Wrap "get output variables")
      (GetCompensationOutputVariables ctx (ws_ProcessInstanceId job) trackingID) (λ outs,
    or_fail None (Wrap "decode input variables") (DecodeVars NewServerVars ins) (λ iVars,
    or_fail None (Wrap "decode output variables") (DecodeVars NewServerVars outs) (λ oVars,
    run (jc <| jc_originalInputs := Some iVars |> <| jc_originalOutputs := Some oVars |>)))))
  else run jc.

Definition msgFnExecutor (_ : TaskCtx) (_ : string) (_ : WorkflowState) (_ : FnDef) (_ : Vars) : M unit := mret tt.

Definition svcFnLocator (_ : WorkflowState) : M FnDef := mret (mkFnDef ExecutionTypeVars (FnService mockServiceFunction)).
Definition msgFnLocator (_ : WorkflowState) : M FnDef := mret (mkFnDef ExecutionTypeVars (FnSender mockMessageFunction)).

Definition svcTaskCompleter (ctx : Ctx) (trackingID : string) (newVars : option Vars) (_ : bool) : M unit :=
  job ← wrapping (Wrap "get job") (GetJob ctx trackingID);
  b ← wrapping (Wrap "encode vars") (EncodeVars newVars);
  wrapping (Wrap "complete service task") (CompleteServiceTask ctx job b).

Definition msgSendCompleter (_ : Ctx) (_ : string) (_ : Vars) : M unit := mret tt.

Definition wfErrHandler (ctx : Ctx) (_ trackingID errorCode : string) (binVars : bytes) : M bool :=
  state ← wrapping (Wrap "get job") (GetJob ctx trackingID);
  r ← attempt (HandleWorkflowError ctx errorCode binVars state);
  match r with
  | inl _ => mret true
  | inr err => if Is err ErrUnhandledWorkflowError then mret false else throw (Wrap "handle workflow error" err)
  end.

Definition piErrHandler (ctx : Ctx) (processInstanceID : string) (wfe : WfError) : M unit :=
  pi ← wrapping (Wrap "get process instance") (GetProcessInstance ctx processInstanceID);
  let state := zero_state <| ws_ExecutionId := pi_ExecutionId pi |>
                 <| ws_ProcessInstanceId := pi_ProcessInstanceId pi |>
                 <| ws_State := errored |> <| ws_Error := Some wfe |> in
  wrapping (Wrap "cancel process instance") (CancelProcessInstance ctx state).

Definition params : ServiceTaskProcessParams :=
  mkParams svcFnExecutor msgFnExecutor svcFnLocator msgFnLocator svcTaskCompleter msgSendCompleter
    wfErrHandler piErrHandler.
End closures.
End mock.

(** The handler of the mock services consumer. *)
Definition processMockServices `{Env} `{ApiEnv} `{ClientEnv} : Ctx → Msg → M reply := ClientProcessFn false GetJob mock.params.

(** ** Effects *)
Section mock_effects.
Context `{EnvOk} `{ApiEnv} `{ClientEnv}.

Lemma eff_or_fail {A} T P v wrap (m : M A) k :
  preserves (effect T P) m → (∀ a, preserves (effect T P) (k a)) →
  preserves (effect T P) (or_fail v wrap m k).
Proof. intros Hm Hk. unfold or_fail. preserves_tac. Qed.

#[local] Hint Resolve eff_lift_res : preserves.

Lemma eff_mock_outputs T P newVars vars ps k :
  (∀ v, preserves (effect T P) (k v)) → preserves (effect T P) (mock_outputs newVars vars ps k).
Proof.
  intros Hk. revert newVars. induction ps as [|p ps IH]; intros newVars; simpl; [done|].
  apply eff_or_fail; [preserves_tac|]. intros v. apply IH.
Qed.

Ltac fail_tac :=
  repeat first [ apply eff_or_fail; [solve [preserves_tac]|intros ?] | apply eff_mock_outputs; intros ?
               | apply preserves_bind; [apply _|solve [preserves_tac]|intros ?]
               | match goal with
                 | |- preserves _ (if ?b then _ else _) => destruct b
                 | |- preserves _ (let _ := _ in _) => cbv zeta
                 end
               | solve [preserves_tac] ].

Lemma eff_mockServiceFunction ctx jc vars :
  preserves (iso (tc_ctx ctx)) (mockServiceFunction ctx jc vars).
Proof. unfold mockServiceFunction, eval_behaviour, Encode, DecodeVars. fail_tac. Qed.

Lemma eff_processMockServices ctx m : preserves (iso ctx) (processMockServices ctx m).
Proof.
  set (ctx' := header.FromMsgHeaderToCtx ctx (msg_Header m)).
  change (iso ctx) with (iso ctx'). apply eff_ClientProcessFn; [|intros; preserves_tac]. fold ctx'.
  split; simpl; unfold mock.svcFnLocator, mock.svcFnExecutor, mock.msgFnLocator, mock.msgFnExecutor,
    mock.svcTaskCompleter, mock.msgSendCompleter, mock.wfErrHandler, mock.piErrHandler, EncodeVars, Encode, DecodeVars.
  2: {
    intros id job w fn v [= <-]. simpl.
    pose proof (eff_mockServiceFunction (task_ctx ctx' (ws_Id job) job (Some (ws_ExecuteVersion job)))).
    simpl in *. fail_tac. }
  all: intros; preserves_tac.
Qed.
End mock_effects.
#[export] Hint Resolve eff_processMockServices : preserves.

(** ** What a mock returns *)
Section mock_spec.
Context `{EnvOk} `{ApiEnv} `{ClientEnv}.

(** The variables of a mock: each output with its value, a later one over an
    earlier one of the same name. *)
Definition mock_result (acc : Vars) (l : list (TaskParameter * GoVal)) : Vars :=
  foldl (λ m pv, <[pm_Name pv.1 := pv.2]> m) acc l.

Definition mocks (vars : Vars) (ps : list TaskParameter) (vs : list GoVal) : Prop :=
  Forall2 (λ p v, mock_output vars p = Ok v) ps vs.

Lemma wp_mock_outputs vars ps vs acc k w Φ :
  mocks vars ps vs → wp (k (mock_result acc (zip ps vs))) w Φ → wp (mock_outputs acc vars ps k) w Φ.
Proof.
  intros Hm. revert acc. induction Hm as [|p v ps vs Hv _ IH]; intros acc Hk; simpl; [done|].
  unfold or_fail. rewrite Hv. wp_steps. unfold lift_res, wp at 1. simpl. by apply IH.
Qed.

(** The expressions of a mock behaviour and what they give. *)
Definition behaves (mb : option TaskMockBehaviours) (vars : Vars) (wfError : string) (fatalError : bool) : Prop :=
  match mb with
  | None => wfError = "" ∧ fatalError = false
  | Some mb =>
      (if bool_decide (mb_ErrorCodeExpr mb = "") then wfError = "" else EvalString (mb_ErrorCodeExpr mb) vars = Ok wfError) ∧
      (if bool_decide (mb_FatalErrorExpr mb = "") then fatalError = false
       else EvalBool (mb_FatalErrorExpr mb) vars = Ok fatalError)
  end.

Lemma wp_eval_behaviour {A} (eval : string → Vars → res error A) none expr vars a w Φ :
  (if bool_decide (expr = "") then a = none else eval expr vars = Ok a) →
  Φ w (Ok a) → wp (eval_behaviour eval none expr vars) w Φ.
Proof.
  intros He HΦ. unfold eval_behaviour. case_bool_decide; [subst a; by apply wp_ret|].
  unfold lift_res, wp. simpl. by rewrite He.
Qed.
End mock_spec.

(** A mock does what its specification says: it fails the workflow when the
    fatal expression holds; otherwise it returns every output of the
    specification, its example evaluated over the task's variables or the zero of
    its type, and raises the workflow error its error expression names, if any.
    It changes nothing itself. *)
Theorem mockServiceFunction_spec `{EnvOk} `{ApiEnv} `{ClientEnv} tc jc vrs b ts params uid wfError fatalError vs w :
  NoFaults → msgpack_marshal vrs = inl b → tc_taskDef tc = Some uid →
  w_get w (GetNS (tc_ctx tc)) WfTaskSpec uid = Some (DTaskSpec ts) → ts_Parameters ts = Some params →
  behaves (ts_Behaviour ts ≫= tb_MockBehaviour) (wire <$> vrs) wfError fatalError →
  mocks (wire <$> vrs) (tp_Output params) vs →
  wp (mockServiceFunction tc jc vrs) w (returns (λ w' r, w' ≡ w ∧
    r = if fatalError then (Some ∅, Some (ErrWorkflowFatal (New "mock fatal error") None))
        else (Some (mock_result ∅ (zip (tp_Output params) vs)),
              if bool_decide (wfError = "") then None else Some (WorkflowError wfError)))).
Proof.
  intros NF Hb Ht Hg Hp Hbe Hm. destruct (Encode_holds vrs b w Hb) as [He Hh].
  unfold mockServiceFunction, or_fail. wp_steps. unfold wp at 1. rewrite He. cbn [fst snd]. wp_steps.
  unfold wp at 1. rewrite (DecodeVars_holds _ (wire <$> vrs)) by done. cbn [fst snd]. wp_steps. rewrite Ht. wp_steps.
  unfold GetTaskSpecByUID. wp_steps. apply wp_nsKVs; [done|]. intros w1 Hw1 _. wp_steps.
  apply (wp_LoadObj_some NF _ _ _ (DTaskSpec ts) ts); [by rewrite Hw1|done|]. intros w2 Hw2. wp_steps.
  cbv zeta. wp_steps. apply (wp_eval_behaviour _ _ _ _ wfError).
  { destruct (ts_Behaviour ts ≫= tb_MockBehaviour); simpl in *; [by destruct Hbe|by destruct Hbe]. }
  wp_steps. apply (wp_eval_behaviour _ _ _ _ fatalError).
  { destruct (ts_Behaviour ts ≫= tb_MockBehaviour); simpl in *; [by destruct Hbe|by destruct Hbe]. }
  assert (w2 ≡ w) as Hw by (by rewrite Hw2).
  wp_steps. destruct fatalError; wp_steps; [done|]. rewrite Hp. wp_steps.
  eapply wp_mock_outputs; [done|]. wp_steps. by case_bool_decide.
Qed.

(** ** Examples *)
Definition ex_mock_outputs : list TaskParameter :=
  [mkTaskParameter "ok" "bool" false false "" "=true"; mkTaskParameter "name" "string" false false "" ""].
Definition ex_mock : TaskSpec :=
  mkTaskSpec "1.0" "ServiceTask" None None (Some (mkTaskParameters [] ex_mock_outputs)).
Definition ex_mock_ctx : TaskCtx := mkTaskCtx (mkCtx (Some "default") (Some "1") ∅) "p1" "e1" "a1" "j1" (Some "uid").

Lemma mockServiceFunction_spec_witness :
  @wp sim _ (@mockServiceFunction sim ex_mock_ctx (mkJobClient "j1" "" "p1" "" None None) ∅)
    (@w_put sim "default" WfTaskSpec "uid" (DTaskSpec ex_mock) world_init)
    (@returns sim _ (λ w' r, w' ≡ @w_put sim "default" WfTaskSpec "uid" (DTaskSpec ex_mock) world_init ∧
      r = (Some (mock_result ∅ (zip ex_mock_outputs [VBool true; VString ""])), None))).
Proof.
  apply (@mockServiceFunction_spec sim (Sim_ok _ _ _) ex_server ex_workers ex_mock_ctx _ ∅
    (String "m" (positive_bits (encode (sim_wire <$> (∅ : Vars))))) ex_mock
    (mkTaskParameters [] ex_mock_outputs) "uid" "" false [VBool true; VString ""]).
  - exact sim_NoFaults.
  - reflexivity.
  - reflexivity.
  - reflexivity.
  - reflexivity.
  - split; reflexivity.
  - apply Forall2_cons; split; [reflexivity|]. apply Forall2_cons; split; [reflexivity|]. apply Forall2_nil. exact I.
Defined.
