(* ===== verification/Client.v ===== *)
(** * The Go client

    [client/client.go] and [client/backoff.go]: the calls an application makes,
    the functions it registers, and the worker that runs them for the messages
    of the engine.  Send middleware adds tracing headers only and is left out,
    as are connecting, shutting down and logging. *)
From S2P Require Import Prelude Model Errors Env Sim Common Wp NatsUtil Vars Publish History Instances TaskSpec Store Launch Jobs Duration Traverse Gateway Messages Compensate Process Api Calls ClientTask.

(** [strings.Replace(s, old, new, 1)] *)
Fixpoint ReplaceFirst (s old new : string) : string :=
  match header.CutPrefix s old with
  | Some rest => new +:+ rest
  | None => match s with
            | EmptyString => ""
            | String c s' => String c (ReplaceFirst s' old new)
            end
  end.

(** [strconv.ParseBool] *)
Definition ParseBool (s : string) : option bool :=
  if bool_decide (s ∈ ["1"; "t"; "T"; "TRUE"; "true"; "True"]) then Some true
  else if bool_decide (s ∈ ["0"; "f"; "F"; "FALSE"; "false"; "False"]) then Some false
  else None.

Record Client `{Env} := mkClient {
  cl_id : string;
  cl_host : string;
  cl_ns : string;
  cl_SvcTasks : gmap string FnDef;
  cl_listenTasks : gset string;
  cl_MsgSender : gmap string FnDef;
  cl_msgListenTasks : gset string;
  cl_proCompleteTasks : gmap string FnDef;
  cl_ExpectedCompatibleServerVersion : option string;
  cl_noRecovery : bool }.

#[export] Instance Client_settable `{Env} : Settable Client := λ r,
  mkClient _ (cl_id r) (cl_host r) (cl_ns r) (cl_SvcTasks r) (cl_listenTasks r) (cl_MsgSender r)
    (cl_msgListenTasks r) (cl_proCompleteTasks r) (cl_ExpectedCompatibleServerVersion r) (cl_noRecovery r).

(** ** Calls *)
Module client.
Section calls.
Context `{Env} `{ApiEnv} `{ClientEnv} (c : Client).

(** A call in the client's namespace, with [clientErr] around its error. *)
Definition call {A} (ctx : Ctx) (subject : string) (r : request) (ret : response → option A) : M A :=
  wrapping (Wrap "client error")
    (Call (SetNS ctx (cl_ns c)) subject (cl_ExpectedCompatibleServerVersion c) r ret).

Definition no_result (_ : response) : option unit := Some tt.

Definition DeprecateTaskSpec (ctx : Ctx) (name : string) : M unit :=
  '(usage, success) ← call ctx subject.APIDeprecateServiceTask (DeprecateServiceTaskRequest name)
     (λ r, match r with DeprecateServiceTaskResponse u => Some u | _ => None end);
  if (success : bool) then mret tt else throw (New "attempt to deprectate a task in use").

Definition registerServiceTask (ctx : Ctx) (spec : TaskSpec) : M string :=
  call ctx subject.APIRegisterTask (RegisterTaskRequest (Some spec))
    (λ r, match r with RegisterTaskResponse uid => Some uid | _ => None end).

(** The specification comes back with the identifier in its metadata. *)
Definition StoreTask (ctx : Ctx) (spec : TaskSpec) : M TaskSpec :=
  id ← wrapping (Wrap "store task") (registerServiceTask ctx spec);
  md ← deref "spec.Metadata" (ts_Metadata spec);
  mret (spec <| ts_Metadata := Some (md <| md_Uid := id |>) |>).

Definition ListUserTaskIDs (ctx : Ctx) (owner : string) : M UserTasks :=
  call ctx subject.APIListUserTaskIDs (ListUserTasksRequest owner)
    (λ r, match r with UserTasksResponse t => Some t | _ => None end).

Definition GetTaskSpecVersions (ctx : Ctx) (name : string) : M (list string) :=
  call ctx subject.APIGetTaskSpecVersions (GetTaskSpecVersionsRequest name)
    (λ r, match r with GetTaskSpecVersionsResponse v => Some (tsv_Id v) | _ => None end).

Definition CompleteUserTask (ctx : Ctx) (owner trackingID : string) (newVars : option Vars) : M unit :=
  ev ← wrapping (Wrap "decode variables for complete user task") (EncodeVars newVars);
  call ctx subject.APICompleteUserTask (CompleteUserTaskRequest trackingID ev) no_result.

Definition completeServiceTask (ctx : Ctx) (trackingID : string) (newVars : option Vars) (_ : bool) : M unit :=
  ev ← wrapping (Wrap "decode variables for complete service task") (EncodeVars newVars);
  call ctx subject.APICompleteServiceTask (CompleteServiceTaskRequest trackingID ev) no_result.

Definition completeSendMessage (ctx : Ctx) (trackingID : string) (newVars : Vars) : M unit :=
  ev ← wrapping (Wrap "decode variables for complete send message") (Encode newVars);
  call ctx subject.APICompleteSendMessageTask (CompleteSendMessageRequest trackingID ev) no_result.

Definition GetWorkflowVersions (ctx : Ctx) (name : string) : M (list WorkflowVersion) :=
  call ctx subject.APIGetWorkflowVersions (GetWorkflowVersionsRequest name)
    (λ r, match r with WorkflowVersionStream s => Some s.1 | _ => None end).

(** [Cacheable] over the client's own cache. *)
Definition cached (id : string) (fn : M Workflow) : M Workflow := λ w,
  match client_cache (w_tick w) id with
  | Some wf => (w_next w, Ok wf)
  | None => wrapping (Wrap "error retrieving cacheable value") fn (w_next w)
  end.

Definition GetWorkflow (ctx : Ctx) (id : string) : M Workflow :=
  wrapping (Wrap "failed to retrieve workflow")
    (cached id (call ctx subject.APIGetWorkflow (GetWorkflowRequest id)
       (λ r, match r with GetWorkflowResponse wf => Some wf | _ => None end))).

Definition GetTaskSpecUsage (ctx : Ctx) (id : string) : M TaskSpecUsageReport :=
  call ctx subject.APIGetTaskSpecUsage (GetTaskSpecUsageRequest id)
    (λ r, match r with TaskSpecUsageReportResponse u => Some u | _ => None end).

Definition cancelProcessInstanceWithError (ctx : Ctx) (processInstanceID : string) (wfe : option WfError) : M unit :=
  call ctx subject.APICancelProcessInstance (CancelProcessInstanceRequest processInstanceID errored wfe) no_result.

Definition CancelProcessInstance (ctx : Ctx) (processInstanceId : string) : M unit :=
  cancelProcessInstanceWithError ctx processInstanceId None.

Definition ListExecution (ctx : Ctx) (name : string) : M (list (string * Z)) :=
  call ctx subject.APIListExecution (ListExecutionRequest name)
    (λ r, match r with ExecutionStream s => Some s.1 | _ => None end).

Definition headerToBytes (h : gmap string string) : M bytes :=
  if bool_decide (h = ∅) then mret ""
  else wrapping (Wrap "encode headers") (lift_sum (headers_marshal h)).

Definition LaunchProcess (ctx : Ctx) (headers : gmap string string) (processID : string) (vars : option Vars) :
    M (string * string) :=
  if bool_decide (processID = "") then throw (New "process id is required")
  else
    ev ← wrapping (Wrap "encode variables for launch workflow") (Encode (default ∅ vars));
    b ← wrapping (Wrap "encode headers as bytes") (headerToBytes headers);
    call ctx subject.APILaunchProcess (LaunchWorkflowRequest processID ev b)
      (λ r, match r with LaunchWorkflowResponse ids => Some ids | _ => None end).

Definition ListExecutableProcesses (ctx : Ctx) : M (list ListExecutableProcessesItem) :=
  call ctx subject.APIListExecutableProcess ListExecutableProcessesRequest
    (λ r, match r with ExecutableStream s => Some s.1 | _ => None end).

Definition ListWorkflows (ctx : Ctx) : M (list (string * Z)) :=
  call ctx subject.APIListWorkflows ListWorkflowsRequest
    (λ r, match r with WorkflowStream s => Some s.1 | _ => None end).

Definition ListExecutionProcesses (ctx : Ctx) (id : string) : M (list string) :=
  call ctx subject.APIListExecutionProcesses (ListExecutionProcessesRequest id)
    (λ r, match r with ListExecutionProcessesResponse ids => Some ids | _ => None end).

Definition GetProcessInstanceStatus (ctx : Ctx) (id : string) : M (list ProcessHistoryEntry) :=
  call ctx subject.APIGetProcessInstanceStatus (GetProcessInstanceStatusRequest id)
    (λ r, match r with HistoryStream s => Some s.1 | _ => None end).

Definition GetUserTask (ctx : Ctx) (owner trackingID : string) : M (string * string * string * bytes * Vars) :=
  res ← call ctx subject.APIGetUserTask (GetUserTaskRequest trackingID)
          (λ r, match r with GetUserTaskResponse t => Some t | _ => None end);
  v ← wrapping (Wrap "client error") (DecodeVars ∅ res.2);
  mret (res, v).

Definition SendMessage (ctx : Ctx) (name : string) (key : GoVal) (mvars : option Vars) : M unit :=
  b ← wrapping (Wrap "encode variables for send message") (EncodeVars mvars);
  call ctx subject.APISendMessage (SendMessageRequest name (Sprint_v key) b) no_result.

Definition GetProcessHistory (ctx : Ctx) (processInstanceId : string) : M (list ProcessHistoryEntry) :=
  call ctx subject.APIGetProcessHistory (GetProcessHistoryRequest processInstanceId)
    (λ r, match r with HistoryStream s => Some s.1 | _ => None end).

Definition GetFatalErrors (ctx : Ctx) (wfName workflowId executionId processInstanceId : string) : M (list FatalError) :=
  call ctx subject.APIGetFatalErrors (GetFatalErrorRequest wfName workflowId executionId processInstanceId)
    (λ r, match r with FatalErrorStream s => Some s.1 | _ => None end).

Definition GetJob (ctx : Ctx) (id : string) : M WorkflowState :=
  call ctx subject.APIGetJob (GetJobRequest id) (λ r, match r with GetJobResponse job => Some job | _ => None end).

Definition GetTaskSpecByUID (ctx : Ctx) (uid : string) : M TaskSpec :=
  call ctx subject.APIGetTaskSpec (GetTaskSpecRequest uid)
    (λ r, match r with GetTaskSpecResponse spec => Some spec | _ => None end).

Definition ListTaskSpecs (ctx : Ctx) (includeDeprecated : bool) : M (list TaskSpec) :=
  uids ← call ctx subject.APIListTaskSpecUIDs (ListTaskSpecUIDsRequest includeDeprecated)
           (λ r, match r with ListTaskSpecUIDsResponse uids => Some uids | _ => None end);
  for_fold uids (λ ret uid,
    ts ← wrapping (Wrap "list task specs: get task spec") (GetTaskSpecByUID (SetNS ctx (cl_ns c)) uid);
    mret (ret ++ [ts])) [].

Definition ResolveWorkflow (ctx : Ctx) (wf : Workflow) : M Workflow :=
  call ctx subject.APIResolveWorkflow (ResolveWorkflowRequest (Some wf))
    (λ r, match r with ResolveWorkflowResponse wf => Some wf | _ => None end).

Definition heartbeat (ctx : Ctx) : M unit :=
  now ← timeNow;
  call ctx subject.APIHeartbeat (HeartbeatRequest_ (mkHeartbeatRequest (cl_host c) (cl_id c) (now `div` 1000000)))
    no_result.

Definition getCompensationVariables (ctx : Ctx) (processInstanceId trackingId : string) : M (Vars * Vars) :=
  let vars r := match r with GetCompensationVariablesResponse v => Some v | _ => None end in
  res1 ← call ctx subject.APIGetCompensationInputVariables
           (GetCompensationInputVariablesRequest processInstanceId trackingId) vars;
  res2 ← call ctx subject.APIGetCompensationOutputVariables
           (GetCompensationOutputVariablesRequest processInstanceId trackingId) vars;
  i ← wrapping (Wrap "client error") (DecodeVars ∅ res1);
  o ← wrapping (Wrap "client error") (DecodeVars ∅ res2);
  mret (i, o).

Definition GetProcessInstanceHeaders (ctx : Ctx) (processInstanceID : string) : M (gmap string string) :=
  call ctx subject.APIGetProcessInstanceHeaders (GetProcessHeadersRequest processInstanceID)
    (λ r, match r with GetProcessHeadersResponse h => Some h | _ => None end).

Definition Retry (ctx : Ctx) (state : WorkflowState) : M unit :=
  call ctx subject.APIRetry (RetryActivityRequest (Some state)) no_result.

Definition EnableWorkflowExecution (ctx : Ctx) (workflowName : string) : M unit :=
  call ctx subject.APIEnableWorkflow (EnableWorkflowRequest workflowName) no_result.

Definition DisableWorkflowExecution (ctx : Ctx) (workflowName : string) : M unit :=
  call ctx subject.APIDisableWorkflow (DisableWorkflowRequest workflowName) no_result.
End calls.
End client.
