(* ===== verification/ClientVars.v ===== *)
(** * The variables of the client

    [model/client_vars.go]: the map of variables that task functions get and
    return; [common/valueparsing/parse.go]: variables on a command line;
    [client/strongly_typed.go] and the check of types in [client_vars.go].

    Reflection is over the types of [GoType].  msgpack and the encoding of structs
    as JSON are parameters. *)
From S2P Require Import Prelude Model Errors Env Sim Duration Calls Client.

(** ** Values *)

(** An [any]: a map is represented by its JSON. *)
Inductive Val :=
  | VarNil
  | VarString (s : string)
  | VarBool (b : bool)
  | VarInt (k : int_kind) (z : Z)
  | VarFloat64 (bits : Z)
  | VarMap (json : string)
  | VarOther (type_name : string).

#[export] Instance Val_eq_dec : EqDecision Val.
Proof. unfold EqDecision, Decision. repeat decide equality. Defined.

Definition kind_name (k : int_kind) : string :=
  match k with
  | Int => "int" | Int8 => "int8" | Int16 => "int16" | Int32 => "int32" | Int64 => "int64"
  | Uint => "uint" | Uint8 => "uint8" | Uint16 => "uint16" | Uint32 => "uint32" | Uint64 => "uint64"
  end.

(** [reflect.TypeOf(v).Name()] *)
Definition type_name (v : Val) : string :=
  match v with
  | VarNil | VarMap _ => "" | VarString _ => "string" | VarBool _ => "bool"
  | VarInt k _ => kind_name k | VarFloat64 _ => "float64" | VarOther n => n
  end.

Abbreviation Vals := (gmap string Val).

(** The types [NewVarsFromMap] lets in. *)
Definition supported (v : Val) : bool :=
  match v with
  | VarString _ | VarBool _ | VarInt Int64 _ | VarFloat64 _ => true
  | _ => false
  end.

(** ** Go's types, as far as [reflect] is asked about them *)
Inductive GoType :=
  | TInt64 | TFloat64 | TBool | TString
  | TStruct (name : string) (fields : list (string * string * GoType))   (* name, tag, type *)
  | TAny                      (* the empty interface *)
  | TOther (name : string).

(** [t.Name()] *)
Definition GoType_Name (t : GoType) : string :=
  match t with
  | TInt64 => "int64" | TFloat64 => "float64" | TBool => "bool" | TString => "string"
  | TStruct n _ | TOther n => n | TAny => ""
  end.

(** A Go type [T] with its values: [encoding/json] for them. *)
Class GoValue (T : Type) := {
  type_of : GoType;
  json_of : T → string + error;            (* into a map, and that as JSON *)
  json_into : string → T + error;
  zero_value : T }.

Class ClientMsgpack := {
  msgpack_Marshal : Vals → bytes + error;
  msgpack_Unmarshal : bytes → Vals + error }.

(** The values that are supported come back as they were. *)
Class ClientMsgpackOk `{ClientMsgpack} := {
  msgpack_round m b :
    msgpack_Marshal m = inl b → map_Forall (λ _ v, supported v = true) m →
    b ≠ "" ∧ msgpack_Unmarshal b = inl m }.

Module vars.
Section vars.
Context `{ClientMsgpack}.

Definition NewVars : Vals := ∅.

(** The loop meets the entries in some order. *)
Fixpoint check_types (l : list (string * Val)) : option error :=
  match l with
  | [] => None
  | (k, v) :: l =>
      if supported v then check_types l
      else Some (New (k +:+ " has value of type " +:+ type_name v +:+ " which is not a suppported"))
  end.

Definition NewVarsFromMap `{Env} (vars : Vals) : M Vals :=
  l ← range vars;
  match check_types l with
  | Some err => throw err
  | None => mret vars
  end.

(** [get[V]], with the type assertion as an argument. *)
Definition get {V} (assert : Val → option V) (vars : Vals) (key : string) : V + error :=
  match vars !! key with
  | None | Some VarNil => inr (New ("workflow var " +:+ key +:+ " found nil"))
  | Some v =>
      match assert v with
      | Some x => inl x
      | None => inr (Wrap ("workflow var " +:+ key +:+ " not present") (Sentinel ErrVarNotFound))
      end
  end.

Definition prefixed {V} (msg : string) (r : V + error) : V + error :=
  match r with inl v => inl v | inr err => inr (Wrap msg err) end.

Definition GetString (vars : Vals) (key : string) : string + error :=
  prefixed "getString" (get (λ v, match v with VarString s => Some s | _ => None end) vars key).

Definition GetInt64 (vars : Vals) (key : string) : Z + error :=
  match vars !! key with
  | None => inr (Wrap ("workflow var " +:+ key +:+ " not present") (Sentinel ErrVarNotFound))
  | Some (VarInt (Int8 | Int16 | Int32 | Int64 | Uint8 | Uint16 | Uint32) z) => inl z
  | Some v => inr (Wrap ("workflow var " +:+ key +:+ " is " +:+ type_name v +:+ " not int64")
                     (Sentinel ErrVarNotFound))
  end.

Definition GetBool (vars : Vals) (key : string) : bool + error :=
  prefixed "getBool" (get (λ v, match v with VarBool b => Some b | _ => None end) vars key).

Definition GetFloat64 (vars : Vals) (key : string) : Z + error :=
  get (λ v, match v with VarFloat64 f => Some f | _ => None end) vars key.

Definition SetString (vars : Vals) (key value : string) : Vals := <[key := VarString value]> vars.
Definition SetInt64 (vars : Vals) (key : string) (value : Z) : Vals := <[key := VarInt Int64 value]> vars.
Definition SetFloat64 (vars : Vals) (key : string) (value : Z) : Vals := <[key := VarFloat64 value]> vars.
Definition SetBool (vars : Vals) (key : string) (value : bool) : Vals := <[key := VarBool value]> vars.

Definition Encode (vars : Vals) : bytes + error := prefixed "encode vars" (msgpack_Marshal vars).

(** Decoding into a map that exists adds to it. *)
Definition Decode (vars : Vals) (b : bytes) : Vals + error :=
  if bool_decide (b = "") then inl vars
  else match msgpack_Unmarshal b with
       | inl m => inl (m ∪ vars)
       | inr err => inr (Wrap "decode vars" err)
       end.

Definition Len (vars : Vals) : nat := size vars.
Definition Keys `{Env} (vars : Vals) : M (list string) := l ← range vars; mret (map fst l).

(** ** Structs *)
Fixpoint scanReflect (t : GoType) : option error :=
  match t with
  | TStruct name fields =>
      (fix scan (fs : list (string * string * GoType)) : option error :=
         match fs with
         | [] => None
         | (fname, _, ft) :: fs =>
             match ft with
             | TInt64 | TFloat64 | TBool | TString => scan fs
             | TStruct _ _ =>
                 match scanReflect ft with
                 | Some err => Some (Wrap ("validate struct " +:+ name) err)
                 | None => scan fs
                 end
             | TAny | TOther _ =>
                 Some (New ("field " +:+ fname +:+ " (" +:+ GoType_Name ft +:+ ") is not of a permitted type"))
             end
         end) fields
  | _ => Some (New ("type " +:+ GoType_Name t +:+ " is not a struct"))
  end.

Definition scanType (T : Type) `{GoValue T} : option error :=
  Wrap "type contains fields incompatible with SHAR variables" <$> scanReflect (type_of (T:=T)).

Definition SetStruct `{GoValue T} (v : Vals) (key : string) (t : T) : Vals + error :=
  match scanType T with
  | Some err => inr (Wrap "set struct" err)
  | None =>
      match json_of t with
      | inr err => inr (Wrap ("marshal struct json " +:+ key) err)
      | inl json => inl (<[key := VarMap json]> v)
      end
  end.

Definition GetStruct `{GoValue T} (vars : Vals) (key : string) : T + error :=
  match vars !! key with
  | None => inr (Wrap ("workflow var " +:+ key +:+ " found nil") (Sentinel ErrVarNotFound))
  | Some (VarMap json) => prefixed ("unmarshal json " +:+ key) (json_into json)
  | Some v => inr (Wrap ("workflow var " +:+ key +:+ " is " +:+ type_name v +:+ " not map[string]interface{}")
                     (Sentinel ErrVarNotFound))
  end.
End vars.
End vars.

(** ** Variables on the command line *)
Fixpoint span_while (P : ascii → bool) (s : string) : string * string :=
  match s with
  | EmptyString => ("", "")
  | String c s' => if P c then let '(a, b) := span_while P s' in (String c a, b) else ("", s)
  end.

Definition alnum (c : ascii) : bool :=
  let n := nat_of_ascii c in
  bool_decide (48 ≤ n ≤ 57 ∨ 65 ≤ n ≤ 90 ∨ 97 ≤ n ≤ 122).

Definition quote : ascii := "034"%char.
Definition newline : ascii := "010"%char.

Definition key_char (c : ascii) : bool := alnum c || bool_decide (c = quote).

(** The last group of the pattern: up to the last closing parenthesis of the line. *)
Fixpoint up_to_last_paren (s : string) : option string :=
  match s with
  | EmptyString => None
  | String c s' =>
      if bool_decide (c = newline) then None
      else match up_to_last_paren s' with
           | Some v => Some (String c v)
           | None => if bool_decide (c = ")"%char) then Some "" else None
           end
  end.

(** The pattern of [extract] at the beginning of a text. *)
Definition match_var (s : string) : option (string * string * string) :=
  let '(key, s1) := span_while key_char s in
  match s1 with
  | String ":" s2 =>
      let '(ty, s3) := span_while alnum s2 in
      match s3 with
      | String "(" s4 => v ← up_to_last_paren s4; Some (key, ty, v)
      | _ => None
      end
  | _ => None
  end.

(** The first match. *)
Fixpoint find_var (s : string) : option (string * string * string) :=
  match match_var s with
  | Some m => Some m
  | None => match s with String _ s' => find_var s' | EmptyString => None end
  end.

Fixpoint trim_left (c : ascii) (s : string) : string :=
  match s with
  | String d s' => if bool_decide (d = c) then trim_left c s' else s
  | EmptyString => ""
  end.

Fixpoint trim_right (c : ascii) (s : string) : string :=
  match s with
  | EmptyString => ""
  | String d s' =>
      match trim_right c s' with
      | EmptyString => if bool_decide (d = c) then "" else String d ""
      | t => String d t
      end
  end.

(** [strings.Trim(s, c)] *)
Definition Trim (c : ascii) (s : string) : string := trim_right c (trim_left c s).

Definition extract (text : string) : (string * string * string) + error :=
  match find_var text with
  | Some (key, varType, value) =>
      if negb (HasPrefix key "") || negb (HasSuffix key "")
      then inr (Wrap ("identifier " +:+ text +:+ " not correctly quoted") (Sentinel ErrBadlyQuotedIdentifier))
      else inl (Trim quote key, varType, value)
  | None => inr (Wrap ("extract var from " +:+ text) (Sentinel ErrExtractingVar))
  end.

Section parse.
Context `{ClientEnv}.

(** One element: a type that is not in the list sets nothing. *)
Definition parse_elem (vars : Vals) (elem : string) : Vals + error :=
  match extract elem with
  | inr err => inr (Wrap "extract variables" err)
  | inl (key, varType, value) =>
      if bool_decide (varType = "int") then
        match Atoi value with
        | Some z => inl (vars.SetInt64 vars key z)
        | None => inr (Wrap "parse int" (New "strconv.Atoi: parsing"))
        end
      else if bool_decide (varType = "float64") then
        match ParseFloat value with
        | Some f => inl (vars.SetFloat64 vars key f)
        | None => inr (Wrap "parse float64" (New "strconv.ParseFloat: parsing"))
        end
      else if bool_decide (varType = "string") then inl (vars.SetString vars key value)
      else if bool_decide (varType = "bool") then
        match ParseBool value with
        | Some b => inl (vars.SetBool vars key b)
        | None => inr (Wrap "parse bool" (New "strconv.ParseBool: parsing"))
        end
      else inl vars
  end.

Fixpoint parse_elems (vars : Vals) (arr : list string) : Vals + error :=
  match arr with
  | [] => inl vars
  | elem :: arr => match parse_elem vars elem with inl vars => parse_elems vars arr | inr err => inr err end
  end.

Definition Parse (arr : list string) : Vals + error := parse_elems vars.NewVars arr.

(** ** Printing *)

(** A value with the text it is written as; a float is written as some text
    [strconv.ParseFloat] takes. *)
Inductive arg := ArgInt (z : Z) | ArgFloat (text : string) (bits : Z) | ArgString (s : string) | ArgBool (b : bool).

Definition arg_text (a : arg) : string * string :=
  match a with
  | ArgInt z => ("int", Itoa z)
  | ArgFloat text _ => ("float64", text)
  | ArgString s => ("string", s)
  | ArgBool b => ("bool", if b then "true" else "false")
  end.

Definition arg_value (a : arg) : Val :=
  match a with
  | ArgInt z => VarInt Int64 z | ArgFloat _ bits => VarFloat64 bits
  | ArgString s => VarString s | ArgBool b => VarBool b
  end.

Definition arg_ok (a : arg) : Prop :=
  match a with
  | ArgInt z => in_int64 z
  | ArgFloat text bits => ParseFloat text = Some bits ∧ lacks newline text = true
  | ArgString s => lacks newline s = true
  | ArgBool _ => True
  end.

(** A name, in quotes or not. *)
Record arg_name := mkName { an_quoted : bool; an_name : string }.

Definition name_text (n : arg_name) : string :=
  if an_quoted n then String quote (an_name n +:+ String quote "") else an_name n.

Definition name_ok (n : arg_name) : Prop := string_forall alnum (an_name n) = true.

Definition print_arg (n : arg_name) (a : arg) : string :=
  name_text n +:+ ":" +:+ (arg_text a).1 +:+ "(" +:+ (arg_text a).2 +:+ ")".

Lemma span_while_stop P a c s :
  string_forall P a = true → P c = false → span_while P (a +:+ String c s) = (a, String c s).
Proof.
  intros Ha Hc. induction a as [|d a IH].
  - change (span_while P (String c s) = ("", String c s)). simpl. by rewrite Hc.
  - change (String d a +:+ String c s) with (String d (a +:+ String c s)). simpl in *.
    apply andb_true_iff in Ha as [-> Ha]. by rewrite IH.
Qed.

Lemma up_to_last_paren_print v : lacks newline v = true → up_to_last_paren (v +:+ ")") = Some v.
Proof.
  unfold lacks. induction v as [|c v IH]; [done|]. intros [Hc Hv]%andb_true_iff.
  change (String c v +:+ ")") with (String c (v +:+ ")")). cbn [up_to_last_paren].
  case_bool_decide as Hn; [by subst|]. by rewrite IH.
Qed.

Lemma alnum_no_quote c : alnum c = true → c ≠ quote.
Proof. by intros Hc ->. Qed.

Lemma string_app_nil_r s : s +:+ "" = s.
Proof. induction s as [|c s IH]; [done|]. change (String c s +:+ "") with (String c (s +:+ "")). by rewrite IH. Qed.

Lemma trim_right_alnum key : string_forall alnum key = true → trim_right quote key = key.
Proof.
  induction key as [|c key IH]; [done|]. simpl. intros [Hc%alnum_no_quote Hk]%andb_true_iff.
  rewrite IH by done. destruct key; [by rewrite bool_decide_false|done].
Qed.

Lemma trim_right_quote key : trim_right quote (key +:+ String quote "") = trim_right quote key.
Proof.
  induction key as [|c key IH]; [done|]. change (String c key +:+ String quote "") with (String c (key +:+ String quote "")).
  cbn [trim_right]. by rewrite IH.
Qed.

Lemma trim_left_alnum key s : string_forall alnum key = true → key ≠ "" → trim_left quote (key +:+ s) = key +:+ s.
Proof.
  destruct key as [|c key]; [done|]. simpl. intros [Hc%alnum_no_quote _]%andb_true_iff _.
  change (String c key +:+ s) with (String c (key +:+ s)). cbn [trim_left]. by rewrite bool_decide_false.
Qed.

Lemma trim_name n : name_ok n → Trim quote (name_text n) = an_name n.
Proof.
  destruct n as [q key]. unfold name_ok, name_text, Trim. simpl. intros Hk. destruct (decide (key = "")) as [->|Hne]; [by destruct q|].
  destruct q; cbn [trim_left]; [rewrite bool_decide_true by done|rewrite <-(string_app_nil_r key) at 1].
  - by rewrite trim_left_alnum, trim_right_quote, trim_right_alnum.
  - by rewrite trim_left_alnum, string_app_nil_r, trim_right_alnum.
Qed.

Lemma name_chars n : name_ok n → string_forall key_char (name_text n) = true.
Proof.
  assert (∀ key s, string_forall alnum key = true → string_forall key_char s = true →
    string_forall key_char (key +:+ s) = true) as Happ.
  { intros key s Hk Hs. induction key as [|c key IH]; [done|].
    change (String c key +:+ s) with (String c (key +:+ s)). simpl in *. apply andb_true_iff in Hk as [Hc Hk].
    unfold key_char at 1. rewrite Hc. by apply IH. }
  destruct n as [[] key]; unfold name_ok, name_text; simpl; intros Hk.
  - by apply Happ.
  - rewrite <-(string_app_nil_r key). by apply Happ.
Qed.

Lemma extract_print n ty v :
  name_ok n → string_forall alnum ty = true → lacks newline v = true →
  extract (name_text n +:+ ":" +:+ ty +:+ "(" +:+ v +:+ ")") = inl (an_name n, ty, v).
Proof.
  intros Hk Ht Hv. unfold extract. set (key := name_text n).
  assert (match_var (key +:+ ":" +:+ ty +:+ "(" +:+ v +:+ ")") = Some (key, ty, v)) as Hm.
  { unfold match_var. change (":" +:+ ty +:+ "(" +:+ v +:+ ")") with (String ":" (ty +:+ "(" +:+ v +:+ ")")).
    rewrite span_while_stop; [|by apply name_chars|done].
    change ("(" +:+ v +:+ ")") with (String "(" (v +:+ ")")). rewrite span_while_stop by done.
    by rewrite up_to_last_paren_print. }
  assert (find_var (key +:+ ":" +:+ ty +:+ "(" +:+ v +:+ ")") = Some (key, ty, v)) as ->
    by (destruct (key +:+ _); cbn [find_var]; by rewrite Hm).
  assert (HasPrefix key "" = true) as -> by by destruct key.
  assert (HasSuffix key "" = true) as ->
    by (generalize key as s; clear; induction s as [|c s IH]; [done|]; cbn [HasSuffix]; rewrite IH; apply orb_true_r).
  simpl. subst key. by rewrite trim_name.
Qed.

Lemma Itoa_neg p : Itoa (Z.neg p) = String "-" (Itoa (Z.pos p)).
Proof. done. Qed.

Lemma Atoi_Itoa_int64 z : in_int64 z → Atoi (Itoa z) = Some z.
Proof.
  intros Hz. unfold in_int64 in Hz. destruct (decide (0 ≤ z)%Z) as [Hp|Hn].
  - apply Atoi_Itoa. unfold in_int. lia.
  - destruct z as [|p|p]; [lia..|]. rewrite Itoa_neg.
    destruct (Itoa_nonneg (Z.pos p)) as (_ & He & Hv); [lia|]. unfold Atoi.
    rewrite bool_decide_false by done. rewrite Hv, bool_decide_true by lia. done.
Qed.

Lemma Itoa_line z : lacks newline (Itoa z) = true.
Proof.
  destruct (decide (0 ≤ z)%Z) as [Hp|Hn].
  - apply numeral_lacks; [done|]. by apply Itoa_nonneg.
  - destruct z as [|p|p]; [lia..|]. rewrite Itoa_neg. unfold lacks. cbn [string_forall].
    apply andb_true_iff. split; [done|]. apply (numeral_lacks newline); [done|]. by apply Itoa_nonneg.
Qed.

Lemma parse_elem_print vars n a :
  name_ok n → arg_ok a →
  parse_elem vars (print_arg n a) = inl (<[an_name n := arg_value a]> vars).
Proof.
  intros Hk Ha. unfold parse_elem, print_arg. rewrite extract_print; [|done| |].
  - destruct a as [z|text bits|s|b]; simpl in *.
    + by rewrite Atoi_Itoa_int64.
    + by destruct Ha as [-> _].
    + done.
    + by destruct b.
  - by destruct a.
  - destruct a as [z|text bits|s|[]]; simpl in *; [apply Itoa_line|tauto|done..].
Qed.

Lemma parse_elems_print vars args :
  Forall (λ ka, name_ok ka.1 ∧ arg_ok ka.2) args →
  parse_elems vars (map (λ ka, print_arg ka.1 ka.2) args) =
    inl (foldl (λ m ka, <[an_name ka.1 := arg_value ka.2]> m) vars args).
Proof.
  intros Hargs. revert vars. induction Hargs as [|[k a] args [Hk Ha] _ IH]; intros vars; [done|].
  cbn [map parse_elems foldl]. rewrite parse_elem_print by done. apply IH.
Qed.

(** (C38) Variables written as [name:type(value)], the names in quotes or not, are
    read back: the map has each name's last value at its type, whatever
    parentheses and quotes a text holds.  Names are of letters and digits, and no
    text has a new line in it, as [extract]'s pattern asks. *)
Theorem Parse_print args :
  Forall (λ ka, name_ok ka.1 ∧ arg_ok ka.2) args →
  Parse (map (λ ka, print_arg ka.1 ka.2) args) =
    inl (foldl (λ m ka, <[an_name ka.1 := arg_value ka.2]> m) ∅ args).
Proof. apply parse_elems_print. Qed.
End parse.

(** A type that [Parse] does not know is no error: the variable is dropped. *)
Lemma Parse_drops `{ClientEnv} : Parse ["count:int64(5)"] = inl ∅.
Proof. reflexivity. Qed.

(** ** The map over the wire *)
Section vars_facts.
Context `{EnvOk} `{ClientMsgpackOk}.

Lemma check_types_None l :
  vars.check_types l = None ↔ Forall (λ kv, supported kv.2 = true) l.
Proof.
  induction l as [|[k v] l IH]; [done|]. cbn [vars.check_types]. rewrite Forall_cons. simpl.
  destruct (supported v); [rewrite IH; naive_solver|naive_solver].
Qed.

Lemma map_Forall_range (vs l : _) (P : Val → Prop) :
  l ≡ₚ map_to_list (vs : Vals) → Forall (λ kv, P kv.2) l ↔ map_Forall (λ _, P) vs.
Proof.
  intros Hl. rewrite Hl, Forall_forall. split.
  - intros Hf k v Hk. by apply (Hf (k, v)), elem_of_map_to_list.
  - intros Hf [k v] Hk%elem_of_map_to_list. by eapply Hf.
Qed.

(** What the getters see of a variable. *)
Definition reads (vars : Vals) (key : string) : option string * option Z * option bool * option Z :=
  let value {A} (r : A + error) := match r with inl a => Some a | inr _ => None end in
  (value (vars.GetString vars key), value (vars.GetInt64 vars key),
   value (vars.GetBool vars key), value (vars.GetFloat64 vars key)).

(** A map is accepted exactly when every value is a string, a bool, an int64 or
    a float64; and then it survives the wire: each getter, of the four types and at
    every key, answers at the other end as it does here. *)
Theorem NewVarsFromMap_survives vs w :
  let '(_, r) := vars.NewVarsFromMap vs w in
  (r = Ok vs ↔ map_Forall (λ _ v, supported v = true) vs) ∧
  (∀ b, r = Ok vs → vars.Encode vs = inl b → ∃ vs', vars.Decode vars.NewVars b = inl vs' ∧
     ∀ key, reads vs' key = reads vs key).
Proof.
  unfold vars.NewVarsFromMap, range, mbind, gom_bind. simpl.
  pose proof (map_order_perm Val (w_tick w) vs) as Hl.
  destruct (vars.check_types _) as [err|] eqn:Hc; simpl.
  - split; [|done]. split; [done|]. intros Hs. apply (map_Forall_range _ _ (λ v, supported v = true) Hl), check_types_None in Hs. congruence.
  - apply check_types_None, (map_Forall_range _ _ (λ v, supported v = true) Hl) in Hc. split; [done|]. intros b _ He.
    unfold vars.Encode, vars.prefixed in He. destruct (msgpack_Marshal vs) as [b'|] eqn:Hm; [|done].
    injection He as ->. destruct (msgpack_round vs b Hm Hc) as [Hb Hu].
    exists vs. unfold vars.Decode. rewrite bool_decide_false, Hu by done. unfold vars.NewVars.
    split; [f_equal; apply map_union_empty|done].
Qed.

(** A getter answers what the setter of its type put, and no other getter does. *)
Lemma reads_set vs key key' :
  (∀ s, reads (vars.SetString vs key s) key' = if decide (key' = key) then (Some s, None, None, None) else reads vs key') ∧
  (∀ z, reads (vars.SetInt64 vs key z) key' = if decide (key' = key) then (None, Some z, None, None) else reads vs key') ∧
  (∀ b, reads (vars.SetBool vs key b) key' = if decide (key' = key) then (None, None, Some b, None) else reads vs key') ∧
  (∀ f, reads (vars.SetFloat64 vs key f) key' = if decide (key' = key) then (None, None, None, Some f) else reads vs key').
Proof.
  assert (∀ v, reads (<[key := v]> vs) key' = if decide (key' = key) then reads {[key := v]} key else reads vs key') as Hr.
  { intros v. unfold reads, vars.GetString, vars.GetInt64, vars.GetBool, vars.GetFloat64, vars.get.
    case_decide as Hk; [subst; by rewrite lookup_insert_eq, lookup_singleton_eq|by rewrite lookup_insert_ne]. }
  assert (∀ v, reads {[key := v]} key = reads {["" := v]} "") as Hs.
  { intros v. unfold reads, vars.GetString, vars.GetInt64, vars.GetBool, vars.GetFloat64, vars.get.
    by rewrite !lookup_singleton_eq; destruct v as [| | |[]| | |]. }
  split_and!; intros x; unfold vars.SetString, vars.SetInt64, vars.SetBool, vars.SetFloat64; by rewrite Hr, Hs.
Qed.
End vars_facts.

(** ** Types *)

(** The types of the fields of a struct and of the structs inside. *)
Fixpoint leaves (t : GoType) : list GoType :=
  match t with
  | TStruct _ fields =>
      (fix go (fs : list (string * string * GoType)) : list GoType :=
         match fs with [] => [] | f :: fs => leaves f.2 ++ go fs end) fields
  | _ => [t]
  end.

Definition is_other (t : GoType) : bool := match t with TAny | TOther _ => true | _ => false end.

(** A struct is let in exactly when no field, however deep, has a type that a
    variable cannot have. *)
Lemma scanReflect_leaves t :
  match t with
  | TStruct _ _ => vars.scanReflect t = None ↔ Forall (λ t, is_other t = false) (leaves t)
  | _ => is_Some (vars.scanReflect t)
  end.
Proof.
  revert t. fix IH 1. intros [| | | |name fields| |n]; try by eexists.
  cbn [vars.scanReflect leaves]. induction fields as [|[[fname tag] ft] fields IHf]; [done|].
  rewrite Forall_app. cbn [snd]. specialize (IH ft). destruct ft as [| | | |name' fields'| |n'].
  1-4: rewrite IHf; cbn [leaves]; rewrite Forall_singleton; naive_solver.
  - destruct (vars.scanReflect (TStruct name' fields')) as [e|].
    + split; [done|]. intros [Hl _]. by apply IH in Hl.
    + rewrite IHf. destruct IH as [IH _]. specialize (IH eq_refl). naive_solver.
  - split; [done|]. cbn [leaves]. rewrite Forall_singleton. naive_solver.
  - split; [done|]. cbn [leaves]. rewrite Forall_singleton. naive_solver.
Qed.

(** ** Witnesses *)
Definition ex_args : list (arg_name * arg) :=
  [(mkName true "orderId", ArgInt (-68)); (mkName false "note", ArgString "a (b) c");
   (mkName false "urgent", ArgBool true)].

Definition ex_written : list string :=
  [String quote ("orderId" +:+ String quote ":int(-68)"); "note:string(a (b) c)"; "urgent:bool(true)"].

Lemma Parse_print_witness :
  map (λ ka, print_arg ka.1 ka.2) ex_args = ex_written ∧
  @Parse ex_workers ex_written =
    inl (<["urgent" := VarBool true]> (<["note" := VarString "a (b) c"]> {["orderId" := VarInt Int64 (-68)]})).
Proof.
  split; [vm_compute; reflexivity|]. apply (@Parse_print ex_workers ex_args).
  repeat (constructor; [split; [reflexivity|first [exact I|reflexivity|split; vm_compute; congruence]]|]).
  constructor.
Defined.

(** An encoding of two maps. *)
Definition ex_vals : Vals := {["x" := VarInt Int64 5]}.
Definition sim_client_msgpack : ClientMsgpack := {|
  msgpack_Marshal m := if decide (m = ex_vals) then inl "1" else inr (New "msgpack");
  msgpack_Unmarshal b := if bool_decide (b = "1") then inl ex_vals else inr (New "msgpack") |}.

Lemma sim_client_msgpack_ok : @ClientMsgpackOk sim_client_msgpack.
Proof. split. intros m b. simpl. case_decide as Hm; [|done]. intros [= <-] _. by subst. Qed.

Lemma NewVarsFromMap_survives_witness :
  (@vars.NewVarsFromMap sim ex_vals (@world_init sim)).2 = Ok ex_vals ∧
  ∃ vs', @vars.Decode sim_client_msgpack vars.NewVars "1" = inl vs' ∧
    ∀ key, reads vs' key = reads ex_vals key.
Proof.
  pose proof (@NewVarsFromMap_survives sim (Sim_ok _ _ _) sim_client_msgpack sim_client_msgpack_ok
    ex_vals world_init) as Hs.
  assert ((@vars.NewVarsFromMap sim ex_vals (@world_init sim)).2 = Ok ex_vals) as Hr by (vm_compute; reflexivity).
  split; [exact Hr|]. destruct (vars.NewVarsFromMap ex_vals world_init) as [w r].
  destruct Hs as [_ Hs]. apply (Hs "1"); [exact Hr|]. vm_compute. reflexivity.
Defined.
