(* ===== verification/Worker.v ===== *)
(** * The worker of the Go client

    The functions an application registers ([RegisterTaskFunction],
    [RegisterMessageSender], [RegisterProcessComplete] of [client/client.go]),
    the closures of [listen] that run them, and [client/backoff.go]: when a task
    that failed is tried again, and what happens when it has failed for the last
    time. *)
From S2P Require Import Prelude Model Errors Env Sim Common Wp NatsUtil Vars Publish History Instances TaskSpec Store Launch Jobs Duration Traverse Gateway Messages Compensate Process Api Calls ClientTask Client.

(** ** Registration *)
Section registration.
Context `{Env}.

(** The metadata gets the identifier; a function that is nil registers
    nothing. *)
Definition registerTaskFunction (c : Client) (spec : TaskSpec) (def : FnDef) : M (Client * TaskSpec) :=
  match ts_Metadata spec with
  | None => throw (New "task metadata is nil")
  | Some md =>
      uid ← (if bool_decide (md_Uid md = "") then wrapping (Wrap "create uid") (CreateUID spec)
             else mret (md_Uid md));
      let spec := spec <| ts_Metadata := Some (md <| md_Uid := uid |>) |> in
      match fd_Fn def with
      | FnNil => mret (c, spec)
      | _ =>
          match cl_SvcTasks c !! uid with
          | Some _ => throw (Wrap "service task already registered" (Sentinel ErrServiceTaskAlreadyRegistered))
          | None => mret (c <| cl_SvcTasks ::= <[uid := def]> |> <| cl_listenTasks ::= union {[uid]} |>, spec)
          end
      end
  end.

Definition RegisterTaskFunction (c : Client) (spec : TaskSpec) (fn : option ServiceFn) : M (Client * TaskSpec) :=
  wrapping (Wrap "register task function")
    (registerTaskFunction c spec (mkFnDef ExecutionTypeVars (match fn with Some f => FnService f | None => FnNil end))).

Definition RegisterMessageSender (c : Client) (workflowName messageName : string) (sender : SenderFn) : M Client :=
  let key := workflowName +:+ "_" +:+ messageName in
  match cl_MsgSender c !! key with
  | Some _ => throw (Wrap "message sender already registered" (Sentinel ErrMessageSenderAlreadyRegistered))
  | None => mret (c <| cl_MsgSender ::= <[key := mkFnDef ExecutionTypeVars (FnSender sender)]> |>
                    <| cl_msgListenTasks ::= union {[key]} |>)
  end.

Definition RegisterProcessComplete (c : Client) (processId : string) (fn : ProcessTerminateFn) : Client :=
  c <| cl_proCompleteTasks ::= <[processId := mkFnDef ExecutionTypeVars (FnTerminate fn)]> |>.
End registration.

(** ** Backoff *)
Definition Millisecond : Z := 1000000.
Definition Second : Z := 1000000000.

(** [int64(math.Pow(2, float64(n)))]: powers of two are exact; the conversion of
    one that is too large gives the smallest integer, as it does on amd64. *)
Definition pow2_int64 (n : Z) : Z := if bool_decide (n < 63)%Z then (2 ^ n)%Z else (- 2 ^ 63)%Z.

(** [time.Since] saturates. *)
Definition clamp64 (z : Z) : Z := Z.max (- 2 ^ 63) (Z.min (2 ^ 63 - 1) z).

(** The wait before the ceiling is applied, in nanoseconds. *)
Definition raw_offset (strategy : RetryStrategy) (initial interval deliveryCount : Z) : Z :=
  match strategy with
  | Linear => wrap64 (initial + wrap64 (interval * (deliveryCount - 1)))
  | Incremental => wrap64 (initial + wrap64 (interval * pow2_int64 (deliveryCount - 1)))
  end.

(** The last test takes the offset, which is in nanoseconds, for milliseconds. *)
Definition getOffset (strategy : RetryStrategy) (initial interval deliveryCount ceiling since : Z) : Z :=
  let initial := wrap64 (initial * Millisecond) in
  let interval := wrap64 (interval * Millisecond) in
  let ceiling := wrap64 (ceiling * Millisecond) in
  let interval := if bool_decide (interval = 0)%Z then Second else interval in
  let ceiling := if bool_decide (ceiling < interval)%Z then interval else ceiling in
  let offset :=
    if bool_decide (1 < deliveryCount)%Z then
      let offset := raw_offset strategy initial interval deliveryCount in
      if bool_decide (ceiling < offset)%Z then ceiling else offset
    else 0%Z in
  if bool_decide (wrap64 (offset * Millisecond) < since)%Z then 0%Z else offset.

Module worker.
Section closures.
Context `{Env} `{ApiEnv} `{ClientEnv} (c : Client).

(** [c.con.PublishMsg] of a message without headers, or with two of its own. *)
Definition notifyRetryExceeded (m : Msg) : M unit :=
  _ ← attempt (natsPublish (mkMsg
        (ReplaceFirst (msg_Subject m) messages.StateJobExecute ".State.Job.RetryExceeded.") ∅ (msg_Data m)));
  mret tt.

Definition signalFatalErr (ctx : Ctx) (state : WorkflowState) : M unit :=
  _ ← attempt (Call (SetNS ctx (cl_ns c)) subject.APIHandleWorkflowFatalError
        (cl_ExpectedCompatibleServerVersion c) (HandleWorkflowFatalErrorRequest (Some state)) client.no_result);
  mret tt.

(** The variable a task is completed with when its retries are exceeded. *)
Definition retry_variable (rx : DefaultRetryExceededBehaviour) : M GoVal :=
  let parsed why (v : option GoVal) := match v with Some v => mret v | None => throw (New why) end in
  if bool_decide (rx_VariableType rx = "int") then
    parsed "parse retry variable as integer" (VNum Int64 <$> Atoi (rx_VariableValue rx))
  else if bool_decide (rx_VariableType rx = "float") then
    parsed "parse retry variable as float" (VFloat <$> ParseFloat (rx_VariableValue rx))
  else if bool_decide (rx_VariableType rx = "bool") then
    parsed "parse retry variable as boolean" (VBool <$> ParseBool (rx_VariableValue rx))
  else mret (VString (rx_VariableValue rx)).

Definition retries_exceeded (ctx : Ctx) (state : WorkflowState) (rx : DefaultRetryExceededBehaviour) : M unit :=
  let trackingID := TrackingID.ID (ws_Id state) in
  match rx_Action rx with
  | FailWorkflow =>
      wrapping (Wrap "cancelling process instance")
        (client.CancelProcessInstance c ctx (ws_ProcessInstanceId state))
  | ThrowWorkflowError =>
      handled ← wrapping (λ e, Wrap "call workflow error handler" (Wrap "retry workflow error handle" e))
        (Call ctx subject.APIHandleWorkflowError (cl_ExpectedCompatibleServerVersion c)
           (HandleWorkflowErrorRequest trackingID (rx_ErrorCode rx) "")
           (λ r, match r with HandleWorkflowErrorResponse h => Some h | _ => None end));
      if (handled : bool) then mret tt else throw (New "handle workflow error")
  | PauseWorkflow => signalFatalErr ctx state
  | SetVariableValue =>
      v ← retry_variable rx;
      wrapping (Wrap "complete service task with error variable")
        (client.completeServiceTask c ctx trackingID (Some {[rx_Variable rx := v]})
           (bool_decide (ws_State state = compensating)))
  end.

(** The two deferred functions of the last attempt run however it ends: the
    message is terminated, then the notification goes out. *)
Definition last_attempt (m : Msg) (body : M unit) : M (answer * option error) := λ w,
  match body w with
  | (w', Ok _) => (_ ← notifyRetryExceeded m; mret (Term, None)) w'
  | (w', Err e) => (_ ← notifyRetryExceeded m; mret (Term, Some e)) w'
  | (w', Panic p) => (_ ← notifyRetryExceeded m; panic p) w'
  end.

(** [backoff]; [delivered] is the number of deliveries of the message. *)
Definition backoff (delivered : Z) (ctx : Ctx) (m : Msg) : M (answer * option error) :=
  match Unmarshal (A:=WorkflowState) (msg_Data m) with
  | None => mret (Unanswered, Some (New "service task listener"))
  | Some state =>
      r ← attempt (client.GetWorkflow c ctx (ws_WorkflowId state));
      match r with
      | inr err =>
          mret (if Is err ErrWorkflowNotFound then Term else Unanswered, Some (Wrap "error getting workflow" err))
      | inl wf =>
          els ← ElementTable wf;
          elem ← deref "elem.RetryBehaviour" (els !! ws_ElementId state);
          rb ← deref "retryBehaviour.Number" (el_RetryBehaviour elem);
          if bool_decide (rt_Number rb ≤ delivered)%Z then
            last_attempt m
              (rx ← deref "retryBehaviour.DefaultExceeded.Action" (rt_DefaultExceeded rb);
               retries_exceeded ctx state rx)
          else
            now ← timeNow;
            let since := clamp64 (now - ws_UnixTimeNano state) in
            mret (NakWithDelay (getOffset (rt_Strategy rb) (rt_InitMilli rb) (rt_IntervalMilli rb) delivered
                                  (rt_MaxMilli rb) since), None)
      end
  end.

(** ** The closures of [listen] *)
Definition svcFnExecutor (ctx : Ctx) (trackingID : string) (job : WorkflowState) (def : FnDef) (inVars : Vars) :
    M (option Vars * option error) :=
  match fd_Type def with
  | ExecutionTypeTyped => mret (Some ∅, Some (New "bad execution type"))
  | ExecutionTypeVars =>
      let id := ws_Id job in
      let pidCtx := task_ctx ctx id job None in
      let jc := mkJobClient (TrackingID.ID id) (TrackingID.ParentID id) (ws_ProcessInstanceId job)
                  (ws_ExecutionId job) None None in
      let run jc :=
        match fd_Fn def with
        | FnService f => '(v, err) ← f pidCtx jc inVars; mret (v, Wrap "execute service task" <$> err)
        | _ => panic "interface conversion"
        end in
      if bool_decide (ws_State job = compensating) then
        cp ← deref "job.Compensation" (ws_Compensation job);
        r ← attempt (client.getCompensationVariables c ctx (ws_ProcessInstanceId job) (cp_ForTrackingId cp));
        match r with
        | inr err => mret (Some ∅, Some (Wrap "get compensation variables" err))
        | inl (i, o) => run (jc <| jc_originalInputs := Some i |> <| jc_originalOutputs := Some o |>)
        end
      else run jc
  end.

Definition svcFnLocator (job : WorkflowState) : M FnDef :=
  match cl_SvcTasks c !! ws_ExecuteVersion job with
  | Some def => mret def
  | None =>
      _ ← deref "job.Execute" (ws_Execute job);
      throw (Wrap "find service task function" (ErrWorkflowFatal_value (New "service task not found")))
  end.

Definition msgFnLocator (job : WorkflowState) : M FnDef :=
  ex ← deref "job.Execute" (ws_Execute job);
  match cl_MsgSender c !! (ws_WorkflowName job +:+ "_" +:+ ex) with
  | Some def => mret def
  | None => throw (New "msg send task not found")
  end.

Definition msgFnExecutor (ctx : TaskCtx) (trackingID : string) (job : WorkflowState) (def : FnDef) (inVars : Vars) :
    M unit :=
  match fd_Type def, fd_Fn def with
  | ExecutionTypeTyped, _ => throw (New "bad execution type")
  | ExecutionTypeVars, FnSender f =>
      f ctx (mkMessageClient trackingID (TrackingID.ParentID (ws_Id job)) (ws_ProcessInstanceId job) (ws_ExecutionId job))
        inVars
  | ExecutionTypeVars, _ => panic "interface conversion"
  end.

(** In the namespace of the message. *)
Definition workflowErrorHandler (ctx : Ctx) (ns trackingID errorCode : string) (binVars : bytes) : M bool :=
  wrapping (λ e, Wrap "handle a workflow error" (Wrap "handle workflow error" e))
    (Call (SetNS ctx ns) subject.APIHandleWorkflowError (cl_ExpectedCompatibleServerVersion c)
       (HandleWorkflowErrorRequest trackingID errorCode binVars)
       (λ r, match r with HandleWorkflowErrorResponse h => Some h | _ => None end)).

Definition params : ServiceTaskProcessParams :=
  mkParams svcFnExecutor msgFnExecutor svcFnLocator msgFnLocator (client.completeServiceTask c)
    (client.completeSendMessage c) workflowErrorHandler
    (λ ctx id wfe, client.cancelProcessInstanceWithError c ctx id (Some wfe)).

(** [retryNotifier], the receive middleware of the client. *)
Definition retryNotifier (delivered : Z) (ctx : Ctx) (m : Msg) : M unit :=
  if Contains (msg_Subject m) messages.StateJobExecute && bool_decide (1 < delivered)%Z then
    match Unmarshal (A:=WorkflowState) (msg_Data m) with
    | None => throw (New "retry notifier")
    | Some state =>
        wf ← wrapping (Wrap "get workflow") (client.GetWorkflow c ctx (ws_WorkflowId state));
        elem ← SeekElement wf (ws_ElementId state);
        elem ← deref "elem.RetryBehaviour" elem;
        rb ← deref "retryBehaviour.Number" (el_RetryBehaviour elem);
        wrapping (Wrap "publish retry notification")
          (natsPublish (mkMsg (ReplaceFirst (msg_Subject m) ".Job.Execute." ".Job.Retry.")
             {["RetryCount" := pretty delivered; "RetryMax" := pretty (rt_Number rb)]} (msg_Data m)))
    end
  else mret tt.

(** A middleware that fails leaves the handler without a context; the loop over
    the middleware goes on, and the handler makes a context of nil. *)
Definition run_task (delivered : Z) (ctx : Ctx) (m : Msg) : M reply :=
  r ← attempt (retryNotifier delivered ctx m);
  match r with
  | inl _ => ClientProcessFn (cl_noRecovery c) (client.GetJob c) params ctx m
  | inr _ =>
      match compat_problem m with
      | Some err => mret (false, Some err)
      | None => panic "cannot create context from nil parent"
      end
  end.

(** The consumers of the tasks the client listens for. *)
Definition task_consumer (delivered : Z) (m : Msg) : M answer :=
  process_message (SetNS Background (cl_ns c)) (run_task delivered) (Some signalFatalErr) (Some (backoff delivered)) m.

(** [listenProcessTerminate] *)
Definition process_terminated (ctx : Ctx) (m : Msg) : M reply :=
  match Unmarshal (A:=WorkflowState) (msg_Data m) with
  | None => mret (true, Some (New "listenProcessTerminate unmarshalling proto"))
  | Some st =>
      r ← attempt (DecodeVars ∅ (ws_Vars st));
      match r with
      | inr err => mret (true, Some (Wrap "listenProcessTerminate decoding vars" err))
      | inl v =>
          match cl_proCompleteTasks c !! ws_ProcessId st with
          | None => mret (true, None)
          | Some def =>
              match fd_Type def, fd_Fn def with
              | ExecutionTypeTyped, _ => mret (true, Some (New "unknown processterminate function type"))
              | ExecutionTypeVars, FnTerminate f => _ ← f ctx v (ws_Error st) (ws_State st); mret (true, None)
              | ExecutionTypeVars, _ => panic "interface conversion"
              end
          end
      end
  end.
End closures.
End worker.
