(* ===== verification/Typed.v ===== *)
(** * Strongly typed functions

    [client/strongly_typed.go] and [client/taskutil/taskutil.go]: functions over
    structs, whose types are checked against the specification of the task, and
    task specifications that come as YAML.  The YAML library and the file system
    are parameters. *)
From S2P Require Import Prelude Model Errors Env Sim Common Wp NatsUtil Vars TaskSpec Launch Jobs Api Calls ClientTask Client ClientVars Worker.

(** Reading a file, and a specification from its text. *)
Class YamlEnv := {
  ReadFile : string → string + error;
  yaml_Unmarshal : string → TaskSpec + error }.

Definition lift_sum {S A} (r : A + error) : gom error S A :=
  match r with inl a => mret a | inr err => throw err end.

Section typed.
Context `{Env} `{ApiEnv} `{ClientEnv} `{YamlEnv}.

Definition ParseTaskSpec (taskSpec : string) : M TaskSpec :=
  match yaml_Unmarshal taskSpec with
  | inl spec => mret spec
  | inr err => throw (New "unmarshal spec yaml")   (* the error is formatted with %v *)
  end.

Definition ParseTaskSpecFromFile (path : string) : M TaskSpec :=
  data ← wrapping (Wrap ("os failed to read file " +:+ path)) (lift_sum (ReadFile path));
  wrapping (Wrap "parse task spec") (ParseTaskSpec data).

(** ** Types against specifications *)
Definition fields_of (t : GoType) : option (list (string * string * GoType)) :=
  match t with TStruct _ fs => Some fs | _ => None end.

(** [getMapping]: from tags, or names where there is no tag, to names. *)
Definition getMapping (fs : list (string * string * GoType)) : gmap string string :=
  foldl (λ m f, <[(if bool_decide (f.1.2 = "") then f.1.1 else f.1.2) := f.1.1]> m) ∅ fs.

Fixpoint FieldByName (fs : list (string * string * GoType)) (name : string) : option GoType :=
  match fs with
  | [] => None
  | f :: fs => if bool_decide (f.1.1 = name) then Some f.2 else FieldByName fs name
  end.

(** The type of the value a parameter of this type is compared with; other types
    are not compared. *)
Definition comp_type (ty : string) : option GoType :=
  if bool_decide (ty = "string") then Some TString
  else if bool_decide (ty = "float") then Some TFloat64
  else if bool_decide (ty = "bool") then Some TBool
  else if bool_decide (ty = "int") then Some (TOther "int")
  else None.

Definition AssignableTo (t f : GoType) : bool :=
  match t, f with
  | _, TAny => true
  | TString, TString | TFloat64, TFloat64 | TBool, TBool => true
  | TOther n, TOther n' => bool_decide (n = n')
  | _, _ => false
  end.

Fixpoint check_params (fs : list (string * string * GoType)) (mapping : gmap string string)
    (input : list TaskParameter) : option error :=
  match input with
  | [] => None
  | p :: input =>
      match FieldByName fs (default "" (mapping !! pm_Name p)) with
      | None => Some (New ("field " +:+ pm_Name p +:+ " not found"))
      | Some f =>
          match comp_type (pm_Type p) with
          | Some comp =>
              if AssignableTo comp f then check_params fs mapping input
              else Some (New ("field " +:+ pm_Name p +:+ ".(" +:+ pm_Type p +:+ ") cannot be assigned "
                              +:+ GoType_Name f))
          | None => check_params fs mapping input
          end
      end
  end.

Definition validateParamsToSpec (fs : list (string * string * GoType)) (input : list TaskParameter) :
    gmap string string + error :=
  let mapping := getMapping fs in
  match check_params fs mapping input with Some err => inr err | None => inl mapping end.

(** The types of the parameter and of the result of the function. *)
Definition validateFnParams (spec : TaskSpec) (inParam outParam : GoType) :
    M (gmap string string * gmap string string) :=
  match fields_of inParam, fields_of outParam with
  | Some ifs, Some ofs =>
      ps ← deref "spec.Parameters" (ts_Parameters spec);
      inMapping ← wrapping (Wrap "invalid input parameter") (lift_sum (validateParamsToSpec ifs (tp_Input ps)));
      outMapping ← wrapping (Wrap "invalid output parameter") (lift_sum (validateParamsToSpec ofs (tp_Output ps)));
      mret (inMapping, outMapping)
  | _, _ => throw (New "input parameter must be a struct")
  end.

(** ** Registration

    [fn] is the function as a value; the mappings go into its definition and are
    read nowhere. *)
Definition RegisterTaskWithSpec (c : Client) (spec : TaskSpec) (inParam outParam : GoType) (fn : TaskFn) :
    M (Client * TaskSpec) :=
  _ ← wrapping (Wrap "validate task function params") (validateFnParams spec inParam outParam);
  wrapping (Wrap "register typed task function")
    (registerTaskFunction c spec (mkFnDef ExecutionTypeTyped fn)).

Definition RegisterTaskWithSpecFile (c : Client) (specFile : string) (inParam outParam : GoType) (fn : TaskFn) :
    M (Client * TaskSpec) :=
  spec ← wrapping (Wrap "parse task spec from file") (ParseTaskSpecFromFile specFile);
  wrapping (Wrap "register task") (RegisterTaskWithSpec c spec inParam outParam fn).

(** The generic function of the package, with the type of its parameter. *)
Definition RegisterProcessComplete_typed (c : Client) (processId : string) (inParam : GoType) (fn : TaskFn) :
    M Client :=
  match fields_of inParam with
  | None => throw (New "input parameter must be a struct")
  | Some _ => mret (c <| cl_proCompleteTasks ::= <[processId := mkFnDef ExecutionTypeTyped fn]> |>)
  end.

(** ** Specifications from YAML: [client/taskutil] *)
Definition LoadSpecFromBytes (buf : string) : M TaskSpec :=
  wrapping (Wrap "failed to parse task spec") (lift_sum (yaml_Unmarshal buf)).

Definition LoadTaskYaml (c : Client) (ctx : Ctx) (taskYaml : string) : M string :=
  yml ← wrapping (Wrap "RegisterTaskFromYaml") (LoadSpecFromBytes taskYaml);
  yml ← wrapping (Wrap "RegisterTaskYaml") (client.StoreTask c ctx yml);
  wrapping (Wrap "RegisterTaskYaml") (CreateUID yml).

Definition RegisterTaskFunctionFromYaml (c : Client) (taskYaml : string) (fn : option ServiceFn) :
    M (Client * string) :=
  yml ← wrapping (Wrap "RegisterTaskFromYaml") (LoadSpecFromBytes taskYaml);
  '(c, yml) ← wrapping (Wrap "RegisterTaskYaml") (RegisterTaskFunction c yml fn);
  uid ← wrapping (Wrap "RegisterTaskYaml") (CreateUID yml);
  mret (c, uid).

Definition LoadTaskFromYamlFile (c : Client) (ctx : Ctx) (yamlFile : string) : M string :=
  sb ← wrapping (Wrap "register task yaml file") (lift_sum (ReadFile yamlFile));
  wrapping (Wrap "RegisterTaskYamlFile") (LoadTaskYaml c ctx sb).

Definition RegisterTaskFunctionFromYamlFile (c : Client) (yamlFile : string) (fn : option ServiceFn) :
    M (Client * string) :=
  sb ← wrapping (Wrap "register task yaml file") (lift_sum (ReadFile yamlFile));
  wrapping (Wrap "RegisterTaskFunctionFromYaml") (RegisterTaskFunctionFromYaml c sb fn).

(** ** Facts *)

(** A parameter fits a struct when the struct has a field for it, of the type
    the parameter has. *)
Definition fits (fs : list (string * string * GoType)) (p : TaskParameter) : Prop :=
  ∃ f, FieldByName fs (default "" (getMapping fs !! pm_Name p)) = Some f ∧
       ∀ comp, comp_type (pm_Type p) = Some comp → AssignableTo comp f = true.

Lemma validateParamsToSpec_fits fs input :
  validateParamsToSpec fs input = inl (getMapping fs) ↔ Forall (fits fs) input.
Proof.
  unfold validateParamsToSpec. cbv zeta.
  enough (check_params fs (getMapping fs) input = None ↔ Forall (fits fs) input) as <-.
  { destruct (check_params _ _ _); naive_solver. }
  induction input as [|p input IH]; [done|]. cbn [check_params]. rewrite Forall_cons, <-IH. unfold fits.
  destruct (FieldByName _ _) as [f|]; [|split; [done|by intros [(? & [=] & _) _]]].
  destruct (comp_type _) as [comp|].
  - destruct (AssignableTo comp f) eqn:Ha.
    + split; [|tauto]. intros Hi. split; [|done]. exists f. split; [done|]. by intros ? [= <-].
    + split; [done|]. intros [(f' & [= <-] & Hc) _]. specialize (Hc comp eq_refl). congruence.
  - split; [|tauto]. intros Hi. split; [|done]. by exists f.
Qed.

(** Registering is the only thing that happens to a typed function: the client
    finds it for the tasks of its specification and refuses to run it, every time,
    without a call to anything. *)
Theorem typed_function_never_runs c spec inParam outParam fn w w1 c' spec' md :
  RegisterTaskWithSpec c spec inParam outParam fn w = (w1, Ok (c', spec')) → fn ≠ FnNil →
  ts_Metadata spec' = Some md →
  ∀ job ctx trackingID inVars w2, ws_ExecuteVersion job = md_Uid md →
    (def ← worker.svcFnLocator c' job; worker.svcFnExecutor c' ctx trackingID job def inVars) w2 =
      (w2, Ok (Some ∅, Some (New "bad execution type"))).
Proof.
  intros Hr Hfn Hmd job ctx tid vs w2 Hjob.
  assert (cl_SvcTasks c' !! md_Uid md = Some (mkFnDef ExecutionTypeTyped fn)) as Hc.
  { revert Hr. unfold RegisterTaskWithSpec, mbind at 1, gom_bind at 1.
    destruct (wrapping _ (validateFnParams _ _ _) w) as [w0 [ms|e|p]]; [|done..].
    unfold wrapping, registerTaskFunction. destruct (ts_Metadata spec) as [md0|]; [|done].
    unfold mbind at 1, gom_bind at 1.
    match goal with |- context [match ?m w0 with _ => _ end] => destruct (m w0) as [w3 [uid|e|p]]; [|done..] end.
    simpl. destruct fn; [done|..]; destruct (cl_SvcTasks c !! uid) eqn:Hu; try done;
      intros [= <- <- <-]; simpl in Hmd; injection Hmd as <-; simpl; apply lookup_insert_eq. }
  unfold worker.svcFnLocator. rewrite Hjob, Hc. reflexivity.
Qed.
End typed.

(** ** Witness *)
Definition ex_yaml : YamlEnv := {|
  ReadFile _ := inl ""; yaml_Unmarshal _ := inr (New "yaml") |}.

Definition ex_typed_spec : TaskSpec :=
  mkTaskSpec "1.0" "ServiceTask" (Some (mkTaskMetadata "uid1" "add" "1.0")) None
    (Some (mkTaskParameters [] [])).
Definition ex_typed_client : @Client sim := @mkClient sim "c1" "host" "default" ∅ ∅ ∅ ∅ ∅ None true.
Definition ex_struct : GoType := TStruct "In" [("X", "x", TInt64)].
Definition ex_typed_fn : @TaskFn sim := @FnService sim (λ _ _ _, mret (None, None)).
Definition ex_typed_job : WorkflowState := zero_state <| ws_ExecuteVersion := "uid1" |>.

Lemma typed_function_never_runs_witness :
  ∃ w1 c' spec', @RegisterTaskWithSpec sim ex_typed_client ex_typed_spec ex_struct ex_struct ex_typed_fn
      (@world_init sim) = (w1, Ok (c', spec')) ∧
    ∀ w2, (def ← @worker.svcFnLocator sim c' ex_typed_job;
           @worker.svcFnExecutor sim ex_server ex_workers c' Background "t" ex_typed_job def ∅) w2 =
      (w2, Ok (Some ∅, Some (New "bad execution type"))).
Proof.
  eexists _, _, _. split; [reflexivity|]. intros w2.
  eapply (@typed_function_never_runs sim ex_server ex_workers ex_typed_client ex_typed_spec ex_struct
    ex_struct ex_typed_fn (@world_init sim)); [reflexivity|discriminate|reflexivity|reflexivity].
Defined.
