(* ===== verification/Listening.v ===== *)
(** * Listening and shutting down

    [Process] of [common/natsutil.go] around its loop, [Listen], [listen] and
    [Shutdown] of [client/client.go]: how many goroutines fetch messages, when they
    stop, and what [Shutdown] waits for.

    The goroutines are a transition system: each fetches a message, answers it
    there or runs the handler, and fetches the next; [Shutdown] closes the closer,
    which has the receivers stopped one after the other, and polls the number of
    tasks that are running until it is zero. *)
From S2P Require Import Prelude Model Errors Env Sim Common Wp NatsUtil Process Launch Jobs Api Calls ClientTask Client Worker.

(** ** Starting *)
Section start.
Context `{Env}.

(** [consumer.Info] and [consumer.Messages] *)
Definition natsConsumerInfo (durable : string) : M string := nats (λ w, (w, Ok durable)).
Definition natsMessages (durable : string) : M unit := nats (λ w, (w, Ok tt)).

(** One turn of the loop that starts the goroutines. *)
Definition open_receiver (durable : string) : M unit :=
  _ ← wrapping (Wrap "check durable consumer present") (natsFindConsumer durable);
  _ ← (if bool_decide (durable ≠ "") && negb (HasPrefix durable "ServiceTask_") then
         conInfo ← attempt (natsConsumerInfo durable);
         match conInfo with
         | inl d => if bool_decide (d = "") then throw (New "durable consumer is not explicity configured")
                    else mret tt
         | inr _ => throw (New "durable consumer is not explicity configured")
         end
       else mret tt);
  wrapping (Wrap "process consumer") (natsMessages durable).

Fixpoint open_receivers (durable : string) (concurrency started : nat) : M (nat * option error) :=
  match concurrency with
  | 0 => mret (started, None)
  | S n =>
      r ← attempt (open_receiver durable);
      match r with
      | inr err => mret (started, Some err)
      | inl _ => open_receivers durable n (S started)
      end
  end.

(** What runs when [Process] has returned: the goroutines that fetch, and the one
    that stops them when the closer is closed, which is started last. *)
Record started := mkStarted { st_receivers : nat; st_stopper : bool }.

Definition start_Process (durable : string) (concurrency : nat) : M (started * option error) :=
  '(n, err) ← open_receivers durable concurrency 0;
  mret (mkStarted n (bool_decide (err = None)), err).

(** The subjects [listen] listens on, by the names of the tasks. *)
Definition listen_subjects (c : Client) : gmap string string :=
  set_fold (λ i m, <[i := NS (messages.WorkflowJobSendMessageExecute +:+ "." +:+ i) (cl_ns c)]> m)
    (set_fold (λ i m, <[i := NS (messages.WorkflowJobServiceTaskExecute +:+ "." +:+ i) (cl_ns c)]> m)
       ∅ (cl_listenTasks c)) (cl_msgListenTasks c).

Fixpoint listen_all (ns : string) (concurrency : nat) (tasks : list (string * string))
    (running : list started) : M (list started * option error) :=
  match tasks with
  | [] => mret (running, None)
  | (k, _) :: tasks =>
      let cName := "ServiceTask_" +:+ ns +:+ "_" +:+ k in
      r ← attempt (_ ← wrapping (Wrap "get consumer") (natsFindConsumer cName);
                   wrapping (Wrap "listen obtaining consumer info") (natsConsumerInfo cName));
      match r with
      | inr err => mret (running, Some err)
      | inl _ =>
          '(st, err) ← start_Process cName concurrency;
          match err with
          | Some err => mret (running ++ [st], Some (Wrap "connect to service task consumer" err))
          | None => listen_all ns concurrency tasks (running ++ [st])
          end
      end
  end.

(** [listen] *)
Definition listen_tasks (c : Client) (concurrency : nat) : M (list started * option error) :=
  tasks ← range (listen_subjects c);
  listen_all (cl_ns c) concurrency tasks [].

Definition listenProcessTerminate (c : Client) : M (started * option error) :=
  '(st, err) ← start_Process ("ProcessTerminateConsumer_" +:+ cl_ns c) 4;
  mret (st, Wrap "listen workflow complete process" <$> err).

(** [Listen]: the loops of the tasks, and the one of terminated processes, whose
    closer is a channel of its own that nothing closes. *)
Definition Listen (c : Client) (concurrency : nat) : M (list started * option started * option error) :=
  '(tasks, err) ← listen_tasks c concurrency;
  match err with
  | Some err => mret (tasks, None, Some (Wrap "client error" err))
  | None =>
      '(st, err) ← listenProcessTerminate c;
      mret (tasks, Some st, Wrap "client error" <$> err)
  end.
End start.

(** ** Running *)
Inductive phase :=
  | Waiting      (* in [messagesContext.Next] *)
  | Fetched      (* has a message, before the handler *)
  | Running      (* in the handler, which has counted itself *)
  | Gone.        (* the goroutine has returned *)

Inductive shutdown := NotCalled | Polling | Returned.

Record loops := mkLoops {
  lp_closer : bool;          (* the closer is closed *)
  lp_stopper : bool;         (* a goroutine waits for it *)
  lp_stopped : nat;          (* the receivers that are stopped: the first so many *)
  lp_receivers : list phase;
  lp_processing : nat;       (* [c.processing] *)
  lp_shutdown : shutdown }.

#[export] Instance loops_settable : Settable loops := λ r,
  mkLoops (lp_closer r) (lp_stopper r) (lp_stopped r) (lp_receivers r) (lp_processing r) (lp_shutdown r).

Definition loops_start (s : started) : loops :=
  mkLoops false (st_stopper s) 0 (replicate (st_receivers s) Waiting) 0 NotCalled.

Definition at_phase (i : nat) (p : phase) (s : loops) : loops := s <| lp_receivers ::= <[i := p]> |>.

(** [closable]: is the closer the client's, which [Shutdown] closes? *)
Inductive loops_step (closable : bool) : loops → loops → Prop :=
  | next_message s i :
      lp_receivers s !! i = Some Waiting → lp_stopped s ≤ i → loops_step closable s (at_phase i Fetched s)
  | next_closed s i :
      lp_receivers s !! i = Some Waiting → i < lp_stopped s → loops_step closable s (at_phase i Gone s)
  | answered_early s i :
      lp_receivers s !! i = Some Fetched → loops_step closable s (at_phase i Waiting s)
  | handler_begins s i :
      lp_receivers s !! i = Some Fetched →
      loops_step closable s (at_phase i Running s <| lp_processing ::= S |>)
  | handler_ends s i :
      lp_receivers s !! i = Some Running →
      loops_step closable s (at_phase i Waiting s <| lp_processing ::= pred |>)
  | Shutdown_called s :
      lp_shutdown s = NotCalled →
      loops_step closable s (s <| lp_closer := closable |> <| lp_shutdown := Polling |>)
  | stop_next s :
      lp_closer s = true → lp_stopper s = true → lp_stopped s < length (lp_receivers s) →
      loops_step closable s (s <| lp_stopped ::= S |>)
  | Shutdown_polls s :
      lp_shutdown s = Polling → lp_processing s = 0 → loops_step closable s (s <| lp_shutdown := Returned |>).

(** ** What a shutdown does *)
Section loops_facts.
Context (closable : bool).

Definition running (p : phase) : nat := match p with Running => 1 | _ => 0 end.

(** The counter counts the handlers that run; a receiver is gone only when it was
    stopped, and none is stopped before the closer is closed, or without the
    goroutine that does it. *)
Record loops_inv (s : loops) : Prop := {
  li_count : lp_processing s = sum_list_with running (lp_receivers s);
  li_bound : lp_stopped s ≤ length (lp_receivers s);
  li_gone i : lp_receivers s !! i = Some Gone → i < lp_stopped s;
  li_stopped : lp_stopped s ≠ 0 → lp_closer s = true ∧ lp_stopper s = true;
  li_closer : lp_closer s = true → lp_shutdown s ≠ NotCalled ∧ closable = true }.

Lemma at_phase_inv s i p q :
  lp_receivers s !! i = Some p → (q = Gone → i < lp_stopped s) → loops_inv s →
  ∀ s', lp_receivers s' = <[i := q]> (lp_receivers s) → lp_closer s' = lp_closer s →
    lp_stopper s' = lp_stopper s → lp_stopped s' = lp_stopped s → lp_shutdown s' = lp_shutdown s →
    lp_processing s' + running p = lp_processing s + running q → loops_inv s'.
Proof.
  intros Hi Hq [Hc Hb Hg Hs Hcl] s' Hr E1 E2 E3 E4 Hn.
  pose proof (sum_insert running _ i p q Hi) as Hsum. rewrite <-Hr in Hsum.
  split; rewrite ?E1, ?E2, ?E3, ?E4; try done; [lia|by rewrite Hr, length_insert|].
  intros j. rewrite Hr, list_lookup_insert_Some. intros [(<- & Hj & _)|[_ Hj]]; auto.
Qed.

Lemma loops_inv_step s s' : loops_inv s → loops_step closable s s' → loops_inv s'.
Proof.
  intros Hinv Hst. pose proof Hinv as [Hc Hb Hg Hs Hcl]. destruct Hst.
  1-5: eapply at_phase_inv; try exact Hinv; try done; try (simpl; lia); try by intros [=].
  - simpl. assert (lp_processing s ≠ 0); [|lia]. rewrite Hc.
    pose proof (sum_lookup_le running _ _ _ H). simpl in *. lia.
  - split; simpl; auto.
    intros Hne. destruct (Hs Hne) as [Hcs _]. by destruct (Hcl Hcs).
  - split; simpl; auto. intros i Hi%Hg. lia.
  - split; simpl; auto. intros [? ?]%Hcl. by split.
Qed.

Lemma loops_inv_reachable st s : rtc (loops_step closable) (loops_start st) s → loops_inv s.
Proof.
  apply rtc_invariant; [intros s1 s2 Hs Hi; by eapply loops_inv_step|].
  unfold loops_start. split; simpl; try done.
  - induction (st_receivers st) as [|n IH]; [done|exact IH].
  - lia.
  - intros i [Hp _]%lookup_replicate. done.
Qed.

Lemma stays s s' : rtc (loops_step closable) s s' →
  lp_stopper s' = lp_stopper s ∧ length (lp_receivers s') = length (lp_receivers s).
Proof.
  induction 1 as [|s1 s2 s3 Hs _ [IH1 IH2]]; [done|]. rewrite IH1, IH2.
  destruct Hs; simpl; by rewrite ?length_insert.
Qed.

(** What is left to do when every receiver is stopped. *)
Definition phase_left (p : phase) : nat :=
  match p with Gone => 0 | Waiting => 1 | Running => 2 | Fetched => 3 end.
Definition shutdown_left (d : shutdown) : nat :=
  match d with NotCalled => 2 | Polling => 1 | Returned => 0 end.
Definition left_to_do (s : loops) : nat :=
  sum_list_with phase_left (lp_receivers s) + shutdown_left (lp_shutdown s).

Definition all_stopped (s : loops) : Prop := lp_stopped s = length (lp_receivers s).

Lemma stopped_step s s' :
  all_stopped s → loops_step closable s s' → all_stopped s' ∧ left_to_do s' < left_to_do s.
Proof.
  unfold all_stopped, left_to_do. intros Hs Hst.
  assert (∀ i p q, lp_receivers s !! i = Some p →
    sum_list_with phase_left (<[i := q]> (lp_receivers s)) + phase_left p =
    sum_list_with phase_left (lp_receivers s) + phase_left q) as Hsum by (intros; by apply sum_insert).
  destruct Hst as [s i Hi Hl|s i Hi Hl|s i Hi|s i Hi|s i Hi|s Hd|s Hc Ht Hl|s Hd Hp]; simpl in *;
    rewrite ?length_insert; try (specialize (Hsum i _ Gone Hi) as H1; specialize (Hsum i _ Waiting Hi) as H2;
      specialize (Hsum i _ Running Hi) as H3; simpl in *).
  - apply lookup_lt_Some in Hi. lia.
  - lia.
  - lia.
  - lia.
  - lia.
  - rewrite Hd. simpl. lia.
  - lia.
  - rewrite Hd. simpl. lia.
Qed.

Lemma stopped_acc s : all_stopped s → Acc (flip (loops_step closable)) s.
Proof.
  induction s as [s IH] using (induction_ltof1 _ left_to_do). intros Hs. constructor.
  intros s' Hst. destruct (stopped_step s s' Hs Hst). by apply IH.
Qed.

Lemma stopped_progress s :
  loops_inv s → all_stopped s →
  (∃ s', loops_step closable s s') ∨
  Forall (eq Gone) (lp_receivers s) ∧ lp_shutdown s = Returned.
Proof.
  intros Hinv Hs. destruct (decide (Exists (λ p, phase_left p ≠ 0) (lp_receivers s)))
    as [(p & [i Hi]%list_elem_of_lookup & Hp)%Exists_exists|Hn].
  - left. pose proof (lookup_lt_Some _ _ _ Hi) as Hlt. unfold all_stopped in Hs.
    destruct p; simpl in Hp; [| | |lia]; eexists; [eapply next_closed|eapply answered_early|eapply handler_ends]; eauto; lia.
  - apply not_Exists_Forall in Hn; [|apply _].
    assert (Forall (eq Gone) (lp_receivers s)) as Hg.
    { eapply Forall_impl; [exact Hn|]. intros []; simpl; try lia; done. }
    destruct (lp_shutdown s) eqn:Hd; [left; eexists; by apply Shutdown_called| |by right].
    left. eexists. apply Shutdown_polls; [done|]. rewrite (li_count s Hinv).
    clear -Hg. induction Hg as [|p l <- _ IH]; [done|exact IH].
Qed.

(** (C25) The loops of a client wind down: once their receivers are stopped, and when
    every handler ends, whatever the goroutines still do is finite, and at its end
    every one of them has returned, [Shutdown] has returned and no task is running.
    (That [Shutdown] waits for every task is not so: [shutdown_returns_early].) *)
Theorem shutdown_winds_down st s :
  rtc (loops_step closable) (loops_start st) s → all_stopped s →
  Acc (flip (loops_step closable)) s ∧
  ∀ s', rtc (loops_step closable) s s' →
    (∃ s'', loops_step closable s' s'') ∨
    Forall (eq Gone) (lp_receivers s') ∧ lp_shutdown s' = Returned ∧ lp_processing s' = 0.
Proof.
  intros Hr Hs. split; [by apply stopped_acc|]. intros s' Hr'.
  assert (loops_inv s') as Hinv by (eapply loops_inv_reachable; etrans; [exact Hr|exact Hr']).
  assert (all_stopped s') as Hs'.
  { clear -Hs Hr'. induction Hr' as [|s1 s2 s3 Hst _ IH]; [done|]. by apply IH; destruct (stopped_step s1 s2 Hs Hst). }
  destruct (stopped_progress s' Hinv Hs') as [Hp|[Hg Hd]]; [by left|right]. split_and!; [done..|].
  rewrite (li_count s' Hinv). clear -Hg. induction Hg as [|p l <- _ IH]; [done|exact IH].
Qed.

(** Without the goroutine that stops them, or with a closer that nothing closes,
    the receivers never return. *)
Lemma never_stopped st s :
  st_stopper st = false ∨ closable = false →
  rtc (loops_step closable) (loops_start st) s → Forall (λ p, p ≠ Gone) (lp_receivers s).
Proof.
  intros Hn Hr. pose proof (loops_inv_reachable _ _ Hr) as [_ _ Hg Hs Hc].
  destruct (stays _ _ Hr) as [Ht _]. simpl in Ht.
  assert (lp_stopped s = 0) as Hz.
  { destruct (decide (lp_stopped s = 0)) as [|Hne]; [done|]. destruct (Hs Hne) as [Hcl Hst].
    destruct Hn as [Hn|Hn]; [congruence|]. destruct (Hc Hcl). congruence. }
  apply Forall_lookup. intros i p Hi ->. apply Hg in Hi. lia.
Qed.
End loops_facts.

(** Starting that fails after some goroutines are running leaves them running
    for ever: the goroutine that stops them is not started. *)
Lemma failed_start_never_stops `{Env} durable n w w' st e s :
  start_Process durable n w = (w', Ok (st, Some e)) →
  rtc (loops_step true) (loops_start st) s → Forall (λ p, p ≠ Gone) (lp_receivers s).
Proof.
  intros Hst. apply never_stopped. left. revert Hst. unfold start_Process, mbind, gom_bind.
  destruct (open_receivers durable n 0 w) as [w1 [[k err]|e'|p]]; [|done..].
  by intros [= _ <- ->].
Qed.

(** With its consumer there and no call failing, [Process] starts what it is
    asked for. *)
Lemma start_Process_starts `{EnvOk} (NF : NoFaults) durable n w :
  durable ∈ w_consumers w → durable ≠ "" →
  ∃ w', start_Process durable n w = (w', Ok (mkStarted n true, None)).
Proof.
  intros Hd Hne.
  assert (∀ k w, durable ∈ w_consumers w → ∃ w', open_receivers durable n k w = (w', Ok (k + n, None))) as Hgo.
  { induction n as [|n IH]; intros k w0 Hw; cbn [open_receivers].
    - exists w0. by rewrite Nat.add_0_r.
    - assert (∃ w1, open_receiver durable w0 = (w1, Ok tt) ∧ durable ∈ w_consumers w1) as (w1 & Ho & Hw1).
      { enough (wp (open_receiver durable) w0 (λ w r, r = Ok tt ∧ durable ∈ w_consumers w)) as Hw0.
        { unfold wp in Hw0. destruct (open_receiver durable w0) as [w1 r].
          destruct Hw0 as [Hr ?]. simpl in Hr. subst r. by exists w1. }
        unfold open_receiver. wp_steps. unfold natsFindConsumer. apply wp_nats; [done|]. cbn [fst snd].
        rewrite bool_decide_true by done. wp_steps.
        destruct (bool_decide (durable ≠ "") && negb (HasPrefix durable "ServiceTask_")); wp_steps.
        - unfold natsConsumerInfo. apply wp_nats; [done|]. cbn [fst snd]. wp_steps.
          rewrite bool_decide_false by done. wp_steps. unfold natsMessages. by apply wp_nats.
        - unfold natsMessages. by apply wp_nats. }
      destruct (IH (S k) w1 Hw1) as [w2 Hr]. exists w2. unfold mbind, gom_bind, attempt. rewrite Ho, Hr.
      by replace (S k + n) with (k + S n) by lia. }
  destruct (Hgo 0 w Hd) as [w' Hw]. exists w'. unfold start_Process, mbind, gom_bind. by rewrite Hw.
Qed.

(** [Shutdown] can return, and the program exit, with a task about to run: a
    receiver has its message, and the handler has not counted itself yet, when
    [Shutdown] looks.  And the loops of terminated processes go on after it. *)
Theorem shutdown_returns_early :
  (∃ s, rtc (loops_step true) (loops_start (mkStarted 1 true)) s ∧
     lp_shutdown s = Returned ∧ lp_receivers s = [Running]) ∧
  (∀ s, rtc (loops_step false) (loops_start (mkStarted 4 true)) s →
     length (lp_receivers s) = 4 ∧ Forall (λ p, p ≠ Gone) (lp_receivers s)).
Proof.
  split.
  - eexists. split.
    + eapply rtc_l; [by apply (next_message _ _ 0)|].
      eapply rtc_l; [by apply Shutdown_called|].
      eapply rtc_l; [by apply Shutdown_polls|].
      eapply rtc_l; [by apply (handler_begins _ _ 0)|]. apply rtc_refl.
    + by split.
  - intros s Hr. destruct (stays _ _ _ Hr) as [_ Hl]. split; [exact Hl|].
    eapply never_stopped; [by right|exact Hr].
Qed.

(** ** Witness *)
Definition ex_loops_stopped : loops :=
  mkLoops true true 2 [Running; Waiting] 1 Polling.

Lemma shutdown_winds_down_witness : Acc (flip (loops_step true)) ex_loops_stopped.
Proof.
  apply (shutdown_winds_down true (mkStarted 2 true) ex_loops_stopped).
  - unfold loops_start. simpl.
    eapply rtc_l; [apply (next_message _ _ 0); [reflexivity|simpl; lia]|]. simpl.
    eapply rtc_l; [apply (handler_begins _ _ 0); reflexivity|]. simpl.
    eapply rtc_l; [apply Shutdown_called; reflexivity|]. simpl.
    eapply rtc_l; [apply stop_next; [reflexivity|reflexivity|simpl; lia]|]. simpl.
    eapply rtc_l; [apply stop_next; [reflexivity|reflexivity|simpl; lia]|]. apply rtc_refl.
  - reflexivity.
Defined.
