(* ===== verification/Work.v ===== *)
(** * What a worker does for a task

    The worker of the Go client, the API and the operations behind it put
    together: an error of an endpoint reaches its caller with its code and text;
    a service task whose function returns is completed by one message; what
    happens to the tasks that fail. *)
From S2P Require Import Prelude Model Errors Env Sim Common Wp NatsUtil Vars Publish History Instances Lookups TaskSpec Store Launch Jobs Duration Traverse Gateway Messages Compensate Process Api Calls ClientTask Client Worker.

(** ** Error responses *)

(** A text up to the separator of error responses. *)
Definition up_to_separator (s : string) : string := default "" (head (Split "002" s)).

Lemma Split_nonempty sep s : Split sep s ≠ [].
Proof. destruct s as [|c s]; simpl; [done|]. case_bool_decide; [done|]. by destruct (Split sep s). Qed.

Lemma parse_apiError code msg :
  in_int code → parse_error (apiError code msg) = Some (Ok (code, up_to_separator msg)).
Proof.
  intros Hc. destruct (Itoa_spec code Hc) as (Hn & He & _). unfold parse_error, apiError.
  change (ErrorPrefix +:+ pretty code +:+ ErrorSeparator +:+ msg)
    with ("ERR" +:+ String "001" (Itoa code +:+ String "002" msg)).
  assert (lacks "002" (Itoa code) = true) as Hl by (by apply numeral_lacks).
  assert (lacks "001" (Itoa code) = true) as Hl' by (by apply numeral_lacks).
  rewrite bool_decide_true by (destruct (Itoa code); [done|simpl; lia]). simpl andb. cbv zeta.
  change ("ERR" +:+ String "001" (Itoa code +:+ String "002" msg))
    with (String "E" (String "R" (String "R" (String "001" (Itoa code +:+ String "002" msg))))).
  simpl. rewrite Split_app by done. cbn [bool_decide head default]. simpl.
  rewrite Split_lacks by done. simpl. rewrite Atoi_Itoa by done. simpl. unfold up_to_separator.
  pose proof (Split_nonempty "002" msg).
  by destruct (Split "002" msg), (Itoa code).
Qed.

(** An error of an endpoint reaches the caller as it was: from the bytes of an
    error response the client reads back its code, and its text up to the first
    separator in it, whatever the code and the text are. *)
Theorem api_error_roundtrip code msg :
  in_int code → lacks "002" msg = true → parse_error (apiError code msg) = Some (Ok (code, msg)).
Proof.
  intros Hc Hm. rewrite parse_apiError by done. unfold up_to_separator. by rewrite Split_lacks.
Qed.

(** ** Calls *)
Lemma insert_toMsg k v values h :
  HasPrefix k header.natsSharHeader = false →
  <[k := v]> (header.toMsg values h) = header.toMsg values (<[k := v]> h).
Proof.
  intros Hk. unfold header.toMsg. apply insert_union_r, lookup_kmap_None; [apply _|].
  intros i ->. exfalso. revert Hk. clear. by destruct i.
Qed.

Section calls.
Context `{EnvOk} `{ApiEnv} `{ClientEnv}.

(** The context the server makes of a call is the caller's: its namespace, its
    values and the correlation of the call. *)
Lemma apiCtx_request ctx ns cid subject compat :
  apiCtx (request_message ctx ns cid subject compat) = mkCtx (Some ns) (Some cid) (ctx_Values ctx).
Proof.
  unfold request_message. rewrite !insert_toMsg by done. unfold apiCtx. simpl msg_Header.
  set (h := <[NatsCompatHeader := _]> _). assert (HeaderFacts.plain h) as Hp.
  { intros k v. unfold h. rewrite !lookup_insert_Some, lookup_empty. naive_solver. }
  assert (∀ k, HasPrefix k header.natsSharHeader = false →
    header.toMsg (ctx_Values ctx) h !! k = h !! k) as Hl.
  { intros k Hk. unfold header.toMsg. apply lookup_union_r, lookup_kmap_None; [apply _|].
    intros i ->. exfalso. revert Hk. clear. by destruct i. }
  unfold HeaderGet, header.FromMsgHeaderToCtx, SetNS. simpl.
  rewrite HeaderFacts.fromMsg_toMsg, !Hl by done. done.
Qed.

Lemma request_compat ctx ns cid subject compat :
  HeaderGet (request_message ctx ns cid subject compat) NatsCompatHeader = default "v0.0.0" compat.
Proof. unfold request_message, HeaderGet. simpl. by rewrite lookup_insert_eq. Qed.

(** A caller the server accepts. *)
Definition compatible (compat : option string) : Prop :=
  NewVersion (default "v0.0.0" compat) = Some compatibleVersion.

(** What a caller makes of what the endpoint did. *)
Definition answered {A} (r : request) (ret : response → option A) (Φ : World → res error A → Prop) :
    World → res error response → Prop := λ w res,
  match res with
  | Ok resp => stream_errors resp = [] ∧ ∃ a, ret resp = Some a ∧ Φ w (Ok a)
  | Err e =>
      streaming r = false ∧
      Φ w (Err (call_error (if IsWorkflowFatal e then codes.Internal else codes.Unknown)
                  (up_to_separator (Error_ e))))
  | Panic p =>
      if panicRecovery && negb (streaming r)
      then Φ w (Err (call_error codes.Internal (up_to_separator p)))
      else Φ w (Err (Wrap "API call" (New "nats: timeout")))
  end.

(** The listener serves what it is asked for the version, and every request of a
    caller that it accepts. *)
Lemma listen_gate recovery ctx ns cid subject compat r w :
  subject = APIGetVersionInfo ∨ compatible compat →
  listen recovery (request_message ctx ns cid subject compat) r w =
  callAPI recovery (request_message ctx ns cid subject compat) r w.
Proof.
  intros Hg. unfold listen. change (msg_Subject _) with subject. case_bool_decide; [done|].
  destruct Hg as [|Hc]; [done|]. rewrite request_compat, Hc. unfold api.IsCompatible. by rewrite bool_decide_true.
Qed.

Lemma wp_Call_gate (NF : NoFaults) {A} ctx ns subject compat r (ret : response → option A) w Φ :
  ctx_SharNamespace ctx = Some ns → subject = APIGetVersionInfo ∨ compatible compat →
  (∀ w1 cid, w1 ≡ w →
     wp (serve subject (mkCtx (Some ns) (Some cid) (ctx_Values ctx)) r) w1 (answered r ret Φ)) →
  wp (Call ctx subject compat r ret) w Φ.
Proof.
  intros Hns Hc Hs. unfold Call. rewrite Hns. wp_steps.
  set (cid := ksuid_new _).
  assert (w_next (w_next w) ≡ w) as Hw by (by rewrite !w_next_equiv).
  specialize (Hs _ cid Hw). revert Hs.
  unfold wp at 1 2, RequestMsg, nats. rewrite NF, listen_gate by done.
  unfold callAPI. rewrite apiCtx_request. simpl msg_Subject.
  assert (in_int codes.Internal ∧ in_int codes.Unknown) as [Hi Hu] by (unfold in_int; split; done).
  unfold answered. generalize dependent codes.Internal. intros i Hi.
  destruct (serve subject _ r _) as [w2 [resp|e|p]]; simpl.
  - intros (He & a & Ha & HΦ). rewrite He, Ha. exact HΦ.
  - intros (Hr & HΦ). rewrite Hr, parse_apiError by (by destruct (IsWorkflowFatal e)). exact HΦ.
  - destruct (panicRecovery && negb (streaming r)) eqn:Hb; simpl; [|done].
    apply andb_true_iff in Hb as [_ ->%negb_true_iff]. by rewrite parse_apiError.
Qed.

Lemma wp_Call (NF : NoFaults) {A} ctx ns subject compat r (ret : response → option A) w Φ :
  ctx_SharNamespace ctx = Some ns → compatible compat →
  (∀ w1 cid, w1 ≡ w →
     wp (serve subject (mkCtx (Some ns) (Some cid) (ctx_Values ctx)) r) w1 (answered r ret Φ)) →
  wp (Call ctx subject compat r ret) w Φ.
Proof. intros Hns Hc. apply wp_Call_gate; auto. Qed.
End calls.

(** ** Completing a service task *)
Section completing.
Context `{EnvOk} `{ApiEnv} `{ClientEnv} (NF : NoFaults) (CC : ColdCache).

(** A server that lets its callers do what they ask for. *)
Definition open_server : Prop := ∀ fn ctx name, authorize fn ctx name = (ctx, None).

Lemma wp_authFromJobID fn ctx id job wf w Φ :
  open_server → w_get w (GetNS ctx) Job id = Some (DState job) →
  w_get w (GetNS ctx) Wf (ws_WorkflowId job) = Some (DWorkflow wf) →
  (∀ w', w' ≡ w → Φ w' (Ok (ctx, inl job))) → wp (authFromJobID fn ctx id) w Φ.
Proof.
  intros Ho Hj Hw HΦ. unfold authFromJobID, lookup_for. wp_steps. apply (wp_GetJob NF _ _ job); [done|].
  intros w1 Hw1. wp_steps. apply (wp_GetWorkflow NF _ CC _ wf); [by rewrite Hw1|]. intros w2 Hw2. wp_steps.
  unfold authed. rewrite Ho. apply HΦ. by rewrite Hw2.
Qed.

Lemma wp_getElement ctx wf el st w Φ :
  w_get w (GetNS ctx) Wf (ws_WorkflowId st) = Some (DWorkflow wf) →
  NoDup (el_Id <$> ElementFacts.elements wf) →
  el ∈ ElementFacts.elements wf → el_Id el = ws_ElementId st →
  (∀ w', w' ≡ w → Φ w' (Ok el)) → wp (getElement ctx st) w Φ.
Proof.
  intros Hw Hnd Hel Hid HΦ. unfold getElement. wp_steps. apply wp_nsKVs; [done|]. intros w1 Hw1 _. wp_steps.
  apply (wp_LoadObj_some NF _ _ _ (DWorkflow wf) wf); [by rewrite Hw1|done|]. intros w2 Hw2. wp_steps.
  apply wp_ElementTable; [done|]. intros els Hels. rewrite (proj2 (Hels _ el)) by done. wp_steps.
  apply HΦ. by rewrite w_next_equiv, Hw2.
Qed.

Lemma wp_CheckVars st el vrs w Φ :
  holds (ws_Vars st) vrs → (∀ k e, el_OutputTransform el !! k = Some e → supplied vrs e) →
  (∀ w', w' ≡ w → Φ w' (Ok tt)) → wp (CheckVars st el) w Φ.
Proof.
  intros Hh Hs HΦ. pose proof (proj2 (CheckVars_ok st el vrs w Hh) Hs) as Hok.
  pose proof (eff_CheckVars no_cells (λ _, False) st el w) as [HF (_ & l & Ho & Hl)].
  unfold wp. rewrite Hok. apply HΦ. split.
  - intros ns b k. apply (frame_get no_cells); [done|intros []].
  - rewrite Ho. destruct l as [|x l]; [by rewrite app_nil_r|]. by inversion Hl.
Qed.

(** A job of a running activity, as the engine left it. *)
Record task_ready (w : World) (ns : string) (wf : Workflow) (job : WorkflowState) (el : Element) : Prop := {
  tr_job : w_get w ns Job (TrackingID.ID (ws_Id job)) = Some (DState job);
  tr_workflow : w_get w ns Wf (ws_WorkflowId job) = Some (DWorkflow wf);
  tr_elements : NoDup (el_Id <$> ElementFacts.elements wf);
  tr_element : el ∈ ElementFacts.elements wf;
  tr_element_id : el_Id el = ws_ElementId job;
  tr_activity : ∃ e, w_get w ns WfHistory
    (historyKey (ws_ProcessInstanceId job) (TrackingID.ParentID (ws_Id job)) activityExecute) = Some (DHistory e) }.

#[export] Instance task_ready_proper : Proper ((≡) ==> eq ==> eq ==> eq ==> eq ==> iff) task_ready.
Proof.
  assert (∀ w w' ns wf job el, w ≡ w' → task_ready w ns wf job el → task_ready w' ns wf job el) as Hp.
  { intros w w' ns wf job el Hw [? ? ? ? ? [e ?]]. split; try done; [by rewrite <-Hw..|exists e; by rewrite <-Hw]. }
  intros w w' Hw ? ns -> ? wf -> ? job -> ? el ->. split; apply Hp; [done|by symmetry].
Qed.

(** What the element expects of the variables of the job. *)
Definition outputs_supplied (el : Element) (vars : Vars) : Prop :=
  ∀ k e, el_OutputTransform el !! k = Some e → supplied vars e.

Lemma wp_CompleteServiceTask ctx cid wf job el vrs b w Φ :
  ctx_Correlation ctx = Some cid → task_ready w (GetNS ctx) wf job el → ws_State job ≠ compensating →
  holds b vrs → outputs_supplied el vrs →
  (∀ w' now, w' ≡ w_pub (state_msg ctx cid messages.WorkflowJobServiceTaskComplete
                           (job <| ws_Vars := b |> <| ws_UnixTimeNano := now |>) []) w → Φ w' (Ok tt)) →
  wp (CompleteServiceTask ctx job b) w Φ.
Proof.
  intros Hc [Hj Hwf Hnd Hel Hid [e He]] Hst Hh Hs HΦ. unfold CompleteServiceTask.
  rewrite bool_decide_false by done. wp_steps. unfold GetProcessHistoryItem. wp_steps.
  apply wp_KvsFor; [done|]. intros w1 Hw1 Hkv. wp_steps. apply wp_kvGet; [done|]. rewrite Hkv.
  apply w_get_kv_get in He as [r ->]. wp_steps. simpl. wp_steps.
  unfold check_job_vars. wp_steps. apply (wp_getElement _ wf el); [by rewrite w_next_equiv, Hw1|done..|].
  intros w3 Hw3.
  wp_steps. apply (wp_CheckVars _ _ vrs); [done..|]. intros w4 Hw4. wp_steps.
  apply (wp_PublishWorkflowState NF _ cid); [done..|]. intros w5 now. cbv zeta. intros Hw5. wp_steps.
  apply (HΦ w5 now). rewrite Hw5. by rewrite Hw4, Hw3, w_next_equiv, Hw1.
Qed.

Context (c : Client) (Hopen : open_server) (Hcompat : compatible (cl_ExpectedCompatibleServerVersion c)).

(** The context of the server for a call of the client. *)
Abbreviation served ctx cid := (mkCtx (Some (cl_ns c)) (Some cid) (ctx_Values ctx)).

Lemma wp_call {A} ctx subject r (ret : response → option A) w Φ :
  (∀ w1 cid, w1 ≡ w →
     wp (serve subject (served ctx cid) r) w1 (answered r ret
       (λ w' res, Φ w' (match res with Err e => Err (Wrap "client error" e) | r => r end)))) →
  wp (client.call c ctx subject r ret) w Φ.
Proof.
  intros Hs. unfold client.call. apply wp_wrapping. eapply wp_Call; [done|done|exact Hcompat|].
  intros w1 cid Hw1. eapply wp_mono; [|by apply Hs]. intros w2 [resp|e|p]; simpl.
  - intros (? & a & ? & ?). eauto.
  - done.
  - by destruct (_ && _).
Qed.

Lemma wp_client_GetJob ctx id wf job w Φ :
  w_get w (cl_ns c) Job id = Some (DState job) →
  w_get w (cl_ns c) Wf (ws_WorkflowId job) = Some (DWorkflow wf) →
  (∀ w', w' ≡ w → Φ w' (Ok job)) → wp (client.GetJob c ctx id) w Φ.
Proof.
  intros Hj Hwf HΦ. apply wp_call. intros w1 cid Hw1. simpl. unfold reply_, api.getJob. wp_steps.
  eapply wp_authFromJobID; [done|by rewrite Hw1|by rewrite Hw1|]. intros w2 Hw2. unfold granted. cbn [fst snd]. wp_steps.
  simpl. split; [done|]. exists job. split; [done|]. apply HΦ. by rewrite Hw2.
Qed.

Lemma wp_client_completeServiceTask ctx wf job el newVars b comp w Φ :
  task_ready w (cl_ns c) wf job el → ws_State job ≠ compensating →
  msgpack_marshal newVars = inl b → outputs_supplied el (wire <$> newVars) →
  (∀ w' cid now, w' ≡ w_pub (state_msg (served ctx cid) cid messages.WorkflowJobServiceTaskComplete
                           (job <| ws_Vars := b |> <| ws_UnixTimeNano := now |>) []) w → Φ w' (Ok tt)) →
  wp (client.completeServiceTask c ctx (TrackingID.ID (ws_Id job)) (Some newVars) comp) w Φ.
Proof.
  intros Hr Hst Hb Hs HΦ. unfold client.completeServiceTask, EncodeVars, Encode. simpl. wp_steps.
  rewrite Hb. wp_steps. apply wp_call. intros w1 cid Hw1. simpl.
  unfold reply_, api.completeServiceTask, api.complete. wp_steps. pose proof Hr as [Hj Hwf _ _ _ _].
  eapply wp_authFromJobID; [done|by rewrite Hw1|by rewrite Hw1|]. intros w2 Hw2. unfold granted. cbn [fst snd]. wp_steps.
  destruct (Encode_holds _ b w2 Hb) as [_ Hh].
  eapply (wp_CompleteServiceTask _ cid wf job el); [done|by rewrite Hw2, Hw1|done|exact Hh|done|].
  intros w3 now Hw3. wp_steps. simpl. split; [done|]. exists tt. split; [done|]. apply (HΦ w3 cid now).
  by rewrite Hw3, Hw2, Hw1.
Qed.

Lemma wp_recovering (noRecovery : bool) ut (m : M (option Vars * option error)) w Φ :
  wp m w (λ w' r,
    match r with
    | Ok v => Φ w' (Ok v)
    | Err e => Φ w' (Ok (None, Some e))
    | Panic p =>
        if noRecovery then Φ w' (Panic p)
        else match ws_Execute ut with
             | None => Φ w' (Panic "ut.Execute")
             | Some _ =>
                 if panic_is_error p then
                   Φ w' (Ok (Some (∅ : Vars), Some (ErrWorkflowFatal (Wrap "call to service task terminated in panic" (New p)) (Some ut))))
                 else Φ w' (Panic "interface conversion")
             end
    end) → wp (recovering noRecovery ut m) w Φ.
Proof.
  unfold wp, recovering. destruct (m w) as [w' [v|e|p]]; simpl; [done..|].
  destruct noRecovery; [done|]. destruct (ws_Execute ut); [|done]. by destruct (panic_is_error p).
Qed.

(** A message that asks the client for the task of a job. *)
Record task_message (m : Msg) (ut job : WorkflowState) : Prop := {
  tm_ns : HeaderGet m header.SharNamespace = cl_ns c;
  tm_ns_some : cl_ns c ≠ "";
  tm_embargo : HeaderGet m "embargo" = "" ∨ HeaderGet m "embargo" = "0";
  tm_compat : compat_problem m = None;
  tm_subject : is_Some (Split "." (msg_Subject m) !! 1);
  tm_data : msg_Data m = DState ut;
  tm_type : ws_ElementType ut = element.ServiceTask;
  tm_id : TrackingID.ID (ws_Id ut) = TrackingID.ID (ws_Id job) }.

(** The context the loop gives a handler. *)
Abbreviation task_context m := (executeCtx (SetNS Background (cl_ns c)) m).

(** The first delivery of such a message, down to the task. *)
Lemma wp_first_delivery m ut job w Φ :
  task_message m ut job →
  (∀ mns, wp (service_task (cl_noRecovery c) (client.GetJob c) (worker.params c)
     (header.FromMsgHeaderToCtx (task_context m) (msg_Header m)) mns ut) w
     (λ w' r, match r with
              | Ok r => wp (settle (task_context m) m (Some (worker.signalFatalErr c))
                              (Some (worker.backoff c 1)) r) w' Φ
              | Err e => Φ w' (Err e)
              | Panic p => Φ w' (Panic p)
              end)) →
  wp (worker.task_consumer c 1 m) w Φ.
Proof.
  intros [Hns Hne He Hc [mns Hm] Hd Ht Hid] Hs. unfold worker.task_consumer, process_message.
  rewrite Hns, bool_decide_false by done. cbv zeta. rewrite bool_decide_false by naive_solver.
  unfold handle_message. cbv zeta. wp_steps. unfold worker.run_task, worker.retryNotifier.
  rewrite andb_false_r. wp_steps. unfold ClientProcessFn. rewrite Hc, Hm, Hd. wp_steps.
  cbn [Unmarshal Decode WorkflowState_proto]. cbv zeta. rewrite bool_decide_true by done. apply Hs.
Qed.
End completing.

(** The task function of a job has run: what is left is to complete the task. *)
Section task_function.
Context `{EnvOk} `{ApiEnv} `{ClientEnv}.

Lemma wp_bind_inv {A B} (m : M A) (f : A → M B) w Φ :
  wp (m ≫= f) w Φ →
  wp m w (λ w' r, match r with
                  | Ok a => wp (f a) w' Φ
                  | Err e => Φ w' (Err e)
                  | Panic p => Φ w' (Panic p)
                  end).
Proof. unfold wp, mbind, gom_bind. by destruct (m w) as [w' []]. Qed.

Lemma wp_task_function (NF : NoFaults) (CC : ColdCache) c f m ut job wf el vars newVars w Φ :
  open_server → compatible (cl_ExpectedCompatibleServerVersion c) →
  cl_SvcTasks c !! ws_ExecuteVersion job = Some (mkFnDef ExecutionTypeVars (FnService f)) →
  task_message c m ut job → task_ready w (cl_ns c) wf job el → ws_State job ≠ compensating →
  holds (ws_Vars job) vars →
  (∀ tc jc w1, w1 ≡ w → wp (f tc jc vars) w1 (returns (λ w2 r, w2 ≡ w ∧ r = (Some newVars, None)))) →
  (∀ w2 ctx, w2 ≡ w → ctx_Values ctx = header.fromMsg (msg_Header m) →
     wp (client.completeServiceTask c ctx (TrackingID.ID (ws_Id job)) (Some newVars) false) w2 (λ w3 r,
       let settled := settle (executeCtx (SetNS Background (cl_ns c)) m) m (Some (worker.signalFatalErr c))
                        (Some (worker.backoff c 1)) in
       match r with
       | Ok _ => wp (settled (true, None)) w3 Φ
       | Err e => wp (r ← completion_failed (worker.params c) ctx ut e; settled r) w3 Φ
       | Panic p => Φ w3 (Panic p)
       end)) →
  wp (worker.task_consumer c 1 m) w Φ.
Proof.
  intros Hopen Hcompat Hfn Hm Hr Hst Hv Hf HΦ.
  eapply wp_first_delivery; [done|]. intros mns. destruct Hm as [_ _ _ _ _ _ _ Hid].
  pose proof Hr as [Hj Hwf _ _ _ _]. unfold service_task, or_reply. rewrite Hid. wp_steps.
  eapply (wp_client_GetJob NF CC); [done..|]. intros w1 Hw1. wp_steps.
  simpl. unfold worker.svcFnLocator. rewrite Hfn. wp_steps.
  unfold wp at 1. rewrite (DecodeVars_holds _ vars) by done. cbn [fst snd]. wp_steps.
  apply wp_recovering. unfold worker.svcFnExecutor. cbn [fd_Type fd_Fn]. rewrite bool_decide_false by done.
  cbv zeta. wp_steps. eapply wp_mono; [|by apply Hf]. intros w2 [r|e|p]; simpl; [|done..].
  intros [Hw2 ->]. wp_steps. cbn [fmap option_fmap option_map]. wp_steps.
  eapply wp_mono; [|by apply HΦ]. intros w3 [[]|e|p]; simpl; [done| |done]. intros Hc.
  apply wp_bind_inv in Hc. exact Hc.
Qed.
End task_function.

(** A task whose function returns is completed by one message. *)
Lemma wp_service_task `{EnvOk} `{ApiEnv} `{ClientEnv} c f m ut job wf el vars newVars b w :
  NoFaults → ColdCache → open_server → compatible (cl_ExpectedCompatibleServerVersion c) →
  cl_SvcTasks c !! ws_ExecuteVersion job = Some (mkFnDef ExecutionTypeVars (FnService f)) →
  task_message c m ut job → task_ready w (cl_ns c) wf job el → ws_State job ≠ compensating →
  holds (ws_Vars job) vars →
  (∀ tc jc w1, w1 ≡ w → wp (f tc jc vars) w1 (returns (λ w2 r, w2 ≡ w ∧ r = (Some newVars, None)))) →
  msgpack_marshal newVars = inl b → outputs_supplied el (wire <$> newVars) →
  wp (worker.task_consumer c 1 m) w (returns (λ w' a, a = Ack ∧ ∃ cid now,
    w' ≡ w_pub (state_msg (mkCtx (Some (cl_ns c)) (Some cid) (header.fromMsg (msg_Header m))) cid
                  messages.WorkflowJobServiceTaskComplete
                  (job <| ws_Vars := b |> <| ws_UnixTimeNano := now |>) []) w)).
Proof.
  intros NF CC Hopen Hcompat Hfn Hm Hr Hst Hv Hf Hb Hs.
  eapply wp_task_function; [done..|]. intros w2 ctx Hw2 Hctx.
  eapply (wp_client_completeServiceTask NF CC); [done|done|by rewrite Hw2|done..|].
  intros w3 cid now Hw3. cbv zeta. unfold settle. simpl. wp_steps. split; [done|].
  exists cid, now. by rewrite Hw3, Hw2, Hctx.
Qed.

(** (C11) A service task gets done.  A client has registered a function for the task
    of a job; the function returns variables, among them every one that the output
    transform of the element reads (without which the completion is refused and
    dropped, [refused_completion_is_dropped]).  Delivered the message that asks for
    the task, the client answers it with an acknowledgement, after the server has
    published exactly one message: the completion of that job, with these
    variables and the values the message carried.  Nothing else has changed. *)
Theorem service_task_completes `{EnvOk} `{ApiEnv} `{ClientEnv} c f m ut job wf el vars newVars b w :
  NoFaults → ColdCache → open_server → compatible (cl_ExpectedCompatibleServerVersion c) →
  cl_SvcTasks c !! ws_ExecuteVersion job = Some (mkFnDef ExecutionTypeVars (FnService f)) →
  task_message c m ut job → task_ready w (cl_ns c) wf job el → ws_State job ≠ compensating →
  holds (ws_Vars job) vars →
  (∀ tc jc w1, w1 ≡ w → wp (f tc jc vars) w1 (returns (λ w2 r, w2 ≡ w ∧ r = (Some newVars, None)))) →
  msgpack_marshal newVars = inl b → outputs_supplied el (wire <$> newVars) →
  wp (worker.task_consumer c 1 m) w (returns (λ w' a, a = Ack ∧ ∃ cid now,
    w' ≡ w_pub (state_msg (mkCtx (Some (cl_ns c)) (Some cid) (header.fromMsg (msg_Header m))) cid
                  messages.WorkflowJobServiceTaskComplete
                  (job <| ws_Vars := b |> <| ws_UnixTimeNano := now |>) []) w)).
Proof. apply wp_service_task. Qed.

(** ** Completions the server refuses *)
Section refused.
Context `{EnvOk} `{ApiEnv} `{ClientEnv}.

(** A check that is not passed is an error, never a panic. *)
Lemma CheckVars_no_panic st el vrs w : holds (ws_Vars st) vrs → ∀ p, (CheckVars st el w).2 ≠ Panic p.
Proof.
  intros Hh p. unfold CheckVars. case_bool_decide; [done|].
  erewrite bind_ok by (apply wrapping_ok, DecodeVars_holds, Hh). erewrite bind_ok by done.
  assert (∀ {X} (l : list X) (f : X → M unit), (∀ x w p, (f x w).2 ≠ Panic p) →
    ∀ w p, (for_each l f w).2 ≠ Panic p) as Hl.
  { intros X l f Hf. induction l as [|x l IH]; intros w' q; simpl; [done|]. unfold mbind, gom_bind.
    specialize (Hf x w' q). destruct (f x w') as [w'' [[]|e|q']]; simpl in *; [apply IH|done|congruence]. }
  apply Hl. intros [k e] w' q. simpl. unfold check_variables, wrapping, lift_sum, mbind at 1, gom_bind at 1.
  destruct (GetVariables e) as [vs|err]; simpl; [|done]. apply Hl. intros i w'' q'. by destruct (vrs !! i).
Qed.

Lemma wp_CheckVars_missing st el vrs w Φ :
  holds (ws_Vars st) vrs → ¬ outputs_supplied el vrs →
  (∀ w' e, w' ≡ w → Φ w' (Err e)) → wp (CheckVars st el) w Φ.
Proof.
  intros Hh Hs HΦ. pose proof (eff_CheckVars no_cells (λ _, False) st el w) as [HF (_ & l & Ho & Hl)].
  assert ((CheckVars st el w).1 ≡ w) as Hw.
  { split; [intros ns b k; apply (frame_get no_cells); [done|intros []]|].
    rewrite Ho. destruct l as [|x l]; [by rewrite app_nil_r|]. by inversion Hl. }
  unfold wp. destruct (CheckVars st el w).2 as [[]|e|p] eqn:Hr; [|by apply HΦ|].
  - destruct Hs. intros k e. by eapply (CheckVars_ok st el vrs w Hh).
  - by destruct (CheckVars_no_panic st el vrs w Hh p).
Qed.

Lemma wp_CompleteServiceTask_missing (NF : NoFaults) ctx wf job el vrs b w Φ :
  task_ready w (GetNS ctx) wf job el → ws_State job ≠ compensating →
  holds b vrs → ¬ outputs_supplied el vrs →
  (∀ w' e, w' ≡ w → IsWorkflowFatal e = true → Φ w' (Err e)) → wp (CompleteServiceTask ctx job b) w Φ.
Proof.
  intros [Hj Hwf Hnd Hel Hid [e He]] Hst Hh Hs HΦ. unfold CompleteServiceTask.
  rewrite bool_decide_false by done. wp_steps. unfold GetProcessHistoryItem. wp_steps.
  apply wp_KvsFor; [done|]. intros w1 Hw1 Hkv. wp_steps. apply wp_kvGet; [done|]. rewrite Hkv.
  apply w_get_kv_get in He as [r ->]. wp_steps. simpl. wp_steps.
  unfold check_job_vars. wp_steps. apply (wp_getElement NF _ wf el); [by rewrite w_next_equiv, Hw1|done..|].
  intros w3 Hw3. wp_steps. apply (wp_CheckVars_missing _ _ vrs); [done..|]. intros w4 err Hw4.
  apply HΦ; [by rewrite Hw4, Hw3, w_next_equiv, Hw1|done].
Qed.
End refused.

(** A completion the server refuses is dropped.  The function returns, but not
    a variable an output expression of the element reads: the server answers with a
    fatal error, which reaches the worker as [ErrWorkflowFatal] around the
    [api.Error] it looks for.  The worker neither cancels the process instance nor
    signals the error: it acknowledges the message, and nothing is published or
    stored; nothing will wake the job again. *)
Theorem refused_completion_is_dropped `{EnvOk} `{ApiEnv} `{ClientEnv} c f m ut job wf el vars newVars b w :
  NoFaults → ColdCache → open_server → compatible (cl_ExpectedCompatibleServerVersion c) →
  cl_SvcTasks c !! ws_ExecuteVersion job = Some (mkFnDef ExecutionTypeVars (FnService f)) →
  task_message c m ut job → task_ready w (cl_ns c) wf job el → ws_State job ≠ compensating →
  holds (ws_Vars job) vars →
  (∀ tc jc w1, w1 ≡ w → wp (f tc jc vars) w1 (returns (λ w2 r, w2 ≡ w ∧ r = (Some newVars, None)))) →
  msgpack_marshal newVars = inl b → ¬ outputs_supplied el (wire <$> newVars) →
  wp (worker.task_consumer c 1 m) w (returns (λ w' a, a = Ack ∧ w' ≡ w)).
Proof.
  intros NF CC Hopen Hcompat Hfn Hm Hr Hst Hv Hf Hb Hs.
  eapply wp_task_function; [done..|]. intros w2 ctx Hw2 _. unfold client.completeServiceTask.
  unfold EncodeVars, Encode. simpl. wp_steps. rewrite Hb. wp_steps. apply wp_call; [done..|]. intros w3 cid Hw3.
  simpl. unfold reply_, api.completeServiceTask, api.complete. wp_steps. pose proof Hr as [Hj Hwf _ _ _ _].
  eapply (wp_authFromJobID NF CC); [done|by rewrite Hw3, Hw2|by rewrite Hw3, Hw2|]. intros w4 Hw4.
  unfold granted. cbn [fst snd]. wp_steps. destruct (Encode_holds _ b w4 Hb) as [_ Hh].
  eapply (wp_CompleteServiceTask_missing NF _ wf job el); [by rewrite Hw4, Hw3, Hw2|done|exact Hh|done|].
  intros w5 e Hw5 Hfat. split; [done|].
  assert (IsWorkflowFatal (Wrap "complete service task" e) = true) as -> by done.
  unfold completion_failed. simpl. wp_steps. unfold settle. simpl. wp_steps. split; [done|].
  by rewrite Hw5, Hw4, Hw3.
Qed.

(** ** Examples *)
Lemma api_error_roundtrip_witness : parse_error (apiError 13 "fatal") = Some (Ok (13%Z, "fatal")).
Proof. apply (api_error_roundtrip 13 "fatal"); [split; reflexivity || discriminate|reflexivity]. Defined.

(** A task that charges a card, and a client that does it. *)
Definition ex_charge : Element := ex_element ∅ {["paid" := "=charged"]}.
Definition ex_charging : Workflow := mkWorkflow "W" {["P" := mkProcess [ex_charge] "P" None]} [] [] "" None ∅ "".
Definition ex_charge_job : WorkflowState :=
  zero_state <| ws_Id := ["a1"; "j1"] |> <| ws_WorkflowId := "w1" |> <| ws_ElementId := "t" |>
    <| ws_ElementType := element.ServiceTask |> <| ws_ExecuteVersion := "uid" |>
    <| ws_ProcessInstanceId := "p1" |>.
Definition ex_charge_world : @World sim :=
  @w_put sim "default" Job "j1" (DState ex_charge_job)
    (@w_put sim "default" Wf "w1" (DWorkflow ex_charging)
      (@w_put sim "default" WfHistory (historyKey "p1" "a1" activityExecute) (DHistory zero) world_init)).
Definition ex_charge_message : Msg :=
  mkMsg "WORKFLOW.default.State.Job.Execute.ServiceTask.uid" {[header.SharNamespace := "default"]}
    (DState ex_charge_job).
Definition ex_client (result : Vars) : @Client sim :=
  @mkClient sim "c1" "host" "default"
    {["uid" := @mkFnDef sim ExecutionTypeVars (@FnService sim (λ _ _ _, mret (Some result, None)))]} {["uid"]} ∅ ∅ ∅
    (Some "v1.1.503") false.
Definition ex_charged : Vars := {["charged" := VBool true]}.

Lemma ex_charge_ready : @task_ready sim ex_charge_world "default" ex_charging ex_charge_job ex_charge.
Proof.
  split; [reflexivity..| | |reflexivity|by exists zero].
  - apply NoDup_singleton.
  - by left.
Qed.

Lemma ex_charge_asked result :
  @task_message sim ex_server (ex_client result) ex_charge_message ex_charge_job ex_charge_job.
Proof. split; try reflexivity; [discriminate|by left|by eexists]. Qed.

Lemma service_task_completes_witness :
  @wp sim _ (@worker.task_consumer sim ex_server ex_workers (ex_client ex_charged) 1 ex_charge_message)
    ex_charge_world (@returns sim _ (λ w' a, a = Ack ∧ ∃ cid now,
      w' ≡ @w_pub sim (state_msg (mkCtx (Some "default") (Some cid) (header.fromMsg (msg_Header ex_charge_message)))
             cid messages.WorkflowJobServiceTaskComplete
             (ex_charge_job <| ws_Vars := String "m" (positive_bits (encode (sim_wire <$> ex_charged))) |>
                <| ws_UnixTimeNano := now |>) []) ex_charge_world)).
Proof.
  apply (@service_task_completes sim (Sim_ok _ _ _) ex_server ex_workers (ex_client ex_charged)
    (λ _ _ _, mret (Some ex_charged, None)) ex_charge_message ex_charge_job ex_charge_job ex_charging ex_charge
    ∅ ex_charged).
  - exact sim_NoFaults.
  - exact sim_ColdCache.
  - intros fn ctx name. reflexivity.
  - reflexivity.
  - reflexivity.
  - apply ex_charge_asked.
  - exact ex_charge_ready.
  - discriminate.
  - left. split; reflexivity.
  - intros tc jc w1 Hw. split; [exact Hw|reflexivity].
  - reflexivity.
  - intros k e. change (el_OutputTransform ex_charge) with ({["paid" := "=charged"]} : gmap string string).
    intros [<- <-]%lookup_singleton_Some. exists ["charged"]. split; [reflexivity|].
    apply List.Forall_cons; [by eexists|apply List.Forall_nil].
Defined.

Lemma refused_completion_is_dropped_witness :
  @wp sim _ (@worker.task_consumer sim ex_server ex_workers (ex_client ∅) 1 ex_charge_message)
    ex_charge_world (@returns sim _ (λ w' a, a = Ack ∧ w' ≡ ex_charge_world)).
Proof.
  apply (@refused_completion_is_dropped sim (Sim_ok _ _ _) ex_server ex_workers (ex_client ∅)
    (λ _ _ _, mret (Some ∅, None)) ex_charge_message ex_charge_job ex_charge_job ex_charging ex_charge
    ∅ ∅ (String "m" (positive_bits (encode (sim_wire <$> (∅ : Vars)))))).
  - exact sim_NoFaults.
  - exact sim_ColdCache.
  - intros fn ctx name. reflexivity.
  - reflexivity.
  - reflexivity.
  - apply ex_charge_asked.
  - exact ex_charge_ready.
  - discriminate.
  - left. split; reflexivity.
  - intros tc jc w1 Hw. split; [exact Hw|reflexivity].
  - reflexivity.
  - intros Hs. destruct (Hs "paid" "=charged") as (l & Hl & Hf); [reflexivity|].
    injection Hl as <-. inversion Hf as [|? ? [v Hv]]. discriminate Hv.
Defined.
