(* ===== verification/Retry.v ===== *)
(** * Trying again

    How long a failed task waits before it is tried again, and how often it is
    tried: [client/backoff.go]. *)
From S2P Require Import Prelude Model Errors Env Sim Common Wp NatsUtil Vars Publish History Instances Lookups TaskSpec Store Launch Jobs Duration Traverse Gateway Messages Compensate Process Activity Handlers Timers Api Calls ClientTask Client Worker Work.
Local Open Scope Z_scope.

(** ** The wait *)

(** The wait a retry behaviour asks for before the delivery after the [n]th, in
    milliseconds: a second where no interval is given, the interval once more (or
    twice the wait) each time, and no more than the ceiling. *)
Definition step_millis (interval : Z) : Z := if bool_decide (interval = 0) then 1000 else interval.

Definition grown_millis (strategy : RetryStrategy) (initial step n : Z) : Z :=
  match strategy with
  | Linear => initial + step * (n - 1)
  | Incremental => initial + step * 2 ^ (n - 1)
  end.

Definition wait_millis (strategy : RetryStrategy) (initial interval n ceiling : Z) : Z :=
  let step := step_millis interval in
  Z.min (grown_millis strategy initial step n) (Z.max ceiling step).

(** The amounts of a retry behaviour for which the arithmetic stays in range. *)
Definition moderate (strategy : RetryStrategy) (initial interval n ceiling : Z) : Prop :=
  0 ≤ initial ∧ 0 ≤ interval ∧ 0 ≤ ceiling ∧ 1 < n < 64 ∧
  ceiling * Millisecond < 2 ^ 63 ∧
  grown_millis strategy initial (step_millis interval) n * Millisecond < 2 ^ 63.

Lemma step_interval interval :
  0 ≤ interval → interval * Millisecond < 2 ^ 63 →
  (if bool_decide (wrap64 (interval * Millisecond) = 0) then Second else wrap64 (interval * Millisecond)) =
  step_millis interval * Millisecond.
Proof.
  intros H0 H1. unfold step_millis, Millisecond, Second in *. rewrite wrap64_small by lia.
  case_bool_decide; case_bool_decide; lia.
Qed.

Lemma raw_offset_small strategy initial step n :
  0 ≤ initial → 0 < step → 1 < n < 64 → grown_millis strategy initial step n * Millisecond < 2 ^ 63 →
  raw_offset strategy (initial * Millisecond) (step * Millisecond) n =
  grown_millis strategy initial step n * Millisecond.
Proof.
  intros Hi Hs Hn. unfold raw_offset, pow2_int64, grown_millis, Millisecond. destruct strategy; intros Hr.
  - rewrite (wrap64_small (_ * (n - 1))) by nia. rewrite wrap64_small by nia. lia.
  - rewrite bool_decide_true by lia. assert (0 < 2 ^ (n - 1)) by (apply Z.pow_pos_nonneg; lia).
    rewrite (wrap64_small (_ * 2 ^ (n - 1))) by nia. rewrite wrap64_small by nia. lia.
Qed.

Lemma getOffset_wait strategy initial interval n ceiling since :
  moderate strategy initial interval n ceiling →
  let wait := wait_millis strategy initial interval n ceiling * Millisecond in
  getOffset strategy initial interval n ceiling since =
  if bool_decide (wrap64 (wait * Millisecond) < since) then 0 else wait.
Proof.
  intros (Hi & Hv & Hc & Hn & Hcs & Hr).
  assert (0 < step_millis interval) as Hs by (unfold step_millis; case_bool_decide; lia).
  assert ((initial + step_millis interval) * Millisecond < 2 ^ 63) as Hsm.
  { unfold grown_millis in Hr. destruct strategy; unfold Millisecond in *; [nia|]. assert (2 ≤ 2 ^ (n - 1)); [|nia].
    change 2 with (2 ^ 1) at 1. apply Z.pow_le_mono_r; lia. }
  assert (interval * Millisecond < 2 ^ 63) as Hvm.
  { revert Hsm. unfold step_millis, Millisecond. case_bool_decide; lia. }
  unfold getOffset. cbv zeta. rewrite step_interval by done.
  rewrite (wrap64_small (initial * _)) by (unfold Millisecond in *; lia).
  rewrite (wrap64_small (ceiling * _)) by (unfold Millisecond in *; lia).
  rewrite (bool_decide_true (1 < n)) by lia. rewrite raw_offset_small by (done || lia).
  unfold wait_millis. set (step := step_millis interval) in *.
  set (raw := grown_millis strategy initial step n) in *.
  replace (if bool_decide (ceiling * Millisecond < step * Millisecond) then step * Millisecond
           else ceiling * Millisecond) with (Z.max ceiling step * Millisecond)
    by (unfold Millisecond; case_bool_decide; lia).
  replace (if bool_decide (Z.max ceiling step * Millisecond < raw * Millisecond)
           then Z.max ceiling step * Millisecond else raw * Millisecond)
    with (Z.min raw (Z.max ceiling step) * Millisecond) by (unfold Millisecond; case_bool_decide; lia).
  done.
Qed.

Lemma wait_millis_pos strategy initial interval n ceiling :
  moderate strategy initial interval n ceiling → 0 < wait_millis strategy initial interval n ceiling.
Proof.
  intros (Hi & Hv & Hc & Hn & _). unfold wait_millis, grown_millis.
  assert (0 < step_millis interval) as Hs by (unfold step_millis; case_bool_decide; lia).
  destruct strategy; [nia|]. assert (0 < 2 ^ (n - 1)) by (apply Z.pow_pos_nonneg; lia). nia.
Qed.

(** (C36) A failed task waits as its retry behaviour says: from the second delivery
    on, up to the 63rd, and while not more than a million times the wait has passed
    since the message was sent, by the initial wait and the interval for each
    delivery (or for each power of two), and at most by the ceiling or the interval,
    whichever is longer, when neither the wait nor the comparison leaves the 64-bit
    range. *)
Theorem getOffset_bounds strategy initial interval n ceiling since :
  moderate strategy initial interval n ceiling →
  let wait := wait_millis strategy initial interval n ceiling in
  wait * Millisecond * Millisecond < 2 ^ 63 → since ≤ wait * Millisecond * Millisecond →
  getOffset strategy initial interval n ceiling since = wait * Millisecond ∧
  0 < wait ≤ Z.max ceiling (step_millis interval).
Proof.
  intros Hm wait Hw Hs. pose proof (wait_millis_pos _ _ _ _ _ Hm) as Hp. fold wait in Hp.
  rewrite getOffset_wait by done. fold wait. rewrite wrap64_small by (unfold Millisecond in *; lia).
  rewrite bool_decide_false by lia. split; [done|]. split; [done|]. unfold wait, wait_millis. lia.
Qed.

(** Long waits are no waits.  Where the wait is between 2 hours 34 minutes and 5
    hours 7 minutes, the comparison with the age of the message, which takes the
    nanoseconds of the wait for milliseconds, overflows: the task is tried again
    at once. *)
Theorem long_waits_are_skipped strategy initial interval n ceiling since :
  moderate strategy initial interval n ceiling →
  let wait := wait_millis strategy initial interval n ceiling in
  2 ^ 63 ≤ wait * Millisecond * Millisecond < 2 ^ 64 → 0 ≤ since →
  getOffset strategy initial interval n ceiling since = 0.
Proof.
  intros Hm wait Hw Hs. rewrite getOffset_wait by done. fold wait.
  rewrite bool_decide_true; [done|].
  assert (wrap64 (wait * Millisecond * Millisecond) = wait * Millisecond * Millisecond - 2 ^ 64) as ->; [|lia].
  unfold wrap64.
  replace (wait * Millisecond * Millisecond + 2 ^ 63) with (wait * Millisecond * Millisecond - 2 ^ 63 + 1 * 2 ^ 64) by lia.
  rewrite Z.mod_add, Z.mod_small by lia. lia.
Qed.

Lemma getOffset_bounds_witness :
  getOffset Linear 500 2000 3 60000 10 = 4500 * Millisecond ∧ 0 < 4500 ≤ Z.max 60000 2000.
Proof.
  apply (getOffset_bounds Linear 500 2000 3 60000 10); [|reflexivity|vm_compute; discriminate].
  unfold moderate. vm_compute. repeat split; discriminate || reflexivity.
Defined.

Lemma long_waits_are_skipped_witness : getOffset Linear 0 10800000 2 10800000 10 = 0.
Proof.
  apply (long_waits_are_skipped Linear 0 10800000 2 10800000 10); [|vm_compute; split; [discriminate|reflexivity]|discriminate].
  unfold moderate. vm_compute. repeat split; discriminate || reflexivity.
Defined.

Section retrying.
Context `{EnvOk} `{ApiEnv} `{ClientEnv}.

(** The bytes of an error response are always those of [apiError]. *)
Lemma listen_error recovery m r w data :
  (listen recovery m r w).2 = Ok (ErrorResponse data) → ∃ code msg, in_int code ∧ data = apiError code msg.
Proof.
  assert (∀ w', (callAPI recovery m r w').2 = Ok (ErrorResponse data) →
    ∃ code msg, in_int code ∧ data = apiError code msg) as Hc.
  { intros w'. unfold callAPI. destruct (serve _ _ _ w') as [w'' [resp|e|p]]; simpl; [done| |].
    - intros [= <-]. eexists _, _. split; [|done]. by destruct (IsWorkflowFatal e).
    - destruct (_ && _); [|done]. intros [= <-]. by exists codes.Internal, p. }
  unfold listen. case_bool_decide; [apply Hc|]. destruct (NewVersion _) as [v|].
  - destruct (api.IsCompatible v); [apply Hc|]. intros [= <-]. by eexists codes.PermissionDenied, _.
  - intros [= <-]. by eexists codes.PermissionDenied, _.
Qed.

(** A call in a namespace returns or fails. *)
Lemma calm_Call {A} ctx subject compat r (ret : response → option A) :
  is_Some (ctx_SharNamespace ctx) → calm (Call ctx subject compat r ret).
Proof.
  intros [ns Hns] w p. unfold Call. rewrite Hns. unfold mbind at 1, gom_bind at 1. simpl.
  set (m := request_message _ _ _ _ _). unfold mbind, gom_bind, wrapping, RequestMsg, nats.
  pose proof (listen_error panicRecovery m r (w_next (w_next w))) as He.
  destruct (nats_fault _) as [[e []]|]; simpl; [done..|].
  destruct (listen panicRecovery m r _) as [w' [[resp|data]|e|p']]; simpl in *; [| |done|done].
  - destruct (stream_errors resp); [|done]. by destruct (ret resp).
  - destruct (He data eq_refl) as (code & msg & Hcode & ->). destruct (streaming r); [done|].
    by rewrite parse_apiError.
Qed.

Lemma calm_call {A} c ctx subject r (ret : response → option A) : calm (client.call c ctx subject r ret).
Proof. apply calm_wrapping, calm_Call. by eexists. Qed.

Lemma calm_signalFatalErr c ctx st : calm (worker.signalFatalErr c ctx st).
Proof. apply calm_bind; [apply calm_attempt, calm_Call; by eexists|intros; apply calm_ret]. Qed.

(** The last attempt ends in one of the ways the retry behaviour names. *)
Lemma calm_retries_exceeded c ctx st rx :
  is_Some (ctx_SharNamespace ctx) → calm (worker.retries_exceeded c ctx st rx).
Proof.
  intros Hns. unfold worker.retries_exceeded. destruct (rx_Action rx).
  - apply calm_signalFatalErr.
  - apply calm_bind; [by apply calm_wrapping, calm_Call|]. intros []; auto with calm.
  - apply calm_bind.
    + assert (∀ why (v : option GoVal), calm (match v with Some v => mret v | None => throw (New why) end)) as Hp
        by (intros why []; auto with calm).
      unfold worker.retry_variable. cbv zeta.
      repeat case_bool_decide; try apply Hp; apply calm_ret.
    + intros v. apply calm_wrapping, calm_bind; [|intros; apply calm_call].
      apply calm_wrapping. unfold EncodeVars, Encode. apply calm_bind; [done|]. intros a.
      by destruct (msgpack_marshal a).
  - apply calm_wrapping, calm_call.
Qed.

(** The client's copy of a workflow. *)
Definition cache_agrees (id : string) (wf : Workflow) : Prop :=
  ∀ n wf', client_cache n id = Some wf' → wf' = wf.

Lemma wp_client_GetWorkflow (NF : NoFaults) (CC : ColdCache) c ctx id wf w Φ :
  open_server → compatible (cl_ExpectedCompatibleServerVersion c) → cache_agrees id wf →
  w_get w (cl_ns c) Wf id = Some (DWorkflow wf) →
  (∀ w', w' ≡ w → Φ w' (Ok wf)) → wp (client.GetWorkflow c ctx id) w Φ.
Proof.
  intros Ho Hc Ha Hg HΦ. unfold client.GetWorkflow. apply wp_wrapping. unfold client.cached, wp.
  destruct (client_cache (w_tick w) id) as [wf'|] eqn:Hcc.
  { rewrite (Ha _ _ Hcc). apply HΦ. by rewrite w_next_equiv. }
  match goal with |- ?P => change P with (wp (wrapping (Wrap "error retrieving cacheable value")
    (client.call c ctx subject.APIGetWorkflow (GetWorkflowRequest id)
       (λ r, match r with GetWorkflowResponse wf => Some wf | _ => None end))) (w_next w)
    (λ w' r, match r with Err e => Φ w' (Err (Wrap "failed to retrieve workflow" e)) | _ => Φ w' r end)) end.
  apply wp_wrapping, wp_call; [done..|]. intros w1 cid Hw1. simpl. unfold reply_, api.getWorkflow, granted.
  unfold authForNonWorkflow, authed. rewrite Ho. cbn [fst snd]. wp_steps.
  apply (wp_GetWorkflow NF _ CC _ wf); [by rewrite Hw1, w_next_equiv|]. intros w2 Hw2. wp_steps. simpl.
  split; [done|]. exists wf. split; [done|]. apply HΦ. by rewrite Hw2, Hw1, w_next_equiv.
Qed.

Definition retry_exceeded_notice (m : Msg) : Msg :=
  mkMsg (ReplaceFirst (msg_Subject m) messages.StateJobExecute ".State.Job.RetryExceeded.") ∅ (msg_Data m).

Lemma wp_last_attempt (NF : NoFaults) m body w :
  calm body → wp (worker.last_attempt m body) w (returns (λ w' r,
    r.1 = Term ∧ ∃ l, w_out w' = l ++ [retry_exceeded_notice m])).
Proof.
  intros Hb. specialize (Hb w). unfold wp, worker.last_attempt.
  assert (∀ w' r, wp (_ ← worker.notifyRetryExceeded m; mret (Term, r)) w' (returns (λ w' (r : answer * option error),
    r.1 = Term ∧ ∃ l, w_out w' = l ++ [retry_exceeded_notice m]))) as Hn.
  { intros w' r. unfold worker.notifyRetryExceeded. wp_steps. split; [done|]. by eexists. }
  destruct (body w) as [w' [[]|e|p]]; [apply Hn|apply Hn|]. by destruct (Hb p).
Qed.
End retrying.

(** (C33) A task is tried so often and no more.  Below the number of deliveries its
    retry behaviour allows, a task that failed is put off and nothing else
    happens; from then on its message is terminated, whatever the behaviour's
    action does, and the last thing published is the notification of it. *)
Theorem retries_are_bounded `{EnvOk} `{ApiEnv} `{ClientEnv} c delivered ctx m st wf el rb rx w :
  NoFaults → ColdCache → open_server → compatible (cl_ExpectedCompatibleServerVersion c) →
  cache_agrees (ws_WorkflowId st) wf → is_Some (ctx_SharNamespace ctx) →
  msg_Data m = DState st → w_get w (cl_ns c) Wf (ws_WorkflowId st) = Some (DWorkflow wf) →
  NoDup (el_Id <$> ElementFacts.elements wf) → el ∈ ElementFacts.elements wf → el_Id el = ws_ElementId st →
  el_RetryBehaviour el = Some rb → rt_DefaultExceeded rb = Some rx →
  wp (worker.backoff c delivered ctx m) w (returns (λ w' r,
    if bool_decide (delivered < rt_Number rb) then w' ≡ w ∧ ∃ d, r = (NakWithDelay d, None)
    else r.1 = Term ∧ ∃ l, w_out w' = l ++ [retry_exceeded_notice m])).
Proof.
  intros NF CC Ho Hc Ha Hns Hd Hg Hnd Hel Hid Hrb Hrx. unfold worker.backoff. rewrite Hd.
  cbn [Unmarshal Decode WorkflowState_proto]. wp_steps.
  apply (wp_client_GetWorkflow NF CC _ _ _ wf); [done..|]. intros w1 Hw1. wp_steps.
  apply wp_ElementTable; [done|]. intros els Hels. wp_steps. rewrite (proj2 (Hels _ el)) by done. wp_steps.
  rewrite Hrb. wp_steps. rewrite Hrx. destruct (decide (delivered < rt_Number rb)) as [Hl|Hl].
  - rewrite (bool_decide_true (delivered < rt_Number rb)), (bool_decide_false (rt_Number rb ≤ delivered)) by lia.
    wp_steps. split; [by rewrite !w_next_equiv|by eexists].
  - rewrite (bool_decide_false (delivered < rt_Number rb)), (bool_decide_true (rt_Number rb ≤ delivered)) by lia.
    apply wp_last_attempt; [done|]. apply calm_bind; [done|]. intros rx'. by apply calm_retries_exceeded.
Qed.

Section not_acked.
Context `{EnvOk} `{ApiEnv} `{ClientEnv}.

Lemma last_attempt_terminates m body : yields (worker.last_attempt m body) (λ r, r.1 = Term).
Proof.
  intros w a. unfold worker.last_attempt. destruct (body w) as [w' [[]|e|p]]; revert a.
  1, 2: apply (yields_bind _ _ (λ r, r.1 = Term)); intros []; by apply yields_ret.
  intros a. unfold mbind, gom_bind, panic. by destruct (worker.notifyRetryExceeded m w') as [w'' []].
Qed.

Lemma backoff_never_acks c delivered ctx m : yields (worker.backoff c delivered ctx m) (λ r, r.1 ≠ Ack).
Proof.
  unfold worker.backoff. destruct (Unmarshal _) as [st|]; [|by apply yields_ret].
  apply yields_bind. intros [wf|err]; [|apply yields_ret; by destruct (Is _ _)].
  apply yields_bind. intros els. apply yields_bind. intros el. apply yields_bind. intros rb.
  case_bool_decide; [|apply yields_bind; intros now; by apply yields_ret].
  intros w a Ha. by rewrite (last_attempt_terminates _ _ _ _ Ha).
Qed.

Lemma workflow_error_leaf err code :
  leaf err = WorkflowError code →
  AsWorkflowError err = Some code ∧ AsWorkflowFatal err = None ∧ AsWorkflowError_value err = None.
Proof. induction err; simpl; intros He; simplify_eq; auto. Qed.
End not_acked.

(** A workflow error that was handled is raised again.  A task function ends
    with a [*workflow.Error], the server handles it and moves the process on; the
    worker means to acknowledge the message, but the loop looks for the struct
    and not for the pointer, takes the error for a failure and asks the backoff,
    which never acknowledges: the task will be delivered again, whatever fails. *)
Theorem handled_error_not_acked `{EnvOk} `{ApiEnv} `{ClientEnv} c delivered ctx m ns id vars err code b w handled :
  leaf err = WorkflowError code → msgpack_marshal vars = inl b →
  (worker.workflowErrorHandler c ctx ns id code b w).2 = Ok handled →
  wp (r ← task_failed (worker.params c) ctx ns id (Some vars) err;
      settle ctx m (Some (worker.signalFatalErr c)) (Some (worker.backoff c delivered)) r) w
    (λ _ r, ∀ a, r = Ok a → a ≠ Ack).
Proof.
  intros He Hb Hh. destruct (workflow_error_leaf err code He) as (Hp & Hf & Hv).
  apply wp_bind. unfold task_failed. rewrite Hp. unfold or_reply, EncodeVars, Encode. wp_steps. rewrite Hb. wp_steps.
  unfold wp at 1. simpl. rewrite Hh. wp_steps. unfold settle. simpl. rewrite Hf, Hv.
  apply wp_bind. unfold wp. pose proof (backoff_never_acks c delivered ctx m) as Hn.
  set (w' := (worker.workflowErrorHandler _ _ _ _ _ _ _).1). specialize (Hn w').
  destruct (worker.backoff c delivered ctx m w') as [w2 [r|e|p]]; simpl; [|done..].
  intros a [= <-]. by apply Hn.
Qed.

(** ** Examples *)
Definition ex_retry : DefaultTaskRetry :=
  mkDefaultTaskRetry 3 Linear 0 1000 60000 (Some (mkRetryExceeded FailWorkflow "" "" "" "")).
Definition ex_flaky : Element := ex_charge <| el_RetryBehaviour := Some ex_retry |>.
Definition ex_flaky_workflow : Workflow :=
  mkWorkflow "W" {["P" := mkProcess [ex_flaky] "P" None]} [] [] "" None ∅ "".
Definition ex_flaky_world : @World sim := @w_put sim "default" Wf "w1" (DWorkflow ex_flaky_workflow) world_init.
Definition ex_worker_ctx : Ctx := mkCtx (Some "default") (Some "1") ∅.

Lemma retries_are_bounded_witness :
  @wp sim _ (@worker.backoff sim ex_server ex_workers (ex_client ∅) 3 ex_worker_ctx ex_charge_message)
    ex_flaky_world (@returns sim _ (λ w' r,
      if bool_decide (3 < rt_Number ex_retry) then w' ≡ ex_flaky_world ∧ ∃ d, r = (NakWithDelay d, None)
      else r.1 = Term ∧ ∃ l, w_out w' = l ++ [retry_exceeded_notice ex_charge_message])).
Proof.
  apply (@retries_are_bounded sim (Sim_ok _ _ _) ex_server ex_workers (ex_client ∅) 3 ex_worker_ctx
    ex_charge_message ex_charge_job ex_flaky_workflow ex_flaky ex_retry (mkRetryExceeded FailWorkflow "" "" "" "")).
  - exact sim_NoFaults.
  - exact sim_ColdCache.
  - intros fn ctx name. reflexivity.
  - reflexivity.
  - intros n wf' Hn. discriminate Hn.
  - by eexists.
  - reflexivity.
  - reflexivity.
  - apply NoDup_singleton.
  - by left.
  - reflexivity.
  - reflexivity.
  - reflexivity.
Defined.

(** A handled error: the element of the job catches the code. *)
Definition ex_catching : Workflow :=
  mkWorkflow "W" {["P" := mkProcess [ex_flaky <| el_Errors := [mkCatchError "e" "e" "t" ∅] |>] "P" None]} []
    [mkWfError "e" "declined" "declined"] "" None ∅ "".
Definition ex_catching_world : @World sim :=
  @w_put sim "default" Job "j1" (DState ex_charge_job)
    (@w_put sim "default" Wf "w1" (DWorkflow ex_catching)
      (@w_put sim "default" WfHistory (historyKey "p1" "a1" activityExecute) (DHistory zero) world_init)).

Lemma handled_error_not_acked_witness :
  @wp sim _ (r ← @task_failed sim (@worker.params sim ex_server ex_workers (ex_client ∅)) ex_worker_ctx "default" "j1"
                  (Some ∅) (Wrap "execute service task" (WorkflowError "declined"));
             settle ex_worker_ctx ex_charge_message
               (Some (@worker.signalFatalErr sim ex_server ex_workers (ex_client ∅)))
               (Some (@worker.backoff sim ex_server ex_workers (ex_client ∅) 1)) r) ex_catching_world
    (λ _ r, ∀ a, r = Ok a → a ≠ Ack).
Proof.
  apply (@handled_error_not_acked sim (Sim_ok _ _ _) ex_server ex_workers (ex_client ∅) 1 ex_worker_ctx
    ex_charge_message "default" "j1" ∅ _ "declined" (String "m" (positive_bits (encode (sim_wire <$> (∅ : Vars)))))
    ex_catching_world true); vm_compute; reflexivity.
Defined.
