(* ===== verification/Engine.v ===== *)
(** * The engine

    [StartProcessing] of [internal/server/workflow/engine.go]: the consumers and
    their handlers put together.  The engine is a transition system: a step takes
    any message of the stream and gives it to any consumer.  Namespaces are
    isolated in it: whatever is delivered, in whatever order and with whatever
    faults, the stores of a namespace change only by messages that carry it, and
    only such messages make the engine publish others that do. *)
From S2P Require Import Prelude Model Errors Env Sim Common Wp NatsUtil Vars Publish History Instances TaskSpec Jobs Launch Traverse Gateway Duration Messages Compensate Activity Process Handlers Timers Api Calls ClientTask Mock.

Inductive consumer :=
  | Traversal | JobAbortConsumer | GeneralAbortConsumer | Tracking | WorkflowConsumer | MessageConsumer
  | WorkflowTimers | JobCompleteConsumer | ActivityConsumer | LaunchConsumer | ProcessCompleteConsumer
  | ProcessCompensateConsumer | ProcessTerminateConsumer | GatewayActivateConsumer | AwaitMessageConsumer
  | GatewayExecuteConsumer | GatewayReEnterConsumer | FatalErrorConsumer | JobRetryConsumer | MockTaskConsumer.

Section engine.
Context `{Env} `{ApiEnv} `{ClientEnv}.

(** [Start(context.Background())] *)
Definition background : Ctx := mkCtx None None ∅.

(** The handler of a consumer; the timers have a loop of their own. *)
Definition handler (c : consumer) : Ctx → Msg → M reply :=
  match c with
  | Traversal => processTraversals
  | JobAbortConsumer => processJobAbort
  | GeneralAbortConsumer => processGeneralAbort
  | Tracking => track
  | WorkflowConsumer => processWorkflowEvents
  | MessageConsumer => processMessage
  | WorkflowTimers => λ _ _, mret (true, None)
  | JobCompleteConsumer => processCompletedJobs
  | ActivityConsumer => processActivities
  | LaunchConsumer => processLaunch
  | ProcessCompleteConsumer => processProcessComplete
  | ProcessCompensateConsumer => processCompensate
  | ProcessTerminateConsumer => processProcessTerminate
  | GatewayActivateConsumer => gatewayActivation
  | AwaitMessageConsumer => awaitMessageProcessor
  | GatewayExecuteConsumer => gatewayExecProcessor
  | GatewayReEnterConsumer => gatewayExecProcessor
  | FatalErrorConsumer => processFatalError
  | JobRetryConsumer => processJobRetry
  | MockTaskConsumer => processMockServices
  end.

(** The consumers of compensations, fatal errors and retries are started without
    the function that signals fatal errors. *)
Definition signal (c : consumer) : option (Ctx → WorkflowState → M unit) :=
  match c with
  | ProcessCompensateConsumer | FatalErrorConsumer | JobRetryConsumer => None
  | _ => Some SignalFatalErrorTeardown
  end.

Definition consume (c : consumer) (m : Msg) : M unit :=
  match c with
  | WorkflowTimers => _ ← on_timer background m; mret tt
  | c => _ ← process_message background (handler c) (signal c) None m; mret tt
  end.

(** The server: a consumer takes any message of the stream, or the API any
    request that [admitted] lets through.  A handler that panics ends the server;
    what it did until then stays. *)
Inductive engine_step (admitted : Msg → Prop) : World → World → Prop :=
  | step_deliver c m w : m ∈ w_out w → engine_step admitted w (consume c m w).1
  | step_request recovery m r w : admitted m → engine_step admitted w (listen recovery m r w).1.
End engine.

Section engine_isolation.
Context `{EnvOk} `{ApiEnv} `{ClientEnv}.

Definition ns_of (m : Msg) : string := HeaderGet m header.SharNamespace.

Lemma eff_handler c ctx m :
  preserves (effect (of_ns (GetNS ctx)) (archive_or_ns (GetNS ctx))) (handler c ctx m).
Proof.
  assert (∀ (x : M reply), preserves (iso ctx) x →
    preserves (effect (of_ns (GetNS ctx)) (archive_or_ns (GetNS ctx))) x) as Hiso.
  { intros x Hx w. eapply effect_mono; [..|apply Hx]; [done|]. by left. }
  destruct c; simpl; try (apply Hiso; solve [eauto with preserves typeclass_instances]).
  eauto with preserves typeclass_instances.
Qed.

Lemma eff_consume c m :
  preserves (effect (of_ns (ns_of m)) (archive_or_ns (ns_of m))) (consume c m).
Proof.
  assert (preserves (effect (of_ns (ns_of m)) (archive_or_ns (ns_of m))) (on_timer background m)) as Ht.
  { intros w. eapply effect_mono; [..|apply (eff_on_timer background m)]; [done|]. by left. }
  assert (∀ c, preserves (effect (of_ns (ns_of m)) (archive_or_ns (ns_of m)))
    (process_message background (handler c) (signal c) None m)) as Hp.
  { intros c'. apply eff_process_message; [apply (eff_handler c' (executeCtx background m) m)| |done].
    intros f st Hf w. assert (f = SignalFatalErrorTeardown) as -> by (destruct c'; by simplify_eq/=).
    eapply effect_mono; [..|apply (eff_signaFatalError (executeCtx background m) (of_ns (ns_of m)))];
      [done|]. by left. }
  unfold consume. destruct c; preserves_tac; eauto.
Qed.

(** Nothing stored in the namespace has changed. *)
Definition untouched (ns : string) (w w' : World) : Prop :=
  ∀ b k, kv_get (w_kv w' ns b) k = kv_get (w_kv w ns b) k.

Definition silent (ns : string) (w : World) : Prop := ∀ m, m ∈ w_out w → ns_of m ≠ ns.

(** Requests of other namespaces. *)
Definition foreign (ns : string) (m : Msg) : Prop := ns_of m ≠ ns.

Lemma engine_step_isolated ns w w' :
  ns ≠ "" → silent ns w → engine_step (foreign ns) w w' → untouched ns w w' ∧ silent ns w'.
Proof.
  intros Hne Hs Hstep.
  assert (∃ m, ns_of m ≠ ns ∧ effect (of_ns (ns_of m)) (ns_or_none (ns_of m)) w w') as (m & Hns & HF & HE).
  { destruct Hstep as [c m w Hm|recovery m r w Hm]; exists m; (split; [by auto|]); [|apply eff_listen].
    eapply effect_mono; [..|apply eff_consume]; [done|]. intros m' [Hm'|(k & d & ->)]; [left|right].
    - unfold HeaderGet. unfold msg_ns in Hm'. by rewrite Hm'.
    - unfold HeaderGet. simpl. by rewrite lookup_singleton_ne. }
  destruct HE as (_ & l & Ho & Hl). split.
  - intros b k. apply HF. unfold of_ns. congruence.
  - intros m'. rewrite Ho, elem_of_app. intros [Hin|Hin]; [by apply Hs|].
    rewrite Forall_forall in Hl. destruct (Hl m' Hin) as [Hm'|Hm']; unfold ns_of in *; congruence.
Qed.

Lemma engine_run_isolated ns w w' :
  ns ≠ "" → silent ns w → rtc (engine_step (foreign ns)) w w' → untouched ns w w' ∧ silent ns w'.
Proof.
  intros Hne Hs. induction 1 as [w|w1 w2 w3 H12 _ IH]; [done|].
  destruct (engine_step_isolated ns w1 w2 Hne Hs H12) as [Hu2 Hs2].
  destruct (IH Hs2) as [Hu3 Hs3]. split; [|done]. intros b k. by rewrite Hu3, Hu2.
Qed.
End engine_isolation.

(** (C2) Namespaces are isolated.  Start the server in a world whose stream holds
    no message of a namespace: however long it runs, with whatever messages and
    API requests of other namespaces in whatever order, redeliveries, failures of
    NATS and panics, nothing in the stores of that namespace changes and no
    message of it is published. *)
Theorem namespaces_isolated `{EnvOk} `{ApiEnv} `{ClientEnv} ns w w' :
  ns ≠ "" → silent ns w → rtc (engine_step (foreign ns)) w w' → untouched ns w w' ∧ silent ns w'.
Proof. apply engine_run_isolated. Qed.

(** ** Examples *)
Definition ex_other : Msg :=
  mkMsg "WORKFLOW.other.State.Process.Terminated" {[header.SharNamespace := "other"]} (DState zero_state).
Definition ex_busy : @World sim := @w_pub sim ex_other world_init.

Definition ex_heartbeat : Msg :=
  mkMsg "WORKFLOW.Api.Heartbeat" {[header.SharNamespace := "other"; NatsCompatHeader := "v1.1.503"]} (DBytes "").
Definition ex_beating : @World sim :=
  (@listen sim ex_server true ex_heartbeat (HeartbeatRequest_ (mkHeartbeatRequest "h" "1" 0)) ex_busy).1.

Lemma namespaces_isolated_witness :
  untouched "default" ex_busy (@consume sim ex_server ex_workers Tracking ex_other ex_beating).1 ∧
  silent "default" (@consume sim ex_server ex_workers Tracking ex_other ex_beating).1.
Proof.
  apply (@namespaces_isolated sim (Sim_ok _ _ _) ex_server ex_workers "default" ex_busy).
  - discriminate.
  - intros m Hm. apply list_elem_of_singleton in Hm as ->. vm_compute. discriminate.
  - eapply rtc_l; [apply (@step_request sim ex_server ex_workers _ true ex_heartbeat)|].
    { vm_compute. discriminate. }
    eapply rtc_l; [apply (@step_deliver sim ex_server ex_workers _ Tracking ex_other ex_beating)|apply rtc_refl].
    vm_compute. by left.
Defined.
