(* ===== verification/Delivery.v ===== *)
(** * The stream delivers

    Which consumers of the engine take which messages, from the configuration of
    the stream [WORKFLOW] ([server/services/natz/nats-config.yaml]), and a run of
    the engine: the messages that are published are delivered once to every
    consumer that subscribed to their subject, in any order, and again while they
    are not answered for good.

    The client takes the messages of the tasks it listens for with the same loop, and
    with its own calls to the server ([Worker]).

    [always_ends]: every schedule of the deliveries comes to its end, without a
    panic on the way.  The messages of timers are not delivered here: their loop
    answers on its own ([Timers]). *)
From S2P Require Import Prelude Model Errors Env Sim Common Wp NatsUtil Vars Publish History Instances TaskSpec Jobs Launch Traverse Gateway Duration Messages Compensate Activity Process Handlers Timers Api Calls ClientTask Mock Client Worker Engine.

(** ** Subjects *)
(** The wildcards of NATS, token by token: a star stands for one, [>] for the rest,
    which is not empty. *)
Fixpoint tokens_match (pattern subject : list string) : bool :=
  match pattern, subject with
  | [], [] => true
  | p :: pattern, s :: subject =>
      if bool_decide (p = ">" ∧ pattern = []) then true
      else tokens_match pattern subject && bool_decide (p = "*" ∨ p = s)
  | _, _ => false
  end.

(** Which subjects a pattern takes is decided by the message broker; what it
    documents of its wildcards is the law of this interface. *)
Class Subjects := {
  matches : string → string → bool;
  matches_tokens pattern subject :
    matches pattern subject = tokens_match (Split "." pattern) (Split "." subject) }.

(** A broker that does what it documents. *)
Definition documented_subjects : Subjects := {|
  matches pattern subject := tokens_match (Split "." pattern) (Split "." subject);
  matches_tokens _ _ := eq_refl |}.

(** The subjects of the stream; the advisories of the server are left out. *)
Definition stream_subjects : list string :=
  ["WORKFLOW.System.Task.Create"; "WORKFLOW.System.Task.Update";
   "WORKFLOW.System.Workflow.DisableLaunchAttempted"; "WORKFLOW.System.Process.Pause";
   "WORKFLOW.System.Process.Error"; "WORKFLOW.*.System.Process.FatalError"; "WORKFLOW.*.State.Job.Abort.*";
   "WORKFLOW.*.State.Job.Complete.*"; "WORKFLOW.*.State.Activity.Abort"; "WORKFLOW.*.State.Activity.Complete";
   "WORKFLOW.*.State.Activity.Execute"; "WORKFLOW.*.Command.>"; "WORKFLOW.*.Timers.ElementExecute";
   "WORKFLOW.*.State.Execution.>"; "WORKFLOW.*.State.Job.Execute.AwaitMessage";
   "WORKFLOW.*.State.Job.Execute.Launch"; "WORKFLOW.*.State.Job.Execute.ManualTask";
   "WORKFLOW.*.State.Job.Execute.SendMessage.>"; "WORKFLOW.*.State.Job.Execute.ServiceTask.>";
   "WORKFLOW.*.State.Job.Execute.Gateway"; "WORKFLOW.*.State.Job.Execute.Timer";
   "WORKFLOW.*.State.Job.Execute.UserTask"; "WORKFLOW.*.State.Job.Retry"; "WORKFLOW.*.State.Log.*";
   "WORKFLOW.*.Message"; "WORKFLOW.*.State.Process.Complete"; "WORKFLOW.*.State.Process.Compensate";
   "WORKFLOW.*.State.Process.Execute"; "WORKFLOW.*.State.Process.Terminated"; "WORKFLOW.*.Timers.WorkflowExecute";
   "WORKFLOW.*.State.Traversal.Complete"; "WORKFLOW.*.State.Traversal.Execute";
   "WORKFLOW.*.State.Job.Activate.Gateway"; "WORKFLOW.*.State.Job.ReEnter.Gateway";
   "WORKFLOW.Message.Telemetry"; "WORKFLOW.*.Compensate.*"].

(** The filter of each consumer. *)
Definition filter_subject (c : consumer) : string :=
  match c with
  | JobAbortConsumer => "WORKFLOW.*.State.Job.Abort.*"
  | GeneralAbortConsumer => "WORKFLOW.*.State.*.Abort"
  | LaunchConsumer => "WORKFLOW.*.State.Job.Execute.Launch"
  | MessageConsumer => "WORKFLOW.*.Message"
  | WorkflowConsumer => "WORKFLOW.*.State.Execution.>"
  | ProcessCompleteConsumer => "WORKFLOW.*.State.Process.Complete"
  | ProcessTerminateConsumer => "WORKFLOW.*.State.Process.Terminated"
  | ProcessCompensateConsumer => "WORKFLOW.*.State.Process.Compensate"
  | JobCompleteConsumer => "WORKFLOW.*.State.Job.Complete.*"
  | JobRetryConsumer => "WORKFLOW.*.State.Job.Retry"
  | ActivityConsumer => "WORKFLOW.*.State.Activity.>"
  | Traversal => "WORKFLOW.*.State.Traversal.Execute"
  | Tracking => "WORKFLOW.>"
  | GatewayExecuteConsumer => "WORKFLOW.*.State.Job.Execute.Gateway"
  | GatewayActivateConsumer => "WORKFLOW.*.State.Job.Activate.Gateway"
  | GatewayReEnterConsumer => "WORKFLOW.*.State.Job.ReEnter.Gateway"
  | AwaitMessageConsumer => "WORKFLOW.*.State.Job.Execute.AwaitMessage"
  | MockTaskConsumer => "WORKFLOW.*.State.Job.Execute.ServiceTask.*.Mock"
  | FatalErrorConsumer => "WORKFLOW.*.System.Process.FatalError"
  | WorkflowTimers => "WORKFLOW.*.Timers.>"
  end.

(** The consumers that [Process] runs for. *)
Definition loop_consumers : list consumer :=
  [Traversal; JobAbortConsumer; GeneralAbortConsumer; Tracking; WorkflowConsumer; MessageConsumer;
   JobCompleteConsumer; ActivityConsumer; LaunchConsumer; ProcessCompleteConsumer;
   ProcessCompensateConsumer; ProcessTerminateConsumer; GatewayActivateConsumer; AwaitMessageConsumer;
   GatewayExecuteConsumer; GatewayReEnterConsumer; FatalErrorConsumer; JobRetryConsumer; MockTaskConsumer].

(** Who takes a message: a consumer of the engine, or the client from the queue of a
    task, the message being delivered for the so-manieth time. *)
Inductive taker :=
  | EngineConsumer (c : consumer)
  | TaskConsumer (delivered : Z).

Definition delivery : Type := taker * Msg.

Section subscriptions.
Context `{Env} `{ApiEnv} `{ClientEnv} `{Subjects} (cl : Client).

(** The subject of a task in the namespace of the client
    ([ensureServiceTaskConsumer] of [internal/server/workflow/operations.go]). *)
Definition task_subject (uid : string) : string :=
  NS messages.WorkflowJobServiceTaskExecute (cl_ns cl) +:+ "." +:+ uid.

Definition subscribers (subject : string) : list taker :=
  if existsb (λ p, matches p subject) stream_subjects
  then (EngineConsumer <$> List.filter (λ c, matches (filter_subject c) subject) loop_consumers) ++
       ((λ _, TaskConsumer 1) <$> List.filter (λ uid, matches (task_subject uid) subject) (elements (cl_listenTasks cl)))
  else [].

Lemma existsb_ext {A} (f g : A → bool) l : (∀ x, f x = g x) → existsb f l = existsb g l.
Proof. intros Hfg. induction l as [|x l IH]; [done|]. simpl. by rewrite Hfg, IH. Qed.

(** In terms of the tokens. *)
Lemma subscribers_tokens subject :
  subscribers subject =
    (if existsb (λ p, tokens_match (Split "." p) (Split "." subject)) stream_subjects
     then (EngineConsumer <$> List.filter (λ c, tokens_match (Split "." (filter_subject c)) (Split "." subject)) loop_consumers) ++
       ((λ _, TaskConsumer 1) <$>
          List.filter (λ uid, tokens_match (Split "." (task_subject uid)) (Split "." subject)) (elements (cl_listenTasks cl)))
     else []).
Proof.
  unfold subscribers. rewrite (existsb_ext _ _ _ (λ p, matches_tokens p subject)).
  case_match; [|done]. f_equal; f_equal; apply List.filter_ext; intros; apply matches_tokens.
Qed.

Definition deliveries (ms : list Msg) : list delivery :=
  ms ≫= λ m, (λ c, (c, m)) <$> subscribers (msg_Subject m).
End subscriptions.

(** An answer after which the message is not delivered again. *)
Definition settled (a : answer) : bool :=
  match a with Ack | Term => true | _ => false end.

Section running.
Context `{Env} `{ApiEnv} `{ClientEnv} `{Subjects} (cl : Client).

(** What is done with a message. *)
Definition take (d : delivery) : M answer :=
  match d.1 with
  | EngineConsumer c => process_message background (handler c) (signal c) None d.2
  | TaskConsumer n => worker.task_consumer cl n d.2
  end.

(** The next delivery of a message that was not answered for good. *)
Definition again (d : delivery) : delivery :=
  match d.1 with
  | EngineConsumer _ => d
  | TaskConsumer n => (TaskConsumer (n + 1), d.2)
  end.

(** One delivery of those that are due; what it publishes becomes due. *)
Inductive run_step : World * list delivery → World * list delivery → Prop :=
  | delivered_ w d rest todo w' a :
      todo ≡ₚ d :: rest → take d w = (w', Ok a) →
      run_step (w, todo)
        (w', (if settled a then [] else [again d]) ++ rest ++ deliveries cl (drop (length (w_out w)) (w_out w'))).

(** However the deliveries are scheduled, none of them panics, there are only
    finitely many, and [P] holds after the last. *)
Inductive always_ends (P : World → Prop) (s : World * list delivery) : Prop :=
  | ends_intro :
      (s.2 = [] → P s.1) →
      (∀ d, d ∈ s.2 → ∃ w' a, take d s.1 = (w', Ok a)) →
      (∀ s', run_step s s' → always_ends P s') →
      always_ends P s.

(** In particular there is no schedule without an end, and every one can go on until
    nothing is due. *)
Lemma always_ends_Acc P s : always_ends P s → Acc (λ s' s, run_step s s') s.
Proof. induction 1 as [s _ _ _ IH]. by constructor. Qed.

Lemma always_ends_rtc P s s' : always_ends P s → rtc run_step s s' → always_ends P s'.
Proof. intros Ha. apply (rtc_invariant run_step); [|done]. intros s1 s2 Hs []. auto. Qed.

Lemma always_ends_runs P s :
  always_ends P s → ∃ w, rtc run_step s (w, []) ∧ P w.
Proof.
  induction 1 as [[w todo] Hp Hd _ IH]. simpl in *. destruct todo as [|d rest].
  - exists w. split; [apply rtc_refl|by apply Hp].
  - destruct (Hd d) as (w' & a & Ht); [by left|].
    destruct (IH _ (delivered_ w d rest (d :: rest) w' a (Permutation_refl _) Ht)) as (w2 & Hr & HP).
    exists w2. split; [|done]. eapply rtc_l; [by constructor|done].
Qed.

Lemma run_step_perm w todo todo' s : todo ≡ₚ todo' → run_step (w, todo) s → run_step (w, todo') s.
Proof. intros Hp Hs. inversion Hs; subst. eapply delivered_; [|done]. by rewrite <-Hp. Qed.

Lemma always_ends_perm P w todo todo' :
  todo ≡ₚ todo' → always_ends P (w, todo) → always_ends P (w, todo').
Proof.
  intros Hp [Hn Hd Hs]. constructor; simpl in *.
  - intros ->. apply Hn. by apply Permutation_nil_r.
  - intros d. rewrite <-Hp. apply Hd.
  - intros s Hs'. apply Hs. by eapply run_step_perm; [symmetry|].
Qed.
End running.
