(* ===== verification/Passing.v ===== *)
(** * Passing through a process

    What the engine does with an instance whose elements only pass control on: the
    start event, gateways that do not wait, events without a job, an end event.
    Whatever the order of the deliveries, one of those that are due carries the
    process to its next element; the others change nothing but the tracking of the
    execution ([idle]).  [runs_through]: every schedule ends, the elements of the
    route have been entered and left once each, in order, and the instance and its
    execution are gone.  [Running] puts the launch before it. *)
From S2P Require Import Prelude Model Errors Env Sim Common Wp NatsUtil Vars Publish History Instances Lifecycle Lookups TaskSpec Jobs Launch Traverse Flows Gateway Duration Messages Compensate Activity Process Handlers Timers Api Calls ClientTask Mock Client Worker Work Engine Delivery.

(** ** Subscriptions to states *)
Lemma HasSuffix_split s suf : HasSuffix s suf = true → ∃ x, s = x +:+ suf.
Proof.
  induction s as [|c s IH]; cbn [HasSuffix].
  - rewrite orb_false_r, bool_decide_eq_true. intros <-. by exists "".
  - intros [->%bool_decide_eq_true|Hs]%orb_true_iff; [by exists ""|].
    destruct (IH Hs) as [x ->]. by exists (String c x).
Qed.

(** A subject that ends in one way does not end in another, unless one of the two
    endings ends in the other. *)
Lemma HasSuffix_other x s suf :
  String.length s ≤ String.length suf → HasSuffix suf s = false → HasSuffix (x +:+ s) suf = false.
Proof.
  intros Hl Hn. destruct (HasSuffix (x +:+ s) suf) eqn:Hs; [|done].
  apply HasSuffix_split in Hs as [y Hy]. by rewrite (app_HasSuffix _ _ _ _ Hy Hl) in Hn.
Qed.

(** Tokens that differ somewhere before the last of a pattern. *)
Fixpoint apart (p s : list string) : bool :=
  match p, s with
  | a :: p, b :: s => negb (bool_decide (a = "*" ∨ a = b)) || apart p s
  | _, _ => false
  end.

Lemma apart_cons a p b s : apart p s = true → apart (a :: p) (b :: s) = true.
Proof. intros Hp. cbn [apart]. by rewrite Hp, orb_true_r. Qed.

Lemma tokens_apart p s rest : rest ≠ [] → apart p s = true → tokens_match (p ++ rest) s = false.
Proof.
  intros Hr. revert s. induction p as [|a p IH]; intros s; [done|]. destruct s as [|b s]; [done|]. cbn [apart app tokens_match].
  rewrite (bool_decide_false (a = ">" ∧ p ++ rest = [])) by (intros [_ He]; by destruct p).
  intros [->%negb_true_iff|Hs]%orb_true_iff; [apply andb_false_r|]. by rewrite IH.
Qed.

Section subjects.
Context `{Env} `{ApiEnv} `{ClientEnv} `{Subjects} (cl : Client).
Context (ns : string) (Hdot : lacks "." ns = true) (Hcl : cl_ns cl = ns).
Abbreviation subscribers := (Delivery.subscribers cl).

Lemma Split_state b : Split "." ("WORKFLOW." +:+ (ns +:+ String "." b)) = "WORKFLOW" :: ns :: Split "." b.
Proof.
  change ("WORKFLOW." +:+ (ns +:+ String "." b)) with ("WORKFLOW" +:+ String "." (ns +:+ String "." b)).
  by rewrite !Split_app.
Qed.

Lemma Split_task uid :
  Split "." (task_subject cl uid) = ["WORKFLOW"; ns; "State"; "Job"; "Execute"; "ServiceTask"] ++ Split "." uid.
Proof.
  unfold task_subject. rewrite Hcl.
  change (NS messages.WorkflowJobServiceTaskExecute ns +:+ "." +:+ uid)
    with (("WORKFLOW." +:+ (ns +:+ ".State.Job.Execute.ServiceTask")) +:+ "." +:+ uid).
  rewrite !app_assoc_str. change (".State.Job.Execute.ServiceTask" +:+ "." +:+ uid)
    with (String "." ("State" +:+ String "." ("Job" +:+ String "." ("Execute" +:+ String "." ("ServiceTask" +:+ String "." uid))))).
  by rewrite Split_state, !Split_app.
Qed.

(** A subject of the engine that asks for no service task. *)
Lemma subscribers_state b l :
  apart ["State"; "Job"; "Execute"; "ServiceTask"] (Split "." b) = true →
  (if existsb (λ p, tokens_match (Split "." p) ("WORKFLOW" :: ns :: Split "." b)) stream_subjects
   then EngineConsumer <$> List.filter (λ c, tokens_match (Split "." (filter_subject c)) ("WORKFLOW" :: ns :: Split "." b)) loop_consumers
   else []) = l →
  subscribers ("WORKFLOW." +:+ (ns +:+ String "." b)) = l.
Proof.
  intros Ha <-. rewrite subscribers_tokens, Split_state. case_match; [|done].
  rewrite (List.filter_ext (λ uid, tokens_match (Split "." (task_subject cl uid)) _) (λ _, false)); [|intros uid; rewrite Split_task; apply tokens_apart].
  - induction (elements (cl_listenTasks cl)); [by rewrite app_nil_r|done].
  - apply Split_nonempty.
  - by apply apart_cons, apart_cons.
Qed.

Ltac subscribes b := apply (subscribers_state b); [reflexivity|vm_compute; reflexivity].

Lemma subscribers_TraversalExecute :
  subscribers (NS messages.WorkflowTraversalExecute ns) = EngineConsumer <$> [Traversal; Tracking].
Proof. subscribes "State.Traversal.Execute". Qed.
Lemma subscribers_TraversalComplete : subscribers (NS messages.WorkflowTraversalComplete ns) = EngineConsumer <$> [Tracking].
Proof. subscribes "State.Traversal.Complete". Qed.
Lemma subscribers_ActivityExecute :
  subscribers (NS messages.WorkflowActivityExecute ns) = EngineConsumer <$> [Tracking; ActivityConsumer].
Proof. subscribes "State.Activity.Execute". Qed.
Lemma subscribers_ActivityComplete :
  subscribers (NS messages.WorkflowActivityComplete ns) = EngineConsumer <$> [Tracking; ActivityConsumer].
Proof. subscribes "State.Activity.Complete". Qed.
Lemma subscribers_ProcessExecute : subscribers (NS messages.WorkflowProcessExecute ns) = EngineConsumer <$> [Tracking].
Proof. subscribes "State.Process.Execute". Qed.
Lemma subscribers_ProcessComplete :
  subscribers (NS messages.WorkflowProcessComplete ns) = EngineConsumer <$> [Tracking; ProcessCompleteConsumer].
Proof. subscribes "State.Process.Complete". Qed.
Lemma subscribers_ProcessTerminated :
  subscribers (NS messages.WorkflowProcessTerminated ns) = EngineConsumer <$> [Tracking; ProcessTerminateConsumer].
Proof. subscribes "State.Process.Terminated". Qed.
Lemma subscribers_ExecutionExecute :
  subscribers (NS messages.WorkflowExecutionExecute ns) = EngineConsumer <$> [Tracking; WorkflowConsumer].
Proof. subscribes "State.Execution.Execute". Qed.
Lemma subscribers_ExecutionComplete :
  subscribers (NS messages.WorkflowExecutionComplete ns) = EngineConsumer <$> [Tracking; WorkflowConsumer].
Proof. subscribes "State.Execution.Complete". Qed.
End subjects.

(** ** What was published *)
Section published_about.
Context `{Subjects}.

Definition about (p : string) (ms : list Msg) : list Msg := List.filter (λ m, matches p (msg_Subject m)) ms.

Definition element_of (m : Msg) : string := from_option ws_ElementId "" (Unmarshal (msg_Data m)).

(** The elements that were entered, and those that were completed, in order. *)
Definition entered (ms : list Msg) : list string := element_of <$> about "WORKFLOW.*.State.Activity.Execute" ms.
Definition left (ms : list Msg) : list string := element_of <$> about "WORKFLOW.*.State.Activity.Complete" ms.

(** The executions that were completed. *)
Definition ended (ms : list Msg) : list string :=
  from_option ws_ExecutionId "" ∘ Unmarshal ∘ msg_Data <$> about "WORKFLOW.*.State.Execution.Complete" ms.

Lemma about_app p l l' : about p (l ++ l') = about p l ++ about p l'.
Proof. apply List.filter_app. Qed.

(** Archived history is published past the stream. *)
Lemma subscribers_archive `{Env} `{ApiEnv} `{ClientEnv} cl :
  subscribers cl messages.WorkflowSystemHistoryArchive = [].
Proof.
  rewrite subscribers_tokens.
  change (existsb (λ p, tokens_match (Split "." p) (Split "." messages.WorkflowSystemHistoryArchive)) stream_subjects)
    with false. done.
Qed.
End published_about.

Section deliveries.
Context `{EnvOk} `{ApiEnv} `{ClientEnv} `{Subjects} (cl : Client) (NF : NoFaults).
Context (ns cid : string) (vals : gmap string string) (Hns : ns ≠ "").
Abbreviation take := (Delivery.take cl).
Definition ectx : Ctx := mkCtx (Some ns) (Some cid) vals.

Lemma state_msg_header name st k :
  HasPrefix k header.natsSharHeader = false →
  msg_Header (state_msg ectx cid name st []) !! k =
    (<[header.CorrelationHeader := cid]> (<["embargo" := "0"]> {[header.SharNamespace := ns]}) : gmap string string) !! k.
Proof.
  intros Hk. simpl. destruct (decide (header.CorrelationHeader = k)) as [<-|Hn]; [by rewrite !lookup_insert_eq|].
  rewrite !(lookup_insert_ne _ header.CorrelationHeader) by done.
  unfold header.toMsg, state_header. rewrite lookup_union_r; [cbn [foldl po_headers]; by rewrite map_empty_union|].
  apply lookup_kmap_None; [apply _|]. intros i ->. exfalso. revert Hk. clear. by destruct i.
Qed.

Lemma state_msg_values name st : header.fromMsg (msg_Header (state_msg ectx cid name st [])) = vals.
Proof.
  simpl. unfold state_header. cbn [foldl po_headers]. rewrite map_empty_union, insert_toMsg, HeaderFacts.fromMsg_toMsg; [done| |done].
  intros k v. rewrite !lookup_insert_Some, lookup_singleton_Some. naive_solver.
Qed.

Lemma executeCtx_state name st : executeCtx background (state_msg ectx cid name st []) = ectx.
Proof.
  unfold executeCtx, HeaderGet, header.FromMsgHeaderToCtx, SetNS. rewrite !state_msg_header by done.
  rewrite state_msg_values, lookup_insert_eq, lookup_insert_ne, lookup_insert_ne, lookup_singleton_eq by done. done.
Qed.

(** A handler that succeeds has its message acknowledged or refused. *)
Lemma wp_take (c : consumer) name st w Φ :
  wp (handler c ectx (state_msg ectx cid name st [])) w (λ w' r,
    match r with Ok (ack, None) => Φ w' (Ok (if ack : bool then Ack else Nak)) | _ => False end) →
  wp (take (EngineConsumer c, state_msg ectx cid name st [])) w Φ.
Proof.
  intros Hh. unfold Delivery.take, process_message. cbn [fst snd].
  assert (HeaderGet (state_msg ectx cid name st []) header.SharNamespace = ns) as ->
    by (unfold HeaderGet; by rewrite state_msg_header).
  assert (HeaderGet (state_msg ectx cid name st []) "embargo" = "0") as ->
    by (unfold HeaderGet; by rewrite state_msg_header).
  rewrite bool_decide_false by done. cbv zeta. rewrite bool_decide_false by tauto.
  unfold handle_message. rewrite executeCtx_state. apply wp_bind. eapply wp_mono; [|exact Hh].
  intros w' [[ack [err|]]|e|p]; [done| |done..]. intros HΦ. unfold settle. by wp_steps.
Qed.

(** ** Deliveries that change nothing but the tracking of the execution *)
Definition sidestep (w w' : World) : Prop :=
  (∀ b k, b ≠ WfTracking → w_get w' ns b k = w_get w ns b k) ∧ w_out w' = w_out w.

#[export] Instance sidestep_refl : Reflexive sidestep.
Proof. by intros w. Qed.

Lemma sidestep_equiv w w' : w' ≡ w → sidestep w w'.
Proof. intros Hw. split; [intros; by rewrite Hw|by rewrite Hw]. Qed.

Definition steady (Inv : World → Prop) : Prop := ∀ w w', sidestep w w' → Inv w → Inv w'.

Definition idle (Inv : World → Prop) (d : delivery) : Prop :=
  ∀ w, Inv w → wp (take d) w (returns (λ w' a, a = Ack ∧ sidestep w w')).

Lemma idle_mono (I J : World → Prop) d : (∀ w, J w → I w) → idle I d → idle J d.
Proof. intros HJI Hd w Hw. by apply Hd, HJI. Qed.

(** Every state that is published is tracked. *)
Lemma idle_Tracking name st : idle (λ _, True) (EngineConsumer Tracking, state_msg ectx cid name st []).
Proof.
  intros w _. apply wp_take. cbn [handler]. unfold track, or_return. wp_steps. apply wp_nsKVs; [done|].
  intros w1 Hw1 _. wp_steps. unfold or_unmarshal. change (msg_Data _) with (Marshal st). rewrite Unmarshal_Marshal.
  destruct (is_execute_event _); [|destruct (is_complete_event _)]; wp_steps.
  - apply wp_SaveObj; [done|]. intros w2 Hw2. wp_steps. unfold returns. split; [done|]. split; [|by rewrite Hw2, Hw1].
    intros b k Hb. by rewrite Hw2, w_get_put_ne, Hw1 by congruence.
  - split; [done|]. split; [|by simpl; rewrite Hw1].
    intros b k Hb. rewrite w_next_equiv, w_get_del_ne, Hw1 by congruence. done.
  - split; [done|]. by apply sidestep_equiv.
Qed.


Lemma idle_ActivityExecute st :
  idle (λ _, True) (EngineConsumer ActivityConsumer, state_msg ectx cid messages.WorkflowActivityExecute st []).
Proof.
  intros w _. apply wp_take. cbn [handler]. unfold processActivities.
  change (msg_Subject (state_msg ectx cid messages.WorkflowActivityExecute st []))
    with ("WORKFLOW." +:+ (ns +:+ messages.StateActivityExecute)).
  rewrite <-app_assoc_str, HasSuffix_app. wp_steps. by split.
Qed.

Lemma idle_ExecutionExecute st :
  idle (λ _, True) (EngineConsumer WorkflowConsumer, state_msg ectx cid messages.WorkflowExecutionExecute st []).
Proof.
  intros w _. apply wp_take. cbn [handler]. unfold processWorkflowEvents, or_unmarshal.
  change (msg_Data _) with (Marshal st). rewrite Unmarshal_Marshal.
  change (msg_Subject (state_msg ectx cid messages.WorkflowExecutionExecute st []))
    with ("WORKFLOW." +:+ (ns +:+ messages.StateExecutionExecute)).
  rewrite <-app_assoc_str, HasSuffix_other; [|simpl; lia|done]. wp_steps. by split.
Qed.

(** Of an execution that is gone. *)
Lemma idle_ExecutionComplete st :
  idle (λ w, w_get w ns WfExecution (ws_ExecutionId st) = None)
    (EngineConsumer WorkflowConsumer, state_msg ectx cid messages.WorkflowExecutionComplete st []).
Proof.
  intros w Hgone. apply wp_take. cbn [handler]. unfold processWorkflowEvents, or_unmarshal.
  change (msg_Data _) with (Marshal st). rewrite Unmarshal_Marshal.
  change (msg_Subject (state_msg ectx cid messages.WorkflowExecutionComplete st []))
    with ("WORKFLOW." +:+ (ns +:+ messages.StateExecutionComplete)).
  rewrite <-app_assoc_str, HasSuffix_app. wp_steps. apply wp_hasValidExecution_missing; [done|done|].
  intros w' e Hw' He. wp_steps. unfold missing_process.
  rewrite (proj2 (Is_leaf e ErrExecutionNotFound)) by done. simpl. wp_steps. split; [done|]. by apply sidestep_equiv.
Qed.
End deliveries.

(** ** Schedules with one delivery that matters *)
Section schedules.
Context `{EnvOk} `{ApiEnv} `{ClientEnv} `{Subjects} (cl : Client) (ns : string) (P : World → Prop).
Abbreviation take := (Delivery.take cl).
Abbreviation always_ends := (Delivery.always_ends cl).
Abbreviation deliveries := (Delivery.deliveries cl).
Abbreviation idle := (idle cl).

Lemma take_returns d w (Ψ : World → Prop) :
  wp (take d) w (returns (λ w' a, a = Ack ∧ Ψ w')) → ∃ w', take d w = (w', Ok Ack) ∧ Ψ w'.
Proof.
  unfold wp, returns. destruct (take d w) as [w' [a|e|p]]; [|done..]. intros [-> HΨ]. by exists w'.
Qed.

(** Only idle deliveries are due: they come to their end in any order. *)
Lemma always_ends_idle Inv w qs :
  steady ns Inv → steady ns P → Inv w → P w → (∀ d, d ∈ qs → idle ns Inv d) → always_ends P (w, qs).
Proof.
  intros HI HP. remember (length qs) as n eqn:Hn. revert w qs Hn.
  induction n as [|n IH]; intros w qs Hn Hw HPw Hqs; constructor; simpl; [done| | |done| |].
  - destruct qs; [|done]. by intros d ?%not_elem_of_nil.
  - intros s Hs. inversion Hs as [? d rest ? ? ? Hp]; subst. destruct qs; [|done].
    by apply Permutation_nil_cons in Hp.
  - intros d Hd. destruct (take_returns d w (sidestep ns w)) as (w' & Ht & _); [by apply Hqs|eauto].
  - intros s Hs. inversion Hs as [? d rest ? w' a Hp Ht]; subst.
    destruct (take_returns d w (sidestep ns w)) as (w2 & Ht2 & Hs2).
    { apply Hqs; [|done]. rewrite Hp. by left. }
    rewrite Ht in Ht2. injection Ht2 as -> ->. destruct (Hs2) as [_ ->]. rewrite drop_all. simpl. rewrite app_nil_r.
    apply IH; [apply Permutation_length in Hp; simpl in Hp; lia|by eapply HI|by eapply HP|].
    intros d' Hd'. apply Hqs. rewrite Hp. by right.
Qed.

(** One delivery matters, whatever comes before it. *)
Lemma always_ends_token (Idle Inv : World → Prop) tok w qs todo :
  steady ns Inv → (∀ w, Inv w → Idle w) → Inv w → (∀ d, d ∈ qs → idle ns Idle d) → todo ≡ₚ tok :: qs →
  (∀ w1, Inv w1 → ∃ w2, take tok w1 = (w2, Ok Ack) ∧
     ∀ rest, (∀ d, d ∈ rest → idle ns Idle d) →
       always_ends P (w2, rest ++ deliveries (drop (length (w_out w1)) (w_out w2)))) →
  always_ends P (w, todo).
Proof.
  intros HI Hidle. remember (length qs) as n eqn:Hn. revert w qs todo Hn.
  induction n as [n IH] using lt_wf_ind; intros w qs todo Hn Hw Hqs Htodo Htok. constructor; simpl.
  - intros ->. by apply Permutation_nil_cons in Htodo.
  - intros d. rewrite Htodo, elem_of_cons. intros [->|Hd]; [destruct (Htok w Hw) as (w2 & Ht & _); eauto|].
    destruct (take_returns d w (sidestep ns w)) as (w' & Ht & _); [|eauto]. apply Hqs; auto.
  - intros s Hs. inversion Hs as [? d rest ? w' a Hp Ht]; subst. rewrite Htodo in Hp.
    assert (tok ∈ d :: rest) as [->|Hin]%elem_of_cons by (rewrite <-Hp; by left).
    + destruct (Htok w Hw) as (w2 & Ht2 & Hend). rewrite Ht in Ht2. injection Ht2 as -> ->. simpl.
      apply Hend. intros d' Hd'. apply Hqs. apply Permutation_cons_inv in Hp. by rewrite Hp.
    + apply elem_of_Permutation in Hin as [qs' Hrest]. rewrite Hrest in Hp.
      assert (qs ≡ₚ d :: qs') as Hqs' by (apply (Permutation_cons_inv (a := tok)); rewrite Hp; constructor).
      destruct (take_returns d w (sidestep ns w)) as (w2 & Ht2 & Hs2).
      { apply Hqs; [rewrite Hqs'; by left|auto]. }
      rewrite Ht in Ht2. injection Ht2 as -> ->. destruct (Hs2) as [_ ->]. rewrite drop_all. simpl. rewrite app_nil_r.
      eapply (IH (length qs')); [|done|by eapply HI| |exact Hrest|done].
      * apply Permutation_length in Hqs'. simpl in Hqs'. lia.
      * intros d' Hd'. apply Hqs. rewrite Hqs'. by right.
Qed.
End schedules.

(** ** The history of activities *)
Section activities.
Context `{EnvOk} (NF : NoFaults) (CC : ColdCache).

(** What is stored are entries of histories. *)
Definition history_ok (ns : string) (w : World) : Prop :=
  ∀ k d, w_get w ns WfHistory k = Some d → ∃ e, d = DHistory e ∧ is_Some (ph_CancellationState e).

Lemma wp_history_item ctx pid tid t w Φ :
  history_ok (GetNS ctx) w →
  (∀ w' e, w' ≡ w → is_Some (ph_CancellationState e) → Φ w' (Ok e)) →
  (∀ w' e, w' ≡ w → leaf e = Sentinel ErrKeyNotFound → Φ w' (Err e)) →
  wp (GetProcessHistoryItem ctx pid tid t) w Φ.
Proof.
  intros Hh Hok Herr. unfold GetProcessHistoryItem. wp_steps. apply wp_KvsFor; [done|]. intros w0 Hw0 Hkv.
  wp_steps. apply wp_kvGet; [done|]. destruct (kv_get (w_kv w0 (GetNS ctx) WfHistory) _) as [[d r]|] eqn:Hg; wp_steps.
  - destruct (Hh (historyKey pid tid t) d) as (e & -> & He).
    { rewrite <-Hw0. unfold w_get. by rewrite Hg. }
    simpl. wp_steps. apply Hok; [by rewrite w_next_equiv|done].
  - apply Herr; [by rewrite w_next_equiv|done].
Qed.

Lemma history_ok_put ns k st t w w' :
  history_ok ns w → w' ≡ w_put ns WfHistory k (DHistory (historyEntry st t)) w → history_ok ns w'.
Proof.
  intros Hh Hw k' d. rewrite Hw, w_get_put. case_decide; [|apply Hh].
  intros [= <-]. eexists. split; [done|]. by eexists.
Qed.
End activities.

(** ** Processes whose elements only pass control *)
Section passing.
Context `{EnvOk} `{ApiEnv} `{ClientEnv} `{Subjects} (cl : Client) (NF : NoFaults) (CC : ColdCache).
Context (ns cid : string) (values : gmap string string) (Hns : ns ≠ "") (Hdot : lacks "." ns = true) (Hcl : cl_ns cl = ns).
Abbreviation ctx := (ectx ns cid values).
Abbreviation take := (Delivery.take cl).
Abbreviation always_ends := (Delivery.always_ends cl).
Abbreviation deliveries := (Delivery.deliveries cl).
Abbreviation subscribers := (Delivery.subscribers cl).
Abbreviation idle := (idle cl).

(** The workflow, its process and the table of its elements. *)
Context (wid prId : string) (wf : Workflow) (pr : Process) (els : gmap string Element).
Context (Hpr : wf_Process wf !! prId = Some pr) (Hnd : NoDup (el_Id <$> ElementFacts.elements wf)).
Context (Hels : ∀ id i, els !! id = Some i ↔ i ∈ ElementFacts.elements wf ∧ el_Id i = id).

(** The instance. *)
Context (eid pid : string) (pi : ProcessInstance).
Context (Hwid : pi_WorkflowId pi = wid) (Htop : default "" (pi_ParentProcessId pi) = "").

(** The variables the conditions are evaluated with. *)
Context (b : bytes) (vs : gmap string GoVal) (Hb : holds b vs).

Lemma wp_table w Φ : Φ (w_next w) (Ok els) → wp (ElementTable wf) w Φ.
Proof.
  intros HΦ. apply wp_ElementTable; [done|]. intros els' Hels'. replace els' with els; [done|].
  apply map_eq. intros id. destruct (els !! id) as [i|] eqn:Hi.
  - symmetry. by apply Hels', Hels.
  - destruct (els' !! id) as [i|] eqn:Hi'; [|done]. apply Hels', Hels in Hi'. congruence.
Qed.

(** A state of the instance at an element. *)
Record at_element (e : Element) (v : bytes) (st : WorkflowState) : Prop := {
  at_pid : ws_ProcessInstanceId st = pid;
  at_eid : ws_ExecutionId st = eid;
  at_wid : ws_WorkflowId st = wid;
  at_process : ws_ProcessId st = prId;
  at_id : ws_ElementId st = el_Id e;
  at_type : ws_ElementType st = el_Type e;
  at_tracking : ∃ x, ws_Id st = [pid; x];
  at_vars : ws_Vars st = v }.

(** An element that is passed as soon as it is reached. *)
Definition passes (e : Element) : bool :=
  bool_decide (el_BoundaryTimer e = []) &&
  if bool_decide (el_Type e = element.Gateway)
  then match el_Gateway e with
       | Some g => negb (bool_decide (gs_Direction g = convergent)) && negb (gateway_is divergent true e)
       | None => false
       end
  else negb (bool_decide (el_Type e ∈
    [element.StartEvent; element.ServiceTask; element.UserTask; element.ManualTask;
     element.MessageIntermediateThrowEvent; element.CallActivity; element.MessageIntermediateCatchEvent;
     element.TimerIntermediateCatchEvent; element.EndEvent; element.CompensateEndEvent;
     element.LinkIntermediateThrowEvent])).

(** What is stored while the instance is under way. *)
Record under_way (w : World) : Prop := {
  uw_workflow : w_get w ns Wf wid = Some (DWorkflow wf);
  uw_instance : w_get w ns WfProcessInstance pid = Some (DProcessInstance pi);
  uw_execution : ∃ e, w_get w ns WfExecution eid = Some (DExecution e) ∧ ex_ExecutionId e = eid ∧
    ex_ProcessInstanceId e = [pid];
  uw_history : history_ok ns w }.

(** Messages were published, and entries of the history recorded. *)
Definition leaves (ms : list Msg) (w w' : World) : Prop :=
  (∀ b' k, b' ≠ WfHistory → w_get w' ns b' k = w_get w ns b' k) ∧
  (history_ok ns w → history_ok ns w') ∧ w_out w' = w_out w ++ ms.

Lemma leaves_equiv w w' : w' ≡ w → leaves [] w w'.
Proof.
  intros Hw. split_and!; [intros; by rewrite Hw| |by rewrite Hw, app_nil_r].
  intros Hh k d. rewrite Hw. apply Hh.
Qed.

Lemma leaves_trans ms ms' w w1 w2 : leaves ms w w1 → leaves ms' w1 w2 → leaves (ms ++ ms') w w2.
Proof.
  intros (Hg & Hh & Ho) (Hg' & Hh' & Ho'). split_and!; [intros; by rewrite Hg', Hg|auto|].
  by rewrite Ho', Ho, app_assoc.
Qed.

Lemma leaves_published name st t w w' :
  w' ≡ published ctx cid name st t w → leaves [state_msg ctx cid name (st <| ws_UnixTimeNano := t |>) []] w w'.
Proof.
  intros Hw. split_and!; [intros; by rewrite Hw| |by rewrite Hw]. intros Hh k d. rewrite Hw. apply Hh.
Qed.

Lemma leaves_history k st t w w' :
  w' ≡ w_put ns WfHistory k (DHistory (historyEntry st t)) w → leaves [] w w'.
Proof.
  intros Hw. split_and!; [|intros Hh; by eapply history_ok_put|by rewrite Hw, app_nil_r].
  intros b' k' Hb'. rewrite Hw, w_get_put_ne by congruence. done.
Qed.

Lemma under_way_leaves ms w w' : leaves ms w w' → under_way w → under_way w'.
Proof. intros (Hg & Hh & _) []. split; [by rewrite Hg..|auto]. Qed.

Lemma wp_completeActivity st w Φ :
  (∀ w' t, let st' := DropStateParams st <| ws_UnixTimeNano := t |> in
     leaves [state_msg ctx cid messages.WorkflowActivityComplete st' []] w w' → Φ w' (Ok st')) →
  wp (completeActivity ctx st) w Φ.
Proof.
  intros HΦ. unfold completeActivity. wp_steps. eapply (wp_publish NF ctx cid); [done|done|]. intros w1 t Hw1.
  wp_steps. unfold RecordHistoryActivityComplete. wp_steps. apply wp_RecordHistory; [done|]. intros w2 Hw2.
  wp_steps. apply (HΦ w2 t). rewrite <-(app_nil_r [_]).
  eapply leaves_trans; [by apply leaves_published|by eapply leaves_history].
Qed.

(** Reaching an element: the activity is announced and recorded, the traversal is
    over, the element does what it does. *)
Lemma wp_reach e v st aid w Φ :
  under_way w → els !! el_Id e = Some e → el_BoundaryTimer e = [] → at_element e v st →
  (∀ w1 s1 s2, at_element e v s1 → at_element e v s2 → ws_State s1 = ws_State st → ws_Id s1 = [pid; aid] →
     w_get w1 ns WfHistory (historyKey pid aid activityExecute) = Some (DHistory (historyEntry s1 activityExecute)) →
     leaves [state_msg ctx cid messages.WorkflowActivityExecute s1 [];
             state_msg ctx cid messages.WorkflowTraversalComplete s2 []] w w1 →
     wp (start_element_of ctx pi s2 s1 e (el_Type e)) w1 (returns (λ w2 r,
       wp (announce_end ctx pi e r.1 r.2) w2 Φ))) →
  wp (activityStartProcessor ctx aid st false) w Φ.
Proof.
  intros Hw He Hbt Hst HΦ. pose proof Hst as [Ep _ _ _ Ei _ [x Ex] _].
  unfold activityStartProcessor. rewrite Ep. wp_steps. eapply (wp_GetProcessInstance NF ctx); [apply (uw_instance _ Hw)|].
  intros w1 Hw1. wp_steps. rewrite Hwid. apply (wp_GetWorkflow NF ctx CC _ wf); [rewrite Hw1; apply (uw_workflow _ Hw)|].
  intros w2 Hw2. wp_steps. apply wp_table. wp_steps. rewrite Ei, He. cbn [fmap option_fmap option_map default]. wp_steps.
  unfold with_fields. wp_steps. eapply (wp_publish NF ctx cid); [done|done|]. intros w3 t1 Hw3. wp_steps.
  unfold RecordHistoryActivityExecute. wp_steps. apply wp_RecordHistory; [done|]. intros w4 Hw4. wp_steps.
  eapply (wp_publish NF ctx cid); [done|done|]. intros w5 t2 Hw5. wp_steps. rewrite Hbt. cbn [for_each]. wp_steps.
  eapply wp_mono; [|eapply HΦ].
  - intros w' [r|err|p]; [|done..]. exact id.
  - destruct Hst. split; try done. exists aid. simpl. by rewrite Ex.
  - destruct Hst. by split.
  - done.
  - simpl. by rewrite Ex.
  - rewrite Hw5. unfold published. rewrite w_get_pub, Hw4, w_get_put, decide_True; [done|].
    simpl. rewrite Ex. by rewrite <-Ep.
  - rewrite Hw2, Hw1, w_next_equiv in Hw3.
    apply leaves_published in Hw3. apply leaves_history in Hw4. apply leaves_published in Hw5.
    exact (leaves_trans _ _ _ _ _ (leaves_trans _ _ _ _ _ Hw3 Hw4) Hw5).
Qed.

(** What has been published when an element has been passed. *)
Definition passage (e : Element) (v : bytes) (status : CancellationState) (l : list Msg) (st : WorkflowState) : Prop :=
  ∃ s1 s2, l = [state_msg ctx cid messages.WorkflowActivityExecute s1 [];
                state_msg ctx cid messages.WorkflowTraversalComplete s2 [];
                state_msg ctx cid messages.WorkflowActivityComplete st []] ∧
    ws_ElementId s1 = el_Id e ∧ at_element e v st ∧ ws_State st = status.

Lemma wp_pass_element e v st aid w Φ :
  under_way w → els !! el_Id e = Some e → passes e = true → at_element e v st →
  (∀ w' l s, passage e v executing l s → leaves l w w' → Φ w' (Ok tt)) →
  wp (activityStartProcessor ctx aid st false) w Φ.
Proof.
  intros Hw He Hp Hst HΦ. unfold passes in Hp. apply andb_true_iff in Hp as [Hbt%bool_decide_eq_true Hp].
  apply (wp_reach e v); [done..|]. intros w1 s1 s2 Hs1 Hs2 _ _ _ Hl.
  assert (∀ s w2 t, at_element e v s → ws_State s = executing →
    leaves [state_msg ctx cid messages.WorkflowActivityComplete (DropStateParams s <| ws_UnixTimeNano := t |>) []] w1 w2 →
    Φ w2 (Ok tt)) as Hend.
  { intros s w2 t Hs Hx Hl2. eapply HΦ; [|exact (leaves_trans _ _ _ _ _ Hl Hl2)].
    exists s1, s2. split_and!; [done|by eapply at_id| |done]. by destruct Hs. }
  unfold start_element_of. destruct (decide (el_Type e = element.Gateway)) as [Hg|Hg].
  - rewrite bool_decide_true in Hp by done. destruct (el_Gateway e) as [g|] eqn:Hgw; [|done].
    rewrite bool_decide_false by (by rewrite Hg).
    rewrite bool_decide_true by done. wp_steps.
    apply andb_true_iff in Hp as [Hc%negb_true_iff _]. rewrite Hc. wp_steps.
    apply wp_completeActivity. intros w2 t s' Hl2. wp_steps. cbn [returns fst snd].
    unfold announce_end. rewrite bool_decide_false by naive_solver. wp_steps.
    eapply (Hend (CopyWorkflowState s1 <| ws_State := executing |>)); [by destruct Hs1|done|exact Hl2].
  - rewrite bool_decide_false in Hp by done. apply negb_true_iff, bool_decide_eq_false in Hp.
    rewrite !elem_of_cons in Hp.
    rewrite !bool_decide_false by naive_solver. wp_steps.
    apply wp_completeActivity. intros w2 t s' Hl2. wp_steps. cbn [returns fst snd].
    unfold announce_end. rewrite bool_decide_false by naive_solver. wp_steps.
    eapply (Hend (s1 <| ws_State := executing |>)); [by destruct Hs1|done|exact Hl2].
Qed.

(** The start event gives the process its variables. *)
Definition gives (v : bytes) (transform : gmap string string) (b : bytes) : Prop :=
  if decide (transform = ∅) then b = ""
  else ∃ vs0 vs1, holds v vs0 ∧ evaluates transform vs0 vs1 ∧ msgpack_marshal vs1 = inl b.

Lemma wp_gives v transform b' w Φ :
  gives v transform b' → (∀ w', w' ≡ w → Φ w' (Ok b')) → wp (OutputVars v "" transform) w Φ.
Proof.
  unfold gives. intros Hg HΦ. destruct (decide (transform = ∅)) as [->|Hne].
  - subst b'. unfold OutputVars. rewrite bool_decide_true by done. wp_steps. by apply HΦ.
  - destruct Hg as (vs0 & vs1 & Hv & He & Hm).
    destruct (OutputVars_merge w v "" vs0 ∅ transform vs1 b') as [Ho _]; [done|done|by left|done|by rewrite map_union_empty|].
    unfold wp. rewrite Ho. simpl. apply HΦ, w_next_equiv.
Qed.

Lemma wp_start_event e v st aid w Φ :
  under_way w → els !! el_Id e = Some e → el_BoundaryTimer e = [] → el_Type e = element.StartEvent →
  gives v (el_OutputTransform e) b → at_element e v st →
  (∀ w' l s, passage e b executing l s → leaves l w w' → Φ w' (Ok tt)) →
  wp (activityStartProcessor ctx aid st false) w Φ.
Proof.
  intros Hw He Hbt Ht Hg Hst HΦ. apply (wp_reach e v); [done..|]. intros w1 s1 s2 Hs1 Hs2 _ _ _ Hl.
  unfold start_element_of. rewrite Ht, bool_decide_true by done. wp_steps. rewrite (at_vars _ _ _ Hs2).
  apply (wp_gives v _ b); [done|]. intros w2 Hw2. wp_steps.
  apply wp_completeActivity. intros w3 t s' Hl3. wp_steps. cbn [returns fst snd].
  unfold announce_end. rewrite bool_decide_false by naive_solver. wp_steps.
  apply leaves_equiv in Hw2. eapply HΦ; [|exact (leaves_trans _ _ _ _ _ (leaves_trans _ _ _ _ _ Hl Hw2) Hl3)].
  exists s1, s2. split_and!; [done|by eapply at_id| |done]. by destruct Hs1.
Qed.

(** At the end event the completion of the process is announced as well. *)
Lemma wp_end_event e st aid w Φ :
  under_way w → els !! el_Id e = Some e → el_BoundaryTimer e = [] → el_Type e = element.EndEvent →
  el_Errors e = [] → el_OutputTransform e = ∅ → at_element e b st →
  (∀ w' l s sp, passage e b completed l s → ws_ProcessInstanceId sp = pid → ws_ExecutionId sp = eid →
     leaves (l ++ [state_msg ctx cid messages.WorkflowProcessComplete sp []]) w w' → Φ w' (Ok tt)) →
  wp (activityStartProcessor ctx aid st false) w Φ.
Proof.
  intros Hw He Hbt Ht Herr Htr Hst HΦ. apply (wp_reach e b); [done..|]. intros w1 s1 s2 Hs1 Hs2 _ _ _ Hl.
  unfold start_element_of. rewrite Ht. rewrite !bool_decide_false by done. rewrite bool_decide_true by done.
  wp_steps. unfold end_status. rewrite Htop, Herr, !bool_decide_true by done.
  apply wp_completeActivity. intros w2 t s' Hl2. wp_steps. cbn [returns fst snd].
  unfold announce_end. rewrite bool_decide_true by naive_solver. wp_steps. rewrite Htr, bool_decide_false by naive_solver.
  wp_steps. unfold with_fields. wp_steps. eapply (wp_publish NF ctx cid); [done|done|]. intros w3 t3 Hw3. wp_steps.
  apply leaves_published in Hw3.
  pose proof (leaves_trans _ _ _ _ _ (leaves_trans _ _ _ _ _ Hl Hl2) Hw3) as Hall.
  eapply HΦ; [|  | |exact Hall].
  - exists s1, s2. split_and!; [done|by eapply at_id| |done]. by destruct Hs1.
  - simpl. apply (at_pid _ _ _ Hs1).
  - simpl. apply (at_eid _ _ _ Hs1).
Qed.

(** From one element the process goes on to exactly one other. *)
Definition leads (e e' : Element) : Prop :=
  ∃ outs open t, el_Outbound e = Some outs ∧ taken open outs = [t] ∧ els !! tg_Target t = Some e' ∧
    NoDup (tg_Id <$> tgs_Target outs) ∧ default_ok outs ∧
    (∀ t, t ∈ tgs_Target outs → conditions vs (tg_Conditions t) (open t) ∧
       ∃ x, els !! tg_Target t = Some x ∧ gateway_ok x ∧ IndexProcessElements (pr_Elements pr) ∅ !! el_Id x = Some x).

Lemma outbound_same e : els !! el_Id e = Some e → <[el_Id e := e <| el_Outbound := el_Outbound e |>]> els = els.
Proof. intros He. apply insert_id. rewrite He. f_equal. by destruct e. Qed.

(** The handler of completed activities, up to the traversal, which it leaves out
    when the instance is gone. *)
Lemma wp_completed e st w Φ :
  w_get w ns Wf wid = Some (DWorkflow wf) → history_ok ns w →
  els !! el_Id e = Some e → el_Type e ≠ element.LinkIntermediateThrowEvent →
  at_element e b st → ws_State st ≠ obsolete →
  match w_get w ns WfProcessInstance pid with
  | None => ∀ w0, w0 ≡ w → Φ w0 (Ok tt)
  | Some d => d = DProcessInstance pi ∧ ∀ w0, w0 ≡ w →
      wp (traverse ctx [pid] (el_Outbound e) els st) w0
        (returns (λ w' s, length (ws_Id s) = 2 ∧ Φ w' (Ok tt)))
  end →
  wp (activityCompleteProcessor ctx st) w Φ.
Proof.
  intros Hwf Hh He Hlink Hst Hobs HΦ. pose proof Hst as [Ep _ Ew _ Ei _ [x Ex] _].
  unfold activityCompleteProcessor. wp_steps. rewrite Ep. apply (wp_history_item NF ctx); [done|..].
  1: intros w1 h Hw1 [c Hc]; wp_steps; rewrite Hc; wp_steps; rewrite bool_decide_false by tauto.
  2: intros w1 err Hw1 Herr; wp_steps; rewrite (proj2 (Is_leaf err ErrKeyNotFound)) by done; wp_steps.
  all: wp_steps; destruct (w_get w ns WfProcessInstance pid) as [d|] eqn:Hpi.
  1,3: destruct HΦ as [-> HΦ]; eapply (wp_GetProcessInstance NF ctx); [by rewrite Hw1|]; intros w2 Hw2.
  3,4: eapply (wp_GetProcessInstance_missing NF ctx); [by rewrite Hw1|]; intros w2 err' Hw2 Herr'; wp_steps;
       rewrite (proj2 (Is_leaf err' ErrProcessInstanceNotFound)) by done.
  all: wp_steps; apply (wp_GetWorkflow NF ctx CC _ wf); [by rewrite Hw2, Hw1, Ew|]; intros w3 Hw3; wp_steps.
  all: apply wp_table; wp_steps; change (ws_ElementId st) with (ws_ElementId st); rewrite Ei, He; wp_steps.
  all: unfold link_outbound; rewrite bool_decide_false by done; wp_steps.
  all: assert (w_next w3 ≡ w) as Hw4 by (by rewrite w_next_equiv, Hw3, Hw2, Hw1).
  all: rewrite ?Ex, ?outbound_same by done.
  1,2: eapply wp_mono; [|by apply HΦ]; intros w5 [s|e'|p]; [|done..]; intros [Hl HΦ2];
       rewrite bool_decide_false by lia; by wp_steps.
  all: rewrite bool_decide_false by (simpl; lia); wp_steps; by apply HΦ.
Qed.

Lemma wp_leave e e' st w Φ :
  under_way w → els !! el_Id e = Some e → el_Type e ≠ element.LinkIntermediateThrowEvent →
  gateway_ok e → gateway_is divergent true e = false → leads e e' →
  at_element e b st → ws_State st ≠ obsolete →
  (∀ w' s, at_element e' b s → ws_State s = ws_State st →
     leaves [state_msg ctx cid messages.WorkflowTraversalExecute s []] w w' → Φ w' (Ok tt)) →
  wp (activityCompleteProcessor ctx st) w Φ.
Proof.
  intros Hw He Hlink Hgok Hg (outs & open & t & Hout & Htaken & He' & Hids & Hdef & Hts) Hst Hobs HΦ.
  pose proof Hst as [Ep Ee Ew Epr Ei _ [x Ex] Ev].
  apply (wp_completed e); [apply (uw_workflow _ Hw)|apply (uw_history _ Hw)|done..|].
  rewrite (uw_instance _ Hw). split; [done|]. intros w0 Hw0. rewrite Hout.
  eapply wp_mono; [|eapply (wp_traverse ctx cid wf pr els outs e vs open)]; try done.
  - intros w' [s|err|p]; [|done..]. cbn [returns]. unfold traversed. rewrite Hg, Htaken.
    intros (bs & ms & r & Hbs & Hms & -> & -> & Hw'). apply Permutation_singleton_r in Hbs as ->.
    simpl in Hms. inversion Hms as [|? m ? ? Hm Hnil]; subst; clear Hms. inversion Hnil; subst; clear Hnil.
    destruct Hm as (newID & tm & target & Htg & ->). split; [by simpl; rewrite Ex|].
    simpl in Htg. rewrite He' in Htg. injection Htg as ->.
    eapply HΦ; [| |].
    3: { split_and!; [intros; by rewrite Hw', Hw0| |by rewrite Hw'; simpl; rewrite Hw0].
         intros Hh k d. rewrite Hw'. change (w_get (w_pubs ?m ?w) ?a ?b' ?c) with (w_get w a b' c). rewrite Hw0. apply Hh. }
    all: unfold branch_state; case_match; try done; split; try done; by exists newID.
  - split; [by rewrite Hw0, Ew; apply (uw_workflow _ Hw)|by rewrite Epr|done|done|]. intros t' Ht'.
    destruct (Hts t' Ht') as (_ & x' & Hx' & Hgx & Hi). eauto.
  - by rewrite Ei.
  - by rewrite Ev.
  - intros t' Ht'. by apply Hts.
Qed.

(** At the end event nothing is left to do, whether the instance is there or not. *)
Lemma wp_leave_end e st w Φ :
  w_get w ns Wf wid = Some (DWorkflow wf) → history_ok ns w →
  w_get w ns WfProcessInstance pid = None ∨ w_get w ns WfProcessInstance pid = Some (DProcessInstance pi) →
  els !! el_Id e = Some e → el_Type e = element.EndEvent → el_Outbound e = None →
  at_element e b st → ws_State st ≠ obsolete →
  (∀ w', w' ≡ w → Φ w' (Ok tt)) →
  wp (activityCompleteProcessor ctx st) w Φ.
Proof.
  intros Hwf Hh Hpi He Ht Hout Hst Hobs HΦ. pose proof Hst as [_ _ _ _ _ _ [x Ex] _].
  apply (wp_completed e); [done|done|done|by rewrite Ht|done|done|].
  destruct Hpi as [-> | ->]; [done|]. split; [done|]. intros w0 Hw0. rewrite Hout. unfold traverse. wp_steps.
  unfold returns. simpl. rewrite Ex. split; [done|by apply HΦ].
Qed.

(** ** The handlers *)
Lemma wp_Traversal (Ψ : World → Prop) st w :
  under_way w → ws_ProcessInstanceId st = pid → ws_ExecutionId st = eid →
  (∀ w0 aid, w0 ≡ w → wp (activityStartProcessor ctx aid st false) w0 (returns (λ w' _, Ψ w'))) →
  wp (take (EngineConsumer Traversal, state_msg ctx cid messages.WorkflowTraversalExecute st [])) w
    (returns (λ w' a, a = Ack ∧ Ψ w')).
Proof.
  intros Hw Ep Ee HΨ. apply (wp_take cl ns cid values Hns). cbn [handler]. unfold processTraversals, or_unmarshal.
  change (msg_Data _) with (Marshal st). rewrite Unmarshal_Marshal. unfold with_process. wp_steps.
  destruct (uw_execution _ Hw) as (ex & Hex & _). rewrite Ep, Ee.
  apply (wp_hasValidProcess NF ctx _ _ pi ex); [done|apply (uw_instance _ Hw)|]. intros w1 Hw1. wp_steps.
  eapply wp_mono; [|apply HΨ; by rewrite w_next_equiv].
  intros w2 [[]|e|p]; [|done..]. intros Hp. wp_steps. by split.
Qed.

Lemma wp_ActivityComplete (Ψ : World → Prop) st w :
  wp (activityCompleteProcessor ctx st) w (returns (λ w' _, Ψ w')) →
  wp (take (EngineConsumer ActivityConsumer, state_msg ctx cid messages.WorkflowActivityComplete st [])) w
    (returns (λ w' a, a = Ack ∧ Ψ w')).
Proof.
  intros HΨ. apply (wp_take cl ns cid values Hns). cbn [handler]. unfold processActivities.
  change (msg_Subject (state_msg ctx cid messages.WorkflowActivityComplete st []))
    with ("WORKFLOW." +:+ (ns +:+ messages.StateActivityComplete)).
  rewrite <-app_assoc_str, HasSuffix_app_long, HasSuffix_app by (simpl; lia). simpl HasSuffix.
  unfold or_unmarshal. change (msg_Data _) with (Marshal st). rewrite Unmarshal_Marshal.
  unfold or_return. wp_steps. eapply wp_mono; [|exact HΨ]. intros w2 [[]|e|p]; [|done..]. intros Hp. wp_steps. by split.
Qed.

Lemma wp_ProcessComplete st w :
  under_way w → ws_ProcessInstanceId st = pid → ws_ExecutionId st = eid → pi_ProcessInstanceId pi = pid →
  wp (take (EngineConsumer ProcessCompleteConsumer, state_msg ctx cid messages.WorkflowProcessComplete st [])) w
    (returns (λ w' a, a = Ack ∧ ∃ s1 s2, ws_ExecutionId s2 = eid ∧
       w_get w' ns WfExecution eid = None ∧ w_get w' ns WfProcessInstance pid = None ∧
       (∀ b' k, (b', k) ≠ (WfExecution, eid) → (b', k) ≠ (WfProcessInstance, pid) → w_get w' ns b' k = w_get w ns b' k) ∧
       w_out w' = w_out w ++ [state_msg ctx cid messages.WorkflowProcessTerminated s1 [];
                              state_msg ctx cid messages.WorkflowExecutionComplete s2 []])).
Proof.
  intros Hw Ep Ee Epi. apply (wp_take cl ns cid values Hns). cbn [handler]. unfold processProcessComplete, or_unmarshal.
  change (msg_Data _) with (Marshal st). rewrite Unmarshal_Marshal. unfold with_process. wp_steps.
  destruct (uw_execution _ Hw) as (ex & Hex & Hid & Hl). rewrite Ep, Ee.
  apply (wp_hasValidProcess NF ctx _ _ pi ex); [done|apply (uw_instance _ Hw)|]. intros w1 Hw1. wp_steps.
  unfold or_return. wp_steps. rewrite Epi, Hid.
  eapply (wp_destroyProcessInstance NF ctx cid); [done|by rewrite Hw1|]. intros w2 t1 t2 Hw2. wp_steps.
  split; [done|]. revert Hw2. unfold after_destroy. rewrite Hl.
  cbn [remove]. rewrite (bool_decide_true (pid = pid)), (bool_decide_true ([] = [])) by done. cbv iota. unfold published. intros Hw2.
  exists (st <| ws_State := completed |> <| ws_UnixTimeNano := t1 |>), (st <| ws_State := completed |> <| ws_UnixTimeNano := t2 |>).
  assert (∀ b' k, w_get w2 ns b' k = if decide ((ns, b', k) = (ns, WfProcessInstance, pid)) then None
    else if decide ((ns, b', k) = (ns, WfExecution, eid)) then None else w_get w ns b' k) as Hget.
  { intros b' k. rewrite Hw2, !w_get_pub, !w_get_del. repeat case_decide; [done..|]. by rewrite Hw1. }
  split_and!; [done| | | |].
  - rewrite Hget. case_decide; [done|]. by rewrite decide_True.
  - rewrite Hget. by rewrite decide_True.
  - intros b' k Hne1 Hne2. rewrite Hget, !decide_False by congruence. done.
  - rewrite Hw2. simpl. by rewrite <-app_assoc, Hw1.
Qed.

(** ** Archiving *)
Definition archives (w w' : World) : Prop :=
  (∀ b' k, b' ≠ WfHistory → w_get w' ns b' k = w_get w ns b' k) ∧ (history_ok ns w → history_ok ns w') ∧
  ∃ l, w_out w' = w_out w ++ l ∧ Forall (λ m, msg_Subject m = messages.WorkflowSystemHistoryArchive) l.

Lemma archives_equiv w w' : w' ≡ w → archives w w'.
Proof.
  intros Hw. split_and!; [intros; by rewrite Hw|intros Hh k d; rewrite Hw; apply Hh|].
  exists []. by rewrite Hw, app_nil_r.
Qed.

Lemma archives_trans w w1 w2 : archives w w1 → archives w1 w2 → archives w w2.
Proof.
  intros (Hg & Hh & l & Ho & Hl) (Hg' & Hh' & l' & Ho' & Hl'). split_and!; [intros; by rewrite Hg', Hg|auto|].
  exists (l ++ l'). by rewrite Ho', Ho, app_assoc, Forall_app.
Qed.

(** An entry that is there is archived and deleted; one that is not ends it. *)
Lemma wp_archive ks w Φ :
  (∀ w' r, archives w w' → (r = Ok tt ∨ ∃ e, r = Err e ∧ leaf e = Sentinel ErrKeyNotFound) → Φ w' r) →
  wp (for_each ks (archive_entry ctx)) w Φ.
Proof.
  revert w. induction ks as [|k ks IH]; intros w HΦ; simpl; wp_steps.
  { apply HΦ; [by apply archives_equiv|by left]. }
  unfold archive_entry at 1. wp_steps. apply wp_kvGet; [done|].
  destruct (kv_get (w_kv w (GetNS ctx) WfHistory) k) as [[d r]|]; wp_steps.
  - apply (wp_delete_ignoring NF ctx). intros w1 Hw1. wp_steps. apply IH. intros w2 r2 Hw2 Hr2. apply HΦ; [|done].
    eapply archives_trans; [|exact Hw2]. split_and!.
    + intros b' k' Hb'. by rewrite Hw1, w_get_del_ne, w_get_pub by congruence.
    + intros Hh k' d'. rewrite Hw1, w_get_del. case_decide; [done|]. apply Hh.
    + eexists [_]. split; [by rewrite Hw1|]. by constructor.
  - apply HΦ; [by apply archives_equiv, w_next_equiv|]. right. eexists. by split.
Qed.

Lemma wp_ProcessTerminated st w :
  wp (take (EngineConsumer ProcessTerminateConsumer, state_msg ctx cid messages.WorkflowProcessTerminated st [])) w
    (returns (λ w' a, a = Ack ∧ archives w w')).
Proof.
  apply (wp_take cl ns cid values Hns). cbn [handler]. unfold processProcessTerminate, or_unmarshal.
  change (msg_Data _) with (Marshal st). rewrite Unmarshal_Marshal. wp_steps.
  unfold deleteProcessHistory, KeyPrefixSearch. wp_steps. apply wp_nsKVs; [done|]. intros w1 Hw1 _. wp_steps.
  unfold kvSubjects. apply wp_nats; [done|]. simpl. wp_steps.
  apply wp_archive. intros w2 r Hw2 Hr.
  assert (archives w w2) as Hw by (eapply archives_trans; [|exact Hw2]; apply archives_equiv; by rewrite w_next_equiv).
  destruct Hr as [-> | (e & -> & He)]; wp_steps; [by split|].
  rewrite (proj2 (Is_leaf e ErrKeyNotFound)) by done. wp_steps. by split.
Qed.
(** ** The trail *)
Lemma about_state p name suffix st l :
  NS name ns = "WORKFLOW." +:+ (ns +:+ String "." suffix) →
  about p (state_msg ctx cid name st [] :: l) =
    if tokens_match (Split "." p) ("WORKFLOW" :: ns :: Split "." suffix)
    then state_msg ctx cid name st [] :: about p l else about p l.
Proof.
  intros Hn. unfold about. cbn [List.filter]. rewrite matches_tokens.
  change (msg_Subject (state_msg ctx cid name st [])) with (NS name ns).
  by rewrite Hn, Split_state.
Qed.

Lemma element_of_state name st : element_of (state_msg ctx cid name st []) = ws_ElementId st.
Proof. unfold element_of. change (msg_Data _) with (Marshal st). by rewrite Unmarshal_Marshal. Qed.

(** Messages with the elements they say were entered and left, the executions they
    end, and who takes them. *)
Definition trail (ms : list Msg) (es cs xs : list string) (ds : list delivery) : Prop :=
  entered ms = es ∧ left ms = cs ∧ ended ms = xs ∧ deliveries ms = ds.

Lemma trail_app ms ms' es es' cs cs' xs xs' ds ds' :
  trail ms es cs xs ds → trail ms' es' cs' xs' ds' →
  trail (ms ++ ms') (es ++ es') (cs ++ cs') (xs ++ xs') (ds ++ ds').
Proof.
  intros (<- & <- & <- & <-) (<- & <- & <- & <-). unfold trail, entered, left, ended, deliveries.
  rewrite !about_app, !fmap_app, bind_app. done.
Qed.

Lemma trail_state name suffix st cs es ls xs ds :
  NS name ns = "WORKFLOW." +:+ (ns +:+ String "." suffix) → subscribers (NS name ns) = cs →
  let m := state_msg ctx cid name st [] in
  let says p := tokens_match (Split "." p) ("WORKFLOW" :: ns :: Split "." suffix) in
  (if says "WORKFLOW.*.State.Activity.Execute" then [ws_ElementId st] else []) = es →
  (if says "WORKFLOW.*.State.Activity.Complete" then [ws_ElementId st] else []) = ls →
  (if says "WORKFLOW.*.State.Execution.Complete" then [ws_ExecutionId st] else []) = xs →
  (λ c, (c, m)) <$> cs = ds → trail [m] es ls xs ds.
Proof.
  intros Hn Hc m says <- <- <- <-. unfold trail, entered, left, ended. subst m. rewrite !(about_state _ _ _ _ _ Hn). subst says. cbv beta.
  split_and!; try (case_match; [|done]; cbn; by rewrite ?element_of_state).
  unfold deliveries. cbn [mbind list_bind]. change (msg_Subject (state_msg ctx cid name st [])) with (NS name ns).
  by rewrite Hc, app_nil_r.
Qed.

Ltac trails suffix subs := eapply (trail_state _ suffix); [reflexivity|by apply subs|vm_compute; reflexivity..|reflexivity].

Lemma trail_TraversalExecute st :
  let m := state_msg ctx cid messages.WorkflowTraversalExecute st [] in
  trail [m] [] [] [] [(EngineConsumer Traversal, m); (EngineConsumer Tracking, m)].
Proof. trails "State.Traversal.Execute" subscribers_TraversalExecute. Qed.

Lemma trail_TraversalComplete st :
  let m := state_msg ctx cid messages.WorkflowTraversalComplete st [] in
  trail [m] [] [] [] [(EngineConsumer Tracking, m)].
Proof. trails "State.Traversal.Complete" subscribers_TraversalComplete. Qed.

Lemma trail_ActivityExecute st :
  let m := state_msg ctx cid messages.WorkflowActivityExecute st [] in
  trail [m] [ws_ElementId st] [] [] [(EngineConsumer Tracking, m); (EngineConsumer ActivityConsumer, m)].
Proof. trails "State.Activity.Execute" subscribers_ActivityExecute. Qed.

Lemma trail_ActivityComplete st :
  let m := state_msg ctx cid messages.WorkflowActivityComplete st [] in
  trail [m] [] [ws_ElementId st] [] [(EngineConsumer Tracking, m); (EngineConsumer ActivityConsumer, m)].
Proof. trails "State.Activity.Complete" subscribers_ActivityComplete. Qed.

Lemma trail_ProcessComplete st :
  let m := state_msg ctx cid messages.WorkflowProcessComplete st [] in
  trail [m] [] [] [] [(EngineConsumer Tracking, m); (EngineConsumer ProcessCompleteConsumer, m)].
Proof. trails "State.Process.Complete" subscribers_ProcessComplete. Qed.

Lemma trail_ProcessTerminated st :
  let m := state_msg ctx cid messages.WorkflowProcessTerminated st [] in
  trail [m] [] [] [] [(EngineConsumer Tracking, m); (EngineConsumer ProcessTerminateConsumer, m)].
Proof. trails "State.Process.Terminated" subscribers_ProcessTerminated. Qed.

Lemma trail_ExecutionComplete st :
  let m := state_msg ctx cid messages.WorkflowExecutionComplete st [] in
  trail [m] [] [] [ws_ExecutionId st] [(EngineConsumer Tracking, m); (EngineConsumer WorkflowConsumer, m)].
Proof. trails "State.Execution.Complete" subscribers_ExecutionComplete. Qed.
Lemma trail_ExecutionExecute st :
  let m := state_msg ctx cid messages.WorkflowExecutionExecute st [] in
  trail [m] [] [] [] [(EngineConsumer Tracking, m); (EngineConsumer WorkflowConsumer, m)].
Proof. trails "State.Execution.Execute" subscribers_ExecutionExecute. Qed.

Lemma trail_ProcessExecute st :
  let m := state_msg ctx cid messages.WorkflowProcessExecute st [] in
  trail [m] [] [] [] [(EngineConsumer Tracking, m)].
Proof. trails "State.Process.Execute" subscribers_ProcessExecute. Qed.

(** The archives are taken by nobody. *)
Lemma trail_archives l :
  Forall (λ m, msg_Subject m = messages.WorkflowSystemHistoryArchive) l → trail l [] [] [] [].
Proof.
  induction 1 as [|m l Hm _ IH]; [done|].
  apply (trail_app [m] l [] [] [] [] [] [] [] []); [|exact IH]. unfold trail, entered, left, ended, about, deliveries.
  cbn [List.filter mbind list_bind]. rewrite Hm, subscribers_archive, !matches_tokens. vm_compute. done.
Qed.

Lemma trail_passage e v status l st :
  passage e v status l st → ∃ rest,
    trail l [el_Id e] [el_Id e] []
      (rest ++ [(EngineConsumer ActivityConsumer, state_msg ctx cid messages.WorkflowActivityComplete st [])]) ∧
    ∀ d, d ∈ rest → idle ns (λ _, True) d.
Proof.
  intros (s1 & s2 & -> & Hs1 & Hst & _).
  pose proof (trail_app _ _ _ _ _ _ _ _ _ _ (trail_ActivityExecute s1)
    (trail_app _ _ _ _ _ _ _ _ _ _ (trail_TraversalComplete s2) (trail_ActivityComplete st))) as Ht.
  rewrite Hs1, (at_id _ _ _ Hst) in Ht. eexists [_; _; _; _]. split; [exact Ht|].
  intros d. rewrite !elem_of_cons, elem_of_nil. intros [->|[->|[->|[->|[]]]]]; first [by apply idle_Tracking|by apply idle_ActivityExecute].
Qed.
(** ** The run *)
(** The elements that were entered and left, and the executions that ended, as the
    messages published since [w0] tell. *)
Definition told (w0 : World) (es cs xs : list string) (w : World) : Prop :=
  ∃ ms, w_out w = w_out w0 ++ ms ∧ entered ms = es ∧ left ms = cs ∧ ended ms = xs.

Lemma told_app w0 es cs xs w es' cs' xs' ms ds w' :
  told w0 es cs xs w → w_out w' = w_out w ++ ms → trail ms es' cs' xs' ds →
  told w0 (es ++ es') (cs ++ cs') (xs ++ xs') w'.
Proof.
  intros (ms0 & Ho & <- & <- & <-) Ho' (<- & <- & <- & _).
  exists (ms0 ++ ms). split; [by rewrite Ho', Ho, app_assoc|]. unfold entered, left, ended. by rewrite !about_app, !fmap_app.
Qed.

(** What the instance has done since [w0]: the elements entered, those left, the
    executions ended, and the job that is open.  The other jobs are gone or as they
    were, and nothing else of the namespace has changed, but for the tracking of
    executions and the history. *)
Record so_far (w0 : World) (job : option string) (es cs xs : list string) (w : World) : Prop := {
  sf_frame : ∀ b' k, b' ≠ WfTracking → b' ≠ WfHistory → b' ≠ Job → (b', k) ≠ (WfExecution, eid) →
    (b', k) ≠ (WfProcessInstance, pid) → w_get w ns b' k = w_get w0 ns b' k;
  sf_jobs : ∀ k, job ≠ Some k → w_get w ns Job k = None ∨ w_get w ns Job k = w_get w0 ns Job k;
  sf_out : told w0 es cs xs w }.

(** What every delivery that is left over relies on. *)
Record calm (w : World) : Prop := {
  calm_workflow : w_get w ns Wf wid = Some (DWorkflow wf);
  calm_history : history_ok ns w;
  calm_instance : w_get w ns WfProcessInstance pid = None ∨ w_get w ns WfProcessInstance pid = Some (DProcessInstance pi) }.

Definition gone (w : World) : Prop :=
  w_get w ns WfExecution eid = None ∧ w_get w ns WfProcessInstance pid = None.

Lemma steady_and (I J : World → Prop) : steady ns I → steady ns J → steady ns (λ w, I w ∧ J w).
Proof. intros HI HJ w w' Hs [Hi Hj]. split; [by eapply HI|by eapply HJ]. Qed.

Lemma steady_so_far w0 job es cs xs : steady ns (so_far w0 job es cs xs).
Proof.
  intros w w' [Hg Ho] [Hf Hj Hm]. split; [| |by unfold told; rewrite Ho].
  - intros b' k Ht Hh Hjb He Hp. rewrite Hg by done. by apply Hf.
  - intros k Hk. rewrite Hg by done. by apply Hj.
Qed.

Lemma steady_history : steady ns (history_ok ns).
Proof. intros w w' [Hg _] Hh k d. rewrite Hg by done. apply Hh. Qed.

Lemma steady_under_way : steady ns under_way.
Proof. intros w w' Hs [Hw Hp He Hh]. pose proof Hs as [Hg _]. split; [by rewrite Hg..|by eapply steady_history]. Qed.

Lemma steady_calm : steady ns calm.
Proof. intros w w' Hs [Hw Hh Hp]. pose proof Hs as [Hg _]. split; [by rewrite Hg|by eapply steady_history|by rewrite Hg]. Qed.

Lemma steady_gone : steady ns gone.
Proof. intros w w' [Hg _] [He Hp]. split; by rewrite Hg. Qed.

Lemma under_way_calm w : under_way w → calm w.
Proof. intros [Hw Hp _ Hh]. split; auto. Qed.

Lemma so_far_leaves w0 job es cs xs w es' cs' xs' ms ds w' :
  so_far w0 job es cs xs w → leaves ms w w' → trail ms es' cs' xs' ds →
  so_far w0 job (es ++ es') (cs ++ cs') (xs ++ xs') w'.
Proof.
  intros [Hf Hj Ho] (Hg & _ & Ho') Ht. split; [| |by eapply told_app].
  - intros b' k ? Hh ? ? ?. rewrite Hg by done. by apply Hf.
  - intros k Hk. rewrite Hg by done. by apply Hj.
Qed.

(** What is due after a delivery that published these messages. *)
Lemma due_after ms es cs xs ds w w' :
  w_out w' = w_out w ++ ms → trail ms es cs xs ds → deliveries (drop (length (w_out w)) (w_out w')) = ds.
Proof. intros -> (_ & _ & _ & <-). by rewrite drop_app_length. Qed.

(** ** The last steps *)
Definition finished (w0 : World) (es : list string) (w : World) : Prop := so_far w0 None es es [eid] w ∧ gone w.

Lemma steady_finished w0 es : steady ns (finished w0 es).
Proof. apply steady_and; [apply steady_so_far|apply steady_gone]. Qed.

Lemma finishing w0 es w st qs todo :
  calm w → finished w0 es w → (∀ d, d ∈ qs → idle ns (λ w, calm w ∧ gone w) d) →
  todo ≡ₚ (EngineConsumer ProcessTerminateConsumer, state_msg ctx cid messages.WorkflowProcessTerminated st []) :: qs →
  always_ends (finished w0 es) (w, todo).
Proof.
  intros Hc Hf Hqs Htodo.
  eapply (always_ends_token cl ns _ (λ w, calm w ∧ gone w) (λ w, calm w ∧ finished w0 es w) _ _ qs);
    [apply steady_and; [apply steady_calm|apply steady_finished]|by intros ? [? []]|done|done|exact Htodo|].
  clear w Hc Hf. intros w [Hc Hf].
  destruct (take_returns _ _ _ _ (wp_ProcessTerminated st w)) as (w' & Ht & Hg & Hh & l & Ho & Hl).
  exists w'. split; [done|]. intros rest Hrest. rewrite (due_after l _ _ _ _ _ _ Ho (trail_archives l Hl)), app_nil_r.
  assert (leaves l w w') as Hlv by done.
  apply (always_ends_idle cl ns _ (λ w, calm w ∧ gone w)); [apply steady_and; [apply steady_calm|apply steady_gone]|apply steady_finished| | |done].
  - destruct Hf as [_ [He Hp]]. split; [destruct Hc; split; [by rewrite Hg|auto|by rewrite Hg]|by split; rewrite Hg].
  - destruct Hf as [Hs [He Hp]]. split; [|by split; rewrite Hg].
    pose proof (so_far_leaves _ _ _ _ _ _ _ _ _ _ _ _ Hs Hlv (trail_archives l Hl)) as Hs'. by rewrite !app_nil_r in Hs'.
Qed.
Lemma closing w0 es w sp qs todo :
  pi_ProcessInstanceId pi = pid → ws_ProcessInstanceId sp = pid → ws_ExecutionId sp = eid →
  under_way w → so_far w0 None es es [] w → (∀ d, d ∈ qs → idle ns calm d) →
  todo ≡ₚ (EngineConsumer ProcessCompleteConsumer, state_msg ctx cid messages.WorkflowProcessComplete sp []) :: qs →
  always_ends (finished w0 es) (w, todo).
Proof.
  intros Epi Ep Ee Hu Hf Hqs Htodo.
  eapply (always_ends_token cl ns _ calm (λ w, under_way w ∧ so_far w0 None es es [] w) _ _ qs);
    [apply steady_and; [apply steady_under_way|apply steady_so_far]|intros ? []; by apply under_way_calm|done|done|exact Htodo|].
  clear w Hu Hf. intros w [Hu Hf].
  destruct (take_returns _ _ _ _ (wp_ProcessComplete sp w Hu Ep Ee Epi)) as (w' & Ht & s1 & s2 & Es & He & Hp & Hg & Ho).
  exists w'. split; [done|]. intros rest Hrest.
  pose proof (trail_app _ _ _ _ _ _ _ _ _ _ (trail_ProcessTerminated s1) (trail_ExecutionComplete s2)) as Htr.
  rewrite (due_after _ _ _ _ _ _ _ Ho Htr). rewrite Es in Htr.
  eapply (finishing w0 es w' s1 (rest ++ [_; _; _])); [| | |rewrite Permutation_middle; f_equiv; apply Permutation_swap].
  - destruct Hu as [Hwf _ _ Hh]. split; [by rewrite Hg|intros k d; rewrite Hg by done; apply Hh|by left].
  - split; [|done]. destruct Hf as [Hf Hj Ho0]. split.
    + intros b' k ? ? ? ? ?. rewrite Hg by done. by apply Hf.
    + intros k Hk. rewrite Hg by done. by apply Hj.
    + pose proof (told_app _ _ _ _ _ _ _ _ _ _ _ Ho0 Ho Htr) as Hall. by rewrite !app_nil_r in Hall.
  - intros d. rewrite elem_of_app, !elem_of_cons, elem_of_nil. intros [Hd|[->|[->|[->|[]]]]].
    + eapply idle_mono; [|by apply Hrest]. by intros ? [].
    + eapply idle_mono; [|by apply idle_Tracking]. done.
    + eapply idle_mono; [|by apply idle_Tracking]. done.
    + eapply idle_mono; [|by apply idle_ExecutionComplete]. intros ? [_ [Hx _]]. by rewrite Es.
Qed.
(** ** Along the way *)
(** Elements that let control through as soon as they are reached, whatever else is
    due: the start event with the variables it was launched with, the others with
    the variables of the process. *)
Definition lets_through (e : Element) (st : WorkflowState) : Prop :=
  ws_ProcessInstanceId st = pid ∧ ws_ExecutionId st = eid ∧
  ∀ w aid Φ, under_way w →
    (∀ w' l s, passage e b executing l s → leaves l w w' → Φ w' (Ok tt)) →
    wp (activityStartProcessor ctx aid st false) w Φ.

(** An element that leads on, as the model of the source has it. *)
Definition plain (e : Element) : Prop :=
  els !! el_Id e = Some e ∧ el_Type e ≠ element.LinkIntermediateThrowEvent ∧ gateway_ok e ∧
  gateway_is divergent true e = false.

(** A traversal to [e] is due, and nothing else that matters. *)
Definition due_at (w0 : World) (es : list string) (st : WorkflowState) (s : World * list delivery) : Prop :=
  ws_State st = executing ∧ under_way s.1 ∧ so_far w0 None es es [] s.1 ∧ ∃ qs, (∀ d, d ∈ qs → idle ns calm d) ∧
    s.2 ≡ₚ (EngineConsumer Traversal, state_msg ctx cid messages.WorkflowTraversalExecute st []) :: qs.

(** The delivery of the completed activity takes the traversal to the next element. *)
Lemma leaving (P : World → Prop) w0 es cs w e e' st qs todo :
  plain e → leads e e' → at_element e b st → ws_State st = executing →
  under_way w → so_far w0 None es es [] w → (∀ d, d ∈ qs → idle ns calm d) →
  todo ≡ₚ (EngineConsumer ActivityConsumer, state_msg ctx cid messages.WorkflowActivityComplete st []) :: qs → cs = es →
  (∀ s st', at_element e' b st' → due_at w0 es st' s → always_ends P s) →
  always_ends P (w, todo).
Proof.
  intros (He & Hlink & Hgok & Hdiv) Hleads Hst Hobs Hu Hf Hqs Htodo -> Hnext.
  eapply (always_ends_token cl ns _ calm (λ w, under_way w ∧ so_far w0 None es es [] w) _ _ qs);
    [apply steady_and; [apply steady_under_way|apply steady_so_far]|intros ? []; by apply under_way_calm|done|done|exact Htodo|].
  clear w Hu Hf. intros w [Hu Hf].
  assert (∃ w', take (EngineConsumer ActivityConsumer, state_msg ctx cid messages.WorkflowActivityComplete st []) w = (w', Ok Ack) ∧
    ∃ s, at_element e' b s ∧ ws_State s = executing ∧
      leaves [state_msg ctx cid messages.WorkflowTraversalExecute s []] w w') as (w' & Ht & s & Hs & Hx & Hl).
  { apply take_returns, wp_ActivityComplete. apply (wp_leave e e'); [done..|by rewrite Hobs|].
    intros w' s Hs Hx Hl. exists s. by rewrite Hx, Hobs. }
  exists w'. split; [done|]. intros rest Hrest. apply (Hnext _ s Hs).
  pose proof (trail_TraversalExecute s) as Htr. split_and!; [done|..].
  - by eapply under_way_leaves.
  - pose proof (so_far_leaves _ _ _ _ _ _ _ _ _ _ _ _ Hf Hl Htr) as Hs'. by rewrite !app_nil_r in Hs'.
  - cbn [snd]. rewrite (due_after _ _ _ _ _ _ _ (proj2 (proj2 Hl)) Htr). eexists (rest ++ [_]).
    split; [|symmetry; apply Permutation_middle].
    intros d. rewrite elem_of_app, elem_of_cons, elem_of_nil. intros [Hd|[->|[]]]; [by apply Hrest|].
    eapply idle_mono; [|by apply idle_Tracking]. done.
Qed.

(** From one element to the next. *)
Lemma going (P : World → Prop) w0 es e e' st s :
  plain e → leads e e' → lets_through e st → due_at w0 es st s →
  (∀ s' st', at_element e' b st' → due_at w0 (es ++ [el_Id e]) st' s' → always_ends P s') →
  always_ends P s.
Proof.
  intros Hpl Hleads (Ep & Ee & Hth) (Hst & Hu & Hf & qs & Hqs & Htodo) Hnext. destruct s as [w todo]. cbn [fst snd] in *.
  eapply (always_ends_token cl ns _ calm (λ w, under_way w ∧ so_far w0 None es es [] w) _ _ qs);
    [apply steady_and; [apply steady_under_way|apply steady_so_far]|intros ? []; by apply under_way_calm|done|done|exact Htodo|].
  clear w Hu Hf Htodo. intros w [Hu Hf].
  assert (∃ w', take (EngineConsumer Traversal, state_msg ctx cid messages.WorkflowTraversalExecute st []) w = (w', Ok Ack) ∧
    ∃ l s, passage e b executing l s ∧ leaves l w w') as (w' & Ht & l & s & Hp & Hl).
  { apply take_returns. apply wp_Traversal; [done..|]. intros w1 aid Hw1. apply leaves_equiv in Hw1.
    apply Hth; [by eapply under_way_leaves|]. intros w' l s Hp Hl. exists l, s. split; [done|].
    exact (leaves_trans _ _ _ _ _ Hw1 Hl). }
  exists w'. split; [done|]. intros rest Hrest.
  destruct (trail_passage _ _ _ _ _ Hp) as (rest' & Htr & Hrest').
  pose proof (so_far_leaves _ _ _ _ _ _ _ _ _ _ _ _ Hf Hl Htr) as Hs'. rewrite app_nil_r in Hs'.
  rewrite (due_after _ _ _ _ _ _ _ (proj2 (proj2 Hl)) Htr).
  destruct Hp as (s1 & s2 & _ & _ & Hs & Hx).
  eapply (leaving P w0 (es ++ [el_Id e]) _ w' e e' s (rest ++ rest')); try done; [by eapply under_way_leaves| |].
  - intros d [Hd|Hd]%elem_of_app; [by apply Hrest|]. eapply idle_mono; [|by apply Hrest']. done.
  - rewrite app_assoc. symmetry. apply Permutation_cons_append.
Qed.
(** At the end event the process is completed. *)
Lemma arriving w0 es e st s :
  els !! el_Id e = Some e → el_BoundaryTimer e = [] → el_Type e = element.EndEvent → el_Errors e = [] →
  el_OutputTransform e = ∅ → el_Outbound e = None → pi_ProcessInstanceId pi = pid →
  at_element e b st → due_at w0 es st s → always_ends (finished w0 (es ++ [el_Id e])) s.
Proof.
  intros He Hbt Ht Herr Hotr Hout Epi Hst (Hx0 & Hu & Hf & qs & Hqs & Htodo). destruct s as [w todo]. cbn [fst snd] in *.
  eapply (always_ends_token cl ns _ calm (λ w, under_way w ∧ so_far w0 None es es [] w) _ _ qs);
    [apply steady_and; [apply steady_under_way|apply steady_so_far]|intros ? []; by apply under_way_calm|done|done|exact Htodo|].
  clear w Hu Hf Htodo. intros w [Hu Hf].
  assert (∃ w', take (EngineConsumer Traversal, state_msg ctx cid messages.WorkflowTraversalExecute st []) w = (w', Ok Ack) ∧
    ∃ l s sp, passage e b completed l s ∧ ws_ProcessInstanceId sp = pid ∧ ws_ExecutionId sp = eid ∧
      leaves (l ++ [state_msg ctx cid messages.WorkflowProcessComplete sp []]) w w')
    as (w' & Hk & l & s & sp & Hp & Ep & Ee & Hl).
  { apply take_returns. destruct Hst. apply wp_Traversal; [done..|]. intros w1 aid Hw1. apply leaves_equiv in Hw1.
    apply (wp_end_event e); [by eapply under_way_leaves|done..|]. intros w' l s sp Hp Ep Ee Hl. exists l, s, sp.
    split_and!; [done..|exact (leaves_trans _ _ _ _ _ Hw1 Hl)]. }
  exists w'. split; [done|]. intros rest Hrest.
  destruct (trail_passage _ _ _ _ _ Hp) as (rest' & Htr & Hrest').
  pose proof (trail_app _ _ _ _ _ _ _ _ _ _ Htr (trail_ProcessComplete sp)) as Hall. rewrite !app_nil_r in Hall.
  rewrite (due_after _ _ _ _ _ _ _ (proj2 (proj2 Hl)) Hall).
  pose proof (so_far_leaves _ _ _ _ _ _ _ _ _ _ _ _ Hf Hl Hall) as Hs'.
  destruct Hp as (s1 & s2 & _ & _ & Hs & Hx).
  eapply (closing w0 _ w' sp (rest ++ rest' ++ [(EngineConsumer ActivityConsumer, state_msg ctx cid messages.WorkflowActivityComplete s []);
    (EngineConsumer Tracking, state_msg ctx cid messages.WorkflowProcessComplete sp [])])); try done; [by eapply under_way_leaves| |].
  - intros d. rewrite !elem_of_app, !elem_of_cons, elem_of_nil. intros [Hd|[Hd|[->|[->|[]]]]].
    + by apply Hrest.
    + eapply idle_mono; [|by apply Hrest']. done.
    + intros w2 [Hwf Hh Hpi]. apply wp_ActivityComplete. apply (wp_leave_end e); try done; [by rewrite Hx|].
      intros w3 Hw3. by apply sidestep_equiv.
    + eapply idle_mono; [|by apply idle_Tracking]. done.
  - etransitivity; [|symmetry; apply Permutation_cons_append]. by rewrite <-!app_assoc.
Qed.
End passing.
