(* ===== verification/Working.v ===== *)
(** * Service tasks on the way

    A process comes to a service task: the engine stores a job and asks for it, the
    client that listens for the task runs its function and completes the job through
    the API, the engine completes the activity with the variables of the task and
    goes on ([working]).  The messages carry the correlation of the client's call
    from there on.  [arrives]: with that, a route of service tasks and of elements
    that let control through is followed to its end. *)
From S2P Require Import Prelude Model Errors Env Sim Common Wp NatsUtil Vars Publish History Instances Lifecycle Lookups TaskSpec Jobs Launch Traverse Flows Gateway Duration Messages Compensate Activity Process Handlers Timers Api Calls ClientTask Mock Client Worker Work Engine Delivery Passing.

(** ** Names that are complete *)
Lemma lacks_Contains c s sub : lacks c s = true → Contains s (String c sub) = false.
Proof.
  unfold lacks. induction s as [|x s IH]; [done|]. cbn [string_forall Contains]. simpl.
  intros [Hx%negb_true_iff%bool_decide_eq_false Hs]%andb_true_iff. rewrite (IH Hs), orb_false_r.
  destruct (ascii_dec c x) as [->|]; done.
Qed.

Lemma lacks_app c a b : lacks c a = true → lacks c b = true → lacks c (a +:+ b) = true.
Proof.
  unfold lacks. intros Ha Hb. induction a as [|x a IH]; [done|]. cbn [string_forall] in Ha.
  apply andb_true_iff in Ha as [Hx Ha]. simpl. by rewrite Hx, IH.
Qed.

Lemma NS_complete name ns : lacks "%" name = true → NS name ns = name.
Proof. intros Hn. unfold NS. by rewrite (lacks_Contains "%"). Qed.

(** An identifier that is one token of a subject, as those of task specifications
    are ([Base62]). *)
Definition token (uid : string) : Prop :=
  lacks "." uid = true ∧ lacks "%" uid = true ∧ uid ≠ "*" ∧ uid ≠ ">".

Lemma filter_one {A} `{EqDecision A} (f : A → bool) (x : A) l :
  NoDup l → x ∈ l → (∀ y, y ∈ l → f y = bool_decide (y = x)) → List.filter f l = [x].
Proof.
  intros Hnd Hx Hf. induction l as [|y l IH]; [by apply elem_of_nil in Hx|].
  apply NoDup_cons in Hnd as [Hy Hnd]. simpl. rewrite Hf by left. case_bool_decide as Hyx.
  - subst y. f_equal. rewrite <-(List.filter_false l). apply filter_ext_in. intros z Hz. rewrite Hf by (by right; apply list_elem_of_In).
    apply bool_decide_false. intros ->. by apply Hy, list_elem_of_In.
  - apply IH; [done| |intros; apply Hf; by right]. apply elem_of_cons in Hx as [->|]; [done|done].
Qed.

Section subjects.
Context `{Env} `{ApiEnv} `{ClientEnv} `{Subjects} (cl : Client).
Context (ns : string) (Hdot : lacks "." ns = true) (Hpct : lacks "%" ns = true) (Hcl : cl_ns cl = ns).
Context (Htokens : ∀ u, u ∈ cl_listenTasks cl → token u).

(** The name a job of a task is published under. *)
Definition job_name (uid : string) : string := NS (messages.WorkflowJobServiceTaskExecute +:+ "." +:+ uid) ns.

Lemma job_name_state uid :
  job_name uid = "WORKFLOW." +:+ (ns +:+ String "." ("State.Job.Execute.ServiceTask." +:+ uid)).
Proof. reflexivity. Qed.

Lemma job_name_complete uid : token uid → NS (job_name uid) ns = job_name uid.
Proof.
  intros (_ & Hu & _). apply NS_complete. rewrite job_name_state. apply lacks_app; [done|]. apply lacks_app; [done|].
  by apply (lacks_app "%" ".State.Job.Execute.ServiceTask.").
Qed.

(** It is not the name of a user task. *)
Lemma job_name_ne uid : job_name uid ≠ NS messages.WorkflowJobUserTaskExecute ns.
Proof.
  intros Hn. change (("WORKFLOW." +:+ (ns +:+ (".State.Job.Execute.ServiceTask." +:+ uid)))
    = "WORKFLOW." +:+ (ns +:+ ".State.Job.Execute.UserTask")) in Hn.
  by repeat apply (inj (String.append _)) in Hn.
Qed.

Lemma Split_job uid : token uid →
  Split "." (job_name uid) = ["WORKFLOW"; ns; "State"; "Job"; "Execute"; "ServiceTask"; uid].
Proof.
  intros (Hu & _). rewrite job_name_state, (Split_state ns Hdot).
  change ("State.Job.Execute.ServiceTask." +:+ uid)
    with ("State" +:+ String "." ("Job" +:+ String "." ("Execute" +:+ String "." ("ServiceTask" +:+ String "." uid)))).
  by rewrite !Split_app, Split_lacks by done.
Qed.

Lemma task_subject_matches u uid : token u → token uid →
  tokens_match (Split "." (task_subject cl u)) (Split "." (job_name uid)) = bool_decide (u = uid).
Proof.
  intros (Hu & _ & Hs & Hg) Huid. rewrite (Split_task cl ns Hdot Hcl), (Split_job _ Huid), Split_lacks by done.
  cbn [app tokens_match]. rewrite (bool_decide_false (u = ">" ∧ _)) by tauto.
  rewrite !(bool_decide_true (_ ∨ ns = ns)) by tauto. rewrite (bool_decide_ext (u = "*" ∨ u = uid) (u = uid)) by tauto.
  rewrite !(bool_decide_false (_ ∧ _ = [])) by (by intros [_ ?]). cbn [andb].
  rewrite ?andb_true_r. destruct (bool_decide (u = uid)); reflexivity.
Qed.

Lemma subscribers_job uid : uid ∈ cl_listenTasks cl →
  subscribers cl (job_name uid) = [EngineConsumer Tracking; TaskConsumer 1].
Proof.
  intros Hin. pose proof (Htokens _ Hin) as Huid. rewrite subscribers_tokens.
  rewrite (filter_one (λ u, tokens_match (Split "." (task_subject cl u)) (Split "." (job_name uid))) uid).
  - rewrite (Split_job _ Huid). vm_compute. reflexivity.
  - apply NoDup_elements.
  - by apply elem_of_elements.
  - intros u Hu. apply task_subject_matches; [by apply Htokens, elem_of_elements|done].
Qed.
End subjects.

(** ** Histories *)
Lemma historyKey_type p t ty p' t' ty' : historyKey p t ty = historyKey p' t' ty' → ty = ty'.
Proof.
  intros Hk. apply (f_equal LastDot) in Hk. rewrite !LastDot_historyKey in Hk. injection Hk as _ Hk.
  by apply (inj processHistoryTypeString) in Hk.
Qed.

(** ** Variables of a task *)
Section task_variables.
Context `{EnvOk}.

Lemma wp_InputVars v el jb w Φ :
  gives v (el_InputTransform el) jb → (∀ w', w' ≡ w → Φ w' (Ok jb)) → wp (InputVars v "" el) w Φ.
Proof.
  unfold gives. intros Hg HΦ. case_decide as Hi.
  - unfold InputVars. rewrite bool_decide_true by done. wp_steps. subst jb. by apply HΦ.
  - destruct Hg as (vs0 & vs1 & Hv & He & Hm).
    destruct (InputVars_scope w v "" vs0 el vs1 jb) as [Ho _]; [done..|].
    unfold wp. rewrite Ho. apply HΦ, w_next_equiv.
Qed.

(** The variables of the process with those of the task. *)
Definition merges (nb b : bytes) (transform : gmap string string) (b' : bytes) : Prop :=
  if decide (transform = ∅) then b' = b
  else ∃ local vs vals, holds nb local ∧ holds b vs ∧ evaluates transform local vals ∧
    msgpack_marshal (vals ∪ vs) = inl b'.

Lemma wp_merges nb b transform b' w Φ :
  merges nb b transform b' → (∀ w', w' ≡ w → Φ w' (Ok b')) → wp (OutputVars nb b transform) w Φ.
Proof.
  unfold merges. intros Hg HΦ. case_decide as Ht.
  - unfold OutputVars. rewrite bool_decide_true by done. wp_steps. subst b'. by apply HΦ.
  - destruct Hg as (local & vs & vals & Hn & Hb & He & Hm).
    destruct (OutputVars_merge w nb b local vs transform vals b') as [Ho _]; [done..|].
    unfold wp. rewrite Ho. apply HΦ, w_next_equiv.
Qed.
End task_variables.

Section working.
Context `{EnvOk} `{ApiEnv} `{ClientEnv} `{Subjects} (cl : Client) (NF : NoFaults) (CC : ColdCache).
Context (ns cid : string) (values : gmap string string) (Hns : ns ≠ "").
Context (Hdot : lacks "." ns = true) (Hpct : lacks "%" ns = true) (Hcl : cl_ns cl = ns).
Context (Htokens : ∀ u, u ∈ cl_listenTasks cl → token u).
Context (Hopen : open_server) (Hcompat : compatible (cl_ExpectedCompatibleServerVersion cl)).
Abbreviation ctx := (ectx ns cid values).

(** ** Messages of jobs *)
Lemma trail_job uid st : uid ∈ cl_listenTasks cl →
  let m := state_msg ctx cid (job_name ns uid) st [] in
  trail cl [m] [] [] [] [(EngineConsumer Tracking, m); (TaskConsumer 1, m)].
Proof.
  intros Hin m. pose proof (Htokens _ Hin) as Hu. pose proof (job_name_complete ns Hpct uid Hu) as Hc.
  eapply (trail_state cl ns cid values Hdot _ ("State.Job.Execute.ServiceTask." +:+ uid)); [by rewrite Hc|by rewrite Hc, (subscribers_job cl ns)|..].
  4: reflexivity.
  all: rewrite <-(Split_state ns Hdot), <-job_name_state, (Split_job ns Hdot _ Hu); vm_compute; reflexivity.
Qed.

Lemma trail_JobComplete st :
  let m := state_msg ctx cid messages.WorkflowJobServiceTaskComplete st [] in
  trail cl [m] [] [] [] [(EngineConsumer Tracking, m); (EngineConsumer JobCompleteConsumer, m)].
Proof.
  eapply (trail_state cl ns cid values Hdot _ "State.Job.Complete.ServiceTask"); [reflexivity| |vm_compute; reflexivity..|].
  - apply (subscribers_state cl ns Hdot Hcl "State.Job.Complete.ServiceTask"); [reflexivity|vm_compute; reflexivity].
  - reflexivity.
Qed.

(** ** The job *)
(** A service task that the client performs on the variables [b] of the process,
    which become [b']: with the variables [jvars] of the job its function gives
    [newVars]. *)
Record performs (w0 : World) (e : Element) (b b' uid : string) (spec : TaskSpec)
    (f : ServiceFn) (jb : string) (jvars newVars : Vars) (nb : string) : Prop := {
  pf_type : el_Type e = element.ServiceTask;
  pf_timers : el_BoundaryTimer e = [];
  pf_once : el_Iteration e = None;
  pf_version : el_Version e = Some uid;
  pf_listens : uid ∈ cl_listenTasks cl;
  pf_function : cl_SvcTasks cl !! uid = Some (mkFnDef ExecutionTypeVars (FnService f));
  pf_spec : w_get w0 ns WfTaskSpec uid = Some (DTaskSpec spec);
  pf_real : from_option tb_Mock false (ts_Behaviour spec) = false;
  pf_input : gives b (el_InputTransform e) jb;
  pf_vars : holds jb jvars;
  pf_returns : ∀ tc jc w, wp (f tc jc jvars) w (returns (λ w' r, w' ≡ w ∧ r = (Some newVars, None)));
  pf_result : msgpack_marshal newVars = inl nb;
  pf_supplied : outputs_supplied e (wire <$> newVars);
  pf_output : merges nb b (el_OutputTransform e) b' }.

(** The job of an activity. *)
Definition job_of (e : Element) (s : WorkflowState) (uid jb jid : string) : WorkflowState :=
  s <| ws_Execute := Some (el_Execute e) |> <| ws_ExecuteVersion := uid |> <| ws_Vars := jb |>
    <| ws_Id ::= λ id, TrackingID.Push id jid |>.

(** A job was stored and asked for. *)
Record asked (jid : string) (job : WorkflowState) (m : Msg) (w w' : World) : Prop := {
  as_frame : ∀ b' k, b' ≠ WfHistory → (b', k) ≠ (Job, jid) → w_get w' ns b' k = w_get w ns b' k;
  as_job : w_get w' ns Job jid = Some (DState job);
  as_kept : ∀ p t ty, ty ≠ jobExecute → w_get w' ns WfHistory (historyKey p t ty) = w_get w ns WfHistory (historyKey p t ty);
  as_history : history_ok ns w → history_ok ns w';
  as_out : w_out w' = w_out w ++ [m] }.

Lemma element_versioned e uid : el_Version e = Some uid → e <| el_Version := Some uid |> = e.
Proof. destruct e. simpl. by intros ->. Qed.

Lemma wp_start_task w0 e b b' uid spec f jb jvars newVars nb pi s1 s2 w Φ :
  performs w0 e b b' uid spec f jb jvars newVars nb → ws_Vars s2 = b →
  w_get w ns WfTaskSpec uid = Some (DTaskSpec spec) →
  (∀ w' jid t, let job := job_of e s1 uid jb jid in
     asked jid job (state_msg ctx cid (job_name ns uid) (job <| ws_UnixTimeNano := t |>) []) w w' → Φ w' (Ok (s1, executing))) →
  wp (start_element_of ctx pi s2 s1 e (el_Type e)) w Φ.
Proof.
  intros [Ht _ Hit Hv Hin _ _ Hmock Hg _ _ _ _ _] Hs2 Hspec HΦ. pose proof (Htokens _ Hin) as Hu.
  unfold start_element_of. rewrite Ht. rewrite !bool_decide_false by done. rewrite bool_decide_true by done. wp_steps.
  unfold start_service_task. rewrite Hv. wp_steps. rewrite (element_versioned e uid Hv).
  unfold with_fields. wp_steps. unfold startJob. rewrite Hv, Ht, Hs2. cbv zeta.
  rewrite (bool_decide_false (_ = element.MessageIntermediateCatchEvent)), (bool_decide_false (_ = element.UserTask)), (bool_decide_true (_ = element.ServiceTask)) by done.
  wp_steps. apply (wp_InputVars b e jb); [done|]. intros w1 Hw1. wp_steps.
  apply (wp_GetTaskSpecByUID NF ctx uid spec); [by rewrite Hw1|]. intros w2 Hw2. wp_steps.
  unfold createJob. wp_steps. apply wp_nsKVs; [done|]. intros w3 Hw3 _. wp_steps. apply wp_SaveObj; [done|].
  revert HΦ. generalize (ksuid_new (w_tick w3)). intros jid HΦ w4 Hw4. wp_steps. rewrite Hit. wp_steps.
  replace (match ts_Behaviour spec with Some b => tb_Mock b | None => false end) with false by (by destruct (ts_Behaviour spec)).
  eapply (wp_PublishWorkflowState_other NF ctx cid); [done|apply (job_name_ne ns)|]. intros w5 t. cbv zeta. intros Hw5. wp_steps.
  unfold RecordHistoryJobExecute. wp_steps. apply wp_RecordHistory; [done|]. intros w6 Hw6. wp_steps. apply (HΦ w6 jid t).
  change (GetNS ctx) with ns in *. split.
  - intros b0 k Hb0 Hk. by rewrite Hw6, w_get_put_ne, Hw5, w_get_pub, Hw4, w_get_put_ne, w_get_next, Hw3, Hw2, Hw1 by congruence.
  - by rewrite Hw6, w_get_put_ne, Hw5, w_get_pub, Hw4, w_get_put_eq by done.
  - intros p t' ty Hty. rewrite Hw6, w_get_put_ne by (intros [=Hk]; by apply historyKey_type in Hk).
    by rewrite Hw5, w_get_pub, Hw4, w_get_put_ne, w_get_next, Hw3, Hw2, Hw1 by done.
  - intros Hh. eapply history_ok_put; [|exact Hw6]. intros k d. rewrite Hw5, w_get_pub, Hw4, w_get_put_ne, w_get_next, Hw3, Hw2, Hw1 by done.
    apply Hh.
  - rewrite Hw6. simpl. rewrite Hw5. simpl. rewrite Hw4. simpl. by rewrite Hw3, Hw2, Hw1.
Qed.

(** ** The instance at a service task *)
Context (wid prId : string) (wf : Workflow) (pr : Process) (els : gmap string Element).
Context (Hpr : wf_Process wf !! prId = Some pr) (Hnd : NoDup (el_Id <$> ElementFacts.elements wf)).
Context (Hels : ∀ id i, els !! id = Some i ↔ i ∈ ElementFacts.elements wf ∧ el_Id i = id).
Context (eid pid : string) (pi : ProcessInstance).
Context (Hwid : pi_WorkflowId pi = wid) (Htop : default "" (pi_ParentProcessId pi) = "").
Abbreviation under_way := (Passing.under_way ns wid wf eid pid pi).
Abbreviation so_far := (Passing.so_far ns eid pid).
Abbreviation at_element := (Passing.at_element wid prId eid pid).

Lemma under_way_asked jid job m w w' : asked jid job m w w' → under_way w → under_way w'.
Proof.
  intros [Hg _ _ Hh _] [Hw Hp He Hi]. split; [by rewrite Hg..|auto].
Qed.

Lemma so_far_asked w0 jid job m w w' es cs xs ds :
  so_far w0 None es cs xs w → asked jid job m w w' → trail cl [m] [] [] [] ds →
  so_far w0 (Some jid) (es ++ []) (cs ++ []) (xs ++ []) w'.
Proof.
  intros [Hf Hj Ho] [Hg _ _ _ Ho'] Ht. split; [| |by eapply told_app].
  - intros b' k ? ? ? ? ?. rewrite Hg by congruence. by apply Hf.
  - intros k Hk. rewrite Hg by congruence. by apply Hj.
Qed.

(** The task and the job it has. *)
Context (w0 : World) (e : Element) (b b' uid : string) (spec : TaskSpec) (fn : ServiceFn) (jb : string).
Context (jvars newVars : Vars) (nb : string).
Context (Hpf : performs w0 e b b' uid spec fn jb jvars newVars nb) (He : els !! el_Id e = Some e).

(** The activity is under way, its job is stored. *)
Record job_open (aid jid : string) (s : WorkflowState) (w : World) : Prop := {
  jo_at : at_element e b s;
  jo_state : ws_State s = executing;
  jo_id : ws_Id s = [pid; aid];
  jo_job : w_get w ns Job jid = Some (DState (job_of e s uid jb jid));
  jo_activity : w_get w ns WfHistory (historyKey pid aid activityExecute) = Some (DHistory (historyEntry s activityExecute)) }.

Lemma steady_job_open aid jid s : steady ns (job_open aid jid s).
Proof. intros w w' [Hg _] [Ha Hx Hi Hj Hh]. split; [done..| |]; by rewrite Hg. Qed.

(** The traversal to the task has the job stored and asked for. *)
Lemma wp_ask st es w :
  under_way w → so_far w0 None es es [] w → at_element e b st → ws_State st = executing →
  wp (take cl (EngineConsumer Traversal, state_msg ctx cid messages.WorkflowTraversalExecute st [])) w
    (returns (λ w' a, a = Ack ∧ ∃ aid jid s s2 t,
       job_open aid jid s w' ∧ under_way w' ∧ so_far w0 (Some jid) (es ++ [el_Id e]) es [] w' ∧
       w_out w' = w_out w ++ [state_msg ctx cid messages.WorkflowActivityExecute s [];
                              state_msg ctx cid messages.WorkflowTraversalComplete s2 [];
                              state_msg ctx cid (job_name ns uid) (job_of e s uid jb jid <| ws_UnixTimeNano := t |>) []])).
Proof.
  intros Hw Hf Hst Hx. pose proof Hst as [Ep Ee _ _ _ _ _ _]. pose proof Hpf as [Ht Hbt _ _ Hin _ Hspec _ _ _ _ _ _ _].
  eapply (wp_Traversal cl NF ns cid values Hns); [exact Hw|done..|]. intros w1 aid Hw1. apply leaves_equiv with (ns := ns) in Hw1.
  eapply (wp_reach NF CC ns cid values wid prId wf els Hnd Hels eid pid pi Hwid e b); [by eapply under_way_leaves|done..|].
  intros w2 s s2 Hs Hs2 Hxs Hid Hact Hl. pose proof (leaves_trans _ _ _ _ _ _ Hw1 Hl) as Hl2.
  eapply (wp_start_task w0 e b b' uid spec fn jb jvars newVars nb); [exact Hpf|by apply (at_vars _ _ _ _ _ _ _ Hs2)| |].
  { destruct Hl2 as [Hg _]. rewrite Hg by done. destruct Hf as [Hfr _ _]. by rewrite Hfr. }
  intros w3 jid t job Has. cbn [returns fst snd]. unfold announce_end.
  rewrite bool_decide_false by naive_solver. wp_steps. exists aid, jid, s, s2, t. split_and!.
  - split; [done|by rewrite Hxs|done|apply (as_job _ _ _ _ _ Has)|by rewrite (as_kept _ _ _ _ _ Has)].
  - eapply under_way_asked; [exact Has|]. by eapply under_way_leaves.
  - pose proof (trail_app _ _ _ _ _ _ _ _ _ _ _ (trail_ActivityExecute cl ns cid values Hdot Hcl s)
      (trail_TraversalComplete cl ns cid values Hdot Hcl s2)) as Htr.
    pose proof (so_far_leaves cl ns eid pid _ _ _ _ _ _ _ _ _ _ _ _ Hf Hl2 Htr) as Hf2.
    rewrite !app_nil_r, (at_id _ _ _ _ _ _ _ Hs) in Hf2.
    pose proof (so_far_asked _ _ _ _ _ _ _ _ _ _ Hf2 Has (trail_job uid _ Hin)) as Hf3. by rewrite !app_nil_r in Hf3.
  - rewrite (as_out _ _ _ _ _ Has). destruct Hl2 as (_ & _ & ->). by rewrite <-app_assoc.
Qed.

(** The client does the task and has the job completed, in a correlation of its own. *)
Lemma wp_perform aid jid s t w :
  job_open aid jid s w → under_way w →
  wp (take cl (TaskConsumer 1, state_msg ctx cid (job_name ns uid) (job_of e s uid jb jid <| ws_UnixTimeNano := t |>) [])) w
    (returns (λ w' a, a = Ack ∧ ∃ cid' t', w' ≡ w_pub (state_msg (ectx ns cid' values) cid'
       messages.WorkflowJobServiceTaskComplete
       (job_of e s uid jb jid <| ws_Vars := nb |> <| ws_UnixTimeNano := t' |>) []) w)).
Proof.
  intros [Hs Hx Hid Hj Hact] Hw. pose proof Hpf as [Ht _ _ Hv Hin Hfn _ _ _ Hvars Hret Hnb Hsup _].
  pose proof Hs as [Ep Ee Ew Epr Ei Et _ _]. pose proof (Htokens _ Hin) as Hu.
  unfold take. cbn [fst snd].
  set (job := job_of e s uid jb jid).
  assert (ws_Id job = [pid; aid; jid]) as Hjid by (unfold job, job_of; simpl; by rewrite Hid). set (m := state_msg ctx cid (job_name ns uid) _ []).
  eapply wp_mono; [|eapply (wp_service_task cl fn m (job <| ws_UnixTimeNano := t |>) job wf e jvars newVars nb w NF CC Hopen Hcompat)].
  - intros w' [a|err|p]; [|done..]. cbn [returns]. intros (Ha & cid' & now & Hw'). split; [done|]. exists cid', now.
    unfold m in Hw'. rewrite (state_msg_values ns cid values), Hcl in Hw'. exact Hw'.
  - exact Hfn.
  - assert (∀ k, HasPrefix k header.natsSharHeader = false → msg_Header m !! k =
      (<[header.CorrelationHeader := cid]> (<["embargo" := "0"]> {[header.SharNamespace := ns]}) : gmap string string) !! k) as Hhd
      by (intros; by apply state_msg_header).
    split; [| |right| | |reflexivity|by simpl; rewrite Et|].
    + unfold HeaderGet. by rewrite Hhd.
    + by rewrite Hcl.
    + unfold HeaderGet. by rewrite Hhd.
    + unfold compat_problem, HeaderGet. by rewrite Hhd.
    + change (msg_Subject m) with (NS (job_name ns uid) ns).
      rewrite (job_name_complete ns Hpct _ Hu), (Split_job ns Hdot _ Hu). by eexists.
    + done.
  - rewrite Hcl. split; [| |exact Hnd| | |].
    + by rewrite Hjid.
    + change (ws_WorkflowId job) with (ws_WorkflowId s). rewrite Ew. apply (uw_workflow _ _ _ _ _ _ _ Hw).
    + by apply Hels in He as [? _].
    + by change (ws_ElementId job) with (ws_ElementId s); rewrite Ei.
    + exists (historyEntry s activityExecute). change (ws_ProcessInstanceId job) with (ws_ProcessInstanceId s). by rewrite Ep, Hjid.
  - by change (ws_State job) with (ws_State s); rewrite Hx.
  - exact Hvars.
  - intros tc jc w1 Hw1. eapply wp_mono; [|apply Hret]. intros w2 [r|err|p]; [|done..]. cbn [returns]. intros [Hw2 ->]. by rewrite Hw2, Hw1.
  - done.
  - done.
Qed.

(** A job was completed. *)
Record closed (jid : string) (m : Msg) (w w' : World) : Prop := {
  cl_frame : ∀ b' k, b' ≠ WfHistory → (b', k) ≠ (Job, jid) → w_get w' ns b' k = w_get w ns b' k;
  cl_job : w_get w' ns Job jid = None;
  cl_history : history_ok ns w → history_ok ns w';
  cl_out : w_out w' = w_out w ++ [m] }.

Lemma wp_HistoryItem p t ty h w Φ :
  w_get w ns WfHistory (historyKey p t ty) = Some (DHistory h) →
  (∀ w', w' ≡ w → Φ w' (Ok h)) → wp (GetProcessHistoryItem ctx p t ty) w Φ.
Proof.
  intros Hg HΦ. unfold GetProcessHistoryItem. wp_steps. apply wp_KvsFor; [done|]. intros w1 Hw1 Hkv. wp_steps.
  apply wp_kvGet; [done|]. rewrite Hkv. change (GetNS ctx) with ns. apply w_get_kv_get in Hg as [r ->]. wp_steps. simpl. wp_steps.
  apply HΦ. by rewrite w_next_equiv, Hw1.
Qed.

Lemma wp_job_completed aid jid s t w Φ :
  job_open aid jid s w → under_way w →
  (∀ w' s', at_element e b' s' → ws_State s' = executing →
     closed jid (state_msg ctx cid messages.WorkflowActivityComplete s' []) w w' → Φ w' (Ok tt)) →
  wp (completeJobProcessor ctx (job_of e s uid jb jid <| ws_Vars := nb |> <| ws_UnixTimeNano := t |>)) w Φ.
Proof.
  intros [Hs Hx Hid Hj Hact] Hw HΦ. pose proof Hpf as [_ _ _ _ _ _ _ _ _ _ _ _ _ Hout].
  pose proof Hs as [Ep Ee Ew Epr Ei Et _ Ev]. set (job := job_of e s uid jb jid <| ws_Vars := nb |> <| ws_UnixTimeNano := t |>).
  assert (ws_Id job = [pid; aid; jid]) as Hjid by (unfold job, job_of; simpl; by rewrite Hid).
  assert (ws_ProcessInstanceId job = pid) as Hjp by exact Ep. assert (ws_ElementId job = el_Id e) as Hje by exact Ei.
  assert (ws_Vars job = nb) as Hjv by reflexivity. assert (ws_State job = executing) as Hjs by exact Hx.
  unfold completeJobProcessor. rewrite Hjid, Hjp, Hje, Hjv, Hjs. wp_steps.
  apply (wp_HistoryItem _ _ _ _ _ _ Hact). intros w1 Hw1. wp_steps.
  eapply (wp_GetProcessInstance NF ctx); [rewrite Hw1; apply (uw_instance _ _ _ _ _ _ _ Hw)|]. intros w2 Hw2. wp_steps.
  rewrite Hwid. apply (wp_GetWorkflow NF ctx CC _ wf); [rewrite Hw2, Hw1; apply (uw_workflow _ _ _ _ _ _ _ Hw)|].
  intros w3 Hw3. wp_steps. apply (wp_table wf els Hnd Hels). wp_steps.
  apply (wp_HistoryItem pid aid activityExecute (historyEntry s activityExecute)); [by rewrite w_next_equiv, Hw3, Hw2, Hw1|].
  intros w4 Hw4. wp_steps. unfold workfFlowStateFrom. cbn [historyEntry ph_WorkflowId ph_ExecutionId ph_ElementId ph_ProcessInstanceId ph_CancellationState]. wp_steps.
  rewrite He. wp_steps. rewrite <-Ev in Hout. eapply (wp_merges nb (ws_Vars s) _ b'); [exact Hout|]. intros w5 Hw5. wp_steps.
  apply (wp_completeActivity NF ns cid values). intros w6 t' s' Hl. wp_steps. unfold RecordHistoryJobComplete. wp_steps.
  apply wp_RecordHistory; [done|]. intros w7 Hw7. wp_steps. unfold DeleteJob. wp_steps. apply wp_nsKVs; [done|]. intros w8 Hw8 _.
  wp_steps. apply wp_Delete; [done|]. intros w9 Hw9. change (GetNS ctx) with ns in *. change (TrackingID.ID [pid; aid; jid]) with jid in Hw9.
  assert (w5 ≡ w) as Hw0 by (by rewrite Hw5, Hw4, w_next_equiv, Hw3, Hw2, Hw1). destruct Hl as (Hg & Hh & Ho).
  apply (HΦ w9 s').
  - split; first [exact Ep|exact Ee|exact Ew|exact Epr|by exists aid|done].
  - done.
  - split.
    + intros b0 k Hb0 Hk. by rewrite Hw9, w_get_del_ne, Hw8, Hw7, w_get_put_ne, Hg, Hw0 by congruence.
    + by rewrite Hw9, w_get_del_eq.
    + intros Hok k d. rewrite Hw9, w_get_del_ne, Hw8 by done. eapply history_ok_put; [|exact Hw7]. apply Hh.
      intros k' d'. rewrite Hw0. apply Hok.
    + rewrite Hw9. simpl. rewrite Hw8, Hw7. simpl. by rewrite Ho, Hw0.
Qed.

Lemma wp_JobComplete aid jid s t w :
  job_open aid jid s w → under_way w →
  wp (take cl (EngineConsumer JobCompleteConsumer, state_msg ctx cid messages.WorkflowJobServiceTaskComplete
       (job_of e s uid jb jid <| ws_Vars := nb |> <| ws_UnixTimeNano := t |>) [])) w
    (returns (λ w' a, a = Ack ∧ ∃ s', at_element e b' s' ∧ ws_State s' = executing ∧
       closed jid (state_msg ctx cid messages.WorkflowActivityComplete s' []) w w')).
Proof.
  intros Hjo Hw. pose proof Hjo as [Hs Hx _ _ _]. pose proof Hs as [Ep Ee _ _ _ _ _ _].
  apply (wp_take cl ns cid values Hns). cbn [handler]. unfold processCompletedJobs, or_unmarshal.
  change (msg_Data _) with (Marshal (job_of e s uid jb jid <| ws_Vars := nb |> <| ws_UnixTimeNano := t |>)).
  rewrite Unmarshal_Marshal. unfold with_process. wp_steps. destruct (uw_execution _ _ _ _ _ _ _ Hw) as (ex & Hex & _).
  set (job := job_of e s uid jb jid <| ws_Vars := nb |> <| ws_UnixTimeNano := t |>).
  assert (ws_ProcessInstanceId job = pid) as -> by exact Ep. assert (ws_ExecutionId job = eid) as -> by exact Ee.
  assert (ws_State job = executing) as -> by exact Hx.
  apply (wp_hasValidProcess NF ctx _ _ pi ex); [done|apply (uw_instance _ _ _ _ _ _ _ Hw)|]. intros w1 Hw1. wp_steps.
  rewrite bool_decide_true by done. unfold or_return. wp_steps.
  apply (wp_job_completed aid jid); [by eapply steady_job_open, Hjo; apply sidestep_equiv|
    by eapply steady_under_way, Hw; apply sidestep_equiv|].
  intros w2 s' Hs' Hx' [Hg Hj Hh Ho]. wp_steps. split; [done|]. exists s'. split_and!; [done..|]. split.
  - intros b0 k Hb0 Hk. by rewrite Hg, Hw1.
  - done.
  - intros Hok. apply Hh. intros k d. rewrite Hw1. apply Hok.
  - by rewrite Ho, Hw1.
Qed.

Lemma under_way_closed jid m w w' : closed jid m w w' → under_way w → under_way w'.
Proof. intros [Hg _ Hh _] [Hw Hp Hex Hi]. split; [by rewrite Hg..|auto]. Qed.

Lemma so_far_closed jid m w w' es cs xs es' cs' xs' ds :
  so_far w0 (Some jid) es cs xs w → closed jid m w w' → trail cl [m] es' cs' xs' ds →
  so_far w0 None (es ++ es') (cs ++ cs') (xs ++ xs') w'.
Proof.
  intros [Hf Hj Ho] [Hg Hgone _ Ho'] Ht. split; [| |by eapply told_app].
  - intros b0 k ? ? ? ? ?. rewrite Hg by congruence. by apply Hf.
  - intros k _. destruct (decide (k = jid)) as [->|Hne]; [by left|]. rewrite Hg by congruence. apply Hj. congruence.
Qed.
End working.

(** ** A step of the route *)
Section step.
Context `{EnvOk} `{ApiEnv} `{ClientEnv} `{Subjects} (cl : Client) (NF : NoFaults) (CC : ColdCache).
Context (ns : string) (values : gmap string string) (Hns : ns ≠ "").
Context (Hdot : lacks "." ns = true) (Hpct : lacks "%" ns = true) (Hcl : cl_ns cl = ns).
Context (Htokens : ∀ u, u ∈ cl_listenTasks cl → token u).
Context (Hopen : open_server) (Hcompat : compatible (cl_ExpectedCompatibleServerVersion cl)).
Context (wid prId : string) (wf : Workflow) (pr : Process) (els : gmap string Element).
Context (Hpr : wf_Process wf !! prId = Some pr) (Hnd : NoDup (el_Id <$> ElementFacts.elements wf)).
Context (Hels : ∀ id i, els !! id = Some i ↔ i ∈ ElementFacts.elements wf ∧ el_Id i = id).
Context (eid pid : string) (pi : ProcessInstance).
Context (Hwid : pi_WorkflowId pi = wid) (Htop : default "" (pi_ParentProcessId pi) = "").
Abbreviation under_way := (Passing.under_way ns wid wf eid pid pi).
Abbreviation so_far := (Passing.so_far ns eid pid).
Abbreviation at_element := (Passing.at_element wid prId eid pid).
Abbreviation calm := (Passing.calm ns wid wf pid pi).
Abbreviation due_at cid := (Passing.due_at cl ns cid values wid wf eid pid pi).
Abbreviation idle := (Passing.idle cl ns).
Abbreviation always_ends := (Delivery.always_ends cl).
Abbreviation take := (Delivery.take cl).
Abbreviation deliveries := (Delivery.deliveries cl).

(** A service task that the client does with the variables [b], which become [b']. *)
Definition done_by_client (w0 : World) (e : Element) (b b' : string) : Prop :=
  ∃ uid spec f jb jvars newVars nb, performs cl ns w0 e b b' uid spec f jb jvars newVars nb.

(** Every message that is tracked is put aside. *)
Lemma idle_tracked cid name st : idle calm (EngineConsumer Tracking, state_msg (ectx ns cid values) cid name st []).
Proof. eapply idle_mono; [|by apply idle_Tracking]. done. Qed.

(** The task [uid] that the element has the client do. *)
Context (w0 : World) (e e' : Element) (b b' uid : string) (spec : TaskSpec) (fn : ServiceFn) (jb : string).
Context (jvars newVars : Vars) (nb : string) (vs' : gmap string GoVal).
Context (Hpf : performs cl ns w0 e b b' uid spec fn jb jvars newVars nb) (Hb' : holds b' vs').
Context (Hpl : plain els e) (Hleads : leads pr els vs' e e').
Abbreviation He := (proj1 Hpl).
Abbreviation job_open := (Working.job_open ns wid prId eid pid e b uid jb).

(** The job is open, the elements before were passed. *)
Definition at_task (es : list string) (aid jid : string) (s : WorkflowState) (w : World) : Prop :=
  job_open aid jid s w ∧ under_way w ∧ so_far w0 (Some jid) (es ++ [el_Id e]) es [] w.

Lemma steady_at_task es aid jid s : steady ns (at_task es aid jid s).
Proof. apply steady_and; [apply steady_job_open|]. apply steady_and; [apply steady_under_way|apply steady_so_far]. Qed.

Lemma completing (P : World → Prop) cid es aid jid s t w qs todo :
  at_task es aid jid s w → (∀ d, d ∈ qs → idle calm d) →
  todo ≡ₚ (EngineConsumer JobCompleteConsumer, state_msg (ectx ns cid values) cid messages.WorkflowJobServiceTaskComplete
    (job_of e s uid jb jid <| ws_Vars := nb |> <| ws_UnixTimeNano := t |>) []) :: qs →
  (∀ s' st', at_element e' b' st' → due_at cid w0 (es ++ [el_Id e]) st' s' → always_ends P s') →
  always_ends P (w, todo).
Proof.
  intros Hat Hqs Htodo Hnext.
  eapply (always_ends_token cl ns _ calm (at_task es aid jid s) _ _ qs);
    [apply steady_at_task|intros ? (_ & ? & _); by eapply under_way_calm|done|done|exact Htodo|].
  clear w Hat Htodo. intros w (Hjo & Hu & Hf).
  destruct (take_returns cl _ _ _ (wp_JobComplete cl NF CC ns cid values Hns wid prId wf els Hnd Hels eid pid pi Hwid
    w0 e b b' uid spec fn jb jvars newVars nb Hpf (proj1 Hpl) aid jid s t w Hjo Hu)) as (w' & Ht & s' & Hs' & Hx' & Hcl').
  exists w'. split; [done|]. intros rest Hrest.
  pose proof (trail_ActivityComplete cl ns cid values Hdot Hcl s') as Htr.
  rewrite (due_after cl _ _ _ _ _ _ _ (cl_out _ _ _ _ _ Hcl') Htr).
  pose proof (so_far_closed cl ns eid pid _ _ _ _ _ _ _ _ _ _ _ _ Hf Hcl' Htr) as Hf'.
  rewrite !app_nil_r, (at_id _ _ _ _ _ _ _ Hs') in Hf'.
  eapply (leaving cl NF CC ns cid values Hns Hdot Hcl wid prId wf pr els Hpr Hnd Hels eid pid pi b' vs' Hb' P w0
    (es ++ [el_Id e]) _ w' e e' s' (rest ++ [_])); try done; [by eapply under_way_closed| |].
  2: { etransitivity; [|symmetry; apply Permutation_cons_append]. rewrite <-!app_assoc. cbn [app]. reflexivity. }
  intros d [Hd| ->%list_elem_of_singleton]%elem_of_app; [by apply Hrest|apply idle_tracked].
Qed.

Lemma performing (P : World → Prop) cid es aid jid s t w qs todo :
  at_task es aid jid s w → (∀ d, d ∈ qs → idle calm d) →
  todo ≡ₚ (TaskConsumer 1, state_msg (ectx ns cid values) cid (job_name ns uid)
    (job_of e s uid jb jid <| ws_UnixTimeNano := t |>) []) :: qs →
  (∀ cid' s' st', at_element e' b' st' → due_at cid' w0 (es ++ [el_Id e]) st' s' → always_ends P s') →
  always_ends P (w, todo).
Proof.
  intros Hat Hqs Htodo Hnext.
  eapply (always_ends_token cl ns _ calm (at_task es aid jid s) _ _ qs);
    [apply steady_at_task|intros ? (_ & ? & _); by eapply under_way_calm|done|done|exact Htodo|].
  clear w Hat Htodo. intros w (Hjo & Hu & Hf).
  destruct (take_returns cl _ _ _ (wp_perform cl NF CC ns cid values Hns Hdot Hpct Hcl Htokens Hopen Hcompat wid prId wf els Hnd Hels
    eid pid pi w0 e b b' uid spec fn jb jvars newVars nb Hpf He aid jid s t w Hjo Hu)) as (w' & Ht & cid' & t' & Hw').
  exists w'. split; [done|]. intros rest Hrest.
  pose proof (trail_JobComplete cl ns cid' values Hdot Hcl
    (job_of e s uid jb jid <| ws_Vars := nb |> <| ws_UnixTimeNano := t' |>)) as Htr.
  assert (leaves ns [state_msg (ectx ns cid' values) cid' messages.WorkflowJobServiceTaskComplete
    (job_of e s uid jb jid <| ws_Vars := nb |> <| ws_UnixTimeNano := t' |>) []] w w') as Hl.
  { split_and!; [intros; by rewrite Hw'| |by rewrite Hw']. intros Hh k d. rewrite Hw'. apply Hh. }
  rewrite (due_after cl _ _ _ _ _ _ _ (proj2 (proj2 Hl)) Htr).
  eapply (completing P cid' es aid jid s t' w' (rest ++ [_])); [split_and!| | |by intros; eapply Hnext].
  5: { etransitivity; [|symmetry; apply Permutation_cons_append]. rewrite <-!app_assoc. cbn [app]. reflexivity. }
  - destruct Hjo as [Ha Hx Hi Hj Hh]. split; [done..| |]; by rewrite Hw'.
  - by eapply under_way_leaves.
  - pose proof (so_far_leaves cl ns eid pid _ _ _ _ _ _ _ _ _ _ _ _ Hf Hl Htr) as Hf'. by rewrite !app_nil_r in Hf'.
  - intros d [Hd| ->%list_elem_of_singleton]%elem_of_app; [by apply Hrest|apply idle_tracked].
Qed.

Lemma asking (P : World → Prop) cid es st s :
  at_element e b st → due_at cid w0 es st s →
  (∀ cid' s' st', at_element e' b' st' → due_at cid' w0 (es ++ [el_Id e]) st' s' → always_ends P s') →
  always_ends P s.
Proof.
  intros Hst (Hx & Hu & Hf & qs & Hqs & Htodo) Hnext. destruct s as [w todo]. cbn [fst snd] in *.
  eapply (always_ends_token cl ns _ calm (λ w, under_way w ∧ so_far w0 None es es [] w) _ _ qs);
    [apply steady_and; [apply steady_under_way|apply steady_so_far]|intros ? []; by eapply under_way_calm|done|done|exact Htodo|].
  clear w Hu Hf Htodo. intros w [Hu Hf].
  destruct (take_returns cl _ _ _ (wp_ask cl NF CC ns cid values Hns Hdot Hpct Hcl Htokens wid prId wf els Hnd Hels eid pid pi Hwid
    w0 e b b' uid spec fn jb jvars newVars nb Hpf He st es w Hu Hf Hst Hx)) as (w' & Ht & aid & jid & s & s2 & t & Hjo & Hu' & Hf' & Ho).
  exists w'. split; [done|]. intros rest Hrest.
  pose proof (trail_app cl _ _ _ _ _ _ _ _ _ _ (trail_ActivityExecute cl ns cid values Hdot Hcl s)
    (trail_app cl _ _ _ _ _ _ _ _ _ _ (trail_TraversalComplete cl ns cid values Hdot Hcl s2)
      (trail_job cl ns cid values Hdot Hpct Hcl Htokens uid (job_of e s uid jb jid <| ws_UnixTimeNano := t |>) (pf_listens _ _ _ _ _ _ _ _ _ _ _ _ _ Hpf)))) as Htr.
  rewrite (due_after cl _ _ _ _ _ _ _ Ho Htr). cbn [app].
  eapply (performing P cid es aid jid s t w' (rest ++ [_; _; _; _])); [by split_and!| | |done].
  2: { etransitivity; [|symmetry; apply Permutation_cons_append]. rewrite <-!app_assoc. cbn [app]. reflexivity. }
  intros d [Hd|Hd]%elem_of_app; [by apply Hrest|]. rewrite !elem_of_cons, elem_of_nil in Hd.
  destruct Hd as [->|[->|[->|[->|[]]]]]; first [by apply idle_tracked|eapply idle_mono; [|by apply idle_ActivityExecute]; done].
Qed.
End step.

(** ** The route *)
(** From an element to an end event, over elements that let control through with
    the variables they are reached with, and service tasks that change them; the
    elements of the way, in order. *)
Section routes.
Context `{Env} `{ClientEnv} (cl : Client) (ns : string) (pr : Process) (els : gmap string Element) (w0 : World).

Inductive route : string → gmap string GoVal → Element → list Element → Prop :=
  | route_end b vs e :
      els !! el_Id e = Some e → el_BoundaryTimer e = [] → el_Type e = element.EndEvent → el_Errors e = [] →
      el_OutputTransform e = ∅ → el_Outbound e = None → holds b vs → route b vs e [e]
  | route_on b vs e e' l :
      plain els e → passes e = true → holds b vs → leads pr els vs e e' → route b vs e' l → route b vs e (e :: l)
  | route_task b vs b' vs' e e' l :
      plain els e → done_by_client cl ns w0 e b b' → holds b' vs' → leads pr els vs' e e' → route b' vs' e' l →
      route b vs e (e :: l).
End routes.

Section arriving.
Context `{EnvOk} `{ApiEnv} `{ClientEnv} `{Subjects} (cl : Client) (NF : NoFaults) (CC : ColdCache).
Context (ns : string) (values : gmap string string) (Hns : ns ≠ "").
Context (Hdot : lacks "." ns = true) (Hpct : lacks "%" ns = true) (Hcl : cl_ns cl = ns).
Context (Htokens : ∀ u, u ∈ cl_listenTasks cl → token u).
Context (Hopen : open_server) (Hcompat : compatible (cl_ExpectedCompatibleServerVersion cl)).
Context (wid prId : string) (wf : Workflow) (pr : Process) (els : gmap string Element).
Context (Hpr : wf_Process wf !! prId = Some pr) (Hnd : NoDup (el_Id <$> ElementFacts.elements wf)).
Context (Hels : ∀ id i, els !! id = Some i ↔ i ∈ ElementFacts.elements wf ∧ el_Id i = id).
Context (eid pid : string) (pi : ProcessInstance).
Context (Hwid : pi_WorkflowId pi = wid) (Htop : default "" (pi_ParentProcessId pi) = "").
Abbreviation under_way := (Passing.under_way ns wid wf eid pid pi).
Abbreviation so_far := (Passing.so_far ns eid pid).
Abbreviation at_element := (Passing.at_element wid prId eid pid).
Abbreviation calm := (Passing.calm ns wid wf pid pi).
Abbreviation due_at cid := (Passing.due_at cl ns cid values wid wf eid pid pi).
Abbreviation idle := (Passing.idle cl ns).
Abbreviation always_ends := (Delivery.always_ends cl).
Abbreviation take := (Delivery.take cl).
Abbreviation deliveries := (Delivery.deliveries cl).

Lemma arrives w0 b vs e l :
  pi_ProcessInstanceId pi = pid → route cl ns pr els w0 b vs e l → ∀ cid es st s,
  at_element e b st → due_at cid w0 es st s → always_ends (finished ns eid pid w0 (es ++ (el_Id <$> l))) s.
Proof.
  intros Epi. induction 1 as [b vs e He Hbt Ht Herr Htr Hout Hb|b vs e e' l Hpl Hpass Hb Hleads _ IH|
    b vs b' vs' e e' l Hpl Hdone Hb' Hleads _ IH]; intros cid es st s Hst Hdue.
  - by eapply (arriving cl NF CC ns cid values Hns Hdot Hcl wid prId wf els Hnd Hels eid pid pi Hwid Htop b w0 es e st s).
  - eapply (going cl NF CC ns cid values Hns Hdot Hcl wid prId wf pr els Hpr Hnd Hels eid pid pi b vs Hb _ w0 es e e' st s);
      [done|done| |done|].
    + pose proof Hst as [Ep Ee _ _ _ _ _ _]. split_and!; [done..|]. intros w aid Φ Hw HΦ. destruct Hpl.
      by apply (wp_pass_element NF CC ns cid values Hns wid prId wf els Hnd Hels eid pid pi Hwid e b).
    + intros s' st' Hst' Hdue'. rewrite fmap_cons, cons_middle, app_assoc. by apply (IH cid _ st').
  - destruct Hdone as (uid & spec & f & jb & jvars & newVars & nb & Hpf).
    eapply (asking cl NF CC ns values Hns Hdot Hpct Hcl Htokens Hopen Hcompat wid prId wf pr els Hpr Hnd Hels eid pid pi Hwid w0 e e'
      b b' uid spec f jb jvars newVars nb vs' Hpf Hb' Hpl Hleads _ cid es st s); [done..|].
    intros cid' s' st' Hst' Hdue'. rewrite fmap_cons, cons_middle, app_assoc. by apply (IH cid' _ st').
Qed.

(** The traversal to the start event takes the process along its route. *)
Lemma runs_through w0 cid b vs e e' l v st w qs todo :
  pi_ProcessInstanceId pi = pid → plain els e → el_BoundaryTimer e = [] → el_Type e = element.StartEvent →
  gives v (el_OutputTransform e) b → holds b vs → leads pr els vs e e' → route cl ns pr els w0 b vs e' l →
  at_element e v st → ws_State st = executing → under_way w → so_far w0 None [] [] [] w → (∀ d, d ∈ qs → idle calm d) →
  todo ≡ₚ (EngineConsumer Traversal, state_msg (ectx ns cid values) cid messages.WorkflowTraversalExecute st []) :: qs →
  always_ends (finished ns eid pid w0 (el_Id <$> e :: l)) (w, todo).
Proof.
  intros Epi Hpl Hbt Ht Hg Hb Hleads Hroute Hst Hx Hu Hf Hqs Htodo.
  eapply (going cl NF CC ns cid values Hns Hdot Hcl wid prId wf pr els Hpr Hnd Hels eid pid pi b vs Hb _ w0 [] e e' st);
    [done|done| |by split_and!; [| | |exists qs]|].
  - pose proof Hst as [Ep Ee _ _ _ _ _ _]. split_and!; [done..|]. intros w1 aid Φ Hw1 HΦ.
    destruct Hpl as [He _]. by apply (wp_start_event NF CC ns cid values Hns wid prId wf els Hnd Hels eid pid pi Hwid b e v st).
  - intros s' st' Hst' Hdue'. rewrite fmap_cons. by apply (arrives w0 b vs e' l Epi Hroute cid [el_Id e] st').
Qed.
End arriving.
