(* ===== verification/Running.v ===== *)
(** * From the launch to the end

    [Launch] ([internal/server/workflow/operations.go]) without faults: the
    execution and the instance it stores and the messages it publishes; and with
    [Passing] and [Working] that the engine and a client bring what was launched to
    its end. *)
From S2P Require Import Prelude Model Errors Env Sim Common Wp NatsUtil Vars Publish History Instances Lifecycle Lookups TaskSpec Jobs Launch Traverse Flows Gateway Duration Messages Compensate Activity Process Handlers Timers Api Calls ClientTask Mock Client Worker Work Engine Delivery Passing Working.

Section launch_runs.
Context `{EnvOk} `{ApiEnv} `{ClientEnv} `{Subjects} (cl : Client) (NF : NoFaults) (CC : ColdCache).
Context (ns cid : string) (values : gmap string string) (Hns : ns ≠ "").
Context (Hdot : lacks "." ns = true) (Hpct : lacks "%" ns = true) (Hcl : cl_ns cl = ns).
Context (Htokens : ∀ u, u ∈ cl_listenTasks cl → token u).
Context (Hopen : open_server) (Hcompat : compatible (cl_ExpectedCompatibleServerVersion cl)).
Abbreviation ctx := (ectx ns cid values).
Abbreviation always_ends := (Delivery.always_ends cl).
Abbreviation deliveries := (Delivery.deliveries cl).
Abbreviation idle := (Passing.idle cl).

(** ** Start events *)
Definition start_events (pr : Process) : list Element :=
  List.filter (λ i, bool_decide (el_Type i = element.StartEvent)) (pr_Elements pr).

Lemma wp_forEachStartElement pr f e w Φ :
  start_events pr = [e] →
  wp (f e) w (returns (λ w' _, Φ w' (Ok tt))) → wp (forEachStartElement pr f) w Φ.
Proof.
  unfold start_events, forEachStartElement. revert w. induction (pr_Elements pr) as [|i l IH]; intros w He Hf; [done|].
  cbn [for_each]. cbn [List.filter] in He. destruct (bool_decide (el_Type i = element.StartEvent)); wp_steps; [|by apply IH].
  injection He as -> Hl. wp_steps. eapply wp_mono; [|exact Hf]. intros w' [[]|e'|p]; [|done..]. cbn [returns]. intros HΦ. wp_steps.
  clear IH Hf. induction l as [|j l IH]; cbn [for_each]; wp_steps; [done|].
  cbn [List.filter] in Hl. destruct (bool_decide (el_Type j = element.StartEvent)); [done|]. wp_steps. by apply IH.
Qed.

(** The variables the start events ask for are given. *)
Definition given (pr : Process) (vs0 : gmap string GoVal) : Prop :=
  ∀ e k ex, e ∈ pr_Elements pr → el_Type e = element.StartEvent → el_OutputTransform e !! k = Some ex →
    ∃ evs, GetVariables ex = inl evs ∧ ∀ v, v ∈ evs → is_Some (vs0 !! v).

Lemma wp_check_starts pr vs0 w Φ :
  given pr vs0 → (∀ w', w' ≡ w → Φ w' (Ok tt)) → wp (forEachStartElement pr (check_start vs0)) w Φ.
Proof.
  intros Hgiven HΦ. unfold forEachStartElement.
  apply (wp_for_each (λ l w', w' ≡ w ∧ ∀ e, e ∈ l → e ∈ pr_Elements pr)); [done| |by intros w' [Hw' _]; apply HΦ].
  intros e l w1 [Hw1 Hl]. assert (∀ e, e ∈ l → e ∈ pr_Elements pr) as Hl' by (intros e' He'; apply Hl; by right).
  case_bool_decide as Ht; wp_steps; [|by split]. unfold check_start. wp_steps. apply wp_range. intros kvs Hkvs.
  apply (wp_for_each (λ l' w', w' ≡ w ∧ ∀ kv, kv ∈ l' → el_OutputTransform e !! kv.1 = Some kv.2)).
  - split; [by rewrite w_next_equiv|]. intros [k ex] Hin. rewrite Hkvs, elem_of_map_to_list in Hin. done.
  - intros [k ex] l' w2 [Hw2 Hl2]. cbn [snd]. destruct (Hgiven e k ex) as (evs & Hevs & Hall);
      [apply Hl; by left|done|by apply (Hl2 (k, ex)); left|].
    rewrite Hevs. wp_steps.
    apply (wp_for_each (λ l3 w', w' ≡ w ∧ ∀ v, v ∈ l3 → is_Some (vs0 !! v))); [done| |].
    + intros v l3 w3 [Hw3 Hl3]. destruct (Hl3 v) as [x ->]; [by left|]. wp_steps. split; [done|].
      intros v' Hv'. apply Hl3. by right.
    + intros w3 [Hw3 _]. split; [done|]. intros kv Hkv. apply Hl2. by right.
  - intros w2 [Hw2 _]. wp_steps. by split.
Qed.

(** ** The execution *)
Lemma wp_createExecution x wf w Φ :
  w_get w ns Wf (ex_WorkflowId x) = Some (DWorkflow wf) →
  (∀ w' eid, let e := x <| ex_ExecutionId := eid |> <| ex_ProcessInstanceId := [] |> in
     w' ≡ w_put ns WfExecution eid (DExecution e) w → Φ w' (Ok e)) →
  wp (createExecution ctx x) w Φ.
Proof.
  intros Hwf HΦ. unfold createExecution. wp_steps. apply wp_nsKVs; [done|]. intros w1 Hw1 _. wp_steps.
  apply (wp_GetWorkflow NF ctx CC _ wf); [by rewrite Hw1, w_next_equiv|]. intros w2 Hw2. wp_steps.
  apply wp_SaveObj; [done|]. intros w3 Hw3. wp_steps.
  apply (wp_for_each (λ _ w', w' ≡ w3)); [done| |].
  - intros m l w4 Hw4. wp_steps. apply wp_nats; [done|]. simpl. by rewrite w_next_equiv.
  - intros w4 Hw4. wp_steps. apply HΦ. by rewrite Hw4, Hw3, Hw2, Hw1, w_next_equiv.
Qed.

(** A name that is complete already stays as it is. *)
Lemma state_msg_ProcessExecute st :
  state_msg ctx cid (NS messages.WorkflowProcessExecute ns) st [] = state_msg ctx cid messages.WorkflowProcessExecute st [].
Proof.
  unfold state_msg. change (GetNS ctx) with ns. f_equal. apply NS_complete.
  apply (lacks_app "%" "WORKFLOW."); [done|by apply lacks_app].
Qed.

Lemma wp_start_element prId name wid eid vars pi e w Φ :
  (∀ w' id st, let s := start_state e wid eid [pi_ProcessInstanceId pi; id] vars name prId (pi_ProcessInstanceId pi) in
     (∃ t, st = s <| ws_UnixTimeNano := t |>) →
     (∃ k t h sp, w' ≡ w_pub (state_msg ctx cid messages.WorkflowTraversalExecute st [])
       (w_put ns WfHistory k (DHistory (historyEntry t h))
         (w_pub (state_msg ctx cid messages.WorkflowProcessExecute sp []) w))) → Φ w' (Ok tt)) →
  wp (start_element ctx [] prId name wid eid vars pi e) w Φ.
Proof.
  intros HΦ. unfold start_element. wp_steps. cbv zeta. eapply (wp_publish NF ctx cid); [done| |].
  { unfold quiet. change (NS messages.WorkflowProcessExecute (GetNS ctx)) with ("WORKFLOW." +:+ (ns +:+ ".State.Process.Execute")).
    by rewrite <-app_assoc_str, HasSuffix_app_long by (simpl; lia). }
  intros w1 t1 Hw1. wp_steps. unfold RecordHistoryProcessStart. wp_steps. apply wp_RecordHistory; [done|]. intros w2 Hw2.
  wp_steps. eapply (wp_publish NF ctx cid); [done|done|]. intros w3 t3 Hw3. wp_steps. eapply HΦ; [by exists t3|].
  unfold published in *. change (GetNS ctx) with ns in *. rewrite state_msg_ProcessExecute in Hw1. do 4 eexists.
  by rewrite Hw3, Hw2, Hw1, w_next_equiv.
Qed.

(** ** The instance *)
(** A process with one start event, and variables that are decodable and enough. *)
Definition startable (pr : Process) (e : Element) (vars : bytes) : Prop :=
  start_events pr = [e] ∧ ∃ vs0, holds vars vs0 ∧ given pr vs0.

Lemma has_start pr e : start_events pr = [e] → has_start_events pr = true.
Proof.
  unfold start_events, has_start_events. intros He. apply existsb_exists. exists e.
  apply (proj1 (List.filter_In (λ i, bool_decide (el_Type i = element.StartEvent)) e (pr_Elements pr))). rewrite He. by left.
Qed.

Lemma wp_launchProcess pr e name wid x vars headers w Φ :
  startable pr e vars → w_get w ns WfExecution (ex_ExecutionId x) = Some (DExecution x) →
  (∀ w' pid id st, let eid := ex_ExecutionId x in
     let pi := mkProcessInstance pid eid (Some "") (Some "") wid name (pr_Id pr) ∅ headers in
     (∃ t, st = start_state e wid eid [pid; id] vars name (pr_Id pr) pid <| ws_UnixTimeNano := t |>) →
     (∃ k t h sp, w' ≡ w_pub (state_msg ctx cid messages.WorkflowTraversalExecute st [])
       (w_put ns WfHistory k (DHistory (historyEntry t h))
         (w_pub (state_msg ctx cid messages.WorkflowProcessExecute sp []) (after_create ctx eid x pid pi w)))) →
     Φ w' (Ok tt)) →
  wp (launchProcess ctx [] (pr_Id pr) pr name wid (ex_ExecutionId x) vars "" "" headers) w Φ.
Proof.
  intros (He & vs0 & Hvs0 & Hgiven) Hx HΦ. unfold launchProcess. wp_steps.
  unfold wp at 1. rewrite (DecodeVars_holds _ _ _ Hvs0). simpl. wp_steps.
  apply (wp_check_starts pr vs0); [done|]. intros w1 Hw1. wp_steps. rewrite (has_start _ _ He). wp_steps.
  eapply wp_mono; [|apply (createProcessInstance_spec ctx _ "" "" (pr_Id pr) name wid headers x w1 NF); by rewrite Hw1].
  intros w2 [pi|err|p]; [|done..]. intros [-> Hw2].
  revert Hw2. generalize (ksuid_new (w_tick w1)). intros pid Hw2. wp_steps. apply (wp_forEachStartElement _ _ e); [done|].
  apply wp_start_element. intros w3 id st s Hst (k & t & h & sp & Hw3). cbn [returns]. eapply HΦ; [exact Hst|].
  exists k, t, h, sp. unfold after_create in *. by rewrite Hw3, Hw2, Hw1.
Qed.

(** ** The launch *)
(** A process of a stored workflow that may be started on its own. *)
Record launchable (prId name wid : string) (wf : Workflow) (pr : Process) (w : World) : Prop := {
  la_name : w_get w ns WfProcess prId = Some (DBytes name);
  la_versions : ∃ v lv, w_get w ns WfVersion name = Some (DVersions v) ∧ wvs_IsExecutionDisabled v = false ∧
    last (wvs_Version v) = Some lv ∧ wv_Id lv = wid;
  la_workflow : w_get w ns Wf wid = Some (DWorkflow wf);
  la_process : wf_Process wf !! prId = Some pr;
  la_id : pr_Id pr = prId;
  la_alone : ∃ ps, wf_Participants wf = Some ps ∧ (ps = [] ∨ pt_ProcessId <$> ps = [prId]);
  la_registered : tasks_registered ctx w (pr_Elements pr);
  la_current : ∀ el, el ∈ pr_Elements pr → ¬ runs_deprecated ctx w el }.

(** What a launch has stored and published. *)
Definition launched (w : World) (x : Execution) (pid : string) (pi : ProcessInstance) (st : WorkflowState) (w' : World) : Prop :=
  ∃ k t h sp se, w' ≡ w_pub (state_msg ctx cid messages.WorkflowTraversalExecute st [])
    (w_put ns WfHistory k (DHistory (historyEntry t h))
      (w_pub (state_msg ctx cid messages.WorkflowProcessExecute sp [])
        (after_create ctx (ex_ExecutionId x) x pid pi
          (w_pub (state_msg ctx cid messages.WorkflowExecutionExecute se [])
            (w_put ns WfExecution (ex_ExecutionId x) (DExecution x) w))))).

Lemma wp_launch_processes prId name wid wf pr w Φ :
  launchable prId name wid wf pr w → ∀ w1, Φ w1 (Ok [pr]) → wp (launch_processes wf prId) w1 Φ.
Proof.
  intros Hla w1 HΦ. unfold launch_processes. destruct (la_alone _ _ _ _ _ _ Hla) as (ps & Hps & Hone).
  pose proof (la_process _ _ _ _ _ _ Hla) as Hpr. rewrite Hps. destruct Hone as [->|Hone]; wp_steps.
  - cbn [for_fold existsb]. wp_steps. rewrite Hpr. by wp_steps.
  - destruct ps as [|p [|p' ps]]; [done| |done]. injection Hone as Hp. cbn [for_fold existsb]. rewrite Hp, Hpr.
    wp_steps. rewrite bool_decide_true by done. simpl. by wp_steps.
Qed.

Lemma wp_Launch prId name wid wf pr e vars headers w Φ :
  launchable prId name wid wf pr w → startable pr e vars →
  (∀ w' x pid id st pi, ex_ProcessInstanceId x = [] →
     pi = mkProcessInstance pid (ex_ExecutionId x) (Some "") (Some "") wid name prId ∅ headers →
     (∃ t, st = start_state e wid (ex_ExecutionId x) [pid; id] vars name prId pid <| ws_UnixTimeNano := t |>) →
     launched w x pid pi st w' → Φ w' (Ok (ex_ExecutionId x, wid))) →
  wp (Launch ctx prId vars headers) w Φ.
Proof.
  intros Hla Hstart HΦ. destruct (la_versions _ _ _ _ _ _ Hla) as (v & lv & Hv & Hdis & Hlast & <-).
  unfold Launch, LaunchWithParent. wp_steps. apply (wp_getWorkflowNameFor NF ctx _ name); [apply (la_name _ _ _ _ _ _ Hla)|].
  intros w1 Hw1. wp_steps. apply (wp_getWorkflowVersions NF ctx _ v); [by rewrite Hw1|]. intros w2 Hw2. wp_steps.
  rewrite Hdis. unfold last_elem. rewrite Hlast. wp_steps.
  apply (wp_GetWorkflow NF ctx CC _ wf); [rewrite Hw2, Hw1; apply (la_workflow _ _ _ _ _ _ Hla)|]. intros w3 Hw3. wp_steps.
  apply (wp_checkProcessTaskDeprecation NF ctx wf prId pr); [apply (la_process _ _ _ _ _ _ Hla)| |].
  { intros el Hel Ht. destruct (la_registered _ _ _ _ _ _ Hla el Hel Ht) as (u & s & Hu & Hs). exists u, s. by rewrite Hw3, Hw2, Hw1. }
  intros w4 r Hw4 _ Hiff. rewrite (proj2 Hiff).
  2: { intros el Hel Hd. apply (la_current _ _ _ _ _ _ Hla el Hel). eapply runs_deprecated_equiv; [|exact Hd]. by rewrite Hw3, Hw2, Hw1. }
  assert (w4 ≡ w) as Hw by (by rewrite Hw4, Hw3, Hw2, Hw1). clear w1 w2 w3 Hw1 Hw2 Hw3 Hw4 Hiff. wp_steps.
  unfold launch_execution. rewrite bool_decide_true by done. wp_steps.
  apply (wp_createExecution _ wf); [rewrite Hw; apply (la_workflow _ _ _ _ _ _ Hla)|]. intros w5 eid x Hw5. wp_steps.
  eapply (wp_publish NF ctx cid); [done|done|]. intros w6 t6 Hw6. unfold published in Hw6. wp_steps. cbv beta iota.
  eapply wp_launch_processes; [exact Hla|]. cbn [for_each]. wp_steps. rewrite (la_id _ _ _ _ _ _ Hla).
  rewrite <-(la_id _ _ _ _ _ _ Hla). apply (wp_launchProcess pr e name _ x); [done|by rewrite Hw6, w_get_pub, Hw5, w_get_put_eq|].
  intros w7 pid id st eid' pi Hst (k & t & h & sp & Hw7). wp_steps. apply (HΦ w7 x pid id st pi); [done|by rewrite <-(la_id _ _ _ _ _ _ Hla)| |].
  - by rewrite <-(la_id _ _ _ _ _ _ Hla).
  - exists k, t, h, sp. eexists. unfold after_create in *. by rewrite Hw7, Hw6, Hw5, Hw.
Qed.

(** ** After the launch *)
Lemma launched_get w x pid pi st w' b k :
  launched w x pid pi st w' → b ≠ WfHistory → (b, k) ≠ (WfExecution, ex_ExecutionId x) → (b, k) ≠ (WfProcessInstance, pid) →
  w_get w' ns b k = w_get w ns b k.
Proof.
  intros (k' & t & h & sp & se & Hw') Hh He Hp. rewrite Hw'. unfold after_create.
  by rewrite w_get_pub, w_get_put_ne, w_get_pub, !w_get_put_ne, w_get_pub, w_get_put_ne by congruence.
Qed.

Lemma launched_under_way w prId name wid wf pr x pid headers st w' :
  launchable prId name wid wf pr w → history_ok ns w → ex_ProcessInstanceId x = [] →
  let pi := mkProcessInstance pid (ex_ExecutionId x) (Some "") (Some "") wid name prId ∅ headers in
  launched w x pid pi st w' → under_way ns wid wf (ex_ExecutionId x) pid pi w'.
Proof.
  intros Hla Hh Hx pi Hl. pose proof Hl as (k' & t & h & sp & se & Hw').
  unfold after_create in Hw'. change (GetNS ctx) with ns in Hw'. split.
  - rewrite (launched_get _ _ _ _ _ _ _ _ Hl) by done. apply (la_workflow _ _ _ _ _ _ Hla).
  - by rewrite Hw', w_get_pub, w_get_put_ne, w_get_pub, w_get_put_ne, w_get_put_eq by done.
  - exists (x <| ex_ProcessInstanceId ::= λ l, l ++ [pid] |>). split_and!; [|done|by simpl; rewrite Hx].
    by rewrite Hw', w_get_pub, w_get_put_ne, w_get_pub, w_get_put_eq by done.
  - intros k d. rewrite Hw', w_get_pub, w_get_put. case_decide; [intros [= <-]; eexists; split; [done|by eexists]|].
    rewrite w_get_pub, !w_get_put_ne, w_get_pub, w_get_put_ne by done. apply Hh.
Qed.

Lemma launched_so_far w x pid pi st w' :
  launched w x pid pi st w' → ∃ qs,
    so_far ns (ex_ExecutionId x) pid w None [] [] [] w' ∧ (∀ d, d ∈ qs → idle ns (λ _, True) d) ∧
    deliveries (drop (length (w_out w)) (w_out w')) ≡ₚ
      (EngineConsumer Traversal, state_msg ctx cid messages.WorkflowTraversalExecute st []) :: qs.
Proof.
  intros Hl. pose proof Hl as (k' & t & h & sp & se & Hw').
  pose proof (trail_app cl _ _ _ _ _ _ _ _ _ _ (trail_ExecutionExecute cl ns cid values Hdot Hcl se)
    (trail_app cl _ _ _ _ _ _ _ _ _ _ (trail_ProcessExecute cl ns cid values Hdot Hcl sp) (trail_TraversalExecute cl ns cid values Hdot Hcl st))) as Ht.
  match type of Ht with trail _ ?ms _ _ _ _ => assert (w_out w' = w_out w ++ ms) as Ho end.
  { rewrite Hw'. simpl. by rewrite <-!app_assoc. }
  exists [(EngineConsumer Tracking, state_msg ctx cid messages.WorkflowExecutionExecute se []);
    (EngineConsumer WorkflowConsumer, state_msg ctx cid messages.WorkflowExecutionExecute se []);
    (EngineConsumer Tracking, state_msg ctx cid messages.WorkflowProcessExecute sp []);
    (EngineConsumer Tracking, state_msg ctx cid messages.WorkflowTraversalExecute st [])]. split_and!.
  - destruct Ht as (? & ? & ? & _). split; [intros; by eapply launched_get|right; by eapply launched_get|by eexists].
  - intros d. rewrite !elem_of_cons, elem_of_nil. intros [->|[->|[->|[->|[]]]]];
      first [by apply idle_Tracking|by apply idle_ExecutionExecute].
  - rewrite (due_after cl _ _ _ _ _ _ _ Ho Ht). cbn [app]. symmetry. apply (Permutation_middle [_; _; _] [_]).
Qed.

(** ** The whole run *)
Lemma launch_runs_through prId name wid wf pr els b vs e e' l vars headers w :
  launchable prId name wid wf pr w → history_ok ns w → startable pr e vars →
  NoDup (el_Id <$> ElementFacts.elements wf) →
  (∀ id i, els !! id = Some i ↔ i ∈ ElementFacts.elements wf ∧ el_Id i = id) →
  plain els e → el_BoundaryTimer e = [] → holds b vs → gives vars (el_OutputTransform e) b →
  leads pr els vs e e' → route cl ns pr els w b vs e' l →
  wp (Launch ctx prId vars headers) w (returns (λ w' r, r.2 = wid ∧ ∃ pid,
    always_ends (finished ns r.1 pid w (el_Id <$> e :: l)) (w', deliveries (drop (length (w_out w)) (w_out w'))))).
Proof.
  intros Hla Hh Hstart Hnd Hels Hpl Hbt Hb Hg Hleads Hroute.
  apply (wp_Launch prId name wid wf pr e); [done..|]. intros w' x pid id st pi Hx -> [t ->] Hl.
  split; [done|]. exists pid. cbn [fst].
  destruct (launched_so_far _ _ _ _ _ _ Hl) as (qs & Hf & Hqs & Hdue).
  assert (el_Type e = element.StartEvent) as Ht.
  { destruct Hstart as [He _].
    assert (In e (start_events pr)) as Hin by (rewrite He; by left).
    by apply List.filter_In in Hin as [_ ?%bool_decide_eq_true]. }
  pose proof (launched_under_way _ _ _ _ _ _ _ _ headers _ _ Hla Hh Hx Hl) as Hu.
  set (pi := mkProcessInstance pid (ex_ExecutionId x) (Some "") (Some "") wid name prId ∅ headers) in *.
  assert (∀ d, d ∈ qs → idle ns (calm ns wid wf pid pi) d) as Hqs' by (intros d Hd; eapply idle_mono; [|by apply Hqs]; done).
  eapply (runs_through cl NF CC ns values Hns Hdot Hpct Hcl Htokens Hopen Hcompat wid prId wf pr els (la_process _ _ _ _ _ _ Hla) Hnd Hels
    (ex_ExecutionId x) pid pi eq_refl eq_refl w cid b vs e e' l vars); try done.
  - split; try done. by exists id.
  - done.
Qed.
End launch_runs.

(** (C1) A process that is launched is brought to its end, in whatever order the
    messages are delivered: when a launchable process leads from its start event to
    an end event, over elements that let control through, choices whose conditions
    leave one flow open, and service tasks that the listening client performs, then
    after [Launch] every schedule of the deliveries, those to the client among them,
    is finite and free of panics, the elements of that route have been entered and
    left once each, in order, the end of the execution has been announced once, the
    instance and the execution are no longer stored, every job is gone or as it was,
    and nothing else of the namespace has changed but its history and the tracking. *)
Theorem launched_process_ends `{EnvOk} `{ApiEnv} `{ClientEnv} `{Subjects} cl ns cid values prId name wid wf pr els b vs e e' l vars headers w :
  NoFaults → ColdCache → ns ≠ "" → lacks "." ns = true → lacks "%" ns = true →
  cl_ns cl = ns → (∀ u, u ∈ cl_listenTasks cl → token u) →
  open_server → compatible (cl_ExpectedCompatibleServerVersion cl) →
  launchable ns cid values prId name wid wf pr w → history_ok ns w → startable pr e vars →
  NoDup (el_Id <$> ElementFacts.elements wf) →
  (∀ id i, els !! id = Some i ↔ i ∈ ElementFacts.elements wf ∧ el_Id i = id) →
  plain els e → el_BoundaryTimer e = [] → holds b vs → gives vars (el_OutputTransform e) b →
  leads pr els vs e e' → route cl ns pr els w b vs e' l →
  ∃ w' eid pid, Launch (ectx ns cid values) prId vars headers w = (w', Ok (eid, wid)) ∧
    always_ends cl (finished ns eid pid w (el_Id <$> e :: l)) (w', deliveries cl (drop (length (w_out w)) (w_out w'))).
Proof.
  intros NF CC Hns Hdot Hpct Hcl Htokens Hopen Hcompat Hla Hh Hstart Hnd Hels Hpl Hbt Hb Hg Hleads Hroute.
  pose proof (launch_runs_through cl NF CC ns cid values Hns Hdot Hpct Hcl Htokens Hopen Hcompat prId name wid wf pr els b vs e e' l vars headers w
    Hla Hh Hstart Hnd Hels Hpl Hbt Hb Hg Hleads Hroute) as Hrun. unfold wp in Hrun.
  destruct (Launch _ _ _ _ _) as [w' [[eid wid']|err|p]]; [|done..]. destruct Hrun as [Hwid [pid Hends]].
  cbn [fst snd] in Hwid, Hends. subst wid'. by exists w', eid, pid.
Qed.

(** ** Example: a card is charged, and a choice is made by the outcome *)
Definition ex_way : Targets := mkTargets [mkTarget "f1" ["=paid"] "yes"; mkTarget "f2" ["false"] "no"] (-1).
Definition ex_to_charge : Targets := mkTargets [mkTarget "f" [] "charge"] (-1).
Definition ex_to_choice : Targets := mkTargets [mkTarget "f0" [] "which"] (-1).
Definition ex_begin : Element := ex_element "begin" element.StartEvent (Some ex_to_charge) None.
Definition ex_charging_task : Element :=
  ex_element "charge" element.ServiceTask (Some ex_to_choice) None
    <| el_OutputTransform := {["paid" := "=charged"]} |> <| el_Version := Some "uid" |>.
Definition ex_which : Element :=
  ex_element "which" element.Gateway (Some ex_way) (Some (mkGatewaySpec exclusive divergent "" [])).
Definition ex_yes : Element := ex_element "yes" element.EndEvent None None.
Definition ex_no : Element := ex_element "no" element.EndEvent None None.
Definition ex_sale : Process := mkProcess [ex_begin; ex_charging_task; ex_which; ex_yes; ex_no] "P" None.
Definition ex_sale_wf : Workflow := mkWorkflow "W" {["P" := ex_sale]} [] [] "" (Some []) ∅ "".
Definition ex_sale_els : gmap string Element := IndexProcessElements (pr_Elements ex_sale) ∅.
Definition ex_stored : @World sim :=
  @w_put sim "default" WfTaskSpec "uid" (DTaskSpec zero)
    (@w_put sim "default" Wf "w" (DWorkflow ex_sale_wf)
      (@w_put sim "default" WfVersion "W" (DVersions (mkWorkflowVersions [mkWorkflowVersion "w" "" 1] false))
        (@w_put sim "default" WfProcess "P" (DBytes "W") world_init))).
Definition ex_paid : Vars := {["paid" := VBool true]}.

Lemma ex_sale_table id i : ex_sale_els !! id = Some i ↔ i ∈ ElementFacts.elements ex_sale_wf ∧ el_Id i = id.
Proof.
  unfold ex_sale_els. rewrite ElementFacts.IndexProcessElements_spec, ElementFacts.by_id_lookup; [|apply (bool_decide_unpack _); vm_compute; exact I].
  rewrite lookup_empty. change (flat_map ElementFacts.subelements (pr_Elements ex_sale)) with (ElementFacts.elements ex_sale_wf). naive_solver.
Qed.

Lemma ex_sale_all (P : Element → Prop) :
  P ex_begin → P ex_charging_task → P ex_which → P ex_yes → P ex_no → ∀ el, el ∈ pr_Elements ex_sale → P el.
Proof.
  intros ????? el. change (pr_Elements ex_sale) with [ex_begin; ex_charging_task; ex_which; ex_yes; ex_no].
  rewrite !elem_of_cons, elem_of_nil. by intros [->|[->|[->|[->|[->|[]]]]]].
Qed.

Lemma ex_sale_launchable : @launchable sim "default" "cid" ∅ "P" "W" "w" ex_sale_wf ex_sale ex_stored.
Proof.
  split; try reflexivity.
  - eexists _, _. split_and!; reflexivity.
  - exists []. split; [reflexivity|by left].
  - refine (ex_sale_all _ _ _ _ _ _); try done. intros _. by exists "uid", zero.
  - refine (ex_sale_all _ _ _ _ _ _); try (intros [Ht _]; done). intros (_ & v & Hv & s & Hs & Hd). injection Hv as <-.
    assert (DTaskSpec s = DTaskSpec zero) as Hz by (enough (Some (DTaskSpec s) = Some (DTaskSpec zero)) by congruence; by rewrite <-Hs).
    injection Hz as ->. discriminate Hd.
Qed.

(** What the client makes of the task. *)
Lemma ex_sale_charged :
  done_by_client (ex_client ex_charged) "default" ex_stored ex_charging_task ""
    (ex_bytes ex_paid).
Proof.
  exists "uid", zero, (λ _ _ _, mret (Some ex_charged, None)), "", ∅, ex_charged, (ex_bytes ex_charged).
  split; try reflexivity.
  - by left.
  - intros tc jc w. by split.
  - intros k e. change (el_OutputTransform ex_charging_task) with ({["paid" := "=charged"]} : gmap string string).
    intros [<- <-]%lookup_singleton_Some. exists ["charged"]. split; [reflexivity|].
    apply List.Forall_cons; [by eexists|apply List.Forall_nil].
  - exists ex_charged, ∅, ex_paid. split_and!.
    + right. split; [discriminate|vm_compute; reflexivity].
    + by left.
    + split; [vm_compute; reflexivity|]. intros k e. change (el_OutputTransform ex_charging_task) with ({["paid" := "=charged"]} : gmap string string).
      intros [<- <-]%lookup_singleton_Some. by exists (VBool true).
    + vm_compute. reflexivity.
Qed.

Lemma launched_process_ends_witness :
  ∃ w' eid pid,
    @Launch sim (ectx "default" "cid" ∅) "P" "" "" ex_stored = (w', Ok (eid, "w")) ∧
    @always_ends sim ex_server ex_workers documented_subjects (ex_client ex_charged)
      (@finished sim documented_subjects "default" eid pid ex_stored ["begin"; "charge"; "which"; "yes"])
      (w', @deliveries sim documented_subjects (ex_client ex_charged) (drop (length (w_out ex_stored)) (w_out w'))).
Proof.
  apply (@launched_process_ends sim (Sim_ok _ _ _) ex_server ex_workers documented_subjects (ex_client ex_charged) "default" "cid" ∅ "P" "W" "w"
    ex_sale_wf ex_sale ex_sale_els "" ∅ ex_begin ex_charging_task [ex_charging_task; ex_which; ex_yes] "" "" ex_stored).
  - exact sim_NoFaults.
  - exact sim_ColdCache.
  - discriminate.
  - reflexivity.
  - reflexivity.
  - reflexivity.
  - intros u Hu. change (u ∈ ({["uid"]} : gset string)) in Hu. apply elem_of_singleton in Hu as ->. split_and!; [reflexivity|reflexivity|discriminate|discriminate].
  - intros fn ctx name. reflexivity.
  - reflexivity.
  - apply ex_sale_launchable.
  - intros k d Hk. unfold ex_stored in Hk. rewrite !w_get_put_ne in Hk by discriminate. by rewrite w_get_init in Hk.
  - split; [reflexivity|]. exists ∅. split; [by left|]. intros el k ex Hel. revert k ex. revert el Hel. by refine (ex_sale_all _ _ _ _ _ _).
  - apply (bool_decide_unpack _). vm_compute. exact I.
  - apply ex_sale_table.
  - split_and!; [reflexivity|discriminate|discriminate|reflexivity].
  - reflexivity.
  - by left.
  - reflexivity.
  - exists ex_to_charge, (λ _, true), (mkTarget "f" [] "charge").
    split_and!; [reflexivity..|apply (bool_decide_unpack _); vm_compute; exact I|by left|].
    intros t ->%list_elem_of_singleton. split; [constructor|].
    exists ex_charging_task. split_and!; [reflexivity|discriminate|reflexivity].
  - eapply (route_task _ _ _ _ _ _ _ _ ex_paid _ ex_which); [|exact ex_sale_charged| | |].
    { split_and!; [reflexivity|discriminate|discriminate|reflexivity]. }
    { right. split; [discriminate|vm_compute; reflexivity]. }
    { exists ex_to_choice, (λ _, true), (mkTarget "f0" [] "which").
      split_and!; [reflexivity..|apply (bool_decide_unpack _); vm_compute; exact I|by left|].
      intros t ->%list_elem_of_singleton. split; [constructor|].
      exists ex_which. split_and!; [reflexivity|by eexists|reflexivity]. }
    apply (route_on _ _ _ _ _ _ _ ex_which ex_yes); [|reflexivity| | |].
    { split_and!; [reflexivity|discriminate|by eexists|reflexivity]. }
    { right. split; [discriminate|vm_compute; reflexivity]. }
    { exists ex_way, (λ t, bool_decide (tg_Id t = "f1")), (mkTarget "f1" ["=paid"] "yes").
      split_and!; [reflexivity..|apply (bool_decide_unpack _); vm_compute; exact I|by left|].
      intros t Ht. change (tgs_Target ex_way) with [mkTarget "f1" ["=paid"] "yes"; mkTarget "f2" ["false"] "no"] in Ht.
      rewrite !elem_of_cons, elem_of_nil in Ht. destruct Ht as [->|[->|[]]].
      - split; [by repeat constructor|]. exists ex_yes. split_and!; [reflexivity|discriminate|reflexivity].
      - split; [by constructor|]. exists ex_no. split_and!; [reflexivity|discriminate|reflexivity]. }
    apply route_end; try reflexivity. right. split; [discriminate|vm_compute; reflexivity].
Defined.
