(* ===== verification/Mail.v ===== *)
(** * A message on its way

    The way of a message from a client to the jobs that wait for it: [SendMessage]
    of [client/client.go] ([Client]), the request to the API ([Api]), the message the
    server publishes ([mail]), and the engine's consumer of messages ([Handlers]),
    where it meets the jobs ([Exchange]).

    [sent_message_arrives]: whatever the order in which the engine takes the message
    and the jobs start to wait, every waiting job is completed once, with the
    variables the client sent. *)
From S2P Require Import Prelude Model Errors Env Sim Common Wp NatsUtil Vars Publish History Instances Lifecycle Lookups TaskSpec Store Launch Jobs Traverse Flows Gateway Messages Exchange Process Handlers Api Calls ClientTask Client Worker Work Engine.

(** The message the server publishes. *)
Definition mail (ctx : Ctx) (ns cid name key : string) (b : bytes) : Msg :=
  mkMsg (Sprintf1 messages.WorkflowMessage ns)
    (<[header.SharNamespace := ns]> (<[header.CorrelationHeader := cid]> (header.toMsg (ctx_Values ctx) ∅)))
    (Marshal (mkMessageInstance name key b)).

Section mail_facts.
Context `{EnvOk} `{ApiEnv} `{ClientEnv}.

Lemma mail_header ctx ns cid name key b k :
  HasPrefix k header.natsSharHeader = false →
  msg_Header (mail ctx ns cid name key b) !! k =
    (<[header.SharNamespace := ns]> {[header.CorrelationHeader := cid]} : gmap string string) !! k.
Proof.
  intros Hk. simpl. destruct (decide (header.SharNamespace = k)) as [<-|Hn]; [by rewrite !lookup_insert_eq|].
  rewrite !(lookup_insert_ne _ header.SharNamespace) by done.
  destruct (decide (header.CorrelationHeader = k)) as [<-|Hc]; [by rewrite lookup_insert_eq, lookup_singleton_eq|].
  rewrite lookup_insert_ne, lookup_singleton_ne by done.
  unfold header.toMsg. rewrite lookup_union_r; [by rewrite lookup_empty|].
  apply lookup_kmap_None; [apply _|]. intros i ->. exfalso. revert Hk. clear. by destruct i.
Qed.

(** The context the engine makes of it is the client's. *)
Lemma executeCtx_mail ctx ns cid name key b :
  executeCtx background (mail ctx ns cid name key b) = mkCtx (Some ns) (Some cid) (ctx_Values ctx).
Proof.
  unfold executeCtx, HeaderGet, header.FromMsgHeaderToCtx, SetNS. rewrite !mail_header by done. simpl.
  rewrite !insert_toMsg, HeaderFacts.fromMsg_toMsg; [|by intros k v; rewrite !lookup_insert_Some, lookup_empty; naive_solver|done..].
  done.
Qed.

(** The engine's consumer lets the message meet its receivers. *)
Lemma consume_mail ctx ns cid name key b w w' :
  ns ≠ "" →
  meet (mkCtx (Some ns) (Some cid) (ctx_Values ctx)) name key (mkSender b key) None w = (w', Ok tt) →
  consume MessageConsumer (mail ctx ns cid name key b) w = (w', Ok tt).
Proof.
  intros Hns Hm. simpl. unfold process_message, HeaderGet. rewrite !mail_header by done.
  rewrite lookup_insert_eq. simpl. rewrite bool_decide_false by done.
  rewrite !lookup_insert_ne, !lookup_singleton_ne by done. simpl.
  unfold handle_message. rewrite executeCtx_mail. unfold processMessage, or_unmarshal.
  change (msg_Data _) with (Marshal (mkMessageInstance name key b)). rewrite Unmarshal_Marshal.
  unfold or_return. simpl. unfold meet in Hm. unfold mbind, gom_bind, attempt. rewrite Hm. done.
Qed.

(** A loop whose turns all succeed, with other turns that succeed where those do. *)
Lemma for_each_imitated {A} (l : list A) (f g : A → M unit) w w' :
  (∀ x w w1, x ∈ l → f x w = (w1, Ok tt) → g x w = (w1, Ok tt)) →
  for_each l f w = (w', Ok tt) → for_each l g w = (w', Ok tt).
Proof.
  revert w. induction l as [|x l IH]; intros w Hg; simpl; [done|]. unfold mbind, gom_bind.
  destruct (f x w) as [w1 [[]|e|p]] eqn:Hf; [|done..]. rewrite (Hg x w w1) by (done || by left).
  apply IH. intros y w2 w3 Hy. apply Hg. by right.
Qed.

(** Sending: nobody is asked whether the client may. *)
Lemma wp_SendMessage (NF : NoFaults) c ctx name key mvars b w Φ :
  compatible (cl_ExpectedCompatibleServerVersion c) → Sprint_v key ≠ "" →
  msgpack_marshal mvars = inl b →
  (∀ w' cid, w' ≡ w_pub (mail ctx (cl_ns c) cid name (Sprint_v key) b) w → Φ w' (Ok tt)) →
  wp (client.SendMessage c ctx name key (Some mvars)) w Φ.
Proof.
  intros Hc Hk Hb HΦ. unfold client.SendMessage, EncodeVars, deref. wp_steps. unfold Encode. rewrite Hb. wp_steps.
  unfold client.call. wp_steps. apply (wp_Call NF _ (cl_ns c)); [done|done|]. intros w1 cid Hw1.
  cbn [serve]. unfold reply_, api.sendMessage. rewrite bool_decide_false by done. wp_steps.
  unfold PublishMsg. simpl. wp_steps. unfold answered. split; [done|]. exists tt. split; [done|].
  apply (HΦ _ cid). unfold mail, GetNS. simpl. by rewrite !w_next_equiv, Hw1.
Qed.

(** (C12) A message that a client sends arrives: the client is told that it was sent, one
    message is published for it, and the engine's consumer of messages, whether it
    takes that message before or after the jobs have started to wait, completes
    every waiting job exactly once with the variables the client sent, and leaves
    the stores as they were. *)
Theorem sent_message_arrives (NF : NoFaults) c ctx name key mvars b expected J rs w :
  let ns := cl_ns c in let skey := Sprint_v key in
  let ectx cid := mkCtx (Some ns) (Some cid) (ctx_Values ctx) in
  compatible (cl_ExpectedCompatibleServerVersion c) → ns ≠ "" → skey ≠ "" → msgpack_marshal mvars = inl b →
  w_get w ns WfMessages (messageKeyFrom [name; skey]) = None →
  (∀ cid, exchange_ok (ectx cid) name expected J w rs) → rs ≠ [] → NoDup rs.*1 →
  (∀ id, id ∈ mr_Id <$> mrs_MessageReceiver expected ↔ id ∈ rs.*1) →
  wp (client.SendMessage c ctx name key (Some mvars)) w (returns (λ w1 _, ∃ cid,
    let m := mail ctx ns cid name skey b in
    w1 ≡ w_pub m w ∧
    ∀ arrivals, arrivals ≡ₚ None :: (Some <$> rs) →
      wp (for_each arrivals (λ a, match a with
            | None => consume MessageConsumer m
            | Some _ => meet (ectx cid) name skey (mkSender b skey) a
            end)) w1
        (returns (λ w2 _, ∃ ms js, js ≡ₚ rs ∧
           Forall2 (delivered (ectx cid) cid (mkSender b skey) J) js ms ∧ w2 ≡ w_pubs ms w1)))).
Proof.
  intros ns skey ectx Hc Hns Hk Hb Hnone Hok Hne Hnd Hexp.
  apply (wp_SendMessage NF c ctx name key mvars b); [done..|]. intros w1 cid Hw1. exists cid. split; [done|].
  intros arrivals Harr.
  assert (wp (for_each arrivals (meet (ectx cid) name skey (mkSender b skey))) w1 (returns (λ w2 _, ∃ ms js,
    js ≡ₚ rs ∧ Forall2 (delivered (ectx cid) cid (mkSender b skey) J) js ms ∧ w2 ≡ w_pubs ms w1))) as Hall.
  { apply (wp_meet_all NF (ectx cid) cid name skey (mkSender b skey) expected J rs w1) with (past := []); try done.
    - by rewrite Hw1.
    - destruct (Hok cid) as [Hj He]. split; intros; rewrite Hw1; [by apply Hj|exact He].
    - intros ->. by apply Permutation_nil_cons in Harr.
    - exists []. split; [by rewrite w_pubs_nil|done]. }
  revert Hall. unfold wp, returns.
  destruct (for_each arrivals (meet _ _ _ _) w1) as [w2 [[]|e|p]] eqn:Hrun; [|done..].
  rewrite (for_each_imitated _ _ (λ a, match a with
            | None => consume MessageConsumer (mail ctx ns cid name skey b)
            | Some _ => meet (ectx cid) name skey (mkSender b skey) a
            end) _ _ ) with (2 := Hrun); [done|].
  intros [er|] w3 w4 _ Hm; [done|]. by apply consume_mail.
Qed.
End mail_facts.

(** ** Example: a payment is sent for which two elements wait *)
Definition ex_mail_vars : Vars := {["amount" := VNum Int8 3]}.
Definition ex_mail_bytes : bytes := match @msgpack_marshal sim ex_mail_vars with inl b => b | inr _ => "" end.

Lemma sent_message_arrives_witness :
  @wp sim _ (@client.SendMessage sim ex_server ex_workers (ex_client ∅) Background "paid" (VString "7") (Some ex_mail_vars))
    ex_exchange_world (returns (λ w1 _, ∃ cid,
      let m := mail Background "default" cid "paid" "7" ex_mail_bytes in
      w1 ≡ w_pub m ex_exchange_world ∧
      ∃ ms js w2, js ≡ₚ ex_receivers ∧ length ms = 2 ∧ w2 ≡ w_pubs ms w1)).
Proof.
  eapply wp_mono; [|apply (@sent_message_arrives sim (Sim_ok _ _ _) ex_server ex_workers sim_NoFaults (ex_client ∅) Background
    "paid" (VString "7") ex_mail_vars ex_mail_bytes ex_expected ex_waiting ex_receivers ex_exchange_world)].
  - intros w1 [[]|e|p]; [|done..]. intros (cid & Hw1 & Harr). exists cid. split; [exact Hw1|].
    specialize (Harr (None :: (Some <$> ex_receivers)) (Permutation_refl _)). revert Harr. unfold wp, returns.
    destruct (for_each _ _ w1) as [w2 [[]|e|p]]; [|done..]. intros (ms & js & Hjs & Hms & Hw2).
    exists ms, js, w2. split; [exact Hjs|]. split; [|exact Hw2].
    apply Forall2_length in Hms. rewrite <-Hms, Hjs. reflexivity.
  - reflexivity.
  - discriminate.
  - discriminate.
  - vm_compute. reflexivity.
  - reflexivity.
  - intros cid. split; [|reflexivity]. intros er Her. unfold ex_receivers in Her.
    rewrite !elem_of_cons, elem_of_nil in Her. destruct Her as [->|[->|[]]]; reflexivity.
  - discriminate.
  - apply (bool_decide_unpack _). vm_compute. exact I.
  - reflexivity.
Defined.
