(* ===== verification/ClientLife.v ===== *)
(** * The life of a client

    [startHeart], [listenTerm] and [Shutdown] of [client/client.go]: the goroutine
    that reports every second that the client is there, and the one that shuts the
    client down when the process is told to end.

    [beating_clients_are_reported]: the clients whose hearts have beaten within the
    time to live of their bucket are those the telemetry timer of the server counts
    ([Once]).  The goroutines are a transition
    system: [taken_signal_exits] says that a signal that is taken ends the process,
    after a shutdown; [signals_ignored] that after a shutdown by the program no
    signal ends it any more. *)
From S2P Require Import Prelude Model Errors Env Sim Common Wp NatsUtil Once Vars Publish History Instances TaskSpec Store Launch Jobs Process Api Calls ClientTask Client Worker Work.

(** ** The heart *)
Section heart.
Context `{Env} `{ApiEnv} `{ClientEnv}.

(** A turn of the loop of [startHeart]: an error is only logged. *)
Definition heart_turn (ctx : Ctx) (c : Client) : M unit :=
  _ ← attempt (client.heartbeat c ctx); mret tt.
End heart.

(** The entry a client keeps alive. *)
Definition client_key (c : string * string) : string := c.1 +:+ "-" +:+ c.2.
Definition key_of `{Env} (c : Client) : string := client_key (cl_host c, cl_id c).

Section heart_facts.
Context `{EnvOk} `{ApiEnv} `{ClientEnv}.

Lemma wp_heart_turn (NF : NoFaults) ctx c w Φ :
  compatible (cl_ExpectedCompatibleServerVersion c) →
  (∀ w' now, w' ≡ w_put (cl_ns c) WfClients (key_of c) (DHeartbeat (mkHeartbeatRequest (cl_host c) (cl_id c) now)) w →
     Φ w' (Ok tt)) →
  wp (heart_turn ctx c) w Φ.
Proof.
  intros Hc HΦ. unfold heart_turn, client.heartbeat. wp_steps. set (now := (time_now _ `div` _)%Z).
  unfold client.call. wp_steps. apply (wp_Call NF _ (cl_ns c)); [done|done|]. intros w1 cid Hw1.
  cbn [serve]. unfold reply_, api.heartbeat, Heartbeat. wp_steps. apply wp_nsKVs; [done|]. intros w2 Hw2 _. wp_steps.
  apply wp_SaveObj; [done|]. intros w3 Hw3.
  wp_steps. unfold answered. split; [done|]. exists tt. split; [done|]. wp_steps.
  apply (HΦ _ now). rewrite Hw3, Hw2, Hw1, !w_next_equiv. done.
Qed.

(** The keys of the clients that are there. *)
Definition live (ns : string) (w : World) : gset string := list_to_set (kv_keys (w_kv w ns WfClients)).

Lemma elem_of_live ns w k : k ∈ live ns w ↔ is_Some (w_get w ns WfClients k).
Proof.
  unfold live. rewrite elem_of_list_to_set, kv_keys_spec. unfold w_get.
  destruct (kv_get (w_kv w ns WfClients) k) as [[d r]|]; simpl; split; intros [x Hx]; done || by eexists.
Qed.

Lemma live_put ns w w' k d : w' ≡ w_put ns WfClients k d w → live ns w' = {[k]} ∪ live ns w.
Proof.
  intros Hw. apply leibniz_equiv. intros k'. rewrite elem_of_union, elem_of_singleton, !elem_of_live, Hw, w_get_put.
  case_decide as Hk; [injection Hk as ->; split; [by left|by eexists]|].
  split; [by right|]. by intros [->|Hl].
Qed.

Lemma size_live ns w : size (live ns w) = length (kv_keys (w_kv w ns WfClients)).
Proof. unfold live. apply size_list_to_set, kv_keys_nodup. Qed.

(** *** The expiry of the entries

    [EnsureBuckets] of [common/natsutil.go]: the time to live of a bucket, in
    milliseconds; [0] is none.  The heart beats once a second so that the entry of
    the client does not go. *)
Definition bucket_ttl (b : Bucket) : Z :=
  match b with
  | WfLock => 30 * 1000
  | WfClients => 1500
  | _ => 0
  end.

(** A namespace over time: the writes of entries of [WfClients] so far, each with
    the time it was done at. *)
Record beating := mkBeating {
  bt_now : Z;
  bt_world : World;
  bt_writes : list (Z * string) }.

(** [k] was written within the time to live of the bucket. *)
Definition fresh (s : beating) (k : string) : Prop :=
  ∃ t, (t, k) ∈ bt_writes s ∧ (bt_now s < t + bucket_ttl WfClients)%Z.

(** Time passes; the heart of a client of the namespace beats; the bucket drops an
    entry that is not fresh; everything else leaves the bucket alone, but may do
    anything to the rest. *)
Inductive beating_step (ctx : Ctx) (ns : string) (s : beating) : beating → Prop :=
  | time_passes t :
      (bt_now s ≤ t)%Z → beating_step ctx ns s (mkBeating t (bt_world s) (bt_writes s))
  | a_heart_beats c w r :
      cl_ns c = ns → compatible (cl_ExpectedCompatibleServerVersion c) →
      heart_turn ctx c (bt_world s) = (w, r) →
      beating_step ctx ns s (mkBeating (bt_now s) w ((bt_now s, key_of c) :: bt_writes s))
  | entry_expires k w :
      ¬ fresh s k → w ≡ w_del ns WfClients k (bt_world s) →
      beating_step ctx ns s (mkBeating (bt_now s) w (bt_writes s))
  | others_go_on w :
      live ns w = live ns (bt_world s) → beating_step ctx ns s (mkBeating (bt_now s) w (bt_writes s)).

(** The entries of the bucket have been written, and the fresh ones are there. *)
Definition kept (ns : string) (s : beating) : Prop :=
  (∀ k, k ∈ live ns (bt_world s) → ∃ t, (t, k) ∈ bt_writes s) ∧
  (∀ k, fresh s k → k ∈ live ns (bt_world s)).

Lemma live_del ns w w' k : w' ≡ w_del ns WfClients k w → live ns w' = live ns w ∖ {[k]}.
Proof.
  intros Hw. apply leibniz_equiv. intros k'. rewrite elem_of_difference, elem_of_singleton, !elem_of_live, Hw, w_get_del.
  case_decide as Hk; [injection Hk as ->; split; [by intros []|by intros [_ []]]|].
  split; [|by intros []]. intros Hl. split; [done|]. by intros ->.
Qed.

Lemma live_beat (NF : NoFaults) ctx c w w' r :
  compatible (cl_ExpectedCompatibleServerVersion c) → heart_turn ctx c w = (w', r) →
  live (cl_ns c) w' = {[key_of c]} ∪ live (cl_ns c) w.
Proof.
  intros Hc Hr.
  enough (wp (heart_turn ctx c) w (λ w' _, live (cl_ns c) w' = {[key_of c]} ∪ live (cl_ns c) w)) as Hw
    by (unfold wp in Hw; by rewrite Hr in Hw).
  apply wp_heart_turn; [done|done|]. intros w1 now Hw1. by apply (live_put _ _ _ _ _ Hw1).
Qed.

Lemma kept_step (NF : NoFaults) ctx ns s s' : beating_step ctx ns s s' → kept ns s → kept ns s'.
Proof.
  unfold kept, fresh. intros Hs [Hw Hf].
  destruct Hs as [t Ht|c w r <- Hc Hr|k w Hk Hd|w Hl]; simpl.
  - split; [done|]. intros k (t' & Hk & Hn). apply Hf. exists t'. split; [done|]. simpl in *. lia.
  - rewrite (live_beat NF _ _ _ _ _ Hc Hr). split; intros k; rewrite elem_of_union, elem_of_singleton.
    + intros [->|Hk]; [exists (bt_now s); left|]. destruct (Hw _ Hk) as [t Ht]. exists t. by right.
    + intros (t & Hk & Hn). apply elem_of_cons in Hk as [[= -> ->]|Hk]; [by left|]. right. apply Hf. eauto.
  - rewrite (live_del _ _ _ _ Hd). split; intros k'; rewrite elem_of_difference, elem_of_singleton.
    + intros [Hk' _]. by apply Hw.
    + intros Hk'. split; [by apply Hf|]. by intros ->.
  - by rewrite Hl.
Qed.

(** (C40) Whatever hearts of clients whose version the server takes beat in a
    namespace and whenever, with entries expiring in between: the entries in the
    bucket of clients are at any time of clients whose heart has beaten, among them
    every client that has beaten within the time to live of the bucket, 1.5 s, and
    only those once the bucket has dropped what has expired.  The turn of the
    telemetry timer then publishes their number, or nothing when there is none, and
    changes nothing else. *)
Theorem beating_clients_are_reported (NF : NoFaults) marshal_Count ctx ns s s' :
  kept ns s → rtc (beating_step ctx ns) s s' →
  (∀ k, k ∈ live ns (bt_world s') → ∃ t, (t, k) ∈ bt_writes s') ∧
  (∀ k, fresh s' k → k ∈ live ns (bt_world s')) ∧
  ∀ m b clients,
    (∀ k, k ∈ live ns (bt_world s') → fresh s' k) →
    (∀ k, k ∈ clients ↔ fresh s' k) →
    filter (λ m, msg_Subject m = WorkflowTelemetryTimer) (w_out (bt_world s')) !!
      default 0 (w_acked (bt_world s') !! "server_telemetry_trigger") = Some m →
    marshal_Count (wrap32 (Z.of_nat (size (clients : gset string)))) = inl b →
    let '(w, r) := telemetry_turn marshal_Count ns (bt_world s') in
    r = Ok true ∧
    w ≡ (if decide (clients = ∅) then bt_world s'
         else w_pub (mkMsg WorkflowTelemetryClientCount ∅ (DBytes b)) (bt_world s')).
Proof.
  intros Hk Hr.
  assert (kept ns s') as [Hwr Hfr].
  { refine (rtc_invariant (beating_step ctx ns) (kept ns) s s' _ Hk Hr). intros; by eapply kept_step. }
  split_and!; [done|done|]. intros m b clients Hs Hc Hm Hb.
  assert (clients = live ns (bt_world s')) as -> by (apply leibniz_equiv; intros k; rewrite Hc; naive_solver).
  rewrite size_live in Hb.
  pose proof (clients_are_reported marshal_Count NF ns (bt_world s') m b Hm Hb) as Ht.
  destruct (telemetry_turn marshal_Count ns (bt_world s')) as [w'' r]. destruct Ht as [-> Hw'']. split; [done|].
  rewrite Hw''. unfold live. destruct (kv_keys (w_kv (bt_world s') ns WfClients)) as [|k ks]; simpl.
  - by rewrite decide_True.
  - rewrite decide_False; [done|set_solver].
Qed.
End heart_facts.

(** ** The goroutines *)

(** The goroutine of [startHeart]: at its [select], in the call, asleep. *)
Inductive heart := HLooks | HCalls | HSleeps | HGone.

(** Who calls [Shutdown]: the program, or the goroutine of [listenTerm], which is
    at its [select] before. *)
Inductive caller := Before | Calls | Inside | Blocked | After.

(** [shutdownOnce] *)
Inductive once := Unused | Busy | Spent.

Record living := mkLiving {
  lv_closer : bool;          (* the closer is closed *)
  lv_heart : heart;
  lv_beats : nat;            (* heartbeats that were sent *)
  lv_processing : nat;       (* [c.processing] *)
  lv_once : once;
  lv_program : caller;
  lv_term : option caller;   (* [None]: the goroutine has returned *)
  lv_lost : nat;             (* signals nobody took *)
  lv_exited : bool }.        (* [os.Exit] was called *)

#[export] Instance living_settable : Settable living := λ r,
  mkLiving (lv_closer r) (lv_heart r) (lv_beats r) (lv_processing r) (lv_once r) (lv_program r)
    (lv_term r) (lv_lost r) (lv_exited r).

Definition listening : living := mkLiving false HLooks 0 0 Unused Before (Some Before) 0 false.

(** One step of [c.shutdownOnce.Do(...)] of a caller: the first is let in and
    closes the closer; the others are blocked until it is out. *)
Inductive once_move (s : living) : caller → caller → living → Prop :=
  | once_first : lv_once s = Unused →
      once_move s Calls Inside (s <| lv_once := Busy |> <| lv_closer := true |>)
  | once_busy : lv_once s = Busy → once_move s Calls Blocked s
  | once_spent : lv_once s = Spent → once_move s Calls After s
  | once_polls : lv_processing s = 0 → once_move s Inside After (s <| lv_once := Spent |>)
  | once_released : lv_once s = Spent → once_move s Blocked After s.

(** The channel of signals has no buffer, and [signal.Notify] does not wait: a
    signal that finds nobody at the [select] is lost. *)
Inductive living_step : living → living → Prop :=
  | heart_stops s : lv_heart s = HLooks → lv_closer s = true → living_step s (s <| lv_heart := HGone |>)
  | heart_calls s : lv_heart s = HLooks → lv_closer s = false → living_step s (s <| lv_heart := HCalls |>)
  | heart_beats s : lv_heart s = HCalls → living_step s (s <| lv_heart := HSleeps |> <| lv_beats ::= S |>)
  | heart_wakes s : lv_heart s = HSleeps → living_step s (s <| lv_heart := HLooks |>)
  | task_begins s : living_step s (s <| lv_processing ::= S |>)
  | task_ends s : lv_processing s ≠ 0 → living_step s (s <| lv_processing ::= pred |>)
  | program_calls s : lv_program s = Before → living_step s (s <| lv_program := Calls |>)
  | program_moves s p s' : once_move s (lv_program s) p s' → living_step s (s' <| lv_program := p |>)
  | signal_taken s : lv_term s = Some Before → living_step s (s <| lv_term := Some Calls |>)
  | signal_lost s : lv_term s ≠ Some Before → living_step s (s <| lv_lost ::= S |>)
  | term_closed s : lv_term s = Some Before → lv_closer s = true → living_step s (s <| lv_term := None |>)
  | term_moves s c p s' : lv_term s = Some c → once_move s c p s' → living_step s (s' <| lv_term := Some p |>)
  | term_exits s : lv_term s = Some After → living_step s (s <| lv_exited := true |>).

(** A step of a process that has not exited. *)
Definition life_step (s s' : living) : Prop := lv_exited s = false ∧ living_step s s'.

(** *** Invariants *)
Record life_inv (s : living) : Prop := {
  vi_closer : lv_closer s = true ↔ lv_once s ≠ Unused;
  vi_busy : lv_once s = Busy ↔ lv_program s = Inside ∨ lv_term s = Some Inside;
  vi_one : ¬ (lv_program s = Inside ∧ lv_term s = Some Inside);
  vi_after : lv_program s = After ∨ lv_term s = Some After → lv_once s = Spent;
  vi_gone : lv_term s = None → lv_closer s = true;
  vi_blocked : lv_term s = Some Blocked → lv_once s ≠ Unused;
  vi_exited : lv_exited s = true → lv_once s = Spent }.

Lemma life_inv_step s s' : life_step s s' → life_inv s → life_inv s'.
Proof.
  intros [_ Hs] [H1 H2 H3 H4 H5 H6 H7]. destruct Hs as [| | | | | | |s p s' Hm| | | |s c p s' Ht Hm|].
  all: try (inversion Hm; subst; clear Hm). all: match goal with v : living |- _ => destruct v end; simpl in *.
  all: split; simpl; naive_solver.
Qed.

Lemma reachable_life s : rtc life_step listening s → life_inv s.
Proof.
  apply (rtc_invariant life_step life_inv); [intros; by eapply life_inv_step|].
  split; simpl; intuition congruence.
Qed.

(** *** A signal that is taken *)
Definition taken (s : living) : Prop := ∃ c, lv_term s = Some c ∧ c ≠ Before.

Lemma taken_step s s' : life_step s s' → taken s → taken s'.
Proof.
  intros [_ Hs] (c & Hc & Hn). unfold taken. destruct Hs as [| | | | | | |s p s' Hm| | | |s d p s' Ht Hm|].
  all: try (inversion Hm; subst; clear Hm); simpl; try (by eauto); try congruence.
  all: eexists; split; [done|]; done.
Qed.

Definition exits (s : living) : Prop := ∃ s', rtc life_step s s' ∧ lv_exited s' = true ∧ lv_once s' = Spent.

Lemma exits_step s s' : life_step s s' → exits s' → exits s.
Proof. intros Hs (s'' & Hr & He). exists s''. split; [by eapply rtc_l|done]. Qed.

(** Tasks can end. *)
Lemma exits_drained s : lv_exited s = false → exits (s <| lv_processing := 0 |>) → exits s.
Proof.
  destruct s as [cl h b n o pr tm l e]; simpl. intros He.
  induction n as [|n IH]; [done|]. intros H0.
  apply (exits_step _ (mkLiving cl h b n o pr tm l e)); [|by apply IH].
  split; [done|]. by apply (task_ends (mkLiving cl h b (S n) o pr tm l e)).
Qed.

Lemma exits_after s : life_inv s → lv_exited s = false → lv_term s = Some After → exits s.
Proof.
  intros Hi He Ht. eapply exits_step; [split; [done|by apply term_exits]|].
  eexists. split; [apply rtc_refl|]. split; [done|]. apply (vi_after _ Hi). by right.
Qed.

Ltac term_goes rule :=
  match goal with
  | Hi : life_inv ?s, He : lv_exited ?s = false |- exits ?s =>
      let Hs := fresh "Hs" in
      eassert (life_step s _) as Hs by (split; [exact He|eapply term_moves; [eassumption|by apply rule]]);
      eapply exits_step; [exact Hs|]; apply (life_inv_step _ _ Hs) in Hi; clear Hs
  end.

Lemma exits_spent s c :
  life_inv s → lv_exited s = false → lv_term s = Some c → c = Calls ∨ c = Blocked → lv_once s = Spent → exits s.
Proof.
  intros Hi He Ht [-> | ->] Ho; [term_goes once_spent|term_goes once_released]; by apply exits_after.
Qed.

Lemma inv_drained s : life_inv s → life_inv (s <| lv_processing := 0 |>).
Proof. intros []. by split. Qed.

Lemma exits_inside s : life_inv s → lv_exited s = false → lv_term s = Some Inside → exits s.
Proof.
  intros Hi He Ht. apply exits_drained; [done|]. apply inv_drained in Hi.
  set (d := s <| lv_processing := 0 |>) in *. assert (lv_exited d = false) by done.
  assert (lv_term d = Some Inside) by done. term_goes once_polls. by apply exits_after.
Qed.

Lemma exits_blocked s : life_inv s → lv_exited s = false → lv_term s = Some Blocked → exits s.
Proof.
  intros Hi He Ht. destruct (lv_once s) eqn:Ho.
  - by destruct (vi_blocked _ Hi Ht).
  - assert (lv_program s = Inside) as Hp by (destruct (proj1 (vi_busy _ Hi) Ho); congruence).
    apply exits_drained; [done|]. apply inv_drained in Hi. set (d := s <| lv_processing := 0 |>) in *.
    assert (life_step d (d <| lv_once := Spent |> <| lv_program := After |>)) as Hs.
    { split; [done|]. apply program_moves. change (lv_program d) with (lv_program s). rewrite Hp. by apply once_polls. }
    eapply exits_step; [exact Hs|]. apply (life_inv_step _ _ Hs) in Hi.
    apply (exits_spent _ Blocked); [done|done|done|by right|done].
  - apply (exits_spent _ Blocked); [done|done|done|by right|done].
Qed.

Lemma taken_exits s : life_inv s → taken s → exits s.
Proof.
  intros Hi (c & Ht & Hn). destruct (lv_exited s) eqn:He.
  { exists s. split; [apply rtc_refl|]. split; [done|by apply vi_exited]. }
  destruct c; [done| |by apply exits_inside|by apply exits_blocked|by apply exits_after].
  destruct (lv_once s) eqn:Ho.
  - term_goes once_first. by apply exits_inside.
  - term_goes once_busy. by apply exits_blocked.
  - by apply (exits_spent _ Calls); auto.
Qed.

(** A signal that the client takes ends the process, and not before a shutdown has
    waited for the tasks: whatever the program, the heart and the tasks do
    afterwards, also when the program shuts the client down at the same time, the
    process can still come to its end, and has then been shut down. *)
Theorem taken_signal_exits s s' :
  rtc life_step listening s → lv_term s = Some Before → lv_exited s = false →
  rtc life_step (s <| lv_term := Some Calls |>) s' →
  (lv_exited s' = true → lv_once s' = Spent) ∧
  ∃ s'', rtc life_step s' s'' ∧ lv_exited s'' = true ∧ lv_once s'' = Spent.
Proof.
  intros Hs Ht He Hr.
  assert (life_step s (s <| lv_term := Some Calls |>)) as H1 by (split; [done|by apply signal_taken]).
  assert (life_inv s') as Hi by (apply reachable_life; etrans; [exact Hs|by eapply rtc_l]).
  split; [by apply vi_exited|]. apply taken_exits; [done|].
  eapply (rtc_invariant life_step taken); [intros; by eapply taken_step| |exact Hr]. by exists Calls.
Qed.

(** Once the closer is closed at most the heartbeat that is being sent is sent. *)
Theorem closed_heart_stops s s' :
  lv_closer s = true → rtc life_step s s' →
  lv_beats s' ≤ lv_beats s + match lv_heart s with HCalls => 1 | _ => 0 end.
Proof.
  intros Hc Hr. set (due := λ s, lv_beats s + match lv_heart s with HCalls => 1 | _ => 0 end).
  enough (lv_closer s' = true ∧ due s' ≤ due s) as [_ H] by (subst due; simpl in *; lia).
  eapply (rtc_invariant life_step (λ v, lv_closer v = true ∧ due v ≤ due s)); [|split; [done|lia]|exact Hr].
  subst due. intros v v' [_ Hs] [Hv Hd]. destruct Hs as [| | | | | | |v p v' Hm| | | |v c p v' Ht Hm|].
  all: try (inversion Hm; subst; clear Hm).
  all: repeat match goal with v : living |- _ => destruct v end; simpl in *; subst; split; try done; simpl in *; lia || congruence.
Qed.

(** After a shutdown by the program nothing ends the process any more: the goroutine
    that takes the signals has returned, but they are still sent to its channel. *)
Theorem signals_ignored :
  ∃ s, rtc life_step listening s ∧ lv_program s = After ∧
    ∀ s', rtc life_step s s' → lv_exited s' = false.
Proof.
  exists (mkLiving true HLooks 0 0 Spent After None 0 false). split; [|split; [done|]].
  - eapply rtc_l; [split; [done|by apply program_calls]|].
    eapply rtc_l; [split; [done|by apply program_moves, once_first]|].
    eapply rtc_l; [split; [done|by apply program_moves, once_polls]|].
    apply rtc_once. split; [done|by apply term_closed].
  - intros s' Hr. enough (lv_term s' = None ∧ lv_exited s' = false) by tauto.
    refine (rtc_invariant life_step (λ v, lv_term v = None ∧ lv_exited v = false) _ s' _ _ Hr); [|by split].
    intros v v' [_ Hs] [Ht He]. destruct Hs as [| | | | | | |v p v' Hm| | | |v c p v' Hc Hm|].
    all: try (inversion Hm; subst; clear Hm); simpl in *; naive_solver.
Qed.

(** ** Examples *)

(** A client that has not beaten for 1.5 s is dropped, and another that beats goes
    on being counted. *)
Definition ex_alive : @Client sim := @mkClient sim "1" "host" "default" ∅ ∅ ∅ ∅ ∅ (Some "v1.1.503") true.

Definition ex_beaten : @World sim * res error unit :=
  @heart_turn sim ex_server ex_workers Background ex_alive ex_timer_world.

Definition ex_expired : @World sim := @w_del sim "default" WfClients "c1" ex_beaten.1.

Lemma beating_clients_are_reported_witness :
  (@telemetry_turn sim ex_count "default" ex_expired).2 = Ok true ∧
  (@telemetry_turn sim ex_count "default" ex_expired).1 ≡
    w_pub (mkMsg WorkflowTelemetryClientCount ∅ (DBytes "1")) ex_expired.
Proof.
  assert (∀ t w l k, @fresh sim (@mkBeating sim t w l) k ↔ Exists (λ p, p.2 = k ∧ t < p.1 + 1500)%Z l) as Hf.
  { intros t w l k. unfold fresh. rewrite Exists_exists. split.
    - intros (u & Hu & Ht). exists (u, k). done.
    - intros ([u k'] & Hu & <- & Ht). by exists u. }
  assert (@live sim "default" ex_timer_world = {["c1"]}) as Hl by (apply (bool_decide_unpack _); vm_compute; exact I).
  assert (@live sim "default" ex_expired = {["host-1"]}) as Hl' by (apply (bool_decide_unpack _); vm_compute; exact I).
  pose proof (@beating_clients_are_reported sim (Sim_ok _ _ _) ex_server ex_workers sim_NoFaults ex_count
    Background "default" (@mkBeating sim 0 ex_timer_world [(0%Z, "c1")])
    (@mkBeating sim 2000 ex_expired [(1000%Z, "host-1"); (0%Z, "c1")])) as Hb.
  destruct Hb as (_ & _ & Ht).
  - split; cbn [bt_world bt_writes]; rewrite Hl; intros k; rewrite elem_of_singleton.
    + intros ->. exists 0%Z. by left.
    + rewrite Hf, Exists_cons, Exists_nil. by intros [[<- _]|[]].
  - apply (rtc_l _ _ (@mkBeating sim 1000 ex_timer_world [(0%Z, "c1")]));
      [by apply (time_passes Background "default" (@mkBeating sim 0 ex_timer_world [(0%Z, "c1")]) 1000%Z)|].
    apply (rtc_l _ _ (@mkBeating sim 1000 ex_beaten.1 [(1000%Z, "host-1"); (0%Z, "c1")])).
    { assert (@key_of sim ex_alive = "host-1") as <- by reflexivity.
      apply (a_heart_beats Background "default" (@mkBeating sim 1000 ex_timer_world [(0%Z, "c1")]) ex_alive
        ex_beaten.1 ex_beaten.2); [done|reflexivity|apply surjective_pairing]. }
    apply (rtc_l _ _ (@mkBeating sim 2000 ex_beaten.1 [(1000%Z, "host-1"); (0%Z, "c1")]));
      [by apply (time_passes Background "default" (@mkBeating sim 1000 ex_beaten.1 [(1000%Z, "host-1"); (0%Z, "c1")]) 2000%Z)|].
    apply rtc_once.
    apply (entry_expires Background "default" (@mkBeating sim 2000 ex_beaten.1 [(1000%Z, "host-1"); (0%Z, "c1")]) "c1");
      [|done].
    rewrite Hf, !Exists_cons, Exists_nil. intros [[]|[[_ Hlt]|[]]]; done.
  - cbn [bt_world] in Ht. specialize (Ht (mkMsg WorkflowTelemetryTimer ∅ (DBytes "")) "1" {["host-1"]}).
    destruct (telemetry_turn ex_count "default" ex_expired) as [w r].
    apply Ht.
    + intros k. rewrite Hl', elem_of_singleton, Hf. intros ->. left. split; [reflexivity|simpl; lia].
    + intros k. rewrite elem_of_singleton, Hf, !Exists_cons, Exists_nil. cbn [fst snd].
      split; [intros ->; left; split; [reflexivity|lia]|]. intros [[<- _]|[[_ Hlt]|[]]]; [reflexivity|lia].
    + vm_compute; reflexivity.
    + vm_compute; reflexivity.
Defined.

Lemma taken_signal_exits_witness :
  ∃ s', rtc life_step (listening <| lv_term := Some Calls |>) s' ∧ lv_exited s' = true ∧ lv_once s' = Spent.
Proof. apply (taken_signal_exits listening); [apply rtc_refl|reflexivity|reflexivity|apply rtc_refl]. Defined.

Lemma closed_heart_stops_witness s' :
  rtc life_step (mkLiving true HCalls 3 0 Busy Inside None 0 false) s' → lv_beats s' ≤ 4.
Proof. apply (closed_heart_stops (mkLiving true HCalls 3 0 Busy Inside None 0 false)). reflexivity. Defined.
