(* ===== verification/Pointers.v ===== *)
(** * Pointers into a process

    The tagger and the parser change elements that they reach both through the
    elements of a process and through an index of them by id.  A pointer to an
    element is its position: an index into the elements of the process, followed
    by an index into those of its sub-process, and so on. *)
From S2P Require Import Prelude Model Common.
Import ElementFacts.

Definition ptr : Type := list nat.

Fixpoint el_at (els : list Element) (p : ptr) {struct p} : option Element :=
  match p with
  | [] => None
  | [i] => els !! i
  | i :: p' => e ← els !! i; pr ← el_Process e; el_at (pr_Elements pr) p'
  end.

Fixpoint el_alter (f : Element → Element) (els : list Element) (p : ptr) {struct p} : list Element :=
  match p with
  | [] => els
  | [i] => alter f i els
  | i :: p' =>
      alter (λ e, e <| el_Process ::=
        fmap (λ pr, pr <| pr_Elements ::= λ l, el_alter f l p' |>) |>) i els
  end.

(** [IndexProcessElements], with the pointers it puts into the map. *)
Fixpoint point_element (at_ : ptr) (i : Element) (el : gmap string ptr) {struct i} :
    gmap string ptr :=
  match i with
  | mkElement id _ _ _ _ _ _ pr _ _ _ _ _ _ _ _ _ _ _ _ _ _ =>
      let el := <[id := at_]> el in
      match pr with
      | None => el
      | Some (mkProcess els _ _) =>
          (fix go (n : nat) (l : list Element) (el : gmap string ptr) : gmap string ptr :=
             match l with
             | [] => el
             | j :: l' => go (S n) l' (point_element (at_ ++ [n]) j el)
             end) 0 els el
      end
  end.

Fixpoint point_elements (n : nat) (elements : list Element) (el : gmap string ptr) :
    gmap string ptr :=
  match elements with
  | [] => el
  | i :: rest => point_elements (S n) rest (point_element [n] i el)
  end.

Definition IndexProcessElements_ptr (elements : list Element) : gmap string ptr :=
  point_elements 0 elements ∅.

(** ** Lemmas *)
Lemma el_at_cons els i p :
  p ≠ [] → el_at els (i :: p) = (e ← els !! i; pr ← el_Process e; el_at (pr_Elements pr) p).
Proof. by destruct p. Qed.

Lemma el_at_app els p q :
  p ≠ [] → q ≠ [] →
  el_at els (p ++ q) = (e ← el_at els p; pr ← el_Process e; el_at (pr_Elements pr) q).
Proof.
  revert els. induction p as [|i p IH]; [done|]. intros els _ Hq.
  destruct p as [|j p]; [by destruct q|]. cbn [app].
  rewrite el_at_cons by (by destruct p). rewrite el_at_cons by done.
  destruct (els !! i) as [e|]; [|done]. simpl. destruct (el_Process e) as [pr|]; [|done]. simpl.
  by apply IH.
Qed.

(** A table of pointers stands for the table of the elements they point to. *)
Definition points (els : list Element) (idx : gmap string ptr) (tbl : gmap string Element) : Prop :=
  ∀ id, tbl !! id = (idx !! id ≫= el_at els) ∧ (is_Some (idx !! id) → is_Some (tbl !! id)).

Lemma points_insert els idx tbl p e :
  points els idx tbl → el_at els p = Some e →
  points els (<[el_Id e := p]> idx) (<[el_Id e := e]> tbl).
Proof.
  intros Hp He id. destruct (decide (el_Id e = id)) as [<-|Hne].
  - rewrite !lookup_insert_eq. simpl. split; [done|by eexists].
  - rewrite !lookup_insert_ne by done. apply Hp.
Qed.

Lemma point_element_points all p i idx tbl :
  p ≠ [] → el_at all p = Some i → points all idx tbl →
  points all (point_element p i idx) (index_element i tbl).
Proof.
  revert p idx tbl. induction i as [i IH] using Element_ind'. intros p idx tbl Hp Hi Ht.
  pose proof (points_insert _ _ _ _ _ Ht Hi) as Ht'.
  destruct i as [id ? ? ? ? ? ? [[els pid ts]|]]; simpl in *; [|done].
  specialize (IH _ eq_refl). simpl in IH.
  assert (∀ n j, els !! n = Some j → el_at all (p ++ [n]) = Some j) as Hat.
  { intros n j Hj. rewrite el_at_app by done. by rewrite Hi. }
  clear Ht Hi. revert Ht'. match goal with |- points all ?x ?t → _ => generalize x as idx', t as tbl' end.
  assert (∀ n j, els !! n = Some j → el_at all (p ++ [0 + n]) = Some j) as Hat' by done. clear Hat.
  revert Hat'. generalize 0. induction IH as [|j els Hj _ IHels]; intros k Hat idx' tbl' Ht'; [done|].
  apply IHels.
  - intros n j' Hn. replace (S k + n) with (k + S n) by lia. by apply Hat.
  - apply Hj; [by destruct p| |done]. specialize (Hat 0 j eq_refl). by rewrite Nat.add_0_r in Hat.
Qed.

(** The index of pointers and the index of elements agree. *)
Lemma IndexProcessElements_ptr_points els :
  points els (IndexProcessElements_ptr els) (IndexProcessElements els ∅).
Proof.
  unfold IndexProcessElements_ptr.
  assert (∀ l k idx tbl, (∀ n j, l !! n = Some j → els !! (k + n) = Some j) → points els idx tbl →
    points els (point_elements k l idx) (IndexProcessElements l tbl)) as Hgen.
  { intros l. induction l as [|j l IH]; intros k idx tbl Hl Ht; simpl; [done|]. apply IH.
    - intros n j' Hn. replace (S k + n) with (k + S n) by lia. by apply Hl.
    - apply point_element_points; [done| |done]. specialize (Hl 0 j eq_refl).
      by rewrite Nat.add_0_r in Hl. }
  apply Hgen; [done|]. intros id. by rewrite !lookup_empty.
Qed.

(** Where ids are distinct, the index points to each element at its position. *)
Lemma point_element_ne p i idx id :
  id ∉ el_Id <$> subelements i → point_element p i idx !! id = idx !! id.
Proof.
  revert p idx. induction i as [i IH] using Element_ind'. intros p idx Hid.
  destruct i as [id' ? ? ? ? ? ? [[els pid ts]|]]; simpl in *;
    [|rewrite elem_of_cons in Hid; rewrite lookup_insert_ne; naive_solver].
  specialize (IH _ eq_refl). simpl in IH. apply not_elem_of_cons in Hid as [Hne Hid].
  transitivity (<[id' := p]> idx !! id); [|by rewrite lookup_insert_ne].
  generalize (<[id' := p]> idx). generalize 0.
  induction IH as [|j els Hj _ IHels]; intros k t; [done|]. simpl in Hid.
  rewrite fmap_app, elem_of_app in Hid. rewrite IHels by tauto. apply Hj. tauto.
Qed.

Lemma point_elements_ne k els idx id :
  id ∉ el_Id <$> flat_map subelements els → point_elements k els idx !! id = idx !! id.
Proof.
  revert k idx. induction els as [|i els IH]; intros k idx Hid; simpl in *; [done|].
  rewrite fmap_app, elem_of_app in Hid. rewrite IH by tauto. apply point_element_ne. tauto.
Qed.

Lemma point_element_eq p i idx :
  NoDup (el_Id <$> subelements i) → point_element p i idx !! el_Id i = Some p.
Proof.
  destruct i as [id' ? ? ? ? ? ? [[els pid ts]|]]; simpl; [|by rewrite lookup_insert_eq].
  intros [Hid _]%NoDup_cons. transitivity (<[id' := p]> idx !! id'); [|by rewrite lookup_insert_eq].
  generalize (<[id' := p]> idx). generalize 0.
  induction els as [|j els IHels]; intros k t; [done|]. simpl in Hid.
  rewrite fmap_app, elem_of_app in Hid. rewrite IHels by tauto. apply point_element_ne. tauto.
Qed.

Lemma IndexProcessElements_ptr_lookup els i e :
  NoDup (el_Id <$> flat_map subelements els) → els !! i = Some e →
  IndexProcessElements_ptr els !! el_Id e = Some [i].
Proof.
  unfold IndexProcessElements_ptr. generalize (∅ : gmap string ptr). change i with (0 + i) at 2.
  generalize 0. revert i. induction els as [|j els IH]; intros i k idx Hnd Hi; [done|]. simpl in *.
  rewrite fmap_app in Hnd. apply NoDup_app in Hnd as (Hj & Hdis & Hels).
  destruct i as [|i]; simplify_eq/=.
  - rewrite point_elements_ne; [rewrite Nat.add_0_r; by apply point_element_eq|].
    apply Hdis. destruct e. left.
  - replace (k + S i) with (S k + i) by lia. by apply IH.
Qed.
