(* ===== verification/Linter.v ===== *)
(** * The linter

    [common/linter]: the rules on link events and the directed scan of each
    process from its start events ([linter.go], [directed_scan.go]).  Recursion
    of Go functions over the graph of a process is bounded by the stack, so it
    takes the number of frames that fit as an argument and panics beyond it. *)
From S2P Require Import Prelude Model Errors Env Sim Common Wp.

Inductive MessageType := MessageTypeError | MessageTypeWarning | MessageTypeInfo.

(** [int(x.Type)] *)
Definition MessageType_int (t : MessageType) : nat :=
  match t with MessageTypeError => 0 | MessageTypeWarning => 1 | MessageTypeInfo => 2 end.

Record Message := mkMessage { lm_Type : MessageType; lm_Text : string }.

(** ** The directed scan *)
Record directedTraversalInstruction := mkInstruction {
  EndOfProcess : option (Element → option error);
  Cyclic : option (Element → Element → Element → option error) }.

Definition findProcessStarts (process : Process) : list Element :=
  filter (λ elem, el_Type elem = element.StartEvent ∨ el_Type elem = element.TimedStartEvent)
    (pr_Elements process).

(** [if err := f(...); err != nil { return fmt.Errorf(..., err) }] for a callback
    that may be nil *)
Definition callback `{Env} (msg : string) (r : option (option error)) : M unit :=
  match r with
  | Some (Some err) => throw (Wrap msg err)
  | _ => mret tt
  end.

Section scan.
Context `{Env}.

(** The targets of an element.  Every element the scan reaches is the one the
    index holds under its id, except for start events, so that comparing pointers
    with [srch != el] is comparing ids.  The target of a link is the throwing
    element itself, as the source has it. *)
Definition scan_targets (index : gmap string Element) (el : Element) : M (list string) :=
  if bool_decide (el_Type el = element.LinkIntermediateThrowEvent) then
    els ← range index;
    let target := foldl (λ target srch,
      if bool_decide (el_Id srch.2 ≠ el_Id el ∧ el_Execute srch.2 = el_Execute el)
      then Some el else target) None els in
    match target with
    | None => throw (Wrap ("find element referred to in " +:+ el_Type el +:+ " " +:+ el_Name el +:+
                           "(" +:+ el_Id el +:+ ")") (New "link references non-existent target"))
    | Some target => mret [el_Id target]
    end
  else mret (match el_Outbound el with
             | Some outbound => map tg_Target (tgs_Target outbound)
             | None => []
             end).

(** The loop over the targets, in which [traverse] is the recursive call: a target
    that was visited ends the loop, with the targets after it not looked at. *)
Fixpoint scan_loop (traverse : Element → gmap string Element → M (gmap string Element))
    (el : Element) (instruction : directedTraversalInstruction) (index : gmap string Element)
    (targets : list string) (visited : gmap string Element) : M (gmap string Element) :=
  match targets with
  | [] => mret visited
  | t :: rest =>
      target ← deref "index[t]" (index !! t);
      match visited !! el_Id target with
      | Some otherTarget =>
          _ ← callback "cyclic check found error"
                ((λ f, f el target otherTarget) <$> Cyclic instruction);
          mret visited
      | None =>
          visited ← wrapping (Wrap "") (traverse target (<[el_Id target := el]> visited));
          scan_loop traverse el instruction index rest visited
      end
  end.

Fixpoint directedColouredTraverse (stack : nat) (el : Element) (visited : gmap string Element)
    (instruction : directedTraversalInstruction) (index : gmap string Element) :
    M (gmap string Element) :=
  match stack with
  | O => panic "stack overflow"
  | S stack =>
      targets ← scan_targets index el;
      match targets with
      | [] => _ ← callback "" ((λ f, f el) <$> EndOfProcess instruction); mret visited
      | _ =>
          scan_loop (λ target visited,
            directedColouredTraverse stack target visited instruction index)
            el instruction index targets visited
      end
  end.

Definition startDirectedScan (stack : nat) (process : Process)
    (instruction : directedTraversalInstruction) : M unit :=
  let index := IndexProcessElements (pr_Elements process) ∅ in
  _ ← for_fold (findProcessStarts process) (λ visited start,
        wrapping (Wrap "directed graph scan failed")
          (directedColouredTraverse stack start (<[el_Id start := start]> visited)
             instruction index)) ∅;
  mret tt.

(** ** The rules *)
Definition recognized_end (elem : Element) : option error :=
  if bool_decide (el_Type elem = element.EndEvent ∨ el_Type elem = element.CompensateEndEvent)
  then None
  else Some (Wrap ("last event '" +:+ el_Name elem +:+ "' is " +:+ el_Type elem +:+
                   " not a recognized end event") (Sentinel ErrMissingEndEvent)).

(** A turn of the first loop of [linkEventRules], which collects the catching and
    the throwing elements by the name of their link and reports each name caught
    twice. *)
Definition collect_link (process : Process)
    (acc : gmap string string * gmap string string * list Message) (e : Element) :
    gmap string string * gmap string string * list Message :=
  let '(catch, throw, msgs) := acc in
  let '(catch, msgs) :=
    if bool_decide (el_Type e = element.LinkIntermediateCatchEvent) then
      match catch !! el_Execute e with
      | None => (<[el_Execute e := el_Id e]> catch, msgs)
      | Some x => (catch, msgs ++ [mkMessage MessageTypeError
                     ("Duplicate link catch: " +:+ x +:+ " in " +:+ pr_Id process)])
      end
    else (catch, msgs) in
  let throw :=
    if bool_decide (el_Type e = element.LinkIntermediateThrowEvent)
    then <[el_Execute e := el_Id e]> throw else throw in
  (catch, throw, msgs).

(** The second and third loop: the names of [from] that are not in [to]. *)
Definition unmatched (t : MessageType) (msg : string) (process : Process)
    (from to : gmap string string) (msgs : list Message) : M (list Message) :=
  l ← range from;
  mret (foldl (λ msgs '(k, v),
    match to !! k with
    | Some _ => msgs
    | None => msgs ++ [mkMessage t (msg +:+ k +:+ " in " +:+ v +:+ " in " +:+ pr_Id process)]
    end) msgs l).

Definition linkEventRules (msgs : list Message) (process : Process) : M (list Message) :=
  let '(catch, throw, msgs) := foldl (collect_link process) (∅, ∅, msgs) (pr_Elements process) in
  msgs ← unmatched MessageTypeError "No link catch for throw " process throw catch msgs;
  unmatched MessageTypeWarning "No link throw for catch " process catch throw msgs.

(** [Lint] returns its messages also with an error. *)
Definition Lint (stack : nat) (wf : Workflow) (warningsAsErrors : bool) :
    M (list Message * option error) :=
  let mn := if warningsAsErrors then 1 else 0 in
  ps ← range (wf_Process wf);
  r ← attempt (for_fold ps (λ m p,
        m ← linkEventRules m p.2;
        _ ← wrapping (Wrap "a directed scan of the process revealed errors")
              (startDirectedScan stack p.2 (mkInstruction (Some recognized_end) None));
        mret m) []);
  match r with
  | inr err => mret ([], Some err)
  | inl m =>
      mret (m, if existsb (λ x, MessageType_int (lm_Type x) <=? mn) m
               then Some (Wrap "linter returned errors" (Sentinel ErrLint)) else None)
  end.
End scan.

(** ** Lemmas: the scan *)
Definition flows (el : Element) : list string :=
  match el_Outbound el with Some outbound => map tg_Target (tgs_Target outbound) | None => [] end.

(** The flows of the elements of a process lead to elements of the process. *)
Definition closed (els : list Element) : Prop :=
  ∀ e t, e ∈ flat_map ElementFacts.subelements els → t ∈ flows e →
    t ∈ el_Id <$> flat_map ElementFacts.subelements els.

(** One step along a flow. *)
Definition follows (index : gmap string Element) (a b : Element) : Prop :=
  el_Type a ≠ element.LinkIntermediateThrowEvent ∧ ∃ t, t ∈ flows a ∧ index !! t = Some b.

(** Where a process may not stop: an element without flows that is no end event,
    or the throw of a link that nothing else refers to. *)
Definition dead_end (index : gmap string Element) (el : Element) : Prop :=
  if decide (el_Type el = element.LinkIntermediateThrowEvent)
  then ∀ id e, index !! id = Some e → el_Execute e = el_Execute el → id = el_Id el
  else flows el = [] ∧ el_Type el ≠ element.EndEvent ∧ el_Type el ≠ element.CompensateEndEvent.

Definition lint_rule : directedTraversalInstruction := mkInstruction (Some recognized_end) None.

(** A loop that looks for any element with a property. *)
Lemma foldl_any {A B} (P : A → Prop) `{!∀ x, Decision (P x)} (b : B) (l : list A) (o : option B) :
  foldl (λ o x, if bool_decide (P x) then Some b else o) o l =
  if bool_decide (Exists P l) then Some b else o.
Proof.
  revert o. induction l as [|x l IH]; intros o; cbn [foldl].
  - rewrite bool_decide_eq_false_2; [done|]. intros Hx. inversion Hx.
  - rewrite IH. pose proof (Exists_cons P x l). repeat case_bool_decide; naive_solver.
Qed.

Section scan_lemmas.
Context `{EnvOk} (index : gmap string Element).
Context (Hkey : ∀ id e, index !! id = Some e → el_Id e = id).
Context (Hclosed : ∀ id e t, index !! id = Some e → t ∈ flows e → is_Some (index !! t)).

(** What is left to visit. *)
Definition unvisited (visited : gmap string Element) : nat :=
  size ((dom index : gset string) ∖ dom visited).

Lemma unvisited_mono (v v' : gmap string Element) :
  (dom v : gset string) ⊆ dom v' → unvisited v' ≤ unvisited v.
Proof. intros Hv. unfold unvisited. apply subseteq_size. set_solver. Qed.

Lemma unvisited_insert id x (v : gmap string Element) :
  is_Some (index !! id) → v !! id = None → unvisited (<[id := x]> v) < unvisited v.
Proof.
  intros Hi Hv. unfold unvisited. apply subset_size. rewrite dom_insert. apply elem_of_dom in Hi.
  apply not_elem_of_dom in Hv. set_solver.
Qed.

(** The outcome of a scan from [el]: no panic, and an error only at a dead end. *)
Definition verdict (el : Element) (visited : gmap string Element)
    (r : res error (gmap string Element)) : Prop :=
  match r with
  | Ok v => (dom visited : gset string) ⊆ dom v
  | Err e => ∃ d, rtc (follows index) el d ∧ dead_end index d
  | Panic _ => False
  end.

Lemma wp_scan_targets el w Φ :
  (el_Type el ≠ element.LinkIntermediateThrowEvent → ∀ w', Φ w' (Ok (flows el))) →
  (el_Type el = element.LinkIntermediateThrowEvent → ∀ w', Φ w' (Ok [el_Id el])) →
  (dead_end index el → ∀ w' e, Φ w' (Err e)) →
  wp (scan_targets index el) w Φ.
Proof.
  intros Hflow Hlink Herr. unfold scan_targets. case_bool_decide as Hl; [|by apply wp_ret, Hflow].
  apply wp_bind, wp_range. intros els Hels.
  rewrite (foldl_any (λ srch : string * Element,
    el_Id srch.2 ≠ el_Id el ∧ el_Execute srch.2 = el_Execute el)).
  case_bool_decide as Hex; [by apply wp_ret, Hlink|]. apply wp_throw, Herr.
  unfold dead_end. rewrite decide_True by done. intros id e He Hx.
  destruct (decide (id = el_Id el)) as [|Hne]; [done|]. destruct Hex.
  apply Exists_exists. exists (id, e). rewrite Hels, elem_of_map_to_list. simpl.
  by rewrite (Hkey id e He).
Qed.

Lemma wp_scan_loop traverse el targets visited w :
  (∀ t b v w', t ∈ targets → index !! t = Some b → v !! el_Id b = None →
     (dom visited : gset string) ⊆ dom v →
     wp (traverse b (<[el_Id b := el]> v)) w' (λ _, verdict b v)) →
  (∀ t, t ∈ targets → is_Some (index !! t) ∧
     ∀ b, index !! t = Some b → rtc (follows index) el b) →
  wp (scan_loop traverse el lint_rule index targets visited) w (λ _, verdict el visited).
Proof.
  revert visited w. induction targets as [|t rest IH]; intros visited w Htr Hin; simpl.
  - apply wp_ret. simpl. reflexivity.
  - destruct (Hin t) as [[b Hb] Hr]; [left|]. apply wp_bind, wp_deref. rewrite Hb. cbv beta iota.
    destruct (visited !! el_Id b) as [o|] eqn:Hv.
    + apply wp_bind, wp_ret, wp_ret. simpl. reflexivity.
    + apply wp_bind, wp_wrapping. eapply wp_mono; [|by eapply (Htr t b visited); [left|..]].
      intros w' [v|e|p] Hvd; simpl in *; [|destruct Hvd as (d & Hd & Hdd)|done].
      * eapply wp_mono; [|apply IH].
        -- intros w'' [v'|e|p]; simpl; [set_solver|naive_solver..].
        -- intros t' b' v' w'' ? ? ? ?. eapply Htr; [by right|done..|set_solver].
        -- intros t' ?. apply Hin. by right.
      * exists d. split; [|done]. by etrans; [apply Hr|].
Qed.

(** A scan with a frame for each element left to visit ends without a panic, and
    with an error only where it found a dead end. *)
Lemma wp_directedColouredTraverse stack el visited w :
  unvisited visited < stack →
  (∀ t, t ∈ flows el → is_Some (index !! t)) →
  (el_Type el = element.LinkIntermediateThrowEvent → index !! el_Id el = Some el) →
  is_Some (visited !! el_Id el) →
  wp (directedColouredTraverse stack el visited lint_rule index) w (λ _, verdict el visited).
Proof.
  revert el visited w. induction stack as [|stack IH]; intros el visited w Hs Hfl Hix Hvis; [lia|].
  simpl. apply wp_bind, wp_scan_targets.
  - intros Hty w'. destruct (flows el) as [|t ts] eqn:Hf.
    + unfold callback, recognized_end. simpl. case_bool_decide as He; simpl.
      * apply wp_bind, wp_ret, wp_ret. simpl. reflexivity.
      * apply wp_bind, wp_throw. exists el. split; [done|]. unfold dead_end.
        rewrite decide_False by done. naive_solver.
    + rewrite <-Hf in *. clear Hf. apply wp_scan_loop.
      * intros t' b v w'' Ht' Hb Hv Hsub. eapply wp_mono; [|apply IH].
        -- intros w3 [v'|e|p]; simpl; [|done..]. rewrite dom_insert. set_solver.
        -- pose proof (Hkey _ _ Hb) as Hid. eapply Nat.lt_le_trans; [|apply Nat.lt_succ_r, Hs].
           eapply Nat.lt_le_trans; [apply unvisited_insert|by apply unvisited_mono]; [|done].
           rewrite Hid. by exists b.
        -- intros. by eapply Hclosed.
        -- intros _. by rewrite (Hkey _ _ Hb).
        -- rewrite lookup_insert_eq. by eexists.
      * intros t' Ht'. split; [by apply Hfl|]. intros b Hb. apply rtc_once. split; [done|].
        by exists t'.
  - intros Hty w'. simpl. apply wp_bind, wp_deref. rewrite Hix by done. cbv beta iota.
    destruct Hvis as [o ->]. apply wp_bind, wp_ret, wp_ret. simpl. reflexivity.
  - intros Hd w' e. exists el. by split.
Qed.
End scan_lemmas.

Section scan_theorem.
Context `{EnvOk}.

(** A stack of one frame for each element of the process is enough for the scan,
    it does not dereference a nil element, and it rejects a process only for a
    dead end that is reachable from a start event. *)
Lemma startDirectedScan_verdict pr stack w :
  closed (pr_Elements pr) →
  length (flat_map ElementFacts.subelements (pr_Elements pr)) ≤ stack →
  match (startDirectedScan stack pr lint_rule w).2 with
  | Ok _ => True
  | Err _ => ∃ s d, s ∈ findProcessStarts pr ∧
               rtc (follows (IndexProcessElements (pr_Elements pr) ∅)) s d ∧
               dead_end (IndexProcessElements (pr_Elements pr) ∅) d
  | Panic _ => False
  end.
Proof.
  intros Hcl Hst. set (index := IndexProcessElements (pr_Elements pr) ∅).
  assert (index = ElementFacts.by_id (flat_map ElementFacts.subelements (pr_Elements pr)) ∅) as Hix
    by apply ElementFacts.IndexProcessElements_spec.
  assert (∀ id e, index !! id = Some e → el_Id e = id) as Hkey.
  { rewrite Hix. intros id e. apply ElementFacts.by_id_id. by intros ? ?. }
  assert (∀ e, e ∈ flat_map ElementFacts.subelements (pr_Elements pr) →
    ∀ t, t ∈ flows e → is_Some (index !! t)) as Hfl.
  { intros e He t Ht. rewrite Hix. apply ElementFacts.by_id_is_Some. left. by eapply Hcl. }
  change (wp (startDirectedScan stack pr lint_rule) w (λ _ r, match r with
    | Ok _ => True | Err _ => ∃ s d, s ∈ findProcessStarts pr ∧ rtc (follows index) s d ∧
                                     dead_end index d | Panic _ => False end)).
  unfold startDirectedScan. fold index. apply wp_bind.
  assert (findProcessStarts pr ⊆ findProcessStarts pr) as Hsub by done. revert Hsub.
  generalize (∅ : gmap string Element). generalize (findProcessStarts pr) at 1 3 as ss.
  intros ss. revert w. induction ss as [|s ss IH]; intros w visited Hsub; simpl; [by apply wp_ret|].
  assert (s ∈ findProcessStarts pr) as Hs by (apply Hsub; left).
  pose proof Hs as [Hty Hin]%list_elem_of_filter.
  apply wp_bind, wp_wrapping. eapply wp_mono; [|apply wp_directedColouredTraverse].
  - intros w' [v|e|p]; simpl; [intros _; apply IH; set_solver|naive_solver|done].
  - exact Hkey.
  - intros id e t Hi. apply Hfl. rewrite Hix in Hi.
    apply ElementFacts.by_id_elem in Hi as [?|Hi]; [done|]. by rewrite lookup_empty in Hi.
  - assert (is_Some (index !! el_Id s)).
    { rewrite Hix. apply ElementFacts.by_id_is_Some. left.
      by apply list_elem_of_fmap_2, ElementFacts.subelements_self. }
    eapply Nat.lt_le_trans; [|exact Hst]. eapply Nat.lt_le_trans with (size (dom index : gset string)).
    + unfold unvisited. apply subset_size. rewrite dom_insert.
      apply elem_of_dom in H1. set_solver.
    + rewrite size_dom, Hix. etrans; [apply ElementFacts.by_id_size|]. by rewrite map_size_empty.
  - intros t Ht. eapply Hfl; [by apply ElementFacts.subelements_self|done].
  - intros Hl. exfalso. rewrite Hl in Hty. by destruct Hty.
  - rewrite lookup_insert_eq. by eexists.
Qed.

(** ** Lemmas: links *)

(** The names of the links a process catches and throws. *)
Definition link_names (type : string) (els : list Element) : list string :=
  el_Execute <$> filter (λ e, el_Type e = type) els.

Definition caught (pr : Process) : list string :=
  link_names element.LinkIntermediateCatchEvent (pr_Elements pr).
Definition thrown (pr : Process) : list string :=
  link_names element.LinkIntermediateThrowEvent (pr_Elements pr).

(** Every link has one catch and at least one throw. *)
Definition links_match (pr : Process) : Prop :=
  NoDup (caught pr) ∧ ∀ name, name ∈ thrown pr ↔ name ∈ caught pr.

Lemma link_names_cons ty e els :
  link_names ty (e :: els) =
  if decide (el_Type e = ty) then el_Execute e :: link_names ty els else link_names ty els.
Proof. unfold link_names. rewrite filter_cons. by case_decide. Qed.

Lemma is_Some_insert {V} (m : gmap string V) i j x :
  is_Some (<[i := x]> m !! j) ↔ j = i ∨ is_Some (m !! j).
Proof. rewrite lookup_insert_is_Some'. naive_solver. Qed.

(** What a turn of the loop finds out. *)
Lemma collect_link_spec pr e c t m c' t' m' :
  collect_link pr (c, t, m) e = (c', t', m') →
  (∀ k, is_Some (c' !! k) ↔ k ∈ link_names element.LinkIntermediateCatchEvent [e] ∨ is_Some (c !! k)) ∧
  (∀ k, is_Some (t' !! k) ↔ k ∈ link_names element.LinkIntermediateThrowEvent [e] ∨ is_Some (t !! k)) ∧
  (m' = [] ↔ m = [] ∧ ∀ k, k ∈ link_names element.LinkIntermediateCatchEvent [e] → ¬ is_Some (c !! k)).
Proof.
  unfold collect_link. rewrite !link_names_cons. unfold link_names. cbn [filter list_filter fmap list_fmap].
  assert (∀ x y : string, x ∈ [y] ↔ x = y) as Hs by apply list_elem_of_singleton.
  assert (∀ x : string, ¬ x ∈ []) as Hn by apply not_elem_of_nil.
  repeat case_bool_decide; repeat case_decide; try congruence.
  all: try destruct (c !! el_Execute e) as [x|] eqn:Hc.
  all: intros [= <- <- <-]; repeat setoid_rewrite is_Some_insert; repeat setoid_rewrite Hs.
  all: assert (∀ y : Message, m ++ [y] ≠ []) as Happ by (by intros y []%app_eq_nil).
  all: split_and!; try by naive_solver.
  all: split; [intros Hm; split; [done|intros k -> []; congruence]|by intros []].
Qed.

Lemma collect_links_spec pr els c t m c' t' m' :
  foldl (collect_link pr) (c, t, m) els = (c', t', m') →
  (∀ k, is_Some (c' !! k) ↔ k ∈ link_names element.LinkIntermediateCatchEvent els ∨ is_Some (c !! k)) ∧
  (∀ k, is_Some (t' !! k) ↔ k ∈ link_names element.LinkIntermediateThrowEvent els ∨ is_Some (t !! k)) ∧
  (m' = [] ↔ m = [] ∧ NoDup (link_names element.LinkIntermediateCatchEvent els) ∧
     ∀ k, k ∈ link_names element.LinkIntermediateCatchEvent els → ¬ is_Some (c !! k)).
Proof.
  revert c t m. induction els as [|e els IH]; intros c t m; cbn [foldl].
  - intros [= <- <- <-]. unfold link_names. simpl. pose proof (@NoDup_nil string).
    assert (∀ x : string, ¬ x ∈ []) by apply not_elem_of_nil. naive_solver.
  - destruct (collect_link pr (c, t, m) e) as [[c1 t1] m1] eqn:He. intros Hr.
    apply collect_link_spec in He as (Hc & Ht & Hm). apply IH in Hr as (Hc' & Ht' & Hm').
    assert (∀ ty, link_names ty (e :: els) = link_names ty [e] ++ link_names ty els) as Happ.
    { intros ty. rewrite !link_names_cons. by case_decide. }
    rewrite !Happ. repeat setoid_rewrite elem_of_app. split_and!.
    + intros k. rewrite Hc', Hc. tauto.
    + intros k. rewrite Ht', Ht. tauto.
    + rewrite Hm', Hm, NoDup_app. setoid_rewrite Hc.
      assert (NoDup (link_names element.LinkIntermediateCatchEvent [e])).
      { rewrite link_names_cons. case_decide; [apply NoDup_singleton|apply NoDup_nil_2]. }
      naive_solver.
Qed.

Lemma unmatched_clean t msg pr (from to : gmap string string) msgs w w' msgs' :
  unmatched t msg pr from to msgs w = (w', Ok msgs') →
  msgs' = [] ↔ msgs = [] ∧ ∀ k, is_Some (from !! k) → is_Some (to !! k).
Proof.
  intros [= <- <-]. set (l := map_order _ _ _).
  assert (∀ k, is_Some (from !! k) ↔ k ∈ l.*1) as Hl.
  { intros k. unfold l. rewrite map_order_perm, list_elem_of_fmap. split.
    - intros [v Hv]. exists (k, v). by rewrite elem_of_map_to_list.
    - intros ([k' v] & -> & Hv). apply elem_of_map_to_list in Hv. by eexists. }
  setoid_rewrite Hl. clear Hl. revert msgs. induction l as [|[k v] l IH]; intros msgs; cbn [foldl].
  - split; [|tauto]. intros ->. split; [done|]. by intros k ?%elem_of_nil.
  - rewrite IH. setoid_rewrite elem_of_cons. destruct (to !! k) as [x|] eqn:Hk; [naive_solver|].
    split; [by intros [[]%app_eq_nil _]|]. intros [_ Hx]. destruct (Hx k) as [? ?]; [by left|congruence].
Qed.

Lemma linkEventRules_clean msgs pr w w' msgs' :
  linkEventRules msgs pr w = (w', Ok msgs') → msgs' = [] ↔ msgs = [] ∧ links_match pr.
Proof.
  unfold linkEventRules.
  destruct (foldl (collect_link pr) (∅, ∅, msgs) (pr_Elements pr)) as [[c t] m] eqn:Hf.
  apply collect_links_spec in Hf as (Hc & Ht & Hm). setoid_rewrite lookup_empty in Hc.
  setoid_rewrite lookup_empty in Ht. setoid_rewrite lookup_empty in Hm.
  unfold mbind, gom_bind. destruct (unmatched MessageTypeError _ pr t c m w) as [w1 [m1| |]] eqn:H1;
    [|done..].
  intros H2. rewrite (unmatched_clean _ _ _ _ _ _ _ _ _ H2), (unmatched_clean _ _ _ _ _ _ _ _ _ H1), Hm.
  clear H1 H2 Hm. unfold links_match, caught, thrown.
  assert (¬ is_Some (None : option string)) as Hn by (by intros []).
  split.
  - intros [[[-> [Hnd _]] Htc] Hct]. split_and!; [done..|]. intros k. split; intros Hk.
    + destruct (proj1 (Hc k)) as [|[]]; [|done..]. apply Htc, Ht. by left.
    + destruct (proj1 (Ht k)) as [|[]]; [|done..]. apply Hct, Hc. by left.
  - intros [-> [Hnd Hx]]. split_and!; [done..|by intros ? ?| |]; intros k.
    + intros [Hk|[]]%Ht; [|done]. apply Hc. left. by apply Hx.
    + intros [Hk|[]]%Hc; [|done]. apply Ht. left. by apply Hx.
Qed.

(** The linter reports errors and warnings only. *)
Definition grave (m : Message) : Prop := lm_Type m ≠ MessageTypeInfo.

Lemma linkEventRules_grave msgs pr w :
  Forall grave msgs → ∃ w' msgs', linkEventRules msgs pr w = (w', Ok msgs') ∧ Forall grave msgs'.
Proof.
  intros Hm. unfold linkEventRules.
  destruct (foldl (collect_link pr) (∅, ∅, msgs) (pr_Elements pr)) as [[c t] m] eqn:Hf.
  assert (Forall grave m) as Hm1.
  { revert Hm Hf. generalize (∅ : gmap string string) at 2 as t0. generalize (∅ : gmap string string) as c0.
    revert msgs. induction (pr_Elements pr) as [|e els IH]; intros m0 c0 t0 Hm0; cbn [foldl];
      [by intros [= <- <- <-]|].
    destruct (collect_link pr (c0, t0, m0) e) as [[c1 t1] m1] eqn:He. apply IH.
    revert He. unfold collect_link. case_bool_decide; [destruct (c0 !! _)|]; intros [= <- <- <-];
      [apply Forall_app_2; [done|by repeat constructor]|done..]. }
  assert (∀ ty msg (from to : gmap string string) m w, ty ≠ MessageTypeInfo → Forall grave m →
    ∃ w' m', unmatched ty msg pr from to m w = (w', Ok m') ∧ Forall grave m') as Hu.
  { clear. intros ty msg from to m w Hty Hm. do 2 eexists. split; [done|]. revert m Hm.
    induction (map_order _ _ _) as [|[k v] l IH]; intros m Hm; cbn [foldl]; [done|]. apply IH.
    destruct (to !! k); [done|]. apply Forall_app_2; [done|by repeat constructor]. }
  destruct (Hu MessageTypeError "No link catch for throw " t c m w) as (w1 & m1 & He & Hm2); [done..|].
  destruct (Hu MessageTypeWarning "No link throw for catch " c t m1 w1) as (w2 & m2 & Hw & Hm3); [done..|].
  exists w2, m2. unfold mbind, gom_bind. by rewrite He.
Qed.

(** What the linter is there to establish for a process. *)
Definition sound_process (pr : Process) : Prop :=
  links_match pr ∧
  ∀ s d, s ∈ findProcessStarts pr → rtc (follows (IndexProcessElements (pr_Elements pr) ∅)) s d →
    ¬ dead_end (IndexProcessElements (pr_Elements pr) ∅) d.

(** The loop of [Lint] over the processes. *)
Lemma Lint_loop stack ps msgs w :
  (∀ p, p ∈ ps → closed (pr_Elements (snd p)) ∧
     length (flat_map ElementFacts.subelements (pr_Elements p.2)) ≤ stack) →
  Forall grave msgs →
  ∃ w' r, attempt (for_fold ps (λ m (p : string * Process),
        m ← linkEventRules m p.2;
        _ ← wrapping (Wrap "a directed scan of the process revealed errors")
              (startDirectedScan stack p.2 lint_rule);
        mret m) msgs) w = (w', Ok r) ∧
    match r with
    | inl m => Forall grave m ∧ (m = [] ↔ msgs = [] ∧ ∀ p, p ∈ ps → links_match p.2)
    | inr e => ¬ ∀ p, p ∈ ps → sound_process p.2
    end.
Proof.
  revert msgs w. induction ps as [|p ps IH]; intros msgs w Hp Hm; cbn [for_fold].
  - do 2 eexists. split; [done|]. split; [done|]. split; [intros ->; split; [done|]|by intros []].
    by intros ? ?%elem_of_nil.
  - destruct (linkEventRules_grave msgs p.2 w Hm) as (w1 & m1 & He & Hm1).
    pose proof (linkEventRules_clean _ _ _ _ _ He) as Hcl.
    destruct (Hp p) as [Hc Hs]; [left|].
    pose proof (startDirectedScan_verdict p.2 stack w1 Hc Hs) as Hv.
    unfold attempt. unfold mbind at 1. unfold gom_bind at 1. unfold mbind at 1. unfold gom_bind at 1.
    rewrite He. unfold mbind at 1. unfold gom_bind at 1. unfold wrapping at 1.
    destruct (startDirectedScan stack p.2 lint_rule w1) as [w2 [[]|e|]]; [|clear IH|done].
    + cbn [fst snd] in Hv. edestruct (IH m1 w2) as (w3 & r & Hr & Hpost); [intros; apply Hp; by right|done|].
      exists w3, r. unfold mret, gom_ret. split; [exact Hr|].
      destruct r as [m|e].
      * destruct Hpost as [Hg Hpost]. split; [done|]. rewrite Hpost, Hcl.
        setoid_rewrite elem_of_cons. naive_solver.
      * intros Hall. apply Hpost. intros q Hq. apply Hall. by right.
    + cbn [fst snd] in Hv. do 2 eexists. split; [done|]. destruct Hv as (s & d & Hin & Hr & Hd). intros Hall.
      destruct (Hall p) as [_ Hall']; [left|]. by eapply Hall'.
Qed.

(** A workflow that the linter accepts, in whatever way it got there, has links
    that match. *)
Lemma Lint_yields stack wf :
  yields (Lint stack wf true) (λ r, r.2 = None →
    ∀ id pr, wf_Process wf !! id = Some pr → links_match pr).
Proof.
  unfold Lint. apply (yields_seq (λ ps, ∀ id pr, wf_Process wf !! id = Some pr → (id, pr) ∈ ps)).
  { intros w ps [= <-] id pr Hp. by rewrite map_order_perm, elem_of_map_to_list. }
  intros ps Hps. 
  assert (∀ ps msgs, Forall grave msgs → yields (for_fold ps (λ m (p : string * Process),
      m ← linkEventRules m p.2;
      _ ← wrapping (Wrap "a directed scan of the process revealed errors")
            (startDirectedScan stack p.2 (mkInstruction (Some recognized_end) None));
      mret m) msgs)
    (λ m, Forall grave m ∧ (m = [] → msgs = [] ∧ ∀ p, p ∈ ps → links_match p.2))) as Hloop.
  { clear ps Hps. intros ps. induction ps as [|p ps IH]; intros msgs Hm; cbn [for_fold].
    - apply yields_ret. split; [done|]. intros ->. split; [done|]. by intros ? ?%elem_of_nil.
    - apply (yields_seq (λ m, Forall grave m ∧ (m = [] → msgs = [] ∧ links_match p.2))).
      + apply (yields_seq (λ m, Forall grave m ∧ (m = [] → msgs = [] ∧ links_match p.2))).
        * intros w m He. destruct (linkEventRules_grave msgs p.2 w Hm) as (w' & m' & He' & Hm').
          rewrite He' in He. injection He as <-. split; [done|]. by apply (linkEventRules_clean _ _ _ _ _ He').
        * intros m Hpost. apply (yields_seq (λ _, True)); [by intros ? ?|]. intros _ _. by apply yields_ret.
      + intros m [Hg Hpost]. eapply yields_mono; [by apply IH|]. intros m' [Hg' Hpost']. split; [done|].
        intros [Hnil Hall]%Hpost'. destruct (Hpost Hnil) as [? ?]. split; [done|].
        intros q [->|Hq]%elem_of_cons; [done|by apply Hall]. }
  apply (yields_seq (λ r, ∀ m, r = inl m → Forall grave m ∧ (m = [] → ∀ p, p ∈ ps → links_match p.2))).
  { intros w r. specialize (Hloop ps [] (List.Forall_nil _) w). unfold attempt.
    destruct (for_fold ps _ [] w) as [w' [m|e|p]]; simpl in *; [|by intros [= <-] ?|done].
    intros [= <-] ? [= <-]. destruct (Hloop m eq_refl) as [? Hl]. split; [done|]. by intros [_ ?]%Hl. }
  intros [m|err] Hm; apply yields_ret; [|done]. simpl. intros Herr id pr Hp.
  destruct (Hm m eq_refl) as [Hg Hl]. assert (m = []) as Hnil; [|by apply (Hl Hnil (id, pr)), Hps].
  destruct Hg as [|x m Hx _]; [done|]. exfalso. simpl in Herr. revert Herr Hx. unfold grave.
  by destruct (lm_Type x).
Qed.

(** (C20) on a workflow whose flows stay inside their processes, with a stack of a
    frame for each element, the linter that treats warnings as errors always
    answers.  It accepts a workflow only if in each of its processes every link
    has one catch and a throw, and it accepts every workflow in which that holds
    and no dead end can be reached from a start event. *)
Theorem Lint_verdict stack wf w :
  (∀ id pr, wf_Process wf !! id = Some pr →
     closed (pr_Elements pr) ∧
     length (flat_map ElementFacts.subelements (pr_Elements pr)) ≤ stack) →
  ∃ w' msgs err, Lint stack wf true w = (w', Ok (msgs, err)) ∧
    (err = None → ∀ id pr, wf_Process wf !! id = Some pr → links_match pr) ∧
    ((∀ id pr, wf_Process wf !! id = Some pr → sound_process pr) → msgs = [] ∧ err = None).
Proof.
  intros Hwf. unfold Lint. unfold mbind at 1. unfold gom_bind at 1. unfold range.
  set (ps := map_order _ _ _).
  assert (∀ p, p ∈ ps ↔ wf_Process wf !! p.1 = Some p.2) as Hps.
  { intros [id pr]. unfold ps. by rewrite map_order_perm, elem_of_map_to_list. }
  destruct (Lint_loop stack ps [] (w_next w)) as (w' & r & Hr & Hpost).
  { intros p Hp%Hps. by eapply Hwf. }
  { constructor. }
  unfold mbind at 1. unfold gom_bind at 1. fold lint_rule. rewrite Hr.
  destruct r as [m|e]; do 3 eexists; (split; [done|]).
  - destruct Hpost as [Hg Hm]. split.
    + intros Herr id pr Hi. apply (proj1 Hm) with (p := (id, pr)); [|by apply Hps].
      destruct Hg as [|x l Hx]; [done|]. exfalso. revert Herr. simpl.
      by destruct (lm_Type x) eqn:Hty.
    + intros Hall. assert (m = []) as ->; [|done]. apply Hm. split; [done|].
      intros p Hp%Hps. by eapply Hall.
  - split; [done|]. intros Hall. destruct Hpost. intros p Hp%Hps. by eapply Hall.
Qed.
End scan_theorem.

(** ** Examples *)
Definition ex_node (id type execute : string) (targets : list string) : Element :=
  mkElement id id type "" execute
    (match targets with [] => None | _ => Some (mkTargets (map (mkTarget "" []) targets) (-1)) end)
    None None "" "" "" [] None ∅ ∅ None [] None None None None false.

(** A start, a link and an end. *)
Definition ex_linked : Process :=
  mkProcess [ex_node "start" element.StartEvent "" ["throw"];
             ex_node "throw" element.LinkIntermediateThrowEvent "L" [];
             ex_node "catch" element.LinkIntermediateCatchEvent "L" ["end"];
             ex_node "end" element.EndEvent "" []] "P" None.

(** A task that may go back to a review before it goes on. *)
Definition ex_back : Process :=
  mkProcess [ex_node "start" element.StartEvent "" ["review"];
             ex_node "review" element.ManualTask "" ["ok"];
             ex_node "ok" element.ManualTask "" ["review"; "pay"];
             ex_node "pay" element.ManualTask "" []] "P" None.

Definition ex_wf_of (pr : Process) : Workflow := mkWorkflow "W" {["P" := pr]} [] [] "" (Some []) ∅ "".

Lemma closed_dec els :
  forallb (λ e, forallb (λ t, bool_decide (t ∈ el_Id <$> flat_map ElementFacts.subelements els)) (flows e))
    (flat_map ElementFacts.subelements els) = true → closed els.
Proof.
  intros Hb e t He Ht. rewrite forallb_forall in Hb. apply list_elem_of_In, Hb in He.
  rewrite forallb_forall in He. apply list_elem_of_In, He in Ht. by apply bool_decide_eq_true in Ht.
Qed.

Lemma Lint_verdict_witness :
  ∃ w' msgs err, @Lint sim 4 (ex_wf_of ex_linked) true world_init = (w', Ok (msgs, err)) ∧
    (err = None → ∀ id pr, wf_Process (ex_wf_of ex_linked) !! id = Some pr → links_match pr) ∧
    ((∀ id pr, wf_Process (ex_wf_of ex_linked) !! id = Some pr → sound_process pr) →
     msgs = [] ∧ err = None).
Proof.
  apply (@Lint_verdict sim (Sim_ok _ _ _)). intros id pr Hpr.
  unfold ex_wf_of in Hpr. simpl in Hpr. apply lookup_singleton_Some in Hpr as [_ <-].
  split; [|simpl; lia].
  by apply closed_dec.
Defined.

(** The scan stops at the first flow to an element it has been to, and does not
    look at the flows after it: the dead end behind the way back is not found. *)
Lemma scan_misses_dead_end :
  (∃ d, rtc (follows (IndexProcessElements (pr_Elements ex_back) ∅))
          (ex_node "start" element.StartEvent "" ["review"]) d ∧
        dead_end (IndexProcessElements (pr_Elements ex_back) ∅) d) ∧
  (@startDirectedScan sim 4 ex_back lint_rule world_init).2 = Ok tt.
Proof.
  split; [|by vm_compute].
  exists (ex_node "pay" element.ManualTask "" []). split; [|by split].
  apply rtc_l with (ex_node "review" element.ManualTask "" ["ok"]).
  { split; [done|]. exists "review". by split; [left|]. }
  apply rtc_l with (ex_node "ok" element.ManualTask "" ["review"; "pay"]).
  { split; [done|]. exists "ok". by split; [left|]. }
  apply rtc_once. split; [done|]. exists "pay". by split; [right; left|].
Qed.
