(* ===== verification/Tagger.v ===== *)
(** * The tagger of gateways

    [client/parser/tagger.go]: from the flows of a process, the direction of each
    gateway, and for each gateway that joins the gateway that opened its branches. *)
From S2P Require Import Prelude Model Errors Env Sim Common Wp Pointers.
Import ElementFacts.

Definition getElementIdReferences (process : Process) : gmap string (list string) :=
  foldl (λ eleIdReferencedBy el,
    match el_Outbound el with
    | None => eleIdReferencedBy
    | Some outbound =>
        foldl (λ eleIdReferencedBy c,
          <[tg_Target c := default [] (eleIdReferencedBy !! tg_Target c) ++ [el_Id el]]>
            eleIdReferencedBy) eleIdReferencedBy (tgs_Target outbound)
    end) ∅ (pr_Elements process).

Section tagger.
Context `{Env}.

(** The first loop of [tagGateways], for one element. *)
Definition tag_direction (eleIdReferences : gmap string (list string)) (el : Element) : M Element :=
  if bool_decide (el_Type el = element.Gateway) then
    let numIn := length (default [] (eleIdReferences !! el_Id el)) in
    let numOut := match el_Outbound el with Some o => length (tgs_Target o) | None => 0 end in
    if bool_decide (numIn = 1 ∧ 1 < numOut) then
      g ← deref "el.Gateway" (el_Gateway el);
      mret (el <| el_Gateway := Some (g <| gs_Direction := divergent |>) |>)
    else if bool_decide (1 < numIn ∧ numOut = 1) then
      g ← deref "el.Gateway" (el_Gateway el);
      mret (el <| el_Gateway := Some (g <| gs_Direction := convergent |>) |>)
    else throw (Wrap "cannot discern gateway type due to ambiguous inputs and outputs"
                  (New "unsupported gateway type"))
  else mret el.

(** What [recurseRecip] does at an element before it goes on: [inl] the depth of
    gateways it goes on with, or [inr] that the element is the answer. *)
Definition recip_step (gw el : Element) (same : bool) (stack : nat) : M (nat + unit) :=
  if negb same && bool_decide (el_Type el = element.Gateway) then
    g ← deref "gw.Gateway" (el_Gateway gw);
    g' ← deref "el.Gateway" (el_Gateway el);
    mret (if bool_decide (gs_Type g = gs_Type g') then
            match gs_Direction g', stack with
            | convergent, _ => inl (S stack)
            | divergent, O => inr tt
            | divergent, S stack => inl stack
            end
          else inl stack)
  else mret (inl stack).

(** [frames] is the number of calls that fit on the stack. *)
Fixpoint recurseRecip (frames : nat) (els : list Element) (eleIndex : gmap string ptr)
    (eleIdReferences : gmap string (list string)) (gw el : ptr) (result : gset string)
    (stack : nat) : M (gset string) :=
  match frames with
  | O => panic "stack overflow"
  | S frames =>
      gw_ ← deref "gw" (el_at els gw);
      el_ ← deref "el" (el_at els el);
      s ← recip_step gw_ el_ (bool_decide (gw = el)) stack;
      match s with
      | inr _ => mret ({[el_Id el_]} ∪ result)
      | inl stack =>
          match eleIdReferences !! el_Id el_ with
          | None => mret ({["[<<null>>]"]} ∪ result)
          | Some elementReferences =>
              for_fold elementReferences (λ result next,
                p ← deref "eleIndex[next]" (eleIndex !! next);
                recurseRecip frames els eleIndex eleIdReferences gw p result stack) result
          end
      end
  end.

(** [el.Gateway.f = v] through a pointer. *)
Definition set_gateway (els : list Element) (p : ptr) (f : GatewaySpec → GatewaySpec) :
    M (list Element) :=
  el ← deref "el" (el_at els p);
  _ ← deref "el.Gateway" (el_Gateway el);
  mret (el_alter (λ el, el <| el_Gateway ::= fmap f |>) els p).

Definition tagReciprocal (frames : nat) (els : list Element) (gw : ptr)
    (eleIdReferences : gmap string (list string)) (eleIndex : gmap string ptr) :
    M (list Element) :=
  result ← recurseRecip frames els eleIndex eleIdReferences gw gw ∅ 0;
  gw_ ← deref "gw" (el_at els gw);
  if bool_decide ("[<<null>>]" ∈ result ∨ 1 < size result) then
    match eleIdReferences !! el_Id gw_ with
    | Some expectations => set_gateway els gw (λ g, g <| gs_FixedExpectations := expectations |>)
    | None => mret els
    end
  else
    only ← deref "only" (head (base.elements result) ≫= λ i, eleIndex !! i);
    only_ ← deref "only" (el_at els only);
    els ← set_gateway els gw (λ g, g <| gs_ReciprocalId := el_Id only_ |>);
    set_gateway els only (λ g, g <| gs_ReciprocalId := el_Id gw_ |>).

(** The second loop of [tagGateways], for the [i]th element. *)
Definition tag_pair (frames : nat) (eleIndex : gmap string ptr)
    (eleIdReferences : gmap string (list string)) (els : list Element) (i : nat) :
    M (list Element) :=
  el ← deref "process.Elements[i]" (els !! i);
  if bool_decide (el_Type el = element.Gateway) then
    g ← deref "el.Gateway" (el_Gateway el);
    if bool_decide (gs_Direction g = convergent) then
      wrapping (Wrap "find reciprocal gateway")
        (tagReciprocal frames els [i] eleIdReferences eleIndex)
    else mret els
  else mret els.

Definition tagGateways (frames : nat) (process : Process) (eleIndex : gmap string ptr)
    (eleIdReferences : gmap string (list string)) : M Process :=
  els ← for_fold (pr_Elements process) (λ els el,
          el ← tag_direction eleIdReferences el; mret (els ++ [el])) [];
  els ← for_fold (seq 0 (length els)) (tag_pair frames eleIndex eleIdReferences) els;
  mret (process <| pr_Elements := els |>).

Definition tagWorkflow (frames : nat) (wf : Workflow) : M Workflow :=
  ps ← range (wf_Process wf);
  for_fold ps (λ wf p,
    process ← wrapping (Wrap "an error occurred tagging the process gateways")
      (tagGateways frames p.2 (IndexProcessElements_ptr (pr_Elements p.2))
         (getElementIdReferences p.2));
    mret (wf <| wf_Process ::= <[p.1 := process]> |>)) wf.
End tagger.

(** ** The specification *)

(** The elements with a flow to [id], one entry for each flow. *)
Definition targets_of (el : Element) : list string :=
  match el_Outbound el with Some o => map tg_Target (tgs_Target o) | None => [] end.

Definition sources (pr : Process) (id : string) : list string :=
  flat_map (λ e, map (λ _, el_Id e) (filter (λ t, t = id) (targets_of e))) (pr_Elements pr).

(** A gateway with one way in and several out opens branches; one with several
    ways in and one out closes them. *)
Definition direction (pr : Process) (el : Element) : option GatewayDirection :=
  match length (sources pr (el_Id el)), length (targets_of el) with
  | 1, S (S _) => Some divergent
  | S (S _), 1 => Some convergent
  | _, _ => None
  end.

Definition gateway_type (el : Element) : option GatewayType := gs_Type <$> el_Gateway el.

(** How many gateways of the type of [gw] are closed and not yet opened, going
    back past [el]: none left to go on with when [el] opens [gw]. *)
Definition level (pr : Process) (gw el : Element) (n : nat) : option nat :=
  if bool_decide (el_Id el ≠ el_Id gw ∧ el_Type el = element.Gateway ∧ gateway_type el = gateway_type gw) then
    match direction pr el, n with
    | Some convergent, _ => Some (S n)
    | _, O => None
    | _, S n => Some n
    end
  else Some n.

(** Going back along the flows from an element, where the branches that come
    together in [gw] start: at a gateway, or outside all gateways. *)
Inductive opener (pr : Process) (gw : Element) : Element → nat → string → Prop :=
  | opener_found el n :
      level pr gw el n = None → opener pr gw el n (el_Id el)
  | opener_none el n n' :
      level pr gw el n = Some n' → sources pr (el_Id el) = [] → opener pr gw el n "[<<null>>]"
  | opener_back el n n' e r :
      level pr gw el n = Some n' → e ∈ pr_Elements pr → el_Id el ∈ targets_of e →
      opener pr gw e n' r → opener pr gw el n r.

(** An element after the first loop of [tagGateways]: as it was, except that a
    gateway has its direction. *)
Definition directed (pr : Process) (e e' : Element) : Prop :=
  e' <| el_Gateway := el_Gateway e |> = e ∧
  (el_Type e = element.Gateway → gateway_type e' = gateway_type e ∧
     ∃ g, el_Gateway e' = Some g ∧ Some (gs_Direction g) = direction pr e).

(** A gateway that closes branches is paired with the one gateway that opens
    them; where there is no such gateway it waits for each of its sources. *)
Definition paired (pr : Process) (e e' : Element) : Prop :=
  ∃ g, el_Gateway e' = Some g ∧
    ((∃ r, (∀ x, opener pr e e 0 x ↔ x = r) ∧ r ≠ "[<<null>>]" ∧ gs_ReciprocalId g = r) ∨
     ((opener pr e e 0 "[<<null>>]" ∨ ∃ x y, x ≠ y ∧ opener pr e e 0 x ∧ opener pr e e 0 y) ∧
      gs_FixedExpectations g = sources pr (el_Id e))).

(** A process with distinct ids and no loop, whose gateways have a specification
    (as the parser creates them), and which fits on the stack. *)
Record taggable (frames : nat) (pr : Process) : Prop := {
  tg_ids : NoDup (el_Id <$> flat_map subelements (pr_Elements pr));
  tg_spec e : e ∈ pr_Elements pr → el_Type e = element.Gateway → is_Some (el_Gateway e);
  tg_acyclic : ∃ rank : string → nat,
    (∀ e t, e ∈ pr_Elements pr → t ∈ targets_of e → rank (el_Id e) < rank t) ∧
    (∀ e, e ∈ pr_Elements pr → rank (el_Id e) < frames) }.

(** ** Lemmas *)
Lemma getElementIdReferences_lookup pr id :
  getElementIdReferences pr !! id =
  match sources pr id with [] => None | l => Some l end.
Proof.
  unfold getElementIdReferences, sources.
  set (f := λ (m : gmap string (list string)) el, match el_Outbound el with
    | None => m | Some o => foldl (λ m c, <[tg_Target c := default [] (m !! tg_Target c) ++ [el_Id el]]> m) m (tgs_Target o) end).
  assert (∀ el m, f m el !! id = match map (λ _, el_Id el) (filter (λ t, t = id) (targets_of el)) with
    | [] => m !! id | l => Some (default [] (m !! id) ++ l) end) as Hf.
  { intros el m. unfold f, targets_of. destruct (el_Outbound el) as [o|]; [|done].
    revert m. induction (tgs_Target o) as [|c cs IH]; intros m; [done|]. cbn [foldl].
    rewrite IH. cbn [map]. rewrite filter_cons. case_decide as Hc.
    - subst id. rewrite lookup_insert_eq. cbn [map]. case_match; [done|]. simpl. by rewrite <-app_assoc.
    - by rewrite lookup_insert_ne. }
  assert (∀ els m, foldl f m els !! id = match flat_map (λ e, map (λ _, el_Id e) (filter (λ t, t = id) (targets_of e))) els with
    | [] => m !! id | l => Some (default [] (m !! id) ++ l) end) as Hg.
  { intros els. induction els as [|e els IH]; intros m; [done|]. cbn [foldl flat_map]. rewrite IH, Hf.
    destruct (map _ _) as [|x l]; [done|]. destruct (flat_map _ _) as [|y l']; simpl; [by rewrite app_nil_r|].
    by rewrite <-app_assoc. }
  by rewrite Hg, lookup_empty.
Qed.

Lemma elem_of_sources pr id x :
  x ∈ sources pr id ↔ ∃ e, e ∈ pr_Elements pr ∧ el_Id e = x ∧ id ∈ targets_of e.
Proof.
  unfold sources. rewrite list_elem_of_In, in_flat_map. split.
  - intros (e & He & Hx). apply in_map_iff in Hx as (t & <- & Ht).
    apply list_elem_of_In, list_elem_of_filter in Ht as [-> Ht].
    exists e. by rewrite list_elem_of_In.
  - intros (e & He & <- & Ht). exists e. rewrite <-list_elem_of_In. split; [done|].
    apply in_map_iff. exists id. split; [done|]. by apply list_elem_of_In, list_elem_of_filter.
Qed.

Lemma opener_unfold pr gw el n r :
  opener pr gw el n r ↔
  match level pr gw el n with
  | None => r = el_Id el
  | Some n' => (sources pr (el_Id el) = [] ∧ r = "[<<null>>]") ∨
      ∃ e, e ∈ pr_Elements pr ∧ el_Id el ∈ targets_of e ∧ opener pr gw e n' r
  end.
Proof.
  split.
  - intros [? ? Hl|? ? ? Hl|? ? ? e ? Hl]; rewrite Hl; [done|by left|right; by exists e].
  - destruct (level pr gw el n) eqn:Hl; [|intros ->; by constructor].
    intros [[? ->]|(e & ? & ? & ?)]; [by eapply opener_none|by eapply opener_back].
Qed.

Lemma directed_id pr e e' : directed pr e e' → el_Id e' = el_Id e.
Proof. intros [<- _]. done. Qed.

Lemma directed_type pr e e' : directed pr e e' → el_Type e' = el_Type e.
Proof. intros [<- _]. done. Qed.

Section tagger_lemmas.
Context `{EnvOk} (pr : Process).
Context (Hids : NoDup (el_Id <$> flat_map subelements (pr_Elements pr))).

Lemma top_ids : NoDup (el_Id <$> pr_Elements pr).
Proof.
  revert Hids. induction (pr_Elements pr) as [|e els IH]; [done|]. simpl.
  rewrite fmap_app. intros (He & Hdis & Hels)%NoDup_app. constructor; [|by apply IH].
  intros (e' & Heq & He')%list_elem_of_fmap. apply (Hdis (el_Id e)).
  - destruct e. left.
  - rewrite Heq. apply list_elem_of_fmap_2, list_elem_of_In, in_flat_map. exists e'.
    split; [by apply list_elem_of_In|]. destruct e'. by left.
Qed.

Lemma same_position i j e e' :
  pr_Elements pr !! i = Some e → pr_Elements pr !! j = Some e' → el_Id e = el_Id e' → i = j.
Proof.
  intros Hi Hj Hid. eapply NoDup_lookup; [exact top_ids|..]; rewrite list_lookup_fmap.
  - by rewrite Hi.
  - by rewrite Hj, Hid.
Qed.

Lemma same_element e e' :
  e ∈ pr_Elements pr → e' ∈ pr_Elements pr → el_Id e = el_Id e' → e = e'.
Proof.
  intros [i Hi]%list_elem_of_lookup [j Hj]%list_elem_of_lookup Hid.
  assert (i = j) as -> by by eapply same_position. congruence.
Qed.

Lemma wp_recip_step gw gw' el el' same stack w Φ :
  directed pr gw gw' → directed pr el el' → el_Type gw = element.Gateway →
  (same = true ↔ el_Id el = el_Id gw) →
  (∀ r, match level pr gw el stack with Some n => r = inl n | None => r = inr tt end → Φ w (Ok r)) →
  wp (recip_step gw' el' same stack) w Φ.
Proof.
  intros [_ Hgw] Hdel Hgate Hsame HΦ. pose proof (directed_type _ _ _ Hdel) as Hty'.
  destruct Hdel as [_ Hel].
  unfold recip_step. destruct (Hgw Hgate) as (Htg & g & Hg & Hdg).
  destruct same; simpl.
  - apply wp_ret, HΦ. unfold level. case_bool_decide as Hc; [|done]. destruct Hc as (Hc & Hc' & _). exfalso.
    first [by apply Hc, Hsame|congruence].
  - assert (el_Id el ≠ el_Id gw) as Hne by (intros Hx%Hsame; done). rewrite Hty'.
    case_bool_decide as Ht.
    + destruct (Hel Ht) as (Htg' & g' & Hg' & Hdg'). rewrite Hg, Hg'. wp_steps. apply HΦ.
      unfold level. rewrite <-Htg, <-Htg', <-Hdg'. unfold gateway_type. rewrite Hg, Hg'. simpl.
      case_bool_decide as Hs.
      * destruct Hs as (_ & _ & [= Hs]). rewrite bool_decide_eq_true_2 by congruence.
        by destruct (gs_Direction g'), stack.
      * rewrite bool_decide_eq_false_2; [done|]. intros Hs'. apply Hs. by rewrite Hs'.
    + apply wp_ret, HΦ. unfold level. case_bool_decide as Hc; [|done]. destruct Hc as (Hc & Hc' & _). exfalso.
    first [by apply Hc, Hsame|congruence].
Qed.

Context (els : list Element) (Hels : Forall2 (directed pr) (pr_Elements pr) els).
Context (rank : string → nat).
Context (Hrank : ∀ e t, e ∈ pr_Elements pr → t ∈ targets_of e → rank (el_Id e) < rank t).

(** Past an element, the openers are those of its sources. *)
Lemma opener_sources gw el stack n y :
  level pr gw el stack = Some n → sources pr (el_Id el) ≠ [] →
  opener pr gw el stack y ↔
    ∃ e, e ∈ pr_Elements pr ∧ el_Id e ∈ sources pr (el_Id el) ∧ opener pr gw e n y.
Proof.
  intros Hl Hs. rewrite opener_unfold, Hl. split.
  - intros [[? _]|(e & He & Ht & Ho)]; [done|]. exists e. split_and!; [done| |done].
    apply elem_of_sources. eauto.
  - intros (e & He & (e' & He' & Heq & Ht)%elem_of_sources & Ho).
    rewrite (same_element e e') in Ho by done. right. by exists e'.
Qed.

Lemma sources_nil gw el stack n y :
  level pr gw el stack = Some n → sources pr (el_Id el) = [] →
  opener pr gw el stack y ↔ y = "[<<null>>]".
Proof.
  intros Hl Hs. rewrite opener_unfold, Hl. split; [|naive_solver].
  intros [[_ ?]|(e & He & Ht & _)]; [done|].
  assert (el_Id e ∈ sources pr (el_Id el)) as Hin by (apply elem_of_sources; eauto).
  rewrite Hs in Hin. by apply elem_of_nil in Hin.
Qed.

(** The loop over the sources, given what each recursive call adds. *)
Lemma wp_recurse_sources (Q : Element → string → Prop) (call : ptr → gset string → M (gset string))
    srcs result w :
  (∀ x, x ∈ srcs → ∃ j e, pr_Elements pr !! j = Some e ∧ el_Id e = x ∧
     ∀ result w, wp (call [j] result) w (returns (λ _ r, ∀ y, y ∈ r ↔ y ∈ result ∨ Q e y))) →
  wp (for_fold srcs (λ result next,
        p ← deref "eleIndex[next]" (IndexProcessElements_ptr (pr_Elements pr) !! next);
        call p result) result) w
     (returns (λ _ r, ∀ y, y ∈ r ↔ y ∈ result ∨
        ∃ e, e ∈ pr_Elements pr ∧ el_Id e ∈ srcs ∧ Q e y)).
Proof.
  revert result w. induction srcs as [|s srcs IH]; intros result w Hsrc; cbn [for_fold].
  - apply wp_ret. simpl. intros y. setoid_rewrite elem_of_nil. naive_solver.
  - destruct (Hsrc s) as (j & e & Hj & <- & Hcall); [left|].
    apply wp_bind, wp_bind, wp_deref. rewrite (IndexProcessElements_ptr_lookup _ j e) by done.
    cbv beta iota. eapply wp_mono; [|apply Hcall].
    intros w' [r|err|p]; simpl; [|done..]. intros Hr.
    eapply wp_mono; [|apply IH; intros; apply Hsrc; by right].
    intros w'' [r'|err|p]; simpl; [|done..]. intros Hr' y. rewrite Hr', Hr.
    apply list_elem_of_lookup_2 in Hj. setoid_rewrite elem_of_cons. split.
    + intros [[?|?]|(e0 & ? & ? & ?)]; [by left|right; exists e|right; exists e0]; tauto.
    + intros [?|(e0 & He0 & [Heq|?] & ?)]; [tauto| |right; exists e0; tauto].
      rewrite (same_element e0 e) in * by done. tauto.
Qed.

(** Without a loop in the process the search for openers ends, and finds them. *)
Lemma wp_recurseRecip frames g gw i el result stack w :
  pr_Elements pr !! g = Some gw → el_Type gw = element.Gateway →
  pr_Elements pr !! i = Some el → rank (el_Id el) < frames →
  wp (recurseRecip frames els (IndexProcessElements_ptr (pr_Elements pr))
        (getElementIdReferences pr) [g] [i] result stack) w
     (returns (λ _ r, ∀ x, x ∈ r ↔ x ∈ result ∨ opener pr gw el stack x)).
Proof.
  intros Hg Hgate. revert i el result stack w.
  induction frames as [|frames IH]; intros i el result stack w Hi Hf; [lia|]. cbn [recurseRecip].
  destruct (Forall2_lookup_l _ _ _ _ _ Hels Hg) as (gw' & Hg' & Hdg).
  destruct (Forall2_lookup_l _ _ _ _ _ Hels Hi) as (el' & Hi' & Hde).
  cbn [el_at]. rewrite Hg', Hi'. wp_steps.
  eapply wp_recip_step; [exact Hdg|exact Hde|done| |].
  { rewrite bool_decide_eq_true. split; [intros [= <-]; congruence|].
    intros Hid. by rewrite (same_position i g el gw). }
  intros r Hr. rewrite (directed_id _ _ _ Hde).
  destruct (level pr gw el stack) as [n|] eqn:Hl; subst r.
  - rewrite getElementIdReferences_lookup. destruct (sources pr (el_Id el)) as [|x l] eqn:Hs.
    + apply wp_ret. simpl. intros y.
      rewrite elem_of_union, elem_of_singleton, (sources_nil _ _ _ _ _ Hl Hs). tauto.
    + rewrite <-Hs. eapply wp_mono; [|apply (wp_recurse_sources (λ e, opener pr gw e n))].
      * intros w' [r| |]; simpl; [|done..]. intros Hr y.
        by rewrite Hr, (opener_sources _ _ _ _ _ Hl) by (by rewrite Hs).
      * intros y (e & He & <- & Ht)%elem_of_sources. apply list_elem_of_lookup in He as Hj.
        destruct Hj as [j Hj]. exists j, e. split_and!; [done..|]. intros r w'.
        apply IH; [done|]. specialize (Hrank _ _ He Ht). lia.
  - apply wp_ret. simpl. intros y. rewrite opener_unfold, Hl, elem_of_union, elem_of_singleton. tauto.
Qed.

(** Going back always ends somewhere. *)
Lemma opener_exists gw el n : el ∈ pr_Elements pr → ∃ r, opener pr gw el n r.
Proof.
  remember (rank (el_Id el)) as k eqn:Hk. revert el n Hk.
  induction k as [k IH] using lt_wf_ind. intros el n -> Hel.
  destruct (level pr gw el n) as [n'|] eqn:Hl; [|eexists; by eapply opener_found].
  destruct (sources pr (el_Id el)) as [|x l] eqn:Hs; [eexists; by eapply opener_none|].
  destruct (proj1 (elem_of_sources pr (el_Id el) x)) as (e & He & _ & Ht); [rewrite Hs; left|].
  destruct (IH _ (Hrank _ _ He Ht) e n' eq_refl He) as [r Hr]. exists r. by eapply opener_back.
Qed.

(** What is found is a gateway that opens branches. *)
Lemma opener_gateway gw el n r :
  el ∈ pr_Elements pr → opener pr gw el n r →
  r = "[<<null>>]" ∨ ∃ e, e ∈ pr_Elements pr ∧ el_Id e = r ∧ el_Id e ≠ el_Id gw ∧
    el_Type e = element.Gateway ∧ direction pr e ≠ Some convergent.
Proof.
  intros Hel Ho. induction Ho as [el n Hl| |el n n' e r Hl He Ht Ho IH]; [|by left|by apply IH].
  right. exists el. unfold level in Hl. case_bool_decide as Hb; [|done].
  destruct Hb as (Hne & Hg & _). split_and!; try done. intros Hd. by rewrite Hd in Hl.
Qed.

(** ** The two loops *)
Lemma wp_tag_direction e w Φ :
  (el_Type e = element.Gateway → is_Some (el_Gateway e)) →
  (∀ e', directed pr e e' → (el_Type e = element.Gateway → is_Some (direction pr e)) → Φ w (Ok e')) →
  (∀ err, el_Type e = element.Gateway → direction pr e = None → Φ w (Err err)) →
  wp (tag_direction (getElementIdReferences pr) e) w Φ.
Proof.
  intros Hspec Hok Herr. unfold tag_direction. case_bool_decide as Ht.
  2: { apply wp_ret, Hok; [|done]. split; [by destruct e|done]. }
  destruct (Hspec Ht) as [g Hg]. rewrite getElementIdReferences_lookup, Hg.
  assert (length (default [] match sources pr (el_Id e) with [] => None | l => Some l end) =
    length (sources pr (el_Id e))) as -> by by destruct (sources pr (el_Id e)).
  assert (match el_Outbound e with Some o => length (tgs_Target o) | None => 0 end =
    length (targets_of e)) as ->.
  { unfold targets_of. destruct (el_Outbound e); [by rewrite length_map|done]. }
  assert (∀ d, Some d = direction pr e →
    directed pr e (e <| el_Gateway := Some (g <| gs_Direction := d |>) |>)) as Hdir.
  { intros d Hd. split; [by destruct e|]. intros _. unfold gateway_type. rewrite Hg. simpl.
    split; [done|by eexists]. }
  unfold direction in *. 
  destruct (length (sources pr (el_Id e))) as [|[|m]], (length (targets_of e)) as [|[|k]];
    repeat (case_bool_decide; [try lia|]); try lia.
  all: try by apply wp_throw, Herr.
  all: apply wp_bind, wp_ret, wp_ret, Hok; [by apply Hdir|by eexists].
Qed.

Lemma wp_directions w :
  (∀ e, e ∈ pr_Elements pr → el_Type e = element.Gateway → is_Some (el_Gateway e)) →
  wp (for_fold (pr_Elements pr) (λ els el,
        el ← tag_direction (getElementIdReferences pr) el; mret (els ++ [el])) []) w
    (λ _ r, match r with
     | Ok els' => Forall2 (directed pr) (pr_Elements pr) els' ∧
         ∀ e, e ∈ pr_Elements pr → el_Type e = element.Gateway → is_Some (direction pr e)
     | Err _ => ∃ e, e ∈ pr_Elements pr ∧ el_Type e = element.Gateway ∧ direction pr e = None
     | Panic _ => False
     end).
Proof.
  intros Hspec. 
  assert (∀ l acc w, (∀ e, e ∈ l → el_Type e = element.Gateway → is_Some (el_Gateway e)) →
    wp (for_fold l (λ els el,
        el ← tag_direction (getElementIdReferences pr) el; mret (els ++ [el])) acc) w
    (λ _ r, match r with
     | Ok els => (∃ els', els = acc ++ els' ∧ Forall2 (directed pr) l els') ∧
         ∀ e, e ∈ l → el_Type e = element.Gateway → is_Some (direction pr e)
     | Err _ => ∃ e, e ∈ l ∧ el_Type e = element.Gateway ∧ direction pr e = None
     | Panic _ => False
     end)) as Hl.
  { clear. intros l. induction l as [|e l IH]; intros acc w Hspec; cbn [for_fold].
    - apply wp_ret. split; [exists []; by rewrite app_nil_r|]. by intros ? ?%elem_of_nil.
    - apply wp_bind, wp_bind, wp_tag_direction; [apply Hspec; left| |].
      + intros e' He Hd. apply wp_ret. eapply wp_mono; [|apply IH; intros; apply Hspec; [by right|done]].
        intros w' [els|err|p]; simpl; [|intros (x & ? & ? & ?); exists x; split_and!; [by right|done..]|done].
        intros [(els' & -> & Hf) Hdl]. split.
        * exists (e' :: els'). rewrite <-app_assoc. split; [done|by constructor].
        * intros x [->|Hx]%elem_of_cons; [done|by apply Hdl].
      + intros err Ht Hd. exists e. split; [left|done]. }
  eapply wp_mono; [|by apply Hl]. intros w' [els0|err|p]; simpl; [|done..].
  intros [(els' & -> & Hf) Hd]. by split.
Qed.

(** A write through a pointer to a gateway. *)
Definition keeps_direction (f : GatewaySpec → GatewaySpec) : Prop :=
  ∀ g, gs_Type (f g) = gs_Type g ∧ gs_Direction (f g) = gs_Direction g.

Lemma directed_set e e' f :
  keeps_direction f → directed pr e e' → directed pr e (e' <| el_Gateway ::= fmap f |>).
Proof.
  intros Hf [Heq Hg]. split; [exact Heq|]. intros Ht.
  destruct (Hg Ht) as (Hty & g & Hgw & Hd). unfold gateway_type in *. simpl. rewrite Hgw in *. simpl in *.
  destruct (Hf g) as [Hft Hfd]. rewrite Hft, <-Hty. split; [done|]. exists (f g). by rewrite Hfd.
Qed.

Lemma wp_set_gateway all i e e' f w Φ :
  keeps_direction f → Forall2 (directed pr) (pr_Elements pr) all →
  pr_Elements pr !! i = Some e → el_Type e = element.Gateway → all !! i = Some e' →
  (∀ all', Forall2 (directed pr) (pr_Elements pr) all' →
     all' !! i = Some (e' <| el_Gateway ::= fmap f |>) → (∀ j, j ≠ i → all' !! j = all !! j) →
     Φ w (Ok all')) →
  wp (set_gateway all [i] f) w Φ.
Proof.
  intros Hf Hall Hi Ht Hi' HΦ. unfold set_gateway. cbn [el_at el_alter]. rewrite Hi'. wp_steps.
  pose proof (Forall2_lookup_lr _ _ _ _ _ _ Hall Hi Hi') as [_ Hd].
  destruct (Hd Ht) as (_ & g & -> & _). wp_steps. apply HΦ.
  - apply Forall2_same_length_lookup_2.
    + rewrite length_alter. by eapply Forall2_length.
    + intros j x y Hx Hy. destruct (decide (i = j)) as [<-|Hne].
      * rewrite list_lookup_alter_eq in Hy. rewrite Hi' in Hy. simplify_eq/=. apply (directed_set _ _ f); [done|].
        by eapply Forall2_lookup_lr.
      * rewrite list_lookup_alter_ne in Hy by done. by eapply Forall2_lookup_lr.
  - by rewrite list_lookup_alter_eq, Hi'.
  - intros j Hj. by rewrite list_lookup_alter_ne.
Qed.
End tagger_lemmas.

Section tag_pairs.
Context `{EnvOk} (pr : Process) (frames : nat).
Context (Hids : NoDup (el_Id <$> flat_map subelements (pr_Elements pr))).
Context (rank : string → nat).
Context (Hrank : ∀ e t, e ∈ pr_Elements pr → t ∈ targets_of e → rank (el_Id e) < rank t).
Context (Hframes : ∀ e, e ∈ pr_Elements pr → rank (el_Id e) < frames).

(** What the search has found is one gateway, or its outcome is undecided. *)
Lemma openers_decided (result : gset string) gw :
  gw ∈ pr_Elements pr → (∀ x, x ∈ result ↔ opener pr gw gw 0 x) →
  if bool_decide ("[<<null>>]" ∈ result ∨ 1 < size result)
  then opener pr gw gw 0 "[<<null>>]" ∨ ∃ x y, x ≠ y ∧ opener pr gw gw 0 x ∧ opener pr gw gw 0 y
  else ∃ e, e ∈ pr_Elements pr ∧ base.elements result = [el_Id e] ∧ el_Id e ≠ "[<<null>>]" ∧
    (∀ x, opener pr gw gw 0 x ↔ x = el_Id e) ∧ el_Id e ≠ el_Id gw ∧
    el_Type e = element.Gateway ∧ direction pr e ≠ Some convergent.
Proof.
  intros Hgw Hr. case_bool_decide as Hb.
  - destruct Hb as [Hb|Hb]; [left; by apply Hr|right].
    unfold size, set_size in Hb. simpl in Hb. 
    pose proof (NoDup_elements result) as Hnd. assert (∀ x, x ∈ base.elements result → opener pr gw gw 0 x) as Hx.
    { intros x Hx. by apply Hr, elem_of_elements. }
    destruct (base.elements result) as [|x [|y l]]; simpl in Hb; [lia..|].
    exists x, y. apply NoDup_cons in Hnd as [Hxy _]. split_and!.
    + intros ->. apply Hxy. left.
    + apply Hx. left.
    + apply Hx. right. left.
  - destruct (opener_exists pr rank Hrank gw gw 0 Hgw) as [r Ho].
    assert (∀ x, opener pr gw gw 0 x ↔ x = r) as Hone.
    { assert (result = {[r]}) as Hres.
      { apply set_eq. intros x. rewrite elem_of_singleton. split; [|intros ->; by apply Hr].
        intros Hx. apply (size_singleton_inv result); [|done|by apply Hr].
        assert (size result ≠ 0); [|lia]. apply size_non_empty_iff. intros Hemp.
        apply Hr, Hemp in Ho. by apply elem_of_empty in Ho. }
      intros x. by rewrite <-Hr, Hres, elem_of_singleton. }
    destruct (opener_gateway pr gw gw 0 r Hgw Ho) as [->|(e & He & Hid & Hne & Ht & Hd)].
    { destruct Hb. left. by apply Hr. }
    exists e. rewrite Hid in *. split_and!; try done.
    + assert (result = {[r]}) as -> by (apply set_eq; intros x; by rewrite Hr, Hone, elem_of_singleton).
      apply elements_singleton.
    + intros ->. destruct Hb. left. by apply Hr.
Qed.

Lemma wp_tagReciprocal els i gw w :
  Forall2 (directed pr) (pr_Elements pr) els → pr_Elements pr !! i = Some gw →
  el_Type gw = element.Gateway → direction pr gw = Some convergent →
  wp (tagReciprocal frames els [i] (getElementIdReferences pr)
        (IndexProcessElements_ptr (pr_Elements pr))) w
     (returns (λ _ els', Forall2 (directed pr) (pr_Elements pr) els' ∧
        (∃ e', els' !! i = Some e' ∧ paired pr gw e') ∧
        ∀ j e, pr_Elements pr !! j = Some e → direction pr e = Some convergent → j ≠ i →
          els' !! j = els !! j)).
Proof.
  intros Hels Hi Ht Hd. apply list_elem_of_lookup_2 in Hi as Hgw.
  destruct (Forall2_lookup_l _ _ _ _ _ Hels Hi) as (gw' & Hi' & Hdg).
  pose proof (directed_id _ _ _ Hdg) as Hid. destruct (proj2 Hdg Ht) as (_ & g & Hg & _).
  unfold tagReciprocal. apply wp_bind.
  eapply wp_mono; [|eapply wp_recurseRecip; try done; by apply Hframes].
  intros w' [result|err|p]; simpl; [|done..]. intros Hr.
  assert (∀ x, x ∈ result ↔ opener pr gw gw 0 x) as Hr'.
  { intros x. rewrite Hr, elem_of_empty. tauto. }
  pose proof (openers_decided result gw Hgw Hr') as Hdec. rewrite Hi'. wp_steps.
  case_bool_decide as Hb.
  - rewrite getElementIdReferences_lookup, Hid.
    destruct (sources pr (el_Id gw)) as [|x l] eqn:Hs; [unfold direction in Hd; by rewrite Hs in Hd|].
    rewrite <-Hs. eapply wp_set_gateway; try done. intros els' Hels' He Hoth. split_and!; [done| |].
    + eexists. split; [done|]. eexists. simpl. rewrite Hg. split; [done|]. by right.
    + intros j e _ _ Hj. by apply Hoth.
  - destruct Hdec as (e & He & Hel & Hnull & Hone & Hne & Hte & Hde).
    apply list_elem_of_lookup in He as Hk. destruct Hk as [k Hk].
    destruct (Forall2_lookup_l _ _ _ _ _ Hels Hk) as (e' & Hk' & Hdir).
    rewrite Hel. simpl. rewrite (IndexProcessElements_ptr_lookup _ k e) by done. wp_steps.
    cbn [el_at]. rewrite Hk'. wp_steps.
    assert (k ≠ i) as Hki by (intros ->; congruence).
    eapply wp_set_gateway; try done. intros els1 Hels1 He1 Hoth1.
    rewrite <-Hoth1 in Hk' by done.
    eapply wp_set_gateway; try done. intros els2 Hels2 He2 Hoth2. split_and!; [done| |].
    + rewrite Hoth2 by done. eexists. split; [done|]. eexists. simpl. rewrite Hg. split; [done|].
      left. exists (el_Id e). simpl. by rewrite (directed_id _ _ _ Hdir).
    + intros j ej Hj Hdj Hji. destruct (decide (j = k)) as [->|]; [congruence|].
      by rewrite Hoth2, Hoth1.
Qed.

(** After the second loop has seen the first [k] elements. *)
Definition paired_upto (k : nat) (els : list Element) : Prop :=
  Forall2 (directed pr) (pr_Elements pr) els ∧
  ∀ j e e', j < k → pr_Elements pr !! j = Some e → els !! j = Some e' →
    el_Type e = element.Gateway → direction pr e = Some convergent → paired pr e e'.

Lemma wp_tag_pair k els w :
  k < length (pr_Elements pr) → paired_upto k els →
  wp (tag_pair frames (IndexProcessElements_ptr (pr_Elements pr)) (getElementIdReferences pr) els k) w
    (returns (λ _, paired_upto (S k))).
Proof.
  intros Hk [Hels Hpair]. destruct (lookup_lt_is_Some_2 (pr_Elements pr) k Hk) as [e He].
  destruct (Forall2_lookup_l _ _ _ _ _ Hels He) as (e' & He' & Hdir).
  assert (¬ (el_Type e = element.Gateway ∧ direction pr e = Some convergent) → paired_upto (S k) els) as Hskip.
  { intros Hnot. split; [done|]. intros j x x' Hj Hx Hx' Ht Hd.
    destruct (decide (j = k)) as [->|]; [|eapply Hpair; try done; lia].
    exfalso. apply Hnot. rewrite He in Hx. by simplify_eq. }
  unfold tag_pair. rewrite He'. apply wp_bind, wp_ret. rewrite (directed_type _ _ _ Hdir).
  case_bool_decide as Ht; [|apply wp_ret, Hskip; tauto].
  destruct (proj2 Hdir Ht) as (_ & g & -> & Hdg). apply wp_bind, wp_ret.
  case_bool_decide as Hd; [|apply wp_ret, Hskip; intros [_ ?]; congruence].
  apply wp_wrapping. eapply wp_mono; [|apply (wp_tagReciprocal els k e); congruence].
  intros w' [els'|err|p]; simpl; [|done..]. intros (Hels' & (x' & Hx' & Hp) & Hoth). split; [done|].
  intros j y y' Hj Hy Hy' Hty Hdy. destruct (decide (j = k)) as [->|Hne]; [congruence|].
  rewrite (Hoth j y) in Hy' by done. eapply Hpair; try done. lia.
Qed.

Lemma wp_pairs n k els w :
  k + n = length (pr_Elements pr) → paired_upto k els →
  wp (for_fold (seq k n)
        (tag_pair frames (IndexProcessElements_ptr (pr_Elements pr)) (getElementIdReferences pr)) els) w
    (returns (λ _, paired_upto (length (pr_Elements pr)))).
Proof.
  revert k els w. induction n as [|n IH]; intros k els w Hkn Hp; cbn [seq for_fold].
  - apply wp_ret. simpl. by replace (length _) with k by lia.
  - apply wp_bind. eapply wp_mono; [|by apply wp_tag_pair; [lia|]].
    intros w' [els'|err|p]; simpl; [|done..]. intros Hp'. apply IH; [lia|done].
Qed.
End tag_pairs.

(** (C19) in a process without loops, with a stack as deep as its longest path, the
    tagger ends.  It fails exactly where a gateway has neither one way in and
    several out nor several in and one out.  Otherwise it changes nothing but the
    gateways: each gets its direction, and each that closes branches is paired
    with the gateway found by going back along the flows, if there is exactly one,
    and else expects each of its sources. *)
Theorem tagGateways_pairs `{EnvOk} frames pr w :
  taggable frames pr →
  match (tagGateways frames pr (IndexProcessElements_ptr (pr_Elements pr))
           (getElementIdReferences pr) w).2 with
  | Ok pr' =>
      pr' <| pr_Elements := pr_Elements pr |> = pr ∧
      (∀ e, e ∈ pr_Elements pr → el_Type e = element.Gateway → is_Some (direction pr e)) ∧
      Forall2 (λ e e', directed pr e e' ∧
        (el_Type e = element.Gateway → direction pr e = Some convergent → paired pr e e'))
        (pr_Elements pr) (pr_Elements pr')
  | Err _ => ∃ e, e ∈ pr_Elements pr ∧ el_Type e = element.Gateway ∧ direction pr e = None
  | Panic _ => False
  end.
Proof.
  intros [Hids Hspec (rank & Hrank & Hframes)].
  change (wp (tagGateways frames pr (IndexProcessElements_ptr (pr_Elements pr))
    (getElementIdReferences pr)) w (λ _ r, match r with
    | Ok pr' => pr' <| pr_Elements := pr_Elements pr |> = pr ∧
      (∀ e, e ∈ pr_Elements pr → el_Type e = element.Gateway → is_Some (direction pr e)) ∧
      Forall2 (λ e e', directed pr e e' ∧
        (el_Type e = element.Gateway → direction pr e = Some convergent → paired pr e e'))
        (pr_Elements pr) (pr_Elements pr')
    | Err _ => ∃ e, e ∈ pr_Elements pr ∧ el_Type e = element.Gateway ∧ direction pr e = None
    | Panic _ => False end)).
  apply wp_bind. eapply wp_mono; [|by apply wp_directions].
  intros w' [els|err|p]; [|done..]. intros [Hels Hdir].
  apply wp_bind. eapply wp_mono; [|apply (wp_pairs pr frames Hids rank Hrank Hframes)].
  - intros w'' [els'|err|p]; simpl; [|done..]. intros [Hels' Hpair]. apply wp_ret. simpl.
    split_and!; [by destruct pr|done|]. apply Forall2_same_length_lookup_2; [by eapply Forall2_length|].
    intros j e e' He He'. split; [by eapply Forall2_lookup_lr|]. apply (Hpair j); try done.
    by eapply lookup_lt_Some.
  - by rewrite (Forall2_length _ _ _ Hels).
  - split; [done|]. intros j e e' Hj. lia.
Qed.

(** ** Loops *)
Section loops.
Context `{EnvOk} (pr : Process) (els : list Element) (gw : Element) (g : nat).
Context (Hids : NoDup (el_Id <$> flat_map subelements (pr_Elements pr))).
Context (Hels : Forall2 (directed pr) (pr_Elements pr) els).
Context (Hg : pr_Elements pr !! g = Some gw) (Hgate : el_Type gw = element.Gateway).

(** Places from which one can go back for ever without coming to an opener. *)
Definition endless (X : Element → nat → Prop) : Prop :=
  ∀ el n, X el n → ∃ n' e, level pr gw el n = Some n' ∧ e ∈ pr_Elements pr ∧
    el_Id el ∈ targets_of e ∧ X e n'.

(** The search ends with a value or with the stack, and never with a value where
    it can go back for ever. *)
Definition overflows (bad : Prop) (r : res error (gset string)) : Prop :=
  match r with Ok _ => ¬ bad | Err _ => False | Panic p => p = "stack overflow" end.

Lemma wp_recurse_overflows (X : Element → nat → Prop) frames i el result stack w :
  endless X → pr_Elements pr !! i = Some el →
  wp (recurseRecip frames els (IndexProcessElements_ptr (pr_Elements pr))
        (getElementIdReferences pr) [g] [i] result stack) w (λ _, overflows (X el stack)).
Proof.
  intros HX. revert i el result stack w.
  induction frames as [|frames IH]; intros i el result stack w Hi; cbn [recurseRecip]; [by apply wp_panic|].
  destruct (Forall2_lookup_l _ _ _ _ _ Hels Hg) as (gw' & Hg' & Hdg).
  destruct (Forall2_lookup_l _ _ _ _ _ Hels Hi) as (el' & Hi' & Hde).
  cbn [el_at]. rewrite Hg', Hi'. wp_steps.
  eapply wp_recip_step; [exact Hdg|exact Hde|done| |].
  { rewrite bool_decide_eq_true. split; [intros [= <-]; congruence|].
    intros Hid. by rewrite (same_position pr Hids i g el gw). }
  intros r Hr. rewrite (directed_id _ _ _ Hde).
  destruct (level pr gw el stack) as [n|] eqn:Hl; subst r.
  2: { apply wp_ret. intros (n' & e & Hl' & _)%HX. congruence. }
  rewrite getElementIdReferences_lookup.
  assert (∀ e, e ∈ pr_Elements pr → el_Id el ∈ targets_of e → el_Id e ∈ sources pr (el_Id el)) as Hsrc.
  { intros e He Ht. apply elem_of_sources. eauto. }
  destruct (sources pr (el_Id el)) as [|x l] eqn:Hs.
  { apply wp_ret. intros (n' & e & _ & He & Ht & _)%HX. by apply (not_elem_of_nil (el_Id e)), Hsrc. }
  rewrite <-Hs in Hsrc |- *.
  eapply (wp_mono _ _ (λ _, overflows (∃ e, e ∈ pr_Elements pr ∧ el_Id e ∈ sources pr (el_Id el) ∧ X e n))).
  { intros w' [r|err|p]; simpl; [|done..]. intros Hno (n' & e & Hl' & He & Ht & Hx)%HX.
    rewrite Hl in Hl'. simplify_eq. apply Hno. exists e. auto. }
  assert (∀ s, s ∈ sources pr (el_Id el) → ∃ j e, pr_Elements pr !! j = Some e ∧ el_Id e = s) as Hat.
  { intros s (e & He & <- & _)%elem_of_sources. apply list_elem_of_lookup in He as [j Hj]. eauto. }
  revert Hat. generalize (sources pr (el_Id el)) as srcs. clear Hs Hsrc. intros srcs.
  revert result w. induction srcs as [|s srcs IHs]; intros result w Hat; cbn [for_fold].
  - apply wp_ret. intros (e & _ & He & _). by apply elem_of_nil in He.
  - destruct (Hat s) as (j & e & Hj & <-); [left|]. apply wp_bind, wp_bind, wp_deref.
    rewrite (IndexProcessElements_ptr_lookup _ j e) by done. cbv beta iota.
    eapply wp_mono; [|by eapply (IH j e result n)]. intros w' [r|err|p]; simpl; [|done..]. intros Hno.
    eapply wp_mono; [|apply IHs; intros; apply Hat; by right].
    intros w'' [r'|err|p]; simpl; [|done..]. intros Hno' (e0 & He0 & [Heq|Hin]%elem_of_cons & Hx).
    + apply Hno. apply list_elem_of_lookup_2 in Hj. by rewrite <-(same_element pr Hids e0 e).
    + apply Hno'. by exists e0.
Qed.
End loops.

(** Where going back from a gateway that closes branches one can stay for ever
    in a loop whose gateways are of another type, no stack is deep enough: the
    tagger does not end. *)
Theorem tagReciprocal_overflows `{EnvOk} pr els gw g X frames w :
  NoDup (el_Id <$> flat_map subelements (pr_Elements pr)) →
  Forall2 (directed pr) (pr_Elements pr) els →
  pr_Elements pr !! g = Some gw → el_Type gw = element.Gateway →
  endless pr gw X → X gw 0 →
  (tagReciprocal frames els [g] (getElementIdReferences pr)
     (IndexProcessElements_ptr (pr_Elements pr)) w).2 = Panic "stack overflow".
Proof.
  intros Hids Hels Hg Hgate HX Hx.
  change (wp (tagReciprocal frames els [g] (getElementIdReferences pr)
    (IndexProcessElements_ptr (pr_Elements pr))) w (λ _ r, r = Panic "stack overflow")).
  apply wp_bind. eapply wp_mono; [|by eapply wp_recurse_overflows].
  intros w' [r|err|p]; simpl; [|done|by intros ->]. intros Hno. by destruct Hno.
Qed.

(** ** Examples: a fork that joins, and a fork behind a choice that leads back *)
Definition ex_gate (id : string) (type : GatewayType) (targets : list string) : Element :=
  mkElement id id element.Gateway "" "" (Some (mkTargets (map (mkTarget "" []) targets) (-1)))
    None None "" "" "" [] None ∅ ∅ None [] (Some (mkGatewaySpec type divergent "" [])) None None None false.

Definition ex_step (id type : string) (targets : list string) : Element :=
  mkElement id id type "" ""
    (match targets with [] => None | _ => Some (mkTargets (map (mkTarget "" []) targets) (-1)) end)
    None None "" "" "" [] None ∅ ∅ None [] None None None None false.

Definition ex_forked : Process :=
  mkProcess [ex_step "start" element.StartEvent ["fork"]; ex_gate "fork" parallel ["a"; "b"];
             ex_step "a" element.ManualTask ["join"]; ex_step "b" element.ManualTask ["join"];
             ex_gate "join" parallel ["end"]; ex_step "end" element.EndEvent []] "P" None.

Definition ex_rank (id : string) : nat :=
  default 0 (({["start" := 0; "fork" := 1; "a" := 2; "b" := 2; "join" := 3; "end" := 4]} : gmap string nat) !! id).

Definition acyclic_check (rank : string → nat) (frames : nat) (pr : Process) : bool :=
  forallb (λ e, forallb (λ t, bool_decide (rank (el_Id e) < rank t)) (targets_of e) &&
                bool_decide (rank (el_Id e) < frames)) (pr_Elements pr).

Lemma acyclic_check_spec rank frames pr :
  acyclic_check rank frames pr = true →
  (∀ e t, e ∈ pr_Elements pr → t ∈ targets_of e → rank (el_Id e) < rank t) ∧
  (∀ e, e ∈ pr_Elements pr → rank (el_Id e) < frames).
Proof.
  unfold acyclic_check. rewrite forallb_forall. intros Hc.
  assert (∀ e, e ∈ pr_Elements pr → (∀ t, t ∈ targets_of e → rank (el_Id e) < rank t) ∧ rank (el_Id e) < frames) as Hc'.
  { intros e He%list_elem_of_In%Hc. apply andb_true_iff in He as [Ht Hf].
    rewrite forallb_forall in Ht. split; [|by apply bool_decide_eq_true in Hf].
    intros t Hin%list_elem_of_In%Ht. by apply bool_decide_eq_true in Hin. }
  split; [intros e t He; by apply Hc'|intros e He; by apply Hc'].
Qed.

Lemma ex_forked_taggable : taggable 5 ex_forked.
Proof.
  split.
  - apply (bool_decide_unpack _). vm_compute. exact I.
  - intros e He. simpl in He. rewrite !elem_of_cons, elem_of_nil in He.
    destruct He as [->|[->|[->|[->|[->|[->|[]]]]]]]; simpl; try done; by eexists.
  - exists ex_rank. apply acyclic_check_spec. by vm_compute.
Qed.

Lemma tagGateways_pairs_witness :
  ∃ w' pr', @tagGateways sim 5 ex_forked (IndexProcessElements_ptr (pr_Elements ex_forked))
    (getElementIdReferences ex_forked) world_init = (w', Ok pr') ∧
    (∃ e', pr_Elements pr' !! 4 = Some e' ∧ paired ex_forked (ex_gate "join" parallel ["end"]) e').
Proof.
  pose proof (@tagGateways_pairs sim (Sim_ok _ _ _) 5 ex_forked world_init ex_forked_taggable) as Ht.
  destruct (tagGateways 5 ex_forked _ _ _) as [w' [pr'|err|p]] eqn:Hr; [|exfalso..].
  - exists w', pr'. split; [done|]. destruct Ht as (_ & _ & Hf).
    destruct (Forall2_lookup_l _ _ _ 4 (ex_gate "join" parallel ["end"]) Hf eq_refl) as (e' & He' & _ & Hp).
    exists e'. split; [done|]. by apply Hp.
  - apply (f_equal snd) in Hr. vm_compute in Hr. discriminate Hr.
  - exact Ht.
Defined.

(** A task that may be tried again, in one of two parallel branches. *)
Definition ex_looping : Process :=
  mkProcess [ex_step "start" element.StartEvent ["fork"]; ex_gate "fork" parallel ["a"; "again"];
             ex_step "a" element.ManualTask ["join"]; ex_gate "again" exclusive ["try"];
             ex_step "try" element.ManualTask ["ok"]; ex_gate "ok" exclusive ["again"; "join"];
             ex_gate "join" parallel ["end"]; ex_step "end" element.EndEvent []] "P" None.

Definition ex_directed : list Element :=
  map (λ e, e <| el_Gateway ::= fmap (λ g, g <| gs_Direction :=
    default divergent (direction ex_looping e) |>) |>) (pr_Elements ex_looping).

(** From the join back into the loop, and around it. *)
Definition ex_around (e : Element) (n : nat) : Prop :=
  n = 0 ∧ e ∈ [ex_gate "join" parallel ["end"]; ex_gate "ok" exclusive ["again"; "join"];
               ex_step "try" element.ManualTask ["ok"]; ex_gate "again" exclusive ["try"]].

Lemma ex_around_endless : endless ex_looping (ex_gate "join" parallel ["end"]) ex_around.
Proof.
  intros e n [-> He]. rewrite !elem_of_cons, elem_of_nil in He. exists 0.
  destruct He as [->|[->|[->|[->|[]]]]];
    [exists (ex_gate "ok" exclusive ["again"; "join"])|exists (ex_step "try" element.ManualTask ["ok"])
    |exists (ex_gate "again" exclusive ["try"])|exists (ex_gate "ok" exclusive ["again"; "join"])];
    (split; [by vm_compute|]); split_and!;
    solve [done|repeat first [by left|right]|split; [done|repeat first [by left|right]]].
Qed.

Lemma tagReciprocal_overflows_witness :
  (@tagReciprocal sim 1000 ex_directed [6] (getElementIdReferences ex_looping)
     (IndexProcessElements_ptr (pr_Elements ex_looping)) world_init).2 = Panic "stack overflow".
Proof.
  apply (@tagReciprocal_overflows sim (Sim_ok _ _ _) ex_looping ex_directed
    (ex_gate "join" parallel ["end"]) 6 ex_around).
  - apply (bool_decide_unpack _). vm_compute. exact I.
  - unfold ex_directed. apply Forall2_fmap_r, Forall2_same_length_lookup_2; [done|].
    intros i e e' He He'. simplify_eq. apply list_elem_of_lookup_2 in He. simpl in He.
    rewrite !elem_of_cons, elem_of_nil in He.
    destruct He as [->|[->|[->|[->|[->|[->|[->|[->|[]]]]]]]]]; (split; [done|]); try done;
      intros _; (split; [done|]); eexists; (split; [done|by vm_compute]).
  - done.
  - done.
  - exact ex_around_endless.
  - split; [done|left].
Defined.
