(* ===== verification/Validation.v ===== *)
(** * Validation of a parsed workflow

    [client/parser/validation.go], with the functions of [parser.go] on the output
    of gateways that it shares with the parser.  Recursion over the graph of a
    process takes the number of frames that fit on the stack. *)
From S2P Require Import Prelude Model Errors Env Sim Common Wp Vars.

(** ** Names *)
Definition valid_key_char (c : ascii) : bool :=
  let n := nat_of_ascii c in
  (48 <=? n) && (n <=? 57) || (65 <=? n) && (n <=? 90) || (97 <=? n) && (n <=? 122) ||
  bool_decide (c ∈ ["-"; "/"; "_"; "="; "."]%char).

(** [validKeyRe], [\A[-/_=\.a-zA-Z0-9]+\z] *)
Definition validKeyRe (name : string) : bool :=
  bool_decide (name ≠ "") && forallb valid_key_char (String.list_ascii_of_string name).

Definition validName (name : string) : option error :=
  let err := New ("'" +:+ name +:+ "' contains invalid characters when used with SHAR") in
  let bs := String.list_ascii_of_string name in
  if bool_decide (bs = [] ∨ head bs = Some "."%char ∨ last bs = Some "."%char) then Some err
  else if validKeyRe name then None else Some err.

(** [valError] unwraps to the error it holds. *)
Definition valError (err : sentinel) (context : string) : error := Wrap context (Sentinel err).

Definition validServiceTask (j : Element) : option error :=
  if bool_decide (el_Execute j = "") then
    Some (Wrap "service task validation failed" (valError ErrMissingServiceTaskDefinition (el_Id j)))
  else None.

(** [if err := f(); err != nil { return fmt.Errorf(..., err) }] *)
Definition reject `{Env} (msg : string) (r : option error) : M unit :=
  match r with Some err => throw (Wrap msg err) | None => mret tt end.

Fixpoint findElementIdsWithType (eleIds : list string) (typ : string) (elements : list Element) :
    list string :=
  match elements with
  | [] => eleIds
  | e :: rest =>
      findElementIdsWithType (if bool_decide (el_Type e = typ) then eleIds ++ [el_Id e] else eleIds)
        typ rest
  end.

(** ** The outputs of the branches of a gateway *)
Section gateways.
Context `{Env}.

Fixpoint findGatewayBranchOutputTransforms (stack : nat) (outboundTransform : gmap string string)
    (el : option Element) (convergentGatewayId : string) (elesById : gmap string Element) :
    M (gmap string string) :=
  match stack with
  | O => panic "stack overflow"
  | S stack =>
      el ← deref "el" el;
      outbound ← deref "el.Outbound" (el_Outbound el);
      (fix loop (targets : list Target) (outboundTransform : gmap string string) :=
         match targets with
         | [] => mret outboundTransform
         | target :: rest =>
             targetEle ← deref "targetEle" (elesById !! tg_Target target);
             let outboundTransform := el_OutputTransform targetEle ∪ outboundTransform in
             if bool_decide (el_Id targetEle = convergentGatewayId) then mret outboundTransform
             else
               outboundTransform ← findGatewayBranchOutputTransforms stack outboundTransform
                 (Some targetEle) convergentGatewayId elesById;
               loop rest outboundTransform
         end) (tgs_Target outbound) outboundTransform
  end.

(** The first loop of [findConvergentGatewayOutputTransforms]: the convergent
    gateway by the divergent one that it is paired with. *)
Definition gateway_pairs (elesById : gmap string Element) : M (gmap string string) :=
  els ← range elesById;
  for_fold els (λ pairs e,
    if bool_decide (el_Type e.2 = element.Gateway) then
      g ← deref "e.Gateway" (el_Gateway e.2);
      mret (if bool_decide (gs_Direction g = convergent)
            then <[gs_ReciprocalId g := el_Id e.2]> pairs else pairs)
    else mret pairs) ∅.

(** The handler may change the elements, which the next turn of the loop sees. *)
Definition findConvergentGatewayOutputTransforms {A} (stack : nat)
    (elesById : gmap string Element) (acc : A)
    (handler : gmap string string → string → gmap string Element → A →
               M (gmap string Element * A)) : M (gmap string Element * A) :=
  pairs ← gateway_pairs elesById;
  l ← range pairs;
  for_fold l (λ '(elesById, acc) '(divergentGatewayId, convergentGatewayId),
    transform ← findGatewayBranchOutputTransforms stack ∅ (elesById !! divergentGatewayId)
                  convergentGatewayId elesById;
    handler transform convergentGatewayId elesById acc) (elesById, acc).

Definition populateConvergentGatewayOutputTransforms
    (convergentGatewayOutboundTransform : gmap string string) (convergentGatewayId : string)
    (elesById : gmap string Element) (_ : unit) : M (gmap string Element * unit) :=
  convergentGateway ← deref "convergentGateway" (elesById !! convergentGatewayId);
  mret (<[convergentGatewayId :=
            convergentGateway <| el_OutputTransform := convergentGatewayOutboundTransform |>]> elesById, tt).

(** The handler of the validation: the names are added to the variables. *)
Definition add_output_names (transform : gmap string string) (_ : string)
    (elesById : gmap string Element) (outputVars : gset string) :
    M (gmap string Element * gset string) :=
  mret (elesById, dom transform ∪ outputVars).
End gateways.

(** ** Undefined variables *)
Record branchContext := mkBranchContext {
  branchOutputVars : gset string;
  bc_visited : gset string }.

#[export] Instance branchContext_settable : Settable branchContext := λ r,
  mkBranchContext (branchOutputVars r) (bc_visited r).

(** What the recursion changes: the elements that refer to undefined variables,
    and the contexts of the branches. *)
Abbreviation undefined_vars := (gmap string (gset string)).
Abbreviation branch_contexts := (gmap string branchContext).

Section variables.
Context `{Env}.

Definition checkUndefinedVarReference (eleId expr : string) (outputVars : gset string)
    (elesReferencingUndefinedVars : undefined_vars) : M undefined_vars :=
  vars ← wrapping (Wrap "invalid input variable expression") (lift_sum (GetVariables expr));
  mret (foldl (λ u vr,
    if bool_decide (vr ∈ outputVars) then u
    else <[eleId := {[vr]} ∪ default ∅ (u !! eleId)]> u) elesReferencingUndefinedVars vars).

(** The variables an element adds to those of its branch: its outputs, those of
    the errors it catches, and at a parallel join those of the gateways. *)
Definition element_outputs (stack : nat) (ele : Element) (eles : gmap string Element)
    (outputVars : gset string) : M (gset string) :=
  let outputVars := dom (el_OutputTransform ele) ∪ outputVars in
  outputVars ← (if bool_decide (el_Type ele = element.Gateway) then
      g ← deref "ele.Gateway" (el_Gateway ele);
      if bool_decide (gs_Direction g = convergent ∧ gs_Type g = parallel) then
        r ← findConvergentGatewayOutputTransforms stack eles outputVars add_output_names;
        mret r.2
      else mret outputVars
    else mret outputVars);
  mret (foldl (λ vs catchError, dom (ce_OutputTransform catchError) ∪ vs) outputVars (el_Errors ele)).

(** The checks of the input transform and of the conditions on the flows. *)
Definition check_references (eleId : string) (ele : Element) (outputVars : gset string)
    (undefined : undefined_vars) : M undefined_vars :=
  inputs ← range (el_InputTransform ele);
  undefined ← for_fold inputs (λ undefined e,
    checkUndefinedVarReference eleId e.2 outputVars undefined) undefined;
  match el_Outbound ele with
  | None => mret undefined
  | Some outbound =>
      for_fold (tgs_Target outbound) (λ undefined target,
        for_fold (tg_Conditions target) (λ undefined conditionExpr,
          checkUndefinedVarReference eleId conditionExpr outputVars undefined) undefined) undefined
  end.

(** The elements to go on with. *)
Definition outbounds_of (ele : Element) (eles : gmap string Element) : M (list string) :=
  let outbounds := map ce_Target (el_Errors ele) ++
    match el_Outbound ele with Some outbound => map tg_Target (tgs_Target outbound) | None => [] end in
  if bool_decide (el_Type ele = element.LinkIntermediateThrowEvent) then
    l ← range eles;
    let linkIntermediatCatchElement := foldl (λ found e,
      if bool_decide (el_Type e.2 = element.LinkIntermediateCatchEvent ∧
                      el_Execute ele = el_Execute e.2) then Some e.2 else found) None l in
    match linkIntermediatCatchElement with
    | None => throw (New "failed to find link intermediate catch element for link intermediate throw element")
    | Some e => mret (outbounds ++ [el_Id e])
    end
  else mret outbounds.

(** The loop over the elements to go on with, where [go] is the recursive call. *)
Fixpoint branch_loop
    (go : string → string → undefined_vars → branch_contexts → M (undefined_vars * branch_contexts))
    (eleId branchId : string) (isNewBranch : bool) (idx : nat) (outbounds : list string)
    (undefined : undefined_vars) (branchContexts : branch_contexts) :
    M (undefined_vars * branch_contexts) :=
  match outbounds with
  | [] => mret (undefined, branchContexts)
  | outbound :: rest =>
      bCon ← deref "branchContexts[branchId]" (branchContexts !! branchId);
      let bCon := bCon <| bc_visited ::= λ s, {[eleId]} ∪ s |> in
      let branchContexts := <[branchId := bCon]> branchContexts in
      let newBranchId := if isNewBranch then branchId +:+ "-" +:+ pretty idx else branchId in
      let branchContexts :=
        if isNewBranch then <[newBranchId := bCon]> branchContexts else branchContexts in
      '(undefined, branchContexts) ←
        (if bool_decide (outbound ∈ bc_visited bCon) then mret (undefined, branchContexts)
         else go outbound newBranchId undefined branchContexts);
      branch_loop go eleId branchId isNewBranch (S idx) rest undefined branchContexts
  end.

(** The sets of a branch are shared through [branchContexts], so what the source
    writes through [outputVars] is written back there. *)
Fixpoint findElementsReferencingUndefinedVars (stack : nat) (eles : gmap string Element)
    (eleId branchId : string) (undefined : undefined_vars) (branchContexts : branch_contexts) :
    M (undefined_vars * branch_contexts) :=
  match stack with
  | O => panic "stack overflow"
  | S stack =>
      ele ← deref "ele" (eles !! eleId);
      if bool_decide (el_Type ele = "endEvent") then mret (undefined, branchContexts)
      else
        bContext ← deref "branchContexts[branchId]" (branchContexts !! branchId);
        outputVars ← element_outputs stack ele eles (branchOutputVars bContext);
        let branchContexts :=
          <[branchId := bContext <| branchOutputVars := outputVars |>]> branchContexts in
        undefined ← check_references eleId ele outputVars undefined;
        outbounds ← outbounds_of ele eles;
        branch_loop (λ outbound newBranchId undefined branchContexts,
            findElementsReferencingUndefinedVars stack eles outbound newBranchId undefined branchContexts)
          eleId branchId (bool_decide (1 < length outbounds)) 0 outbounds undefined branchContexts
  end.

Definition buildErrorMessage (elementsReferencingUndefinedVars : undefined_vars) : M string :=
  l ← range elementsReferencingUndefinedVars;
  mret (Prelude.Join "; " (replicate (size elementsReferencingUndefinedVars) "" ++
    map (λ e, e.1 +:+ ":[" +:+ Prelude.Join "," (elements e.2) +:+ "]") l)).

(** A turn of the loop of [checkVariables] over the start events: each starts a
    branch. *)
Definition start_branch (stack : nat) (eles : gmap string Element)
    (st : undefined_vars * branch_contexts) (start : nat * string) : M (undefined_vars * branch_contexts) :=
  wrapping (Wrap "error when findElementsReferencingUndefinedVars")
    (findElementsReferencingUndefinedVars stack eles start.2 (pretty start.1) st.1
       (<[pretty start.1 := mkBranchContext ∅ ∅]> st.2)).

Definition checkVariables (stack : nat) (process : Process) : M unit :=
  let elesById := IndexProcessElements (pr_Elements process) ∅ in
  let startElementIds := findElementIdsWithType [] element.StartEvent (pr_Elements process) in
  st ← for_fold (imap pair startElementIds) (start_branch stack elesById) (∅, ∅);
  if bool_decide (size st.1 = 0) then mret tt
  else
    errMessage ← buildErrorMessage st.1;
    throw (Wrap ("elements referencing potentially undefined variables: " +:+ errMessage)
             (Sentinel ErrUndefinedVariable)).

(** ** The model *)
Definition valid_element (ele : Element) : M unit :=
  if bool_decide (el_Id ele = "") then
    throw (Wrap "model validation failed" (valError ErrMissingID (el_Name ele)))
  else if bool_decide (el_Type ele = element.ServiceTask) then
    reject "invalid service task" (validServiceTask ele)
  else if bool_decide (el_Type ele = element.Gateway) then
    g ← deref "ele.Gateway" (el_Gateway ele);
    if bool_decide (gs_Direction g = convergent ∧ gs_ReciprocalId g = "") then
      throw (Wrap ("gateway " +:+ el_Name ele +:+ "(" +:+ el_Id ele +:+ ") has no opening gateway")
               (Sentinel ErrMissingOpeningGateway))
    else mret tt
  else mret tt.

Definition validModel (stack : nat) (workflow : Workflow) : M unit :=
  ps ← range (wf_Process workflow);
  _ ← for_each ps (λ p,
    _ ← reject "invalid process name" (validName (pr_Id p.2));
    _ ← for_each (pr_Elements p.2) valid_element;
    wrapping (Wrap "invalid variable definition") (checkVariables stack p.2));
  for_each (wf_Messages workflow) (λ i, reject "invalid message name" (validName (el_Name i))).
End variables.

(** ** The specification: what is defined where a variable is used *)
Section defined.
Context `{Env} (eles : gmap string Element).

(** The variables of the input transform and of the conditions on the flows. *)
Definition uses (ele : Element) (v : string) : Prop :=
  ∃ expr vars, GetVariables expr = inl vars ∧ v ∈ vars ∧
    ((∃ k, el_InputTransform ele !! k = Some expr) ∨
     (∃ o t, el_Outbound ele = Some o ∧ t ∈ tgs_Target o ∧ expr ∈ tg_Conditions t)).

Definition catches (ele e : Element) : Prop :=
  el_Type e = element.LinkIntermediateCatchEvent ∧ el_Execute ele = el_Execute e.

(** Where an element leads to: along a flow, to the handler of an error, or over a
    link that is caught once. *)
Definition leads (ele : Element) (y : string) : Prop :=
  y ∈ map ce_Target (el_Errors ele) ∨
  (∃ o, el_Outbound ele = Some o ∧ y ∈ map tg_Target (tgs_Target o)) ∨
  (el_Type ele = element.LinkIntermediateThrowEvent ∧ ∃ id e, eles !! id = Some e ∧ catches ele e ∧
     (∀ id' e', eles !! id' = Some e' → catches ele e' → e' = e) ∧ y = el_Id e).

(** Paths without repetition, the last element first; they end at end events. *)
Inductive extends : list string → list string → Prop :=
  | extends_step x p ele y :
      eles !! x = Some ele → el_Type ele ≠ element.EndEvent → leads ele y → y ∉ x :: p →
      extends (x :: p) (y :: x :: p).

Definition joins (ele : Element) : Prop :=
  el_Type ele = element.Gateway ∧
  ∃ g, el_Gateway ele = Some g ∧ gs_Direction g = convergent ∧ gs_Type g = parallel.

(** What an element of a path has defined: its outputs, those of the errors it
    catches, and at a parallel join the output of some element. *)
Definition outputs (ele : Element) (v : string) : Prop :=
  v ∈ dom (el_OutputTransform ele) ∨
  (∃ c, c ∈ el_Errors ele ∧ v ∈ dom (ce_OutputTransform c)) ∨
  (joins ele ∧ ∃ id e, eles !! id = Some e ∧ v ∈ dom (el_OutputTransform e)).

Definition provides (p : list string) (v : string) : Prop :=
  ∃ x ele, x ∈ p ∧ eles !! x = Some ele ∧ outputs ele v.

Definition flagged (u : undefined_vars) (id v : string) : Prop := ∃ s, u !! id = Some s ∧ v ∈ s.

(** Every use on a path that goes on from [p] is provided for or reported. *)
Definition covered (p : list string) (u : undefined_vars) : Prop :=
  ∀ x q ele v, rtc extends p (x :: q) → eles !! x = Some ele → el_Type ele ≠ element.EndEvent →
    uses ele v → provides (x :: q) v ∨ flagged u x v.
End defined.

Section defined_lemmas.
Context `{EnvOk} (eles : gmap string Element).

Lemma provides_mono p q v : p ⊆ q → provides eles p v → provides eles q v.
Proof. intros Hpq (x & ele & Hx & Hr). exists x, ele. by split; [apply Hpq|]. Qed.

Definition grows (u u' : undefined_vars) : Prop := ∀ id v, flagged u id v → flagged u' id v.

Lemma covered_mono p u u' : grows u u' → covered eles p u → covered eles p u'.
Proof. intros Hu Hc x q ele v Hr He Ht Hv. destruct (Hc x q ele v) as [?|?]; auto. Qed.

Lemma flag_grows eleId vr u : grows u (<[eleId := {[vr]} ∪ default ∅ (u !! eleId)]> u).
Proof.
  intros id v (s & Hs & Hv). destruct (decide (eleId = id)) as [->|Hne].
  - exists ({[vr]} ∪ s). rewrite lookup_insert_eq, Hs. split; [done|]. by apply elem_of_union_r.
  - exists s. by rewrite lookup_insert_ne.
Qed.

Lemma checkUndefinedVarReference_yields eleId expr outputVars u :
  yields (checkUndefinedVarReference eleId expr outputVars u) (λ u', grows u u' ∧
    ∀ vars v, GetVariables expr = inl vars → v ∈ vars → v ∈ outputVars ∨ flagged u' eleId v).
Proof.
  unfold checkUndefinedVarReference. apply (yields_seq (λ vars, GetVariables expr = inl vars)).
  { apply yields_wrapping. unfold lift_sum.
    destruct (GetVariables expr); [by apply yields_ret|apply yields_throw]. }
  intros vars ->. apply yields_ret.
  enough (∀ u, let u' := foldl (λ u vr, if bool_decide (vr ∈ outputVars) then u
      else <[eleId := {[vr]} ∪ default ∅ (u !! eleId)]> u) u vars in
    grows u u' ∧ ∀ v, v ∈ vars → v ∈ outputVars ∨ flagged u' eleId v) as Hf.
  { destruct (Hf u) as [Hg Hv]. split; [done|]. intros ? v [= <-]. apply Hv. }
  clear u. induction vars as [|vr vars IH]; intros u; cbn [foldl].
  - split; [by intros ? ?|]. by intros v ?%elem_of_nil.
  - case_bool_decide as Hin; [destruct (IH u) as [Hg Hv]|
      destruct (IH (<[eleId := {[vr]} ∪ default ∅ (u !! eleId)]> u)) as [Hg Hv]].
    + split; [done|]. intros v [->|?]%elem_of_cons; [by left|by apply Hv].
    + split; [intros ? ? ?; by apply Hg, flag_grows|].
      intros v [->|?]%elem_of_cons; [|by apply Hv]. right. apply Hg. eexists.
      rewrite lookup_insert_eq. split; [done|]. by apply elem_of_union_l, elem_of_singleton.
Qed.

(** A loop of checks reports what each of them finds. *)
Lemma check_loop {A} eleId (outputVars : gset string) (exprs : A → string → Prop) (f : undefined_vars → A → M undefined_vars) l u :
  (∀ a u, a ∈ l → yields (f u a) (λ u', grows u u' ∧ ∀ expr vars v, exprs a expr →
     GetVariables expr = inl vars → v ∈ vars → v ∈ outputVars ∨ flagged u' eleId v)) →
  yields (for_fold l f u) (λ u', grows u u' ∧ ∀ a expr vars v, a ∈ l → exprs a expr →
     GetVariables expr = inl vars → v ∈ vars → v ∈ outputVars ∨ flagged u' eleId v).
Proof.
  revert u. induction l as [|a l IH]; intros u Hf; cbn [for_fold].
  - apply yields_ret. split; [by intros ? ?|]. by intros ? ? ? ? ?%elem_of_nil.
  - eapply yields_seq; [apply Hf; left|]. intros u1 [Hg1 Hv1].
    eapply yields_mono; [apply IH; intros; apply Hf; by right|]. intros u2 [Hg2 Hv2]. split.
    + intros ? ? ?. by apply Hg2, Hg1.
    + intros a' expr vars v [->|Ha]%elem_of_cons He Hg Hv; [|by eapply Hv2].
      destruct (Hv1 expr vars v) as [|?]; [done..|by left|right; by apply Hg2].
Qed.

Lemma check_references_yields eleId ele outputVars u :
  yields (check_references eleId ele outputVars u) (λ u', grows u u' ∧
    ∀ v, uses ele v → v ∈ outputVars ∨ flagged u' eleId v).
Proof.
  unfold check_references.
  apply (yields_seq (λ inputs, ∀ k expr, el_InputTransform ele !! k = Some expr → (k, expr) ∈ inputs)).
  { intros w a [= <-] k expr Hk. by rewrite map_order_perm, elem_of_map_to_list. }
  intros inputs Hin. eapply yields_seq.
  { apply (check_loop eleId outputVars (λ (e : string * string) expr, expr = e.2)). intros e u' _.
    eapply yields_mono; [apply checkUndefinedVarReference_yields|].
    intros u'' [Hg Hv]. split; [done|]. by intros ? vars v -> ? ?; eapply Hv. }
  intros u1 [Hg1 Hv1]. destruct (el_Outbound ele) as [o|] eqn:Ho.
  - eapply yields_mono.
    { apply (check_loop eleId outputVars (λ t expr, expr ∈ tg_Conditions t)). intros t u' _.
      eapply yields_mono; [apply (check_loop eleId outputVars (λ c expr, expr = c))|].
      - intros c u'' _. eapply yields_mono; [apply checkUndefinedVarReference_yields|].
        intros u3 [Hg Hv]. split; [done|]. by intros ? vars v -> ? ?; eapply Hv.
      - intros u'' [Hg Hv]. split; [done|]. intros expr vars v Hc. by eapply Hv. }
    intros u2 [Hg2 Hv2]. split; [intros ? ? ?; by apply Hg2, Hg1|].
    intros v (expr & vars & Hgv & Hv & [[k Hk]|(o' & t & Ho' & Ht & Hc)]);
      [|rewrite Ho in Ho'; simplify_eq; by eapply Hv2].
    destruct (Hv1 (k, expr) expr vars v) as [|?]; [by apply Hin|done..|by left|right; by apply Hg2].
  - apply yields_ret. split; [done|].
    intros v (expr & vars & Hgv & Hv & [[k Hk]|(o & t & Ho' & _)]); [|by rewrite Ho in Ho'].
    apply (Hv1 (k, expr) expr vars v); [by apply Hin|done..].
Qed.

(** The outputs of the branches of a gateway are outputs of elements. *)
Definition some_output (v : string) : Prop :=
  ∃ id e, eles !! id = Some e ∧ v ∈ (dom (el_OutputTransform e) : gset string).

Lemma findGatewayBranch_yields stack acc el conv :
  yields (findGatewayBranchOutputTransforms stack acc el conv eles) (λ t, ∀ v,
    v ∈ (dom t : gset string) → v ∈ (dom acc : gset string) ∨ some_output v).
Proof.
  revert acc el. induction stack as [|stack IH]; intros acc el; cbn [findGatewayBranchOutputTransforms];
    [apply yields_panic|].
  eapply yields_seq; [by apply (yields_deref _ _ (λ _, True))|]. intros e _.
  eapply yields_seq; [by apply (yields_deref _ _ (λ _, True))|]. intros o _.
  revert acc. induction (tgs_Target o) as [|t ts IHt]; intros acc.
  - apply yields_ret. tauto.
  - eapply yields_seq; [apply (yields_deref _ _ (λ te, eles !! tg_Target t = Some te)); by intros|].
    intros te Hte.
    assert (∀ v, v ∈ (dom (el_OutputTransform te ∪ acc) : gset string) → v ∈ (dom acc : gset string) ∨ some_output v)
      as Hu.
    { intros v. rewrite dom_union, elem_of_union. intros [?|?]; [right; by exists (tg_Target t), te|by left]. }
    case_bool_decide; [by apply yields_ret|].
    eapply yields_seq; [apply IH|]. intros acc' Hacc'.
    eapply yields_mono; [apply IHt|]. intros r Hr v [Hv%Hacc'|?]%Hr; [|by right].
    destruct Hv as [?%Hu|?]; [done|by right].
Qed.

Lemma add_output_names_yields stack vs :
  yields (findConvergentGatewayOutputTransforms stack eles vs add_output_names) (λ r,
    ∀ v, v ∈ r.2 → v ∈ vs ∨ some_output v).
Proof.
  unfold findConvergentGatewayOutputTransforms.
  apply (yields_seq (λ _, True)); [by intros ? ?|]. intros pairs _.
  apply (yields_seq (λ _, True)); [by intros ? ?|]. intros l _.
  eapply yields_mono.
  { apply (yields_for_fold (λ _ r, r.1 = eles ∧ ∀ v, v ∈ r.2 → v ∈ vs ∨ some_output v)); [split; [done|tauto]|].
    intros [div conv] _ [els' vs'] [Heq Hvs]. simpl in Heq, Hvs. subst els'.
    eapply yields_seq; [apply findGatewayBranch_yields|]. intros t Ht. apply yields_ret. simpl.
    split; [done|]. intros v [Hv%Ht|?]%elem_of_union; [|by apply Hvs].
    destruct Hv as [Hv|?]; [|by right]. by rewrite dom_empty, elem_of_empty in Hv. }
  by intros r [_ ?].
Qed.

Lemma element_outputs_yields stack x ele p vs :
  eles !! x = Some ele → (∀ v, v ∈ vs → provides eles p v) →
  yields (element_outputs stack ele eles vs) (λ vs', ∀ v, v ∈ vs' → provides eles (x :: p) v).
Proof.
  intros Hx Hvs. unfold element_outputs.
  assert (∀ v, outputs eles ele v → provides eles (x :: p) v) as Hown.
  { intros v Hv. exists x, ele. split_and!; [left|done..]. }
  assert (∀ v, v ∈ vs → provides eles (x :: p) v) as Hvs'.
  { intros v Hv. eapply provides_mono; [|by apply Hvs]. by apply list_subseteq_cons. }
  set (vs1 := dom (el_OutputTransform ele) ∪ vs).
  assert (∀ v, v ∈ vs1 → provides eles (x :: p) v) as Hvs1.
  { intros v [Hv|?]%elem_of_union; [|by apply Hvs']. apply Hown. by left. }
  apply (yields_seq (λ vs2 : gset string, ∀ v, v ∈ vs2 → provides eles (x :: p) v)).
  - case_bool_decide as Ht; [|by apply yields_ret].
    eapply yields_seq; [apply (yields_deref _ _ (λ g, el_Gateway ele = Some g)); by intros|]. intros g Hg.
    case_bool_decide as Hj; [|by apply yields_ret].
    eapply yields_seq; [apply add_output_names_yields|]. intros r Hr. apply yields_ret.
    intros v [?|?]%Hr; [by apply Hvs1|]. apply Hown. do 2 right. split; [|done].
    split; [done|]. exists g. by destruct Hj.
  - intros vs2 Hvs2. apply yields_ret.
    assert (∀ cs, cs ⊆ el_Errors ele → ∀ vs : gset string, (∀ v, v ∈ vs → provides eles (x :: p) v) → ∀ v,
      v ∈ foldl (λ vs c, dom (ce_OutputTransform c) ∪ vs) vs cs → provides eles (x :: p) v) as Hcs.
    { intros cs. induction cs as [|c cs IH]; intros Hsub vs0 Hvs0; cbn [foldl]; [done|].
      apply IH; [intros y Hy; apply Hsub; by right|].
      intros v [Hv|?]%elem_of_union; [|by apply Hvs0]. apply Hown. right. left. exists c.
      split; [apply Hsub; left|done]. }
    by apply Hcs.
Qed.

Lemma outbounds_of_yields ele :
  yields (outbounds_of ele eles) (λ outs, ∀ y, leads eles ele y → y ∈ outs).
Proof.
  unfold outbounds_of. set (outs := _ ++ _).
  assert (∀ y, y ∈ map ce_Target (el_Errors ele) ∨
    (∃ o, el_Outbound ele = Some o ∧ y ∈ map tg_Target (tgs_Target o)) → y ∈ outs) as Hout.
  { intros y [?|(o & Ho & ?)]; apply elem_of_app; [by left|right]. by rewrite Ho. }
  case_bool_decide as Hl.
  2: { apply yields_ret. intros y [?|[?|[? _]]]; [apply Hout; by left|apply Hout; by right|done]. }
  apply (yields_seq (λ l, ∀ id e, eles !! id = Some e ↔ (id, e) ∈ l)).
  { intros w a [= <-] id e. by rewrite map_order_perm, elem_of_map_to_list. }
  intros l Hels. set (found := foldl _ _ _).
  assert (∀ (ls : list (string * Element)) o,
    (∀ e, o = Some e → ∃ id, eles !! id = Some e ∧ catches ele e) → ls ⊆ l →
    let found := foldl (λ found (e : string * Element), if bool_decide (el_Type e.2 = element.LinkIntermediateCatchEvent ∧
                      el_Execute ele = el_Execute e.2) then Some e.2 else found) o ls in
    (∀ e, found = Some e → ∃ id, eles !! id = Some e ∧ catches ele e) ∧
    (found = None → ∀ e, e ∈ ls → ¬ catches ele e.2)) as Hf.
  { intros ls. induction ls as [|[id e] ls IH]; intros o Ho Hsub; cbn [foldl].
    - split; [done|]. by intros _ ? ?%elem_of_nil.
    - assert (ls ⊆ l) as Hsub' by (intros z Hz; apply Hsub; by right). case_bool_decide as Hc; simpl in Hc.
      + destruct (IH (Some e)) as [H1 H2]; [|done|].
        { intros ? [= <-]. exists id. split; [|done]. apply Hels, Hsub. left. }
        split; [done|]. intros Hn. exfalso.
        assert (∀ ls, foldl (λ found (e : string * Element), if bool_decide (el_Type e.2 = element.LinkIntermediateCatchEvent ∧
                      el_Execute ele = el_Execute e.2) then Some e.2 else found) (Some e) ls ≠ None) as Hne; [|by apply Hne in Hn].
        clear. intros ls. generalize e. induction ls as [|y ls IH]; intros e0; cbn [foldl]; [done|].
        case_bool_decide; apply IH.
      + destruct (IH o) as [H1 H2]; [done..|]. split; [done|].
        intros Hn z [->|Hz]%elem_of_cons; [done|by apply H2]. }
  destruct (Hf l None) as [Hsome Hnone]; [done..|]. fold found in Hsome, Hnone.
  destruct found as [e|]; [|apply yields_throw]. apply yields_ret.
  intros y [?|[?|(_ & id & e' & He' & Hc & Huniq & ->)]]; apply elem_of_app; [left; apply Hout; by left|left; apply Hout; by right|right].
  destruct (Hsome e eq_refl) as (id' & He & Hce). rewrite (Huniq _ _ He Hce). left.
Qed.

(** What the traversal from the head of a path achieves. *)
Definition traversed (p : list string) (b : string) (u : undefined_vars) (c : branch_contexts)
    (r : undefined_vars * branch_contexts) : Prop :=
  grows u r.1 ∧ covered eles p r.1 ∧
  ∀ k, String.length k < String.length b → r.2 !! k = c !! k.

(** The context of a branch that has come along a path. *)
Definition came_along (p : list string) (bc : branchContext) : Prop :=
  bc_visited bc = list_to_set p ∧ ∀ v, v ∈ branchOutputVars bc → provides eles p v.

Lemma branch_loop_yields go x p b new idx outs u c bc :
  (∀ y b u c bc, y ∉ x :: p → c !! b = Some bc → came_along (x :: p) bc →
     yields (go y b u c) (traversed (y :: x :: p) b u c)) →
  c !! b = Some bc → {[x]} ∪ bc_visited bc = list_to_set (x :: p) →
  (∀ v, v ∈ branchOutputVars bc → provides eles (x :: p) v) →
  (new = false → length outs ≤ 1) →
  yields (branch_loop go x b new idx outs u c) (λ r, grows u r.1 ∧
    (∀ y, y ∈ outs → y ∉ x :: p → covered eles (y :: x :: p) r.1) ∧
    ∀ k, String.length k < String.length b → r.2 !! k = c !! k).
Proof.
  intros Hgo. revert idx u c bc. induction outs as [|y outs IH]; intros idx u c bc Hb Hvis Hout Hnew;
    cbn [branch_loop].
  { apply yields_ret. split; [by intros ? ?|]. split; [|done]. by intros y ?%elem_of_nil. }
  rewrite Hb. eapply yields_seq; [apply yields_ret, eq_refl|]. intros ? <-.
  set (bCon := bc <| bc_visited ::= λ s, {[x]} ∪ s |>).
  set (b' := if new then b +:+ "-" +:+ pretty idx else b).
  set (c' := if new then <[b' := bCon]> (<[b := bCon]> c) else <[b := bCon]> c).
  assert (new = true → String.length b < String.length b') as Hlen.
  { intros ->. unfold b'. rewrite !length_append_string. simpl. lia. }
  assert (c' !! b' = Some bCon) as Hb'.
  { unfold c', b'. destruct new; by rewrite lookup_insert_eq. }
  assert (new = true → c' !! b = Some bCon) as Hbb.
  { intros Hn. unfold c'. rewrite Hn. rewrite lookup_insert_ne, lookup_insert_eq; [done|].
    intros Heq. specialize (Hlen Hn). rewrite Heq in Hlen. lia. }
  assert (∀ k, String.length k < String.length b → c' !! k = c !! k) as Hframe.
  { intros k Hk. assert (b ≠ k) by (intros ->; lia). unfold c'. destruct new; [|by rewrite lookup_insert_ne].
    rewrite !lookup_insert_ne; [done..|]. intros ->. specialize (Hlen eq_refl). lia. }
  assert (came_along (x :: p) bCon) as Hcame by (split; [exact Hvis|exact Hout]).
  apply (yields_seq (λ r, grows u r.1 ∧ (y ∉ x :: p → covered eles (y :: x :: p) r.1) ∧
    (∀ k, String.length k < String.length b' → r.2 !! k = c' !! k))).
  { case_bool_decide as Hy.
    - apply yields_ret. split; [by intros ? ?|]. split; [|done]. intros Hn. exfalso. apply Hn.
      simpl in Hy. rewrite Hvis in Hy. by apply elem_of_list_to_set in Hy.
    - eapply yields_mono; [apply (Hgo y b' u c' bCon); [|done..]|].
      + intros Hn. apply Hy. simpl. rewrite Hvis. by apply elem_of_list_to_set.
      + intros r (Hg & Hc & Hf). split_and!; [done|done|]. exact Hf. }
  intros [u1 c1] (Hg1 & Hc1 & Hf1). simpl in Hg1, Hc1, Hf1.
  destruct new eqn:Hn.
  - specialize (Hlen eq_refl). eapply yields_mono; [apply (IH (S idx) u1 c1 bCon)|].
    + rewrite Hf1 by done. by apply Hbb.
    + change ({[x]} ∪ ({[x]} ∪ bc_visited bc) = list_to_set (x :: p)). rewrite <-Hvis. apply set_eq. intros z. rewrite !elem_of_union. tauto.
    + done.
    + done.
    + intros r (Hg2 & Hc2 & Hf2). split_and!.
      * intros ? ? ?. by apply Hg2, Hg1.
      * intros z [->|Hz]%elem_of_cons Hzn; [by eapply covered_mono, Hc1|by apply Hc2].
      * intros k Hk. rewrite Hf2, Hf1 by lia. by apply Hframe.
  - specialize (Hnew eq_refl). destruct outs; [|simpl in Hnew; lia]. cbn [branch_loop].
    apply yields_ret. split_and!; simpl; [done| |].
    + intros z [->|Hz]%elem_of_cons Hzn; [by apply Hc1|by apply elem_of_nil in Hz].
    + intros k Hk. rewrite Hf1 by done. by apply Hframe.
Qed.

Lemma rtc_extends_cons x p q :
  rtc (extends eles) (x :: p) q → q = x :: p ∨ ∃ y ele, eles !! x = Some ele ∧
    el_Type ele ≠ element.EndEvent ∧ leads eles ele y ∧ y ∉ x :: p ∧ rtc (extends eles) (y :: x :: p) q.
Proof.
  intros Hr. inversion Hr as [|? q1 ? Hs Hr' Heq]; subst; [by left|right].
  inversion Hs as [x' p' ele y Hx Ht Hl Hy Heq1 Heq2]; subst. by exists y, ele.
Qed.

Lemma find_yields stack x b u c bc p :
  c !! b = Some bc → came_along p bc → x ∉ p →
  yields (findElementsReferencingUndefinedVars stack eles x b u c) (traversed (x :: p) b u c).
Proof.
  revert x b u c bc p. induction stack as [|stack IH]; intros x b u c bc p Hb [Hvis Hout] Hx;
    cbn [findElementsReferencingUndefinedVars]; [apply yields_panic|].
  eapply yields_seq; [apply (yields_deref _ _ (λ e, eles !! x = Some e)); by intros|]. intros ele Hele. simpl in Hele.
  case_bool_decide as Ht.
  { apply yields_ret. split_and!; [by intros ? ?| |done]. intros y q e v Hr He Hte _. exfalso.
    apply rtc_extends_cons in Hr as [[= -> ->]|(z & e' & He' & Hte' & _)]; simplify_eq;
      first [exact (Hte Ht)|exact (Hte' Ht)]. }
  rewrite Hb. eapply yields_seq; [apply yields_ret, eq_refl|]. intros ? <-.
  eapply yields_seq; [by eapply element_outputs_yields|]. intros vs Hvs.
  eapply yields_seq; [apply check_references_yields|]. intros u1 [Hg1 Hu1].
  eapply yields_seq; [apply outbounds_of_yields|]. intros outs Houts.
  eapply yields_mono.
  { eapply (branch_loop_yields _ x p b _ _ _ _ _ (bc <| branchOutputVars := vs |>)).
    - intros y b' u' c' bc' Hy Hb' Hc'. by eapply IH.
    - by rewrite lookup_insert_eq.
    - simpl. by rewrite Hvis.
    - exact Hvs.
    - intros Hn%bool_decide_eq_false. lia. }
  intros r (Hg2 & Hc2 & Hf2). split_and!.
  - intros ? ? ?. by apply Hg2, Hg1.
  - intros y q e v Hr He Hte Huse.
    apply rtc_extends_cons in Hr as [[= -> ->]|(z & e' & He' & Hte' & Hl & Hz & Hr)].
    + rewrite Hele in He. simplify_eq. destruct (Hu1 v Huse) as [Hv|?]; [left; by apply Hvs|right; by apply Hg2].
    + rewrite Hele in He'. simplify_eq. by eapply (Hc2 z (Houts z Hl) Hz).
  - intros k Hk. rewrite Hf2 by done. rewrite lookup_insert_ne; [done|]. intros ->. lia.
Qed.

(** ** Lemmas: the traversal ends *)

(** The elements that an element leads to are in the process, gateways have their
    specification, and none is a parallel join. *)
Definition traversable : Prop :=
  ∀ id ele, eles !! id = Some ele →
    el_Id ele = id ∧
    (∀ y, y ∈ map ce_Target (el_Errors ele) → is_Some (eles !! y)) ∧
    (∀ o y, el_Outbound ele = Some o → y ∈ map tg_Target (tgs_Target o) → is_Some (eles !! y)) ∧
    (el_Type ele = element.Gateway → is_Some (el_Gateway ele)) ∧ ¬ joins ele.

Context (Htrav : traversable).

Lemma calm_checkUndefinedVarReference eleId expr vs u :
  calm (checkUndefinedVarReference eleId expr vs u).
Proof.
  unfold checkUndefinedVarReference. apply calm_bind; [|by intros; apply calm_ret].
  apply calm_wrapping. unfold lift_sum. destruct (GetVariables expr); [apply calm_ret|apply calm_throw].
Qed.

Lemma calm_check_references eleId ele vs u : calm (check_references eleId ele vs u).
Proof.
  unfold check_references. apply calm_bind; [done|]. intros inputs. apply calm_bind.
  - apply calm_for_fold. intros. apply calm_checkUndefinedVarReference.
  - intros u'. destruct (el_Outbound ele); [|apply calm_ret].
    do 2 (apply calm_for_fold; intros). apply calm_checkUndefinedVarReference.
Qed.

Lemma calm_element_outputs stack x ele vs :
  eles !! x = Some ele → calm (element_outputs stack ele eles vs).
Proof.
  intros Hx. destruct (Htrav x ele Hx) as (_ & _ & _ & Hg & Hj). unfold element_outputs.
  apply calm_bind; [|by intros; apply calm_ret]. case_bool_decide as Ht; [|apply calm_ret].
  destruct (Hg Ht) as [g Hgw]. rewrite Hgw.
  apply (calm_seq (λ g', g' = g)); [apply calm_ret|by apply yields_ret|]. intros ? ->.
  case_bool_decide as Hjo; [|apply calm_ret]. destruct Hj. split; [done|]. exists g. by destruct Hjo.
Qed.

Lemma calm_outbounds_of ele : calm (outbounds_of ele eles).
Proof.
  unfold outbounds_of. case_bool_decide; [|apply calm_ret]. apply calm_bind; [done|]. intros l.
  destruct (foldl _ _ _); [apply calm_ret|apply calm_throw].
Qed.

Lemma outbounds_of_inside x ele :
  eles !! x = Some ele → yields (outbounds_of ele eles) (λ outs, ∀ y, y ∈ outs → is_Some (eles !! y)).
Proof.
  intros Hx. destruct (Htrav x ele Hx) as (_ & Herr & Hfl & _). unfold outbounds_of. set (outs := _ ++ _).
  assert (∀ y, y ∈ outs → is_Some (eles !! y)) as Hout.
  { intros y [Hy|Hy]%elem_of_app; [by apply Herr|].
    destruct (el_Outbound ele) as [o|] eqn:Ho; [by eapply Hfl|by apply elem_of_nil in Hy]. }
  case_bool_decide as Hl; [|by apply yields_ret].
  apply (yields_seq (λ l, ∀ id e, (id, e) ∈ l → eles !! id = Some e)).
  { intros w a [= <-] id e. by rewrite map_order_perm, elem_of_map_to_list. }
  intros l Hels. set (found := foldl _ _ _).
  assert (∀ e, found = Some e → ∃ id, eles !! id = Some e) as Hf.
  { unfold found. clear found. assert (∀ o, (∀ e, o = Some e → ∃ id, eles !! id = Some e) → ∀ e,
      foldl (λ found (e : string * Element), if bool_decide (el_Type e.2 = element.LinkIntermediateCatchEvent ∧
        el_Execute ele = el_Execute e.2) then Some e.2 else found) o l = Some e → ∃ id, eles !! id = Some e) as Hg;
      [|by apply Hg].
    induction l as [|[id e] l IH]; intros o Ho; cbn [foldl]; [done|]. apply IH.
    - intros ? ? ?. apply Hels. by right.
    - case_bool_decide; [|done]. intros ? [= <-]. exists id. apply Hels. left. }
  destruct found as [e|]; [|apply yields_throw]. apply yields_ret.
  intros y [?|Hy]%elem_of_app; [by apply Hout|]. apply list_elem_of_singleton in Hy as ->.
  destruct (Hf e eq_refl) as [id He]. destruct (Htrav id e He) as [-> _]. by eexists.
Qed.

(** The loop of a branch is calm where the recursive calls are. *)
Lemma calm_branch_loop go x p b new idx outs u c bc :
  (∀ y b u c bc, y ∉ x :: p → c !! b = Some bc → came_along (x :: p) bc →
     yields (go y b u c) (traversed (y :: x :: p) b u c)) →
  (∀ y b u c bc, is_Some (eles !! y) → y ∉ x :: p → c !! b = Some bc → came_along (x :: p) bc →
     calm (go y b u c)) →
  c !! b = Some bc → {[x]} ∪ bc_visited bc = list_to_set (x :: p) →
  (∀ v, v ∈ branchOutputVars bc → provides eles (x :: p) v) →
  (new = false → length outs ≤ 1) → (∀ y, y ∈ outs → is_Some (eles !! y)) →
  calm (branch_loop go x b new idx outs u c).
Proof.
  intros Hgo Hcalm. revert idx u c bc.
  induction outs as [|y outs IH]; intros idx u c bc Hb Hvis Hout Hnew Hin; cbn [branch_loop]; [apply calm_ret|].
  rewrite Hb. apply (calm_seq (λ bc', bc' = bc)); [apply calm_ret|by apply yields_ret|]. intros ? ->.
  set (bCon := bc <| bc_visited ::= λ s, {[x]} ∪ s |>).
  set (b' := if new then b +:+ "-" +:+ pretty idx else b).
  set (c' := if new then <[b' := bCon]> (<[b := bCon]> c) else <[b := bCon]> c).
  assert (new = true → String.length b < String.length b') as Hlen.
  { intros ->. unfold b'. rewrite !length_append_string. simpl. lia. }
  assert (c' !! b' = Some bCon) as Hb'.
  { unfold c', b'. destruct new; by rewrite lookup_insert_eq. }
  assert (came_along (x :: p) bCon) as Hcame by (split; [exact Hvis|exact Hout]).
  assert (y ∉ bc_visited bCon → y ∉ x :: p) as Hy.
  { intros Hn ?. apply Hn. simpl. rewrite Hvis. by apply elem_of_list_to_set. }
  apply (calm_seq (λ r, ∀ k, String.length k < String.length b' → r.2 !! k = c' !! k)).
  - case_bool_decide; [apply calm_ret|]. apply (Hcalm y b' u c' bCon); auto. apply Hin. left.
  - case_bool_decide; [by apply yields_ret|].
    eapply yields_mono; [apply (Hgo y b' u c' bCon); auto|]. by intros r (_ & _ & ?).
  - intros [u1 c1] Hf1. simpl in Hf1. destruct new eqn:Hn.
    + specialize (Hlen eq_refl). apply (IH (S idx) u1 c1 bCon); try done.
      * rewrite Hf1 by done. unfold c'. rewrite lookup_insert_ne, lookup_insert_eq; [done|].
        intros Heq. rewrite Heq in Hlen. lia.
      * change ({[x]} ∪ ({[x]} ∪ bc_visited bc) = list_to_set (x :: p)). rewrite <-Hvis.
        apply set_eq. intros z. rewrite !elem_of_union. tauto.
      * intros z Hz. apply Hin. by right.
    + specialize (Hnew eq_refl). destruct outs; [|simpl in Hnew; lia]. apply calm_ret.
Qed.

Lemma calm_find stack x b u c bc p :
  c !! b = Some bc → came_along p bc → x ∉ p → is_Some (eles !! x) →
  size ((dom eles : gset string) ∖ list_to_set p) ≤ stack →
  calm (findElementsReferencingUndefinedVars stack eles x b u c).
Proof.
  revert x b u c bc p. induction stack as [|stack IH]; intros x b u c bc p Hb [Hvis Hout] Hx Hin Hs.
  { exfalso. apply elem_of_dom in Hin. assert (x ∈ (dom eles : gset string) ∖ list_to_set p) as Hxs.
    { apply elem_of_difference. split; [done|]. by rewrite elem_of_list_to_set. }
    assert (size ((dom eles : gset string) ∖ list_to_set p) = 0) as Hz by lia.
    apply size_empty_inv in Hz. by apply Hz, elem_of_empty in Hxs. }
  cbn [findElementsReferencingUndefinedVars]. destruct Hin as [ele Hele]. rewrite Hele.
  apply (calm_seq (λ e, e = ele)); [apply calm_ret|by apply yields_ret|]. intros ? ->.
  case_bool_decide as Ht; [apply calm_ret|]. rewrite Hb.
  apply (calm_seq (λ bc', bc' = bc)); [apply calm_ret|by apply yields_ret|]. intros ? ->.
  eapply calm_seq; [by eapply calm_element_outputs|by eapply element_outputs_yields|]. intros vs Hvs.
  apply calm_bind; [apply calm_check_references|]. intros u1.
  eapply calm_seq; [apply calm_outbounds_of|by eapply outbounds_of_inside|]. intros outs Houts.
  eapply (calm_branch_loop _ x p b _ _ _ _ _ (bc <| branchOutputVars := vs |>)).
  - intros y b' u' c' bc' Hy Hb' Hc'. by eapply find_yields.
  - intros y b' u' c' bc' Hiny Hy Hb' Hc'. eapply IH; [done..|].
    apply Nat.lt_succ_r. eapply Nat.lt_le_trans; [|exact Hs]. apply subset_size.
    assert (x ∈ (dom eles : gset string)) by (apply elem_of_dom; by eexists).
    assert (x ∉ (list_to_set p : gset string)) by by rewrite elem_of_list_to_set.
    simpl. set_solver.
  - by rewrite lookup_insert_eq.
  - simpl. by rewrite Hvis.
  - exact Hvs.
  - intros Hn%bool_decide_eq_false. lia.
  - done.
Qed.
End defined_lemmas.

Section checked.
Context `{EnvOk}.

Lemma findElementIdsWithType_spec ids typ els :
  findElementIdsWithType ids typ els = ids ++ (el_Id <$> filter (λ e, el_Type e = typ) els).
Proof.
  revert ids. induction els as [|e els IH]; intros ids; simpl; [by rewrite app_nil_r|].
  rewrite IH, filter_cons. case_bool_decide; case_decide; try done. by rewrite <-app_assoc.
Qed.

Lemma check_starts_yields stack eles starts st :
  yields (for_fold starts (start_branch stack eles) st) (λ st',
    grows st.1 st'.1 ∧ ∀ s, s ∈ starts.*2 → covered eles [s] st'.1).
Proof.
  revert st. induction starts as [|[i s] starts IH]; intros [u c]; cbn [for_fold].
  - apply yields_ret. split; [by intros ? ?|]. by intros ? ?%elem_of_nil.
  - eapply yields_seq.
    { apply yields_wrapping. simpl. eapply (find_yields eles _ s _ _ _ (mkBranchContext ∅ ∅) []).
      - by rewrite lookup_insert_eq.
      - split; [done|]. simpl. intros v Hv. by apply elem_of_empty in Hv.
      - apply not_elem_of_nil. }
    intros [u1 c1] (Hg1 & Hc1 & _). simpl in Hg1, Hc1.
    eapply yields_mono; [apply IH|]. intros [u2 c2] [Hg2 Hc2]. simpl in *. split.
    + intros ? ? ?. by apply Hg2, Hg1.
    + intros z [->|Hz]%elem_of_cons; [by eapply covered_mono|by apply Hc2].
Qed.

Lemma calm_check_starts stack eles starts st :
  traversable eles → size eles ≤ stack → (∀ s, s ∈ starts.*2 → is_Some (eles !! s)) →
  calm (for_fold starts (start_branch stack eles) st).
Proof.
  intros Ht Hs. revert st. induction starts as [|[i s] starts IH]; intros [u c] Hin; cbn [for_fold];
    [apply calm_ret|].
  apply calm_bind; [|intros st'; apply IH; intros z Hz; apply Hin; by right].
  apply calm_wrapping. simpl. eapply (calm_find eles Ht _ s _ _ _ (mkBranchContext ∅ ∅) []).
  - by rewrite lookup_insert_eq.
  - split; [done|]. simpl. intros v Hv. by apply elem_of_empty in Hv.
  - apply not_elem_of_nil.
  - apply Hin. left.
  - simpl. rewrite difference_empty_L, size_dom. done.
Qed.

Lemma imap_pair_snd {A} (l : list A) : (imap pair l).*2 = l.
Proof. rewrite fmap_imap. change (imap (const (id : A → A)) l = l). by rewrite imap_const, list_fmap_id. Qed.

End checked.

(** ** Branches that end before the join *)
Section branch_ends.
Context `{EnvOk} (eles : gmap string Element) (conv : string).

(** The elements the search for outputs comes to from an element: those its flows
    lead to, up to the first flow to the join. *)
Definition explores (el te : Element) : Prop :=
  ∃ o pre t post, el_Outbound el = Some o ∧ tgs_Target o = pre ++ t :: post ∧
    (∀ t' e', t' ∈ pre → eles !! tg_Target t' = Some e' → el_Id e' ≠ conv) ∧
    eles !! tg_Target t = Some te ∧ el_Id te ≠ conv.

Lemma findGatewayBranch_ends stack acc el w :
  ∀ e, (findGatewayBranchOutputTransforms stack acc el conv eles w).2 ≠ Err e.
Proof.
  revert acc el w. induction stack as [|stack IH]; intros acc el w e; [done|].
  cbn [findGatewayBranchOutputTransforms]. destruct el as [el|]; [|done].
  unfold mbind at 1, gom_bind at 1. simpl. destruct (el_Outbound el) as [o|]; [|done].
  unfold mbind at 1, gom_bind at 1. simpl. revert acc w.
  induction (tgs_Target o) as [|t ts IHt]; intros acc w; [done|].
  destruct (eles !! tg_Target t) as [te|] eqn:Hte; [|by unfold mbind, gom_bind].
  unfold mbind at 1, gom_bind at 1. simpl. case_bool_decide; [done|].
  unfold mbind at 1, gom_bind at 1.
  specialize (IH (el_OutputTransform te ∪ acc) (Some te) w e).
  destruct (findGatewayBranchOutputTransforms stack (el_OutputTransform te ∪ acc) (Some te) conv eles w)
    as [w' [r|err|p]]; simpl in *; [apply IHt|done|done].
Qed.

Lemma findGatewayBranch_stuck stack acc el end_ :
  rtc explores el end_ → el_Outbound end_ = None →
  yields (findGatewayBranchOutputTransforms stack acc (Some el) conv eles) (λ _, False).
Proof.
  intros Hr Hend. revert stack acc. induction Hr as [el|el te end_ Hs _ IH]; intros stack acc;
    (destruct stack as [|stack]; [apply yields_panic|]); cbn [findGatewayBranchOutputTransforms];
    (eapply yields_seq; [apply yields_ret, eq_refl|]; intros ? <-).
  - rewrite Hend. eapply yields_seq; [by apply (yields_panic _ (λ _, False))|]. by intros ? [].
  - destruct Hs as (o & pre & t & post & Ho & Hts & Hpre & Hte & Hne). rewrite Ho.
    eapply yields_seq; [apply yields_ret, eq_refl|]. intros ? <-. rewrite Hts. clear Ho Hts.
    revert acc. induction pre as [|t' pre IHp]; intros acc; cbn [app].
    + rewrite Hte. eapply yields_seq; [apply yields_ret, eq_refl|]. intros ? <-.
      rewrite bool_decide_eq_false_2 by done. eapply yields_seq; [by apply IH|]. by intros ? [].
    + eapply yields_seq; [apply (yields_deref _ _ (λ e, eles !! tg_Target t' = Some e)); by intros|].
      intros e' He'. rewrite bool_decide_eq_false_2 by (by eapply Hpre; [left|]).
      apply (yields_seq (λ _, True)); [by intros ? ?|]. intros acc' _. apply IHp.
      intros t'' e'' Ht''. apply Hpre. by right.
Qed.

(** The search for the outputs of the branches of a gateway does not survive a
    branch that ends before the join: at an element without flows, an end event
    for one, it dereferences a nil pointer. *)
Theorem findGatewayBranch_panics stack acc div end_ w :
  rtc explores div end_ → el_Outbound end_ = None →
  ∃ why, (findGatewayBranchOutputTransforms stack acc (Some div) conv eles w).2 = Panic why.
Proof.
  intros Hr Hend. pose proof (findGatewayBranch_ends stack acc (Some div) w) as He.
  pose proof (findGatewayBranch_stuck stack acc div end_ Hr Hend w) as Hy.
  destruct (findGatewayBranchOutputTransforms stack acc (Some div) conv eles w) as [w' [r|err|p]];
    simpl in *; [by destruct (Hy r)|by destruct (He err)|by exists p].
Qed.
End branch_ends.

(** ** Names *)

(** A name is accepted exactly if it is not empty, neither starts nor ends with
    a dot, and has only letters, digits and the characters [- / _ = .]; so a
    process id that is accepted has no space, wildcard or other byte that would
    change the meaning of a subject or key it becomes part of. *)
Theorem validName_spec name :
  (validName name = None ↔
     ∃ first rest, name = String first rest ∧ first ≠ "."%char ∧
       last (String.list_ascii_of_string name) ≠ Some "."%char ∧
       ∀ c, c ∈ String.list_ascii_of_string name → valid_key_char c = true) ∧
  (validName name = None → ∀ c, c ∈ String.list_ascii_of_string name →
     c ∉ ["*"; ">"; " "; "%"; ","; ":"]%char).
Proof.
  assert (∀ bs, forallb valid_key_char bs = true ↔ ∀ c, c ∈ bs → valid_key_char c = true) as Hall.
  { intros bs. rewrite forallb_forall. setoid_rewrite list_elem_of_In. done. }
  assert (validName name = None ↔ ∃ first rest, name = String first rest ∧ first ≠ "."%char ∧
       last (String.list_ascii_of_string name) ≠ Some "."%char ∧
       ∀ c, c ∈ String.list_ascii_of_string name → valid_key_char c = true) as Hv.
  { unfold validName, validKeyRe. destruct name as [|c name]; [by split; [|intros (? & ? & ? & _)]|].
    cbn [String.list_ascii_of_string head].
    case_bool_decide as Hb; cbn [andb].
    - split; [done|]. intros (f & r & [= -> ->] & Hf & Hl & _). destruct Hb as [?|[[= ?]|?]]; done.
    - rewrite bool_decide_eq_true_2 by done. cbn [andb].
      destruct (forallb _ _) eqn:Hk; split; try done.
      + intros _. exists c, name. split_and!; [done|intros ->; apply Hb; tauto|intros Hl; apply Hb; tauto|].
        by apply Hall.
      + intros (? & ? & _ & _ & _ & Hk'%Hall). simpl in *. congruence. }
  split; [done|]. intros (_ & _ & _ & _ & _ & Hc)%Hv c Hin%Hc Hbad.
  rewrite !elem_of_cons, elem_of_nil in Hbad. by destruct Hbad as [->|[->|[->|[->|[->|[->|[]]]]]]].
Qed.

(** ** Examples *)
Definition ex_task_io (id : string) (inp out : gmap string string) (targets : list string) : Element :=
  mkElement id id element.ServiceTask "" "task" (Some (mkTargets (map (mkTarget "" []) targets) (-1)))
    None None "" "" "" [] None inp out None [] None None None None false.

Definition ex_plain (id type : string) (targets : list string) : Element :=
  mkElement id id type "" ""
    (match targets with [] => None | _ => Some (mkTargets (map (mkTarget "" []) targets) (-1)) end)
    None None "" "" "" [] None ∅ ∅ None [] None None None None false.

(** A task whose output is the input of the next. *)
Definition ex_passing : Process :=
  mkProcess [ex_plain "start" element.StartEvent ["make"];
             ex_task_io "make" ∅ {["x" := "=out"]} ["use"];
             ex_task_io "use" {["in" := "=x"]} ∅ ["end"];
             ex_plain "end" element.EndEvent []] "P" None.

Lemma ex_passing_traversable : traversable (IndexProcessElements (pr_Elements ex_passing) ∅).
Proof.
  intros id ele Hl.
  assert (ele ∈ pr_Elements ex_passing ∧ el_Id ele = id) as [Hin <-].
  { pose proof (@ElementFacts.IndexProcessElements_spec (pr_Elements ex_passing) ∅) as Hs.
    rewrite Hs in Hl. split.
    - apply ElementFacts.by_id_elem in Hl as [Hl|Hl]; [exact Hl|by rewrite lookup_empty in Hl].
    - eapply ElementFacts.by_id_id, Hl. by intros ? ?. }
  clear Hl. simpl in Hin. rewrite !elem_of_cons, elem_of_nil in Hin.
  destruct Hin as [->|[->|[->|[->|[]]]]]; split_and!; try done; try (by intros y ?%elem_of_nil);
    try (intros o y [= <-] Hy; simpl in Hy; apply list_elem_of_singleton in Hy as ->; by eexists);
    by intros [? _].
Qed.


(** A task that reads a variable which only its own output defines passes. *)
Definition ex_circular : Process :=
  mkProcess [ex_plain "start" element.StartEvent ["use"];
             ex_task_io "use" {["in" := "=x"]} {["x" := "=out"]} ["end"];
             ex_plain "end" element.EndEvent []] "P" None.

Lemma own_output_is_enough :
  (@checkVariables sim 4 ex_circular world_init).2 = Ok tt ∧
  ∀ e, e ∈ pr_Elements ex_circular → "x" ∈ dom (el_OutputTransform e) → el_Id e = "use".
Proof.
  split; [vm_compute; reflexivity|]. intros e. simpl. rewrite !elem_of_cons, elem_of_nil.
  intros [->|[->|[->|[]]]]; simpl; [by rewrite dom_empty, elem_of_empty|done|by rewrite dom_empty, elem_of_empty].
Qed.

(** A choice of which one branch comes to a join and the other ends. *)
Definition ex_stopping : gmap string Element :=
  IndexProcessElements
    [ex_plain "choice" element.Gateway ["stop"; "a"; "b"]; ex_plain "stop" element.EndEvent [];
     ex_plain "a" element.ManualTask ["join"]; ex_plain "b" element.ManualTask ["join"];
     ex_plain "join" element.Gateway ["end"]; ex_plain "end" element.EndEvent []] ∅.

Lemma findGatewayBranch_panics_witness :
  ∃ why, (@findGatewayBranchOutputTransforms sim 100 ∅ (Some (ex_plain "choice" element.Gateway ["stop"; "a"; "b"]))
            "join" ex_stopping world_init).2 = Panic why.
Proof.
  apply (@findGatewayBranch_panics sim ex_stopping "join" 100 ∅ (ex_plain "choice" element.Gateway ["stop"; "a"; "b"])
           (ex_plain "stop" element.EndEvent [])).
  - apply rtc_once. eexists _, [], _, _. split_and!; [reflexivity|reflexivity| |reflexivity|done].
    by intros ? ? ?%elem_of_nil.
  - done.
Defined.

Lemma validName_spec_witness :
  validName "Process_0w6dssp" = None ∧ validName ".a" ≠ None ∧
  ∀ c, c ∈ String.list_ascii_of_string "Process_0w6dssp" → c ∉ ["*"; ">"; " "; "%"; ","; ":"]%char.
Proof.
  split; [reflexivity|]. split; [discriminate|].
  by apply (proj2 (validName_spec "Process_0w6dssp")).
Defined.
