(* ===== verification/Parser.v ===== *)
(** * The BPMN parser

    [client/parser/parser.go] and [client/parser/zeebe.go]: from a BPMN document
    to a workflow.  The XML query library and the parser of ISO 8601 dates are
    parameters.  A method of a nil XML node panics.  The fields of a workflow,
    and of the elements of a process, that functions change through a pointer
    are returned. *)
From S2P Require Import Prelude Model Errors Env Sim Common Wp Duration Pointers Linter Tagger Validation.

Class XmlQuery := {
  Node : Type;
  xmlquery_Parse : bytes → Node + error;
  SelectElements : Node → string → list Node;
  SelectElement : Node → string → option Node;
  SelectAttr : Node → string → string;
  InnerText : Node → string;
  NamespaceURI : Node → string;
  node_Data : Node → string;
  iso8601_ParseString : string → Z + error (* the time in nanoseconds *) }.

Definition bpmnNS : string := "http://www.omg.org/spec/BPMN/20100524/MODEL".

(** The text in quotes. *)
Definition quoted (s : string) : string :=
  let q := String (ascii_of_nat 34) EmptyString in q +:+ s +:+ q.

(** [strconv.ParseUint(s, 10, 32)] *)
Definition ParseUint32 (s : string) : option Z :=
  if bool_decide (s = "") then None
  else match digits_value 0 s with
       | Some n => if bool_decide (n < 2 ^ 32)%Z then Some n else None
       | None => None
       end.

Definition zero_element : Element :=
  mkElement "" "" "" "" "" None None None "" "" "" [] None ∅ ∅ None [] None None None None false.

Section parser.
Context `{Env} `{XmlQuery}.

(** [if e := i.SelectElement(path); e != nil { el.f = e.InnerText() }] *)
Definition with_text {A} (i : Node) (path : string) (f : string → A → A) (a : A) : A :=
  match SelectElement i path with Some e => f (InnerText e) a | None => a end.

(** [i.SelectElement(path).InnerText()] *)
Definition inner_text (i : Node) (path : string) : M string :=
  e ← deref path (SelectElement i path); mret (InnerText e).

(** ** [zeebe.go] *)

(** A transform: the targets and sources of a list of nodes. *)
Definition transform_of (o : list Node) : gmap string string :=
  foldl (λ t j, <[SelectAttr j "target" := SelectAttr j "source"]> t) ∅ o.

Definition parse_iteration (x : Node) : Iteration :=
  with_text x "../bpmn:completionCondition" (λ s it, mkIteration (it_Collection it) (it_Iterator it) (it_CollateAs it) s)
  (with_text x "zeebe:loopCharacteristics/@outputElement" (λ s it, mkIteration (it_Collection it) (it_Iterator it) (it_CollateAs it) s)
  (with_text x "zeebe:loopCharacteristics/@outputElement" (λ s it, mkIteration (it_Collection it) (it_Iterator it) (it_CollateAs it) s)
  (with_text x "zeebe:loopCharacteristics/@outputCollection" (λ s it, mkIteration (it_Collection it) (it_Iterator it) s (it_CollateFrom it))
  (with_text x "zeebe:loopCharacteristics/@inputElement" (λ s it, mkIteration (it_Collection it) s (it_CollateAs it) (it_CollateFrom it))
  (with_text x "zeebe:loopCharacteristics/@inputCollection" (λ s it, mkIteration s (it_Iterator it) (it_CollateAs it) (it_CollateFrom it))
     (mkIteration "" "" "" "")))))).

Definition parse_retries (x : Node) (el : Element) : M Element :=
  match SelectElement x "zeebe:taskDefinition/@retries" with
  | None => mret el
  | Some e =>
      match ParseUint32 (InnerText e) with
      | None => throw (Wrap "'retries' parse uint32 conversion error" (New "strconv.ParseUint"))
      | Some retries =>
          mret (el <| el_RetryBehaviour := Some (mkDefaultTaskRetry retries Linear 0 0 0 None) |>)
      end
  end.

Definition parse_form (doc x : Node) (el : Element) : M Element :=
  match SelectElement x "zeebe:formDefinition/@formKey" with
  | None => mret el
  | Some fk =>
      let name := default "" (last (Split ":" (InnerText fk))) in
      f ← inner_text doc ("//zeebe:userTaskForm[@id=" +:+ quoted name +:+ "]");
      mret (el <| el_Execute := f |>)
  end.

Definition parse_io (x : Node) (el : Element) : Element :=
  match SelectElement x "zeebe:ioMapping" with
  | None => el
  | Some e =>
      let el := match SelectElements e "zeebe:output" with
                | [] => el
                | o => el <| el_OutputTransform := transform_of o |>
                end in
      match SelectElements e "zeebe:input" with
      | [] => el
      | o => el <| el_InputTransform := transform_of o |>
      end
  end.

(** The case of an element. *)
Definition parseZeebeExtensions (doc : Node) (el : Element) (i : Node) : M Element :=
  match SelectElement i "bpmn:extensionElements" with
  | None => mret el
  | Some x =>
      let el := with_text x "zeebe:taskDefinition/@type" (λ s el, el <| el_Execute := s |>) el in
      el ← parse_retries x el;
      let el := with_text x "zeebe:calledElement/@processId" (λ s el, el <| el_Execute := s |>) el in
      let el := with_text x "zeebe:calledElement/@processId" (λ s el, el <| el_Execute := s |>) el in
      el ← parse_form doc x el;
      let el := with_text x "zeebe:assignmentDefinition/@assignee" (λ s el, el <| el_Candidates := s |>) el in
      let el := with_text x "zeebe:assignmentDefinition/@candidateGroups" (λ s el, el <| el_CandidateGroups := s |>) el in
      let el := with_text x "zeebe:subscription/@correlationKey" (λ s el, el <| el_Execute := s |>) el in
      let el := parse_io x el in
      mret (match SelectElement x "zeebe:loopCharacteristics" with
            | None => el
            | Some _ => el <| el_Iteration := Some (parse_iteration x) |>
            end)
  end.

(** The cases of a caught error and of a timer: their output transform. *)
Definition zeebe_outputs (i : Node) (transform : gmap string string) : gmap string string :=
  match SelectElement i "bpmn:extensionElements" with
  | None => transform
  | Some x =>
      match SelectElement x "zeebe:ioMapping" with
      | None => transform
      | Some e => match SelectElements e "zeebe:output" with [] => transform | o => transform_of o end
      end
  end.

(** ** Parts of an element *)
Definition parseCollaboration (wf : Workflow) (collaboration : Node) : M Workflow :=
  c ← for_fold (SelectElements collaboration "bpmn:participant") (λ c i,
        id ← inner_text i "@id";
        processId ← inner_text i "@processRef";
        mret (c ++ [mkParticipant id processId])) [];
  _ ← for_each (SelectElements collaboration "bpmn:messageFlow") (λ i,
        _ ← inner_text i "@id"; _ ← inner_text i "@sourceRef"; _ ← inner_text i "@targetRef"; mret tt);
  mret (wf <| wf_Participants := Some c |>).

Definition parseMessages (doc : Node) (wf : Workflow) (msgNodes : list Node)
    (msgs : gmap string string) : M (Workflow * gmap string string) :=
  '(m, msgs) ← for_fold msgNodes (λ '(m, msgs) x,
    id ← inner_text x "@id";
    name ← inner_text x "@name";
    el ← wrapping (Wrap "parsing zebee extensions")
           (parseZeebeExtensions doc (zero_element <| el_Id := id |> <| el_Name := name |>) x);
    mret (m ++ [el], <[id := name]> msgs)) ([], msgs);
  mret (wf <| wf_Messages := m |>, msgs).

Definition parseErrors (wf : Workflow) (errNodes : list Node) (errs : gmap string string) :
    M (Workflow * gmap string string) :=
  '(m, errs) ← for_fold errNodes (λ '(m, errs) x,
    id ← inner_text x "@id";
    name ← inner_text x "@name";
    code ← inner_text x "@errorCode";
    mret (m ++ [mkWfError id name code], <[id := name]> errs)) ([], errs);
  mret (wf <| wf_Errors := m |>, errs).

Definition parseEndEvent (i : Node) (el : Element) : Element :=
  match SelectElement i "//bpmn:compensateEventDefinition/@id" with
  | Some _ => el <| el_Type := element.CompensateEndEvent |>
  | None => el <| el_Type := element.EndEvent |>
  end.

Definition parseIntermediateThrowEvent (i : Node) (el : Element) : Element :=
  if bool_decide (node_Data i = "intermediateThrowEvent") then
    let el := with_text i "bpmn:linkEventDefinition/@name" (λ s el,
      el <| el_Type := element.LinkIntermediateThrowEvent |> <| el_Execute := s |>) el in
    with_text i "bpmn:messageEventDefinition" (λ _ el,
      el <| el_Type := element.MessageIntermediateThrowEvent |>) el
  else el.

Definition addReceiverForMessage (messageReceivers : gmap string MessageReceivers)
    (workflowName messageName : string) (messageReceiver : MessageReceiver) :
    gmap string MessageReceivers :=
  match messageReceivers !! messageName with
  | None => <[messageName := mkMessageReceivers [messageReceiver] workflowName]> messageReceivers
  | Some receiversForMessage =>
      <[messageName := receiversForMessage <| mrs_MessageReceiver ::= λ l, l ++ [messageReceiver] |>]>
        messageReceivers
  end.

(** A cycle [R<n>/<duration>]. *)
Definition parse_time_cycle (timeCycle : string) : M WorkflowTimerDefinition :=
  let parts := Split "/" timeCycle in
  if bool_decide (timeCycle = "" ∨ 2 < length parts ∨ String.get 0 timeCycle ≠ Some "R"%char) ||
     negb (Contains timeCycle "/") then
    throw (Wrap "time cycle was malformed" (Sentinel ErrBadTimeCycle))
  else
    p0 ← deref "parts[0]" (parts !! 0);
    p1 ← deref "parts[1]" (parts !! 1);
    match Atoi (String.substring 1 (String.length p0 - 1) p0) with
    | None => throw (Wrap "parse time cycle repeat" (Sentinel ErrBadTimeCycle))
    | Some repeat =>
        dur ← wrapping (Wrap "parse ISO 8601 failed") (Vars.lift_res (ParseISO8601 p1));
        mret (mkWorkflowTimerDefinition duration (timeDuration dur) repeat false)
    end.

Definition parse_start_timer (def : Node) : M WorkflowTimerDefinition :=
  match SelectElement def "bpmn:timeDate/text()", SelectElement def "bpmn:timeCycle/text()" with
  | None, None => throw (Wrap "parse start event" (Sentinel ErrBadTimerEventDefinition))
  | Some timeDate, _ =>
      match iso8601_ParseString (node_Data timeDate) with
      | inr err => throw (Wrap "parse ISO8601 duration" err)
      | inl tval => mret (mkWorkflowTimerDefinition fixed tval 0 false)
      end
  | None, Some timeCycle => parse_time_cycle (node_Data timeCycle)
  end.

Definition parseStartEvent (n : Node) (el : Element) (msgs : gmap string string)
    (processId : string) (wf : Workflow) : M (Element * Workflow) :=
  el ← match SelectElement n "bpmn:timerEventDefinition" with
       | None => mret el
       | Some def =>
           t ← parse_start_timer def;
           mret (el <| el_Timer := Some t |> <| el_Type := element.TimedStartEvent |>)
       end;
  match SelectElement n "bpmn:messageEventDefinition" with
  | None => mret (el, wf)
  | Some def =>
      let messageName := default "" (msgs !! SelectAttr def "messageRef") in
      mret (el <| el_Msg := messageName |> <| el_Type := element.StartEvent |>,
            wf <| wf_MessageReceivers ::= λ r, addReceiverForMessage r (wf_Name wf) messageName
                    (mkMessageReceiver (SelectAttr n "id") processId) |>)
  end.

Definition parseElementErrors (doc i : Node) (el : Element) : M Element :=
  match SelectElement i "//bpmn:errorEventDefinition/@errorRef" with
  | None => mret el
  | Some errorRef =>
      tg ← deref "tg" (SelectElement doc ("//*[@id=" +:+ quoted (InnerText errorRef) +:+ "]"));
      mret (el <| el_Error := Some (mkWfError (SelectAttr tg "id") (SelectAttr tg "name")
                                      (SelectAttr tg "errorCode")) |>)
  end.

Definition getCorrelation (messages : list Element) (msg : string) : string + error :=
  match list_find (λ v, el_Name v = msg) messages with
  | Some (_, v) => inl (el_Execute v)
  | None => inr (Wrap ("find message " +:+ msg) (Sentinel ErrCorrelationFail))
  end.

Definition parseSubscription (wf : Workflow) (el : Element) (i : Node) (msgs : gmap string string) :
    M (Workflow * Element) :=
  if bool_decide (node_Data i = "intermediateCatchEvent") then
    match SelectElement i "bpmn:messageEventDefinition/@messageRef" with
    | Some x =>
        let messageName := default "" (msgs !! InnerText x) in
        let el := el <| el_Type := element.MessageIntermediateCatchEvent |> <| el_Msg := messageName |> in
        let wf := wf <| wf_MessageReceivers ::= λ r, addReceiverForMessage r (wf_Name wf) messageName
                          (mkMessageReceiver (el_Id el) "") |> in
        c ← wrapping (Wrap "get subscription correlation")
              (Vars.lift_sum (getCorrelation (wf_Messages wf) (el_Msg el)));
        mret (wf, el <| el_Execute := c |>)
    | None =>
        match SelectElement i "bpmn:timerEventDefinition/bpmn:timeDuration" with
        | Some x =>
            dur ← wrapping (Wrap "parse duration") (Vars.lift_res (parseDuration (InnerText x)));
            mret (wf, el <| el_Type := element.TimerIntermediateCatchEvent |> <| el_Execute := dur |>)
        | None =>
            mret (wf, with_text i "bpmn:linkEventDefinition/@name" (λ name el,
              el <| el_Type := element.LinkIntermediateCatchEvent |> <| el_Execute := name |>) el)
        end
    end
  else mret (wf, el).

Definition parseDocumentation (i : Node) (el : Element) : Element :=
  with_text i "bpmn:documentation" (λ s el, el <| el_Documentation := s |>) el.

Definition parseConditions (i : Node) : list string :=
  map InnerText (SelectElements i "bpmn:conditionExpression").

Definition parseCoreValues (i : Node) (el : Element) : Element :=
  with_text i "@name" (λ s el, el <| el_Name := s |>)
    (with_text i "@id" (λ s el, el <| el_Id := s |>) el).

Definition parse_target (doc c : Node) : M Target :=
  sf ← deref "sf" (SelectElement doc ("//bpmn:sequenceFlow[@id=" +:+ quoted (InnerText c) +:+ "]"));
  ref ← inner_text sf "@targetRef";
  tg ← deref "tg" (SelectElement doc ("//*[@id=" +:+ quoted ref +:+ "]"));
  id ← inner_text sf "@id";
  target ← inner_text tg "@id";
  mret (mkTarget id (parseConditions sf) target).

Definition parseFlowInOut (doc i : Node) (el : Element) : M Element :=
  let def := if bool_decide (node_Data i = "exclusiveGateway") then SelectAttr i "default" else "" in
  '(elo, defaultTarget) ← for_fold (SelectElements i "bpmn:outgoing") (λ '(elo, defaultTarget) c,
    target ← parse_target doc c;
    mret (elo ++ [target],
          if bool_decide (def = tg_Id target) then Z.of_nat (length elo) else defaultTarget))
    ([], (-1)%Z);
  mret (match elo with [] => el | _ => el <| el_Outbound := Some (mkTargets elo defaultTarget) |> end).

(** ** Boundary events *)

(** The end of the flow out of a boundary event: the last flow with its id. *)
Definition boundary_target (node : Node) : M string :=
  let allFlow := SelectElements node "..//bpmn:sequenceFlow" in
  flowID ← inner_text node "//bpmn:outgoing";
  mret (foldl (λ target v, if bool_decide (SelectAttr v "id" = flowID) then SelectAttr v "targetRef"
                           else target) "" allFlow).

(** [parseCompensationEventData] with the function it is called with. *)
Definition parseCompensationEventData (doc node : Node) (attach : option ptr)
    (elsIndex : gmap string ptr) (els : list Element) : M (list Element) :=
  match SelectElement node "//bpmn:compensateEventDefinition/@id" with
  | None => mret els
  | Some _ =>
      for_fold (SelectElements doc "//bpmn:association") (λ els v,
        if bool_decide (SelectAttr v "sourceRef" = SelectAttr node "id") then
          let target := SelectAttr v "targetRef" in
          at_ ← deref "attach" attach;
          p ← deref "els[target]" (elsIndex !! target);
          mret (el_alter (λ el, el <| el_IsForCompensation := true |>)
                  (el_alter (λ el, el <| el_CompensateWith := Some target |>) els at_) p)
        else mret els) els
  end.

(** [parseBoundaryEventData] for errors and for timers. *)
Definition parse_boundary_error (node : Node) (attach : option ptr) (els : list Element) :
    M (list Element) :=
  match SelectElement node "//bpmn:errorEventDefinition/@errorRef" with
  | None => mret els
  | Some ref =>
      target ← boundary_target node;
      id ← inner_text node "//bpmn:errorEventDefinition/@id";
      at_ ← deref "attach" attach;
      let newCatchErr := mkCatchError id (InnerText ref) target (zeebe_outputs node ∅) in
      mret (el_alter (λ el, el <| el_Errors ::= λ l, l ++ [newCatchErr] |>) els at_)
  end.

Definition parse_boundary_timer (node : Node) (attach : option ptr) (els : list Element) :
    M (list Element) :=
  match SelectElement node "//bpmn:timerEventDefinition" with
  | None => mret els
  | Some ref =>
      target ← boundary_target node;
      durationExpr ← inner_text node "//bpmn:timeDuration";
      id ← inner_text node "//bpmn:timerEventDefinition/@id";
      at_ ← deref "el" attach;
      let newTimer := mkTimer id durationExpr target (zeebe_outputs node ∅) in
      mret (el_alter (λ el, el <| el_BoundaryTimer ::= λ l, l ++ [newTimer] |>) els at_)
  end.

Definition parseBoundaryEvent (doc i : Node) (pr : Process) (elsIndex : gmap string ptr) : M Process :=
  let attach := SelectAttr i "attachedToRef" in
  let el := (λ x, [x.1]) <$> list_find (λ e, el_Id e = attach) (pr_Elements pr) in
  els ← parseCompensationEventData doc i el elsIndex (pr_Elements pr);
  els ← parse_boundary_error i el els;
  els ← parse_boundary_timer i el els;
  mret (pr <| pr_Elements := els |>).

(** ** Elements and processes *)

(** What the functions that parse elements change: the workflow, the names of the
    messages by id, and those of the errors. *)
Record pstate := mkPstate {
  ps_wf : Workflow;
  ps_msgs : gmap string string;
  ps_errs : gmap string string }.

(** The switch at the start of [parseElements]. *)
Definition parse_kind (i : Node) (processId : string) (st : pstate) : M (Element * pstate) :=
  let el := zero_element <| el_Type := node_Data i |> in
  let gateway t := el <| el_Type := element.Gateway |>
                      <| el_Gateway := Some (mkGatewaySpec t divergent "" []) |> in
  if bool_decide (node_Data i = "intermediateThrowEvent") then
    mret (parseIntermediateThrowEvent i el, st)
  else if bool_decide (node_Data i = "startEvent") then
    r ← wrapping (Wrap "parse start event") (parseStartEvent i el (ps_msgs st) processId (ps_wf st));
    mret (r.1, mkPstate r.2 (ps_msgs st) (ps_errs st))
  else if bool_decide (node_Data i = "endEvent") then mret (parseEndEvent i el, st)
  else if bool_decide (node_Data i = "exclusiveGateway") then mret (gateway exclusive, st)
  else if bool_decide (node_Data i = "parallelGateway") then mret (gateway parallel, st)
  else if bool_decide (node_Data i = "inclusiveGateway") then mret (gateway inclusive, st)
  else mret (el, st).

Definition handled_specially : list string :=
  ["sequenceFlow"; "incoming"; "outgoing"; "extensionElements"; "boundaryEvent"; "documentation";
   "association"].

(** [parseElements], where [sub] parses the process of a sub-process. *)
Definition parse_element (sub : Node → pstate → M (Process * pstate)) (doc : Node) (pr : Process)
    (i : Node) (st : pstate) : M (Process * pstate) :=
  if bool_decide (NamespaceURI i ≠ bpmnNS) then mret (pr, st)
  else if bool_decide (node_Data i ∈ handled_specially) then mret (pr, st)
  else
    '(el, st) ← parse_kind i (pr_Id pr) st;
    let el := parseCoreValues i el in
    el ← parseFlowInOut doc i el;
    let el := parseDocumentation i el in
    el ← parseElementErrors doc i el;
    el ← wrapping (Wrap "parse zebee extensions") (parseZeebeExtensions doc el i);
    '(el, st) ← (if bool_decide (node_Data i = "subProcess") then
        r ← wrapping (Wrap "parse sub-processes") (sub i st);
        mret (el <| el_Process := Some r.1 |>, r.2)
      else mret (el, st));
    r ← wrapping (Wrap "parse subscription") (parseSubscription (ps_wf st) el i (ps_msgs st));
    mret (pr <| pr_Elements ::= λ l, l ++ [r.2] |>, mkPstate r.1 (ps_msgs st) (ps_errs st)).

(** [parseProcess] and the recursion through [parseSubprocess]; the nodes of the
    messages and errors are nil in a sub-process. *)
Fixpoint parseProcess (stack : nat) (doc prXML : Node) (pr : Process) (msgXML errXML : list Node)
    (st : pstate) : M (Process * pstate) :=
  match stack with
  | O => panic "stack overflow"
  | S stack =>
      st ← match msgXML with
           | [] => mret st
           | _ => r ← wrapping (Wrap "parse messages") (parseMessages doc (ps_wf st) msgXML (ps_msgs st));
                  mret (mkPstate r.1 r.2 (ps_errs st))
           end;
      '(pr, st) ← for_fold (SelectElements prXML "*") (λ '(pr, st) i,
        wrapping (Wrap "failed to parse elements")
          (parse_element (λ i st, wrapping (Wrap "parse process")
             (parseProcess stack doc i (mkProcess [] "" None) [] [] st)) doc pr i st)) (pr, st);
      st ← match errXML with
           | [] => mret st
           | _ => r ← parseErrors (ps_wf st) errXML (ps_errs st);
                  mret (mkPstate r.1 (ps_msgs st) r.2)
           end;
      pr ← for_fold (SelectElements prXML "//bpmn:boundaryEvent") (λ pr i,
        wrapping (Wrap "parsing boundary events")
          (parseBoundaryEvent doc i pr (IndexProcessElements_ptr (pr_Elements pr)))) pr;
      mret (pr, st)
  end.

(** The last loop of [Parse], for one process.  [elesById] holds pointers to the
    elements, whose output transforms are all that changes. *)
Definition populate_process (stack : nat) (process : Process) : M Process :=
  r ← findConvergentGatewayOutputTransforms stack (IndexProcessElements (pr_Elements process) ∅) tt
        populateConvergentGatewayOutputTransforms;
  mret (process <| pr_Elements ::= λ els,
    map_fold (λ id p els, match r.1 !! id with
      | Some e => el_alter (λ el, el <| el_OutputTransform := el_OutputTransform e |>) els p
      | None => els
      end) els (IndexProcessElements_ptr els) |>).

(** The first part of [Parse]: the document's processes. *)
Definition parse_document (stack : nat) (name : string) (rdr : bytes) : M Workflow :=
  doc ← wrapping (Wrap "parse xml") (Vars.lift_sum (xmlquery_Parse rdr));
  let prXmls := SelectElements doc "//bpmn:process" in
  let wf := mkWorkflow name ∅ [] [] "" None ∅ "" in
  wf ← match SelectElements doc "//bpmn:collaboration" with
       | collaboration :: _ => wrapping (Wrap "parse collaboration") (parseCollaboration wf collaboration)
       | [] => mret (wf <| wf_Participants := Some [] |>)
       end;
  st ← for_fold prXmls (λ st prXML,
    let pr := mkProcess [] (SelectAttr prXML "id") None in
    r ← wrapping (Wrap "parse process")
          (parseProcess stack doc prXML pr (SelectElements doc "//bpmn:message")
             (SelectElements doc "//bpmn:error") st);
    mret (mkPstate (ps_wf r.2 <| wf_Process ::= <[pr_Id r.1 := r.1]> |>) (ps_msgs r.2) (ps_errs r.2)))
    (mkPstate wf ∅ ∅);
  mret (ps_wf st).

Definition Parse (stack : nat) (name : string) (rdr : bytes) : M Workflow :=
  wf ← parse_document stack name rdr;
  wf ← wrapping (Wrap "an error occured parsing the workflow") (tagWorkflow stack wf);
  r ← Lint stack wf true;
  match r.2 with
  | Some err => throw (Wrap "linting found issues" err)
  | None =>
      _ ← wrapping (Wrap "model is invalid") (validModel stack wf);
      ps ← range (wf_Process wf);
      for_fold ps (λ wf p,
        process ← populate_process stack p.2;
        mret (wf <| wf_Process ::= <[p.1 := process]> |>)) wf
  end.
End parser.

(** ** What [Parse] guarantees *)

(** What the validation asks of an element, and of a workflow. *)
Definition valid_node (e : Element) : Prop :=
  el_Id e ≠ "" ∧ (el_Type e = element.ServiceTask → el_Execute e ≠ "") ∧
  (el_Type e = element.Gateway → ∃ g, el_Gateway e = Some g ∧
     (gs_Direction g = convergent → gs_ReciprocalId g ≠ "")).

Definition valid_process (pr : Process) : Prop :=
  validName (pr_Id pr) = None ∧ links_match pr ∧ Forall valid_node (pr_Elements pr).

Definition valid_workflow (wf : Workflow) : Prop :=
  (∀ id pr, wf_Process wf !! id = Some pr → valid_process pr) ∧
  Forall (λ m, validName (el_Name m) = None) (wf_Messages wf).

(** Elements that differ in their output transform, or inside a sub-process. *)
Definition alike (e e' : Element) : Prop :=
  el_Id e' = el_Id e ∧ el_Type e' = el_Type e ∧ el_Execute e' = el_Execute e ∧
  el_Gateway e' = el_Gateway e.

#[export] Instance alike_preorder : PreOrder alike.
Proof. split; [done|]. intros a b c (? & ? & ? & ?) (? & ? & ? & ?). repeat split; congruence. Qed.

Definition alike_process (pr pr' : Process) : Prop :=
  pr_Id pr' = pr_Id pr ∧ Forall2 alike (pr_Elements pr) (pr_Elements pr').

Lemma el_alter_alike f els p :
  (∀ e, alike e (f e)) → Forall2 alike els (el_alter f els p).
Proof.
  intros Hf. 
  assert (∀ g i, (∀ e, alike e (g e)) → Forall2 alike els (alter g i els)) as Ha.
  { intros g i Hg. apply Forall2_same_length_lookup_2; [by rewrite length_alter|].
    intros j x y Hx Hy. destruct (decide (i = j)) as [<-|Hne].
    - rewrite list_lookup_alter_eq, Hx in Hy. by injection Hy as <-.
    - rewrite list_lookup_alter_ne, Hx in Hy by done. by injection Hy as <-. }
  destruct p as [|i [|j p]]; simpl; [done| |]; by apply Ha.
Qed.

Lemma alike_links pr pr' : alike_process pr pr' → links_match pr → links_match pr'.
Proof.
  intros [_ Hels]. unfold links_match, caught, thrown.
  assert (∀ ty, link_names ty (pr_Elements pr') = link_names ty (pr_Elements pr)) as Hl.
  { intros ty. induction Hels as [|e e' els els' (_ & Hty & Hex & _) _ IH]; [done|].
    by rewrite !link_names_cons, IH, Hty, Hex. }
  by rewrite !Hl.
Qed.

Lemma alike_valid pr pr' : alike_process pr pr' → valid_process pr → valid_process pr'.
Proof.
  intros Ha (Hn & Hl & Hv). pose proof (alike_links _ _ Ha Hl). destruct Ha as [Hid Hels].
  split; [by rewrite Hid|]. split; [done|].
  induction Hels as [|e e' els els' (Hi & Hty & Hex & Hg) _ IH]; [done|].
  apply Forall_cons in Hv as [Hve Hv]. constructor; [|by apply IH].
  unfold valid_node. by rewrite Hi, Hty, Hex, Hg.
Qed.

Section parse_lemmas.
Context `{EnvOk}.

Lemma valid_element_yields e : yields (valid_element e) (λ _, valid_node e).
Proof.
  unfold valid_element, valid_node. case_bool_decide as Hid; [apply yields_throw|].
  case_bool_decide as Hs.
  { unfold reject, validServiceTask. case_bool_decide as Hx; [apply yields_throw|]. apply yields_ret.
    rewrite Hs. done. }
  case_bool_decide as Hg; [|by apply yields_ret].
  eapply yields_seq; [apply (yields_deref _ _ (λ g, el_Gateway e = Some g)); by intros|]. intros g Hgw.
  case_bool_decide as Hr; [apply yields_throw|]. apply yields_ret. split_and!; [done|congruence|].
  intros _. exists g. split; [done|]. intros Hd Hn. by apply Hr.
Qed.

Lemma reject_yields msg r : yields (reject msg r) (λ _, r = None).
Proof. destruct r; [apply yields_throw|by apply yields_ret]. Qed.

Lemma validModel_yields stack wf :
  yields (validModel stack wf) (λ _,
    (∀ id pr, wf_Process wf !! id = Some pr →
       validName (pr_Id pr) = None ∧ Forall valid_node (pr_Elements pr)) ∧
    Forall (λ m, validName (el_Name m) = None) (wf_Messages wf)).
Proof.
  unfold validModel. apply (yields_seq (λ ps, ∀ id pr, wf_Process wf !! id = Some pr → (id, pr) ∈ ps)).
  { intros w ps [= <-] id pr Hp. by rewrite map_order_perm, elem_of_map_to_list. }
  intros ps Hps. eapply yields_seq.
  { apply (yields_for_each (λ p : string * Process,
      validName (pr_Id p.2) = None ∧ Forall valid_node (pr_Elements p.2))). intros p.
    eapply yields_seq; [apply reject_yields|]. intros u1 Hn.
    eapply yields_seq; [apply (yields_for_each valid_node), valid_element_yields|]. intros u2 Hv.
    by intros w [] _. }
  intros u Hall. pose proof (proj1 (Forall_forall _ _) Hall) as Hall'. clear Hall.
  eapply yields_mono; [apply (yields_for_each (λ m, validName (el_Name m) = None));
    intros m; apply reject_yields|].
  intros u' Hm. split; [|done]. intros id pr Hp. by apply (Hall' (id, pr)), Hps.
Qed.

Lemma populate_process_yields stack pr : yields (populate_process stack pr) (alike_process pr).
Proof.
  unfold populate_process. apply (yields_seq (λ _, True)); [by intros ? ?|]. intros r _. apply yields_ret.
  split; [done|]. simpl. set (f := λ _ _ _, _).
  apply (map_fold_weak_ind (λ els' _, Forall2 alike (pr_Elements pr) els') f (pr_Elements pr)); [done|].
  intros id p m els' _ IH. unfold f. destruct (r.1 !! id); [|done].
  etrans; [exact IH|]. by apply el_alter_alike.
Qed.

(** A loop over the processes that replaces each by one like it. *)
Lemma valid_loop (body : Workflow → string * Process → M Workflow) wf0 :
  (∀ wf id pr, yields (body wf (id, pr)) (λ wf', ∃ pr', alike_process pr pr' ∧
     wf' = wf <| wf_Process ::= <[id := pr']> |>)) →
  valid_workflow wf0 → yields (ps ← range (wf_Process wf0); for_fold ps body wf0) valid_workflow.
Proof.
  intros Hb [Hwf Hmsg].
  apply (yields_seq (λ ps, ∀ id pr, (id, pr) ∈ ps → wf_Process wf0 !! id = Some pr)).
  { intros w ps [= <-] id pr. by rewrite map_order_perm, elem_of_map_to_list. }
  intros ps Hps.
  eapply yields_mono.
  { apply (yields_for_fold (λ l wf', (∀ id pr, (id, pr) ∈ l → valid_process pr) ∧ valid_workflow wf')).
    - split; [|by split]. intros id pr Hp. by eapply Hwf, Hps.
    - intros [id pr] l wf' (Hl & Hv & Hm). eapply yields_mono; [apply Hb|]. intros wf'' (pr' & Ha & ->).
      split; [intros; apply (Hl id0); by right|]. split; [|done]. simpl.
      intros id' pr'' [[<- <-]|[_ Hp]]%lookup_insert_Some; [|by eapply Hv].
      eapply alike_valid; [exact Ha|]. apply (Hl id). left. }
  by intros wf' [_ ?].
Qed.

Lemma Parse_yields `{XmlQuery} stack name rdr : yields (Parse stack name rdr) valid_workflow.
Proof.
  unfold Parse.
  apply (yields_seq (λ _, True)); [by intros ? ?|]. intros wf0 _.
  apply (yields_seq (λ _, True)); [by intros ? ?|]. intros wf _.
  eapply yields_seq; [apply Lint_yields|]. intros r Hlint.
  destruct r as [msgs [err|]]; cbn [snd] in *; [apply yields_throw|]. specialize (Hlint eq_refl).
  eapply yields_seq; [apply yields_wrapping, validModel_yields|]. intros u [Hval Hmsg].
  apply valid_loop.
  - intros wf' id pr. eapply yields_seq; [apply populate_process_yields|]. intros pr' Ha.
    apply yields_ret. by exists pr'.
  - split; [|done]. intros id pr Hp. destruct (Hval id pr Hp) as [? ?]. split_and!; [done|by eapply Hlint|done].
Qed.

(** (C17) Whatever the document and the XML library, a workflow that [Parse] returns
    is valid as far as [validModel] and the linter look: process and message names
    can be used in subjects, and among the elements of a process itself, those inside
    its sub-processes left aside, every link has one catch and a throw, every
    element has an id, every service task names what it executes, and every gateway
    that closes branches is paired with one. *)
Theorem Parse_valid `{XmlQuery} stack name rdr w wf :
  (Parse stack name rdr w).2 = Ok wf → valid_workflow wf.
Proof. apply Parse_yields. Qed.
End parse_lemmas.

(** ** Example: a process with a start and an end *)
Definition ex_select (n p : string) : list string :=
  if bool_decide (p = "//bpmn:sequenceFlow[@id=" +:+ quoted "flow" +:+ "]") then ["flow"]
  else if bool_decide (p = "//*[@id=" +:+ quoted "end" +:+ "]") then ["end"]
  else match n, p with
       | "doc", "//bpmn:process" => ["P"]
       | "P", "*" => ["start"; "end"]
       | "start", "bpmn:outgoing" => ["flow"]
       | "flow", "@targetRef" => ["end"]
       | ("flow" | "start" | "end"), "@id" => [n]
       | _, _ => []
       end.

Definition ex_xml : XmlQuery := {|
  Node := string;
  xmlquery_Parse b := inl "doc";
  SelectElements := ex_select;
  SelectElement n p := head (ex_select n p);
  SelectAttr n a := n;
  InnerText n := n;
  NamespaceURI n := bpmnNS;
  node_Data n := if bool_decide (n = "start") then "startEvent" else "endEvent";
  iso8601_ParseString s := inr (New "") |}.

Lemma Parse_valid_witness :
  ∃ wf, (@Parse sim ex_xml 10 "W" "" world_init).2 = Ok wf ∧ size (wf_Process wf) = 1 ∧ valid_workflow wf.
Proof.
  destruct ((@Parse sim ex_xml 10 "W" "" world_init).2) as [wf|e|p] eqn:Hr; [|exfalso..].
  - exists wf. split; [done|]. split; [|by apply (@Parse_valid sim (Sim_ok _ _ _) ex_xml 10 "W" "" world_init)].
    vm_compute in Hr. injection Hr as <-. by vm_compute.
  - vm_compute in Hr. discriminate Hr.
  - vm_compute in Hr. discriminate Hr.
Defined.
