(* ===== verification/Load.v ===== *)
(** * Loading a workflow from its BPMN source

    [LoadBPMNWorkflowFromBytes] and [HasWorkflowDefinitionChanged] of
    [client/client.go]: the parser, the call to the server and the operation that
    stores the definition, composed.  What the parser guarantees of a workflow
    ([Parser.valid_workflow]) survives the way to the store: whatever fails,
    every definition the call leaves behind is valid. *)
From S2P Require Import Prelude Model Errors Env Sim Common Wp NatsUtil Vars Publish History Instances Integrity TaskSpec Store Catalogue Launch Jobs Process Api Calls ClientTask Client Worker Work Linter Tagger Validation Parser.

Record LoadWorkflowParams := mkLoadWorkflowParams {
  lp_Name : string;
  lp_WorkflowBPMN : bytes;
  lp_LaunchHeaders : gmap string string }.

Section load.
Context `{Env} `{ApiEnv} `{ClientEnv} `{XmlQuery} (gzip : bytes → bytes + error) (stack : nat) (c : Client).

Definition LoadBPMNWorkflowFromBytes (ctx : Ctx) (loadParams : LoadWorkflowParams) : M string :=
  wf ← wrapping (Wrap "client error") (Parse stack (lp_Name loadParams) (lp_WorkflowBPMN loadParams));
  compressed ← wrapping (Wrap "failed to compress source") (lift_sum (gzip (lp_WorkflowBPMN loadParams)));
  let wf := wf <| wf_GzipSource := compressed |> in
  hdr ← wrapping (Wrap "encode headers as bytes") (client.headerToBytes (lp_LaunchHeaders loadParams));
  let wf := wf <| wf_AutoLaunchHeaders := hdr |> in
  client.call c ctx subject.APIStoreWorkflow (StoreWorkflowRequest (Some wf))
    (λ r, match r with StoreWorkflowResponse id => Some id | _ => None end).

(** The text of an error decides whether the workflow is new. *)
Definition HasWorkflowDefinitionChanged (ctx : Ctx) (name : string) (b : bytes) : M bool :=
  versions ← attempt (client.GetWorkflowVersions c ctx name);
  match versions with
  | inr err => if Contains (Error_ err) "not found" then mret true else throw err
  | inl versions =>
      wf ← wrapping (Wrap "client error") (Parse stack name b);
      wf ← wrapping (Wrap "client error") (client.ResolveWorkflow c ctx wf);
      hash ← wrapping (Wrap "client error") (GetHash wf);
      latest ← deref "versions[len(versions)-1]" (last versions);
      mret (bool_decide (wv_Sha256 latest ≠ hash))
  end.
End load.

(** ** The parser changes nothing *)
Section parser_effects.
Context `{EnvOk} (T : Cells) (P : Msg → Prop).
Abbreviation eff := (effect T P).

Lemma eff_reject msg r : preserves eff (reject msg r).
Proof. unfold reject. preserves_tac. Qed.

Lemma eff_callback msg r : preserves eff (callback msg r).
Proof. unfold callback. preserves_tac. Qed.

Lemma eff_findGatewayBranch stack els conv el out :
  preserves eff (findGatewayBranchOutputTransforms stack out el conv els).
Proof.
  revert el out. induction stack as [|stack IH]; intros el out; simpl; [preserves_tac|].
  preserves_tac. match goal with |- context [tgs_Target ?o] => generalize (tgs_Target o) end.
  intros ts. revert out. induction ts as [|t ts IHt]; intros out; preserves_tac; auto.
Qed.

Lemma eff_findConvergent {A} stack els (acc : A) h :
  (∀ t c e a, preserves eff (h t c e a)) →
  preserves eff (findConvergentGatewayOutputTransforms stack els acc h).
Proof.
  intros Hh. unfold findConvergentGatewayOutputTransforms, gateway_pairs. preserves_tac.
  destruct b, x. preserves_tac; auto. apply eff_findGatewayBranch.
Qed.
#[local] Hint Resolve eff_reject eff_callback : preserves.

Lemma eff_branch_loop go id b new outs i u bc :
  (∀ o n u bc, preserves eff (go o n u bc)) → preserves eff (branch_loop go id b new i outs u bc).
Proof.
  intros Hg. revert i u bc. induction outs as [|o outs IH]; intros i u bc; simpl; preserves_tac; auto.
Qed.

Lemma eff_findElements stack els id b u bc :
  preserves eff (findElementsReferencingUndefinedVars stack els id b u bc).
Proof.
  revert id b u bc. induction stack as [|stack IH]; intros id b u bc; simpl; [preserves_tac|].
  unfold element_outputs, check_references, checkUndefinedVarReference, outbounds_of.
  repeat first [apply eff_branch_loop; auto | apply eff_findConvergent; intros; unfold add_output_names
               | progress preserves_tac].
Qed.

Lemma eff_validModel stack wf : preserves eff (validModel stack wf).
Proof.
  unfold validModel, valid_element, checkVariables, start_branch, buildErrorMessage.
  repeat first [apply eff_findElements | progress preserves_tac].
Qed.

Lemma eff_scan stack el vis ins ix : preserves eff (directedColouredTraverse stack el vis ins ix).
Proof.
  revert el vis. induction stack as [|stack IH]; intros el vis; simpl; [preserves_tac|].
  assert (∀ ts vis, preserves eff (scan_loop (λ target visited,
    directedColouredTraverse stack target visited ins ix) el ins ix ts vis)) as Hl.
  { induction ts as [|t ts IHt]; intros v; simpl; preserves_tac; auto. }
  unfold scan_targets. preserves_tac; auto; destruct a; preserves_tac; apply (Hl (_ :: _)).
Qed.

Lemma eff_Lint stack wf b : preserves eff (Lint stack wf b).
Proof.
  unfold Lint, linkEventRules, unmatched, startDirectedScan.
  repeat first [apply eff_scan | progress preserves_tac].
Qed.

Lemma eff_recurseRecip frames els ix refs gw el r n :
  preserves eff (recurseRecip frames els ix refs gw el r n).
Proof.
  revert el r n. induction frames as [|frames IH]; intros el r n; simpl; [preserves_tac|].
  unfold recip_step. repeat first [apply IH | progress preserves_tac].
Qed.

Lemma eff_tagWorkflow frames wf : preserves eff (tagWorkflow frames wf).
Proof.
  unfold tagWorkflow, tagGateways, tag_direction, tag_pair, tagReciprocal, set_gateway.
  repeat first [apply eff_recurseRecip | progress preserves_tac].
Qed.

Context `{XmlQuery}.

Lemma eff_inner_text i path : preserves eff (inner_text i path).
Proof. unfold inner_text. preserves_tac. Qed.
#[local] Hint Resolve eff_inner_text : preserves.

Lemma eff_parseZeebeExtensions doc el i : preserves eff (parseZeebeExtensions doc el i).
Proof. unfold parseZeebeExtensions, parse_retries, parse_form. preserves_tac. Qed.

Lemma eff_parse_kind i id st : preserves eff (parse_kind i id st).
Proof. unfold parse_kind, parseStartEvent, parse_start_timer, parse_time_cycle. preserves_tac. Qed.

Lemma eff_parseBoundaryEvent doc i pr ix : preserves eff (parseBoundaryEvent doc i pr ix).
Proof.
  unfold parseBoundaryEvent, parseCompensationEventData, parse_boundary_error, parse_boundary_timer,
    boundary_target. preserves_tac.
Qed.
#[local] Hint Resolve eff_parseZeebeExtensions eff_parse_kind eff_parseBoundaryEvent : preserves.

Lemma eff_parse_element sub doc pr i st :
  (∀ i st, preserves eff (sub i st)) → preserves eff (parse_element sub doc pr i st).
Proof.
  intros Hs. unfold parse_element, parseFlowInOut, parse_target, parseElementErrors,
    parseSubscription. preserves_tac; auto. destruct b. preserves_tac.
Qed.

Lemma eff_parseProcess stack doc x pr ms es st : preserves eff (parseProcess stack doc x pr ms es st).
Proof.
  revert x pr ms es st. induction stack as [|stack IH]; intros x pr ms es st; simpl; [preserves_tac|].
  unfold parseMessages, parseErrors.
  repeat first [apply eff_parse_element; intros | apply IH | progress preserves_tac
               | match goal with b : _ * _ |- preserves _ _ => destruct b end].
Qed.

Lemma eff_Parse stack name rdr : preserves eff (Parse stack name rdr).
Proof.
  unfold Parse, parse_document, parseCollaboration, populate_process.
  repeat first [apply eff_parseProcess | apply eff_tagWorkflow | apply eff_Lint | apply eff_validModel
    | apply eff_findConvergent; intros; unfold populateConvergentGatewayOutputTransforms
    | progress preserves_tac].
Qed.
End parser_effects.

(** ** Definitions stay valid on the way to the store *)
Section stays_valid.
Context `{EnvOk}.

Lemma merge_retry_yields j def : yields (merge_retry j def) (alike j).
Proof.
  unfold merge_retry. destruct (el_RetryBehaviour j); apply yields_bind; intros b;
    [case_bool_decide; [by apply yields_ret|apply yields_bind; intros ?]|]; apply yields_ret; try done.
  by destruct (tb_DefaultRetry b).
Qed.

Lemma process_service_task_yields ctx wf fn j : yields (process_service_task ctx wf fn j) (alike j).
Proof.
  unfold process_service_task. apply yields_bind; intros r. apply yields_bind; intros id. cbv zeta.
  do 4 (apply yields_bind; intros ?).
  eapply yields_seq; [apply merge_retry_yields|]. intros j' Hj.
  do 2 (apply yields_bind; intros ?). apply yields_ret. exact Hj.
Qed.

Lemma process_elements_yields ctx wf fn els : yields (process_elements ctx wf fn els) (Forall2 alike els).
Proof.
  eapply yields_mono.
  { apply (yields_for_fold (λ l done, ∃ pre, els = pre ++ l ∧ Forall2 alike pre done)).
    - by exists [].
    - intros j l done (pre & -> & Hpre). eapply (yields_seq (alike j)).
      + case_bool_decide; [apply process_service_task_yields|by apply yields_ret].
      + intros j' Hj. apply yields_ret. exists (pre ++ [j]). split; [by rewrite <-app_assoc|].
        by apply Forall2_app, Forall2_cons. }
  intros done (pre & -> & Hpre). by rewrite app_nil_r.
Qed.

Lemma ProcessServiceTasks_yields ctx wf fn mapping :
  valid_workflow wf → yields (ProcessServiceTasks ctx wf fn mapping) valid_workflow.
Proof.
  intros Hwf. apply valid_loop; [|done]. intros wf' id pr. cbn [fst snd].
  eapply yields_seq; [apply process_elements_yields|]. intros els Hels. apply yields_bind; intros _.
  apply yields_ret. eexists. split; [|reflexivity]. by split.
Qed.

Lemma populateMetadata_valid wf : valid_workflow wf → valid_workflow (populateMetadata wf).
Proof.
  intros [Hp Hm]. split; [|exact Hm]. intros id pr. simpl. rewrite lookup_fmap.
  destruct (wf_Process wf !! id) as [pr'|] eqn:He; [|done]. intros [= <-]. exact (Hp id pr' He).
Qed.

Section stored.
Context (ctx : Ctx).
Abbreviation ns := (GetNS ctx).

(** From [w0] to [w], definitions were left alone or replaced by valid ones, these
    in one namespace. *)
Definition stores_valid (n : string) (w0 w : World) : Prop := ∀ ns' id,
  w_get w ns' Wf id = w_get w0 ns' Wf id ∨
  ns' = n ∧ ∃ wf, w_get w ns' Wf id = Some (DWorkflow wf) ∧ valid_workflow wf.

Lemma stores_valid_quiet w0 w w' : effect (aside ctx) (msg_ns ns) w w' → stores_valid ns w0 w → stores_valid ns w0 w'.
Proof.
  intros [Hf _] Hw ns' id. destruct (Hw ns' id) as [He|He].
  - left. rewrite <-He. eapply frame_get; [exact Hf|]. by intros (_ & ? & _).
  - right. rewrite (frame_get _ _ _ _ _ _ Hf); [done|]. by intros (_ & ? & _).
Qed.

Lemma keeps_stores_valid {A} w0 (m : M A) :
  preserves (effect (aside ctx) (msg_ns ns)) m → keeps_inv (stores_valid ns w0) m.
Proof. apply keeps_quiet. intros w w'. apply stores_valid_quiet. Qed.

Lemma stores_valid_next n w0 w : stores_valid n w0 w → stores_valid n w0 (w_next w).
Proof. done. Qed.

Lemma stores_valid_save w0 w id wf :
  valid_workflow wf → stores_valid ns w0 w → stores_valid ns w0 (w_put ns Wf id (DWorkflow wf) w).
Proof.
  intros Hwf Hw ns' id'. rewrite w_get_put. case_decide as He; [|apply Hw].
  injection He as -> ->. right. split; [done|]. by exists wf.
Qed.

Lemma stores_valid_aside w0 w b k d :
  b ≠ Wf → stores_valid ns w0 w → stores_valid ns w0 (w_put ns b k d w).
Proof. intros Hb Hw ns' id'. rewrite w_get_put_ne by congruence. apply Hw. Qed.

Lemma add_version_valid w0 wf h s v w :
  valid_workflow wf → stores_valid ns w0 w →
  wp (add_version ctx wf h s v) w (λ w' r, stores_valid ns w0 w' ∧ w_kv w' ns WfVersion = w_kv w ns WfVersion ∧
    ∀ s' v', r = Ok (s', v') → True ∧ stores_valid ns w0 (w_put ns WfVersion (wf_Name wf) (Marshal v') w')).
Proof.
  intros Hwf Hw. assert (∀ id {A} (a : A * WorkflowVersions), wp (_ ← wrapping (λ _, New "save workflow") (SaveObj ns Wf id wf); mret a) w
    (λ w' r, stores_valid ns w0 w' ∧ w_kv w' ns WfVersion = w_kv w ns WfVersion ∧
    ∀ s' v', r = Ok (s', v') → True ∧ stores_valid ns w0 (w_put ns WfVersion (wf_Name wf) (Marshal v') w'))) as Hsave.
  { intros id A a. unfold SaveObj, Save. wp_steps.
    assert (stores_valid ns w0 (w_put ns Wf id (Marshal wf) (w_next w))) as Hs by (by apply stores_valid_save).
    apply wp_nats_any; cbn [fst snd]; [|intros e _; wp_steps; done|intros e _ _]; wp_steps;
      (split; [done|]); (split; [by rewrite w_kv_put_ne|]); [|done].
    intros s' v' [= ->]. split; [done|]. by apply stores_valid_aside. }
  destruct s as [sid snew]. unfold add_version. destruct (last (wvs_Version v)) as [latest|]; [case_bool_decide|]; [|apply Hsave..].
  apply wp_ret. split; [done|]. split; [done|]. intros s' v' [= <- <-]. split; [done|]. by apply stores_valid_aside.
Qed.
#[local] Hint Extern 5 (aside _ _ _ _) => (apply aside_in; discriminate) : preserves.
#[local] Hint Resolve aside_in eff_start_timer_aside : preserves.

Lemma storeWorkflow_valid w0 wf w :
  valid_workflow wf → stores_valid ns w0 w → wp (storeWorkflow ctx wf) w (λ w' _, stores_valid ns w0 w').
Proof.
  intros Hwf Hw. pose (I := stores_valid ns w0). unfold storeWorkflow.
  apply (inv_bind_keeps I); [done|apply keeps_stores_valid; preserves_tac|]. intros w1 _ Hw1.
  apply (inv_bind_keeps I); [done|apply keeps_stores_valid; preserves_tac|]. intros w2 _ Hw2. cbv zeta.
  apply (inv_bind_keeps I); [done|apply keeps_stores_valid; preserves_tac|]. intros w3 _ Hw3.
  apply wp_bind, wp_newId. apply stores_valid_next in Hw3.
  generalize (ksuid_new (w_tick w3)) as id. revert Hw3. generalize (w_next w3) as w4. intros w4 Hw4 id.
  apply (inv_bind I). eapply wp_mono; [|apply wp_yields; [apply ProcessServiceTasks_yields, populateMetadata_valid, Hwf|
    apply (keeps_stores_valid w0); [preserves_tac|exact Hw4]]].
  intros w5 r [Hw5 Hval]. split; [done|]. intros wf' Hr. specialize (Hval wf' Hr).
  apply (inv_bind_keeps I); [done|apply keeps_stores_valid; unfold GetHash; preserves_tac|]. intros w6 h Hw6.
  apply (inv_bind_keeps I); [done| |].
  { intros w7 Hw7. apply wp_wrapping. eapply (wp_mono _ _ (λ w' _, I w')); [by intros w' []|].
    unfold check. apply (inv_bind I).
    eapply wp_mono; [|apply (UpdateObj_with_inv I I (λ _ _, True))]; try done.
    - intros w' r' HI. split; [done|]. intros [a [e|]] _; by simpl.
    - intros w' HI _. by apply stores_valid_aside.
    - intros s v d w' HI _ _ _. by apply add_version_valid. }
  intros w7 [[id' new] v] Hw7. destruct new; cbn [negb]; [|by apply wp_ret].
  apply (inv_bind_keeps I); [done|apply keeps_stores_valid; preserves_tac|]. intros w8 _ Hw8.
  apply (inv_bind_keeps I); [done|apply keeps_stores_valid; preserves_tac|]. intros w9 prs Hw9.
  apply (inv_bind_keeps I); [done|apply keeps_stores_valid; preserves_tac|]. intros w10 _ Hw10. by wp_steps.
Qed.
End stored.
End stays_valid.

(** ** Loading *)
Section loading.
Context `{EnvOk} `{ApiEnv} `{ClientEnv} `{XmlQuery}.

Lemma authorize_ns fn ctx name ctx' u : authForNamedWorkflow fn ctx name = (ctx', inl u) → ctx' = ctx.
Proof.
  unfold authForNamedWorkflow, authed. pose proof (authorize_ctx fn ctx name) as Hc.
  destruct (authorize fn ctx name) as [c [e|]]; [done|]. intros [= <- _]. by apply Hc.
Qed.

Lemma listen_valid recovery m wf w0 :
  valid_workflow wf →
  wp (listen recovery m (StoreWorkflowRequest (Some wf))) w0
    (λ w _, stores_valid (HeaderGet m header.SharNamespace) w0 w).
Proof.
  intros Hwf. set (n := HeaderGet m header.SharNamespace).
  assert (stores_valid n w0 w0) as Hrefl by (intros ns' id; by left).
  assert (wp (serve (msg_Subject m) (apiCtx m) (StoreWorkflowRequest (Some wf))) w0 (λ w _, stores_valid n w0 w)) as Hserve.
  { simpl. unfold reply_, api.storeWorkflow, granted. wp_steps.
    destruct (authForNamedWorkflow _ _ _) as [ctx' [u|e]] eqn:Ha; cbn [fst snd]; wp_steps; [|done].
    apply authorize_ns in Ha as ->. unfold LoadWorkflow. wp_steps.
    eapply wp_mono; [|by apply (storeWorkflow_valid (apiCtx m) w0)].
    intros w [id|e|p] Hw; wp_steps; exact Hw. }
  assert (wp (callAPI recovery m (StoreWorkflowRequest (Some wf))) w0 (λ w _, stores_valid n w0 w)) as Hcall.
  { revert Hserve. unfold wp, callAPI. destruct (serve _ _ _ w0) as [w' [l|e|p]]; simpl; [done..|].
    by destruct (_ && _). }
  unfold listen. case_bool_decide; [done|]. destruct (NewVersion _); [destruct (api.IsCompatible _)|]; done.
Qed.

(** A call keeps what the server's listener keeps. *)
Lemma call_inv {A} (I : World → Prop) c ctx subject r (ret : response → option A) w :
  (∀ w, I w → I (w_next w)) →
  (∀ cid w, I w → wp (listen panicRecovery
     (request_message (SetNS ctx (cl_ns c)) (cl_ns c) cid subject (cl_ExpectedCompatibleServerVersion c)) r) w
     (λ w' _, I w')) →
  I w → wp (client.call c ctx subject r ret) w (λ w' _, I w').
Proof.
  intros Hnext Hl Hw. unfold client.call, Call.
  change (ctx_SharNamespace (SetNS ctx (cl_ns c))) with (Some (cl_ns c)). cbv iota.
  apply wp_wrapping. eapply (wp_mono _ _ (λ w' _, I w')); [by intros w' []|]. apply wp_bind, wp_newId.
  specialize (Hl (ksuid_new (w_tick w))). generalize dependent (ksuid_new (w_tick w)). intros cid Hl.
  unfold RequestMsg. set (m := request_message _ _ _ _ _) in *.
  assert (∀ w', I w' → I (match listen panicRecovery m r w' with
             | (w', Panic _) => (w', Err (New "nats: timeout"))
             | wr => wr end).1) as Heff.
  { intros w' HI. specialize (Hl w' HI). revert Hl. unfold wp. by destruct (listen _ _ _ w') as [w'' []]. }
  apply Hnext in Hw. wp_steps. apply wp_nats_any.
  - specialize (Heff _ (Hnext _ Hw)). destruct (listen _ _ _ _) as [w' [a|e|p]]; cbn [fst snd] in *; wp_steps; [|done..].
    destruct a as [resp|data].
    + destruct (stream_errors resp); [destruct (ret resp)|]; by wp_steps.
    + destruct (streaming r); [by wp_steps|]. destruct (parse_error data) as [[[]| |]|]; by wp_steps.
  - intros. wp_steps. by apply Hnext.
  - intros. wp_steps. by apply Heff, Hnext.
Qed.

(** (C15) Loading a workflow leaves valid definitions, and nothing but definitions of
    the client's namespace is replaced, whatever the source is and whatever
    fails. *)
Theorem LoadBPMNWorkflow_stores_valid gzip stack c ctx params w :
  stores_valid (cl_ns c) w (LoadBPMNWorkflowFromBytes gzip stack c ctx params w).1.
Proof.
  change (wp (LoadBPMNWorkflowFromBytes gzip stack c ctx params) w (λ w' _, stores_valid (cl_ns c) w w')).
  set (I := stores_valid (cl_ns c) w). assert (I w) as Hw by (intros ns' id; by left).
  assert (∀ A (m : M A), preserves (effect no_cells (λ _, False)) m → keeps_inv I m) as Hquiet.
  { intros A m. apply keeps_quiet. intros w1 w2 [Hf _] HI ns' id.
    rewrite (frame_get _ _ _ _ _ _ Hf) by by intros []. apply HI. }
  unfold LoadBPMNWorkflowFromBytes. apply (inv_bind I).
  eapply wp_mono; [|apply wp_yields; [apply yields_wrapping, Parse_yields|
    apply Hquiet; [apply preserves_wrapping, eff_Parse|exact Hw]]].
  intros w1 r [Hw1 Hval]. split; [done|]. intros wf Hr. specialize (Hval wf Hr). clear Hr.
  apply (inv_bind_keeps I); [done|apply Hquiet; preserves_tac|]. intros w2 src Hw2.
  apply (inv_bind_keeps I); [done|apply Hquiet; unfold client.headerToBytes; preserves_tac|].
  intros w3 hdr Hw3.
  apply (call_inv I); [done| |done].
  intros cid w' HI. set (m := request_message _ _ _ _ _).
  eapply wp_mono; [|apply (listen_valid _ m _ w'); exact Hval]. intros w'' r' Hs ns' id.
  destruct (Hs ns' id) as [He|[Hn Hv]]; [rewrite He; apply HI|right; split; [rewrite Hn|done]].
  change (GetNS (apiCtx m) = cl_ns c). unfold m. by rewrite apiCtx_request.
Qed.
End loading.

(** ** Example: a workflow that is loaded, and stored *)
Definition ex_loading : @Client sim := @mkClient sim "c1" "host" "default" ∅ ∅ ∅ ∅ ∅ (Some "v1.1.503") true.
Definition ex_load : @World sim * res error string :=
  @LoadBPMNWorkflowFromBytes sim ex_server ex_workers ex_xml inl 10 ex_loading Background
    (mkLoadWorkflowParams "W" "<bpmn/>" ∅) world_init.

Lemma LoadBPMNWorkflow_stores_valid_witness :
  (∃ id wf, ex_load.2 = Ok id ∧ w_get ex_load.1 "default" Wf id = Some (DWorkflow wf) ∧ wf_GzipSource wf = "<bpmn/>") ∧
  stores_valid "default" world_init ex_load.1.
Proof.
  split; [|apply (@LoadBPMNWorkflow_stores_valid sim (Sim_ok _ _ _) ex_server ex_workers ex_xml)].
  destruct (ex_load.2) as [id|e|p] eqn:Hr; [|exfalso; vm_compute in Hr; discriminate Hr..].
  exists id. destruct (w_get ex_load.1 "default" Wf id) as [[]|] eqn:Hg.
  all: vm_compute in Hr; injection Hr as <-; vm_compute in Hg; try discriminate Hg.
  eexists; split_and!; [reflexivity..|]. by injection Hg as <-.
Defined.
