(* ===== verification/Telemetry.v ===== *)
(** * The telemetry server

    [telemetry/server/server.go], [telemetry/server/span.go] and
    [common/tracking.go]: a consumer of its own reads the states the engine
    publishes, keeps the state of a running activity or job in a key-value store,
    and exports a span when the activity or job ends.  It also counts.  The
    parser of KSUIDs, the exporter of spans and the instruments of OpenTelemetry
    are outside: the first two are parameters, what the server gives to the
    exporter and to the instruments is recorded. *)
From S2P Require Import Prelude Model Errors Env Sim Common Wp NatsUtil Vars Gateway.

(** What OpenTelemetry is given. *)
Record SpanContext := mkSpanContext { sc_TraceID : bytes; sc_SpanID : bytes }.

Record sharSpan := mkSharSpan {
  SpanName : string;
  SpanCtx : SpanContext;
  SpanParent : option SpanContext;      (* None: the invalid context *)
  Kind : Z;
  Start : Z;
  End_ : Z;
  Attrs : list (string * string);
  SpanStatus : string;
  InstrumentationLib : string * string;
  ChildCount : Z }.

Inductive metric :=
  | StateCounter (wf_action : string)
  | StateUpDown (incr : Z) (wf_action : string).

(** [ksuid.Parse] as far as its payload, and the failures of the exporter by
    the call counter, with what it has sent nevertheless. *)
Class TelemetryEnv := {
  ksuid_Payload : string → option bytes;
  export_fault : nat → option (error * bool) }.

Record Tele `{Env} := mkTele {
  t_world : World;
  t_spans : list sharSpan;
  t_metrics : list metric }.

#[export] Instance Tele_settable `{Env} : Settable Tele := λ r,
  mkTele _ (t_world r) (t_spans r) (t_metrics r).

Abbreviation TM := (gom error Tele).

(** ** Identifiers of traces and spans *)

(** [copy(b[:], src)] into an array of [n] zero bytes. *)
Fixpoint copy_array (n : nat) (src : bytes) : bytes :=
  match n, src with
  | 0, _ => ""
  | S n, EmptyString => String "000" (copy_array n "")
  | S n, String c src => String c (copy_array n src)
  end.

(** [s[n:]] *)
Fixpoint slice_from (n : nat) (s : bytes) : bytes :=
  match n, s with
  | S n, String _ s => slice_from n s
  | _, _ => s
  end.

Definition empty8 : bytes := copy_array 8 "".

Definition KSuidTo64bit `{TelemetryEnv} (k : string) : bytes :=
  match ksuid_Payload k with
  | None => copy_array 8 ""
  | Some p => copy_array 8 (slice_from 8 p)
  end.

Definition KSuidTo128bit `{TelemetryEnv} (k : string) : bytes :=
  match ksuid_Payload k with
  | None => copy_array 16 ""
  | Some p => copy_array 16 p
  end.

(** ** Actions *)
Definition startActions : list string :=
  [messages.StateExecutionExecute; messages.StateProcessExecute; messages.StateTraversalExecute;
   messages.StateActivityExecute; messages.StateJobExecuteServiceTask;
   messages.StateJobExecuteUserTask; messages.StateJobExecuteManualTask;
   messages.StateJobExecuteSendMessage].

Definition endActions : list string :=
  [messages.StateTraversalComplete; messages.StateActivityComplete; messages.StateActivityAbort;
   messages.StateJobCompleteServiceTask; messages.StateExecutionComplete;
   messages.StateProcessTerminated; messages.StateJobAbortServiceTask;
   messages.StateJobCompleteUserTask; messages.StateJobCompleteManualTask;
   messages.StateJobCompleteSendMessage].

Definition endStartActionMapping : gmap string string := list_to_map
  [(messages.StateTraversalComplete, messages.StateTraversalExecute);
   (messages.StateActivityComplete, messages.StateActivityExecute);
   (messages.StateActivityAbort, messages.StateActivityExecute);
   (messages.StateJobCompleteServiceTask, messages.StateJobExecuteServiceTask);
   (messages.StateExecutionComplete, messages.StateExecutionExecute);
   (messages.StateProcessTerminated, messages.StateProcessExecute);
   (messages.StateJobAbortServiceTask, messages.StateJobExecuteServiceTask);
   (messages.StateJobCompleteUserTask, messages.StateJobExecuteUserTask);
   (messages.StateJobCompleteManualTask, messages.StateJobExecuteManualTask);
   (messages.StateJobCompleteSendMessage, messages.StateJobExecuteSendMessage)].

Fixpoint actionFrom (subject : string) (startOrEndActions : list string) : string :=
  match startOrEndActions with
  | [] => "UNKNOWN_ACTION"
  | action :: rest => if Contains subject action then action else actionFrom subject rest
  end.

Definition startActionFor (endAction : string) : string :=
  default "UNKNOWN_START_ACTION" (endStartActionMapping !! endAction).

(** [oldState.State.String()]: the names of the enumeration. *)
Definition CancellationState_String (s : CancellationState) : string :=
  match s with
  | executing => "executing" | completed => "completed" | terminated => "terminated"
  | errored => "errored" | obsolete => "obsolete" | compensating => "compensating"
  end.

Section telemetry.
Context `{Env} `{TelemetryEnv}.

(** The bucket of spans is in the default namespace. *)
Definition Default : string := "default".

Definition on_world {A} (m : M A) : TM A := λ t,
  let r := m (t_world t) in (t <| t_world := r.1 |>, r.2).

Definition ExportSpans (spans : list sharSpan) : TM unit := λ t,
  let sent := t <| t_spans ::= λ l, l ++ spans |> in
  match export_fault (w_tick (t_world t)) with
  | None => (sent <| t_world ::= w_next |>, Ok tt)
  | Some (err, applied) => ((if applied then sent else t) <| t_world ::= w_next |>, Err err)
  end.

Definition incrementActionCounter (action : string) : TM unit :=
  modify (λ t, t <| t_metrics ::= λ l, l ++ [StateCounter action] |>).

Definition changeActionUpDownCounter (incr : Z) (action : string) : TM unit :=
  modify (λ t, t <| t_metrics ::= λ l, l ++ [StateUpDown incr action] |>).

Definition decodeState (data : Data) : WorkflowState * bool * option error :=
  match (Unmarshal data : option WorkflowState) with
  | None => (zero_state, true,
             Some (AbandonOpError (New "proto: cannot parse invalid wire-format data")))
  | Some state =>
      if bool_decide (KSuidTo64bit (TrackingID.ID (ws_Id state)) = empty8)
      then (zero_state, true, None)
      else (state, false, None)
  end.

Definition buildAttrs (m : gmap string (option string)) : M (list (string * string)) :=
  l ← range m;
  mret (omap (λ e, match e.2 with
                   | Some v => if bool_decide (v = "") then None else Some (e.1, v)
                   | None => None
                   end) l).

(** The attributes of a state before its variables. *)
Definition state_attrs (oldState : WorkflowState) : gmap string (option string) :=
  list_to_map
    [("el_id", Some (ws_ElementId oldState)); ("el_name", Some (ws_ElementName oldState));
     ("el_type", Some (ws_ElementType oldState)); ("wf_id", Some (ws_WorkflowId oldState));
     ("exec_id", Some (ws_ExecutionId oldState)); ("el_cond", ws_Condition oldState);
     ("wf_ex", ws_Execute oldState);
     ("el_state", Some (CancellationState_String (ws_State oldState)));
     ("trackingId", Some (TrackingID.ID (ws_Id oldState)));
     ("parentTrId", Some (TrackingID.ParentID (ws_Id oldState)))].

Definition add_var (m : gmap string (option string)) (e : string * GoVal) :
    gmap string (option string) :=
  <["var." +:+ e.1 := Some (Sprint_v e.2)]> m.

(** The span of an interval that began as [oldState] and ended as [newState]. *)
Definition span_of (name : string) (oldState newState : WorkflowState)
    (attrs : list (string * string)) : sharSpan :=
  let id := ws_Id oldState in
  let traceID := KSuidTo128bit (ws_ExecutionId oldState) in
  mkSharSpan name
    (mkSpanContext traceID (KSuidTo64bit (TrackingID.ID id)))
    (if bool_decide (TrackingID.ParentID id = "") then None
     else Some (mkSpanContext traceID (KSuidTo64bit (TrackingID.ParentID id))))
    0 (ws_UnixTimeNano oldState) (ws_UnixTimeNano newState) attrs "Ok" ("TEST", "0.1") 0.

Definition saveSpan (name : string) (oldState newState : WorkflowState) : TM unit :=
  kv ← wrapping AbandonOpError (on_world (DecodeVars NewServerVars (ws_Vars newState)));
  vs ← on_world (range kv);
  attrs ← on_world (buildAttrs (foldl add_var (state_attrs oldState) vs));
  _ ← wrapping (Wrap "export spans failed") (ExportSpans [span_of name oldState newState attrs]);
  _ ← attempt (on_world (kvDelete Default WfTracking (TrackingID.ID (ws_Id oldState))));
  mret tt.

Definition spanStart (state : WorkflowState) (subject : string) : TM unit :=
  let action := actionFrom subject startActions in
  _ ← incrementActionCounter action;
  _ ← changeActionUpDownCounter 1 action;
  wrapping (Wrap "span-start failed fo save object")
    (on_world (SaveObj Default WfTracking (TrackingID.ID (ws_Id state)) state)).

Definition spanEnd (name : string) (state : WorkflowState) (subject : string) : TM unit :=
  let endAction := actionFrom subject endActions in
  _ ← changeActionUpDownCounter (-1) (startActionFor endAction);
  oldState ← wrapping AbandonOpError
    (on_world (LoadObj WorkflowState Default WfTracking (TrackingID.ID (ws_Id state))));
  let state := state <| ws_ExecutionId := ws_ExecutionId oldState |>
                     <| ws_Id := ws_Id oldState |>
                     <| ws_WorkflowId := ws_WorkflowId oldState |>
                     <| ws_ElementId := ws_ElementId oldState |>
                     <| ws_ElementName := ws_ElementName oldState |>
                     <| ws_Execute := ws_Execute oldState |>
                     <| ws_Condition := ws_Condition oldState |>
                     <| ws_ElementType := ws_ElementType oldState |>
                     <| ws_State := ws_State oldState |> in
  wrapping (Wrap "save span failed") (saveSpan name oldState state).

(** An error that is not for abandoning the message is dropped. *)
Definition unless_abandoned (m : TM unit) : TM reply :=
  r ← attempt m;
  mret match r with
       | inl _ => (true, None)
       | inr err => if bool_decide (is_Some (AsAbandonOpError err)) then (true, Some err)
                    else (true, None)
       end.

Definition ignoring (m : TM unit) : TM reply := _ ← attempt m; mret (true, None).

(** The cases of the switch that do something, in the order they are tried. *)
Inductive trace_case :=
  | trace_execution | trace_process | trace_start | trace_activity_end | trace_job_end
  | trace_finish | trace_nothing.

#[export] Instance trace_case_eq_dec : EqDecision trace_case.
Proof. solve_decision. Defined.

Definition trace_kind (subject : string) : trace_case :=
  let suffix := HasSuffix subject in
  let contains := Contains subject in
  if suffix messages.StateExecutionExecute then trace_execution
  else if suffix messages.StateProcessExecute then trace_process
  else if suffix messages.StateTraversalExecute then trace_nothing
  else if suffix messages.StateActivityExecute then trace_start
  else if contains messages.StateJobExecuteServiceTask || suffix messages.StateJobExecuteUserTask
          || suffix messages.StateJobExecuteManualTask
          || contains messages.StateJobExecuteSendMessage then trace_start
  else if suffix messages.StateTraversalComplete then trace_nothing
  else if suffix messages.StateActivityComplete || suffix messages.StateActivityAbort
       then trace_activity_end
  else if contains messages.StateJobCompleteServiceTask || contains messages.StateJobAbortServiceTask
          || contains messages.StateJobCompleteUserTask
          || contains messages.StateJobCompleteManualTask
          || contains messages.StateJobCompleteSendMessage then trace_job_end
  else if contains messages.StateExecutionComplete || contains messages.StateProcessTerminated
       then trace_finish
  else trace_nothing.

Definition workflowTrace (msg : Msg) : TM reply :=
  let '(state, done, err2) := decodeState (msg_Data msg) in
  if done : bool then mret (done, err2) else
  let subject := msg_Subject msg in
  match trace_kind subject with
  | trace_execution =>
      _ ← incrementActionCounter messages.StateExecutionExecute;
      _ ← changeActionUpDownCounter 1 messages.StateExecutionExecute;
      ignoring (saveSpan "Execution Start" state state)
  | trace_process =>
      _ ← incrementActionCounter messages.StateProcessExecute;
      _ ← changeActionUpDownCounter 1 messages.StateProcessExecute;
      ignoring (saveSpan "Process Start" state state)
  | trace_start => ignoring (spanStart state subject)
  | trace_activity_end =>
      unless_abandoned (spanEnd ("Activity: " +:+ ws_ElementId state) state subject)
  | trace_job_end =>
      unless_abandoned (spanEnd ("Job: " +:+ ws_ElementType state) state subject)
  | trace_finish =>
      _ ← changeActionUpDownCounter (-1) (startActionFor (actionFrom subject endActions));
      mret (true, None)
  | trace_nothing => mret (true, None)
  end.

(** The consumer takes one message at a time. *)
Definition trace_all (msgs : list Msg) : TM unit :=
  for_each msgs (λ m, _ ← workflowTrace m; mret tt).
End telemetry.

(** ** Rules *)
Section telemetry_rules.
Context `{EnvOk} `{TelemetryEnv}.

Lemma runs_on {A} (m : M A) t Φ :
  wp m (t_world t) (λ w r, Φ (t <| t_world := w |>) r) → runs (on_world m) t Φ.
Proof. done. Qed.

(** An exporter that fails has sent nothing. *)
Definition export_sound : Prop := ∀ n e, export_fault n ≠ Some (e, true).

Lemma runs_ExportSpans l t (Φ : Tele → res error unit → Prop) :
  export_sound →
  (export_fault (w_tick (t_world t)) = None →
   Φ (t <| t_spans ::= λ l', l' ++ l |> <| t_world ::= w_next |>) (Ok tt)) →
  (∀ e, export_fault (w_tick (t_world t)) ≠ None → Φ (t <| t_world ::= w_next |>) (Err e)) →
  runs (ExportSpans l) t Φ.
Proof.
  intros Hexp Hok Herr. unfold runs, ExportSpans.
  destruct (export_fault _) as [[e []]|] eqn:Hf; [by apply Hexp in Hf|by apply Herr|by apply Hok].
Qed.
End telemetry_rules.

Ltac tele_step :=
  lazymatch goal with
  | |- runs (on_world _) _ _ => apply runs_on
  | |- runs (incrementActionCounter _) _ _ => apply runs_modify
  | |- runs (changeActionUpDownCounter _ _) _ _ => apply runs_modify
  | _ => runs_step
  end; cbv beta iota.

(** ** What one message does *)
Section telemetry_facts.
Context `{EnvOk} `{TelemetryEnv} (NF : NoFaults) (Hexp : export_sound).

Definition not_panic {A} (r : res error A) : Prop := match r with Panic _ => False | _ => True end.

(** The state kept for a running activity or job. *)
Definition tracked (t : Tele) (k : string) : option Data := w_get (t_world t) Default WfTracking k.

Definition tracks (sp : sharSpan) (id : string) : Prop := ("trackingId", id) ∈ Attrs sp.

#[export] Instance tracks_dec sp id : Decision (tracks sp id).
Proof. unfold tracks. apply _. Defined.

Lemma add_vars_tracking vs m : foldl add_var m vs !! "trackingId" = m !! "trackingId".
Proof.
  revert m. induction vs as [|[k v] vs IH]; intros m; [done|].
  cbn [foldl]. rewrite IH. unfold add_var. apply lookup_insert_ne. simpl. by intros [=].
Qed.

Lemma wp_buildAttrs m w (Φ : World → res error (list (string * string)) → Prop) :
  (∀ attrs, (∀ k v, (k, v) ∈ attrs ↔ m !! k = Some (Some v) ∧ v ≠ "") → Φ (w_next w) (Ok attrs)) →
  wp (buildAttrs m) w Φ.
Proof.
  intros HΦ. unfold buildAttrs. apply wp_bind, wp_range. intros l Hl. apply wp_ret, HΦ.
  intros k v. rewrite list_elem_of_omap. split.
  - intros ([k' [v'|]] & Hin & Hv); [|done]. simpl in Hv. case_bool_decide; simplify_eq.
    split; [|done]. by rewrite Hl, elem_of_map_to_list in Hin.
  - intros [Hm Hv]. exists (k, Some v). split; [by rewrite Hl, elem_of_map_to_list|].
    simpl. by rewrite bool_decide_false.
Qed.

Definition decodable (b : bytes) : Prop := b = "" ∨ ∃ m, msgpack_unmarshal b = inl m.

(** Nothing stands in the way of exporting a span that ends as [new]. *)
Definition healthy (new : WorkflowState) : Prop :=
  decodable (ws_Vars new) ∧ ∀ n, export_fault n = None.

Lemma wp_DecodeVars_any vals b w (Φ : World → res error (gmap string GoVal) → Prop) :
  (∀ kv, Φ w (Ok kv)) → (¬ decodable b → ∀ e, Φ w (Err e)) → wp (DecodeVars vals b) w Φ.
Proof.
  intros Hok Herr. unfold DecodeVars. case_bool_decide; [apply Hok|].
  destruct (msgpack_unmarshal b) eqn:Hb; [apply Hok|]. apply Herr. intros [?|[? ?]]; congruence.
Qed.

(** [saveSpan] either fails and changes nothing, or sends the one span and
    forgets the state it began with. *)
Lemma runs_saveSpan name old new t :
  runs (saveSpan name old new) t (λ t' r,
    t_metrics t' = t_metrics t ∧ not_panic r ∧
    ((¬ healthy new ∧ t_spans t' = t_spans t ∧ (∀ k, tracked t' k = tracked t k)) ∨
     (∃ attrs, t_spans t' = t_spans t ++ [span_of name old new attrs]
       ∧ (∀ k v, (k, v) ∈ attrs → k = "trackingId" → v = TrackingID.ID (ws_Id old))
       ∧ (∀ k, tracked t' k = if decide (k = TrackingID.ID (ws_Id old)) then None else tracked t k)))).
Proof.
  unfold saveSpan. repeat tele_step.
  apply wp_DecodeVars_any; [intros kv|intros Hn e; split_and!; [done|done|left; split_and!; [|done|done]]].
  2: { by intros [Hd _]. }
  repeat tele_step. apply wp_range. intros vs _. repeat tele_step.
  apply wp_buildAttrs. intros attrs Ha. repeat tele_step. apply runs_ExportSpans; [done|..].
  - intros _. repeat tele_step. apply wp_kvDelete; [done|]. split_and!; [done|done|]. right. exists attrs.
    split; [done|]. split.
    + intros k v Hin ->. apply Ha in Hin as [Hm _]. rewrite add_vars_tracking in Hm.
      vm_compute in Hm. by simplify_eq.
    + intros k. unfold tracked. simpl. rewrite w_get_del. repeat case_decide; naive_solver.
  - intros e Hf. split_and!; [done|done|]. left. split_and!; [|done|done]. intros [_ Hok]. by rewrite Hok in Hf.
Qed.

(** Nothing else that is kept changes. *)
Definition elsewhere (id : string) (t t' : Tele) : Prop :=
  ∀ k, k ≠ id → tracked t' k = tracked t k.

(** Every state that is kept is kept under its own tracking id. *)
Definition keyed (t : Tele) : Prop :=
  ∀ k d, tracked t k = Some d → ∃ s, Unmarshal d = Some s ∧ TrackingID.ID (ws_Id s) = k.

Definition pending (t : Tele) (id : string) : nat :=
  match tracked t id with Some _ => 1 | None => 0 end.

Definition sent (t : Tele) (id : string) : nat :=
  length (filter (λ sp, tracks sp id) (t_spans t)).

(** A step that begins at most [n id] intervals of every [id]. *)
Definition adds (n : string → nat) (t t' : Tele) : Prop :=
  keyed t' ∧ ∀ id, sent t' id + pending t' id ≤ sent t id + pending t id + n id.

Definition one (id id' : string) : nat := if decide (id' = id) then 1 else 0.

Lemma adds_same n t t' :
  keyed t → t_spans t' = t_spans t → (∀ k, tracked t' k = tracked t k) → adds n t t'.
Proof.
  intros Hk Hs Ht. split.
  - intros k d. rewrite Ht. apply Hk.
  - intros id. unfold sent, pending. rewrite Hs, Ht. lia.
Qed.

(** A span that is sent for a state that was kept adds nothing, and one for a
    state that was not adds one. *)
Lemma adds_saved name old new attrs t t' :
  keyed t → t_spans t' = t_spans t ++ [span_of name old new attrs] →
  (∀ k v, (k, v) ∈ attrs → k = "trackingId" → v = TrackingID.ID (ws_Id old)) →
  (∀ k, tracked t' k = if decide (k = TrackingID.ID (ws_Id old)) then None else tracked t k) →
  adds (λ id, one (TrackingID.ID (ws_Id old)) id - pending t id) t t'.
Proof.
  intros Hk Hs Ha Ht. split.
  - intros k d. rewrite Ht. case_decide; [done|apply Hk].
  - intros id. unfold sent, pending, one. rewrite Hs, Ht, filter_app, length_app, filter_cons.
    rewrite filter_nil. case_decide as Hd; case_decide as Hid; simpl.
    + destruct (tracked t id); lia.
    + exfalso. by apply Hid, (Ha "trackingId").
    + lia.
    + lia.
Qed.

Lemma runs_saved name old new t :
  keyed t → runs (saveSpan name old new) t (λ t' r, (adds (one (TrackingID.ID (ws_Id old))) t t' ∧
    elsewhere (TrackingID.ID (ws_Id old)) t t') ∧ not_panic r).
Proof.
  intros Hk. eapply runs_mono; [|apply runs_saveSpan].
  intros t' r (_ & Hr & [(_ & Hs & Ht)|(attrs & Hs & Ha & Ht)]); (split; [|done]);
    [split; [by apply adds_same|intros k _; apply Ht]|].
  split; [|intros k Hne; rewrite Ht; by case_decide].
  destruct (adds_saved _ _ _ _ _ _ Hk Hs Ha Ht) as [Hk' Hn]. split; [done|].
  intros id. specialize (Hn id). simpl in Hn. lia.
Qed.

Lemma runs_spanStart s subject t :
  keyed t → runs (spanStart s subject) t (λ t' r, (adds (one (TrackingID.ID (ws_Id s))) t t' ∧
    elsewhere (TrackingID.ID (ws_Id s)) t t') ∧ not_panic r).
Proof.
  intros Hk. unfold spanStart. repeat tele_step. apply wp_SaveObj; [done|]. intros w' Hw.
  assert (∀ k, w_get w' Default WfTracking k =
    if decide (k = TrackingID.ID (ws_Id s)) then Some (Marshal s) else tracked t k) as Ht.
  { intros k. rewrite Hw, w_get_put. repeat case_decide; naive_solver. }
  split; [|done].
  split; [|intros k Hne; unfold tracked; simpl; rewrite Ht; by case_decide]. split.
  - intros k d. unfold tracked. simpl. rewrite Ht. case_decide as Hd; [|apply Hk].
    intros [= <-]. exists s. done.
  - intros id. unfold sent, pending, one, tracked. simpl. rewrite Ht. fold (tracked t id).
    repeat case_decide; destruct (tracked t id); lia.
Qed.

Lemma runs_spanEnd name s subject t :
  keyed t → runs (spanEnd name s subject) t (λ t' r, (adds (λ _, 0) t t' ∧
    elsewhere (TrackingID.ID (ws_Id s)) t t') ∧ not_panic r).
Proof.
  intros Hk. unfold spanEnd. repeat tele_step. apply wp_LoadObj; [done|]. simpl. fold (tracked t (TrackingID.ID (ws_Id s))).
  destruct (tracked t _) as [d|] eqn:Hd.
  - destruct (Hk _ _ Hd) as (old & Ho & Hid). rewrite Ho. intros w' Hw. repeat tele_step.
    eapply runs_mono; [|apply runs_saveSpan]. intros t' r (_ & Hr & Hsaved).
    assert (∀ k, w_get w' Default WfTracking k = tracked t k) as Hw' by (intros k; by rewrite Hw).
    assert (adds (λ _, 0) t t' ∧ elsewhere (TrackingID.ID (ws_Id s)) t t') as Hadds; [|by destruct r; split].
    split; [|intros k Hne; destruct Hsaved as [(_ & _ & Ht)|(attrs & _ & _ & Ht)]; rewrite Ht;
               [|case_decide; [congruence|]]; apply Hw'].
    destruct Hsaved as [(_ & Hs & Ht)|(attrs & Hs & Ha & Ht)].
    + apply adds_same; [done|done|]. intros k. rewrite Ht. apply Hw'.
    + edestruct (adds_saved name old _ attrs t t' Hk Hs Ha) as [Hk' Hn].
      { intros k. rewrite Ht. case_decide; [done|apply Hw']. }
      split; [done|]. intros id. specialize (Hn id). simpl in Hn. unfold one in Hn.
      case_decide; [|lia]. subst id. unfold pending in *. rewrite Hid, Hd in *. lia.
  - intros w' e Hw _. split; [|done]. split.
    + apply adds_same; [done..|]. intros k. unfold tracked. simpl. by rewrite Hw.
    + intros k _. unfold tracked. simpl. by rewrite Hw.
Qed.

(** The messages that carry a state of the activity or job [id]. *)
Definition about (m : Msg) (id : string) : Prop :=
  ∃ s, decodeState (msg_Data m) = (s, false, None) ∧ TrackingID.ID (ws_Id s) = id.

(** The messages that begin an interval of the activity or job [id]. *)
Definition opens (m : Msg) (id : string) : Prop :=
  ∃ s, decodeState (msg_Data m) = (s, false, None) ∧ TrackingID.ID (ws_Id s) = id ∧
       trace_kind (msg_Subject m) ∈ [trace_execution; trace_process; trace_start].

#[export] Instance opens_dec m id : Decision (opens m id).
Proof.
  destruct (decodeState (msg_Data m)) as [[s d] e] eqn:Hd.
  destruct (decide (d = false ∧ e = None ∧ TrackingID.ID (ws_Id s) = id ∧
       trace_kind (msg_Subject m) ∈ [trace_execution; trace_process; trace_start])) as [Hy|Hn].
  - left. exists s. rewrite Hd. naive_solver.
  - right. intros (s' & Hs & ? & ?). apply Hn. rewrite Hd in Hs. by simplify_eq.
Defined.

Definition opened (m : Msg) (id : string) : nat := if decide (opens m id) then 1 else 0.

Lemma opened_one m s id :
  decodeState (msg_Data m) = (s, false, None) →
  trace_kind (msg_Subject m) ∈ [trace_execution; trace_process; trace_start] →
  opened m id = one (TrackingID.ID (ws_Id s)) id.
Proof.
  intros Hd Hk. unfold opened, one. destruct (decide (opens m id)) as [(s' & Hs & Hid & _)|Hn].
  - rewrite Hd in Hs. simplify_eq. by rewrite decide_True.
  - rewrite decide_False; [done|]. intros ->. apply Hn. by exists s.
Qed.

Lemma decodeState_done d s done e : decodeState d = (s, done, e) → done = false → e = None.
Proof.
  unfold decodeState. destruct (Unmarshal d); [|naive_solver]. case_bool_decide; naive_solver.
Qed.

Lemma adds_mono n n' t t' : (∀ id, n id ≤ n' id) → adds n t t' → adds n' t t'.
Proof. intros Hn [Hk Ha]. split; [done|]. intros id. specialize (Ha id). specialize (Hn id). lia. Qed.

Lemma runs_ignoring m t (Q : Tele → Prop) :
  runs m t (λ t' r, Q t' ∧ not_panic r) → runs (ignoring m) t (λ t' r, Q t' ∧ is_ok r = true).
Proof.
  intros Hm. unfold ignoring. repeat tele_step. eapply runs_mono; [|exact Hm].
  by intros t' [] [HQ Hr].
Qed.

Lemma runs_unless_abandoned m t (Q : Tele → Prop) :
  runs m t (λ t' r, Q t' ∧ not_panic r) → runs (unless_abandoned m) t (λ t' r, Q t' ∧ is_ok r = true).
Proof.
  intros Hm. unfold unless_abandoned. repeat tele_step. eapply runs_mono; [|exact Hm].
  by intros t' [] [HQ Hr].
Qed.

(** A message adds at most what it opens, and touches nothing else. *)
Lemma runs_workflowTrace m t :
  keyed t → runs (workflowTrace m) t (λ t' r, (adds (opened m) t t' ∧
    ∀ id, ¬ about m id → tracked t' id = tracked t id) ∧ is_ok r = true).
Proof.
  intros Hk. unfold workflowTrace, about. destruct (decodeState (msg_Data m)) as [[s done] e] eqn:Hd.
  destruct done; [by split; [split; [apply adds_same|]|]|].
  assert (e = None) as -> by by eapply decodeState_done.
  set (Q t' := adds (opened m) t t' ∧
         ∀ id, ¬ (∃ s', (s, false, None : option error) = (s', false, None) ∧ TrackingID.ID (ws_Id s') = id) →
         tracked t' id = tracked t id).
  assert (∀ k, trace_kind (msg_Subject m) = k → k ∈ [trace_execution; trace_process; trace_start] →
    ∀ t', adds (one (TrackingID.ID (ws_Id s))) t t' ∧ elsewhere (TrackingID.ID (ws_Id s)) t t' → Q t') as Hop.
  { intros k <- Hin t' [Ha He]. split; [|intros id Hid; apply He; naive_solver].
    eapply adds_mono; [|exact Ha]. intros id. by rewrite (opened_one m s). }
  assert (∀ t', adds (λ _, 0) t t' ∧ elsewhere (TrackingID.ID (ws_Id s)) t t' → Q t') as Hno.
  { intros t' [Ha He]. split; [|intros id Hid; apply He; naive_solver].
    eapply adds_mono; [|exact Ha]. intros id. simpl. lia. }
  assert (∀ l, keyed (t <| t_metrics := l |>)) as Hm by done.
  destruct (trace_kind (msg_Subject m)) eqn:Hkind; repeat tele_step.
  1-3: apply runs_ignoring; eapply runs_mono; [|first [by apply runs_saved|by apply runs_spanStart]];
    intros t' r [Ha Hr]; split; [|done]; by eapply Hop; [done|set_solver|].
  1-2: apply runs_unless_abandoned; eapply runs_mono; [|by apply runs_spanEnd];
    intros t' r [Ha Hr]; split; [|done]; by apply Hno.
  all: by split; [split; [apply adds_same|]|].
Qed.

Lemma adds_trans n n' t1 t2 t3 : adds n t1 t2 → adds n' t2 t3 → adds (λ id, n id + n' id) t1 t3.
Proof.
  intros [_ H12] [Hk H23]. split; [done|]. intros id. specialize (H12 id). specialize (H23 id). lia.
Qed.

Definition openings (msgs : list Msg) (id : string) : nat :=
  length (filter (λ m, opens m id) msgs).

Lemma runs_trace_all msgs t :
  keyed t → runs (trace_all msgs) t (λ t' r, (adds (openings msgs) t t' ∧
    ∀ id, Forall (λ m, ¬ about m id) msgs → tracked t' id = tracked t id) ∧ r = Ok tt).
Proof.
  revert t. induction msgs as [|m msgs IH]; intros t Hk; unfold trace_all; simpl.
  { split; [|done]. by split; [apply adds_same|]. }
  repeat tele_step. eapply runs_mono; [|by apply runs_workflowTrace].
  intros t1 r [[Ha Hs] Hr]. destruct r as [r|e|p]; [|done..]. repeat tele_step.
  eapply runs_mono; [|apply IH, Ha]. intros t2 r' [[Ha' Hs'] Hr']. split; [|done]. split.
  - eapply adds_mono; [|by eapply adds_trans]. intros id. unfold openings. simpl.
    rewrite filter_cons. unfold opened. case_decide; simpl; lia.
  - intros id [Hm Hl]%Forall_cons. by rewrite Hs', Hs.
Qed.

(** The state a start message carries is kept. *)
Lemma runs_start m s t :
  decodeState (msg_Data m) = (s, false, None) → trace_kind (msg_Subject m) = trace_start →
  runs (workflowTrace m) t (λ t' _, tracked t' (TrackingID.ID (ws_Id s)) = Some (Marshal s)).
Proof.
  intros Hd Hk. unfold workflowTrace. rewrite Hd, Hk.
  unfold ignoring, spanStart. repeat tele_step. apply wp_SaveObj; [done|]. intros w' Hw.
  assert (w_get w' Default WfTracking (TrackingID.ID (ws_Id s)) = Some (Marshal s)) as Hg.
  { by rewrite Hw, w_get_put_eq. }
  exact Hg.
Qed.

(** The end of an interval whose beginning is kept sends its span. *)
Lemma runs_spanEnd_ok name old s subject t :
  tracked t (TrackingID.ID (ws_Id s)) = Some (Marshal old) →
  TrackingID.ID (ws_Id old) = TrackingID.ID (ws_Id s) → healthy s →
  runs (spanEnd name s subject) t (λ t' _, ∃ attrs new, ws_UnixTimeNano new = ws_UnixTimeNano s ∧
    t_spans t' = t_spans t ++ [span_of name old new attrs] ∧ tracked t' (TrackingID.ID (ws_Id s)) = None).
Proof.
  intros Ht Hid Hh. unfold spanEnd. repeat tele_step. apply wp_LoadObj; [done|]. simpl.
  fold (tracked t (TrackingID.ID (ws_Id s))). rewrite Ht. intros w' Hw. repeat tele_step.
  eapply runs_mono; [|apply runs_saveSpan].
  intros t' r (_ & _ & [(Hn & _)|(attrs & Hs & _ & Hk)]); [by destruct Hn|].
  assert (∃ attrs new, ws_UnixTimeNano new = ws_UnixTimeNano s ∧
    t_spans t' = t_spans t ++ [span_of name old new attrs] ∧
    tracked t' (TrackingID.ID (ws_Id s)) = None) by (eexists _, _; split_and!; [|done|];
      [done|by rewrite Hk, decide_True]).
  by destruct r.
Qed.

(** (C29) An activity or job that begins and ends is exported: the span that its
    last message sends starts when the state of the first message was observed,
    ends when the last one was, belongs to the trace of the execution, and the
    kept state is forgotten, whatever other messages come between. *)
Theorem interval_is_exported m1 msgs m2 s e t :
  keyed t → healthy e →
  decodeState (msg_Data m1) = (s, false, None) → trace_kind (msg_Subject m1) = trace_start →
  Forall (λ m, ¬ about m (TrackingID.ID (ws_Id s))) msgs →
  decodeState (msg_Data m2) = (e, false, None) →
  trace_kind (msg_Subject m2) ∈ [trace_activity_end; trace_job_end] →
  TrackingID.ID (ws_Id e) = TrackingID.ID (ws_Id s) →
  let t1 := (trace_all (m1 :: msgs) t).1 in
  let t2 := (workflowTrace m2 t1).1 in
  tracked t2 (TrackingID.ID (ws_Id s)) = None ∧
  ∃ sp, t_spans t2 = t_spans t1 ++ [sp] ∧
    Start sp = ws_UnixTimeNano s ∧ End_ sp = ws_UnixTimeNano e ∧
    SpanCtx sp = mkSpanContext (KSuidTo128bit (ws_ExecutionId s))
                   (KSuidTo64bit (TrackingID.ID (ws_Id s))).
Proof.
  intros Hk Hh Hd1 Hk1 Hmsgs Hd2 Hk2 Hid. cbv zeta.
  assert (tracked (trace_all (m1 :: msgs) t).1 (TrackingID.ID (ws_Id s)) = Some (Marshal s)) as Ht1.
  { enough (runs (trace_all (m1 :: msgs)) t (λ t' _,
      tracked t' (TrackingID.ID (ws_Id s)) = Some (Marshal s))) by done.
    unfold trace_all. simpl. repeat tele_step.
    eapply runs_mono; [|apply (runs_and _ _ _ _ (runs_workflowTrace m1 t Hk) (runs_start m1 s t Hd1 Hk1))].
    intros t1 r [[[[Hk' _] _] Hr] Ht1]. destruct r as [r|err|p]; [|done..]. repeat tele_step.
    eapply runs_mono; [|apply (runs_trace_all msgs t1 Hk')]. intros t2 r' [[_ Hs] _].
    by rewrite Hs. }
  set (t1 := (trace_all (m1 :: msgs) t).1) in *.
  enough (runs (workflowTrace m2) t1 (λ t2 _, ∃ name attrs new,
    ws_UnixTimeNano new = ws_UnixTimeNano e ∧
    t_spans t2 = t_spans t1 ++ [span_of name s new attrs] ∧
    tracked t2 (TrackingID.ID (ws_Id s)) = None)) as (name & attrs & new & Hn & Hs & Ht2).
  { split; [done|]. by exists (span_of name s new attrs). }
  unfold workflowTrace. rewrite Hd2. rewrite <-Hid in Ht1 |- *.
  apply list_elem_of_In in Hk2. destruct Hk2 as [<-|[<-|[]]]; cbv beta iota; unfold unless_abandoned;
    repeat tele_step; (eapply runs_mono; [|by apply runs_spanEnd_ok]);
    intros t2 r (attrs & new & ? & ? & ?); destruct r; repeat tele_step; unfold runs; eauto 6.
Qed.

(** Whatever states reach the telemetry server, in any order and any number
    of times, all of them are handled, and no more spans are exported for an
    activity, job or process than messages that began it: a completion that is
    delivered again exports nothing. *)
Theorem spans_at_most_once msgs t id :
  (∀ k, tracked t k = None) → t_spans t = [] →
  (trace_all msgs t).2 = Ok tt ∧
  length (filter (λ sp, tracks sp id) (t_spans (trace_all msgs t).1)) ≤
    length (filter (λ m, opens m id) msgs).
Proof.
  intros Ht Hs. destruct (runs_trace_all msgs t) as [[[_ Ha] _] Hr].
  { intros k d. by rewrite Ht. }
  split; [done|]. specialize (Ha id). unfold sent, pending, openings in Ha.
  rewrite Ht, Hs in Ha. simpl in Ha. lia.
Qed.

(** The end of an interval whose beginning is not kept, as when the last
    message is delivered again, is counted all the same: the counter of running
    activities loses one that was never added, and nothing is exported. *)
Theorem unmatched_end_is_counted m e t :
  decodeState (msg_Data m) = (e, false, None) →
  trace_kind (msg_Subject m) ∈ [trace_activity_end; trace_job_end] →
  tracked t (TrackingID.ID (ws_Id e)) = None →
  let t' := (workflowTrace m t).1 in
  t_spans t' = t_spans t ∧
  t_metrics t' = t_metrics t ++
    [StateUpDown (-1) (startActionFor (actionFrom (msg_Subject m) endActions))].
Proof.
  intros Hd Hk Ht. cbv zeta.
  enough (runs (workflowTrace m) t (λ t' _, t_spans t' = t_spans t ∧ t_metrics t' = t_metrics t ++
    [StateUpDown (-1) (startActionFor (actionFrom (msg_Subject m) endActions))])) by done.
  unfold workflowTrace. rewrite Hd. apply list_elem_of_In in Hk.
  destruct Hk as [<-|[<-|[]]]; cbv beta iota; unfold unless_abandoned, spanEnd; repeat tele_step;
    (apply wp_LoadObj; [done|]); simpl; fold (tracked t (TrackingID.ID (ws_Id e)));
    rewrite Ht; intros w' err Hw _; repeat tele_step; by split.
Qed.
End telemetry_facts.

(** ** Witnesses *)
Definition sim_telemetry : TelemetryEnv :=
  {| ksuid_Payload k := if bool_decide (k = "") then None else Some "0123456789abcdef";
     export_fault _ := None |}.

Definition trace_state (id : string) (at_ : Z) : WorkflowState :=
  zero_state <| ws_Id := ["execution"; id] |> <| ws_ExecutionId := "execution" |>
             <| ws_ElementId := "step" |> <| ws_UnixTimeNano := at_ |>.

Definition trace_msg (subject : string) (s : WorkflowState) : Msg :=
  mkMsg (NS subject "default") ∅ (DState s).

Definition trace_start_msg := trace_msg messages.WorkflowActivityExecute (trace_state "a" 10).
Definition trace_end_msg := trace_msg messages.WorkflowActivityComplete (trace_state "a" 25).

Definition sim_tele : @Tele sim := mkTele sim (@world_init sim) [] [].

Lemma sim_tele_empty k : @tracked sim sim_tele k = None.
Proof. apply (@w_get_init _ (Sim_ok _ _ _)). Qed.

Lemma spans_at_most_once_witness :
  length (filter (λ sp, tracks sp "a")
    (t_spans (@trace_all sim sim_telemetry [trace_start_msg; trace_end_msg; trace_end_msg] sim_tele).1)) = 1 ∧
  (@trace_all sim sim_telemetry [trace_start_msg; trace_end_msg; trace_end_msg] sim_tele).2 = Ok tt.
Proof.
  split; [vm_compute; reflexivity|].
  apply (@spans_at_most_once sim (Sim_ok _ _ _) sim_telemetry sim_NoFaults (λ _ _, ltac:(done))
    [trace_start_msg; trace_end_msg; trace_end_msg] sim_tele "a").
  - apply sim_tele_empty.
  - reflexivity.
Defined.

Lemma interval_is_exported_witness :
  ∃ sp, t_spans (@workflowTrace sim sim_telemetry trace_end_msg
                  (@trace_all sim sim_telemetry [trace_start_msg] sim_tele).1).1 = [sp] ∧
    Start sp = 10%Z ∧ End_ sp = 25%Z.
Proof.
  destruct (@interval_is_exported sim (Sim_ok _ _ _) sim_telemetry sim_NoFaults (λ _ _, ltac:(done))
    trace_start_msg [] trace_end_msg (trace_state "a" 10) (trace_state "a" 25) sim_tele)
    as [_ (sp & Hs & H1 & H2 & _)].
  - intros k d. by rewrite sim_tele_empty.
  - split; [by left|done].
  - vm_compute; reflexivity.
  - vm_compute; reflexivity.
  - constructor.
  - vm_compute; reflexivity.
  - apply list_elem_of_In. vm_compute. by left.
  - vm_compute; reflexivity.
  - exists sp. split; [exact Hs|]. by split.
Defined.

Lemma unmatched_end_is_counted_witness :
  t_metrics (@workflowTrace sim sim_telemetry trace_end_msg sim_tele).1 =
    [StateUpDown (-1) messages.StateActivityExecute].
Proof.
  apply (@unmatched_end_is_counted sim sim_telemetry sim_NoFaults
    trace_end_msg (trace_state "a" 25) sim_tele).
  - vm_compute; reflexivity.
  - apply list_elem_of_In. vm_compute. by left.
  - apply sim_tele_empty.
Defined.
