(* ===== verification/Logging.v ===== *)
(** * Logging

    [common/shar_handler.go], [common/multi_handler.go], [common/logx/logging.go]:
    the handlers behind the loggers, one that publishes what is logged as messages
    and one that gives it to several handlers.

    A handler keeps its attributes in a slice, and [WithAttrs] appends to the slice
    of the handler it derives from.  The arrays behind the slices are modelled, with
    the sharing [append] brings: an array with room is written in place.  How much
    room [append] makes is left open by the language: [growcap] is a parameter.
    The text handler of [log/slog] is here as far as the attributes it prints. *)
From S2P Require Import Prelude Model Errors Env Common.

(** ** Slices *)
Record Attr := mkAttr { a_Key : string; a_Value : string }.

#[export] Instance Attr_eq_dec : EqDecision Attr.
Proof. solve_decision. Defined.

(** A slice that begins where its array does. *)
Record Slice := mkSlice { sl_array : nat; sl_len : nat; sl_cap : nat }.

Definition nil_slice : Slice := mkSlice 0 0 0.

Record LogRequest := mkLogRequest {
  lr_Hostname : string;
  lr_Level : Z;
  lr_Time : Z;
  lr_Message : string;
  lr_Attributes : gmap string string }.

(** The arrays by their addresses, the next address, what was published and what
    the text handlers have printed. *)
Record LogState := mkLogState {
  ls_heap : gmap nat (list Attr);
  ls_next : nat;
  ls_published : list LogRequest;
  ls_printed : list (string * list Attr) }.

#[export] Instance LogState_settable : Settable LogState := λ r,
  mkLogState (ls_heap r) (ls_next r) (ls_published r) (ls_printed r).

Abbreviation LogM := (gom error LogState).

Class GoSlices := {
  growcap : nat → nat → nat;
  growcap_enough cap n : n ≤ growcap cap n }.

Definition contents (st : LogState) (s : Slice) : list Attr :=
  take (sl_len s) (default [] (ls_heap st !! sl_array s)).

Definition alloc (arr : list Attr) (len : nat) : LogM Slice := λ st,
  let a := ls_next st in
  (st <| ls_heap ::= <[a := arr]> |> <| ls_next ::= S |>, Ok (mkSlice a len (length arr))).

(** [[]slog.Attr{...}] *)
Definition new_slice (l : list Attr) : LogM Slice := alloc l (length l).

(** [append(s, xs...)] *)
Definition go_append `{GoSlices} (s : Slice) (xs : list Attr) : LogM Slice := λ st,
  let n := sl_len s + length xs in
  if bool_decide (n ≤ sl_cap s) then
    (st <| ls_heap ::= alter (list_inserts (sl_len s) xs) (sl_array s) |>,
     Ok (mkSlice (sl_array s) n (sl_cap s)))
  else
    alloc (contents st s ++ xs ++ replicate (growcap (sl_cap s) n - n) (mkAttr "" "")) n st.

(** [for i, attr := range s { s[i] = f(attr) }] *)
Definition map_slice (f : Attr → Attr) (s : Slice) : LogM unit := λ st,
  (st <| ls_heap ::= alter (λ arr, map f (take (sl_len s) arr) ++ drop (sl_len s) arr) (sl_array s) |>,
   Ok tt).

Definition read_slice (s : Slice) : LogM (list Attr) := gets (λ st, contents st s).

(** ** Handlers *)
Inductive Handler :=
  | SharHandler (level : option Z) (groupPrefix : string) (attrs : Slice)
  | TextHandler (level : Z) (groupPrefix : string) (attrs : list Attr)
  | MultiHandler (Handlers : list Handler).

(** What is logged: [slog.Record]. *)
Record LogRecord := mkLogRecord {
  r_Level : Z;
  r_Time : Z;                 (* in milliseconds *)
  r_Message : string;
  r_Attrs : list Attr }.

Section handlers.
Context `{GoSlices}.

(** The name of the host, and what [Publish] answers. *)
Context (hostName : string) (publish_fault : LogRequest → option error).

Definition LevelInfo : Z := 0.

Definition Enabled (h : Handler) (level : Z) : bool :=
  match h with
  | SharHandler l _ _ => bool_decide (default LevelInfo l ≤ level)%Z
  | TextHandler l _ _ => bool_decide (l ≤ level)%Z
  | MultiHandler _ => true
  end.

Definition withGroupPrefix (groupPrefix : string) (attr : Attr) : Attr :=
  if bool_decide (groupPrefix ≠ "") then mkAttr (groupPrefix +:+ a_Key attr) (a_Value attr)
  else attr.

Definition add_attr (m : gmap string string) (a : Attr) : gmap string string :=
  <[a_Key a := a_Value a]> m.

(** [LogPublisher.Publish] *)
Definition PublishLog (lr : LogRequest) : LogM unit :=
  match publish_fault lr with
  | Some err => throw (Wrap "publish object" err)
  | None => modify (λ st, st <| ls_published ::= λ l, l ++ [lr] |>)
  end.

Fixpoint Handle (h : Handler) (r : LogRecord) : LogM unit :=
  match h with
  | SharHandler _ _ s =>
      attrs ← read_slice s;
      let attr := foldl add_attr (foldl add_attr ∅ (r_Attrs r)) attrs in
      wrapping (Wrap "error publishing log")
        (PublishLog (mkLogRequest hostName (r_Level r) (r_Time r) (r_Message r) attr))
  | TextHandler _ p attrs =>
      modify (λ st, st <| ls_printed ::= λ l,
        l ++ [(r_Message r, attrs ++ map (withGroupPrefix p) (r_Attrs r))] |>)
  | MultiHandler hs =>
      (fix go (hs : list Handler) : LogM unit :=
         match hs with
         | [] => mret tt
         | h :: hs =>
             _ ← (if Enabled h (r_Level r) then _ ← attempt (Handle h r); mret tt else mret tt);
             go hs
         end) hs
  end.

Fixpoint WithAttrs (h : Handler) (attrs : Slice) : LogM Handler :=
  match h with
  | SharHandler l p s =>
      _ ← map_slice (withGroupPrefix p) attrs;
      xs ← read_slice attrs;
      s' ← go_append s xs;
      mret (SharHandler l p s')
  | TextHandler l p pre =>
      xs ← read_slice attrs;
      mret (TextHandler l p (pre ++ map (withGroupPrefix p) xs))
  | MultiHandler hs =>
      hs' ← (fix go (hs : list Handler) : LogM (list Handler) :=
               match hs with
               | [] => mret []
               | h :: hs => h' ← WithAttrs h attrs; hs' ← go hs; mret (h' :: hs')
               end) hs;
      mret (MultiHandler hs')
  end.

Fixpoint WithGroup (h : Handler) (name : string) : Handler :=
  match h with
  | SharHandler l p s =>
      if bool_decide (name = "") then h
      else
        let prefix := name +:+ "." in
        let prefix := if bool_decide (p ≠ "") then p +:+ prefix else prefix in
        SharHandler l prefix s
  | TextHandler l p pre => if bool_decide (name = "") then h else TextHandler l (p +:+ name +:+ ".") pre
  | MultiHandler hs => MultiHandler (map (λ h, WithGroup h name) hs)
  end.

Definition NewSharHandler (level : option Z) : Handler := SharHandler level "" nil_slice.
Definition NewMultiHandler (handlers : list Handler) : Handler := MultiHandler handlers.

(** ** Loggers

    [Logger.With] of [log/slog] makes a slice of its arguments for the handler. *)
Definition With (h : Handler) (args : list Attr) : LogM Handler :=
  if bool_decide (args = []) then mret h else s ← new_slice args; WithAttrs h s.

(** [logx.SetDefault] *)
Definition SetDefault (ecosystem : string) (hndlr : Handler) : LogM Handler :=
  With hndlr [mkAttr "eco" ecosystem].

(** [logx.ContextWith], at the logger of the context. *)
Definition ContextWith (logger : Handler) (area : string) : LogM Handler :=
  With logger [mkAttr "loc" area].

Definition loggingEntrypoint (logger : Handler) (subsystem correlationId : string) : LogM Handler :=
  With logger [mkAttr "sub" subsystem; mkAttr "cid" correlationId].

Definition NatsMessageLoggingEntrypoint (logger : Handler) (subsystem : string)
    (hdr : gmap string string) : LogM Handler :=
  loggingEntrypoint logger subsystem (default "" (hdr !! "cid")).

Definition wfStatePrefix (keyName : string) : string := "wfState." +:+ keyName.

Definition ContextLoggerWithWfState (logger : Handler) (state : WorkflowState) : LogM Handler :=
  logger ← With logger [mkAttr (wfStatePrefix "exec_id") (ws_ExecutionId state)];
  logger ← With logger [mkAttr (wfStatePrefix "tr_id") (TrackingID.ID (ws_Id state))];
  With logger [mkAttr (wfStatePrefix "parent_tr_id") (TrackingID.ParentID (ws_Id state))].
End handlers.

(** ** What a derived logger keeps *)
Section logging_facts.
Context `{GoSlices} (hostName : string) (publish_fault : LogRequest → option error).

(** Every array lies below the next address; the address 0 is nil. *)
Definition heap_ok (st : LogState) : Prop :=
  ∀ a, a = 0 ∨ is_Some (ls_heap st !! a) → a < ls_next st.

Definition valid (st : LogState) (s : Slice) : Prop :=
  sl_len s ≤ sl_cap s ∧
  (s = nil_slice ∨ ∃ arr, ls_heap st !! sl_array s = Some arr ∧ length arr = sl_cap s).

Lemma valid_below st s : heap_ok st → valid st s → sl_array s < ls_next st.
Proof. intros Hok [_ [->|(arr & Ha & _)]]; apply Hok; [by left|right; eauto]. Qed.

Lemma valid_nil st : valid st nil_slice.
Proof. split; [done|by left]. Qed.

Lemma contents_nil st : contents st nil_slice = [].
Proof. done. Qed.

(** What stays through a computation: the slices below [s], what was published. *)
Definition keeps (s : Slice) (st st' : LogState) : Prop :=
  heap_ok st' ∧ ls_published st' = ls_published st ∧
  ∀ t, valid st t → (sl_array t = sl_array s → sl_len t ≤ sl_len s) →
    valid st' t ∧ contents st' t = contents st t.

Lemma contents_length st s : valid st s → length (contents st s) = sl_len s.
Proof.
  intros [Hl [->|(arr & Ha & Hn)]]; [done|]. unfold contents. rewrite Ha, length_take. simpl. lia.
Qed.

Lemma valid_room st s (xs : list Attr) : valid st s → sl_len s + length xs ≤ sl_cap s → xs ≠ [] →
  ∃ arr, ls_heap st !! sl_array s = Some arr ∧ length arr = sl_cap s.
Proof.
  intros [_ [->|Ha]] Hr Hx; [|done]. destruct xs; [done|]. simpl in *. lia.
Qed.

Lemma alloc_spec arr len st :
  heap_ok st → len ≤ length arr →
  runs (alloc arr len) st (λ st' r, ∃ s', r = Ok s' ∧ s' = mkSlice (ls_next st) len (length arr) ∧
    valid st' s' ∧ contents st' s' = take len arr ∧ heap_ok st' ∧
    ls_published st' = ls_published st ∧
    ∀ t, valid st t → valid st' t ∧ contents st' t = contents st t).
Proof.
  intros Hok Hl. exists (mkSlice (ls_next st) len (length arr)). simpl.
  split_and!; [done|done| | | |done|].
  - split; [done|]. right. exists arr. simpl. by rewrite lookup_insert_eq.
  - unfold contents. simpl. by rewrite lookup_insert_eq.
  - intros a. simpl. rewrite lookup_insert_is_Some. pose proof (Hok a). intros [?|[?|[? ?]]]; [|lia|].
    + subst a. specialize (Hok 0 (or_introl eq_refl)). lia.
    + assert (a < ls_next st); [auto|lia].
  - intros t Ht. pose proof (valid_below st t Hok Ht) as Hlt.
    destruct Ht as [Ht [->|(arr' & Ha & Hn)]]; [split; [apply valid_nil|done]|].
    unfold valid, contents. simpl. rewrite lookup_insert_ne by lia. eauto 6.
Qed.

(** An append in place: the array is written above the slice. *)
Lemma append_in_place s (xs : list Attr) st :
  heap_ok st → valid st s → sl_len s + length xs ≤ sl_cap s → xs ≠ [] →
  let st' := st <| ls_heap ::= alter (list_inserts (sl_len s) xs) (sl_array s) |> in
  let s' := mkSlice (sl_array s) (sl_len s + length xs) (sl_cap s) in
  keeps s st st' ∧ valid st' s' ∧ contents st' s' = contents st s ++ xs.
Proof.
  intros Hok Hs Hroom Hx. destruct (valid_room st s xs) as (arr & Ha & Hn); [done..|].
  destruct Hs as [Hl _]. cbv zeta. split_and!; [split_and!; [|done|]| |].
  - intros a. simpl. rewrite lookup_alter_is_Some. apply Hok.
  - intros t [Ht Hta] Hb. destruct (decide (sl_array t = sl_array s)) as [He|Hne].
    + specialize (Hb He). split; [split; [done|]|].
      * destruct Hta as [|(arr' & Ha2 & Hn2)]; [by left|right]. rewrite He in Ha2.
        exists (list_inserts (sl_len s) xs arr). simpl. rewrite He, lookup_alter_eq, Ha.
        split; [done|]. rewrite length_inserts. congruence.
      * unfold contents. simpl. rewrite He, lookup_alter_eq, Ha. simpl.
        apply list_eq. intros i. rewrite !lookup_take. case_decide; [|done].
        apply list_lookup_inserts_lt. lia.
    + unfold valid, contents. simpl. by rewrite lookup_alter_ne.
  - split; [done|]. right. simpl. rewrite lookup_alter_eq, Ha. eexists. split; [done|].
    by rewrite length_inserts.
  - unfold contents. simpl. rewrite lookup_alter_eq, Ha. simpl. apply list_eq. intros i.
    rewrite lookup_take. destruct (decide (i < sl_len s)).
    + rewrite decide_True by lia. rewrite list_lookup_inserts_lt by done.
      rewrite lookup_app_l by (rewrite length_take; lia). by rewrite lookup_take, decide_True.
    + rewrite lookup_app_r by (rewrite length_take; lia). rewrite length_take, Nat.min_l by lia.
      case_decide as Hi; [|symmetry; apply lookup_ge_None; lia].
      apply list_lookup_inserts; lia.
Qed.

(** An append adds to the slice, in an array of its own when there is no room. *)
Lemma append_spec s (xs : list Attr) st :
  heap_ok st → valid st s → xs ≠ [] →
  runs (go_append s xs) st (λ st' r, ∃ s', r = Ok s' ∧ keeps s st st' ∧ valid st' s' ∧
    contents st' s' = contents st s ++ xs ∧ sl_len s' = sl_len s + length xs ∧
    (if bool_decide (sl_len s + length xs ≤ sl_cap s)
     then s' = mkSlice (sl_array s) (sl_len s + length xs) (sl_cap s)
     else sl_array s' = ls_next st)).
Proof.
  intros Hok Hs Hx. unfold go_append. case_bool_decide as Hroom.
  - unfold runs. simpl. eexists. split; [done|].
    destruct (append_in_place s xs st) as (?&?&?); [done..|]. by split_and!.
  - match goal with |- runs _ _ ?Φ => change (runs (alloc (contents st s ++ xs ++
      replicate (growcap (sl_cap s) (sl_len s + length xs) - (sl_len s + length xs)) (mkAttr "" ""))
      (sl_len s + length xs)) st Φ) end.
    eapply runs_mono; [|apply alloc_spec; [done|]].
    + intros st' r (s' & -> & -> & Hv & Hc & Hok' & Hp & Ht). eexists. split; [done|].
      split_and!; [split_and!; [done|done|by eauto]|done| |done|done].
      rewrite Hc, app_assoc, take_app_le, take_ge; [done|..];
        rewrite !length_app, contents_length by done; lia.
    + rewrite !length_app, contents_length, length_replicate by done.
      pose proof (growcap_enough (sl_cap s) (sl_len s + length xs)). lia.
Qed.

Lemma keeps_step s s' st st1 st2 :
  keeps s st st1 → keeps s' st1 st2 → sl_len s ≤ sl_len s' →
  (sl_array s' = sl_array s ∨ ls_next st ≤ sl_array s') → heap_ok st → keeps s st st2.
Proof.
  intros (Hok1 & Hp1 & Hk1) (Hok2 & Hp2 & Hk2) Hl Ha Hok. split_and!; [done|congruence|].
  intros t Ht Hb. destruct (Hk1 t Ht Hb) as [Ht1 <-]. apply Hk2; [done|]. intros He.
  destruct Ha as [Ha|Ha]; [rewrite Hb by congruence; lia|].
  pose proof (valid_below st t Hok Ht). lia.
Qed.

(** The arguments of [With], prefixed where they lie, are in an array of their own. *)
Lemma runs_args {B} f (xs : list Attr) (K : list Attr → LogM B) st Φ :
  heap_ok st →
  (∀ st1, heap_ok st1 → ls_published st1 = ls_published st → ls_next st1 = S (ls_next st) →
     (∀ t, valid st t → valid st1 t ∧ contents st1 t = contents st t) →
     runs (K (map f xs)) st1 Φ) →
  runs (a ← new_slice xs; _ ← map_slice f a; read_slice a ≫= K) st Φ.
Proof.
  intros Hok HK. unfold new_slice. repeat runs_step. set (st0 := (alloc xs (length xs) st).1).
  pose proof (alloc_spec xs (length xs) st Hok ltac:(done)) as (s' & Hr & -> & Hv & Hc & Hok0 & Hp0 & Ht).
  unfold runs at 1. rewrite Hr. fold st0 in Hv, Hc, Hok0, Hp0, Ht |- *. repeat runs_step.
  set (a := mkSlice (ls_next st) (length xs) (length xs)) in *.
  unfold runs at 1. change ((map_slice f a st0).2) with (Ok tt : res error unit). cbv iota.
  assert (ls_heap st0 !! ls_next st = Some xs) as Hxs by (simpl; apply lookup_insert_eq).
  set (st1 := (map_slice f a st0).1).
  assert (ls_heap st1 !! ls_next st = Some (map f xs)) as Hst1.
  { simpl. rewrite lookup_alter_eq, lookup_insert_eq. simpl.
    by rewrite take_ge, drop_ge, app_nil_r. }
  repeat runs_step. unfold runs at 1, read_slice, gets. simpl.
  assert (contents st1 a = map f xs) as ->.
  { unfold contents. change (sl_array a) with (ls_next st). rewrite Hst1. simpl.
    apply take_ge. by rewrite length_map. }
  apply HK; [|done|done|].
  - intros b. simpl. rewrite lookup_alter_is_Some. apply Hok0.
  - intros t Hvt. pose proof (valid_below st t Hok Hvt) as Hlt. destruct (Ht t Hvt) as [Hv0 <-].
    unfold valid, contents in *. simpl in *. by rewrite !lookup_alter_ne by lia.
Qed.

Definition derived (l : option Z) (p : string) (s : Slice) (xs : list Attr) (st st' : LogState)
    (r : res error Handler) : Prop :=
  ∃ s', r = Ok (SharHandler l p s') ∧ keeps s st st' ∧ valid st' s' ∧
    contents st' s' = contents st s ++ xs ∧ sl_len s' = sl_len s + length xs ∧
    (if bool_decide (sl_len s + length xs ≤ sl_cap s)
     then s' = mkSlice (sl_array s) (sl_len s + length xs) (sl_cap s)
     else ls_next st ≤ sl_array s').

Lemma runs_With l p s (xs : list Attr) st :
  heap_ok st → valid st s → xs ≠ [] →
  runs (With (SharHandler l p s) xs) st (derived l p s (map (withGroupPrefix p) xs) st).
Proof.
  intros Hok Hs Hx. unfold With. rewrite bool_decide_false by done. cbn [WithAttrs].
  apply (runs_args (withGroupPrefix p) xs (λ xs, s' ← go_append s xs; mret (SharHandler l p s'))); [done|].
  intros st1 Hok1 Hp1 Hn1 Ht. repeat runs_step. destruct (Ht s Hs) as [Hs1 Hc1].
  eapply runs_mono; [|apply append_spec; [done..|by destruct xs]].
  intros st' r (s' & -> & (Hok' & Hp' & Hk) & Hv & Hc & Hl & Hroom). repeat runs_step.
  exists s'. split_and!; [done| |done|by rewrite Hc, Hc1|done|].
  - split_and!; [done|congruence|]. intros t Hvt Hb. destruct (Ht t Hvt) as [Ht1 <-]. by apply Hk.
  - case_bool_decide; [done|]. rewrite Hroom, Hn1. lia.
Qed.

(** ** Loggers derived one from another *)
Inductive derivation := DWith (args : list Attr) | DGroup (name : string).

Fixpoint derive (h : Handler) (ops : list derivation) : LogM Handler :=
  match ops with
  | [] => mret h
  | DWith args :: ops => h' ← With h args; derive h' ops
  | DGroup name :: ops => derive (if bool_decide (name = "") then h else WithGroup h name) ops
  end.

(** What the derivations add: each attribute with the groups open at its time. *)
Fixpoint attributes (p : string) (ops : list derivation) : list Attr :=
  match ops with
  | [] => []
  | DWith args :: ops => map (withGroupPrefix p) args ++ attributes p ops
  | DGroup name :: ops =>
      attributes (if bool_decide (name = "") then p else p +:+ name +:+ ".") ops
  end.

Lemma runs_derive ops l p s st :
  heap_ok st → valid st s →
  runs (derive (SharHandler l p s) ops) st (λ st' r, ∃ p' s',
    r = Ok (SharHandler l p' s') ∧ keeps s st st' ∧ valid st' s' ∧
    contents st' s' = contents st s ++ attributes p ops).
Proof.
  revert p s st. induction ops as [|[args|name] ops IH]; intros p s st Hok Hs; cbn [derive attributes].
  - apply runs_ret. exists p, s. rewrite app_nil_r. by split_and!.
  - destruct (decide (args = [])) as [->|Hne].
    { unfold With. simpl. apply (IH p s st Hok Hs). }
    apply runs_bind. eapply runs_mono; [|by apply runs_With].
    intros st1 r (s1 & -> & Hk & Hv & Hc & Hl & Hroom).
    eapply runs_mono; [|apply IH; [by destruct Hk|done]].
    intros st2 r (p' & s' & -> & Hk2 & Hv2 & Hc2). exists p', s'.
    split_and!; [done| |done|by rewrite Hc2, Hc, app_assoc].
    eapply keeps_step; [done|done|lia| |done]. case_bool_decide; [left; by subst s1|by right].
  - case_bool_decide as Hn; [by apply IH|]. cbn [WithGroup]. rewrite bool_decide_false by done.
    assert ((if bool_decide (p ≠ "") then p +:+ name +:+ "." else name +:+ ".") = p +:+ name +:+ ".") as ->
      by (case_bool_decide as Hp; [done|]; destruct (decide (p = "")) as [->|]; [done|by destruct Hp]).
    by apply IH.
Qed.

(** (C28) A logger derived step by step publishes a record with the record's
    attributes and then those of every step, each under the groups that were open;
    and the loggers on the way lose nothing: no slice that is at most as long as
    the first logger's, or in another array, changes. *)
Theorem derived_logger_publishes l p s ops r st :
  heap_ok st → valid st s → (∀ lr, publish_fault lr = None) →
  let '(st', res) := (h ← derive (SharHandler l p s) ops; Handle hostName publish_fault h r) st in
  res = Ok tt ∧
  ls_published st' = ls_published st ++
    [mkLogRequest hostName (r_Level r) (r_Time r) (r_Message r)
       (foldl add_attr (foldl add_attr ∅ (r_Attrs r)) (contents st s ++ attributes p ops))] ∧
  ∀ t, valid st t → (sl_array t = sl_array s → sl_len t ≤ sl_len s) → contents st' t = contents st t.
Proof.
  intros Hok Hs Hpub. match goal with |- let '(st', res) := ?m st in ?P => enough (runs m st (λ st' res, P)) as Hr end.
  { unfold runs in Hr. by destruct ((derive _ _ ≫= _) st). }
  repeat runs_step. eapply runs_mono; [|by apply runs_derive].
  intros st1 res (p' & s' & -> & (Hok' & Hp & Hk) & Hv & Hc). cbn [Handle]. repeat runs_step.
  unfold runs, read_slice, gets. simpl. unfold PublishLog. rewrite Hpub. simpl. rewrite Hp, Hc.
  split_and!; [done|done|]. intros t Ht Hb. by apply Hk.
Qed.

(** Two loggers derived from one parent: when the array behind the parent's
    attributes has room for those of a child, the second child writes over the
    attributes of the first, which publishes them as its own. *)
Theorem sibling_loggers_share l p s (xs ys : list Attr) st :
  heap_ok st → valid st s → xs ≠ [] → length xs = length ys →
  runs (h1 ← With (SharHandler l p s) xs; h2 ← With (SharHandler l p s) ys; mret (h1, h2)) st
    (λ st' r, ∃ s1 s2, r = Ok (SharHandler l p s1, SharHandler l p s2) ∧
       contents st' s2 = contents st s ++ map (withGroupPrefix p) ys ∧
       contents st' s1 = contents st s ++ map (withGroupPrefix p)
         (if bool_decide (sl_len s + length xs ≤ sl_cap s) then ys else xs)).
Proof.
  intros Hok Hs Hx Hl. assert (ys ≠ []) as Hy by by destruct xs, ys. repeat runs_step.
  eapply runs_mono; [|by apply runs_With]. intros st1 r (s1 & -> & (Hok1 & Hp1 & Hk1) & Hv1 & Hc1 & Hl1 & Hr1).
  destruct (Hk1 s Hs) as [Hs' Hcs]; [done|]. repeat runs_step.
  eapply runs_mono; [|by apply runs_With]. intros st2 r (s2 & -> & (Hok2 & Hp2 & Hk2) & Hv2 & Hc2 & Hl2 & Hr2).
  repeat runs_step. exists s1, s2. rewrite !length_map in *.
  split_and!; [done|by rewrite Hc2, Hcs|]. rewrite <-Hl in *. case_bool_decide as Hroom.
  - subst s1 s2. by rewrite Hc2, Hcs.
  - pose proof (valid_below st s Hok Hs). destruct (Hk2 s1 Hv1) as [_ ->]; [lia|done].
Qed.
End logging_facts.

(** ** Witnesses *)

(** The growth of small slices in Go 1.18 and later, but for size classes. *)
#[export] Program Instance doubling : GoSlices := {| growcap cap n := Nat.max (2 * cap) n |}.
Next Obligation. intros. apply Nat.le_max_r. Qed.

Definition ex_log : LogState := mkLogState ∅ 1 [] [].
Definition ex_attr (k : string) : Attr := mkAttr k ("of " +:+ k).

Lemma ex_log_ok : heap_ok ex_log.
Proof. intros a [->|[x Hx]]; [simpl; lia|]. simpl in Hx. by rewrite lookup_empty in Hx. Qed.

Definition ex_ops : list derivation := [DWith [ex_attr "k1"]; DGroup "A"; DWith [ex_attr "k2"]].
Definition ex_record : LogRecord := mkLogRecord 0 7 "hello" [ex_attr "k0"].

Lemma derived_logger_publishes_witness :
  let st' := ((h ← derive (NewSharHandler None) ex_ops; Handle "host" (λ _, None) h ex_record) ex_log).1 in
  map lr_Attributes (ls_published st') =
    [list_to_map [("k0", "of k0"); ("k1", "of k1"); ("A.k2", "of k2")]].
Proof.
  pose proof (derived_logger_publishes "host" (λ _, None) None "" nil_slice ex_ops ex_record ex_log
    ex_log_ok (valid_nil _) (λ _, eq_refl)) as Hd.
  unfold NewSharHandler. cbv zeta. destruct ((derive _ _ ≫= _) ex_log) as [st' res].
  destruct Hd as (_ & Hp & _). cbn [fst]. rewrite Hp.
  vm_compute. reflexivity.
Defined.

(** A parent with three attributes in an array for four. *)
Definition ex_parent_slice : Slice := mkSlice 1 3 4.
Definition ex_parent_log : LogState :=
  mkLogState {[1 := [ex_attr "a"; ex_attr "b"; ex_attr "c"; mkAttr "" ""]]} 2 [] [].

Lemma sibling_loggers_share_witness :
  let h := SharHandler None "" ex_parent_slice in
  runs (h1 ← With h [ex_attr "mine"]; h2 ← With h [ex_attr "yours"]; mret (h1, h2)) ex_parent_log
    (λ st' r, ∃ s1 s2, r = Ok (SharHandler None "" s1, SharHandler None "" s2) ∧
       contents st' s1 = [ex_attr "a"; ex_attr "b"; ex_attr "c"; ex_attr "yours"]).
Proof.
  eapply runs_mono; [|apply (sibling_loggers_share None "" ex_parent_slice [ex_attr "mine"] [ex_attr "yours"])].
  - intros st' r (s1 & s2 & -> & _ & Hc). exists s1, s2. split; [reflexivity|]. rewrite Hc. vm_compute. reflexivity.
  - intros a [->|[x Hx]]; [simpl; lia|]. simpl in *. destruct (decide (a = 1)) as [->|]; [lia|].
    rewrite lookup_singleton_ne in Hx by congruence. discriminate Hx.
  - split; [simpl; lia|]. right. eexists. split; reflexivity.
  - discriminate.
  - reflexivity.
Defined.

(** The handlers of a [MultiHandler] are given one slice: a text handler that
    comes after the publishing one sees the groups twice. *)
Lemma multi_prefixes_twice :
  (With (MultiHandler [SharHandler None "A." nil_slice; TextHandler 0 "A." []]) [ex_attr "k"] ex_log).2 =
  Ok (MultiHandler [SharHandler None "A." (mkSlice 2 1 1);
                    TextHandler 0 "A." [mkAttr "A.A.k" "of k"]]).
Proof. reflexivity. Qed.
