(* ===== verification/Tracing.v ===== *)
(** * Trace parents

    [common/telemetry/utils.go], [propagators.go], [carriers.go] and
    [middleware.go]: the W3C text that says which trace and span a request belongs
    to, how it gets from the header of a message into the context, and the span
    the listener of the API ([server/api/listener.go]) starts for a request.

    OpenTelemetry is a parameter: its decoding of identifiers, the identifier of a
    span it starts, and its propagator. *)
From S2P Require Import Prelude Model Errors Env Common Telemetry.

(** ** Pieces of strings *)
Fixpoint slice_to (n : nat) (s : bytes) : bytes :=
  match n, s with
  | S n, String c s => String c (slice_to n s)
  | _, _ => ""
  end.

(** [s[a:b]], which panics when [b] is beyond the end. *)
Definition slice (a b : nat) (s : bytes) : option bytes :=
  if bool_decide (a ≤ b ∧ b ≤ String.length s) then Some (slice_to (b - a) (slice_from a s)) else None.

Lemma slice_from_0 s : slice_from 0 s = s.
Proof. by destruct s. Qed.

Lemma slice_middle (x y z : bytes) :
  slice (String.length x) (String.length x + String.length y) (x +:+ y +:+ z) = Some y.
Proof.
  unfold slice. rewrite bool_decide_true by (rewrite !length_append_string; lia).
  replace (String.length x + String.length y - String.length x) with (String.length y) by lia. f_equal.
  induction x as [|c x IH]; [|exact IH]. change (String.length "") with 0.
  rewrite slice_from_0. change ("" +:+ y +:+ z) with (y +:+ z).
  induction y as [|c y IH]; [by destruct z|].
  change (String c (slice_to (String.length y) (y +:+ z)) = String c y). by rewrite IH.
Qed.

(** [hex.EncodeToString] *)
Definition hex_digit (n : nat) : ascii := default "0"%char (String.get n "0123456789abcdef").

Fixpoint hex_EncodeToString (b : bytes) : string :=
  match b with
  | EmptyString => ""
  | String c b =>
      String (hex_digit (nat_of_ascii c / 16)) (String (hex_digit (nat_of_ascii c mod 16))
        (hex_EncodeToString b))
  end.

Lemma length_hex b : String.length (hex_EncodeToString b) = 2 * String.length b.
Proof. induction b as [|c b IH]; [done|]. simpl. rewrite IH. lia. Qed.

Definition ascii_text (s : string) : bool := string_forall (λ c, bool_decide (nat_of_ascii c < 128)) s.

Lemma hex_ascii b : ascii_text (hex_EncodeToString b) = true.
Proof.
  induction b as [|c b IH]; [done|]. unfold ascii_text in *. cbn [hex_EncodeToString string_forall].
  rewrite IH. assert (∀ n, bool_decide (nat_of_ascii (hex_digit n) < 128) = true) as Hd.
  { intros n. apply bool_decide_true. do 16 (destruct n as [|n]; [vm_compute; lia|]). vm_compute. lia. }
  by rewrite !Hd.
Qed.

(** The characters of a text, each as the bytes of its encoding. *)
Fixpoint chars (s : string) : list string :=
  match s with EmptyString => [] | String c s => String c "" :: chars s end.

Definition empty16 : bytes := copy_array 16 "".

(** ** OpenTelemetry, and Go's decoding of text *)
Class Otel := {
  TraceIDFromHex : string → option bytes;
  SpanIDFromHex : string → option bytes;
  runes : string → list string;
  Extract : gmap string string → option SpanContext }.

Class OtelOk `{Otel} := {
  (* identifiers of zeros are not valid *)
  TraceIDFromHex_hex t :
    String.length t = 16 →
    TraceIDFromHex (hex_EncodeToString t) = if decide (t = empty16) then None else Some t;
  SpanIDFromHex_hex s :
    String.length s = 8 →
    SpanIDFromHex (hex_EncodeToString s) = if decide (s = empty8) then None else Some s;
  SpanIDFromHex_valid h s : SpanIDFromHex h = Some s → s ≠ empty8;
  runes_ascii s : ascii_text s = true → runes s = chars s }.

Section tracing.
Context `{Otel}.

(** ** The text *)
Definition NewTraceParent (traceID spanID : bytes) : string :=
  "00-" +:+ hex_EncodeToString traceID +:+ "-" +:+ hex_EncodeToString spanID +:+ "-00".

Definition NewTraceParentWithEmptySpan (traceID : bytes) : string := NewTraceParent traceID empty8.

(** [copy(base[36:52], []rune(spanID))]; [None] is a panic. *)
Definition SetTraceParentSpanID (traceparent spanID : string) : option string :=
  let base := runes traceparent in
  if bool_decide (52 ≤ length base) then
    let new := take 16 (runes spanID) in
    Some (String.concat "" (take 36 base ++ new ++ drop (36 + length new) base))
  else None.

Definition GetTraceparentTraceAndSpan (traceparent : string) : option (string * string) :=
  t ← slice 3 35 traceparent; s ← slice 36 52 traceparent; Some (t, s).

Definition TraceIDFromTraceparent (traceparent : string) : option (bytes + error) :=
  t ← slice 3 35 traceparent;
  Some match TraceIDFromHex t with
       | Some traceID => inl traceID
       | None => inr (Wrap "trace id from hex" (New "hex encoded trace-id must have length equals to 32"))
       end.

(** ** From the header to the context

    The part of a context that is about tracing. *)
Record TraceCtx := mkTraceCtx {
  tc_Traceparent : option string;          (* the value of [ctxkey.Traceparent] *)
  tc_Span : option SpanContext }.          (* the span of the context, when it is valid *)

(** [newID] is the random identifier [NewTraceID] makes. *)
Definition CtxWithTraceParentFromNatsMsg (newID : bytes) (ctx : TraceCtx) (hdr : gmap string string) : TraceCtx :=
  let tp := default "" (hdr !! "traceparent") in
  mkTraceCtx (Some (if bool_decide (tp ≠ "") then tp else NewTraceParentWithEmptySpan newID)) (tc_Span ctx).

Definition NatsMsgToCtxWithSpan (ctx : TraceCtx) (hdr : gmap string string) : TraceCtx :=
  mkTraceCtx (tc_Traceparent ctx)
    (match Extract hdr with Some sc => Some sc | None => tc_Span ctx end).

(** [ReParentSpan], here and in [internal/common/client/client.go] *)
Definition ReParentSpan `{TelemetryEnv} (ctx : TraceCtx) (state : WorkflowState) : TraceCtx :=
  match tc_Span ctx with
  | Some sc =>
      mkTraceCtx (tc_Traceparent ctx)
        (Some (mkSpanContext (sc_TraceID sc) (KSuidTo64bit (TrackingID.ID (ws_Id state)))))
  | None => ctx
  end.

(** [CtxWithTraceParentToWfState]: the type assertion panics when there is none. *)
Definition CtxWithTraceParentToWfState (ctx : TraceCtx) (state : WorkflowState) :
    option WorkflowState :=
  tp ← tc_Traceparent ctx; Some (state <| ws_TraceParent := tp |>).

(** ** The span of a request *)

(** What a tracer is asked to start. *)
Record span_request := mkSpanRequest {
  sr_Tracer : string;
  sr_Name : string;
  sr_NewRoot : bool;
  sr_Parent : option SpanContext }.

(** [started] is the text of the identifier of the span the tracer starts. *)
Definition StartApiSpan (started : string) (ctx : TraceCtx) (tracerName apiName : string) :
    option (TraceCtx * span_request) :=
  traceParent ← tc_Traceparent ctx;
  ids ← GetTraceparentTraceAndSpan traceParent;
  let root := mkSpanRequest tracerName apiName true None in
  match TraceIDFromHex ids.1, SpanIDFromHex ids.2 with
  | None, _ | _, None => Some (ctx, root)
  | Some traceID, Some spanID =>
      if bool_decide (spanID = empty8) then
        tp ← SetTraceParentSpanID traceParent started;
        Some (mkTraceCtx (Some tp) (tc_Span ctx), root)
      else
        let sCtx := mkSpanContext traceID spanID in
        Some (mkTraceCtx (tc_Traceparent ctx) (Some sCtx),
              mkSpanRequest tracerName apiName false (Some sCtx))
  end.

(** What the listener does between its check of the version and [callAPI], with
    the middleware [NewListener] gives it. *)
Definition received (newID : bytes) (started subject : string) (hdr : gmap string string) :
    option (TraceCtx * span_request) :=
  let ctx := CtxWithTraceParentFromNatsMsg newID (mkTraceCtx None None) hdr in
  let ctx := NatsMsgToCtxWithSpan ctx hdr in
  StartApiSpan started ctx "shar" subject.
End tracing.

(** ** Facts *)
Lemma chars_app a b : chars (a +:+ b) = chars a ++ chars b.
Proof. induction a as [|c a IH]; [done|]. change (chars (String c a +:+ b)) with (String c "" :: chars (a +:+ b)). by rewrite IH. Qed.

Lemma length_chars s : length (chars s) = String.length s.
Proof. induction s as [|c s IH]; simpl; congruence. Qed.

Lemma concat_chars s : String.concat "" (chars s) = s.
Proof.
  induction s as [|c s IH]; [done|]. cbn [chars]. destruct s as [|d s]; [done|].
  cbn [chars] in *. change (String c (String.concat "" (String d "" :: chars s)) = String c (String d s)).
  by rewrite IH.
Qed.

Lemma slice_none a b s : a ≤ b → slice a b s = None ↔ String.length s < b.
Proof. intros Hab. unfold slice. case_bool_decide; split; intros; try done; lia. Qed.

Section tracing_facts.
Context `{OtelOk}.

(** The parts of a text that [NewTraceParent] makes. *)
Lemma NewTraceParent_parts t s :
  String.length t = 16 → String.length s = 8 →
  GetTraceparentTraceAndSpan (NewTraceParent t s) = Some (hex_EncodeToString t, hex_EncodeToString s).
Proof.
  intros Ht Hs. unfold GetTraceparentTraceAndSpan, NewTraceParent.
  pose proof (slice_middle "00-" (hex_EncodeToString t) ("-" +:+ hex_EncodeToString s +:+ "-00")) as H1.
  pose proof (slice_middle ("00-" +:+ hex_EncodeToString t +:+ "-") (hex_EncodeToString s) "-00") as H2.
  rewrite length_hex, Ht in H1. rewrite !length_append_string, !length_hex, Ht, Hs in H2.
  simpl in H1, H2. change (3 + 32) with 35 in *. rewrite H1.
  rewrite !app_assoc_str in H2. simpl. by rewrite H2.
Qed.

Lemma set_parts (x y z new : string) :
  ascii_text (x +:+ y +:+ z) = true → ascii_text new = true →
  String.length x = 36 → String.length y = 16 → String.length new = 16 →
  SetTraceParentSpanID (x +:+ y +:+ z) new = Some (x +:+ new +:+ z).
Proof.
  intros Ha Hn Hx Hy Hnew. unfold SetTraceParentSpanID. rewrite !runes_ascii by done.
  rewrite !chars_app. rewrite bool_decide_true by (rewrite !length_app, !length_chars; lia). f_equal.
  rewrite (take_ge (chars new)) by (rewrite length_chars; lia). rewrite length_chars, Hnew.
  rewrite take_app_length' by (by rewrite length_chars).
  assert (drop (36 + 16) (chars x ++ chars y ++ chars z) = chars z) as ->.
  { rewrite app_assoc. apply drop_app_length'. rewrite length_app, !length_chars. lia. }
  rewrite <-!chars_app. apply concat_chars.
Qed.

Lemma ascii_app a b : ascii_text (a +:+ b) = ascii_text a && ascii_text b.
Proof.
  unfold ascii_text. induction a as [|c a IH]; [done|].
  change (String c a +:+ b) with (String c (a +:+ b)). cbn [string_forall]. by rewrite IH, andb_assoc.
Qed.

(** The text of a trace parent carries the trace and the span it is made of:
    both are read back, the trace decodes to the identifier, and putting another
    span into the text is making the text with the other span. *)
Theorem NewTraceParent_roundtrip t s s' :
  String.length t = 16 → String.length s = 8 → String.length s' = 8 → t ≠ empty16 →
  GetTraceparentTraceAndSpan (NewTraceParent t s) = Some (hex_EncodeToString t, hex_EncodeToString s) ∧
  TraceIDFromTraceparent (NewTraceParent t s) = Some (inl t) ∧
  SetTraceParentSpanID (NewTraceParent t s) (hex_EncodeToString s') = Some (NewTraceParent t s').
Proof.
  intros Ht Hs Hs' Hne. pose proof (NewTraceParent_parts t s Ht Hs) as Hp. split_and!; [done| |].
  - unfold GetTraceparentTraceAndSpan in Hp. unfold TraceIDFromTraceparent.
    destruct (slice 3 35 _) as [x|]; [|done]. simpl in Hp |- *.
    destruct (slice 36 52 _); [|done]. simpl in Hp. injection Hp as -> ->. by rewrite TraceIDFromHex_hex, decide_False.
  - unfold NewTraceParent. rewrite <-!(app_assoc_str _ _ (hex_EncodeToString _ +:+ _)), <-!app_assoc_str.
    rewrite !(app_assoc_str _ _ "-00").
    apply set_parts; rewrite ?ascii_app, ?hex_ascii, ?length_append_string, ?length_hex, ?Ht, ?Hs, ?Hs'; done.
Qed.

(** The span of a request follows the header it came with.  A text that is too
    short for a trace parent, even if it is no trace parent at all, makes the
    listener panic, before the recovery of [callAPI] is in place; no other does.
    A trace parent with a trace and a span has the span started below them; one
    with an empty span, like the one a request without a header is given, has a
    root started, and the started span is not put into the text. *)
Theorem received_follows newID started subject hdr :
  let tp := default "" (hdr !! "traceparent") in
  String.length newID = 16 →
  (received newID started subject hdr = None ↔ tp ≠ "" ∧ String.length tp < 52) ∧
  (∀ t s, String.length t = 16 → String.length s = 8 → t ≠ empty16 → s ≠ empty8 → tp = NewTraceParent t s →
     ∃ ctx, received newID started subject hdr =
       Some (ctx, mkSpanRequest "shar" subject false (Some (mkSpanContext t s))) ∧
       tc_Traceparent ctx = Some tp) ∧
  (∀ t, String.length t = 16 → (tp = "" ∧ t = newID ∨ tp = NewTraceParentWithEmptySpan t) →
     ∃ ctx, received newID started subject hdr = Some (ctx, mkSpanRequest "shar" subject true None) ∧
       tc_Traceparent ctx = Some (NewTraceParentWithEmptySpan t)).
Proof.
  intros tp Hn. unfold received, CtxWithTraceParentFromNatsMsg, NatsMsgToCtxWithSpan, StartApiSpan. fold tp. simpl.
  split_and!.
  - case_bool_decide as Htp; simpl.
    + unfold GetTraceparentTraceAndSpan. destruct (slice 36 52 tp) as [s|] eqn:Hs.
      * assert (¬ String.length tp < 52) as Hl by (rewrite <-(slice_none 36 52) by lia; congruence).
        destruct (slice 3 35 tp) as [t|] eqn:Ht; [|exfalso; apply slice_none in Ht; lia]. simpl.
        destruct (TraceIDFromHex t); simpl; [|split; [done|naive_solver]].
        destruct (SpanIDFromHex s) as [sid|] eqn:Hv; simpl; [|split; [done|naive_solver]].
        rewrite bool_decide_false by by eapply SpanIDFromHex_valid. split; [done|naive_solver].
      * apply slice_none in Hs; [|lia]. destruct (slice 3 35 tp); simpl; naive_solver.
    + unfold NewTraceParentWithEmptySpan. rewrite NewTraceParent_parts by done. cbn [mbind option_bind fst snd].
      rewrite SpanIDFromHex_hex, decide_True by done. destruct (TraceIDFromHex _); split; [done|tauto|done|tauto].
  - intros t s Ht Hs Hne Hse Htp. rewrite bool_decide_true by (by rewrite Htp). simpl. rewrite Htp.
    rewrite NewTraceParent_parts by done. simpl.
    rewrite TraceIDFromHex_hex, SpanIDFromHex_hex, !decide_False, bool_decide_false by done. by eexists.
  - intros t Ht Htp. assert ((if bool_decide (tp ≠ "") then tp else NewTraceParentWithEmptySpan newID) =
      NewTraceParentWithEmptySpan t) as ->.
    { destruct Htp as [ [-> <-] | -> ]; [done|]. by rewrite bool_decide_true. }
    unfold NewTraceParentWithEmptySpan. cbn [mbind option_bind tc_Traceparent].
    rewrite NewTraceParent_parts by done. cbn [mbind option_bind fst snd].
    rewrite (SpanIDFromHex_hex empty8), decide_True by done. destruct (TraceIDFromHex _); by eexists.
Qed.
End tracing_facts.

(** ** Witnesses *)
Fixpoint unhex (s : string) : option bytes :=
  match s with
  | EmptyString => Some ""
  | String a (String b s) =>
      x ← String.index 0 (String a "") "0123456789abcdef";
      y ← String.index 0 (String b "") "0123456789abcdef";
      r ← unhex s;
      Some (String (ascii_of_nat (16 * x + y)) r)
  | _ => None
  end.

Definition decode_id (n : nat) (s : string) : option bytes :=
  b ← unhex s; if bool_decide (String.length b = n ∧ b ≠ copy_array n "") then Some b else None.

#[export] Instance sim_otel : Otel := {|
  TraceIDFromHex := decode_id 16; SpanIDFromHex := decode_id 8; runes := chars; Extract _ := None |}.

Lemma unhex_hex b : unhex (hex_EncodeToString b) = Some b.
Proof.
  induction b as [|c b IH]; [done|]. cbn [hex_EncodeToString unhex]. rewrite IH.
  destruct c as [[] [] [] [] [] [] [] []]; reflexivity.
Qed.

#[export] Instance sim_otel_ok : OtelOk.
Proof.
  split.
  - intros t Ht. simpl. unfold decode_id. rewrite unhex_hex. simpl. fold empty16.
    by case_decide; case_bool_decide; naive_solver.
  - intros t Ht. simpl. unfold decode_id. rewrite unhex_hex. simpl. fold empty8.
    by case_decide; case_bool_decide; naive_solver.
  - intros h s. simpl. unfold decode_id. destruct (unhex h) as [b|]; [|done]. simpl.
    case_bool_decide; naive_solver.
  - done.
Qed.

Definition ex_trace : bytes := "sixteen bytes ok".
Definition ex_span : bytes := "8 bytes!".

Lemma NewTraceParent_roundtrip_witness :
  SetTraceParentSpanID (NewTraceParent ex_trace empty8) (hex_EncodeToString ex_span) =
    Some (NewTraceParent ex_trace ex_span).
Proof.
  destruct (NewTraceParent_roundtrip ex_trace empty8 ex_span) as (_ & _ & Hs);
    [reflexivity..|vm_compute; discriminate|exact Hs].
Defined.

Lemma received_follows_witness :
  received ex_trace "" "Workflow.API.Launch" {["traceparent" := "00-short"]} = None.
Proof.
  destruct (received_follows ex_trace "" "Workflow.API.Launch" {["traceparent" := "00-short"]}) as [Hp _].
  - reflexivity.
  - apply Hp. vm_compute. split; [discriminate|lia].
Defined.

(** ** Carriers

    What OpenTelemetry's propagators read and write: [Get], [Set] and [Keys] of a
    map, and of the headers of a message. *)
Definition Carrier := gmap string string.

Definition carrier_Get (c : Carrier) (key : string) : string := default "" (c !! key).
Definition carrier_Set (c : Carrier) (key value : string) : Carrier := <[key := value]> c.

Definition MapCarrier_Keys `{Env} (c : Carrier) : M (list string) :=
  l ← range c; mret (map fst l).

(** [NatsCarrier] and [JetStreamCarrier]: the loop is over the keys, and appends
    what they are mapped to. *)
Definition NatsCarrier_Keys `{Env} (c : Carrier) : M (list string) :=
  l ← range c; mret (map (λ kv, carrier_Get c kv.1) l).

Lemma carrier_Get_Set c k v k' :
  carrier_Get (carrier_Set c k v) k' = if decide (k' = k) then v else carrier_Get c k'.
Proof.
  unfold carrier_Get, carrier_Set, Carrier in *. case_decide as Hk; [subst; by rewrite lookup_insert_eq|].
  by rewrite lookup_insert_ne.
Qed.
