(* ===== verification/Setup.v ===== *)
(** * Setting up NATS

    [common/setup/nats_setup.go], [common/setup/upgrader/patch.go],
    [common/namespace/namespace.go] and the opening of a namespace's stores in
    [server/services/natz/natz.go]: the streams, consumers and buckets of a
    configuration are created or upgraded when a server starts.  The state is
    what the JetStream server holds; calls to it fail as the schedule of [Env]
    says.  The library of versions is a parameter; of a configuration the fields
    the code reads or writes are kept. *)
From S2P Require Import Prelude Model Errors Env Sim Duration.

#[export] Instance Bucket_countable : Countable Bucket.
Proof.
  refine (inj_countable' (λ b, match b with
    | WfExecution => 0 | WfProcessInstance => 1 | WfUserTasks => 2 | WfTaskSpec => 3
    | WfTaskSpecVer => 4 | Wf => 5 | WfVersion => 6 | WfTracking => 7 | Job => 8 | OwnerName => 9
    | OwnerID => 10 | WfClientTask => 11 | WfGateway => 12 | WfHistory => 13 | WfLock => 14
    | WfMsgTypes => 15 | WfProcess => 16 | WfMessages => 17 | WfClients => 18 | WfFatalError => 19
    end) (λ n, match n with
    | 0 => WfExecution | 1 => WfProcessInstance | 2 => WfUserTasks | 3 => WfTaskSpec
    | 4 => WfTaskSpecVer | 5 => Wf | 6 => WfVersion | 7 => WfTracking | 8 => Job | 9 => OwnerName
    | 10 => OwnerID | 11 => WfClientTask | 12 => WfGateway | 13 => WfHistory | 14 => WfLock
    | 15 => WfMsgTypes | 16 => WfProcess | 17 => WfMessages | 18 => WfClients | _ => WfFatalError
    end) _).
  by intros [].
Defined.

Inductive StorageType := FileStorage | MemoryStorage.

#[export] Instance StorageType_eq_dec : EqDecision StorageType.
Proof. solve_decision. Defined.

(** A nil metadata map reads and is completed as an empty one. *)
Record StreamConfig := mkStreamConfig {
  sc_Name : string;
  sc_Description : string;
  sc_Subjects : list string;
  sc_Storage : StorageType;
  sc_Metadata : gmap string string }.

Record ConsumerConfig := mkConsumerConfig {
  cc_Name : string;
  cc_Durable : string;
  cc_FilterSubject : string;
  cc_MemoryStorage : bool;
  cc_Metadata : gmap string string }.

Record KeyValueConfig := mkKeyValueConfig {
  kc_Bucket : string;
  kc_Description : string;
  kc_Storage : StorageType;
  kc_TTL : Z }.

Record NatsStream := mkNatsStream {
  st_Config : StreamConfig;
  st_Consumers : list ConsumerConfig }.

Record NatsConfig := mkNatsConfig {
  nc_Streams : list NatsStream;
  nc_KeyValue : list KeyValueConfig }.

Record JetStream := mkJetStream {
  js_tick : nat;
  js_streams : gmap string StreamConfig;
  js_consumers : gmap (string * string) ConsumerConfig;
  js_buckets : gmap string KeyValueConfig;
  js_patched : list string }.        (* the patches that ran, by name *)

#[export] Instance StreamConfig_settable : Settable StreamConfig := λ r,
  mkStreamConfig (sc_Name r) (sc_Description r) (sc_Subjects r) (sc_Storage r) (sc_Metadata r).
#[export] Instance ConsumerConfig_settable : Settable ConsumerConfig := λ r,
  mkConsumerConfig (cc_Name r) (cc_Durable r) (cc_FilterSubject r) (cc_MemoryStorage r)
    (cc_Metadata r).
#[export] Instance KeyValueConfig_settable : Settable KeyValueConfig := λ r,
  mkKeyValueConfig (kc_Bucket r) (kc_Description r) (kc_Storage r) (kc_TTL r).
#[export] Instance JetStream_settable : Settable JetStream := λ r,
  mkJetStream (js_tick r) (js_streams r) (js_consumers r) (js_buckets r) (js_patched r).

Abbreviation JM := (gom error JetStream).

(** [github.com/hashicorp/go-version] *)
Class VersionLib := {
  Version_ : Type;
  version_New : string → Version_ + error;
  version_Compare : Version_ → Version_ → comparison }.

Section setup.
Context `{Env} `{VersionLib}.

(** A call to the server, which may fail with or without its effect. *)
Definition js_call {A} (eff : JetStream → JetStream * res error A) : JM A := λ s,
  let s1 := s <| js_tick ::= S |> in
  match nats_fault (js_tick s) with
  | None => eff s1
  | Some (err, true) => ((eff s1).1, Err err)
  | Some (err, false) => (s1, Err err)
  end.

Definition js_Stream (name : string) : JM StreamConfig :=
  js_call (λ s, (s, match js_streams s !! name with
                    | Some c => Ok c | None => Err (Sentinel ErrStreamNotFound) end)).
Definition js_PutStream (c : StreamConfig) : JM unit :=
  js_call (λ s, (s <| js_streams ::= <[sc_Name c := c]> |>, Ok tt)).
Definition js_Consumer (stream durable : string) : JM ConsumerConfig :=
  js_call (λ s, (s, match js_consumers s !! (stream, durable) with
                    | Some c => Ok c | None => Err (Sentinel ErrConsumerNotFound) end)).
Definition js_PutConsumer (stream : string) (c : ConsumerConfig) : JM unit :=
  js_call (λ s, (s <| js_consumers ::= <[(stream, cc_Durable c) := c]> |>, Ok tt)).
Definition js_KeyValue (bucket : string) : JM KeyValueConfig :=
  js_call (λ s, (s, match js_buckets s !! bucket with
                    | Some c => Ok c | None => Err (Sentinel ErrBucketNotFound) end)).
Definition js_CreateKeyValue (c : KeyValueConfig) : JM unit :=
  js_call (λ s, (s <| js_buckets ::= <[kc_Bucket c := c]> |>, Ok tt)).
(** [stream.Info] and [consumer.Info] *)
Definition js_Info {A} (c : A) : JM A := js_call (λ s, (s, Ok c)).

(** ** Versions *)
(** What [[0-9]*\.[0-9]*\.[0-9]*$] matches at the beginning of [s].  The
    expression is compiled without flags, where [$] is also before a newline. *)
Definition match_version (s : string) : option string :=
  let major := span_digits s in
  match major.2 with
  | String "." s1 =>
      let minor := span_digits s1 in
      match minor.2 with
      | String "." s2 =>
          let release := span_digits s2 in
          match release.2 with
          | EmptyString | String "010" _ =>
              Some (major.1 +:+ "." +:+ minor.1 +:+ "." +:+ release.1)
          | _ => None
          end
      | _ => None
      end
  | _ => None
  end.

(** [upgradeExpr.FindString]: the leftmost match. *)
Fixpoint upgradeExpr (s : string) : string :=
  match match_version s with
  | Some v => v
  | None => match s with EmptyString => "" | String _ s' => upgradeExpr s' end
  end.

Definition GreaterThan (v w : Version_) : bool := bool_decide (version_Compare v w = Gt).
Definition LessThan (v w : Version_) : bool := bool_decide (version_Compare v w = Lt).
Definition Equal (v w : Version_) : bool := bool_decide (version_Compare v w = Eq).
Definition GreaterThanOrEqual (v w : Version_) : bool := negb (LessThan v w).

Definition requiresUpgrade (description newVersion : string) : bool :=
  let v := upgradeExpr description in
  if bool_decide (v = "") then true
  else match version_New v, version_New newVersion with
       | inl v1, inl v2 => GreaterThanOrEqual v2 v1
       | _, _ => true
       end.

(** ** Patches *)

(** [strings.Replace(name, "_", ".", -1)] *)
Fixpoint patch_version (name : string) : string :=
  match name with
  | EmptyString => ""
  | String c s => String (if bool_decide (c = "_"%char) then "."%char else c) (patch_version s)
  end.

(** A patch by the name of its function, with what it does. *)
Record patch := mkPatch { patch_name : string; patch_fn : JM unit }.

Definition run_patch (p : patch) : JM unit :=
  _ ← modify (λ s, s <| js_patched ::= λ l, l ++ [patch_name p] |>); patch_fn p.

Definition v1_1_503 : patch := mkPatch "v1_1_503" (mret tt).

Definition patches : list patch := [v1_1_503].

Definition Patch (list_ : list patch) (fromVersion : string) : JM unit :=
  match version_New fromVersion with
  | inr err => throw (Wrap "reading target version from" err)
  | inl v1 =>
      for_each list_ (λ i,
        match version_New (patch_version (patch_name i)) with
        | inr err => throw (Wrap "reading patch version from" err)
        | inl v2 => if GreaterThan v2 v1 then wrapping (Wrap "patching") (run_patch i) else mret tt
        end)
  end.

(** The versions of the patches, by [init]. *)
Fixpoint init_versions (list_ : list patch) : option (list Version_) :=
  match list_ with
  | [] => Some []
  | i :: rest =>
      match version_New (patch_version (patch_name i)) with
      | inr _ => None                     (* panic at start *)
      | inl v => cons v <$> init_versions rest
      end
  end.

(** From the last version to the first, as long as they do not get smaller. *)
Fixpoint compatible_from (minVersion : option Version_) (rest : list Version_) : option Version_ :=
  match rest with
  | [] => minVersion
  | test :: rest =>
      match minVersion with
      | None => compatible_from (Some test) rest
      | Some m =>
          if GreaterThan test m then compatible_from (Some test) rest
          else if LessThan test m then Some m
          else compatible_from (Some m) rest
      end
  end.

Definition GetCompatibleVersion (versions : list Version_) : option Version_ :=
  compatible_from None (rev versions).

Definition IsCompatible (versions : list Version_) (v : Version_) : bool * Version_ :=
  let minVersion := default v (GetCompatibleVersion versions) in
  (Equal minVersion v, minVersion).

(** ** Streams, consumers, buckets *)
Context (Version : string).

Definition exists_unless {A} (target : sentinel) (wrap : error → error) (m : JM A) : JM (option A) :=
  r ← attempt m;
  match r with
  | inl a => mret (Some a)
  | inr err => if Is err target then mret None else throw (wrap err)
  end.

Definition EnsureStream (streamConfig : StreamConfig) (storageType : StorageType) : JM unit :=
  let streamConfig := streamConfig <| sc_Storage := storageType |> in
  let versioned := streamConfig <| sc_Metadata ::= <["shar_version" := Version]> |> in
  stream ← exists_unless ErrStreamNotFound (Wrap "get stream") (js_Stream (sc_Name streamConfig));
  match stream with
  | None => wrapping (Wrap "create stream") (js_PutStream versioned)
  | Some stream =>
      info ← wrapping (Wrap "get stream info") (js_Info stream);
      if requiresUpgrade (default "" (sc_Metadata info !! "shar_version")) Version then
        let existingVer := upgradeExpr (sc_Description info) in
        let existingVer := if bool_decide (existingVer = "") then Version else existingVer in
        _ ← wrapping (Wrap "ensure stream") (Patch patches existingVer);
        wrapping (Wrap "ensure stream updating stream configuration") (js_PutStream versioned)
      else mret tt
  end.

Definition EnsureConsumer (streamName : string) (consumerConfig : ConsumerConfig) (update : bool)
    (storageType : StorageType) : JM unit :=
  let consumerConfig :=
    consumerConfig <| cc_MemoryStorage := bool_decide (storageType = MemoryStorage) |> in
  let versioned := consumerConfig <| cc_Metadata ::= <["shar_version" := Version]> |> in
  existing ← exists_unless ErrConsumerNotFound (Wrap "consumer exists")
    (js_Consumer streamName (cc_Durable consumerConfig));
  match existing with
  | None => wrapping (Wrap "cannot ensure consumer") (js_PutConsumer streamName versioned)
  | Some consumer =>
      consumerInfo ← wrapping (Wrap "get existing consumer info") (js_Info consumer);
      if negb update then mret tt
      else if requiresUpgrade (default "" (cc_Metadata consumerInfo !! "shar_version")) Version
      then wrapping (Wrap "ensure stream couldn't update the consumer configuration")
             (js_PutConsumer streamName versioned)
      else mret tt
  end.

Definition EnsureBucket (cfg : KeyValueConfig) (storageType : StorageType)
    (namespaceBucketNameFn : KeyValueConfig → KeyValueConfig) : JM unit :=
  let cfg := namespaceBucketNameFn cfg <| kc_Storage := storageType |> in
  bucket ← exists_unless ErrBucketNotFound (Wrap "obtain bucket") (js_KeyValue (kc_Bucket cfg));
  match bucket with
  | None => wrapping (Wrap "ensure buckets") (js_CreateKeyValue cfg)
  | Some _ => mret tt
  end.

(** [namespace.PrefixWith] *)
Definition PrefixWith (namespace name : string) : string := namespace +:+ "_" +:+ name.

Definition EnsureBuckets (cfg : NatsConfig) (storageType : StorageType) (ns : string) : JM unit :=
  for_each (nc_KeyValue cfg) (λ c,
    wrapping (Wrap "ensure key-value")
      (EnsureBucket c storageType (λ k, k <| kc_Bucket := PrefixWith ns (kc_Bucket k) |>))).

Definition Nats (cfg : NatsConfig) (storageType : StorageType) (update : bool) (ns : string) :
    JM unit :=
  _ ← for_each (nc_Streams cfg) (λ stream,
    let config := st_Config stream <| sc_Storage := storageType |> in
    _ ← wrapping (Wrap "ensure stream") (EnsureStream config storageType);
    for_each (st_Consumers stream) (λ c,
      let c := c <| cc_MemoryStorage := bool_decide (storageType = MemoryStorage) |> in
      wrapping (Wrap "ensure consumer") (EnsureConsumer (sc_Name config) c update storageType)));
  EnsureBuckets cfg storageType ns.
End setup.

(** ** The stores of a namespace *)
Definition KvName (b : Bucket) : string :=
  match b with
  | WfExecution => "WORKFLOW_EXECUTION" | WfTracking => "WORKFLOW_TRACKING"
  | Wf => "WORKFLOW_DEF" | Job => "WORKFLOW_JOB" | WfVersion => "WORKFLOW_VERSION"
  | WfUserTasks => "WORKFLOW_USERTASK" | OwnerID => "WORKFLOW_OWNERID"
  | OwnerName => "WORKFLOW_OWNERNAME" | WfClientTask => "WORKFLOW_CLIENTTASK"
  | WfProcessInstance => "WORKFLOW_PROCESS" | WfGateway => "WORKFLOW_GATEWAY"
  | WfHistory => "WORKFLOW_HISTORY" | WfLock => "WORKFLOW_GENLCK"
  | WfMsgTypes => "WORKFLOW_MSGTYPES" | WfTaskSpec => "WORKFLOW_TSKSPEC"
  | WfTaskSpecVer => "WORKFLOW_TSPECVER" | WfProcess => "WORKFLOW_PROCESS_MAPPING"
  | WfMessages => "WORKFLOW_MESSAGES" | WfClients => "WORKFLOW_CLIENTS"
  | WfFatalError => "WORKFLOW_FATAL_ERROR"
  end.

(** The fields of [NamespaceKvs] in the order they are entered. *)
Definition NamespaceKvs_fields : list Bucket :=
  [WfExecution; WfTracking; Wf; Job; WfVersion; WfUserTasks; OwnerID; OwnerName; WfClientTask;
   WfProcessInstance; WfGateway; WfHistory; WfLock; WfMsgTypes; WfTaskSpec; WfTaskSpecVer;
   WfProcess; WfMessages; WfClients; WfFatalError].

(** The buckets of [server/services/natz/nats-config.yaml], times in
    nanoseconds. *)
Definition natsConfig_buckets : list KeyValueConfig :=
  map (λ e : string * Z, mkKeyValueConfig e.1 "" FileStorage e.2)
    [("WORKFLOW_MESSAGES", 0%Z); ("WORKFLOW_CLIENTS", 1500000000%Z); ("WORKFLOW_DEF", 0%Z);
     ("WORKFLOW_CLIENTTASK", 0%Z); ("WORKFLOW_GATEWAY", 0%Z); ("WORKFLOW_GENLCK", 30000000000%Z);
     ("WORKFLOW_TSKSPEC", 0%Z); ("WORKFLOW_EXECUTION", 0%Z); ("WORKFLOW_TRACKING", 0%Z);
     ("WORKFLOW_OWNERID", 0%Z); ("WORKFLOW_OWNERNAME", 0%Z); ("WORKFLOW_HISTORY", 0%Z);
     ("WORKFLOW_TSPECVER", 0%Z); ("WORKFLOW_PROCESS_MAPPING", 0%Z); ("WORKFLOW_JOB", 0%Z);
     ("WORKFLOW_VERSION", 0%Z); ("WORKFLOW_USERTASK", 0%Z); ("WORKFLOW_PROCESS", 0%Z);
     ("WORKFLOW_MSGTYPES", 0%Z); ("WORKFLOW_FATAL_ERROR", 0%Z)].

Section namespaces.
Context `{Env}.

Definition js_range {V} (m : gmap string V) : JM (list (string * V)) := λ s,
  (s <| js_tick ::= S |>, Ok (map_order V (js_tick s) m)).

Definition kv_names (ns : string) : gmap string Bucket :=
  foldl (λ m b, <[PrefixWith ns (KvName b) := b]> m) ∅ NamespaceKvs_fields.

(** The stores that are open, by field: a nil field is not there. *)
Definition initNamespacedKvs (ns : string) (storageType : StorageType) (cfg : NatsConfig) :
    JM (gmap Bucket KeyValueConfig) :=
  _ ← wrapping (Wrap "initNamespacedKvs - EnsureBuckets") (EnsureBuckets cfg storageType ns);
  kvs ← js_range (kv_names ns);
  for_fold kvs (λ nKvs e,
    kv ← wrapping (Wrap "open KV") (js_KeyValue e.1);
    mret (<[e.2 := kv]> nKvs)) ∅.

(** [KvsFor], with the map of the namespaces that are open. *)
Definition KvsFor (sharKvs : gmap string (gmap Bucket KeyValueConfig)) (ns : string)
    (storageType : StorageType) (cfg : NatsConfig) :
    JM (gmap string (gmap Bucket KeyValueConfig) * gmap Bucket KeyValueConfig) :=
  match sharKvs !! ns with
  | Some nsKvs => mret (sharKvs, nsKvs)
  | None =>
      kvs ← wrapping (Wrap "failed to initialise KVs for namespace")
        (initNamespacedKvs ns storageType cfg);
      mret (<[ns := kvs]> sharKvs, kvs)
  end.
End namespaces.

(** ** The buckets of two namespaces are different *)
Lemma KvName_suffix b b' : HasSuffix ("_" +:+ KvName b') ("_" +:+ KvName b) = true → b = b'.
Proof. by destruct b, b'. Qed.

Lemma PrefixWith_inj ns ns' b b' :
  PrefixWith ns (KvName b) = PrefixWith ns' (KvName b') → ns = ns' ∧ b = b'.
Proof.
  unfold PrefixWith. intros Heq.
  assert (b = b') as <-.
  { destruct (decide (String.length ("_" +:+ KvName b) ≤ String.length ("_" +:+ KvName b'))).
    - by eapply KvName_suffix, app_HasSuffix.
    - symmetry. eapply KvName_suffix, app_HasSuffix; [done|lia]. }
  split; [|done]. by apply append_inj_length in Heq as [-> _].
Qed.

(** No bucket serves two namespaces, or two stores of one namespace: the
    name of a bucket determines both. *)
Theorem buckets_apart ns ns' b b' :
  PrefixWith ns (KvName b) = PrefixWith ns' (KvName b') ↔ ns = ns' ∧ b = b'.
Proof. split; [apply PrefixWith_inj|by intros [-> ->]]. Qed.

(** ** What is there stays there *)
Definition js_le (s s' : JetStream) : Prop :=
  (∀ k, is_Some (js_streams s !! k) → is_Some (js_streams s' !! k)) ∧
  (∀ k, is_Some (js_consumers s !! k) → is_Some (js_consumers s' !! k)) ∧
  (∀ k, is_Some (js_buckets s !! k) → is_Some (js_buckets s' !! k)).

#[export] Instance js_le_preorder : PreOrder js_le.
Proof.
  split; [by intros s|]. intros s1 s2 s3 (?&?&?) (?&?&?). split_and!; intros k Hk; auto.
Qed.

Section setup_facts.
Context `{Env} `{VersionLib} (Version : string).

Lemma le_js_call {A} (eff : JetStream → JetStream * res error A) :
  (∀ s, js_le s (eff s).1) → preserves js_le (js_call eff).
Proof.
  intros He s. unfold js_call. assert (js_le s (s <| js_tick ::= S |>)) as Hs by done.
  destruct (nats_fault _) as [[e []]|]; simpl; [|done|]; (etrans; [exact Hs|apply He]).
Qed.

Lemma le_js_Stream n : preserves js_le (js_Stream n).
Proof. by apply le_js_call. Qed.
Lemma le_js_Consumer n d : preserves js_le (js_Consumer n d).
Proof. by apply le_js_call. Qed.
Lemma le_js_KeyValue n : preserves js_le (js_KeyValue n).
Proof. by apply le_js_call. Qed.
Lemma le_js_Info {A} (c : A) : preserves js_le (js_Info c).
Proof. by apply le_js_call. Qed.

Lemma insert_is_Some {K A} `{Countable K} (m : gmap K A) i j x :
  is_Some (m !! j) → is_Some (<[i := x]> m !! j).
Proof. rewrite lookup_insert_is_Some. destruct (decide (i = j)); auto. Qed.

Lemma le_js_PutStream c : preserves js_le (js_PutStream c).
Proof. apply le_js_call. intros s. split_and!; simpl; intros; first [done|by apply insert_is_Some]. Qed.
Lemma le_js_PutConsumer n c : preserves js_le (js_PutConsumer n c).
Proof. apply le_js_call. intros s. split_and!; simpl; intros; first [done|by apply insert_is_Some]. Qed.
Lemma le_js_CreateKeyValue c : preserves js_le (js_CreateKeyValue c).
Proof. apply le_js_call. intros s. split_and!; simpl; intros; first [done|by apply insert_is_Some]. Qed.
#[local] Hint Resolve le_js_Stream le_js_Consumer le_js_KeyValue le_js_Info le_js_PutStream
  le_js_PutConsumer le_js_CreateKeyValue : preserves.

Lemma le_exists_unless {A} t w (m : JM A) :
  preserves js_le m → preserves js_le (exists_unless t w m).
Proof. intros. unfold exists_unless. preserves_tac. Qed.
Lemma le_Patch f : preserves js_le (Patch patches f).
Proof.
  unfold Patch. destruct (version_New f); [|preserves_tac].
  unfold patches. simpl. destruct (version_New _); [|preserves_tac].
  unfold run_patch. preserves_tac. all: by intros s.
Qed.
#[local] Hint Resolve le_exists_unless le_Patch : preserves.

Lemma le_EnsureStream c st : preserves js_le (EnsureStream Version c st).
Proof. unfold EnsureStream. preserves_tac. Qed.
Lemma le_EnsureConsumer n c u st : preserves js_le (EnsureConsumer Version n c u st).
Proof. unfold EnsureConsumer. preserves_tac. Qed.
Lemma le_EnsureBucket c st f : preserves js_le (EnsureBucket c st f).
Proof. unfold EnsureBucket. preserves_tac. Qed.
#[local] Hint Resolve le_EnsureStream le_EnsureConsumer le_EnsureBucket : preserves.
Lemma le_EnsureBuckets c st ns : preserves js_le (EnsureBuckets c st ns).
Proof. unfold EnsureBuckets. preserves_tac. Qed.

(** *** What a successful step has put there *)
Lemma ends_js_call {A} (eff : JetStream → JetStream * res error A) (Q : JetStream → A → Prop) :
  (∀ s a, (eff s).2 = Ok a → Q (eff s).1 a) → ends (js_call eff) Q.
Proof.
  intros He s. unfold runs, js_call. destruct (nats_fault _) as [[e []]|]; [done..|].
  specialize (He (s <| js_tick ::= S |>)). destruct (eff _) as [s' [a|e|p]]; simpl in *; auto.
Qed.

Lemma ends_exists_unless {A} t w (m : JM A) Q :
  ends m Q → ends (exists_unless t w m) (λ s o, match o with Some a => Q s a | None => True end).
Proof.
  intros Hm s. unfold exists_unless. repeat runs_step. eapply runs_mono; [|apply Hm].
  intros s' [a|e|p] HQ; repeat runs_step; [done| |done]. by destruct (Is e t).
Qed.

Lemma ends_EnsureStream c st :
  ends (EnsureStream Version c st) (λ s _, is_Some (js_streams s !! sc_Name c)).
Proof.
  unfold EnsureStream. eapply ends_bind.
  - apply ends_exists_unless, (ends_js_call _ (λ s _, is_Some (js_streams s !! sc_Name c))).
    intros s a. simpl. destruct (js_streams s !! sc_Name c); [intros [= <-]; by eexists|done].
  - intros s [a|] Hs.
    + apply (ends_keep js_le); [preserves_tac| |done]. intros s1 s2 (Hle & _ & _). apply Hle.
    + apply ends_wrapping, ends_js_call. intros s1 a _. simpl. rewrite lookup_insert_eq. by eexists.
Qed.

Lemma ends_EnsureConsumer n c u st :
  ends (EnsureConsumer Version n c u st) (λ s _, is_Some (js_consumers s !! (n, cc_Durable c))).
Proof.
  unfold EnsureConsumer. eapply ends_bind.
  - apply ends_exists_unless, (ends_js_call _ (λ s _, is_Some (js_consumers s !! (n, cc_Durable c)))).
    intros s a. simpl. destruct (js_consumers s !! _); [intros [= <-]; by eexists|done].
  - intros s [a|] Hs.
    + apply (ends_keep js_le); [preserves_tac| |done]. intros s1 s2 (_ & Hle & _). apply Hle.
    + apply ends_wrapping, ends_js_call. intros s1 a _. simpl. rewrite lookup_insert_eq. by eexists.
Qed.

Lemma ends_EnsureBucket c st f :
  ends (EnsureBucket c st f) (λ s _, is_Some (js_buckets s !! kc_Bucket (f c))).
Proof.
  unfold EnsureBucket. eapply ends_bind.
  - apply ends_exists_unless, (ends_js_call _ (λ s _, is_Some (js_buckets s !! kc_Bucket (f c)))).
    intros s a. simpl. destruct (js_buckets s !! _); [intros [= <-]; by eexists|done].
  - intros s [a|] Hs; [done|].
    apply ends_wrapping, ends_js_call. intros s1 a _. simpl. rewrite lookup_insert_eq. by eexists.
Qed.

Definition bucket_there (ns : string) (c : KeyValueConfig) (s : JetStream) : Prop :=
  is_Some (js_buckets s !! PrefixWith ns (kc_Bucket c)).

Lemma ends_EnsureBuckets cfg st ns :
  ends (EnsureBuckets cfg st ns) (λ s _, Forall (λ c, bucket_there ns c s) (nc_KeyValue cfg)).
Proof.
  unfold EnsureBuckets. apply (ends_for_each js_le).
  - intros c. preserves_tac.
  - intros c s s' (_ & _ & Hle). apply Hle.
  - intros c. apply ends_wrapping. apply (ends_EnsureBucket c st).
Qed.

(** What a configuration asks for of one stream. *)
Definition stream_there (stream : NatsStream) (s : JetStream) : Prop :=
  is_Some (js_streams s !! sc_Name (st_Config stream)) ∧
  Forall (λ c, is_Some (js_consumers s !! (sc_Name (st_Config stream), cc_Durable c)))
    (st_Consumers stream).

Lemma stream_there_le stream s s' : js_le s s' → stream_there stream s → stream_there stream s'.
Proof.
  intros (Hs & Hc & _) [H1 H2]. split; [by apply Hs|]. eapply Forall_impl; [exact H2|]. intros c. apply Hc.
Qed.

(** A set-up that returns without an error has set everything up: every
    stream, every consumer and every bucket of the configuration is there,
    whatever failed and was there before; and no set-up, also one that fails,
    removes anything. *)
Theorem Nats_sets_up cfg st update ns s :
  let '(s', r) := Nats Version cfg st update ns s in
  js_le s s' ∧
  (r = Ok tt → Forall (λ stream, stream_there stream s') (nc_Streams cfg) ∧
     Forall (λ c, bucket_there ns c s') (nc_KeyValue cfg)).
Proof.
  assert (preserves js_le (Nats Version cfg st update ns)) as Hle.
  { unfold Nats. preserves_tac. apply le_EnsureBuckets. }
  assert (ends (Nats Version cfg st update ns) (λ s' _,
    Forall (λ stream, stream_there stream s') (nc_Streams cfg) ∧
    Forall (λ c, bucket_there ns c s') (nc_KeyValue cfg))) as Hends.
  { unfold Nats. eapply ends_bind.
    - apply (ends_for_each js_le stream_there); [intros x; preserves_tac|intros; by eapply stream_there_le|].
      intros x. eapply ends_bind; [apply ends_wrapping, ends_EnsureStream|].
      intros s1 u Hs1. simpl in Hs1.
      eapply runs_mono; [|apply runs_and; [apply (ends_for_each js_le (λ c s,
        is_Some (js_consumers s !! (sc_Name (st_Config x), cc_Durable c)))) with (s := s1)|
        apply (ends_keep js_le) with (P := λ s, is_Some (js_streams s !! sc_Name (st_Config x)))]].
      + intros s2 [a|e|p] [? ?]; by try split.
      + intros c. preserves_tac.
      + intros c s2 s3 (_ & Hc & _). apply Hc.
      + intros c. apply ends_wrapping. eapply ends_mono; [|apply ends_EnsureConsumer]. done.
      + preserves_tac.
      + intros s2 s3 (Hc & _ & _). apply Hc.
      + done.
    - intros s1 u Hs1. simpl in Hs1. eapply runs_mono; [|apply runs_and; [apply ends_EnsureBuckets with (s := s1)|
        apply (ends_keep js_le) with (P := λ s, Forall (λ x, stream_there x s) (nc_Streams cfg))]].
      + intros s2 [a|e|p] [? ?]; by try split.
      + apply le_EnsureBuckets.
      + intros s2 s3 Hc Hf. eapply Forall_impl; [exact Hf|]. intros x. by apply stream_there_le.
      + done. }
  specialize (Hle s). specialize (Hends s). unfold runs in Hends.
  destruct (Nats Version cfg st update ns s) as [s' [[]|e|p]]; by split.
Qed.
End setup_facts.

(** ** Opening a namespace *)
Section open_namespace.
Context `{EnvOk} (NF : NoFaults).

Lemma runs_js_call {A} (eff : JetStream → JetStream * res error A) s Φ :
  Φ (eff (s <| js_tick ::= S |>)).1 (eff (s <| js_tick ::= S |>)).2 → runs (js_call eff) s Φ.
Proof. unfold runs, js_call. by rewrite NF. Qed.

Lemma runs_js_range {V} (m : gmap string V) s (Φ : JetStream → res error _ → Prop) :
  (∀ l, l ≡ₚ map_to_list m → Φ (s <| js_tick ::= S |>) (Ok l)) → runs (js_range m) s Φ.
Proof. intros HΦ. apply HΦ, map_order_perm. Qed.

Lemma runs_EnsureBucket c st f s :
  runs (EnsureBucket c st f) s (λ _ r, r = Ok tt).
Proof.
  unfold EnsureBucket, exists_unless. repeat runs_step. apply runs_js_call. simpl.
  destruct (js_buckets s !! _); repeat runs_step; [done|].
  change (Is (Sentinel ErrBucketNotFound) ErrBucketNotFound) with true. cbv iota. repeat runs_step.
  by apply runs_js_call.
Qed.

Lemma runs_EnsureBuckets cfg st ns s : runs (EnsureBuckets cfg st ns) s (λ _ r, r = Ok tt).
Proof.
  apply (runs_for_each (λ _ _, True)); [done| |done].
  intros d x rest s' _ _. apply runs_wrapping. eapply runs_mono; [|apply runs_EnsureBucket].
  by intros s'' r ->.
Qed.

(** The table of names holds each store under its own name. *)
Lemma kv_names_spec ns k b : kv_names ns !! k = Some b → k = PrefixWith ns (KvName b).
Proof.
  unfold kv_names. generalize NamespaceKvs_fields as l.
  assert (∀ l (m : gmap string Bucket), (∀ k b, m !! k = Some b → k = PrefixWith ns (KvName b)) →
    ∀ k b, foldl (λ m b, <[PrefixWith ns (KvName b) := b]> m) m l !! k = Some b →
    k = PrefixWith ns (KvName b)) as Hgen.
  { induction l as [|b' l IH]; intros m Hm k' b''; simpl; [apply Hm|]. apply IH.
    intros k2 b2. rewrite lookup_insert_Some. intros [[<- <-]|[_ Hk]]; [done|by apply Hm]. }
  intros l. apply Hgen. intros k' b'. by rewrite lookup_empty.
Qed.

Lemma kv_names_all ns b : kv_names ns !! PrefixWith ns (KvName b) = Some b.
Proof.
  unfold kv_names.
  assert (∀ l (m : gmap string Bucket), b ∈ l ∨ m !! PrefixWith ns (KvName b) = Some b →
    foldl (λ m b, <[PrefixWith ns (KvName b) := b]> m) m l !! PrefixWith ns (KvName b) = Some b) as Hgen.
  { induction l as [|b' l IH]; intros m; simpl; [by intros [Hin%not_elem_of_nil|?]|].
    intros Hb. apply IH. destruct (decide (b = b')) as [<-|Hne]; [right; apply lookup_insert_eq|].
    destruct Hb as [[|Hin]%elem_of_cons|Hm]; [done|by left|right].
    rewrite lookup_insert_ne; [done|]. intros Heq. apply Hne. by apply PrefixWith_inj in Heq as [_ ->]. }
  apply Hgen. left. apply list_elem_of_In. destruct b; simpl; tauto.
Qed.

Lemma runs_open l acc s :
  (∀ e, e ∈ l → is_Some (js_buckets s !! e.1)) →
  runs (for_fold l (λ (nKvs : gmap Bucket KeyValueConfig) (e : string * Bucket),
    kv ← wrapping (Wrap "open KV") (js_KeyValue e.1); mret (<[e.2 := kv]> nKvs)) acc) s
    (λ s' r, js_buckets s' = js_buckets s ∧ ∃ kvs, r = Ok kvs ∧
       (∀ b, (∀ k, (k, b) ∉ l) → kvs !! b = acc !! b) ∧
       (∀ b k, (k, b) ∈ l → ∃ k', (k', b) ∈ l ∧ kvs !! b = js_buckets s !! k')).
Proof.
  revert acc s. induction l as [|[k b] l IH]; intros acc s Hl; simpl.
  { repeat runs_step. split; [done|]. exists acc. split_and!; [done|done|].
    by intros b k Hin%not_elem_of_nil. }
  repeat runs_step. apply runs_js_call. simpl.
  destruct (Hl (k, b)) as [c Hc]; [by left|]. simpl in Hc. rewrite Hc. repeat runs_step.
  eapply runs_mono; [|apply IH]; [|intros e He; apply Hl; by right].
  intros s' r (Hs & kvs & -> & Hout & Hin). simpl in Hs, Hin. split; [done|]. exists kvs. split; [done|].
  split.
  - intros b' Hb'. rewrite Hout by (intros k' Hk'; apply (Hb' k'); by right).
    apply lookup_insert_ne. intros ->. apply (Hb' k). by left.
  - intros b' k' [[= -> ->]|Hk']%elem_of_cons.
    + destruct (decide (b ∈ l.*2)) as [([k' b'] & -> & Hk')%list_elem_of_fmap|Hn].
      * simpl in *. destruct (Hin _ _ Hk') as (k'' & ? & ?). exists k''. split; [by right|done].
      * exists k. split; [by left|]. rewrite Hout by (intros k'' Hk''; apply Hn, list_elem_of_fmap; by exists (k'', b)).
        by rewrite lookup_insert_eq.
    + destruct (Hin _ _ Hk') as (k'' & ? & ?). exists k''. split; [by right|done].
Qed.

(** Opening a namespace opens every store of it on the namespace's own
    bucket, which is created if need be, when the configuration lists the buckets
    of all stores; the namespaces that are open stay as they are. *)
Theorem KvsFor_opens sharKvs ns st cfg s :
  (∀ b, KvName b ∈ map kc_Bucket (nc_KeyValue cfg)) → sharKvs !! ns = None →
  ∃ s' kvs, KvsFor sharKvs ns st cfg s = (s', Ok (<[ns := kvs]> sharKvs, kvs)) ∧
    ∀ b, is_Some (kvs !! b) ∧ kvs !! b = js_buckets s' !! PrefixWith ns (KvName b).
Proof.
  intros Hcfg Hns. unfold KvsFor, initNamespacedKvs. rewrite Hns.
  match goal with |- ∃ s' kvs, ?m s = _ ∧ _ => enough (runs m s (λ s' r, ∃ kvs,
    r = Ok (<[ns := kvs]> sharKvs, kvs) ∧
    ∀ b, is_Some (kvs !! b) ∧ kvs !! b = js_buckets s' !! PrefixWith ns (KvName b))) as Hr end.
  { unfold runs in Hr. destruct Hr as (kvs & Hr & Hb). eexists _, kvs. split; [|exact Hb].
    by rewrite <-Hr, <-surjective_pairing. }
  repeat runs_step. eapply runs_mono; [|apply runs_and; [apply runs_EnsureBuckets|apply ends_EnsureBuckets]].
  intros s1 r [-> Hthere]. repeat runs_step.
  assert (∀ b, is_Some (js_buckets s1 !! PrefixWith ns (KvName b))) as Hall.
  { intros b. specialize (Hcfg b). apply list_elem_of_fmap in Hcfg as (c & Hc & Hin).
    rewrite Forall_forall in Hthere. specialize (Hthere c Hin). unfold bucket_there in Hthere. by rewrite Hc. }
  apply runs_js_range. intros l Hl. eapply runs_mono; [|apply runs_open].
  - intros s' r (Hs & kvs & -> & _ & Hin). repeat runs_step. exists kvs. split; [done|].
    enough (∀ b, kvs !! b = js_buckets s' !! PrefixWith ns (KvName b)) as Hkvs.
    { intros b. rewrite Hkvs, Hs. split; [apply Hall|done]. }
    intros b. destruct (Hin b (PrefixWith ns (KvName b))) as (k' & Hk' & ->).
    + rewrite Hl. apply elem_of_map_to_list, kv_names_all.
    + rewrite Hl in Hk'. apply elem_of_map_to_list, kv_names_spec in Hk' as ->. by rewrite Hs.
  - intros [k b] Hin. rewrite Hl in Hin. apply elem_of_map_to_list, kv_names_spec in Hin as ->. apply Hall.
Qed.
End open_namespace.

(** ** Upgrades *)
Section upgrades.
Context `{EnvOk} `{VersionLib} (Version : string) (v : Version_).
Context (Hv : version_New Version = inl v).

(** Whether a patch is newer than a version. *)
Definition newer (v1 : Version_) (p : patch) : bool :=
  match version_New (patch_version (patch_name p)) with inl v2 => GreaterThan v2 v1 | inr _ => false end.

(** [Patch] runs the patches that are newer, each once and in the order of the
    list. *)
Lemma Patch_runs (list_ : list patch) from v1 s :
  version_New from = inl v1 →
  Forall (λ p, (∃ v2, version_New (patch_version (patch_name p)) = inl v2) ∧
    ∀ s, (patch_fn p s).2 = Ok tt ∧ js_patched (patch_fn p s).1 = js_patched s) list_ →
  runs (Patch list_ from) s (λ s' r, r = Ok tt ∧
    js_patched s' = js_patched s ++ map patch_name (filter (λ p, newer v1 p = true) list_)).
Proof.
  intros Hf Hl. unfold Patch. rewrite Hf. clear Hf. revert s. induction Hl as [|p l [[v2 Hp] Hr] _ IH]; intros s.
  - simpl. apply runs_ret. by rewrite app_nil_r.
  - cbn [for_each]. runs_step. rewrite filter_cons.
    assert (newer v1 p = GreaterThan v2 v1) as -> by (unfold newer; by rewrite Hp).
    rewrite Hp. destruct (GreaterThan v2 v1); simpl.
    + unfold run_patch. repeat runs_step. set (s0 := setter js_patched _ s). specialize (Hr s0).
      unfold runs at 1. destruct (patch_fn p s0) as [s1 r]. simpl in Hr |- *. destruct Hr as [-> Hs].
      eapply runs_mono; [|apply IH]. intros s' r' [-> Hs']. split; [done|]. rewrite Hs', Hs.
      simpl. by rewrite <-app_assoc.
    + runs_step. apply IH.
Qed.

Lemma none_newer l : Forall (λ p, newer v p = false) l → filter (λ p, newer v p = true) l = [].
Proof.
  induction 1 as [|p l Hn _ IH]; [done|]. rewrite filter_cons, decide_False; [done|by rewrite Hn].
Qed.

(** The version a client has to expect is the newest of the patches. *)
Lemma GetCompatibleVersion_newest versions v1 v2 :
  version_Compare v1 v2 = Lt →
  GetCompatibleVersion (versions ++ [v1; v2]) = Some v2.
Proof.
  intros Hlt. unfold GetCompatibleVersion. rewrite rev_app_distr. simpl.
  unfold GreaterThan, LessThan. by rewrite Hlt.
Qed.

(** What [EnsureStream] leaves for the stream of a configuration. *)
Definition ensured (old : option StreamConfig) (c : StreamConfig) : StreamConfig :=
  match old with
  | Some info =>
      if requiresUpgrade (default "" (sc_Metadata info !! "shar_version")) Version
      then c <| sc_Metadata ::= <["shar_version" := Version]> |> else info
  | None => c <| sc_Metadata ::= <["shar_version" := Version]> |>
  end.

(** A release that is recorded and newer than the running one stays. *)
Lemma ensured_newer info c w :
  version_New (upgradeExpr (default "" (sc_Metadata info !! "shar_version"))) = inl w →
  upgradeExpr (default "" (sc_Metadata info !! "shar_version")) ≠ "" →
  version_Compare v w = Lt → ensured (Some info) c = info.
Proof.
  intros Hw Hne Hlt. unfold ensured, requiresUpgrade. rewrite bool_decide_false by done.
  rewrite Hw, Hv. unfold GreaterThanOrEqual, LessThan. by rewrite Hlt.
Qed.

(** (C39) A stream that is missing is created with the version of the running
    server, one of an older version or of none gets the new configuration, one of
    a newer version is left alone; but however old the recorded version is, no
    patch runs, because the version to patch from is looked for in the stream's
    description, where it is not, and taken to be the running one. *)
Theorem EnsureStream_never_patches (NF : NoFaults) c st s old :
  js_streams s !! sc_Name c = old →
  (∀ info, old = Some info → upgradeExpr (sc_Description info) = "") →
  Forall (λ p, newer v p = false ∧ ∃ v2, version_New (patch_version (patch_name p)) = inl v2) patches →
  let '(s', r) := EnsureStream Version c st s in
  r = Ok tt ∧ js_patched s' = js_patched s ∧
  js_streams s' !! sc_Name c = Some (ensured old (c <| sc_Storage := st |>)).
Proof.
  intros Hold Hdesc Hp.
  match goal with |- let '(s', r) := ?m s in _ => enough (runs m s (λ s' r,
    r = Ok tt ∧ js_patched s' = js_patched s ∧
    js_streams s' !! sc_Name c = Some (ensured old (c <| sc_Storage := st |>)))) as Hr end.
  { unfold runs in Hr. by destruct (EnsureStream Version c st s). }
  unfold EnsureStream, exists_unless. repeat runs_step. apply (runs_js_call NF). simpl. rewrite Hold.
  destruct old as [info|]; repeat runs_step.
  - apply (runs_js_call NF). simpl. destruct (requiresUpgrade _ _); [|repeat runs_step].
    + repeat runs_step. rewrite (Hdesc info) by done. rewrite bool_decide_true by done.
      eapply runs_mono; [|apply (Patch_runs patches Version v)]; [|done|].
      * intros s' r [-> Hs']. repeat runs_step. apply (runs_js_call NF). simpl.
        rewrite lookup_insert_eq. split_and!; [done| |done]. rewrite Hs'.
        rewrite none_newer; [by rewrite app_nil_r|]. eapply Forall_impl; [exact Hp|]. by intros p [].
      * inversion Hp as [|? ? [_ Hn] _ Heq]; subst. constructor; [|constructor]. by split.
    + by split_and!.
  - change (Is (Sentinel ErrStreamNotFound) ErrStreamNotFound) with true. cbv iota. repeat runs_step.
    apply (runs_js_call NF). simpl. by rewrite lookup_insert_eq.
Qed.
End upgrades.

(** ** Witnesses *)

(** Versions as lists of numbers, in lexicographic order. *)
Definition sim_parse_version (s : string) : list Z + error :=
  let s := match s with String "v" s => s | s => s end in
  match mapM Atoi (Split "."%char s) with
  | Some l => inl l
  | None => inr (New "malformed version")
  end.

Fixpoint lex_compare (l k : list Z) : comparison :=
  match l, k with
  | [], [] => Eq
  | [], _ => Lt
  | _, [] => Gt
  | x :: l, y :: k => match Z.compare x y with Eq => lex_compare l k | c => c end
  end.

Definition sim_versions : VersionLib :=
  {| Version_ := list Z; version_New := sim_parse_version; version_Compare := lex_compare |}.

Definition old_stream : StreamConfig :=
  mkStreamConfig "WORKFLOW" "" ["WORKFLOW.*.Message"] FileStorage
    {["shar_version" := "v1.0.0"]}.

Definition new_stream : StreamConfig :=
  mkStreamConfig "WORKFLOW" "" ["WORKFLOW.*.Message"; "WORKFLOW.*.State.Job.Retry"] FileStorage ∅.

Definition old_server : JetStream := mkJetStream 0 {["WORKFLOW" := old_stream]} ∅ ∅ [].

Lemma EnsureStream_never_patches_witness :
  js_patched (@EnsureStream sim sim_versions "v1.1.670" new_stream FileStorage old_server).1 = [] ∧
  sc_Metadata <$> js_streams (@EnsureStream sim sim_versions "v1.1.670" new_stream FileStorage old_server).1
    !! "WORKFLOW" = Some {["shar_version" := "v1.1.670"]} ∧
  @requiresUpgrade sim_versions "v1.0.0" "v1.1.503" = true.
Proof.
  pose proof (@EnsureStream_never_patches sim sim_versions "v1.1.670" [1; 1; 670]%Z ltac:(vm_compute; reflexivity)
    sim_NoFaults new_stream FileStorage old_server (Some old_stream)) as Hr.
  destruct (@EnsureStream sim sim_versions "v1.1.670" new_stream FileStorage old_server) as [s' r].
  destruct Hr as (_ & Hp & Hs).
  - vm_compute; reflexivity.
  - intros info [= <-]. vm_compute; reflexivity.
  - constructor; [|constructor]. split; [vm_compute; reflexivity|].
    eexists. vm_compute; reflexivity.
  - split; [exact Hp|]. simpl fst. simpl in Hs. rewrite Hs. vm_compute. done.
Defined.

Definition natz_config : NatsConfig := mkNatsConfig [mkNatsStream new_stream []] natsConfig_buckets.

Lemma KvsFor_opens_witness :
  ∃ s' kvs, @KvsFor sim ∅ "acme" FileStorage natz_config old_server = (s', Ok (<["acme" := kvs]> ∅, kvs)) ∧
    kvs !! WfHistory = js_buckets s' !! "acme_WORKFLOW_HISTORY" ∧ is_Some (kvs !! WfHistory).
Proof.
  destruct (@KvsFor_opens sim (Sim_ok _ _ _) sim_NoFaults ∅ "acme" FileStorage natz_config old_server)
    as (s' & kvs & Hr & Hb).
  - intros b. apply list_elem_of_In. destruct b; vm_compute; tauto.
  - reflexivity.
  - exists s', kvs. split; [exact Hr|]. destruct (Hb WfHistory) as [Hs He]. by split.
Defined.
