(* ===== verification/Dialing.v ===== *)
(** * Connecting a client

    [client/client.go] ([New], [Dial], [GetServerVersion]), [client/option.go],
    the data client of [client/data/client.go], and [CheckVersion] of
    [common/natsutil.go].  When it connects, a client asks the server whether
    their versions are compatible; later every request carries the version and
    the server's listener ([Api.listen]) looks at it again.

    [dialled_client_is_served]: a client that has connected passes that check with
    every request.  [data_client_never_connects]: the data client leaves the field
    the server compares empty and cannot connect. *)
From S2P Require Import Prelude Model Errors Env Sim Common Wp NatsUtil Vars Publish History Instances TaskSpec Store Launch Jobs Process Api Calls ClientTask Client Worker Work Setup.

(** ** Options *)
Record Settings := mkSettings {
  se_storageType : StorageType;
  se_concurrency : Z;
  se_noOSSig : bool;
  se_telemetry : bool;
  se_SendMiddleware : list string;
  se_ReceiveMiddleware : list string }.

#[export] Instance Settings_settable : Settable Settings := λ r,
  mkSettings (se_storageType r) (se_concurrency r) (se_noOSSig r) (se_telemetry r) (se_SendMiddleware r)
    (se_ReceiveMiddleware r).

Inductive ConfigurationOption :=
  | WithEphemeralStorage
  | WithConcurrency (n : Z)
  | WithNoRecovery
  | WithOpenTelemetry
  | WithNoOSSig
  | WithNamespace (name : string).

Record Dialling `{Env} := mkDialling { di_world : World; di_js : JetStream }.

Arguments mkDialling {_} _ _.

Abbreviation DM := (gom error Dialling).

Section dialling.
Context `{Env} `{ApiEnv} `{ClientEnv} `{VersionLib}.

(** The versions of the two builds: of the client's, the newest patch
    ([upgrader.GetCompatibleVersion]) and the release; of the server's, the
    release (its newest patch is [compatibleVersion]). *)
Context (ownCompatible : option string) (ownVersion serverVersion : string).

Definition configure (c : Client * Settings) (o : ConfigurationOption) : Client * Settings :=
  match o with
  | WithEphemeralStorage => (c.1, c.2 <| se_storageType := MemoryStorage |>)
  | WithConcurrency n => (c.1, c.2 <| se_concurrency := n |>)
  | WithNoRecovery => (c.1 <| cl_noRecovery := true |>, c.2)
  | WithOpenTelemetry => (c.1, c.2 <| se_telemetry := true |>)
  | WithNoOSSig => (c.1, c.2 <| se_noOSSig := true |>)
  | WithNamespace name => (c.1 <| cl_ns := name |>, c.2)
  end.

(** [New], given the name of the host. *)
Definition New_client (host : string) (option : list ConfigurationOption) : M (Client * Settings) :=
  id ← newId;
  let c := mkClient _ id host "default" ∅ ∅ ∅ ∅ ∅ ownCompatible false in
  mret (foldl configure (c, mkSettings FileStorage 10 false false [] []) option).

(** ** The versions *)
Definition lift_version {A S} (msg : string) (r : option A) : gom error S A :=
  match r with Some a => mret a | None => throw (New msg) end.

(** The client's [upgrader.IsCompatible]. *)
Definition own_IsCompatible (v : string) : bool :=
  match ownCompatible with Some own => bool_decide (own = v) | None => true end.

(** The [ServerVersion] and the [MinCompatibleVersion] of the response are those
    of the server's build. *)
Definition GetServerVersion (c : Client) (ctx : Ctx) : M string :=
  compat ← deref "c.ExpectedCompatibleServerVersion" (cl_ExpectedCompatibleServerVersion c);
  connect ← wrapping (Wrap "get version info")
    (Call (SetNS ctx (cl_ns c)) APIGetVersionInfo (Some compat) (GetVersionInfoRequest compat)
       (λ r, match r with GetVersionInfoResponse connect => Some connect | _ => None end));
  sv ← lift_version "get server version info" (NewVersion serverVersion);
  cv ← lift_version "get server version info" (NewVersion compatibleVersion);
  if negb connect then throw (New "incompatible client version")
  else if own_IsCompatible cv then mret sv else throw (New "incompatible server version").

(** The data client: a request with the release only, and the server's release in
    the place of the version it is compatible with. *)
Definition data_GetServerVersion (expectCompat : option string) (ctx : Ctx) : M string :=
  connect ← wrapping (Wrap "get version info")
    (Call ctx APIGetVersionInfo expectCompat (GetVersionInfoRequest "")
       (λ r, match r with GetVersionInfoResponse connect => Some connect | _ => None end));
  sv ← lift_version "get server version info" (NewVersion serverVersion);
  cv ← lift_version "get server version info" (NewVersion compatibleVersion);
  if negb connect then throw (New "incompatible client version")
  else if own_IsCompatible sv then mret sv else throw (New "incompatible server version").

(** ** Connecting *)

(** [nats.Connect], with the version of the NATS server; [jetstream.New]. *)
Definition natsConnect (natsVersion : string) : M string := nats (λ w, (w, Ok natsVersion)).
Definition jetstreamNew : M unit := nats (λ w, (w, Ok tt)).

Definition CheckVersion {S} (nvStr : string) : gom error S unit :=
  match version_New nvStr, version_New "v2.10.12" with
  | inr err, _ => throw (Wrap "parse nats version" err)
  | inl nv, inl minimum => if LessThan nv minimum then throw (New "nats version not supported") else mret tt
  | inl _, inr _ => panic "version.NatsVersion is nil"
  end.

Definition data_Dial (natsVersion : string) (ctx : Ctx) : M unit :=
  _ ← wrapping (Wrap "data client dial") (natsConnect natsVersion);
  _ ← wrapping (Wrap "server version") (data_GetServerVersion None ctx);
  mret tt.

Definition in_world {A} (m : M A) : DM A := λ s,
  let r := m (di_world s) in (mkDialling r.1 (di_js s), r.2).
Definition in_jetstream {A} (m : JM A) : DM A := λ s,
  let r := m (di_js s) in (mkDialling (di_world s) r.1, r.2).

(** What [Dial] adds to the middleware. *)
Definition dial_middleware (s : Settings) : Settings :=
  let s := if se_telemetry s then
      s <| se_SendMiddleware ::= λ l, l ++ ["CtxSpanToNatsMsgMiddleware"] |>
        <| se_ReceiveMiddleware ::= λ l, l ++ ["NatsMsgToCtxWithSpanMiddleware"] |>
    else s in
  s <| se_ReceiveMiddleware ::= λ l, l ++ ["retryNotifier"] |>.

Definition terminate_consumer (ns : string) : ConsumerConfig :=
  mkConsumerConfig "" ("ProcessTerminateConsumer_" +:+ ns) (NS messages.WorkflowProcessTerminated ns) false ∅.

Definition Dial (natsVersion : string) (c : Client * Settings) (ctx : Ctx) : DM (Client * Settings) :=
  let c := (c.1, dial_middleware c.2) in
  n ← wrapping (Wrap "client error") (in_world (natsConnect natsVersion));
  _ ← wrapping (Wrap "check NATS version") (CheckVersion n);
  _ ← wrapping (Wrap "client error") (in_world (natsConnect natsVersion));
  _ ← wrapping (Wrap "client error") (in_world jetstreamNew);
  _ ← wrapping (Wrap "client error") (in_world jetstreamNew);
  _ ← wrapping (Wrap "server version") (in_world (GetServerVersion c.1 ctx));
  _ ← wrapping (λ _, New "setting up end event queue")
        (in_jetstream (EnsureConsumer ownVersion "WORKFLOW" (terminate_consumer (cl_ns c.1)) false
                         (se_storageType c.2)));
  mret c.
End dialling.

(** ** What the handshake establishes *)
Section handshake.
Context `{Env} `{ApiEnv} `{ClientEnv}.

Lemma versionInfo_yields ctx v : yields (api.versionInfo ctx v) (λ connect,
  connect = true → NewVersion v = Some compatibleVersion).
Proof.
  unfold api.versionInfo. destruct (authenticate ctx).2; [|apply yields_throw].
  case_bool_decide; [apply yields_throw|]. destruct (NewVersion v) as [u|]; [|apply yields_throw].
  apply yields_ret. unfold api.IsCompatible. by intros ->%bool_decide_eq_true.
Qed.

Lemma yields_nats {A} (eff : World → World * res error A) φ :
  (∀ w a, (eff w).2 = Ok a → φ a) → yields (nats eff) φ.
Proof. intros He w a. unfold nats. destruct (nats_fault _) as [[e []]|]; [done..|]. apply He. Qed.

(** What a call for the version gets as its answer. *)
Lemma RequestMsg_version ctx ns cid compat v : yields
  (RequestMsg (request_message ctx ns cid APIGetVersionInfo compat) (GetVersionInfoRequest v))
  (λ answer, match answer with
     | Respond (GetVersionInfoResponse connect) =>
         v ≠ "" ∧ (connect = true → NewVersion v = Some compatibleVersion)
     | Respond _ => False
     | ErrorResponse _ => True
     end).
Proof.
  apply yields_nats. intros w a. rewrite listen_gate by (by left). unfold callAPI.
  assert (yields (serve APIGetVersionInfo (apiCtx (request_message ctx ns cid APIGetVersionInfo compat))
    (GetVersionInfoRequest v)) (λ resp, ∃ connect, resp = GetVersionInfoResponse connect ∧
      v ≠ "" ∧ (connect = true → NewVersion v = Some compatibleVersion))) as Hs.
  { simpl. unfold reply_. destruct (decide (v = "")) as [->|Hv].
    - intros w0 b. unfold api.versionInfo. destruct (authenticate _).2; [|done]. by rewrite bool_decide_true.
    - eapply yields_seq; [apply versionInfo_yields|]. intros connect Hc. apply yields_ret. by exists connect. }
  specialize (Hs w). change (msg_Subject _) with APIGetVersionInfo.
  destruct (serve _ _ _ w) as [w' [resp|e|p]]; simpl in *.
  - intros [= <-]. by destruct (Hs resp eq_refl) as (connect & -> & Hc).
  - by intros [= <-].
  - destruct (_ && _); [by intros [= <-]|done].
Qed.

Definition version_response (r : response) : option bool :=
  match r with GetVersionInfoResponse connect => Some connect | _ => None end.

Lemma Call_version ctx compat v : yields
  (Call ctx APIGetVersionInfo compat (GetVersionInfoRequest v) version_response)
  (λ connect, v ≠ "" ∧ (connect = true → NewVersion v = Some compatibleVersion)).
Proof.
  unfold Call. destruct (ctx_SharNamespace ctx) as [ns|]; [|apply yields_panic].
  apply yields_bind. intros cid. eapply yields_seq; [apply yields_wrapping, RequestMsg_version|].
  intros [resp|data] Ha.
  - destruct resp; try done. simpl. by apply yields_ret.
  - simpl. destruct (parse_error data) as [[[]| |]|]; auto using yields_throw, yields_panic.
Qed.

Context `{VersionLib} (own : option string) (ownVersion serverVersion : string).

Lemma GetServerVersion_yields c ctx :
  yields (GetServerVersion own serverVersion c ctx) (λ _, compatible (cl_ExpectedCompatibleServerVersion c)).
Proof.
  unfold GetServerVersion. eapply yields_seq; [apply (yields_deref _ _ (λ compat,
    cl_ExpectedCompatibleServerVersion c = Some compat)); by intros|]. intros compat Hc.
  eapply yields_seq; [apply yields_wrapping, Call_version|]. intros connect [_ Hok].
  do 2 (apply yields_bind; intros ?). destruct connect; [|apply yields_throw]. simpl.
  destruct (own_IsCompatible _ _); [|apply yields_throw]. apply yields_ret.
  unfold compatible. rewrite Hc. by apply Hok.
Qed.

(** (C10) A client that has connected is served: whatever it asks for afterwards, the
    listener lets through to the endpoint. *)
Theorem dialled_client_is_served natsVersion c ctx s c' :
  (Dial own ownVersion serverVersion natsVersion c ctx s).2 = Ok c' →
  c'.1 = c.1 ∧
  ∀ recovery ctx' ns cid subject r w,
    let m := request_message ctx' ns cid subject (cl_ExpectedCompatibleServerVersion c'.1) in
    listen recovery m r w = callAPI recovery m r w.
Proof.
  intros Hd. enough (c'.1 = c.1 ∧ compatible (cl_ExpectedCompatibleServerVersion c.1)) as [-> Hc].
  { split; [done|]. intros recovery ctx' ns cid subject r w m. by apply listen_gate; right. }
  unfold Dial in Hd. do 5 apply bind_returned in Hd as (? & ? & _ & Hd).
  apply bind_returned in Hd as (s2 & sv & Hv & Hd). apply bind_returned in Hd as (s3 & ? & _ & Hd).
  injection Hd as <-. split; [done|]. simpl.
  apply wrapping_returned in Hv. unfold in_world in Hv. injection Hv as _ Hv.
  eapply (GetServerVersion_yields c.1 ctx). exact Hv.
Qed.

(** The data client never connects: a context without a namespace makes the call
    panic, and otherwise the server turns the empty version away. *)
Theorem data_client_never_connects natsVersion ctx w :
  (data_Dial own serverVersion natsVersion ctx w).2 ≠ Ok tt ∧
  (ctx_SharNamespace ctx = None → NoFaults →
   (data_Dial own serverVersion natsVersion ctx w).2 = Panic "contextless call").
Proof.
  split.
  - unfold data_Dial. intros Hd. apply bind_returned in Hd as (w1 & ? & _ & Hd).
    apply bind_returned in Hd as (w2 & sv & Hv & _). apply wrapping_returned in Hv.
    unfold data_GetServerVersion in Hv.
    assert (((wrapping (Wrap "get version info") (Call ctx APIGetVersionInfo None (GetVersionInfoRequest "") version_response)
      ≫= λ connect, sv ← lift_version "get server version info" (NewVersion serverVersion);
        cv ← lift_version "get server version info" (NewVersion compatibleVersion);
        if negb connect then throw (New "incompatible client version")
        else if own_IsCompatible own sv then mret sv else throw (New "incompatible server version")) w1).2 = Ok sv) as Hr.
    { unfold version_response. by rewrite Hv. }
    apply bind_returned in Hr as (w3 & connect & Hc & _). apply wrapping_returned in Hc.
    destruct (Call_version ctx None "" w1 connect) as [Hne _]; [by rewrite Hc|done].
  - intros Hns NF. unfold data_Dial, data_GetServerVersion, natsConnect, wrapping, nats, mbind, gom_bind, Call.
    rewrite NF. simpl. by rewrite Hns.
Qed.
End handshake.

(** Clients and servers of the same newest patch find each other. *)
Lemma GetServerVersion_connects `{EnvOk} `{ApiEnv} `{ClientEnv} (NF : NoFaults) serverVersion sv c ctx user w :
  (∀ ctx, (authenticate ctx).2 = inl user) →
  compatibleVersion ≠ "" → NewVersion compatibleVersion = Some compatibleVersion →
  NewVersion serverVersion = Some sv → cl_ExpectedCompatibleServerVersion c = Some compatibleVersion →
  wp (GetServerVersion (Some compatibleVersion) serverVersion c ctx) w (λ w' r, w' ≡ w ∧ r = Ok sv).
Proof.
  intros Hauth Hne Hcv Hsv Hc. unfold GetServerVersion. rewrite Hc. wp_steps.
  apply (wp_Call_gate NF _ (cl_ns c)); [done|by left|]. intros w1 cid Hw1. cbn [serve]. unfold reply_, api.versionInfo.
  wp_steps. rewrite Hauth, bool_decide_false, Hcv by done. wp_steps. unfold api.IsCompatible, answered.
  rewrite bool_decide_true by done. split; [done|]. exists true. split; [done|].
  rewrite Hsv. unfold lift_version. wp_steps. simpl. rewrite bool_decide_true by done. by wp_steps.
Qed.

(** ** Examples *)
Definition ex_dial : @Dialling sim := mkDialling world_init (mkJetStream 0 ∅ ∅ ∅ []).
Definition ex_new_client : @Client sim * Settings :=
  @configure sim (@mkClient sim "c1" "host" "default" ∅ ∅ ∅ ∅ ∅ (Some "v1.1.503") false,
    mkSettings FileStorage 10 false false [] []) (WithNamespace "ns").
Definition ex_dialled : @Dialling sim * res error (@Client sim * Settings) :=
  @Dial sim ex_server ex_workers sim_versions (Some "v1.1.503") "v1.1.670" "v1.1.670" "2.10.14"
    ex_new_client Background ex_dial.

Lemma dialled_client_is_served_witness :
  ∃ c', ex_dialled.2 = Ok c' ∧ cl_ns c'.1 = "ns" ∧
  ∀ r w, let m := @request_message ex_workers Background "ns" "cid" subject.APIListWorkflows
                    (cl_ExpectedCompatibleServerVersion c'.1) in
    @listen sim ex_server true m r w = @callAPI sim ex_server true m r w.
Proof.
  assert (match ex_dialled.2 with Ok _ => True | _ => False end) as Hok by (vm_compute; exact I).
  destruct ex_dialled.2 as [c'|e|p] eqn:Hd; [clear Hok|destruct Hok..].
  destruct (@dialled_client_is_served sim ex_server ex_workers sim_versions (Some "v1.1.503") "v1.1.670" "v1.1.670"
    "2.10.14" ex_new_client Background ex_dial c' Hd) as [Hc Hl].
  exists c'. split; [done|]. split; [rewrite Hc; reflexivity|]. intros r w. apply Hl.
Defined.

Lemma data_client_never_connects_witness :
  (@data_Dial sim ex_server ex_workers (Some "v1.1.503") "v1.1.670" "2.10.14" Background world_init).2 =
    Panic "contextless call" ∧
  (@data_Dial sim ex_server ex_workers (Some "v1.1.503") "v1.1.670" "2.10.14" (SetNS Background "ns") world_init).2 ≠ Ok tt.
Proof.
  split.
  - apply (@data_client_never_connects sim ex_server ex_workers (Some "v1.1.503") "v1.1.670" "2.10.14" Background world_init);
      [reflexivity|exact sim_NoFaults].
  - apply (@data_client_never_connects sim ex_server ex_workers (Some "v1.1.503") "v1.1.670" "2.10.14").
Defined.
