(* ===== verification/Boot.v ===== *)
(** * Making a server

    [New] and [ConnectNats] of [server/server/server.go], the options of
    [server/server/option/options.go], [NewNatsService] of
    [server/services/natz/natz.go], and [New] of
    [internal/server/workflow/engine.go] and [operations.go].  A server is made in
    three steps: its streams, consumers and buckets are ensured, the stores of the
    default namespace opened, the engine made with its telemetry timer.

    [made_server_is_set_up]: whatever fails, a server that is made has all of that.
    [options_last_win]: what the options do to the checks of callers.  What the
    set-up makes ([JetStream]) and what the engine finds ([World]) are two views of
    the NATS server that the model keeps apart. *)
From S2P Require Import Prelude Model Errors Env Sim Common Wp NatsUtil Once Vars Publish History Instances TaskSpec Store Launch Jobs Process Api Calls ClientTask Client Worker Work Setup Dialing.

Definition APIFunc : Type := Ctx → gmap string string → string → string → string → option bool.
Definition AuthCheck : Type := Ctx → gmap string string → option (bool * string).

Record TelemetryConfig := mkTelemetryConfig { tl_Enabled : bool; tl_Endpoint : string }.

Record ServerOptions := mkServerOptions {
  so_PanicRecovery : bool;
  so_AllowOrphanServiceTasks : bool;
  so_Concurrency : Z;
  so_ApiAuthorizer : option APIFunc;
  so_ApiAuthenticator : AuthCheck;
  so_HealthServiceEnabled : bool;
  so_SharVersion : string;
  so_NatsUrl : string;
  so_GrpcPort : Z;
  so_TelemetryConfig : TelemetryConfig;
  so_ShowSplash : bool;
  so_JetStreamDomain : string }.

#[export] Instance ServerOptions_settable : Settable ServerOptions := λ r,
  mkServerOptions (so_PanicRecovery r) (so_AllowOrphanServiceTasks r) (so_Concurrency r)
    (so_ApiAuthorizer r) (so_ApiAuthenticator r) (so_HealthServiceEnabled r) (so_SharVersion r)
    (so_NatsUrl r) (so_GrpcPort r) (so_TelemetryConfig r) (so_ShowSplash r) (so_JetStreamDomain r).

Inductive Option :=
  | PanicRecovery (enabled : bool)
  | PreventOrphanServiceTasks
  | Concurrency (n : Z)
  | WithApiAuthorizer (authFn : option APIFunc)
  | WithAuthentication (authFn : AuthCheck)
  | WithNoHealthServer
  | WithSharVersion (version : string)
  | NatsUrl (url : string)
  | GrpcPort (port : Z)
  | WithTelemetryEndpoint (endpoint : string)
  | WithShowSplash
  | WithJetStreamDomain (jsDomain : string).

(** [PreventOrphanServiceTasks] allows what it is to prevent. *)
Definition Configure (o : ServerOptions) (i : Option) : ServerOptions :=
  match i with
  | PanicRecovery b => o <| so_PanicRecovery := b |>
  | PreventOrphanServiceTasks => o <| so_AllowOrphanServiceTasks := true |>
  | Concurrency n => o <| so_Concurrency := n |>
  | WithApiAuthorizer f => o <| so_ApiAuthorizer := f |>
  | WithAuthentication f => o <| so_ApiAuthenticator := f |>
  | WithNoHealthServer => o <| so_HealthServiceEnabled := false |>
  | WithSharVersion v => o <| so_SharVersion := v |>
  | NatsUrl u => o <| so_NatsUrl := u |>
  | GrpcPort p => o <| so_GrpcPort := p |>
  | WithTelemetryEndpoint e =>
      o <| so_TelemetryConfig := mkTelemetryConfig (negb (bool_decide (e = ""))) e |>
  | WithShowSplash => o <| so_ShowSplash := true |>
  | WithJetStreamDomain d => o <| so_JetStreamDomain := d |>
  end.

(** The options a server starts from; [version] is the release of its build. *)
Definition defaultServerOptions (version : string) : ServerOptions :=
  mkServerOptions true true 6 (Some noopAuthZ) noopAuthN true version "" 0
    (mkTelemetryConfig false "") true "".

Definition serverOptions (version : string) (options : list Option) : ServerOptions :=
  foldl Configure (defaultServerOptions version) options.

Record NatsConnConfiguration := mkNatsConnConfiguration {
  nc_StorageType : StorageType;
  nc_JetStreamDomain : string }.

(** What is made: the options, the stores that are open, the engine's settings. *)
Record Made := mkMade {
  md_options : ServerOptions;
  md_sharKvs : gmap string (gmap Bucket KeyValueConfig);
  md_concurrency : Z;
  md_allowOrphanServiceTasks : bool }.

Section boot.
Context `{Env} `{VersionLib}.

(** The release, the YAML of the configuration after parsing, the libraries of the
    telemetry timer, and whether the cache can be created. *)
Context (version : string) (natsConfig : NatsConfig) (consumer_Info : World → string → ConsumerInfo)
  (cache_error : option error).

Definition accountInfo : M unit := nats (λ w, (w, Ok tt)).

Definition ConnectNats (natsVersion jetstreamDomain : string) (ephemeralStorage : bool) :
    M NatsConnConfiguration :=
  _ ← wrapping (Wrap "connect to NATS") (natsConnect natsVersion);
  txConn ← wrapping (Wrap "connect to NATS") (natsConnect natsVersion);
  _ ← wrapping (Wrap "check NATS version") (CheckVersion txConn);
  _ ← wrapping (Wrap "connect to JetStream") jetstreamNew;
  _ ← wrapping (Wrap "get NATS account information") accountInfo;
  let store := if ephemeralStorage then MemoryStorage else FileStorage in
  mret (mkNatsConnConfiguration store jetstreamDomain).

(** With a domain or without, each of the two connections is one call. *)
Definition NewNatsService (nc : NatsConnConfiguration) : DM (gmap string (gmap Bucket KeyValueConfig)) :=
  let ns := "default" in
  _ ← wrapping (Wrap "connect to jetstream") (in_world jetstreamNew);
  _ ← wrapping (Wrap "connect to tx jetstream") (in_world jetstreamNew);
  _ ← wrapping (Wrap "set up nats queue insfrastructure")
        (in_jetstream (Nats version natsConfig (nc_StorageType nc) true ns));
  nKvs ← wrapping (Wrap "failed to init kvs for ns")
           (in_jetstream (initNamespacedKvs ns (nc_StorageType nc) natsConfig));
  mret {[ns := nKvs]}.

Definition NewOperations : DM unit :=
  match cache_error with Some err => throw (Wrap "create ristretto cache" err) | None => mret tt end.

(** The engine keeps the concurrency and the permission of orphans. *)
Definition New_engine (options : ServerOptions) : DM (Z * bool) :=
  if bool_decide (so_Concurrency options < 1)%Z || bool_decide (so_Concurrency options > 200)%Z
  then throw (Wrap "invalid concurrency" (New "invalid concurrency set"))
  else
    _ ← wrapping (Wrap "start telemetry") (in_world (startTelemetry consumer_Info "default"));
    mret (so_Concurrency options, so_AllowOrphanServiceTasks options).

(** [New] *)
Definition make_server (nc : NatsConnConfiguration) (options : list Option) : DM Made :=
  let o := serverOptions version options in
  natsService ← wrapping (Wrap "create natsService") (NewNatsService nc);
  _ ← wrapping (Wrap "create workflow Operations") NewOperations;
  engine ← wrapping (Wrap "create workflow engine") (New_engine o);
  mret (mkMade o natsService engine.1 engine.2).
End boot.

(** ** Options *)

(** The values of the options that set a field, in their order. *)
Definition concurrencies (options : list Option) : list Z :=
  omap (λ i, match i with Concurrency n => Some n | _ => None end) options.
Definition authorizers (options : list Option) : list (option APIFunc) :=
  omap (λ i, match i with WithApiAuthorizer f => Some f | _ => None end) options.
Definition authenticators (options : list Option) : list AuthCheck :=
  omap (λ i, match i with WithAuthentication f => Some f | _ => None end) options.

(** The checks of callers of a server, for the library functions of [e]. *)
Definition server_ApiEnv (o : ServerOptions) (e : ApiEnv) : ApiEnv := {|
  apiAuthNFn := so_ApiAuthenticator o; apiAuthZFn := so_ApiAuthorizer o; NewVersion := @NewVersion e;
  compatibleVersion := @compatibleVersion e; headers_unmarshal := @headers_unmarshal e; Error_ := @Error_ e |}.

(** The last option that sets the concurrency, the authorization or the
    authentication wins.  Without the last two every caller may do everything.
    And whatever the options, orphans are allowed: [PreventOrphanServiceTasks] has
    no effect. *)
Theorem options_last_win version options :
  let o := serverOptions version options in
  so_Concurrency o = default 6%Z (last (concurrencies options)) ∧
  so_ApiAuthorizer o = default (Some noopAuthZ) (last (authorizers options)) ∧
  so_ApiAuthenticator o = default noopAuthN (last (authenticators options)) ∧
  so_AllowOrphanServiceTasks o = true ∧
  (authorizers options = [] → authenticators options = [] →
   ∀ e fn ctx name, @authorize (server_ApiEnv o e) fn ctx name = (ctx, None)).
Proof.
  intros o. assert (so_Concurrency o = default 6%Z (last (concurrencies options)) ∧
    so_ApiAuthorizer o = default (Some noopAuthZ) (last (authorizers options)) ∧
    so_ApiAuthenticator o = default noopAuthN (last (authenticators options)) ∧
    so_AllowOrphanServiceTasks o = true) as (Hc & Hz & Hn & Ho).
  { subst o. unfold serverOptions, concurrencies, authorizers, authenticators.
    induction options as [|i options IH] using rev_ind; [done|]. destruct IH as (IH1 & IH2 & IH3 & IH4).
    rewrite foldl_app, !omap_app, !last_app. by destruct i; simpl; rewrite ?last_snoc. }
  split_and!; [done..|]. intros Hnz Hnn e fn ctx name. rewrite Hnz in Hz. rewrite Hnn in Hn.
  unfold authorize, authenticate. simpl. by rewrite Hz, Hn.
Qed.

(** ** What a server that is made has *)
Section made.
Context `{EnvOk} `{VersionLib} (version : string) (natsConfig : NatsConfig)
  (consumer_Info : World → string → ConsumerInfo) (cache_error : option error).

Lemma ends_any {E S A} (m : gom E S A) : ends m (λ _ _, True).
Proof. intros s. unfold runs. by destruct (m s).2. Qed.

Lemma ends_in_jetstream {A} (m : JM A) Q : ends m Q → ends (in_jetstream m) (λ s a, Q (di_js s) a).
Proof. intros Hm s. exact (Hm (di_js s)). Qed.

(** Opening the stores reads the buckets; what is open is what is there. *)
Lemma open_stores l acc s :
  runs (for_fold l (λ (nKvs : gmap Bucket KeyValueConfig) (e : string * Bucket),
    kv ← wrapping (Wrap "open KV") (js_KeyValue e.1); mret (<[e.2 := kv]> nKvs)) acc) s
    (λ s' r, match r with
     | Ok kvs => js_buckets s' = js_buckets s ∧
         ∀ b, (∃ k, (k, b) ∈ l ∧ kvs !! b = js_buckets s !! k ∧ is_Some (kvs !! b)) ∨
              (∀ k, (k, b) ∉ l) ∧ kvs !! b = acc !! b
     | _ => True
     end).
Proof.
  revert acc s. induction l as [|[k b] l IH]; intros acc s; simpl.
  { apply runs_ret. split; [done|]. intros b. right. split; [|done]. by intros k ?%not_elem_of_nil. }
  apply runs_bind, runs_bind, runs_wrapping. unfold js_KeyValue, js_call, runs at 1.
  destruct (nats_fault (js_tick s)) as [[e []]|]; [done..|]. simpl.
  destruct (js_buckets s !! k) as [kv|] eqn:Hk; [|done]. apply runs_ret.
  eapply runs_mono; [|apply IH]. intros s' [kvs|e|p]; [|done..]. intros [Hs Hb]. split; [done|].
  intros b'. destruct (Hb b') as [(k' & Hin & Hv & Hi)|[Hn Hv]].
  - left. exists k'. split; [by right|done].
  - destruct (decide (b' = b)) as [->|Hne].
    + left. exists k. rewrite lookup_insert_eq in Hv. split; [by left|]. rewrite Hv. simpl in *. split; [done|by eexists].
    + right. rewrite lookup_insert_ne in Hv by done. split; [|done].
      intros k' [[= _ ->]|Hin]%elem_of_cons; [done|]. by apply (Hn k').
Qed.

Definition open_on (ns : string) (kvs : gmap Bucket KeyValueConfig) (s : JetStream) : Prop :=
  ∀ b, is_Some (kvs !! b) ∧ kvs !! b = js_buckets s !! PrefixWith ns (KvName b).

Lemma ends_initNamespacedKvs ns st :
  ends (initNamespacedKvs ns st natsConfig) (λ s kvs, open_on ns kvs s).
Proof.
  unfold initNamespacedKvs. eapply ends_bind; [apply ends_any|].
  intros s _ _. apply runs_bind. unfold js_range, runs at 1. simpl.
  set (l := map_order _ _ _). assert (l ≡ₚ map_to_list (kv_names ns)) as Hl by apply map_order_perm.
  eapply runs_mono; [|apply open_stores]. intros s' [kvs|e|p]; [|done..]. intros [Hs Hb] b.
  destruct (Hb b) as [(k & Hin & Hv & Hi)|[Hn _]].
  - rewrite Hl in Hin. apply elem_of_map_to_list, kv_names_spec in Hin as ->. by rewrite Hs.
  - destruct (Hn (PrefixWith ns (KvName b))). rewrite Hl. apply elem_of_map_to_list, kv_names_all.
Qed.

Lemma le_initNamespacedKvs ns st : preserves js_le (initNamespacedKvs ns st natsConfig).
Proof.
  unfold initNamespacedKvs. preserves_tac; [apply le_EnsureBuckets|by intros s|apply le_js_KeyValue].
Qed.

Lemma ends_NewNatsService nc :
  ends (NewNatsService version natsConfig nc) (λ s kvs,
    Forall (λ stream, stream_there stream (di_js s)) (nc_Streams natsConfig) ∧
    ∃ k, kvs !! "default" = Some k ∧ open_on "default" k (di_js s)).
Proof.
  unfold NewNatsService. eapply ends_bind; [apply ends_any|]. intros s1 _ _.
  apply runs_bind. eapply runs_mono; [|apply ends_any]. intros s2 [_|e|p] _; [|done..].
  apply runs_bind, runs_wrapping. unfold in_jetstream at 1, runs at 1. cbn [fst snd].
  pose proof (Nats_sets_up version natsConfig (nc_StorageType nc) true "default" (di_js s2)) as Hn.
  destruct (Nats _ _ _ _ _ _) as [j1 [[]|e|p]]; [|done..]. cbn [fst snd].
  destruct Hn as [_ Hn]. destruct (Hn eq_refl) as [Hst _].
  apply runs_bind, runs_wrapping. unfold in_jetstream, runs at 1. cbn [fst snd].
  pose proof (ends_initNamespacedKvs "default" (nc_StorageType nc) j1) as Hk.
  pose proof (le_initNamespacedKvs "default" (nc_StorageType nc) j1) as Hle.
  unfold runs in Hk. simpl. destruct (initNamespacedKvs _ _ _ j1) as [j2 [k|e|p]]; [|done..]. simpl in *.
  apply runs_ret. split.
  - eapply Forall_impl; [exact Hst|]. intros x. by apply stream_there_le.
  - exists k. split; [by rewrite lookup_singleton_eq|done].
Qed.

Lemma New_engine_spec o s :
  runs (New_engine consumer_Info o) s (λ s' r, match r with
    | Ok e => e.1 = so_Concurrency o ∧ (1 ≤ so_Concurrency o ≤ 200)%Z ∧ di_js s' = di_js s
    | _ => True end).
Proof.
  unfold New_engine. repeat case_bool_decide; simpl; try (by apply runs_throw).
  apply runs_bind, runs_wrapping. unfold in_world, runs at 1. simpl.
  destruct (startTelemetry consumer_Info "default" (di_world s)) as [w [[]|e|p]]; simpl; [|done..].
  apply runs_ret. simpl. split_and!; [done|lia|lia|done].
Qed.

(** (C30) Whatever fails, a server that is made has every stream and consumer of the
    configuration, and every store of the default namespace open on its own
    bucket; its concurrency is the one of the options, from 1 to 200. *)
Theorem made_server_is_set_up nc options s s' m :
  make_server version natsConfig consumer_Info cache_error nc options s = (s', Ok m) →
  md_options m = serverOptions version options ∧
  md_concurrency m = so_Concurrency (md_options m) ∧ (1 ≤ md_concurrency m ≤ 200)%Z ∧
  Forall (λ stream, stream_there stream (di_js s')) (nc_Streams natsConfig) ∧
  ∃ kvs, md_sharKvs m !! "default" = Some kvs ∧ open_on "default" kvs (di_js s').
Proof.
  intros Hm.
  enough (ends (make_server version natsConfig consumer_Info cache_error nc options) (λ s' m,
    md_options m = serverOptions version options ∧
    md_concurrency m = so_Concurrency (md_options m) ∧ (1 ≤ md_concurrency m ≤ 200)%Z ∧
    Forall (λ stream, stream_there stream (di_js s')) (nc_Streams natsConfig) ∧
    ∃ kvs, md_sharKvs m !! "default" = Some kvs ∧ open_on "default" kvs (di_js s'))) as He.
  { specialize (He s). unfold runs in He. by rewrite Hm in He. }
  unfold make_server. eapply ends_bind; [apply ends_wrapping, ends_NewNatsService|].
  intros s1 kvs (Hst & Hk). apply runs_bind. unfold NewOperations.
  destruct cache_error; [apply runs_wrapping, runs_throw; done|]. apply runs_wrapping, runs_ret.
  apply runs_bind, runs_wrapping. eapply runs_mono; [|apply New_engine_spec].
  intros s2 [[n b]|e|p]; [|done..]. intros (-> & Hn & Hs). apply runs_ret. simpl.
  rewrite Hs. split_and!; [done..|tauto|tauto|done|done].
Qed.
End made.

(** ** Examples *)
Definition ex_idle (_ : @World sim) (_ : string) : ConsumerInfo := mkConsumerInfo 0 0 0.
Definition ex_server_config : NatsConfig :=
  mkNatsConfig [mkNatsStream (mkStreamConfig "WORKFLOW" "" [] FileStorage ∅)
    [mkConsumerConfig "" "Traversal" "WORKFLOW.*.State.Traversal.Execute" false ∅]] natsConfig_buckets.
Definition ex_making (options : list Option) : @Dialling sim * res error Made :=
  @make_server sim sim_versions "v1.1.670" ex_server_config ex_idle None (mkNatsConnConfiguration FileStorage "")
    options (@mkDialling sim (world_init <| w_consumers := {["TelemetryTimerConsumer"]} |>)
       (mkJetStream 0 ∅ ∅ ∅ [])).

(** More than 200 threads are refused, but only after the set-up. *)
Lemma too_concurrent :
  (ex_making [Concurrency 201]).2 =
    Err (Wrap "create workflow engine" (Wrap "invalid concurrency" (New "invalid concurrency set"))) ∧
  is_Some (js_buckets (di_js (ex_making [Concurrency 201]).1) !! "default_WORKFLOW_DEF").
Proof. split; [by vm_compute|]. apply (bool_decide_unpack _). by vm_compute. Qed.

Lemma made_server_is_set_up_witness :
  ∃ s' m, ex_making [Concurrency 10] = (s', Ok m) ∧ (1 ≤ md_concurrency m ≤ 200)%Z ∧
    ∃ kvs, md_sharKvs m !! "default" = Some kvs ∧ open_on "default" kvs (di_js s').
Proof.
  assert (match (ex_making [Concurrency 10]).2 with Ok _ => True | _ => False end) as Hok by (vm_compute; exact I).
  destruct (ex_making [Concurrency 10]) as [s' [m|e|p]] eqn:Hm; [|destruct Hok..].
  destruct (@made_server_is_set_up sim (Sim_ok _ _ _) sim_versions _ _ _ _ _ _ _ _ _ Hm) as (_ & _ & Hn & _ & Hk).
  exists s', m. split; [reflexivity|]. split; [exact Hn|exact Hk].
Defined.

Lemma options_last_win_witness :
  @authorize (server_ApiEnv (serverOptions "v1" [Concurrency 8; PreventOrphanServiceTasks]) ex_server)
    "WORKFLOW.Api.StoreWorkflow" Background "orders" = (Background, None).
Proof. by apply (options_last_win "v1" [Concurrency 8; PreventOrphanServiceTasks]). Defined.
