(* ===== verification/TelemetryServer.v ===== *)
(** * Starting the telemetry server

    [New] and [Listen] of [telemetry/server/server.go]: a telemetry server sets up a
    stream of its own, which copies the states the engine publishes, with one
    consumer; attaches itself to the bucket of tracking states; and takes the
    messages one at a time ([Telemetry.trace_all]).

    [telemetry_server_is_set_up]: whatever fails, a server that is started has all
    of that. *)
From S2P Require Import Prelude Model Errors Env Sim Common Wp NatsUtil Once Vars Publish History Instances TaskSpec Store Launch Jobs Process Api Calls ClientTask Client Worker Work Listening Setup Dialing Boot.

(** [nats-config.yaml] *)
Definition telemetry_config : NatsConfig :=
  mkNatsConfig
    [mkNatsStream
       (mkStreamConfig "WORKFLOW_TELEMETRY" "" ["WORKFLOW_TELEMETRY.>"] FileStorage ∅)
       [mkConsumerConfig "" "Tracing" "WORKFLOW.*.State.>" false ∅]]
    [mkKeyValueConfig "WORKFLOW_TRACKING" "" FileStorage 0].

Section telemetry_server.
Context `{Env} `{VersionLib} (version : string).

(** [New], up to the counters. *)
Definition New_telemetry (storageType : StorageType) : DM unit :=
  r ← attempt (in_jetstream (Nats version telemetry_config storageType true "default"));
  match r with inr _ => panic "panic(err)" | inl _ => mret tt end.

(** [Listen]: the closer is a channel of its own that nothing closes. *)
Definition Listen_telemetry : DM (KeyValueConfig * (started * option error)) :=
  kv ← wrapping (Wrap "listen failed to attach to tracking key value database")
         (in_jetstream (js_KeyValue (PrefixWith "default" (KvName WfTracking))));
  p ← in_world (start_Process "Tracing" 1);
  mret (kv, (p.1, Wrap "listen failed to start telemetry handler" <$> p.2)).

Definition start_telemetry (storageType : StorageType) : DM (KeyValueConfig * (started * option error)) :=
  _ ← New_telemetry storageType; Listen_telemetry.
End telemetry_server.

Section telemetry_server_facts.
Context `{EnvOk} `{VersionLib} (version : string).

(** [Process] for one goroutine starts it, or nothing. *)
Lemma start_one durable w :
  match (start_Process durable 1 w).2 with
  | Ok (st, None) => st = mkStarted 1 true
  | Ok (st, Some _) => st = mkStarted 0 false
  | _ => True
  end.
Proof.
  unfold start_Process, mbind, gom_bind. cbn [open_receivers]. unfold mbind, gom_bind, attempt.
  by destruct (open_receiver durable w) as [w' [[]|e|p]].
Qed.

(** Whatever fails, a telemetry server that listens has its stream with the
    consumer of traces and is attached to its bucket; and either one goroutine
    takes the messages, for as long as the process runs, or none does. *)
Theorem telemetry_server_is_set_up storageType s s' kv st err :
  start_telemetry version storageType s = (s', Ok (kv, (st, err))) →
  Forall (λ stream, stream_there stream (di_js s')) (nc_Streams telemetry_config) ∧
  js_buckets (di_js s') !! "default_WORKFLOW_TRACKING" = Some kv ∧
  st = (if decide (err = None) then mkStarted 1 true else mkStarted 0 false) ∧
  ∀ l, rtc (loops_step false) (loops_start st) l → Forall (λ p, p ≠ Gone) (lp_receivers l).
Proof.
  intros Hr.
  enough (ends (start_telemetry version storageType) (λ s' r,
    Forall (λ stream, stream_there stream (di_js s')) (nc_Streams telemetry_config) ∧
    js_buckets (di_js s') !! "default_WORKFLOW_TRACKING" = Some r.1 ∧
    r.2.1 = (if decide (r.2.2 = None) then mkStarted 1 true else mkStarted 0 false))) as He.
  { specialize (He s). unfold runs in He. rewrite Hr in He. destruct He as (Hs & Hk & Hst).
    split_and!; [done..|]. intros l Hl. eapply never_stopped; [|exact Hl]. by right. }
  clear. unfold start_telemetry. intros s. apply runs_bind. unfold New_telemetry.
  apply runs_bind. unfold attempt, in_jetstream, runs at 1. cbn [fst snd].
  pose proof (Nats_sets_up version telemetry_config storageType true "default" (di_js s)) as Hn.
  destruct (Nats _ _ _ _ _ _) as [j [[]|e|p]]; cbn [fst snd]; [|done..].
  destruct Hn as [_ Hn]. destruct (Hn eq_refl) as [Hst _]. clear Hn.
  apply runs_ret. unfold Listen_telemetry. apply runs_bind, runs_wrapping. unfold in_jetstream, runs at 1, js_KeyValue, js_call.
  cbn [fst snd di_js di_world]. destruct (nats_fault (js_tick j)) as [[e []]|]; [done..|].
  change (PrefixWith "default" (KvName WfTracking)) with "default_WORKFLOW_TRACKING". simpl.
  destruct (js_buckets j !! "default_WORKFLOW_TRACKING") as [kv|] eqn:Hk; [|done].
  apply runs_bind. unfold in_world, runs at 1. cbn [fst snd di_world di_js].
  pose proof (start_one "Tracing" (di_world s)) as Ho.
  destruct (start_Process "Tracing" 1 (di_world s)) as [w [[st err]|e|p]]; cbn [fst snd] in *; [|done..].
  apply runs_ret. cbn [fst snd di_js]. split_and!; [|done|by destruct err].
  exact Hst.
Qed.
End telemetry_server_facts.

Definition ex_tracing : @Dialling sim * res error (KeyValueConfig * (started * option error)) :=
  @start_telemetry sim sim_versions "v1.1.670" FileStorage
    (@mkDialling sim (world_init <| w_consumers := {["Tracing"]} |>) (mkJetStream 0 ∅ ∅ ∅ [])).

Lemma telemetry_server_is_set_up_witness :
  ∃ s' kv, ex_tracing = (s', Ok (kv, (mkStarted 1 true, None))) ∧
    js_buckets (di_js s') !! "default_WORKFLOW_TRACKING" = Some kv.
Proof.
  assert (match ex_tracing.2 with Ok (_, (_, None)) => True | _ => False end) as Hok by (vm_compute; exact I).
  destruct ex_tracing as [s' [[kv [st [err|]]]|e|p]] eqn:Hr; [destruct Hok| |destruct Hok..].
  destruct (@telemetry_server_is_set_up sim sim_versions _ _ _ _ _ _ _ Hr) as (_ & Hk & Hst & _).
  exists s', kv. split; [rewrite Hst; reflexivity|exact Hk].
Defined.
