(* ===== verification/Streaming.v ===== *)
(** * Streamed replies

    [StreamingReplyServer] and [StreamingReplyClient] of [common/natsutil.go]
    and [callAPIReturnStream] of [server/api/listener.go]: an endpoint of the API
    that answers with many messages.  Its function, the pump between its channels
    and the subscription's, the loop of the subscription, the callback of the
    client's subscription, the client's loop and the goroutine that sends a
    cancellation run concurrently; a state of the model is where each of them is
    and what is in the channels and on the wire, and a transition is one
    communication between two of them.  Channels without a buffer pass a value
    when both sides are ready; the error channels hold one value.  The messages
    of NATS from one publisher to one subscription keep their order. *)
From S2P Require Import Prelude.

(** What the function of an endpoint sends, in order. *)
Inductive output (A : Type) := Item (a : A) | Fail_ (e : string).
Arguments Item {A} a.
Arguments Fail_ {A} e.

(** What goes to the reply inbox: a result, or the header [STR_ERR]. *)
Inductive frame (A : Type) := Data_ (a : A) | STR_ERR (e : string) | STR_EOF.
Arguments Data_ {A} a.
Arguments STR_ERR {A} e.
Arguments STR_EOF {A}.

(** What goes through [retErr]. *)
Inductive ret_err := RetErr (e : string) | ErrStreamCancel.

(** The errors of the client's callback. *)
Inductive callback_error := CallbackCancel | CallbackError (e : string).

(** [callAPIReturnStream]: waiting for the function, sending a result or an
    error on, returned, and with [retErr] closed behind it. *)
Inductive pump_state (A : Type) := PWait | PItem (a : A) | PErr (e : string) | PDone | PClosed.
Arguments PWait {A}.
Arguments PItem {A} a.
Arguments PErr {A} e.
Arguments PDone {A}.
Arguments PClosed {A}.

(** The client's loop: running, between [close(cancel)] and [ctxCancel()], and
    returned. *)
Inductive main_state := MRun | MCancelling (r : option string) | MDone (r : option string).

Record Sys (A : Type) := mkSys {
  fn_todo : list (output A);      (* what the endpoint's function will still send *)
  fn_closed : bool;               (* iErrs is closed *)
  iErrs : option string;
  pump : pump_state A;
  retErr : option ret_err;
  retErr_closed : bool;
  loop : bool;                    (* the loop of the subscription runs *)
  wire : list (frame A);          (* to the reply inbox *)
  cancel_wire : bool;             (* a message to the cancel inbox *)
  crashed : bool;                 (* the server has panicked *)
  cb : option A;                  (* the client's callback is sending on ret *)
  errs : option string;
  errs_closed : bool;
  main : main_state;
  cancel_closed : bool;
  ctx_done : bool;
  canceller : bool;               (* the goroutine that waits to cancel *)
  calls : list A }.               (* what fn has been called with *)
Arguments mkSys {A}.
Arguments fn_todo {A}. Arguments fn_closed {A}. Arguments iErrs {A}. Arguments pump {A}.
Arguments retErr {A}. Arguments retErr_closed {A}. Arguments loop {A}. Arguments wire {A}.
Arguments cancel_wire {A}. Arguments crashed {A}. Arguments cb {A}. Arguments errs {A}.
Arguments errs_closed {A}. Arguments main {A}. Arguments cancel_closed {A}.
Arguments ctx_done {A}. Arguments canceller {A}. Arguments calls {A}.

#[export] Instance Sys_settable A : Settable (Sys A) := λ s,
  mkSys (fn_todo s) (fn_closed s) (iErrs s) (pump s) (retErr s) (retErr_closed s) (loop s) (wire s)
    (cancel_wire s) (crashed s) (cb s) (errs s) (errs_closed s) (main s) (cancel_closed s)
    (ctx_done s) (canceller s) (calls s).

Section streaming.
Context {A : Type}.

(** A request has been received. *)
Definition start (outputs : list (output A)) : Sys A :=
  mkSys outputs false None PWait None false true [] false false None None false MRun false false
    true [].

(** The client's callback [fn], by what it has been called with before. *)
Context (fn : list A → A → option callback_error).

(** What the client's loop does with a result. *)
Definition take_result (s : Sys A) (a : A) : Sys A :=
  let s' := s <| calls ::= λ l, l ++ [a] |> <| cb := None |> in
  match fn (calls s) a with
  | None => s'
  | Some CallbackCancel => s' <| cancel_closed := true |> <| main := MCancelling None |>
  | Some (CallbackError e) => s' <| cancel_closed := true |> <| main := MCancelling (Some e) |>
  end.

(** *** Server *)
Inductive server_step : Sys A → Sys A → Prop :=
  | fn_sends s a l :
      fn_todo s = Item a :: l → pump s = PWait →
      server_step s (s <| fn_todo := l |> <| pump := PItem a |>)
  | fn_fails s e l :
      fn_todo s = Fail_ e :: l → iErrs s = None →
      server_step s (s <| fn_todo := l |> <| iErrs := Some e |>)
  | fn_returns s :
      fn_todo s = [] → fn_closed s = false → server_step s (s <| fn_closed := true |>)
  | pump_error s e :
      pump s = PWait → iErrs s = Some e →
      server_step s (s <| iErrs := None |> <| pump := PErr e |>)
  | pump_closed s :
      pump s = PWait → iErrs s = None → fn_closed s = true → server_step s (s <| pump := PDone |>)
  | pump_fails s e :
      pump s = PErr e → retErr s = None →
      server_step s (s <| retErr := Some (RetErr e) |> <| pump := PDone |>)
  | pump_returns s :
      pump s = PDone → server_step s (s <| retErr_closed := true |> <| pump := PClosed |>)
  | loop_result s a :
      loop s = true → pump s = PItem a →
      server_step s (s <| wire ::= λ l, l ++ [Data_ a] |> <| pump := PWait |>)
  | loop_error s e :
      loop s = true → retErr s = Some (RetErr e) →
      server_step s (s <| retErr := None |> <| wire ::= λ l, l ++ [STR_ERR e] |> <| loop := false |>)
  | loop_cancelled s :
      loop s = true → retErr s = Some ErrStreamCancel →
      server_step s (s <| retErr := None |> <| loop := false |>)
  | loop_eof s :
      loop s = true → retErr s = None → retErr_closed s = true →
      server_step s (s <| wire ::= λ l, l ++ [STR_EOF] |> <| loop := false |>)
  (* the callback of the cancel inbox, as long as it is subscribed *)
  | cancel_received s :
      loop s = true → cancel_wire s = true → retErr_closed s = false → retErr s = None →
      server_step s (s <| cancel_wire := false |> <| retErr := Some ErrStreamCancel |>)
  | cancel_on_closed s :
      loop s = true → cancel_wire s = true → retErr_closed s = true →
      server_step s (s <| cancel_wire := false |> <| crashed := true |>).

(** *** Client *)
Inductive client_step : Sys A → Sys A → Prop :=
  | receive_result s a l :
      (∀ r, main s ≠ MDone r) → wire s = Data_ a :: l → cb s = None →
      client_step s (s <| wire := l |> <| cb := Some a |>)
  | receive_error s e l :
      (∀ r, main s ≠ MDone r) → wire s = STR_ERR e :: l → cb s = None →
      client_step s (s <| wire := l |> <| errs := Some e |> <| errs_closed := true |>
                       <| ctx_done := true |>)
  | receive_eof s l :
      (∀ r, main s ≠ MDone r) → wire s = STR_EOF :: l → cb s = None →
      client_step s (s <| wire := l |> <| errs_closed := true |> <| ctx_done := true |>)
  | main_result s a :
      main s = MRun → cb s = Some a → client_step s (take_result s a)
  | main_cancels s r :
      main s = MCancelling r → client_step s (s <| ctx_done := true |> <| main := MDone r |>)
  | main_error s e :
      main s = MRun → errs s = Some e →
      client_step s (s <| errs := None |> <| main := MDone (Some e) |> <| ctx_done := true |>)
  | main_eof s :
      main s = MRun → errs s = None → errs_closed s = true →
      client_step s (s <| main := MDone None |> <| ctx_done := true |>)
  | canceller_sends s :
      canceller s = true → cancel_closed s = true →
      client_step s (s <| cancel_wire := true |> <| ctx_done := true |> <| canceller := false |>)
  | canceller_quits s :
      canceller s = true → ctx_done s = true → client_step s (s <| canceller := false |>).

(** A server that has panicked is gone. *)
Inductive stream_step : Sys A → Sys A → Prop :=
  | on_server s s' : crashed s = false → server_step s s' → stream_step s s'
  | on_client s s' : client_step s s' → stream_step s s'.

End streaming.

(** ** Where a stream can be

    The results of the function are [results], its error, if it ends with one,
    is [failure]. *)
Section stream_facts.
Context {A : Type} (fn : list A → A → option callback_error).
Context (results : list A) (failure : option string).

Definition outputs : list (output A) :=
  map Item results ++ match failure with Some e => [Fail_ e] | None => [] end.

Definition last_frame : frame A := match failure with Some e => STR_ERR e | None => STR_EOF end.

Definition in_pump (p : pump_state A) : list A := match p with PItem a => [a] | _ => [] end.
Definition in_cb (c : option A) : list A := match c with Some a => [a] | None => [] end.

(** The results on their way: called with, in the callback, on the wire, in the
    pump, still to be sent. *)
Definition flow (s : Sys A) (ds rest : list A) : Prop :=
  calls s ++ in_cb (cb s) ++ ds ++ in_pump (pump s) ++ rest = results.

(** The client before the last frame. *)
Definition client_running (s : Sys A) : Prop :=
  errs s = None ∧ errs_closed s = false ∧ main s = MRun ∧ cancel_closed s = false ∧
  ctx_done s = false ∧ canceller s = true.

Definition no_cancel (s : Sys A) : Prop := cancel_wire s = false ∧ crashed s = false.

(** The server before its last frame. *)
Definition server_running (s : Sys A) (ds : list A) : Prop :=
  loop s = true ∧ wire s = map Data_ ds ∧ client_running s ∧ no_cancel s.

Inductive phase (s : Sys A) : Prop :=
  (* the function runs, or has returned without an error *)
  | sending ds rest :
      server_running s ds → flow s ds rest →
      fn_todo s = map Item rest ++ match failure with Some e => [Fail_ e] | None => [] end →
      (fn_closed s = true → fn_todo s = []) →
      iErrs s = None → pump s = PWait ∨ (∃ a, pump s = PItem a) →
      retErr s = None → retErr_closed s = false → phase s
  (* its error is in iErrs *)
  | failed ds e :
      server_running s ds → flow s ds [] → fn_todo s = [] → failure = Some e → iErrs s = Some e →
      pump s = PWait ∨ (∃ a, pump s = PItem a) → retErr s = None → retErr_closed s = false → phase s
  (* in the pump *)
  | failing ds e :
      server_running s ds → flow s ds [] → fn_todo s = [] → failure = Some e → iErrs s = None →
      pump s = PErr e → retErr s = None → retErr_closed s = false → phase s
  (* in retErr *)
  | ending ds :
      server_running s ds → flow s ds [] → fn_todo s = [] → iErrs s = None →
      (pump s = PDone ∧ retErr_closed s = false) ∨ (pump s = PClosed ∧ retErr_closed s = true) →
      retErr s = RetErr <$> failure → phase s
  (* the last frame is on the wire *)
  | ended ds :
      loop s = false → wire s = map Data_ ds ++ [last_frame] → client_running s → no_cancel s →
      flow s ds [] → fn_todo s = [] → iErrs s = None → pump s = PDone ∨ pump s = PClosed →
      retErr s = None → phase s
  (* it is with the client *)
  | received :
      loop s = false → wire s = [] → no_cancel s → calls s = results → cb s = None →
      fn_todo s = [] → iErrs s = None → pump s = PDone ∨ pump s = PClosed → retErr s = None →
      errs s = failure → errs_closed s = true → main s = MRun → cancel_closed s = false → phase s
  (* the client has returned *)
  | returned :
      loop s = false → wire s = [] → no_cancel s → calls s = results → cb s = None →
      fn_todo s = [] → iErrs s = None → pump s = PDone ∨ pump s = PClosed → retErr s = None →
      errs s = None → main s = MDone failure → cancel_closed s = false → phase s.

Lemma phase_start : phase (start outputs).
Proof.
  apply (sending _ [] results); [done|done|done|done|done|by left|done|done].
Qed.

Context (Hfn : ∀ h a, fn h a = None).

(** The list of outputs that is left tells how many results are. *)
Lemma todo_item (rest : list A) a l :
  map Item rest ++ match failure with Some e => [Fail_ e] | None => [] end = Item a :: l →
  ∃ rest', rest = a :: rest' ∧
    l = map Item rest' ++ match failure with Some e => [Fail_ e] | None => [] end.
Proof. destruct rest as [|b rest]; simpl; [by destruct failure|]. intros [= -> <-]. by exists rest. Qed.

Lemma todo_fail (rest : list A) e l :
  map Item rest ++ match failure with Some e => [Fail_ e] | None => [] end = Fail_ e :: l →
  rest = [] ∧ l = [] ∧ failure = Some e.
Proof. destruct rest; simpl; [|done]. destruct failure; [|done]. by intros [= -> <-]. Qed.

Lemma todo_nil (rest : list A) :
  map Item rest ++ match failure with Some e => [Fail_ e] | None => [] end = ([] : list (output A)) →
  rest = [] ∧ failure = None.
Proof. destruct rest; simpl; [|done]. by destruct failure. Qed.

Ltac open_phase s :=
  destruct s; unfold server_running, client_running, no_cancel, flow in *;
  destruct_and?; simpl in *; subst.

Ltac close_flow := unfold flow; simpl; rewrite ?map_app, ?app_nil_r, <-?app_assoc; simpl; auto.

Lemma sending_server s s' ds rest :
  server_running s ds → flow s ds rest →
  fn_todo s = map Item rest ++ match failure with Some e => [Fail_ e] | None => [] end →
  (fn_closed s = true → fn_todo s = []) → iErrs s = None → pump s = PWait ∨ (∃ a, pump s = PItem a) →
  retErr s = None → retErr_closed s = false → server_step s s' → phase s'.
Proof.
  intros Hrun Hf Htodo Hclosed Hi Hpump Hr Hrc Hs. open_phase s.
  inversion Hs; simpl in *; subst; simplify_eq; try (by destruct Hpump as [?|[? ?]]).
  - match goal with Ht : _ = Item _ :: _ |- _ => apply todo_item in Ht as (rest' & -> & ->) end.
    eapply (sending _ ds rest'); try done; [|by right; eexists].
    intros Hc. simpl in *. match goal with H : _ = true → _ |- _ => by apply H in Hc end.
  - match goal with Ht : _ = Fail_ _ :: _ |- _ => apply todo_fail in Ht as (-> & -> & ->) end.
    by eapply (failed _ ds).
  - match goal with Ht : _ = [] |- _ => pose proof (todo_nil _ Ht) as [-> Hn] end.
    by eapply (sending _ ds []).
  - match goal with Hc : _ = true → _ |- _ => pose proof (todo_nil _ (Hc eq_refl)) as [-> Hn] end.
    eapply (ending _ ds); try done; [by rewrite Hn|by left|by rewrite Hn].
  - (* loop_result *)
    match goal with |- context [Data_ ?a] => eapply (sending _ (ds ++ [a]) rest) end;
      try done; [|close_flow|by left].
    split_and!; try done. simpl. by rewrite map_app.
Qed.

Lemma failed_server s s' ds e :
  server_running s ds → flow s ds [] → fn_todo s = [] → failure = Some e → iErrs s = Some e →
  pump s = PWait ∨ (∃ a, pump s = PItem a) → retErr s = None → retErr_closed s = false →
  server_step s s' → phase s'.
Proof.
  intros Hrun Hf Htodo He Hi Hpump Hr Hrc Hs. open_phase s.
  inversion Hs; simpl in *; subst; simplify_eq; try (by destruct Hpump as [?|[? ?]]).
  - by eapply (failed _ ds).
  - by eapply (failing _ ds).
  - match goal with |- context [Data_ ?a] => eapply (failed _ (ds ++ [a])) end;
      try done; [|close_flow|by left].
    split_and!; try done. simpl. by rewrite map_app.
Qed.

Lemma failing_server s s' ds e :
  server_running s ds → flow s ds [] → fn_todo s = [] → failure = Some e → iErrs s = None →
  pump s = PErr e → retErr s = None → retErr_closed s = false → server_step s s' → phase s'.
Proof.
  intros Hrun Hf Htodo He Hi Hpump Hr Hrc Hs. open_phase s.
  inversion Hs; simpl in *; subst; simplify_eq.
  - by eapply (failing _ ds).
  - eapply (ending _ ds); try done; [by left|by rewrite He].
Qed.

Lemma ending_server s s' ds :
  server_running s ds → flow s ds [] → fn_todo s = [] → iErrs s = None →
  (pump s = PDone ∧ retErr_closed s = false) ∨ (pump s = PClosed ∧ retErr_closed s = true) →
  retErr s = RetErr <$> failure → server_step s s' → phase s'.
Proof.
  intros Hrun Hf Htodo Hi Hpump Hr Hs. open_phase s.
  inversion Hs; simpl in *; subst; simplify_eq; destruct_or?; destruct_and?; simplify_eq;
    first [eapply (ending _ ds); done || (try done; first [by left|by right])
          |destruct failure as [err|] eqn:Hfail; simpl in *; simplify_eq;
           eapply (ended _ ds); try done; try first [by left|by right]; unfold last_frame; by rewrite Hfail].
Qed.

Lemma server_phase s s' : phase s → server_step s s' → phase s'.
Proof.
  intros Hp Hs. destruct Hp as [ds rest|ds e|ds e|ds|ds Hl Hw Hcl Hnc Hf Htodo Hi Hpump Hr
    |Hl Hw Hnc Hcalls Hcb Htodo Hi Hpump Hr|Hl Hw Hnc Hcalls Hcb Htodo Hi Hpump Hr].
  - by eapply sending_server.
  - by eapply failed_server.
  - by eapply failing_server.
  - by eapply ending_server.
  - open_phase s. inversion Hs; simpl in *; subst; simplify_eq; destruct_or?; simplify_eq;
      eapply (ended _ ds); try done; first [by left|by right].
  - open_phase s. inversion Hs; simpl in *; subst; simplify_eq; destruct_or?; simplify_eq;
      eapply received; try done; first [by left|by right].
  - open_phase s. inversion Hs; simpl in *; subst; simplify_eq; destruct_or?; simplify_eq;
      eapply returned; try done; first [by left|by right].
Qed.

Lemma last_data ds a l : map Data_ ds ++ [last_frame] = Data_ a :: l →
  ∃ ds', ds = a :: ds' ∧ l = map Data_ ds' ++ [last_frame].
Proof.
  destruct ds as [|b ds]; simpl; [unfold last_frame; by destruct failure|].
  intros [= -> <-]. by exists ds.
Qed.

Lemma all_data (ds : list A) f l : map Data_ ds = f :: l → ∃ a ds', ds = a :: ds' ∧ f = Data_ a ∧ l = map Data_ ds'.
Proof. destruct ds as [|b ds]; simpl; [done|]. intros [= <- <-]. by exists b, ds. Qed.

(** A step of the client leaves the server's side alone. *)
Definition same_server (s s' : Sys A) : Prop :=
  fn_todo s' = fn_todo s ∧ fn_closed s' = fn_closed s ∧ iErrs s' = iErrs s ∧ pump s' = pump s ∧
  retErr s' = retErr s ∧ retErr_closed s' = retErr_closed s ∧ loop s' = loop s ∧
  cancel_wire s' = cancel_wire s ∧ crashed s' = crashed s.

(** Before the last frame the client passes results on; then it takes the last
    frame, when no result is left. *)
Lemma client_before s s' ds tl rest :
  client_running s → wire s = map Data_ ds ++ tl → tl = [] ∨ tl = [last_frame] → flow s ds rest →
  client_step fn s s' →
  same_server s s' ∧
  ((∃ ds', flow s' ds' rest ∧ client_running s' ∧ wire s' = map Data_ ds' ++ tl) ∨
   (ds = [] ∧ tl = [last_frame] ∧ cb s = None ∧ wire s' = [] ∧ calls s' = calls s ∧ cb s' = None ∧
    errs s' = failure ∧ errs_closed s' = true ∧ main s' = MRun ∧ cancel_closed s' = false)).
Proof.
  intros Hrun Hw Htl Hf Hs. open_phase s. inversion Hs; simpl in *; subst; simplify_eq.
  - split; [done|]. left. destruct ds as [|b ds]; simpl in *.
    + destruct Htl as [->| ->]; [done|]. unfold last_frame in *. by destruct failure; simplify_eq.
    + simplify_eq. exists ds. done.
  - split; [done|]. right. destruct ds as [|b ds]; simpl in *; [|done].
    destruct Htl as [->| ->]; [done|]. unfold last_frame in *. destruct failure; by simplify_eq.
  - split; [done|]. right. destruct ds as [|b ds]; simpl in *; [|done].
    destruct Htl as [->| ->]; [done|]. unfold last_frame in *. destruct failure; by simplify_eq.
  - unfold take_result. simpl. rewrite Hfn. split; [done|]. left. exists ds. split_and!; try done.
    simpl. by rewrite <-app_assoc.
Qed.

Lemma client_phase s s' : phase s → client_step fn s s' → phase s'.
Proof.
  intros Hp Hs.
  assert (∀ ds rest, loop s = true → wire s = map Data_ ds → client_running s → no_cancel s → flow s ds rest →
    same_server s s' ∧ ∃ ds', server_running s' ds' ∧ flow s' ds' rest) as Hrun.
  { intros ds rest Hl Hw Hcl [Hc1 Hc2] Hf.
    destruct (client_before s s' ds [] rest) as [Hss [(ds' & Hf' & Hcl' & Hw')|(_ & [=] & _)]];
      [done|by rewrite app_nil_r|by left|done|done|].
    split; [done|]. destruct Hss as (_&_&_&_&_&_&Hl'&Hc1'&Hc2'). exists ds'. split; [|done].
    rewrite app_nil_r in Hw'. split_and!; [by rewrite Hl'|done|done|]. split; by rewrite ?Hc1', ?Hc2'. }
  destruct Hp as [ds rest (?&?&?&?) Hf Ht Hc Hi Hpu Hr Hrc|ds e (?&?&?&?) Hf Ht He Hi Hpu Hr Hrc
    |ds e (?&?&?&?) Hf Ht He Hi Hpu Hr Hrc|ds (?&?&?&?) Hf Ht Hi Hpu Hr|ds Hl Hw Hcl Hnc Hf Htodo Hi Hpump Hr
    |Hl Hw Hnc Hcalls Hcb Htodo Hi Hpump Hr He Hec Hm Hcc|Hl Hw Hnc Hcalls Hcb Htodo Hi Hpump Hr He Hm Hcc].
  1-4: edestruct Hrun as [(E1&E2&E3&E4&E5&E6&E7&E8&E9) (ds' & Hrun' & Hf')]; [done..|].
  - apply (sending _ ds' rest); by rewrite ?E1, ?E2, ?E3, ?E4, ?E5, ?E6.
  - apply (failed _ ds' e); by rewrite ?E1, ?E2, ?E3, ?E4, ?E5, ?E6.
  - apply (failing _ ds' e); by rewrite ?E1, ?E2, ?E3, ?E4, ?E5, ?E6.
  - apply (ending _ ds'); by rewrite ?E1, ?E2, ?E3, ?E4, ?E5, ?E6.
  - destruct (client_before s s' ds [last_frame] []) as [(E1&E2&E3&E4&E5&E6&E7&E8&E9) Hs']; [done..|by right|done|done|].
    assert (no_cancel s') as Hnc' by (destruct Hnc; split; congruence).
    destruct Hs' as [(ds' & Hf' & Hcl' & Hw')|(-> & _ & Hcb & Hw' & Hcalls & Hcb' & He & Hec & Hm & Hcc)].
    + apply (ended _ ds'); by rewrite ?E1, ?E2, ?E3, ?E4, ?E5, ?E6, ?E7.
    + apply received; rewrite ?E1, ?E2, ?E3, ?E4, ?E5, ?E6, ?E7; try done.
      unfold flow in Hf. rewrite Hcb in Hf. simpl in Hf. rewrite Hcalls.
      destruct Hpump as [Hpu|Hpu]; rewrite Hpu in Hf; simpl in Hf; by rewrite app_nil_r in Hf.
  - open_phase s. inversion Hs; simpl in *; subst; simplify_eq;
      first [by apply received|apply returned; done || (simpl; congruence)].
  - open_phase s. inversion Hs; simpl in *; subst; simplify_eq;
      first [by apply returned|naive_solver].
Qed.

Lemma reachable_phase s : rtc (stream_step fn) (start outputs) s → phase s.
Proof.
  apply rtc_invariant; [|apply phase_start].
  intros s1 s2 [] Hp; [eapply server_phase|eapply client_phase]; eauto.
Qed.

(** As long as the client has not returned, something can happen. *)
Lemma phase_progress s :
  phase s → (∃ s', stream_step fn s s') ∨ main s = MDone failure.
Proof.
  assert (∀ s', no_cancel s → server_step s s' → ∃ s', stream_step fn s s') as Hserver.
  { intros s' [_ Hc] Hs. exists s'. by apply on_server. }
  assert (∀ s', client_step fn s s' → ∃ s', stream_step fn s s') as Hclient.
  { intros s' Hs. exists s'. by apply on_client. }
  intros [ds rest (Hl&?&?&?) Hf Ht Hc Hi Hpu Hr Hrc|ds e (Hl&?&?&?) Hf Ht He Hi Hpu Hr Hrc
    |ds e (Hl&?&?&?) Hf Ht He Hi Hpu Hr Hrc|ds (Hl&?&?&?) Hf Ht Hi Hpu Hr
    |ds Hl Hw (He&Hec&Hm&_) Hnc Hf Htodo Hi Hpump Hr|Hl Hw Hnc Hcalls Hcb Htodo Hi Hpump Hr He Hec Hm Hcc
    |Hl Hw Hnc Hcalls Hcb Htodo Hi Hpump Hr He Hm Hcc]; [left..|by right].
  - destruct Hpu as [Hpu|[a Hpu]]; [|by eapply Hserver, loop_result].
    destruct (fn_todo s) as [|[a|e] l] eqn:Htodo.
    + destruct (fn_closed s) eqn:Hfc; [by eapply Hserver, pump_closed|by eapply Hserver, fn_returns].
    + by eapply Hserver, fn_sends.
    + by eapply Hserver, fn_fails.
  - destruct Hpu as [Hpu|[a Hpu]]; [by eapply Hserver, pump_error|by eapply Hserver, loop_result].
  - by eapply Hserver, pump_fails.
  - destruct Hpu as [[Hpu Hrc]|[Hpu Hrc]]; [by eapply Hserver, pump_returns|].
    destruct failure as [e|]; [by eapply Hserver, loop_error|by eapply Hserver, loop_eof].
  - destruct (cb s) as [a|] eqn:Hcb; [by eapply Hclient, main_result|].
    assert (∀ r, main s ≠ MDone r) as Hm' by congruence.
    destruct ds as [|a ds]; simpl in Hw; [|by eapply Hclient, receive_result].
    unfold last_frame in Hw. destruct failure; [by eapply Hclient, receive_error|by eapply Hclient, receive_eof].
  - destruct (errs s) as [e|] eqn:Hes; [by eapply Hclient, main_error|by eapply Hclient, main_eof].
Qed.

Lemma phase_calls s : phase s → crashed s = false ∧ calls s `prefix_of` results ∧
  ∀ r, main s = MDone r → r = failure ∧ calls s = results.
Proof.
  intros [ds rest (Hl&?&(_&_&Hm&_)&[_ ?]) Hf|ds e (Hl&?&(_&_&Hm&_)&[_ ?]) Hf
    |ds e (Hl&?&(_&_&Hm&_)&[_ ?]) Hf|ds (Hl&?&(_&_&Hm&_)&[_ ?]) Hf
    |ds Hl Hw (He&Hec&Hm&_) [_ ?] Hf|Hl Hw [_ ?] Hcalls Hcb Htodo Hi Hpump Hr He Hec Hm Hcc
    |Hl Hw [_ ?] Hcalls Hcb Htodo Hi Hpump Hr He Hm Hcc]; (split; [done|]).
  1-5: (split; [rewrite <-Hf; by eexists|by rewrite Hm]).
  - rewrite Hcalls. split; [done|by rewrite Hm].
  - rewrite Hcalls, Hm. split; [done|]. by intros r [= <-].
Qed.

(** (C24) A streamed reply arrives whole, however the goroutines of the server and
    the client interleave: as long as the client's callback accepts what it is
    given, it is called with the results in the order they were sent, none is
    lost when the stream ends, and the call returns exactly the error with which
    the endpoint's function ended, or none; until it has returned some step is
    always possible, and the server never panics. *)
Theorem stream_delivers s :
  rtc (stream_step fn) (start outputs) s →
  crashed s = false ∧ calls s `prefix_of` results ∧
  (∀ r, main s = MDone r → r = failure ∧ calls s = results) ∧
  ((∃ s', stream_step fn s s') ∨ main s = MDone failure).
Proof.
  intros Hp%reachable_phase. pose proof (phase_progress s Hp). by destruct (phase_calls s Hp) as (?&?&?).
Qed.
End stream_facts.

(** ** Every stream ends *)
Section stream_ends.
Context {A : Type} (fn : list A → A → option callback_error).

Definition output_weight (o : output A) : nat := match o with Item _ => 10 | Fail_ _ => 20 end.
Definition frame_weight (f : frame A) : nat := match f with Data_ _ => 6 | _ => 7 end.

(** What the messages and the goroutines of a state can still do. *)
Definition weight (s : Sys A) : nat :=
  sum_list_with output_weight (fn_todo s) + (if fn_closed s then 0 else 1) +
  (match iErrs s with Some _ => 18 | None => 0 end) +
  (match pump s with PWait => 3 | PItem _ => 11 | PErr _ => 17 | PDone => 2 | PClosed => 0 end) +
  (match retErr s with Some (RetErr _) => 13 | Some ErrStreamCancel => 3 | None => 0 end) +
  (if loop s then 8 else 0) + sum_list_with frame_weight (wire s) +
  (if cancel_wire s then 4 else 0) + (match cb s with Some _ => 5 | None => 0 end) +
  (match errs s with Some _ => 3 | None => 0 end) +
  (match main s with MRun => 3 | MCancelling _ => 2 | MDone _ => 1 end) +
  (if canceller s then 6 else 0).

Lemma weight_decreases s s' : stream_step fn s s' → weight s' < weight s.
Proof.
  intros [? ? _ Hs|? ? Hs]; destruct Hs; unfold weight, take_result; simpl;
    repeat match goal with H : ?f _ = _ |- _ => rewrite H; clear H end;
    rewrite ?sum_list_with_app; simpl; try lia;
    repeat (case_match; simpl; try lia).
Qed.

(** No exchange of a stream goes on for ever, whatever the endpoint's
    function sends, whether or not the client cancels, and however the
    goroutines interleave. *)
Theorem streams_end s : Acc (λ s' s, stream_step fn s s') s.
Proof.
  induction s as [s IH] using (induction_ltof1 _ weight). constructor. intros s' Hs.
  apply IH. unfold ltof. by apply weight_decreases.
Qed.
End stream_ends.

(** ** Cancellation races *)
Section cancellation.
Context {A : Type} (a b : A) (e : string).

(** A callback that refuses what it is given. *)
Definition refusing (_ : list A) (_ : A) : option callback_error := Some (CallbackError e).

Ltac server_go rule := eapply rtc_l; [apply on_server; [done|]; by eapply rule|]; simpl.
Ltac client_go rule := eapply rtc_l; [apply on_client; by eapply rule|]; simpl.

(** A client that cancels can bring the server down: when the endpoint's
    function has returned, the cancellation is sent on a channel that is closed.
    And the cancellation can be lost: the client returns while nothing is on its
    way to the server, which goes on with the stream. *)
Theorem cancellation_races :
  (∃ s, rtc (stream_step refusing) (start [Item a]) s ∧ crashed s = true) ∧
  (∃ s, rtc (stream_step refusing) (start [Item a; Item b]) s ∧ main s = MDone (Some e) ∧
     cancel_wire s = false ∧ canceller s = false ∧ loop s = true ∧ fn_todo s = [Item b]).
Proof.
  split.
  - eexists. split.
    + unfold start. server_go @fn_sends. server_go @loop_result. server_go @fn_returns.
      server_go @pump_closed. server_go @pump_returns.
      eapply rtc_l; [apply on_client; eapply receive_result; [|done|done]; by intros r|]. simpl.
      client_go @main_result. client_go @canceller_sends. server_go @cancel_on_closed. apply rtc_refl.
    + done.
  - eexists. split.
    + unfold start. server_go @fn_sends. server_go @loop_result.
      eapply rtc_l; [apply on_client; eapply receive_result; [|done|done]; by intros r|]. simpl.
      client_go @main_result. client_go @main_cancels. client_go @canceller_quits. apply rtc_refl.
    + done.
Qed.
End cancellation.

(** ** Witness *)
Lemma stream_delivers_witness :
  ∃ s, rtc (stream_step (λ _ _, None)) (start (outputs [1; 2] (Some "broken"))) s ∧
    calls s `prefix_of` [1; 2] ∧ (∃ s', stream_step (λ _ _, None) s s').
Proof.
  exists (start (outputs [1; 2] (Some "broken"))). split; [apply rtc_refl|].
  destruct (stream_delivers (λ _ _, None) [1; 2] (Some "broken") (λ _ _, eq_refl)
    (start (outputs [1; 2] (Some "broken"))) (rtc_refl _ _)) as (_ & Hc & _ & [Hs|Hm]).
  - split; [exact Hc|exact Hs].
  - discriminate Hm.
Defined.
