(* ===== verification/Indexer.v ===== *)
(** * The index of a key-value store

    [common/indexer/index.go] and [SafeDelete] of [common/natsutil.go].  A bucket
    is the log of its entries; the indexer follows the log and keeps, under each
    index key that a function makes of an entry, the key of the entry.

    [index_refines]: when every update is handled before the next write, no key is
    written over, and no two keys have an index key in common, the index is exactly
    that of the entries that are there.  [shared_index_key_is_lost]: the index holds
    one key under each index key.
    [index_goes_stale]: when an entry is written over, or the indexer falls behind,
    index keys stay that nothing removes. *)
From stdpp Require Import sorting.
From S2P Require Import Prelude Errors.

Inductive Op := KeyValuePut | KeyValueDelete | KeyValuePurge.

#[export] Instance Op_eq_dec : EqDecision Op.
Proof. solve_decision. Defined.

Record Entry := mkEntry {
  en_Key : string;
  en_Value : string;
  en_Operation : Op;
  en_Revision : nat }.

(** ** Buckets *)
Abbreviation Log := (list Entry).

Section bucket.

(** How many entries of a key the bucket keeps. *)
Context (keeps : nat).

Definition of_key (k : string) (log : Log) : Log := filter (λ e, en_Key e = k) log.

(** [kv.History] *)
Definition History (log : Log) (k : string) : list Entry + error :=
  let l := of_key k log in
  match l with
  | [] => inr (Sentinel ErrKeyNotFound)
  | _ => inl (drop (length l - keeps) l)
  end.

(** [kv.Get] *)
Definition log_Get (log : Log) (k : string) : Entry + error :=
  match last (of_key k log) with
  | Some e => if bool_decide (en_Operation e = KeyValuePut) then inl e else inr (Sentinel ErrKeyNotFound)
  | None => inr (Sentinel ErrKeyNotFound)
  end.

(** [kv.Delete] with [jetstream.LastRevision] *)
Definition log_Delete (log : Log) (k : string) (revision : nat) : Log * option error :=
  if bool_decide (en_Revision <$> last (of_key k log) = Some revision)
  then (log ++ [mkEntry k "" KeyValueDelete (S (length log))], None)
  else (log, Some WrongLastSequence).

(** [SafeDelete], where [between] is what others write between its calls.  The
    history is never empty. *)
Definition SafeDelete (between : Log → Log) (log : Log) (key : string) : Log * option error :=
  match History log key with
  | inr err => (log, Some (Wrap "get history for delete" err))
  | inl history =>
      match last history with
      | None => (log, None)
      | Some last =>
          if bool_decide (en_Operation last = KeyValueDelete) then (between log, None)
          else
            let r := log_Delete (between log) key (en_Revision last) in
            (r.1, Wrap "delete last revision" <$> r.2)
      end
  end.

(** ** The indexer *)
Context (indexFn : Entry → list string).

Abbreviation Index := (gmap string string).

(** What is done with an update; [log] is the bucket at that time.  [None] is a
    panic.  A purge is only logged. *)
Definition handle_update (log : Log) (u : Entry) (db : Index) : option Index :=
  match en_Operation u with
  | KeyValueDelete =>
      match History log (en_Key u) with
      | inr _ => None
      | inl rv =>
          if bool_decide (length rv < 2) then None
          else
            last ← rv !! (length rv - 2);
            Some (foldl (λ db key, delete key db) db (indexFn last))
      end
  | KeyValuePut => Some (foldl (λ db key, <[key := en_Key u]> db) db (indexFn u))
  | KeyValuePurge => Some db
  end.

(** The bucket, how many of its entries the indexer has handled, the index. *)
Record indexing := mkIndexing { ix_log : Log; ix_handled : nat; ix_db : Index }.

Inductive event := Write (e : Entry) | Handle.

Definition index_step (s : indexing) (ev : event) : option indexing :=
  match ev with
  | Write e => Some (mkIndexing (ix_log s ++ [e]) (ix_handled s) (ix_db s))
  | Handle =>
      match ix_log s !! ix_handled s with
      | None => Some s
      | Some u =>
          db ← handle_update (ix_log s) u (ix_db s);
          Some (mkIndexing (ix_log s) (S (ix_handled s)) db)
      end
  end.

Fixpoint index_run (evs : list event) (s : indexing) : option indexing :=
  match evs with
  | [] => Some s
  | ev :: evs => s ← index_step s ev; index_run evs s
  end.

(** [Fetch]: the entries behind the index keys with a prefix, in the order of the
    keys; those that cannot be read are only logged. *)
Definition Fetch (s : indexing) (prefix : string) : list Entry :=
  omap (λ key, val ← ix_db s !! key;
               match log_Get (ix_log s) val with inl e => Some e | inr _ => None end)
    (merge_sort String.le (filter (λ key, HasPrefix key prefix = true) (map fst (map_to_list (ix_db s))))).

(** [Start] and its mutex: [None] is a call that waits for ever. *)
Record start_state := mkStartState { startMx : bool; startOnce : bool }.

Definition Start (s : start_state) : option (start_state * bool) :=
  if startMx s then None
  else if startOnce s then Some (mkStartState true true, false)
  else Some (mkStartState false true, true).
End bucket.

(** ** What is in a bucket *)
Definition live (log : Log) : gmap string Entry :=
  foldl (λ m e, if bool_decide (en_Operation e = KeyValuePut) then <[en_Key e := e]> m
                else delete (en_Key e) m) ∅ log.

Lemma live_snoc log e : live (log ++ [e]) =
  if bool_decide (en_Operation e = KeyValuePut) then <[en_Key e := e]> (live log)
  else delete (en_Key e) (live log).
Proof. unfold live. by rewrite foldl_app. Qed.

Lemma of_key_snoc k log e :
  of_key k (log ++ [e]) = of_key k log ++ if decide (en_Key e = k) then [e] else [].
Proof. unfold of_key. rewrite filter_app, filter_cons. by case_decide. Qed.

Lemma live_last log k p :
  live log !! k = Some p → last (of_key k log) = Some p ∧ en_Operation p = KeyValuePut ∧ en_Key p = k.
Proof.
  induction log as [|e log IH] using rev_ind; [done|]. rewrite live_snoc, of_key_snoc. case_bool_decide as Hop.
  - intros [[<- <-]|[Hne Hl]]%lookup_insert_Some.
    + by rewrite decide_True, last_snoc.
    + rewrite decide_False, app_nil_r by done. by apply IH.
  - intros [Hne Hl]%lookup_delete_Some. rewrite decide_False, app_nil_r by done. by apply IH.
Qed.

Lemma last_drop {A} (l : list A) n : n < length l → last (drop n l) = last l.
Proof.
  intros Hn. rewrite !last_lookup, lookup_drop, length_drop. f_equal. lia.
Qed.

(** A deletion that reports success took away the entry that was found, and
    nothing that was written in between; or the entry was deleted already. *)
Lemma SafeDelete_deletes keeps between log key log' :
  keeps ≠ 0 → SafeDelete keeps between log key = (log', None) →
  ∃ e, last (of_key key log) = Some e ∧
    (en_Operation e = KeyValueDelete ∧ log' = between log ∨
     en_Revision <$> last (of_key key (between log)) = Some (en_Revision e) ∧
     live log' !! key = None).
Proof.
  intros Hk. unfold SafeDelete, History. destruct (of_key key log) as [|x l] eqn:Hl; [done|]. rewrite <-Hl.
  rewrite last_drop by (rewrite Hl; simpl; lia).
  destruct (last (of_key key log)) as [e|] eqn:He; [|apply last_None in He; congruence].
  case_bool_decide; intros Hr; exists e; (split; [done|]).
  - injection Hr as <-. by left.
  - right. unfold log_Delete in Hr. case_bool_decide; [|by injection Hr]. injection Hr as <-.
    split; [done|]. rewrite live_snoc, bool_decide_false by done. simpl. by rewrite lookup_delete_eq.
Qed.

(** ** The index of a bucket *)
Section refines.
Context (keeps : nat) (indexFn : Entry → list string).

(** The index keys of two keys are different. *)
Definition apart : Prop := ∀ p q i, i ∈ indexFn p → i ∈ indexFn q → en_Key p = en_Key q.
Context (Hapart : apart).

(** No key is written over, and only what is there is deleted. *)
Definition orderly (log : Log) : Prop := ∀ pre e post, log = pre ++ e :: post →
  match en_Operation e with
  | KeyValuePut => live pre !! en_Key e = None
  | KeyValueDelete => is_Some (live pre !! en_Key e)
  | KeyValuePurge => False
  end.

(** Every write is handled before the next. *)
Definition in_step (log : Log) : list event := flat_map (λ e, [Write e; Handle]) log.

Definition indexes (db : gmap string string) (log : Log) : Prop :=
  ∀ i k, db !! i = Some k ↔ ∃ p, live log !! k = Some p ∧ i ∈ indexFn p.

Lemma index_run_app evs1 evs2 s :
  index_run keeps indexFn (evs1 ++ evs2) s = index_run keeps indexFn evs1 s ≫= index_run keeps indexFn evs2.
Proof.
  revert s. induction evs1 as [|ev evs1 IH]; intros s; [done|]. simpl.
  destruct (index_step _ _ s ev); simpl; [apply IH|done].
Qed.

Lemma foldl_insert_lookup l k (db : gmap string string) i :
  foldl (λ db key, <[key := k]> db) db l !! i = if decide (i ∈ l) then Some k else db !! i.
Proof.
  revert db. induction l as [|x l IH]; intros db; [done|]. simpl. rewrite IH.
  destruct (decide (i ∈ l)); [rewrite decide_True by set_solver; done|].
  destruct (decide (i = x)) as [->|Hne].
  - rewrite lookup_insert_eq, decide_True by set_solver. done.
  - rewrite lookup_insert_ne, decide_False by set_solver. done.
Qed.

Lemma foldl_delete_lookup l (db : gmap string string) i :
  foldl (λ db key, delete key db) db l !! i = if decide (i ∈ l) then None else db !! i.
Proof.
  revert db. induction l as [|x l IH]; intros db; [done|]. simpl. rewrite IH.
  destruct (decide (i ∈ l)); [rewrite decide_True by set_solver; done|].
  destruct (decide (i = x)) as [->|Hne].
  - rewrite lookup_delete_eq, decide_True by set_solver. done.
  - rewrite lookup_delete_ne, decide_False by set_solver. done.
Qed.

Lemma indexes_put db log e :
  indexes db log → en_Operation e = KeyValuePut → live log !! en_Key e = None →
  indexes (foldl (λ db key, <[key := en_Key e]> db) db (indexFn e)) (log ++ [e]).
Proof.
  intros Hdb Hop Hnew i k. rewrite foldl_insert_lookup, live_snoc, bool_decide_true by done.
  destruct (decide (i ∈ indexFn e)) as [Hi|Hi].
  - split.
    + intros [= <-]. exists e. by rewrite lookup_insert_eq.
    + intros (p & [[<- _]|[Hne Hp]]%lookup_insert_Some & Hip); [done|].
      apply live_last in Hp as (_ & _ & <-). destruct Hne. by apply (Hapart e p i).
  - rewrite (Hdb i k). split; intros (p & Hp & Hip).
    + exists p. rewrite lookup_insert_ne; [done|]. intros <-. congruence.
    + apply lookup_insert_Some in Hp as [[_ <-]|[_ Hp]]; [done|by exists p].
Qed.

Lemma indexes_delete db log e p :
  indexes db log → en_Operation e = KeyValueDelete → live log !! en_Key e = Some p →
  indexes (foldl (λ db key, delete key db) db (indexFn p)) (log ++ [e]).
Proof.
  intros Hdb Hop Hl i k. rewrite foldl_delete_lookup, live_snoc, bool_decide_false by congruence.
  destruct (decide (i ∈ indexFn p)) as [Hi|Hi].
  - split; [done|]. intros (q & [Hne Hq]%lookup_delete_Some & Hiq).
    apply live_last in Hl as (_ & _ & Hlp), Hq as (_ & _ & <-). destruct Hne. rewrite <-Hlp. by apply (Hapart p q i).
  - rewrite (Hdb i k). split; intros (q & Hq & Hiq).
    + exists q. rewrite lookup_delete_ne; [done|]. intros <-. congruence.
    + apply lookup_delete_Some in Hq as [_ Hq]. by exists q.
Qed.

Lemma in_step_indexes log :
  2 ≤ keeps → orderly log →
  ∃ db, index_run keeps indexFn (in_step log) (mkIndexing [] 0 ∅) = Some (mkIndexing log (length log) db) ∧
    indexes db log.
Proof.
  intros Hk. induction log as [|e log IH] using rev_ind; intros Ho.
  { exists ∅. split; [done|]. intros i k. rewrite lookup_empty. split; [done|]. by intros (p & Hp & _). }
  destruct IH as (db & Hrun & Hdb).
  { intros pre x post ->. apply (Ho pre x (post ++ [e])). by rewrite <-app_assoc. }
  specialize (Ho log e [] eq_refl).
  enough (∃ db', handle_update keeps indexFn (log ++ [e]) e db = Some db' ∧ indexes db' (log ++ [e])) as (db' & Hu & Hdb').
  { exists db'. split; [|done]. unfold in_step. rewrite flat_map_app, index_run_app.
    change (flat_map (λ e, [Write e; Handle]) log) with (in_step log). rewrite Hrun. simpl.
    rewrite list_lookup_middle by done. simpl. rewrite Hu. simpl. by rewrite length_app, Nat.add_comm. }
  unfold handle_update. destruct (en_Operation e) eqn:Hop; [|destruct Ho as [p Hp]|done].
  - eexists. split; [done|]. by apply indexes_put.
  - destruct (live_last _ _ _ Hp) as (Hlast & _ & _).
    unfold History. rewrite of_key_snoc, decide_True by done.
    destruct (of_key (en_Key e) log ++ [e]) as [|x l] eqn:Hl; [by destruct (of_key _ log)|]. rewrite <-Hl.
    set (hist := of_key (en_Key e) log) in *.
    assert (1 ≤ length hist) as Hlen by (destruct hist; [done|simpl; lia]).
    rewrite length_drop, length_app. simpl. rewrite bool_decide_false by lia.
    rewrite lookup_drop. rewrite lookup_app_l by lia.
    replace (length hist + 1 - keeps + (length hist + 1 - (length hist + 1 - keeps) - 2)) with (pred (length hist)) by lia.
    rewrite <-last_lookup, Hlast. eexists. split; [done|]. by apply indexes_delete.
Qed.
End refines.


Lemma Start_deadlocks s1 s2 :
  Start (mkStartState false false) = Some (s1, true) → Start s1 = Some (s2, false) → Start s2 = None.
Proof. by intros [= <-] [= <-]. Qed.

(** An index by key and value. *)
Definition ex_indexFn (e : Entry) : list string := [en_Key e +:+ "/" +:+ en_Value e].
Definition ex_put (k v : string) (r : nat) : Entry := mkEntry k v KeyValuePut r.
Definition ex_delete (k : string) (r : nat) : Entry := mkEntry k "" KeyValueDelete r.

Definition stale (s : indexing) : Prop :=
  ix_handled s = length (ix_log s) ∧
  ∃ i k, ix_db s !! i = Some k ∧ ∀ p, live (ix_log s) !! k = Some p → i ∉ ex_indexFn p.

(** An index key stays when its entry is written over, even if every update is
    handled at once; it stays when a deletion is handled late, for then the entry
    before the last is another; and a bucket that keeps one entry of a key makes
    the indexer panic at the first deletion. *)
Theorem index_goes_stale :
  (∃ s, index_run 5 ex_indexFn (in_step [ex_put "k" "a" 1; ex_put "k" "b" 2]) (mkIndexing [] 0 ∅) = Some s ∧ stale s) ∧
  (∃ s, index_run 5 ex_indexFn ([Write (ex_put "k" "a" 1); Handle; Write (ex_delete "k" 2);
      Write (ex_put "k" "b" 3); Write (ex_delete "k" 4)] ++ [Handle; Handle; Handle]) (mkIndexing [] 0 ∅) = Some s ∧
    stale s ∧ live (ix_log s) = ∅) ∧
  index_run 1 ex_indexFn (in_step [ex_put "k" "a" 1; ex_delete "k" 2]) (mkIndexing [] 0 ∅) = None.
Proof.
  split_and!; [eexists; split; [vm_compute; reflexivity|]..|vm_compute; reflexivity].
  - split; [done|]. exists "k/a", "k". split; [done|]. intros p [= <-]. by apply (bool_decide_unpack _).
  - split; [|done]. split; [done|]. by exists "k/a", "k".
Qed.

(** An index by value.  Of two entries with one value the index has the key of the
    last, and the deletion of that one leaves the other without. *)
Definition ex_by_value (e : Entry) : list string := [en_Value e].

Lemma shared_index_key_is_lost :
  let log := [ex_put "a" "x" 1; ex_put "b" "x" 2; ex_delete "b" 3] in
  index_run 5 ex_by_value (in_step log) (mkIndexing [] 0 ∅) = Some (mkIndexing log 3 ∅) ∧
  live log !! "a" = Some (ex_put "a" "x" 1).
Proof. split; vm_compute; reflexivity. Qed.

Definition ex_log_entries : list Entry := [ex_put "a" "1" 1; ex_put "b" "2" 2; ex_delete "a" 3].

(** An index by key. *)
Definition ex_by_key (e : Entry) : list string := ["by-key/" +:+ en_Key e].

